(* ===== verification/_CoqProject ===== *)
-Q . S2P
Prelude.v
Errors.v
Wire.v
Stream.v
Result.v
Protocol.v
Crypto.v
Session.v
Handshake.v
Config.v
Conn.v
ConnInv.v
ConnWriter.v
ConnReader.v
ConnLive.v
ConnApi.v
ConnTimed.v
ConnDestroy.v
App.v
ConnAttack.v
ConnRace.v
ConnFail.v
Socket.v
SocketProtocol.v
Dial.v
Established.v
Server.v
ServerStack.v
ChatServer.v
ChatClient.v
Simple.v
TransferCodec.v
TransferCodecSpec.v
Prog.v
ProgLogic.v
Transfer.v
TransferReceive.v
TransferSend.v
Net.v
TransferE2E.v
TransferFile.v
TransferHash.v
TransferSafety.v
TransferConn.v
TransferTerm.v
