(* ===== verification/Prelude.v ===== *)
(** * cpptcpduplex: a verification development

    The program is a C++ library for encrypted duplex messaging over TCP with a file
    transfer protocol on top ([src/src], [src/include/cpptcpduplex]).  Its parts,
    from the bottom:

    - a socket ([detail/socket.cpp]) turns system calls into [read_exact] and
      [write_all]; the [ByteStream] interface ([protocol/protocol.hpp]) hides it;
    - the framing ([protocol/protocol.cpp]) writes and reads handshake messages and
      records on a stream;
    - the handshake ([crypto/handshake.cpp], [crypto/x25519.cpp], [fingerprint.cpp])
      exchanges X25519 keys with an optional pin and pre-shared key and derives a
      session ([crypto/session.cpp]), which seals and opens payloads with AES-GCM;
    - a connection ([conn.cpp]) owns a socket and a session and runs a reader, a
      writer and, with a callback, a deliver thread between bounded queues and the
      application's [send], [receive] and [shutdown];
    - [dial.cpp] and [server.cpp] make connections under a frozen configuration
      ([config.cpp]);
    - the transfer layer ([transfer/transfer.cpp]) sends an object in chunks with a
      window, acknowledgements, resumption, a final hash exchange and retries.

    ** Files

    - [Prelude]: bytes as [Byte.byte], w-bit integers as [Z] with the wrap-around
      written out, the tactics and hint database of the development.
    - [Errors]: error codes, both categories, messages ([errors.cpp], [errors.hpp]).
    - [Wire]: the big-endian readers and writers of protocol.cpp and transfer.cpp.
    - [Stream]: the class [ByteStream] with the state-and-error monad [io] of its
      clients, the laws a stream promises ([StreamSpec]) and an in-memory instance.
      Clients are proved against the laws; [Socket] discharges them.
    - [Result]: values, error codes or undefined behaviour, for code with unchecked
      buffer accesses.
    - [Protocol], [Crypto], [Session], [Handshake], [Config]: one file per source
      file.  [Crypto] holds no code: SHA-256, AES-GCM, CTR-DRBG and X25519 are
      vendored, so they are operations of classes with their documented behaviour
      as laws, and toy instances that satisfy the laws make statements evaluable.
    - [Conn]: the connection as an executable labelled transition system ([step]):
      the members of the class, a program point per thread, mutexes, condition
      variables with their waiters, atomics, spurious wake-ups and time-outs.
      [ConnInv], [ConnWriter], [ConnReader], [ConnLive] are its invariants.
    - [ConnApi]: the public calls: the overloads that throw, and the class invariant of
      the members.
    - [ConnTimed]: the calls with a timeout.
    - [ConnDestroy]: the destructor as the steps of a thread, [shutdown] and three joins,
      beside those of the connection.
    - [App]: programs that use a connection: threads that make its public calls one
      after the other (class [Program]: the next call, what follows its outcome), in any
      interleaving with the threads of the connection; one thread that does all the
      sending or receiving knows what was queued or received ([Roles], [threads_see]).
    - [ConnAttack]: two connections with a network between them that may do anything but
      forge; [ConnRace]: which members each step of a thread accesses under which
      mutexes; [ConnFail]: what is left of a connection after a failed write.
    - [Socket]: addresses, [TcpSocket] and [TcpListener] over the system calls as a
      class [Kernel] with the manual pages' promises as [KernelLaws].
    - [SocketProtocol]: the overloads of protocol.cpp that take a socket.
    - [Dial], [Server]: establishing connections, with the overloads that throw; the
      accept loop with its workers and concurrent [stop] as a transition system.
    - [Established]: [dial] and [serve_conn] over two kernels and the two connections
      they make, run by their threads over the sockets.
    - [ServerStack]: that system over the operating system: what accept, the
      handshakes, the connections that end, [close] and the destructors do to the
      descriptors, with the rest of the process free to do anything to its own.
    - [ChatServer]: the relay of [examples/server/main.cpp]: the callbacks of all peers
      with their mutex and their vector of connections as a transition system; what
      [receive], [send] and [shutdown] of a connection answer is in the labels.
      [ChatClient]: the two threads of [examples/client/main.cpp]; [Simple]: both ends of
      [examples/simple/main.cpp]; they are programs in the sense of [App].
    - [TransferCodec], [TransferCodecSpec]: the seven frames of the transfer protocol
      and their specification; the textual ids.
    - [Prog], [ProgLogic]: programs as trees of the calls they make ([conn.send],
      [conn.receive], [read_at], [write_at], the callbacks), traces of calls with
      their answers, and a weakest-precondition logic over all traces.
    - [Transfer]: the transfer engine as such programs.  [TransferReceive] and
      [TransferSend] prove it against any peer.
    - [Net], [TransferE2E]: two programs joined by queues with a limit on the size of a
      message at each end, in every interleaving.
    - [TransferFile]: the file adapters over a [std::fstream] with its write buffer and
      its sticky failure state, on a device that may fail at any call; [send_file] and
      [receive_file], with theorems on the file's content.
    - [TransferHash]: the buffered hashing equals hashing at once; chunks in flight.
    - [TransferSafety]: sender and receiver over channels that lose, repeat and
      reorder, across retries and reconnections.
    - [TransferConn]: the whole stack: both transfer programs as application threads
      over connections of [Conn], each with its own reader and writer thread.
    - [TransferTerm]: how many messages [send] and [receive] can take to end.

    ** What the theorems show

    - Messages ([ConnWriter], [ConnReader]): in every interleaving the wire carries
      one sealed record per queued message in order, [receive] and the callback see
      the texts of the records read in order, without loss but for a text in hand at a
      stop and the texts the drop counter counts, and what one end receives is a prefix of what the
      other end queued.
    - Shutdown and waiting ([ConnLive], [ConnInv]): the order of shutdown, the flush
      of the queue and the close record unless a write fails, the queue bounds, and which waits are justified.  One theorem
      states defects: a reader waiting for queue space that nothing wakes, a mutex
      locked twice by the reader, and a notification that shutdown can miss.
    - Attacks, races and failures ([ConnAttack], [ConnRace], [ConnFail]): every message
      received was queued by one of the two ends or is a retyped close record, and
      records within the receiver's limit can be repeated,
      reordered, reflected and retyped unnoticed; the only two data races of a
      connection; after a failed write [send] goes on accepting messages.
    - From [dial] to delivery ([Established]): connections made by [dial] and
      [serve_conn] over sockets with equal pre-shared keys have the same session and
      deliver in both directions.
    - The chat server ([ChatServer]): no use of a destroyed connection, each member
      is sent exactly what was relayed since it joined, one slow peer holds up the room.
    - The clients ([ChatClient], [Simple]): the lines typed before "/quit" are what is
      sent and what the peer receives, in order; what is printed is what the peer sent;
      [close] throws nothing and a program that is done has joined every thread.
    - Public calls ([ConnApi]): the errors each call can end with, what can be in which
      queue, the size test of [send] with its wrap at 2 GiB and the messages the writer
      cannot carry.  A call with a timeout can always end by its own steps ([ConnTimed]).
      The destructor ([ConnDestroy]) leaves nothing that can run, and comes to its end
      unless the reader is stuck, and then never.
    - Keys ([Handshake], [Session]): agreement (on the key, when the pre-shared keys are
      equal), completeness and pinning of the handshake; [open] inverts [seal] and accepts nothing else; key derivation.
    - Formats ([Protocol], [TransferCodecSpec]): decoders accept exactly the
      specified bytes, without out-of-bounds accesses, and invert the encoders.
    - Transfers ([TransferReceive], [TransferSend], [TransferE2E]): against any peer,
      contiguous writes and chunks, truthful acknowledgements, the window, no
      undefined arithmetic, success only with a verified content, resumption across
      reconnections; a received file has the announced hash unless closing it fails,
      which is not reported; sender and receiver together finish in every interleaving
      when the offer fits the message limits and the receiver acknowledges once per
      window, and deadlock when it does not.
    - Transfers over the stack ([TransferSafety], [TransferConn], [TransferTerm]): what
      the receiver writes is always the source's content; a [send] that reports success
      had its content verified by the receiver, over connections that break anywhere
      and whose threads interleave in any way; both sides end within a bounded number
      of messages, unless the peer sends empty chunks or repeats itself for ever, which
      nothing stops.
    - Sockets and setup ([Socket], [Dial], [Server], [Config]): a socket is a stream
      however the kernel cuts the bytes, no path leaks a descriptor, deadlines are
      removed, sessions follow the configuration, [serve] waits for its workers.
    - The server over the kernel ([ServerStack], [SocketProtocol]): exact ownership of
      descriptors from [listen] to the destructor, connections with a session from the
      server's own pre-shared key and pin (not confirmed by the peer), and conversations that survive any partial [send] and [recv].

    ** Fuel and bounds

    [hash_fuel] allows one turn per started buffer and [chunk_fuel] one per byte left
    to send; both are proved enough.  The loops that wait for the peer take the number
    of messages they may receive as fuel: the theorems say that running out means
    having received that many, [TransferE2E] that the size of the content suffices
    between the two programs, and [TransferTerm] gives the bound against any peer.  The socket loops get one turn per byte, which suffices because every
    call that continues moves at least one.  Sizes above 2^62 are excluded where an
    offset plus a chunk must stay a 64-bit integer.

    ** Not modelled

    Vendored cryptography; the Windows branches; one-time socket initialisation;
    what other processes do to a file during a transfer, and losses below the system
    calls that write it;
    time, except that a wait with a time-out may end by it; exceptions of the standard
    library (memory or threads exhausted).  The example in [examples/transfer] makes a
    temporary file and calls [send_file] and [receive_file], which are modelled; the
    tests exercise the library.  Log lines and command lines of the examples are left
    out.  In [ServerStack] a handshake is one step: the calls it makes concern its own
    descriptor only.  In [Simple] the join of the server's thread may return at any
    time: the two ends are separate programs.  [Net] has the size tests of a connection
    and none of its other failures; those are in [TransferConn].  The text of operating system errors is a
    parameter. *)

From stdpp Require Export base numbers list strings option decidable sets.
From Stdlib Require Export ZArith Lia.
From Stdlib Require Export Strings.Byte.

#[global] Open Scope Z_scope.

(** ** Bytes: [std::uint8_t] is [Byte.byte], so the range 0..255 is in the type. *)

Notation u8 := Byte.byte.
Notation bytes := (list Byte.byte).

#[export] Instance u8_eq_dec : EqDecision u8 := Byte.byte_eq_dec.

Definition u8_val (b : u8) : Z := Z.of_N (Byte.to_N b).

(** [static_cast<std::uint8_t>(z)]: reduction modulo 256. *)
Definition u8_of (z : Z) : u8 :=
  match Byte.of_N (Z.to_N (z mod 256)) with Some b => b | None => Byte.x00 end.

(** ** Machine integers: a w-bit integer is a [Z] with the wrap-around written out. *)

Definition wrap16 (z : Z) : Z := z mod 2 ^ 16.
Definition wrap32 (z : Z) : Z := z mod 2 ^ 32.
Definition wrap64 (z : Z) : Z := z mod 2 ^ 64.

(** [static_cast<int>(z)] and [static_cast<std::int64_t>(z)] (two's complement, C++20). *)
Definition to_int (z : Z) : Z := (z + 2 ^ 31) mod 2 ^ 32 - 2 ^ 31.
Definition to_int64 (z : Z) : Z := (z + 2 ^ 63) mod 2 ^ 64 - 2 ^ 63.

Definition is_int (z : Z) : Prop := - 2 ^ 31 <= z < 2 ^ 31.
Definition is_int64 (z : Z) : Prop := - 2 ^ 63 <= z < 2 ^ 63.
#[export] Instance is_int_dec z : Decision (is_int z).
Proof. unfold is_int. apply _. Defined.
#[export] Instance is_int64_dec z : Decision (is_int64 z).
Proof. unfold is_int64. apply _. Defined.

(** [v.size()]. *)
Definition zlen {A} (l : list A) : Z := Z.of_nat (length l).

(** ** Automation of the development *)

Create HintDb duplex.

(** [case_bool]: case analysis on the boolean guards of the code, with the
    arithmetic comparisons turned into propositions. *)
Ltac bool_to_prop :=
  repeat match goal with
  | H : (_ <? _) = true |- _ => apply Z.ltb_lt in H
  | H : (_ <? _) = false |- _ => apply Z.ltb_ge in H
  | H : (_ <=? _) = true |- _ => apply Z.leb_le in H
  | H : (_ <=? _) = false |- _ => apply Z.leb_gt in H
  | H : (_ >? _) = true |- _ => rewrite Z.gtb_ltb in H; apply Z.ltb_lt in H
  | H : (_ >? _) = false |- _ => rewrite Z.gtb_ltb in H; apply Z.ltb_ge in H
  | H : (_ >=? _) = true |- _ => rewrite Z.geb_leb in H; apply Z.leb_le in H
  | H : (_ >=? _) = false |- _ => rewrite Z.geb_leb in H; apply Z.leb_gt in H
  | H : (_ =? _) = true |- _ => apply Z.eqb_eq in H
  | H : (_ =? _) = false |- _ => apply Z.eqb_neq in H
  | H : (_ && _) = true |- _ => apply andb_true_iff in H as [? ?]
  | H : (_ || _) = false |- _ => apply orb_false_iff in H as [? ?]
  | H : negb _ = true |- _ => apply negb_true_iff in H
  | H : negb _ = false |- _ => apply negb_false_iff in H
  | H : bool_decide _ = true |- _ => apply bool_decide_eq_true in H
  | H : bool_decide _ = false |- _ => apply bool_decide_eq_false in H
  end.

Ltac split_ifs :=
  repeat match goal with
  | |- context [if ?b then _ else _] => destruct b eqn:?
  end; bool_to_prop.

(** Rewrite a boolean guard to [true] or [false], proving it by [lia]. *)
Ltac guard_true b :=
  let H := fresh in assert (b = true) as H
    by (repeat (apply andb_true_iff; split); lia); rewrite H; clear H.
Ltac guard_false b :=
  let H := fresh in assert (b = false) as H by lia; rewrite H; clear H.

(** ** Lemmas on bytes *)

Lemma u8_val_range b : 0 <= u8_val b < 256.
Proof. unfold u8_val. pose proof (Byte.to_N_bounded b). lia. Qed.
#[export] Hint Resolve u8_val_range : duplex.

Lemma u8_val_of z : u8_val (u8_of z) = z mod 256.
Proof.
  unfold u8_val, u8_of.
  pose proof (Z.mod_pos_bound z 256 ltac:(lia)) as Hb.
  destruct (Byte.of_N (Z.to_N (z mod 256))) as [b|] eqn:E.
  - apply Byte.to_of_N in E. lia.
  - apply Byte.of_N_None_iff in E. lia.
Qed.

Lemma u8_val_of_small z : 0 <= z < 256 -> u8_val (u8_of z) = z.
Proof. intros. rewrite u8_val_of. by apply Z.mod_small. Qed.

Lemma u8_of_val b : u8_of (u8_val b) = b.
Proof.
  unfold u8_of, u8_val. pose proof (Byte.to_N_bounded b).
  rewrite Z.mod_small by lia. rewrite N2Z.id. by rewrite Byte.of_to_N.
Qed.
#[export] Hint Rewrite u8_of_val u8_val_of : duplex.

#[export] Instance u8_val_inj : Inj (=) (=) u8_val.
Proof. intros a b H. by rewrite <- (u8_of_val a), H, u8_of_val. Qed.

Lemma u8_of_mod z : u8_of (z mod 256) = u8_of z.
Proof. apply (inj u8_val). rewrite !u8_val_of. by rewrite Z.mod_mod. Qed.

(** ** Lemmas on machine integers *)

Lemma land_255 v : Z.land v 255 = v mod 256.
Proof. apply (Z.land_ones v 8). lia. Qed.

Lemma land_shiftl_byte a b : 0 <= b < 256 -> Z.land (Z.shiftl a 8) b = 0.
Proof.
  intros Hb. apply Z.bits_inj'. intros n Hn.
  rewrite Z.land_spec, Z.bits_0, Z.shiftl_spec by lia.
  destruct (Z.lt_ge_cases n 8) as [Hlt|Hge].
  - by rewrite (Z.testbit_neg_r a) by lia.
  - rewrite (Z.bits_above_log2 b n); [by rewrite andb_false_r|lia|].
    destruct (decide (b = 0)) as [->|Hnz]; [simpl; lia|].
    apply Z.log2_lt_pow2; [lia|].
    apply (Z.lt_le_trans _ (2 ^ 8)); [lia|]. apply Z.pow_le_mono_r; lia.
Qed.

(** Shifting left by a byte and or-ing a byte in is positional notation. *)
Lemma lor_shiftl_byte a b : 0 <= b < 256 -> Z.lor (Z.shiftl a 8) b = a * 256 + b.
Proof.
  intros Hb. pose proof (land_shiftl_byte a b Hb) as H0.
  rewrite <- Z.lxor_lor, <- Z.add_nocarry_lxor by done.
  by rewrite Z.shiftl_mul_pow2 by lia.
Qed.
