(* ===== verification/Errors.v ===== *)
(** * Errors

    The error model of the library: [include/cpptcpduplex/errors.hpp],
    [src/errors.cpp] and the error part of
    [include/cpptcpduplex/transfer/transfer.hpp].  A [std::error_code] is a value
    with the identity of its category; two codes are equal when both agree.
    [true] as a condition means "an error": the value is not zero. *)

From S2P Require Import Prelude.

(** The categories an error code of this program can carry. *)
Inductive error_category :=
  | system_category
  | generic_category
  | duplex_category
  | transfer_category.

#[export] Instance error_category_eq_dec : EqDecision error_category.
Proof. solve_decision. Defined.

Record error_code := ErrorCode { ec_value : Z; ec_category : error_category }.

#[export] Instance error_code_eq_dec : EqDecision error_code.
Proof. solve_decision. Defined.

(** [std::error_code{}] and [ec.clear()]. *)
Definition ec_none : error_code := ErrorCode 0 system_category.

(** [explicit operator bool]. *)
Definition ec_bool (ec : error_code) : bool := negb (ec_value ec =? 0).

(** [operator==] of two error codes. *)
Definition ec_eqb (a b : error_code) : bool :=
  bool_decide (ec_category a = ec_category b) && (ec_value a =? ec_value b).

(** ** [cpptcpduplex::errc] *)

Module Errc.

Inductive errc :=
  | ok | closed | receive_disabled | message_too_large | inbound_dropped
  | slow_consumer | unsupported_protocol | handshake_authentication
  | peer_fingerprint_mismatch | bad_handshake | bad_frame | canceled
  | timed_out | io_error | other.

#[export] Instance errc_eq_dec : EqDecision errc.
Proof. solve_decision. Defined.

(** [static_cast<int>(e)]. *)
Definition errc_value (e : errc) : Z :=
  match e with
  | ok => 0 | closed => 1 | receive_disabled => 2 | message_too_large => 3
  | inbound_dropped => 4 | slow_consumer => 5 | unsupported_protocol => 6
  | handshake_authentication => 7 | peer_fingerprint_mismatch => 8
  | bad_handshake => 9 | bad_frame => 10 | canceled => 11 | timed_out => 12
  | io_error => 13 | other => 14
  end.

#[export] Instance errc_value_inj : Inj (=) (=) errc_value.
Proof. intros [] []; simpl; (done || lia). Qed.

End Errc.

Definition make_error_code (e : Errc.errc) : error_code :=
  ErrorCode (Errc.errc_value e) duplex_category.

(** [error_category::message]: the switch on [static_cast<errc>(ev)]. *)
Definition duplex_message (ev : Z) : string :=
  if ev =? 0 then "success"
  else if ev =? 1 then "connection closed"
  else if ev =? 2 then "Receive unavailable while OnMessage is configured"
  else if ev =? 3 then "message exceeds MaxMessageBytes"
  else if ev =? 4 then "inbound OnMessage buffer full"
  else if ev =? 5 then "disconnected due to slow OnMessage consumer"
  else if ev =? 6 then "unsupported protocol version"
  else if ev =? 7 then "handshake authentication failed"
  else if ev =? 8 then "peer public key fingerprint mismatch"
  else if ev =? 9 then "invalid handshake"
  else if ev =? 10 then "invalid frame"
  else if ev =? 11 then "operation canceled"
  else if ev =? 12 then "operation timed out"
  else if ev =? 13 then "I/O error"
  else "error".

(** ** [cpptcpduplex::transfer::errc] *)

Module Transfer.

Inductive errc :=
  | ok | bad_frame | rejected | aborted | size_mismatch | hash_mismatch
  | resume_past_end | closed | too_many_retries | other.

Definition errc_value (e : errc) : Z :=
  match e with
  | ok => 0 | bad_frame => 1 | rejected => 2 | aborted => 3 | size_mismatch => 4
  | hash_mismatch => 5 | resume_past_end => 6 | closed => 7
  | too_many_retries => 8 | other => 9
  end.

Definition make_error_code (e : errc) : error_code :=
  ErrorCode (errc_value e) transfer_category.

Definition message (ev : Z) : string :=
  if ev =? 0 then "success"
  else if ev =? 1 then "invalid frame"
  else if ev =? 2 then "offer rejected"
  else if ev =? 3 then "aborted by peer"
  else if ev =? 4 then "size mismatch"
  else if ev =? 5 then "content hash mismatch"
  else if ev =? 6 then "resume offset exceeds size"
  else if ev =? 7 then "connection closed during transfer"
  else if ev =? 8 then "exceeded MaxAttempts"
  else "transfer error".

End Transfer.

(** ** [class Error] and the classification of codes *)

Section ErrorClass.

(** The text of a generic or system code comes from the C library. *)
Variable os_message : Z -> string.

Definition ec_message (ec : error_code) : string :=
  match ec_category ec with
  | duplex_category => duplex_message (ec_value ec)
  | transfer_category => Transfer.message (ec_value ec)
  | generic_category | system_category => os_message (ec_value ec)
  end.

Record Error := MkError { what : string; op_ : string; code_ : error_code }.

(** [Error(std::string op, std::error_code ec)]. *)
Definition Error_of_code (op : string) (ec : error_code) : Error :=
  MkError ("cpptcpduplex " +:+ op +:+ ": " +:+ ec_message ec) op ec.

(** [Error(std::string op, std::string message, errc code)]. *)
Definition Error_of_message (op msg : string) (code : Errc.errc) : Error :=
  MkError ("cpptcpduplex " +:+ op +:+ ": " +:+ msg) op (make_error_code code).

End ErrorClass.

(** POSIX numbers of the conditions the code compares with. *)
Definition EPIPE : Z := 32.
Definition ECONNRESET : Z := 104.

(** [ec == std::errc::x]: a code equals a generic condition when the default
    condition of its category is that condition (on POSIX the system category
    maps errno values to the generic one; the library's own categories keep the
    standard default, which never yields a generic condition). *)
Definition ec_eq_condition (ec : error_code) (cond : Z) : bool :=
  match ec_category ec with
  | generic_category | system_category => ec_value ec =? cond
  | duplex_category | transfer_category => false
  end.

Definition is_closed (ec : error_code) : bool :=
  ec_eqb ec (make_error_code Errc.closed) || ec_eq_condition ec ECONNRESET
  || ec_eq_condition ec EPIPE.

Definition is_eof (ec : error_code) : bool := is_closed ec.

(** ** Lemmas *)

Lemma ec_eqb_eq a b : ec_eqb a b = true <-> a = b.
Proof.
  destruct a as [va ca], b as [vb cb]. unfold ec_eqb; simpl.
  rewrite andb_true_iff, bool_decide_eq_true, Z.eqb_eq. naive_solver.
Qed.

Lemma ec_eqb_refl a : ec_eqb a a = true.
Proof. by apply ec_eqb_eq. Qed.

Lemma ec_eqb_neq a b : ec_eqb a b = false <-> a <> b.
Proof. rewrite <- ec_eqb_eq. destruct (ec_eqb a b); naive_solver. Qed.

Lemma make_error_code_bool e : ec_bool (make_error_code e) = true <-> e <> Errc.ok.
Proof. by destruct e. Qed.

Lemma transfer_make_error_code_bool e :
  ec_bool (Transfer.make_error_code e) = true <-> e <> Transfer.ok.
Proof. by destruct e. Qed.

#[export] Hint Rewrite ec_eqb_refl : duplex.
