(* ===== verification/Wire.v ===== *)
(** * Wire

    The big-endian integer codecs of [src/protocol/protocol.cpp] and
    [src/transfer/transfer.cpp], byte by byte as the code writes them, with a
    reference definition ([be_bytes], [be_value]) and the round trips in both
    directions. *)

From S2P Require Import Prelude.

(** [p[i]] on a buffer the callers have sized. *)
Definition at_ (p : bytes) (i : nat) : Z := u8_val (default Byte.x00 (p !! i)).

(** ** The codecs as written *)

Definition put_be16 (v : Z) : bytes :=
  [u8_of (Z.land (Z.shiftr v 8) 255); u8_of (Z.land v 255)].

Definition put_be32 (v : Z) : bytes :=
  [u8_of (Z.land (Z.shiftr v 24) 255); u8_of (Z.land (Z.shiftr v 16) 255);
   u8_of (Z.land (Z.shiftr v 8) 255); u8_of (Z.land v 255)].

(** The loop [for (int i = 7; i >= 0; --i) { p[i] = v & 0xff; v >>= 8; }]:
    [put_be_loop k v] stores the [k] remaining bytes in front of those stored. *)
Fixpoint put_be_loop (k : nat) (v : Z) (stored : bytes) : bytes :=
  match k with
  | O => stored
  | S k' => put_be_loop k' (Z.shiftr v 8) (u8_of (Z.land v 255) :: stored)
  end.

Definition put_be64 (v : Z) : bytes := put_be_loop 8 v [].

Definition get_be16 (p : bytes) : Z :=
  wrap16 (Z.lor (Z.shiftl (at_ p 0) 8) (at_ p 1)).

Definition get_be32 (p : bytes) : Z :=
  Z.lor (Z.lor (Z.lor (wrap32 (Z.shiftl (at_ p 0) 24)) (wrap32 (Z.shiftl (at_ p 1) 16)))
               (wrap32 (Z.shiftl (at_ p 2) 8)))
        (at_ p 3).

(** The loop [for (i = 0; i < 8; ++i) v = (v << 8) | p[i]] on [std::uint64_t]. *)
Definition get_be64 (p : bytes) : Z :=
  foldl (fun v i => Z.lor (wrap64 (Z.shiftl v 8)) (at_ p i)) 0 (seq 0 8).

(** ** Reference definitions *)

(** The [n] low-order bytes of [v], most significant first. *)
Fixpoint be_bytes (n : nat) (v : Z) : bytes :=
  match n with
  | O => []
  | S n' => be_bytes n' (v / 256) ++ [u8_of v]
  end.

Definition be_value (l : bytes) : Z := foldl (fun v b => v * 256 + u8_val b) 0 l.

(** ** Facts about the reference *)

Lemma length_be_bytes n v : length (be_bytes n v) = n.
Proof. revert v. induction n; intros v; simpl; [done|]. rewrite length_app, IHn. simpl. lia. Qed.

Lemma be_value_snoc l b : be_value (l ++ [b]) = be_value l * 256 + u8_val b.
Proof. unfold be_value. by rewrite foldl_app. Qed.

Lemma be_value_range l : 0 <= be_value l < 256 ^ zlen l.
Proof.
  induction l as [|b l IH] using rev_ind; [done|].
  rewrite be_value_snoc. unfold zlen in *. rewrite length_app, Nat2Z.inj_add, Z.pow_add_r by lia.
  pose proof (u8_val_range b). change (256 ^ Z.of_nat (length [b])) with 256. lia.
Qed.

Lemma be_value_bytes n v : be_value (be_bytes n v) = v mod 256 ^ Z.of_nat n.
Proof.
  revert v. induction n as [|n IH]; intros v; cbn [be_bytes]; [by rewrite Z.mod_1_r|].
  rewrite be_value_snoc, IH, u8_val_of, Nat2Z.inj_succ, Z.pow_succ_r by lia.
  assert (0 < 256 ^ Z.of_nat n) by (apply Z.pow_pos_nonneg; lia).
  rewrite Z.rem_mul_r by lia. lia.
Qed.

Lemma be_bytes_value l : be_bytes (length l) (be_value l) = l.
Proof.
  induction l as [|b l IH] using rev_ind; [done|].
  rewrite length_app, Nat.add_comm. simpl. rewrite be_value_snoc.
  pose proof (u8_val_range b).
  rewrite Z.div_add_l, Z.div_small, Z.add_0_r, IH by lia. f_equal.
  rewrite <- u8_of_mod, Z.add_comm, Z.mod_add, Z.mod_small, u8_of_val by lia. done.
Qed.

Lemma be_bytes_value_n n l : length l = n -> be_bytes n (be_value l) = l.
Proof. intros <-. apply be_bytes_value. Qed.

(** ** The code computes the reference *)

Lemma put_be_loop_spec k v acc : put_be_loop k v acc = be_bytes k v ++ acc.
Proof.
  revert v acc. induction k as [|k IH]; intros v acc; simpl; [done|].
  rewrite IH, land_255, u8_of_mod, Z.shiftr_div_pow2 by lia.
  by rewrite <- app_assoc.
Qed.

Lemma put_be64_spec v : put_be64 v = be_bytes 8 v.
Proof. unfold put_be64. by rewrite put_be_loop_spec, app_nil_r. Qed.

Lemma put_be16_spec v : put_be16 v = be_bytes 2 v.
Proof.
  unfold put_be16. rewrite !land_255, !u8_of_mod, !Z.shiftr_div_pow2 by lia. done.
Qed.

Lemma put_be32_spec v : put_be32 v = be_bytes 4 v.
Proof.
  unfold put_be32. rewrite !land_255, !u8_of_mod, !Z.shiftr_div_pow2 by lia. simpl.
  rewrite !Z.div_div by lia. done.
Qed.

Lemma get_be16_spec p : length p = 2%nat -> get_be16 p = be_value p.
Proof.
  destruct p as [|a [|b [|]]]; try done. intros _. unfold get_be16, at_. simpl.
  pose proof (u8_val_range a); pose proof (u8_val_range b).
  rewrite lor_shiftl_byte by lia. unfold wrap16. rewrite Z.mod_small by lia. done.
Qed.

Lemma get_be32_spec p : length p = 4%nat -> get_be32 p = be_value p.
Proof.
  destruct p as [|a [|b [|c [|d [|]]]]]; try done. intros _. unfold get_be32, at_. simpl.
  pose proof (u8_val_range a); pose proof (u8_val_range b);
  pose proof (u8_val_range c); pose proof (u8_val_range d).
  unfold wrap32. rewrite !(Z.mod_small (Z.shiftl _ _)) by (rewrite Z.shiftl_mul_pow2; lia).
  change 24 with (8 + 8 + 8). change 16 with (8 + 8).
  rewrite <- !Z.shiftl_shiftl, <- !Z.shiftl_lor by lia.
  rewrite !lor_shiftl_byte by lia. done.
Qed.

(** One iteration of the 64-bit loop never loses a bit while the value fits. *)
Lemma get_be64_loop_spec l acc :
  0 <= acc -> (acc + 1) * 256 ^ zlen l <= 2 ^ 64 ->
  foldl (fun v b => Z.lor (wrap64 (Z.shiftl v 8)) (u8_val b)) acc l
  = foldl (fun v b => v * 256 + u8_val b) acc l.
Proof.
  revert acc. induction l as [|b l IH]; intros acc Hacc Hle; [done|]. simpl.
  unfold zlen in Hle. cbn [length] in Hle. rewrite Nat2Z.inj_succ, Z.pow_succ_r in Hle by lia.
  pose proof (u8_val_range b).
  assert (0 < 256 ^ Z.of_nat (length l)) by (apply Z.pow_pos_nonneg; lia).
  set (P := 256 ^ Z.of_nat (length l)) in *.
  assert ((acc + 1) * 256 * 1 <= (acc + 1) * 256 * P) by (apply Z.mul_le_mono_nonneg_l; lia).
  unfold wrap64. rewrite Z.mod_small by (rewrite Z.shiftl_mul_pow2; lia).
  rewrite lor_shiftl_byte by lia. apply IH; [lia|]. unfold zlen. fold P.
  assert ((acc * 256 + u8_val b + 1) * P <= ((acc + 1) * 256) * P)
    by (apply Z.mul_le_mono_nonneg_r; lia).
  lia.
Qed.

(** A loop over the indices of a buffer is a loop over its bytes. *)
Lemma foldl_at_seq (f : Z -> Z -> Z) p pre acc :
  foldl (fun v i => f v (at_ (pre ++ p) i)) acc (seq (length pre) (length p))
  = foldl (fun v b => f v (u8_val b)) acc p.
Proof.
  revert pre acc. induction p as [|b p IH]; intros pre acc; simpl; [done|].
  specialize (IH (pre ++ [b]) (f acc (u8_val b))).
  rewrite length_app, Nat.add_comm, <- app_assoc in IH. simpl in IH. rewrite <- IH.
  unfold at_ at 2. by rewrite list_lookup_middle.
Qed.

Lemma get_be64_spec p : length p = 8%nat -> get_be64 p = be_value p.
Proof.
  intros Hp. unfold get_be64. rewrite <- Hp.
  etrans; [exact (foldl_at_seq (fun v x => Z.lor (wrap64 (Z.shiftl v 8)) x) p [] 0)|].
  apply get_be64_loop_spec; [lia|]. unfold zlen. by rewrite Hp.
Qed.

(** ** Round trips *)

Lemma get_put_be16 v : 0 <= v < 2 ^ 16 -> get_be16 (put_be16 v) = v.
Proof.
  intros. rewrite get_be16_spec by done. rewrite put_be16_spec, be_value_bytes.
  by apply Z.mod_small.
Qed.

Lemma get_put_be32 v : 0 <= v < 2 ^ 32 -> get_be32 (put_be32 v) = v.
Proof.
  intros. rewrite get_be32_spec by done. rewrite put_be32_spec, be_value_bytes.
  by apply Z.mod_small.
Qed.

Lemma get_put_be64 v : 0 <= v < 2 ^ 64 -> get_be64 (put_be64 v) = v.
Proof.
  intros. rewrite get_be64_spec by done. rewrite put_be64_spec, be_value_bytes.
  by apply Z.mod_small.
Qed.

Lemma put_get_be16 p : length p = 2%nat -> put_be16 (get_be16 p) = p.
Proof. intros. rewrite get_be16_spec, put_be16_spec by done. by apply be_bytes_value_n. Qed.

Lemma put_get_be32 p : length p = 4%nat -> put_be32 (get_be32 p) = p.
Proof. intros. rewrite get_be32_spec, put_be32_spec by done. by apply be_bytes_value_n. Qed.

Lemma put_get_be64 p : length p = 8%nat -> put_be64 (get_be64 p) = p.
Proof. intros. rewrite get_be64_spec, put_be64_spec by done. by apply be_bytes_value_n. Qed.

Lemma get_be16_range p : length p = 2%nat -> 0 <= get_be16 p < 2 ^ 16.
Proof. intros Hp. rewrite get_be16_spec by done. pose proof (be_value_range p). by unfold zlen in *; rewrite Hp in *. Qed.

Lemma get_be32_range p : length p = 4%nat -> 0 <= get_be32 p < 2 ^ 32.
Proof. intros Hp. rewrite get_be32_spec by done. pose proof (be_value_range p). by unfold zlen in *; rewrite Hp in *. Qed.

Lemma get_be64_range p : length p = 8%nat -> 0 <= get_be64 p < 2 ^ 64.
Proof. intros Hp. rewrite get_be64_spec by done. pose proof (be_value_range p). by unfold zlen in *; rewrite Hp in *. Qed.

#[export] Hint Resolve get_be16_range get_be32_range get_be64_range : duplex.
