(* ===== verification/Stream.v ===== *)
(** * Stream

    The [protocol::ByteStream] interface of [include/cpptcpduplex/protocol/protocol.hpp]
    as a type class, the state-and-error monad its clients are written in, the
    laws a stream promises to them ([StreamSpec]) and an in-memory instance
    (the [MemStream] shape: unread input, written output). *)

From S2P Require Import Prelude Errors.

(** ** The state-and-error monad

    [io S A] threads the state [S] of the object an operation works on; a
    failure carries its error code, and [io_bind] is the early return
    [if (auto ec = m) return ec;]. *)

Definition io (S A : Type) : Type := S -> S * (error_code + A).

Definition io_ret {S A} (a : A) : io S A := fun s => (s, inr a).
Definition io_fail {S A} (e : error_code) : io S A := fun s => (s, inl e).
Definition io_bind {S A B} (m : io S A) (k : A -> io S B) : io S B :=
  fun s => match m s with
           | (s', inl e) => (s', inl e)
           | (s', inr a) => k a s'
           end.

Declare Scope io_scope.
Delimit Scope io_scope with io.
Notation "'let*' x ':=' m 'in' k" := (io_bind m (fun x => k))
  (at level 200, x pattern, m at level 100, k at level 200) : io_scope.
#[global] Open Scope io_scope.

(** ** [class ByteStream] *)

Class ByteStream (Str : Type) := {
  read_exact : nat -> io Str bytes;
  write_all : bytes -> io Str unit
}.

(** What a stream promises.  [incoming s] are the bytes the peer will have
    delivered before the stream ends or fails, [outgoing s] the bytes written
    so far, [writable s] says that writes do not fail. *)
Class StreamSpec (Str : Type) `{ByteStream Str} := {
  incoming : Str -> bytes;
  outgoing : Str -> bytes;
  writable : Str -> Prop;
  read_exact_enough n s : (n <= length (incoming s))%nat ->
    exists s', read_exact n s = (s', inr (take n (incoming s)))
      /\ incoming s' = drop n (incoming s) /\ outgoing s' = outgoing s
      /\ (writable s -> writable s');
  read_exact_short n s : (length (incoming s) < n)%nat ->
    exists s' e, read_exact n s = (s', inl e) /\ ec_bool e = true
      /\ outgoing s' = outgoing s;
  write_all_ok b s : writable s ->
    exists s', write_all b s = (s', inr tt)
      /\ outgoing s' = outgoing s ++ b /\ incoming s' = incoming s /\ writable s';
  write_all_inv b s s' r : write_all b s = (s', r) ->
    incoming s' = incoming s /\
    match r with
    | inr _ => outgoing s' = outgoing s ++ b
    | inl e => ec_bool e = true /\ exists p, p `prefix_of` b /\ outgoing s' = outgoing s ++ p
    end
}.

(** Inversion of a successful read. *)
Lemma read_exact_inv `{StreamSpec Str} n s s' b :
  read_exact n s = (s', inr b) ->
  length b = n /\ incoming s = b ++ incoming s' /\ outgoing s' = outgoing s.
Proof.
  intros Hr. destruct (decide (n <= length (incoming s))%nat) as [Hle|Hgt].
  - destruct (read_exact_enough n s Hle) as (s1 & E & Hin & Hout & _).
    rewrite E in Hr. simplify_eq. rewrite Hin, take_drop.
    split_and!; try done. rewrite length_take. lia.
  - destruct (read_exact_short n s ltac:(lia)) as (s1 & e & E & _). congruence.
Qed.

(** A read never touches the output, whatever its result. *)
Lemma read_exact_outgoing `{StreamSpec Str} n s s' r :
  read_exact n s = (s', r) -> outgoing s' = outgoing s.
Proof.
  intros Hr. destruct (decide (n <= length (incoming s))%nat) as [Hle|Hgt].
  - destruct (read_exact_enough n s Hle) as (s1 & E & _ & Hout & _). rewrite E in Hr. by simplify_eq.
  - destruct (read_exact_short n s ltac:(lia)) as (s1 & e & E & _ & Hout). rewrite E in Hr. by simplify_eq.
Qed.

Lemma read_exact_app `{StreamSpec Str} b rest s :
  incoming s = b ++ rest ->
  exists s', read_exact (length b) s = (s', inr b)
    /\ incoming s' = rest /\ outgoing s' = outgoing s /\ (writable s -> writable s').
Proof.
  intros Hin. destruct (read_exact_enough (length b) s) as (s' & E & Hin' & Hout & Hw).
  { rewrite Hin, length_app. lia. }
  exists s'. rewrite Hin, take_app_length in E. rewrite Hin, drop_app_length in Hin'. done.
Qed.

Lemma read_exact_app_n `{StreamSpec Str} n b rest s :
  length b = n -> incoming s = b ++ rest ->
  exists s', read_exact n s = (s', inr b)
    /\ incoming s' = rest /\ outgoing s' = outgoing s /\ (writable s -> writable s').
Proof. intros <-. apply read_exact_app. Qed.

Lemma read_exact_err `{StreamSpec Str} n s s' e :
  read_exact n s = (s', inl e) -> ec_bool e = true /\ (length (incoming s) < n)%nat.
Proof.
  intros Hr. destruct (decide (n <= length (incoming s))%nat) as [Hle|Hgt].
  - destruct (read_exact_enough n s Hle) as (s1 & E & _). congruence.
  - destruct (read_exact_short n s ltac:(lia)) as (s1 & e1 & E & He & _).
    rewrite E in Hr. simplify_eq. split; [done|lia].
Qed.

(** ** An in-memory stream: [tests/test_protocol.cpp]'s [MemStream], with the
    two directions kept apart and an optional broken write side. *)

Record mem_stream := MemStream { mem_in : bytes; mem_out : bytes; mem_broken : bool }.

#[export] Instance mem_byte_stream : ByteStream mem_stream := {
  read_exact n s :=
    if decide (n <= length (mem_in s))%nat
    then (MemStream (drop n (mem_in s)) (mem_out s) (mem_broken s), inr (take n (mem_in s)))
    else (s, inl (make_error_code Errc.closed));
  write_all b s :=
    if mem_broken s then (s, inl (make_error_code Errc.closed))
    else (MemStream (mem_in s) (mem_out s ++ b) (mem_broken s), inr tt)
}.

#[export, refine] Instance mem_stream_spec : StreamSpec mem_stream := {
  incoming := mem_in;
  outgoing := mem_out;
  writable s := mem_broken s = false
}.
Proof.
  - intros n [i o w] Hle. simpl in *. rewrite decide_True by done. eauto 10.
  - intros n [i o w] Hlt. simpl in *. rewrite decide_False by lia. eauto 10.
  - intros b [i o w] Hw. simpl in *. rewrite Hw. eauto 10.
  - intros b [i o []] s' r Hw; simpl in *; simplify_eq; simpl; [|done].
    split; [done|]. split; [done|]. exists []. split; [apply prefix_nil|]. by rewrite app_nil_r.
Defined.
