(* ===== verification/Result.v ===== *)
(** * Result

    Results of code that works on raw buffers: a value, an error code, or
    undefined behaviour (an access outside a buffer, a signed overflow).  The
    buffer operations of the C++ code are checked here, so that "never [Ub]" is a
    statement about the code. *)

From S2P Require Import Prelude Errors.

Inductive result (A : Type) :=
  | Ub
  | Err (e : error_code)
  | Ok (a : A).
Arguments Ub {A}.
Arguments Err {A} _.
Arguments Ok {A} _.

Definition rbind {A B} (m : result A) (k : A -> result B) : result B :=
  match m with
  | Ub => Ub
  | Err e => Err e
  | Ok a => k a
  end.

Declare Scope result_scope.
Delimit Scope result_scope with result.
Notation "'do' x ':=' m 'in' k" := (rbind m (fun x => k))
  (at level 200, x pattern, m at level 100, k at level 200) : result_scope.
#[global] Open Scope result_scope.

(** [b[i]]. *)
Definition rd (b : bytes) (i : nat) : result u8 :=
  match b !! i with Some x => Ok x | None => Ub end.

(** Reading the [n] bytes at [b.data() + off]. *)
Definition slice (b : bytes) (off n : nat) : result bytes :=
  if (off + n <=? length b)%nat then Ok (take n (drop off b)) else Ub.

(** Writing [data] at [buf.data() + off]. *)
Definition poke (off : nat) (data : bytes) (buf : bytes) : result bytes :=
  if (off + length data <=? length buf)%nat
  then Ok (take off buf ++ data ++ drop (off + length data) buf) else Ub.

(** [std::vector<std::uint8_t> buf(n)]. *)
Definition zeros (n : nat) : bytes := replicate n Byte.x00.

(** ** Lemmas *)

Lemma slice_app pre x post :
  slice (pre ++ x ++ post) (length pre) (length x) = Ok x.
Proof.
  unfold slice. rewrite !length_app.
  assert ((length pre + length x <=? length pre + (length x + length post))%nat = true) as ->
    by (apply Nat.leb_le; lia).
  by rewrite drop_app_length, take_app_length.
Qed.

Lemma slice_at b pre x post off n :
  b = pre ++ x ++ post -> length pre = off -> length x = n -> slice b off n = Ok x.
Proof. intros -> <- <-. apply slice_app. Qed.

Lemma slice_ok b off n :
  (off + n <= length b)%nat -> slice b off n = Ok (take n (drop off b)).
Proof. intros Hle. unfold slice. by rewrite (proj2 (Nat.leb_le _ _) Hle). Qed.

Lemma rd_ok b i : (i < length b)%nat -> exists x, rd b i = Ok x /\ b !! i = Some x.
Proof.
  intros Hlt. apply lookup_lt_is_Some_2 in Hlt as [x Hx]. exists x. unfold rd. by rewrite Hx.
Qed.

Lemma rd_at b pre x post i : b = pre ++ x :: post -> length pre = i -> rd b i = Ok x.
Proof. intros -> <-. unfold rd. by rewrite list_lookup_middle. Qed.

(** Filling a zeroed buffer from the left. *)
Lemma poke_zeros pre data off k :
  length pre = off -> (length data <= k)%nat ->
  poke off data (pre ++ zeros k) = Ok ((pre ++ data) ++ zeros (k - length data)).
Proof.
  intros <- Hle. unfold poke, zeros. rewrite length_app, length_replicate.
  assert ((length pre + length data <=? length pre + k)%nat = true) as ->
    by (apply Nat.leb_le; lia).
  rewrite take_app_length, <- drop_drop, drop_app_length, drop_replicate.
  by rewrite app_assoc.
Qed.

Lemma poke_zeros_start data k :
  (length data <= k)%nat -> poke 0 data (zeros k) = Ok (data ++ zeros (k - length data)).
Proof. intros. by apply (poke_zeros [] data 0 k). Qed.
