(* ===== verification/Protocol.v ===== *)
(** * Protocol

    [src/protocol/protocol.cpp]: the plaintext handshake message and the
    length-prefixed record, over any [ByteStream].  The theorems are proved from
    the interface laws [StreamSpec]: what is written is the wire format, the
    reader inverts the writer whatever follows on the stream, and everything the
    reader accepts is a well-formed message. *)

From S2P Require Import Prelude Errors Wire Stream.

(** ** Constants *)

Definition kMagic : bytes := [Byte.x54; Byte.x44; Byte.x58; Byte.x31].

Definition kMsgText : u8 := Byte.x01.
Definition kMsgPing : u8 := Byte.x02.
Definition kMsgPong : u8 := Byte.x03.
Definition kMsgClose : u8 := Byte.x04.

Definition kCurrentProtocolVersion : Z := 1.
Definition kX25519PubKeyLen : nat := 32.
Definition kMaxRecordPayload : Z := Z.shiftl 1 20.

Definition supports_version (v : Z) : bool := v =? 1.

(** ** Operations *)

Section Operations.
Context {Str : Type} {BS : ByteStream Str}.

Definition write_handshake (negotiated_version : Z) (pub_key : bytes) : io Str unit :=
  if negb (supports_version negotiated_version) then
    io_fail (make_error_code Errc.unsupported_protocol)
  else if negb (zlen pub_key =? Z.of_nat kX25519PubKeyLen) then
    io_fail (make_error_code Errc.bad_handshake)
  else
    let hdr := kMagic ++ put_be16 negotiated_version in
    let* _ := write_all hdr in
    write_all pub_key.

Definition read_handshake : io Str (Z * bytes) :=
  let* magic := read_exact 4 in
  if negb (bool_decide (magic = kMagic)) then
    io_fail (make_error_code Errc.bad_handshake)
  else
    let* ver := read_exact 2 in
    let protocol_version := get_be16 ver in
    if negb (supports_version protocol_version) then
      io_fail (make_error_code Errc.unsupported_protocol)
    else
      let* pub_key := read_exact kX25519PubKeyLen in
      io_ret (protocol_version, pub_key).

Definition read_record : io Str (u8 * bytes) :=
  let* len_buf := read_exact 4 in
  let n := get_be32 len_buf in
  if (n =? 0) || (n >? kMaxRecordPayload) then
    io_fail (make_error_code Errc.bad_frame)
  else
    let* payload := read_exact (Z.to_nat n) in
    io_ret (default Byte.x00 (payload !! 0%nat), drop 1 payload).

Definition write_record (msg_type : u8) (sealed : bytes) : io Str unit :=
  if zlen sealed >? kMaxRecordPayload - 1 then
    io_fail (make_error_code Errc.bad_frame)
  else
    let n := wrap32 (1 + zlen sealed) in
    let* _ := write_all (put_be32 n) in
    let* _ := write_all [msg_type] in
    write_all sealed.

End Operations.

(** ** The wire format *)

(** [TDX1], the version, the public key. *)
Definition handshake_bytes (ver : Z) (pub : bytes) : bytes :=
  kMagic ++ be_bytes 2 ver ++ pub.

(** Length of type and blob, type, blob. *)
Definition record_bytes (typ : u8) (sealed : bytes) : bytes :=
  be_bytes 4 (1 + zlen sealed) ++ typ :: sealed.

(** A blob one record can carry. *)
Definition record_fits (sealed : bytes) : Prop := zlen sealed <= kMaxRecordPayload - 1.

(** ** Facts used by the theorems and by the clients *)

Lemma record_fits_wrap sealed :
  record_fits sealed -> wrap32 (1 + zlen sealed) = 1 + zlen sealed.
Proof.
  unfold record_fits, kMaxRecordPayload, wrap32, zlen. intros Hf.
  change (Z.shiftl 1 20) with 1048576 in Hf. apply Z.mod_small. lia.
Qed.

Section Facts.
Context {Str : Type} {BS : ByteStream Str} {Spec : StreamSpec Str}.

(** Three writes in a row append their concatenation. *)
Lemma write_record_ok typ sealed s :
  record_fits sealed -> writable s ->
  exists s', write_record typ sealed s = (s', inr tt)
    /\ outgoing s' = outgoing s ++ record_bytes typ sealed
    /\ incoming s' = incoming s /\ writable s'.
Proof.
  intros Hf Hw. unfold write_record. unfold record_fits in Hf.
  guard_false (zlen sealed >? kMaxRecordPayload - 1).
  rewrite record_fits_wrap by done. unfold io_bind.
  destruct (write_all_ok (put_be32 (1 + zlen sealed)) s Hw) as (s1 & -> & Ho1 & Hi1 & Hw1).
  destruct (write_all_ok [typ] s1 Hw1) as (s2 & -> & Ho2 & Hi2 & Hw2).
  destruct (write_all_ok sealed s2 Hw2) as (s3 & -> & Ho3 & Hi3 & Hw3).
  exists s3. split_and!; [done| |congruence|done].
  rewrite Ho3, Ho2, Ho1, put_be32_spec. unfold record_bytes.
  by rewrite <- !app_assoc.
Qed.

Lemma write_handshake_ok ver pub s :
  supports_version ver = true -> length pub = kX25519PubKeyLen -> writable s ->
  exists s', write_handshake ver pub s = (s', inr tt)
    /\ outgoing s' = outgoing s ++ handshake_bytes ver pub
    /\ incoming s' = incoming s /\ writable s'.
Proof.
  intros Hv Hp Hw. unfold write_handshake. rewrite Hv. cbn [negb].
  unfold zlen. rewrite Hp, Z.eqb_refl. cbn [negb]. unfold io_bind.
  destruct (write_all_ok (kMagic ++ put_be16 ver) s Hw) as (s1 & -> & Ho1 & Hi1 & Hw1).
  destruct (write_all_ok pub s1 Hw1) as (s2 & -> & Ho2 & Hi2 & Hw2).
  exists s2. split_and!; [done| |congruence|done].
  rewrite Ho2, Ho1, put_be16_spec. unfold handshake_bytes. by rewrite <- !app_assoc.
Qed.

(** The reader inverts the writer, whatever follows on the stream. *)
Lemma read_record_ok typ sealed rest s :
  record_fits sealed -> incoming s = record_bytes typ sealed ++ rest ->
  exists s', read_record s = (s', inr (typ, sealed))
    /\ incoming s' = rest /\ outgoing s' = outgoing s /\ (writable s -> writable s').
Proof.
  intros Hf Hin. pose proof (record_fits_wrap sealed Hf) as Hwrap.
  unfold record_fits, kMaxRecordPayload in Hf. change (Z.shiftl 1 20) with 1048576 in Hf.
  assert (0 <= zlen sealed) by (unfold zlen; lia).
  unfold record_bytes in Hin. rewrite <- app_assoc in Hin.
  unfold read_record, io_bind.
  destruct (read_exact_app_n 4 _ _ s (length_be_bytes 4 _) Hin) as (s1 & -> & Hi1 & Ho1 & Hw1).
  rewrite get_be32_spec, be_value_bytes by apply length_be_bytes.
  change (256 ^ Z.of_nat 4) with (2 ^ 32). fold (wrap32 (1 + zlen sealed)). rewrite Hwrap.
  unfold kMaxRecordPayload. change (Z.shiftl 1 20) with 1048576.
  guard_false ((1 + zlen sealed =? 0) || (1 + zlen sealed >? 1048576)).
  destruct (read_exact_app_n (Z.to_nat (1 + zlen sealed)) (typ :: sealed) rest s1)
    as (s2 & -> & Hi2 & Ho2 & Hw2); [unfold zlen; cbn [length]; lia|done|].
  exists s2. cbn. split_and!; [done|done|congruence|auto].
Qed.

Lemma read_handshake_ok ver pub rest s :
  supports_version ver = true -> length pub = kX25519PubKeyLen ->
  incoming s = handshake_bytes ver pub ++ rest ->
  exists s', read_handshake s = (s', inr (ver, pub))
    /\ incoming s' = rest /\ outgoing s' = outgoing s /\ (writable s -> writable s').
Proof.
  intros Hv Hp Hin. apply Z.eqb_eq in Hv as ->.
  unfold handshake_bytes in Hin. rewrite <- !app_assoc in Hin.
  unfold read_handshake, io_bind.
  destruct (read_exact_app_n 4 kMagic _ s eq_refl Hin) as (s1 & -> & Hi1 & Ho1 & Hw1).
  rewrite bool_decide_eq_true_2 by done. cbn [negb].
  destruct (read_exact_app_n 2 _ _ s1 (length_be_bytes 2 1) Hi1) as (s2 & -> & Hi2 & Ho2 & Hw2).
  change (get_be16 (be_bytes 2 1)) with 1. cbv zeta. change (negb (supports_version 1)) with false. cbv iota.
  destruct (read_exact_app_n _ _ _ s2 Hp Hi2) as (s3 & -> & Hi3 & Ho3 & Hw3).
  exists s3. split_and!; [done|done|congruence|auto].
Qed.

(** Everything the reader accepts is a well-formed record. *)
Lemma read_record_inv s s' typ sealed :
  read_record s = (s', inr (typ, sealed)) ->
  record_fits sealed /\ incoming s = record_bytes typ sealed ++ incoming s'
  /\ outgoing s' = outgoing s.
Proof.
  unfold read_record, io_bind.
  destruct (read_exact 4 s) as [s1 [e|lb]] eqn:E1; [done|].
  apply read_exact_inv in E1 as (Hl1 & Hi1 & Ho1).
  pose proof (get_be32_range lb Hl1) as Hr.
  destruct ((get_be32 lb =? 0) || (get_be32 lb >? kMaxRecordPayload)) eqn:Hg; [done|].
  apply orb_false_iff in Hg as [Hg0 Hg1]. bool_to_prop.
  destruct (read_exact (Z.to_nat (get_be32 lb)) s1) as [s2 [e|p]] eqn:E2; [done|].
  apply read_exact_inv in E2 as (Hl2 & Hi2 & Ho2).
  destruct p as [|t p]; [simpl in Hl2; lia|]. intros Heq.
  assert (s' = s2 /\ typ = t /\ sealed = p) as (-> & -> & ->) by (unfold io_ret in Heq; by simplify_eq).
  cbn [length] in Hl2.
  assert (Hn : 1 + zlen p = get_be32 lb) by (unfold zlen; lia).
  split_and!; [unfold record_fits; lia| |congruence].
  unfold record_bytes. rewrite Hn, <- put_be32_spec, put_get_be32 by done.
  by rewrite Hi1, Hi2, <- app_assoc.
Qed.

Lemma read_handshake_inv s s' ver pub :
  read_handshake s = (s', inr (ver, pub)) ->
  supports_version ver = true /\ length pub = kX25519PubKeyLen
  /\ incoming s = handshake_bytes ver pub ++ incoming s' /\ outgoing s' = outgoing s.
Proof.
  unfold read_handshake, io_bind.
  destruct (read_exact 4 s) as [s1 [e|mg]] eqn:E1; [done|].
  apply read_exact_inv in E1 as (Hl1 & Hi1 & Ho1).
  case_bool_decide as Hm; [|done]. cbn [negb].
  destruct (read_exact 2 s1) as [s2 [e|vb]] eqn:E2; [done|].
  apply read_exact_inv in E2 as (Hl2 & Hi2 & Ho2).
  destruct (supports_version (get_be16 vb)) eqn:Hv; [|done]. cbn [negb].
  destruct (read_exact kX25519PubKeyLen s2) as [s3 [e|pk]] eqn:E3; [done|].
  apply read_exact_inv in E3 as (Hl3 & Hi3 & Ho3).
  intros Heq. unfold io_ret in Heq. simplify_eq.
  split_and!; [done|done| |congruence].
  unfold handshake_bytes. rewrite <- put_be16_spec, put_get_be16 by done.
  by rewrite Hi1, Hi2, Hi3, <- !app_assoc.
Qed.

(** Whatever the result, a record read leaves the output alone, and a record
    write appends the record or, when it fails, a part of it. *)
Lemma read_record_outgoing s s' r : read_record s = (s', r) -> outgoing s' = outgoing s.
Proof.
  unfold read_record, io_bind.
  destruct (read_exact 4 s) as [s1 [e|lb]] eqn:E1; apply read_exact_outgoing in E1 as Ho1.
  { by intros [= <- <-]. }
  destruct (_ || _); [by intros [= <- <-]|].
  destruct (read_exact _ s1) as [s2 [e|p]] eqn:E2; apply read_exact_outgoing in E2 as Ho2;
    unfold io_ret; intros [= <- <-]; congruence.
Qed.

Lemma write_record_inv typ sealed s s' r :
  write_record typ sealed s = (s', r) ->
  incoming s' = incoming s /\
  match r with
  | inr _ => record_fits sealed /\ outgoing s' = outgoing s ++ record_bytes typ sealed
  | inl e => exists p, p `prefix_of` record_bytes typ sealed /\ outgoing s' = outgoing s ++ p
  end.
Proof.
  unfold write_record.
  destruct (zlen sealed >? kMaxRecordPayload - 1) eqn:Hg; bool_to_prop.
  { intros [= <- <-]. split; [done|]. exists []. split; [apply prefix_nil|]. by rewrite app_nil_r. }
  assert (Hf : record_fits sealed) by (unfold record_fits; lia).
  rewrite record_fits_wrap, put_be32_spec by done. unfold io_bind, record_bytes.
  set (lb := be_bytes 4 (1 + zlen sealed)).
  destruct (write_all lb s) as [s1 [e|[]]] eqn:E1; apply write_all_inv in E1 as [Hi1 Ho1].
  { intros [= <- <-]. destruct Ho1 as (_ & p & [k ->] & Ho1). split; [done|].
    exists p. split; [by rewrite <- app_assoc; eexists|done]. }
  destruct (write_all [typ] s1) as [s2 [e|[]]] eqn:E2; apply write_all_inv in E2 as [Hi2 Ho2].
  { intros [= <- <-]. destruct Ho2 as (_ & p & [k Hk] & Ho2). split; [congruence|].
    exists (lb ++ p). change (typ :: sealed) with ([typ] ++ sealed). rewrite Hk.
    split; [rewrite <- !app_assoc; by eexists; rewrite <- !app_assoc|by rewrite Ho2, Ho1, <- app_assoc]. }
  intros E3. apply write_all_inv in E3 as [Hi3 Ho3]. split; [congruence|]. destruct r as [e|[]].
  - destruct Ho3 as (_ & p & [k Hk] & Ho3). exists (lb ++ [typ] ++ p).
    change (typ :: sealed) with ([typ] ++ sealed). rewrite Hk. split.
    + exists k. by rewrite <- !app_assoc.
    + by rewrite Ho3, Ho2, Ho1, <- !app_assoc.
  - split; [done|]. by rewrite Ho3, Ho2, Ho1, <- !app_assoc.
Qed.

End Facts.

(** Records are self-delimiting: a concatenation splits in one way only. *)
Lemma record_bytes_inj t1 b1 r1 t2 b2 r2 :
  record_fits b1 -> record_fits b2 ->
  record_bytes t1 b1 ++ r1 = record_bytes t2 b2 ++ r2 -> t1 = t2 /\ b1 = b2 /\ r1 = r2.
Proof.
  intros H1 H2 Heq. set (s := MemStream (record_bytes t1 b1 ++ r1) [] false).
  destruct (read_record_ok t1 b1 r1 s) as (s1 & E1 & Hi1 & _); [done|done|].
  destruct (read_record_ok t2 b2 r2 s) as (s2 & E2 & Hi2 & _); [done|done|].
  rewrite E1 in E2. simplify_eq. done.
Qed.

(** The bytes of a sequence of records. *)
Definition wire_of (l : list (u8 * bytes)) : bytes := concat ((fun x => record_bytes (fst x) (snd x)) <$> l).

Lemma wire_of_cons t b l : wire_of ((t, b) :: l) = record_bytes t b ++ wire_of l.
Proof. done. Qed.

Lemma record_bytes_app t b rest : record_bytes t b ++ rest <> [].
Proof. intros E. apply app_eq_nil in E as [E _]. apply (f_equal length) in E. unfold record_bytes in E. rewrite length_app in E. cbn [length] in E. lia. Qed.

(** ** Theorems *)

Section Theorems.
Context {Str : Type} {BS : ByteStream Str} {Spec : StreamSpec Str}.

(** [write_record] on a stream that accepts writes
    succeeds for every blob of at most 2^20 - 1 bytes, and on any stream that
    delivers what it wrote, followed by anything, [read_record] returns the same
    type and blob and leaves exactly what follows. *)
Theorem record_roundtrip (typ : u8) (sealed : bytes) (w : Str) :
  zlen sealed <= 2 ^ 20 - 1 -> writable w ->
  exists w' wire, write_record typ sealed w = (w', inr tt)
    /\ outgoing w' = outgoing w ++ wire /\ writable w'
    /\ forall (r : Str) rest, incoming r = wire ++ rest ->
       exists r', read_record r = (r', inr (typ, sealed))
         /\ incoming r' = rest /\ outgoing r' = outgoing r.
Proof.
  intros Hf Hw.
  destruct (write_record_ok typ sealed w Hf Hw) as (w' & E & Ho & _ & Hw').
  exists w', (record_bytes typ sealed). split_and!; try done.
  intros r rest Hin. destruct (read_record_ok typ sealed rest r Hf Hin) as (r' & ? & ? & ? & _).
  eauto.
Qed.

(** Every outcome of the record reader.  A read succeeds only on a well-formed
    record of at most 2^20 payload bytes and consumes exactly that record; a
    length of zero or above 2^20 is [bad_frame] after the four length bytes, so
    no announced length makes the reader allocate more than 2^20 bytes; any other
    failure is an error of the stream, which then held fewer bytes than the
    record announces.  The output is never touched. *)
Theorem read_record_outcomes (s s' : Str) res :
  read_record s = (s', res) ->
  outgoing s' = outgoing s /\
  match res with
  | inr (typ, sealed) =>
      zlen sealed <= 2 ^ 20 - 1 /\ incoming s = record_bytes typ sealed ++ incoming s'
  | inl e => ec_bool e = true /\
      ((exists lb, length lb = 4%nat /\ incoming s = lb ++ incoming s'
          /\ (be_value lb = 0 \/ 2 ^ 20 < be_value lb) /\ e = make_error_code Errc.bad_frame)
       \/ (length (incoming s) < 4)%nat
       \/ exists lb, length lb = 4%nat /\ lb `prefix_of` incoming s
            /\ 0 < be_value lb <= 2 ^ 20 /\ zlen (incoming s) < 4 + be_value lb)
  end.
Proof.
  intros Hr. destruct res as [e|[typ sealed]].
  2:{ apply read_record_inv in Hr as (Hf & Hi & Ho). done. }
  revert Hr. unfold read_record, io_bind.
  destruct (read_exact 4 s) as [s1 [e1|lb]] eqn:E1.
  { intros [= <- <-]. split; [by eapply read_exact_outgoing|].
    apply read_exact_err in E1 as [? ?]. auto. }
  apply read_exact_inv in E1 as (Hl1 & Hi1 & Ho1).
  rewrite get_be32_spec by done. pose proof (be_value_range lb).
  destruct (_ || _) eqn:Hg.
  { intros [= <- <-]. split; [done|]. split; [done|]. left. exists lb.
    unfold kMaxRecordPayload in Hg. change (Z.shiftl 1 20) with (2 ^ 20) in Hg.
    apply orb_true_iff in Hg as [Hg|Hg]; bool_to_prop; auto. }
  bool_to_prop. change kMaxRecordPayload with (2 ^ 20) in *.
  destruct (read_exact (Z.to_nat _) s1) as [s2 [e2|p]] eqn:E2; [|done].
  intros [= <- <-]. split; [rewrite <- Ho1; by eapply read_exact_outgoing|].
  apply read_exact_err in E2 as [? Hlt]. split; [done|]. right; right. exists lb.
  split_and!; [done|by exists (incoming s1)|lia|lia|].
  unfold zlen. rewrite Hi1, length_app. lia.
Qed.

(** [write_handshake] of a supported version
    and a 32-byte key writes [TDX1], the big-endian version and the key;
    [read_handshake] on a stream that delivers this returns both and leaves what
    follows, and it accepts nothing else. *)
Theorem handshake_message_roundtrip (ver : Z) (pub : bytes) (w : Str) :
  supports_version ver = true -> length pub = 32%nat -> writable w ->
  exists w', write_handshake ver pub w = (w', inr tt)
    /\ outgoing w' = outgoing w ++ kMagic ++ be_bytes 2 ver ++ pub
    /\ forall (r : Str) rest, incoming r = kMagic ++ be_bytes 2 ver ++ pub ++ rest <->
       exists r', read_handshake r = (r', inr (ver, pub)) /\ incoming r' = rest.
Proof.
  intros Hv Hp Hw.
  destruct (write_handshake_ok ver pub w Hv Hp Hw) as (w' & E & Ho & _ & _).
  exists w'. split_and!; [done|done|]. intros r rest. split.
  - intros Hin. destruct (read_handshake_ok ver pub rest r Hv Hp) as (r' & ? & ? & _); [|eauto].
    unfold handshake_bytes. by rewrite <- !app_assoc.
  - intros (r' & Hr & <-). apply read_handshake_inv in Hr as (_ & _ & Hi & _).
    rewrite Hi. unfold handshake_bytes. by rewrite <- !app_assoc.
Qed.

End Theorems.

(** ** Witnesses *)

Definition key_bytes : bytes := (fun i => u8_of (Z.of_nat i)) <$> seq 0 32.

