(* ===== verification/Crypto.v ===== *)
(** * Crypto

    The cryptographic primitives the library calls in vendored code (mbedTLS
    SHA-256, AES-256-GCM and CTR-DRBG, Monocypher X25519), as operations of type
    classes with the documented behaviour the callers rely on as laws, and toy
    instances that satisfy the laws, so that every statement about the callers
    can be evaluated.  Nothing here is a model of the vendored code. *)

From S2P Require Import Prelude.

(** ** SHA-256: one-shot and streaming interface of mbedtls/sha256.h *)

Class Sha256 := {
  sha256 : bytes -> bytes;
  sha256_context : Type;
  sha256_starts : sha256_context;
  sha256_update : sha256_context -> bytes -> sha256_context;
  sha256_finish : sha256_context -> bytes
}.

(** [updates ctx l]: one update call per element of [l]. *)
Definition sha256_updates `{Sha256} (c : sha256_context) (l : list bytes) : sha256_context :=
  foldl sha256_update c l.

Class Sha256Laws `{Sha256} : Prop := {
  sha256_length m : length (sha256 m) = 32%nat;
  sha256_streaming l : sha256_finish (sha256_updates sha256_starts l) = sha256 (concat l)
}.

(** ** AES-GCM: setkey, crypt_and_tag (encrypt, no additional data, 16-byte tag)
    and auth_decrypt of mbedtls/gcm.h; [None] is a non-zero return code. *)

Class Gcm := {
  gcm_setkey : bytes -> bool;
  gcm_encrypt : bytes -> bytes -> bytes -> option (bytes * bytes);
  gcm_auth_decrypt : bytes -> bytes -> bytes -> bytes -> option bytes
}.

Class GcmLaws `{Gcm} : Prop := {
  gcm_setkey_32 k : length k = 32%nat -> gcm_setkey k = true;
  gcm_encrypt_some k n p : length k = 32%nat -> length n = 12%nat -> zlen p < 2 ^ 32 ->
    exists c t, gcm_encrypt k n p = Some (c, t);
  gcm_encrypt_length k n p c t : gcm_encrypt k n p = Some (c, t) ->
    length c = length p /\ length t = 16%nat;
  gcm_decrypt_encrypt k n p c t : gcm_encrypt k n p = Some (c, t) ->
    gcm_auth_decrypt k n t c = Some p;
  gcm_decrypt_inv k n p c t : gcm_auth_decrypt k n t c = Some p ->
    gcm_encrypt k n p = Some (c, t)
}.

(** ** CTR-DRBG: [seed] and [random]; the state [R] is the entropy of the process. *)

Class Drbg_api (R : Type) := {
  drbg_seed : string -> R -> R * bool;
  drbg_random : nat -> R -> R * option bytes
}.

Class DrbgLaws (R : Type) `{Drbg_api R} : Prop := {
  drbg_random_length n r r' b : drbg_random n r = (r', Some b) -> length b = n
}.

(** ** X25519 of monocypher.h *)

Class X25519 := {
  crypto_x25519_public_key : bytes -> bytes;
  crypto_x25519 : bytes -> bytes -> bytes
}.

Class X25519Laws `{X25519} : Prop := {
  x25519_public_length a : length (crypto_x25519_public_key a) = 32%nat;
  x25519_commutes a b : length a = 32%nat -> length b = 32%nat ->
    crypto_x25519 a (crypto_x25519_public_key b) = crypto_x25519 b (crypto_x25519_public_key a);
  x25519_length a p : length (crypto_x25519 a p) = 32%nat
}.

(** ** Toy instances *)

Module Toy.

(** The first [n] bytes of [l], zero-padded. *)
Definition fit (n : nat) (l : bytes) : bytes := take n (l ++ replicate n Byte.x00).

Lemma length_fit n l : length (fit n l) = n.
Proof. unfold fit. rewrite length_take, length_app, length_replicate. lia. Qed.

(** A "hash": the length plus one and the first 31 bytes. *)
#[export] Instance toy_sha256 : Sha256 := {
  sha256 m := fit 32 (u8_of (zlen m + 1) :: m);
  sha256_context := bytes;
  sha256_starts := [];
  sha256_update c m := c ++ m;
  sha256_finish c := fit 32 (u8_of (zlen c + 1) :: c)
}.

Lemma toy_updates c l : sha256_updates (H := toy_sha256) c l = (c : bytes) ++ concat l.
Proof.
  revert c. induction l as [|x l IH]; intros c; simpl; [by rewrite app_nil_r|].
  unfold sha256_updates in *. simpl. rewrite IH. simpl. by rewrite app_assoc.
Qed.

#[export] Instance toy_sha256_laws : Sha256Laws (H := toy_sha256).
Proof.
  split.
  - intros m. apply length_fit.
  - intros l. rewrite toy_updates. done.
Qed.

(** A "cipher" that copies the plaintext and tags it with key, nonce and text. *)
Definition toy_tag (k n p : bytes) : bytes := fit 16 (take 4 k ++ take 4 n ++ p).

#[export] Instance toy_gcm : Gcm := {
  gcm_setkey k := Nat.eqb (length k) 32;
  gcm_encrypt k n p := Some (p, toy_tag k n p);
  gcm_auth_decrypt k n t c := if decide (t = toy_tag k n c) then Some c else None
}.

#[export] Instance toy_gcm_laws : GcmLaws (H := toy_gcm).
Proof.
  split; simpl.
  - intros k ->. done.
  - eauto.
  - intros k n p c t [= <- <-]. split; [done|apply length_fit].
  - intros k n p c t [= <- <-]. by rewrite decide_True.
  - intros k n p c t. case_decide; intros; simplify_eq; done.
Qed.

(** A generator that returns successive counter values, and can be broken. *)
Record toy_drbg := ToyDrbg { toy_ctr : Z; toy_seeds : bool }.

#[export] Instance toy_drbg_api : Drbg_api toy_drbg := {
  drbg_seed _ r := (r, toy_seeds r);
  drbg_random n r := (ToyDrbg (toy_ctr r + 1) (toy_seeds r), Some (replicate n (u8_of (toy_ctr r))))
}.

#[export] Instance toy_drbg_laws : DrbgLaws toy_drbg.
Proof. split. intros n r r' b Hr. simpl in Hr. simplify_eq. apply length_replicate. Qed.

(** "Diffie-Hellman" with byte-wise addition: [pub a = a], [dh a b = a + b]. *)
Definition add_bytes (a b : bytes) : bytes :=
  zip_with (fun x y => u8_of (u8_val x + u8_val y)) a b.

#[export] Instance toy_x25519 : X25519 := {
  crypto_x25519_public_key a := fit 32 a;
  crypto_x25519 a p := fit 32 (add_bytes a p)
}.

Lemma add_bytes_comm a b : add_bytes a b = add_bytes b a.
Proof.
  revert b. induction a as [|x a IH]; intros [|y b]; try done.
  unfold add_bytes in *. simpl. by rewrite Z.add_comm, IH.
Qed.

Lemma fit_self n a : length a = n -> fit n a = a.
Proof. intros <-. unfold fit. by rewrite take_app_length. Qed.

#[export] Instance toy_x25519_laws : X25519Laws (H := toy_x25519).
Proof.
  split; simpl.
  - intros. apply length_fit.
  - intros a b Ha Hb. rewrite (fit_self 32 a), (fit_self 32 b) by done. by rewrite add_bytes_comm.
  - intros. apply length_fit.
Qed.

End Toy.
