(* ===== verification/Session.v ===== *)
(** * Session

    [src/crypto/session.cpp]: the session key derivation and the AES-256-GCM
    sealing of a record, over the primitives of [Crypto]. *)

From S2P Require Import Prelude Errors Wire Stream Protocol Crypto.

Definition kNonceSize : nat := 12.
Definition kTagSize : nat := 16.

(** The file's own copy of the 32-bit encoder. *)
Definition session_put_be32 (v : Z) : bytes :=
  [u8_of (Z.land (Z.shiftr v 24) 255); u8_of (Z.land (Z.shiftr v 16) 255);
   u8_of (Z.land (Z.shiftr v 8) 255); u8_of (Z.land v 255)].

(** ** [random_bytes]: the process-wide generator, seeded on first use *)

Record seal_rng (R : Type) := SealRng { inited : bool; drbg : R }.
Arguments SealRng {R} _ _.
Arguments inited {R} _.
Arguments drbg {R} _.

Section RandomBytes.
Context {R : Type} {Rng : Drbg_api R}.

Definition random_bytes (n : nat) : io (seal_rng R) bytes := fun st =>
  let '(st1, seeded) :=
    if inited st then (st, true)
    else let '(d, ok) := drbg_seed "cpptcpduplex-seal" (drbg st) in
         (SealRng ok d, ok) in
  if negb seeded then (st1, inl (make_error_code Errc.io_error))
  else match drbg_random n (drbg st1) with
       | (d, Some b) => (SealRng (inited st1) d, inr b)
       | (d, None) => (SealRng (inited st1) d, inl (make_error_code Errc.io_error))
       end.

End RandomBytes.

(** ** Key derivation *)

Section Session.
Context {Sha : Sha256} {G : Gcm}.

Definition derive_session_key (shared_secret psk : bytes) : bytes :=
  if decide (psk = []) then sha256 shared_secret
  else
    let ctx := sha256_starts in
    let ctx := sha256_update ctx shared_secret in
    let ctx := sha256_update ctx [Byte.x00] in
    let lb := session_put_be32 (wrap32 (zlen psk)) in
    let ctx := sha256_update ctx lb in
    let ctx := sha256_update ctx psk in
    sha256_finish ctx.

(** [class Session]: the key; a default-constructed session has none. *)
Record session := Session { key_ : bytes }.

Definition Session_default : session := Session [].

Definition valid (s : session) : bool := negb (bool_decide (key_ s = [])).

(** [Session::create] always succeeds. *)
Definition Session_create (shared_secret psk : bytes) : error_code * session :=
  (ec_none, Session (derive_session_key shared_secret psk)).

(** ** Sealing *)

Definition seal {R} `{Drbg_api R} (s : session) (plaintext : bytes) : io (seal_rng R) bytes :=
  let max_seal := kMaxRecordPayload - 1 in
  if Z.of_nat kNonceSize + Z.of_nat kTagSize + zlen plaintext >? max_seal then
    io_fail (make_error_code Errc.bad_frame)
  else
    let* nonce := random_bytes kNonceSize in
    if negb (gcm_setkey (key_ s)) then io_fail (make_error_code Errc.other)
    else match gcm_encrypt (key_ s) nonce plaintext with
         | None => io_fail (make_error_code Errc.other)
         | Some (ct, tag) => io_ret (nonce ++ ct ++ tag)
         end.

Definition open (s : session) (sealed : bytes) : error_code + bytes :=
  if (length sealed <? kNonceSize + kTagSize)%nat then
    inl (make_error_code Errc.bad_frame)
  else
    let nonce := take kNonceSize sealed in
    let ct_len := (length sealed - kNonceSize - kTagSize)%nat in
    let ct := take ct_len (drop kNonceSize sealed) in
    let tag := take kTagSize (drop (kNonceSize + ct_len) sealed) in
    if negb (gcm_setkey (key_ s)) then inl (make_error_code Errc.other)
    else match gcm_auth_decrypt (key_ s) nonce tag ct with
         | None => inl (make_error_code Errc.bad_frame)
         | Some out => inr out
         end.

End Session.

(** ** Specifications *)

(** The input of the hash, as the wire format documents it:
    [shared], or [shared || 0x00 || uint32_be(len(psk)) || psk]. *)
Definition kdf_input (shared psk : bytes) : bytes :=
  if decide (psk = []) then shared
  else shared ++ [Byte.x00] ++ be_bytes 4 (zlen psk) ++ psk.

(** The largest plaintext one record can carry: 1 MiB less type, nonce and tag. *)
Definition max_plaintext : Z := 1048547.

(** A session whose key AES-256 accepts. *)
Definition session_ready (s : session) : Prop := length (key_ s) = 32%nat.

(** ** Lemmas *)

Lemma session_put_be32_spec v : session_put_be32 v = be_bytes 4 v.
Proof. exact (put_be32_spec v). Qed.

(** The size test of [seal], evaluated. *)
Lemma seal_guard (pt : bytes) :
  (Z.of_nat kNonceSize + Z.of_nat kTagSize + zlen pt >? kMaxRecordPayload - 1)
  = (max_plaintext <? zlen pt).
Proof.
  unfold kMaxRecordPayload, max_plaintext, kNonceSize, kTagSize.
  change (Z.shiftl 1 20) with 1048576. rewrite Z.gtb_ltb.
  apply eq_bool_prop_intro. rewrite !Is_true_true, !Z.ltb_lt. lia.
Qed.

Section Facts.
Context {Sha : Sha256} {ShaL : Sha256Laws} {G : Gcm} {GL : GcmLaws}.

Lemma derive_session_key_spec shared psk :
  zlen psk < 2 ^ 32 -> derive_session_key shared psk = sha256 (kdf_input shared psk).
Proof.
  intros Hlen. unfold derive_session_key, kdf_input. case_decide; [done|].
  rewrite session_put_be32_spec. unfold wrap32.
  rewrite Z.mod_small by (unfold zlen in *; lia).
  etrans; [exact (sha256_streaming [shared; [Byte.x00]; be_bytes 4 (zlen psk); psk])|].
  cbn [concat]. by rewrite app_nil_r.
Qed.

(** For every psk, also one whose size does not fit 32 bits. *)
Lemma derive_session_key_length shared psk : length (derive_session_key shared psk) = 32%nat.
Proof.
  unfold derive_session_key. case_decide; [apply sha256_length|].
  etrans; [exact (f_equal length (sha256_streaming [shared; [Byte.x00]; _; psk]))|].
  apply sha256_length.
Qed.

Lemma kdf_input_inj s1 p1 s2 p2 :
  length s1 = 32%nat -> length s2 = 32%nat ->
  kdf_input s1 p1 = kdf_input s2 p2 -> s1 = s2 /\ p1 = p2.
Proof.
  intros H1 H2. unfold kdf_input. repeat case_decide; subst; intros Heq.
  - done.
  - apply (f_equal length) in Heq. rewrite !length_app in Heq. simpl in Heq. lia.
  - apply (f_equal length) in Heq. rewrite !length_app in Heq. simpl in Heq. lia.
  - apply app_inj_1 in Heq as [-> Heq]; [|congruence].
    apply app_inj_1 in Heq as [_ Heq]; [|done].
    apply app_inj_1 in Heq as [_ ->]; [done|]. by rewrite !length_be_bytes.
Qed.

Lemma seal_ok {R} `{DrbgLaws R} s pt (st st' : seal_rng R) sealed :
  session_ready s -> seal s pt st = (st', inr sealed) ->
  zlen sealed = zlen pt + 28 /\ zlen pt <= max_plaintext /\
  exists nonce ct tag, sealed = nonce ++ ct ++ tag /\ length nonce = kNonceSize /\
    gcm_encrypt (key_ s) nonce pt = Some (ct, tag).
Proof.
  intros Hk. unfold seal, io_bind.
  rewrite seal_guard. destruct (max_plaintext <? zlen pt) eqn:Hg; [done|]. bool_to_prop.
  unfold random_bytes.
  destruct (if inited st then _ else _) as [st1 ok]. destruct ok; [|done]. cbn [negb].
  destruct (drbg_random kNonceSize (drbg st1)) as [d [nonce|]] eqn:Hr; [|done].
  apply drbg_random_length in Hr.
  rewrite gcm_setkey_32 by done. cbn [negb].
  destruct (gcm_encrypt (key_ s) nonce pt) as [[ct tag]|] eqn:He; [|done].
  unfold io_ret. intros [= <- <-].
  destruct (gcm_encrypt_length _ _ _ _ _ He) as [Hc Ht].
  split_and!.
  - unfold zlen. rewrite !length_app, Hr, Hc, Ht. unfold kNonceSize. lia.
  - done.
  - eauto 10.
Qed.

Lemma open_layout s nonce ct tag :
  length nonce = kNonceSize -> length tag = kTagSize -> session_ready s ->
  open s (nonce ++ ct ++ tag) =
    match gcm_auth_decrypt (key_ s) nonce tag ct with
    | None => inl (make_error_code Errc.bad_frame)
    | Some out => inr out
    end.
Proof.
  intros Hn Ht Hk. unfold open.
  assert (Hlen : length (nonce ++ ct ++ tag) = (kNonceSize + length ct + kTagSize)%nat).
  { rewrite !length_app. lia. }
  rewrite Hlen.
  assert ((kNonceSize + length ct + kTagSize <? kNonceSize + kTagSize)%nat = false) as ->.
  { apply Nat.ltb_ge. lia. }
  assert ((kNonceSize + length ct + kTagSize - kNonceSize - kTagSize)%nat = length ct) as -> by lia.
  rewrite gcm_setkey_32 by done. cbn [negb].
  rewrite <- Hn. rewrite take_app_length, drop_app_length, take_app_length.
  assert (take kTagSize (drop (length nonce + length ct) (nonce ++ ct ++ tag)) = tag) as ->; [|done].
  rewrite <- drop_drop, drop_app_length, drop_app_length. by rewrite take_ge by lia.
Qed.

Lemma open_inv s sealed pt :
  open s sealed = inr pt ->
  exists nonce ct tag, sealed = nonce ++ ct ++ tag /\ length nonce = kNonceSize
    /\ length tag = kTagSize /\ gcm_encrypt (key_ s) nonce pt = Some (ct, tag).
Proof.
  unfold open. destruct (_ <? _)%nat eqn:Hl; [done|]. apply Nat.ltb_ge in Hl.
  unfold kNonceSize, kTagSize in *.
  set (n := (length sealed - 12 - 16)%nat).
  destruct (gcm_setkey (key_ s)); [|done]. cbn [negb].
  destruct (gcm_auth_decrypt _ _ _ _) as [out|] eqn:Hd; [|done]. intros [= ->].
  exists (take 12 sealed), (take n (drop 12 sealed)), (take 16 (drop (12 + n) sealed)).
  apply gcm_decrypt_inv in Hd. split_and!; [|rewrite length_take; lia|
    rewrite length_take, length_drop; lia|done].
  rewrite <- drop_drop. rewrite (take_ge (drop n _)) by (rewrite !length_drop; lia).
  by rewrite !take_drop.
Qed.

End Facts.

(** ** Theorems *)

Section Theorems.
Context {Sha : Sha256} {ShaL : Sha256Laws} {G : Gcm} {GL : GcmLaws}.

(** The streaming computation is the documented hash of
    [shared], or of [shared || 0 || len(psk) || psk]; the hashed strings of two
    derivations are equal only for equal secrets and equal pre-shared keys (an
    empty one included), so the encoding itself never confuses two of them. *)
Theorem derive_session_key_correct s1 p1 s2 p2 :
  zlen p1 < 2 ^ 32 -> length s1 = 32%nat -> length s2 = 32%nat ->
  derive_session_key s1 p1 = sha256 (kdf_input s1 p1)
  /\ length (derive_session_key s1 p1) = 32%nat
  /\ (kdf_input s1 p1 = kdf_input s2 p2 <-> s1 = s2 /\ p1 = p2).
Proof.
  intros Hp H1 H2. split_and!.
  - by apply derive_session_key_spec.
  - apply derive_session_key_length.
  - split; [by apply kdf_input_inj|]. by intros [-> ->].
Qed.

(** Every outcome of [seal].  With a 32-byte key and a generator that delivers a
    nonce, [seal] fails exactly on plaintexts above 1048547 bytes, with
    [bad_frame] and without drawing a nonce; otherwise the blob is 28 bytes longer
    than the plaintext, fits a record, and [open] with the same key returns the
    plaintext. *)
Theorem seal_open_roundtrip {R} {Rng : Drbg_api R} {RngL : DrbgLaws R} s pt (st st1 : seal_rng R) nonce :
  session_ready s -> random_bytes kNonceSize st = (st1, inr nonce) ->
  (1048547 < zlen pt /\ seal s pt st = (st, inl (make_error_code Errc.bad_frame)))
  \/ (zlen pt <= 1048547 /\ exists sealed, seal s pt st = (st1, inr sealed)
      /\ zlen sealed = zlen pt + 28 /\ record_fits sealed /\ take 12 sealed = nonce
      /\ open s sealed = inr pt).
Proof.
  intros Hk Hr. destruct (decide (1048547 < zlen pt)) as [Hbig|Hfit].
  - left. split; [done|]. unfold seal. rewrite seal_guard. unfold max_plaintext. by guard_true (1048547 <? zlen pt).
  - right. split; [lia|].
    assert (length nonce = kNonceSize) as Hn.
    { unfold random_bytes in Hr. destruct (if inited st then _ else _) as [st' []]; [|done].
      cbn [negb] in Hr. destruct (drbg_random kNonceSize (drbg st')) as [d [b|]] eqn:E; [|done].
      simplify_eq. by eapply drbg_random_length. }
    destruct (gcm_encrypt_some (key_ s) nonce pt Hk Hn) as (ct & tag & He); [lia|].
    assert (Hs : seal s pt st = (st1, inr (nonce ++ ct ++ tag))).
    { unfold seal. rewrite seal_guard. unfold max_plaintext. guard_false (1048547 <? zlen pt).
      unfold io_bind. rewrite Hr, gcm_setkey_32, He by done. done. }
    exists (nonce ++ ct ++ tag). split; [done|].
    apply seal_ok in Hs as (Hz & _ & _); [|done].
    apply gcm_encrypt_length in He as Hl. destruct Hl as [_ Ht].
    split_and!; [done| | |].
    + unfold record_fits, kMaxRecordPayload. change (Z.shiftl 1 20) with 1048576. lia.
    + change 12%nat with kNonceSize. by rewrite <- Hn, take_app_length.
    + rewrite open_layout by done. by rewrite (gcm_decrypt_encrypt _ _ _ _ _ He).
Qed.

(** C30 (open is exact).  [open] accepts a blob as the plaintext [pt] exactly when
    the blob is a nonce followed by the ciphertext and tag AES-GCM yields for [pt]
    under that nonce and the session key; every other blob, a truncated one
    included, is [bad_frame]. *)
Theorem open_exact s sealed :
  session_ready s ->
  (forall pt, open s sealed = inr pt <->
     exists nonce ct tag, sealed = nonce ++ ct ++ tag /\ length nonce = 12%nat
       /\ gcm_encrypt (key_ s) nonce pt = Some (ct, tag))
  /\ (forall e, open s sealed = inl e -> e = make_error_code Errc.bad_frame).
Proof.
  intros Hk. split.
  - intros pt. split.
    + intros Ho. apply open_inv in Ho as (n & c & t & -> & Hn & _ & He). eauto 10.
    + intros (n & c & t & -> & Hn & He). destruct (gcm_encrypt_length _ _ _ _ _ He) as [_ Ht].
      rewrite open_layout by done. by rewrite (gcm_decrypt_encrypt _ _ _ _ _ He).
  - intros e. unfold open. destruct (_ <? _)%nat; [congruence|].
    rewrite gcm_setkey_32 by done. cbn [negb].
    destruct (gcm_auth_decrypt _ _ _ _); congruence.
Qed.

End Theorems.

(** ** Witnesses *)

Import Toy.

Definition toy_session : session := Session key_bytes.

Lemma open_exact_witness :
  open toy_session (replicate 27 Byte.x00) = inl (make_error_code Errc.bad_frame)
  /\ (forall e, open toy_session (replicate 27 Byte.x00) = inl e -> e = make_error_code Errc.bad_frame).
Proof.
  split; [vm_compute; reflexivity|].
  exact (proj2 (open_exact toy_session (replicate 27 Byte.x00) (eq_refl : length key_bytes = 32%nat))).
Defined.
