(* ===== verification/Handshake.v ===== *)
(** * Handshake

    [src/crypto/handshake.cpp], [src/crypto/x25519.cpp] and [src/fingerprint.cpp]:
    the client and server sides of the key exchange over any [ByteStream].  The
    state is the stream paired with the entropy of the process. *)

From S2P Require Import Prelude Errors Wire Stream Protocol Crypto Session.

(** [struct HandshakeOpts]; the pointer the functions take may be null. *)
Record HandshakeOpts := MkHandshakeOpts {
  pre_shared_key : bytes;
  expected_peer_pubkey_sha256 : option bytes
}.

(** Run an operation of one half of the state. *)
Definition on_stream {Str R A} (m : io Str A) : io (Str * R) A :=
  fun '(s, r) => let '(s', x) := m s in ((s', r), x).
Definition on_rng {Str R A} (m : io R A) : io (Str * R) A :=
  fun '(s, r) => let '(r', x) := m r in ((s, r'), x).

Section Operations.
Context {Str R : Type} {BS : ByteStream Str} {Rng : Drbg_api R}.
Context {Sha : Sha256} {Dh : X25519}.

(** [struct Drbg]: the constructor seeds, [fill] draws. *)
Definition Drbg_init : io R bool := fun r =>
  let '(r', ok) := drbg_seed "cpptcpduplex" r in (r', inr ok).

Definition Drbg_fill (ok : bool) (n : nat) : io R bytes := fun r =>
  if negb ok then (r, inl (make_error_code Errc.io_error))
  else match drbg_random n r with
       | (r', None) => (r', inl (make_error_code Errc.io_error))
       | (r', Some b) => (r', inr b)
       end.

Definition fingerprint_sha256 (pub_key : bytes) : bytes := sha256 pub_key.

Definition peer_public_key_fingerprint (pub_key : bytes) : bytes := fingerprint_sha256 pub_key.

Definition x25519_public_from_private (priv : bytes) : bytes := crypto_x25519_public_key priv.

Definition x25519_shared_secret (priv peer_pub : bytes) : bytes := crypto_x25519 priv peer_pub.

(** [opts && opts->expected_peer_pubkey_sha256] and the comparison after it. *)
Definition pin_mismatch (opts : option HandshakeOpts) (peer_pub : bytes) : bool :=
  match opts with
  | Some o =>
      match expected_peer_pubkey_sha256 o with
      | Some fp => negb (bool_decide (fingerprint_sha256 peer_pub = fp))
      | None => false
      end
  | None => false
  end.

Definition psk_of (opts : option HandshakeOpts) : bytes :=
  match opts with Some o => pre_shared_key o | None => [] end.

Definition client_handshake (negotiated_version : Z) (opts : option HandshakeOpts)
    : io (Str * R) session :=
  let* ok := on_rng Drbg_init in
  let* priv := on_rng (Drbg_fill ok 32) in
  let pub := x25519_public_from_private priv in
  let* _ := on_stream (write_handshake negotiated_version pub) in
  let* (peer_ver, peer_pub_vec) := on_stream read_handshake in
  if negb (peer_ver =? negotiated_version) || negb (zlen peer_pub_vec =? 32) then
    io_fail (make_error_code Errc.handshake_authentication)
  else if pin_mismatch opts peer_pub_vec then
    io_fail (make_error_code Errc.peer_fingerprint_mismatch)
  else
    let shared := x25519_shared_secret priv peer_pub_vec in
    let '(ec, out) := Session_create shared (psk_of opts) in
    if ec_bool ec then io_fail ec else io_ret out.

Definition server_handshake (opts : option HandshakeOpts) : io (Str * R) (session * Z) :=
  let* ok := on_rng Drbg_init in
  let* priv := on_rng (Drbg_fill ok 32) in
  let pub := x25519_public_from_private priv in
  let* (negotiated_version, peer_pub_vec) := on_stream read_handshake in
  if negb (zlen peer_pub_vec =? 32) then
    io_fail (make_error_code Errc.bad_handshake)
  else if pin_mismatch opts peer_pub_vec then
    io_fail (make_error_code Errc.peer_fingerprint_mismatch)
  else
    let shared := x25519_shared_secret priv peer_pub_vec in
    let* _ := on_stream (write_handshake negotiated_version pub) in
    let '(ec, out) := Session_create shared (psk_of opts) in
    if ec_bool ec then io_fail ec else io_ret (out, negotiated_version).

End Operations.

(** ** Lemmas *)

(** The generator of a handshake delivers the private key [priv]. *)
Definition draws_key {R} `{Drbg_api R} (r : R) (priv : bytes) (r' : R) : Prop :=
  exists r1, drbg_seed "cpptcpduplex" r = (r1, true) /\ drbg_random 32 r1 = (r', Some priv).

Section Facts.
Context {Str R : Type} {BS : ByteStream Str} {Spec : StreamSpec Str}.
Context {Rng : Drbg_api R} {RngL : DrbgLaws R}.
Context {Sha : Sha256} {ShaL : Sha256Laws} {Dh : X25519} {DhL : X25519Laws}.

Lemma client_handshake_ok ver opts s r priv r' peer_pub rest :
  draws_key r priv r' -> supports_version ver = true -> writable s ->
  incoming s = handshake_bytes ver peer_pub ++ rest -> length peer_pub = 32%nat ->
  pin_mismatch opts peer_pub = false ->
  exists s', client_handshake ver opts (s, r)
      = ((s', r'), inr (Session (derive_session_key (crypto_x25519 priv peer_pub) (psk_of opts))))
    /\ outgoing s' = outgoing s ++ handshake_bytes ver (crypto_x25519_public_key priv)
    /\ incoming s' = rest.
Proof.
  intros (r1 & E1 & E2) Hv Hw Hin Hp Hpin.
  unfold client_handshake, io_bind, on_rng, on_stream, Drbg_init, Drbg_fill.
  rewrite E1. cbn [negb]. rewrite E2.
  destruct (write_handshake_ok ver (crypto_x25519_public_key priv) s Hv
              (x25519_public_length priv) Hw) as (s1 & Ew & Ho1 & Hi1 & Hw1).
  unfold x25519_public_from_private. rewrite Ew. rewrite <- Hi1 in Hin.
  destruct (read_handshake_ok ver peer_pub rest s1 Hv Hp Hin) as (s2 & -> & Hi2 & Ho2 & _).
  unfold zlen. rewrite Hp, Z.eqb_refl. cbn [negb orb Z.of_nat].
  change (Z.of_nat 32 =? 32) with true. cbn [negb orb].
  rewrite Hpin. exists s2. split_and!; [done|congruence|done].
Qed.

Lemma server_handshake_ok ver opts s r priv r' peer_pub rest :
  draws_key r priv r' -> supports_version ver = true -> writable s ->
  incoming s = handshake_bytes ver peer_pub ++ rest -> length peer_pub = 32%nat ->
  pin_mismatch opts peer_pub = false ->
  exists s', server_handshake opts (s, r)
      = ((s', r'), inr (Session (derive_session_key (crypto_x25519 priv peer_pub) (psk_of opts)), ver))
    /\ outgoing s' = outgoing s ++ handshake_bytes ver (crypto_x25519_public_key priv)
    /\ incoming s' = rest.
Proof.
  intros (r1 & E1 & E2) Hv Hw Hin Hp Hpin.
  unfold server_handshake, io_bind, on_rng, on_stream, Drbg_init, Drbg_fill.
  rewrite E1. cbn [negb]. rewrite E2.
  destruct (read_handshake_ok ver peer_pub rest s Hv Hp Hin) as (s1 & -> & Hi1 & Ho1 & Hw1).
  unfold zlen. rewrite Hp. change (Z.of_nat 32 =? 32) with true. cbn [negb].
  rewrite Hpin.
  destruct (write_handshake_ok ver (crypto_x25519_public_key priv) s1 Hv
              (x25519_public_length priv) (Hw1 Hw)) as (s2 & Ew & Ho2 & Hi2 & Hw2).
  unfold x25519_public_from_private. rewrite Ew.
  exists s2. split_and!; [done|congruence|congruence].
Qed.

(** Inversion of the write of a handshake message, on any stream. *)
Lemma write_handshake_inv ver pub (s s' : Str) :
  write_handshake ver pub s = (s', inr tt) ->
  supports_version ver = true /\ length pub = 32%nat
  /\ outgoing s' = outgoing s ++ handshake_bytes ver pub /\ incoming s' = incoming s.
Proof.
  unfold write_handshake.
  destruct (supports_version ver) eqn:Hv; [|done]. cbn [negb].
  destruct (zlen pub =? Z.of_nat kX25519PubKeyLen) eqn:Hp; [|done]. cbn [negb]. bool_to_prop.
  unfold io_bind. destruct (write_all _ s) as [s1 [e|[]]] eqn:E1; [done|]. intros E2.
  apply write_all_inv in E1 as [Hi1 Ho1]. apply write_all_inv in E2 as [Hi2 Ho2].
  split_and!; [done|unfold zlen, kX25519PubKeyLen in Hp; lia| |congruence].
  rewrite Ho2, Ho1, put_be16_spec. unfold handshake_bytes. by rewrite <- !app_assoc.
Qed.

(** What a successful client run did: the key it drew, the message it wrote,
    the message it read, the session it derived. *)
Lemma client_handshake_inv ver opts s r s' r' sess :
  client_handshake ver opts (s, r) = ((s', r'), inr sess) ->
  exists priv peer_pub, draws_key r priv r' /\ length priv = 32%nat /\ length peer_pub = 32%nat
    /\ supports_version ver = true
    /\ outgoing s' = outgoing s ++ handshake_bytes ver (crypto_x25519_public_key priv)
    /\ incoming s = handshake_bytes ver peer_pub ++ incoming s'
    /\ pin_mismatch opts peer_pub = false
    /\ sess = Session (derive_session_key (crypto_x25519 priv peer_pub) (psk_of opts)).
Proof.
  unfold client_handshake, io_bind, on_rng, on_stream, Drbg_init, Drbg_fill.
  destruct (drbg_seed _ r) as [r1 []] eqn:E1; [|done]. cbn [negb].
  destruct (drbg_random 32 r1) as [r2 [priv|]] eqn:E2; [|done].
  destruct (write_handshake _ _ s) as [s1 [e|[]]] eqn:E3; [done|].
  destruct (read_handshake s1) as [s2 [e|[pv pp]]] eqn:E4; [done|].
  destruct (negb (pv =? ver) || _) eqn:Hg; [done|]. bool_to_prop. subst pv.
  destruct (pin_mismatch opts pp) eqn:Hpin; [done|]. unfold io_ret. intros [= <- <- <-].
  apply write_handshake_inv in E3 as (Hv & _ & Ho1 & Hi1).
  apply read_handshake_inv in E4 as (_ & Hl & Hi2 & Ho2).
  exists priv, pp. split_and!; [by exists r1|by eapply drbg_random_length|done|done| | |done|done].
  - by rewrite Ho2, Ho1.
  - by rewrite <- Hi1.
Qed.

Lemma server_handshake_inv opts s r s' r' sess ver :
  server_handshake opts (s, r) = ((s', r'), inr (sess, ver)) ->
  exists priv peer_pub, draws_key r priv r' /\ length priv = 32%nat /\ length peer_pub = 32%nat
    /\ supports_version ver = true
    /\ outgoing s' = outgoing s ++ handshake_bytes ver (crypto_x25519_public_key priv)
    /\ incoming s = handshake_bytes ver peer_pub ++ incoming s'
    /\ pin_mismatch opts peer_pub = false
    /\ sess = Session (derive_session_key (crypto_x25519 priv peer_pub) (psk_of opts)).
Proof.
  unfold server_handshake, io_bind, on_rng, on_stream, Drbg_init, Drbg_fill.
  destruct (drbg_seed _ r) as [r1 []] eqn:E1; [|done]. cbn [negb].
  destruct (drbg_random 32 r1) as [r2 [priv|]] eqn:E2; [|done].
  destruct (read_handshake s) as [s1 [e|[pv pp]]] eqn:E3; [done|].
  destruct (negb (zlen pp =? 32)); [done|].
  destruct (pin_mismatch opts pp) eqn:Hpin; [done|].
  destruct (write_handshake _ _ s1) as [s2 [e|[]]] eqn:E4; [done|].
  unfold io_ret. intros [= <- <- <- <-].
  apply read_handshake_inv in E3 as (Hv & Hl & Hi1 & Ho1).
  apply write_handshake_inv in E4 as (_ & _ & Ho2 & Hi2).
  exists priv, pp. split_and!; [by exists r1|by eapply drbg_random_length|done|done| | |done|done].
  - by rewrite Ho2, Ho1.
  - by rewrite Hi1, Hi2.
Qed.

Lemma handshake_bytes_inj v1 p1 r1 v2 p2 r2 :
  supports_version v1 = true -> supports_version v2 = true ->
  length p1 = 32%nat -> length p2 = 32%nat ->
  handshake_bytes v1 p1 ++ r1 = handshake_bytes v2 p2 ++ r2 -> v1 = v2 /\ p1 = p2 /\ r1 = r2.
Proof.
  intros Hv1 Hv2 H1 H2. apply Z.eqb_eq in Hv1 as ->. apply Z.eqb_eq in Hv2 as ->.
  unfold handshake_bytes. rewrite <- !app_assoc. intros Heq.
  do 2 (apply app_inj_1 in Heq as [_ Heq]; [|done]).
  apply app_inj_1 in Heq as [-> ->]; [done|congruence].
Qed.

End Facts.

(** ** Theorems *)

Section Theorems.
Context {Str R : Type} {BS : ByteStream Str} {Spec : StreamSpec Str}.
Context {Rng : Drbg_api R} {RngL : DrbgLaws R}.
Context {Sha : Sha256} {ShaL : Sha256Laws} {Dh : X25519} {DhL : X25519Laws}.

(** C12 (handshake_agreement).  A client and a server run that each succeeded and
    that read each other's bytes agree on the protocol version, and they hold the
    same session key exactly when their pre-shared keys are equal (given keys shorter
    than 2^32 bytes and a hash that does not collide on the two key-derivation
    inputs). *)
Theorem handshake_agreement ver oc os (c c' s s' : Str) (rc rc' rs rs' : R) sess_c sess_s ver_s
    wc ws rest_c rest_s :
  client_handshake ver oc (c, rc) = ((c', rc'), inr sess_c) ->
  server_handshake os (s, rs) = ((s', rs'), inr (sess_s, ver_s)) ->
  outgoing c' = outgoing c ++ wc -> incoming s = wc ++ rest_s ->
  outgoing s' = outgoing s ++ ws -> incoming c = ws ++ rest_c ->
  zlen (psk_of oc) < 2 ^ 32 -> zlen (psk_of os) < 2 ^ 32 ->
  (forall sh, sha256 (kdf_input sh (psk_of oc)) = sha256 (kdf_input sh (psk_of os)) ->
              kdf_input sh (psk_of oc) = kdf_input sh (psk_of os)) ->
  ver = ver_s /\ (sess_c = sess_s <-> psk_of oc = psk_of os).
Proof.
  intros Hc Hs Hwc Hins Hws Hinc Hlc Hls Hcf.
  apply client_handshake_inv in Hc as (a & pb & _ & Ha & Hpb & Hvc & Hoc & Hic & _ & ->).
  apply server_handshake_inv in Hs as (b & pa & _ & Hb & Hpa & Hvs & Hos & His & _ & ->).
  rewrite Hwc in Hoc. apply app_inv_head in Hoc as ->.
  rewrite Hws in Hos. apply app_inv_head in Hos as ->.
  rewrite Hins in His. apply handshake_bytes_inj in His as (-> & <- & _);
    [|done|done|apply x25519_public_length|done].
  rewrite Hinc in Hic. apply handshake_bytes_inj in Hic as (_ & <- & _);
    [|done|done|apply x25519_public_length|done].
  split; [done|]. rewrite (x25519_commutes b a), !derive_session_key_spec by done.
  split; [|by intros ->]. intros [= Heq%Hcf].
  apply kdf_input_inj in Heq as [_ Heq]; [done|apply x25519_length..].
Qed.

(** C13 (handshake completeness).  When the two generators deliver keys, the
    streams accept writes, each side finds the other's message on its stream and
    no pin is violated, both sides succeed, having written exactly their handshake
    message and consumed exactly the peer's; with equal pre-shared keys they hold
    the same session, ready for AES-256. *)
Theorem handshake_complete ver oc os (c s : Str) (rc rc' rs rs' : R) a b rest_c rest_s :
  supports_version ver = true -> draws_key rc a rc' -> draws_key rs b rs' ->
  writable c -> writable s ->
  incoming c = handshake_bytes ver (crypto_x25519_public_key b) ++ rest_c ->
  incoming s = handshake_bytes ver (crypto_x25519_public_key a) ++ rest_s ->
  pin_mismatch oc (crypto_x25519_public_key b) = false ->
  pin_mismatch os (crypto_x25519_public_key a) = false ->
  psk_of oc = psk_of os ->
  exists c' s' sess,
    client_handshake ver oc (c, rc) = ((c', rc'), inr sess)
    /\ server_handshake os (s, rs) = ((s', rs'), inr (sess, ver))
    /\ outgoing c' = outgoing c ++ handshake_bytes ver (crypto_x25519_public_key a)
    /\ outgoing s' = outgoing s ++ handshake_bytes ver (crypto_x25519_public_key b)
    /\ incoming c' = rest_c /\ incoming s' = rest_s /\ session_ready sess.
Proof.
  intros Hv Ha Hb Hwc Hws Hic His Hpc Hps Hpsk.
  destruct (client_handshake_ok ver oc c rc a rc' _ rest_c Ha Hv Hwc Hic
              (x25519_public_length b) Hpc) as (c' & Ec & Hoc & Hrc).
  destruct (server_handshake_ok ver os s rs b rs' _ rest_s Hb Hv Hws His
              (x25519_public_length a) Hps) as (s' & Es & Hos & Hrs).
  assert (length a = 32%nat) by (destruct Ha as (? & _ & ?); by eapply drbg_random_length).
  assert (length b = 32%nat) by (destruct Hb as (? & _ & ?); by eapply drbg_random_length).
  rewrite Hpsk, (x25519_commutes a b) in Ec by done.
  exists c', s'. eexists. split_and!; try done. apply derive_session_key_length.
Qed.

(** C14 (pinning).  A handshake with a pin succeeds only if the public key read
    from the wire hashes to the pin; a server that finds another key reports
    [peer_fingerprint_mismatch] and has written nothing. *)
Theorem handshake_pinning psk fp ver :
  let opts := Some (MkHandshakeOpts psk (Some fp)) in
  (forall (c c' : Str) (r r' : R) sess,
     client_handshake ver opts (c, r) = ((c', r'), inr sess) ->
     exists pub, incoming c = handshake_bytes ver pub ++ incoming c' /\ sha256 pub = fp)
  /\ (forall (s s' : Str) (r r' : R) sess v,
     server_handshake opts (s, r) = ((s', r'), inr (sess, v)) ->
     exists pub, incoming s = handshake_bytes v pub ++ incoming s' /\ sha256 pub = fp)
  /\ (forall (s : Str) (r r' : R) priv pub rest,
     draws_key r priv r' -> supports_version ver = true -> length pub = 32%nat ->
     incoming s = handshake_bytes ver pub ++ rest -> sha256 pub <> fp ->
     exists s', server_handshake opts (s, r)
         = ((s', r'), inl (make_error_code Errc.peer_fingerprint_mismatch))
       /\ outgoing s' = outgoing s).
Proof.
  intros opts. assert (Hm : forall pub, pin_mismatch opts pub = false -> sha256 pub = fp).
  { intros pub. simpl. unfold fingerprint_sha256. by case_bool_decide. }
  split_and!.
  - intros c c' r r' sess Hc.
    apply client_handshake_inv in Hc as (a & pb & _ & _ & _ & _ & _ & Hic & Hp & _). eauto.
  - intros s s' r r' sess v Hs.
    apply server_handshake_inv in Hs as (a & pb & _ & _ & _ & _ & _ & Hic & Hp & _). eauto.
  - intros s r r' priv pub rest (r1 & E1 & E2) Hv Hl Hin Hne.
    unfold server_handshake, io_bind, on_rng, on_stream, Drbg_init, Drbg_fill.
    rewrite E1. cbn [negb]. rewrite E2.
    destruct (read_handshake_ok ver pub rest s Hv Hl Hin) as (s1 & -> & _ & Ho1 & _).
    unfold zlen. rewrite Hl. change (Z.of_nat 32 =? 32) with true. cbn [negb].
    assert (pin_mismatch opts pub = true) as ->.
    { simpl. unfold fingerprint_sha256. by rewrite bool_decide_eq_false_2. }
    by exists s1.
Qed.

End Theorems.

(** ** Witnesses *)

Import Toy.

Definition toy_key (n : Z) : bytes := replicate 32 (u8_of n).
Definition toy_peer (n : Z) : mem_stream := MemStream (handshake_bytes 1 (toy_key n)) [] false.
Definition toy_opts : option HandshakeOpts := Some (MkHandshakeOpts [Byte.x61] None).

Lemma handshake_agreement_witness :
  exists c' s' sess,
    client_handshake 1 toy_opts (toy_peer 9, ToyDrbg 7 true) = ((c', ToyDrbg 8 true), inr sess)
    /\ server_handshake toy_opts (toy_peer 7, ToyDrbg 9 true) = ((s', ToyDrbg 10 true), inr (sess, 1))
    /\ (sess = sess <-> psk_of toy_opts = psk_of toy_opts).
Proof.
  eexists _, _, _. split; [vm_compute; reflexivity|]. split; [vm_compute; reflexivity|].
  refine (proj2 (handshake_agreement 1 toy_opts toy_opts (toy_peer 9)
    (MemStream [] (handshake_bytes 1 (toy_key 7)) false) (toy_peer 7)
    (MemStream [] (handshake_bytes 1 (toy_key 9)) false)
    (ToyDrbg 7 true) (ToyDrbg 8 true) (ToyDrbg 9 true) (ToyDrbg 10 true) _ _ 1
    (handshake_bytes 1 (toy_key 7)) (handshake_bytes 1 (toy_key 9)) [] []
    _ _ _ _ _ _ _ _ _)); try (vm_compute; reflexivity); try reflexivity.
Defined.

Lemma handshake_complete_witness :
  exists c' s' sess,
    client_handshake 1 None (toy_peer 9, ToyDrbg 7 true) = ((c', ToyDrbg 8 true), inr sess)
    /\ server_handshake None (toy_peer 7, ToyDrbg 9 true) = ((s', ToyDrbg 10 true), inr (sess, 1))
    /\ session_ready sess.
Proof.
  destruct (handshake_complete 1 None None (toy_peer 9) (toy_peer 7)
    (ToyDrbg 7 true) (ToyDrbg 8 true) (ToyDrbg 9 true) (ToyDrbg 10 true)
    (toy_key 7) (toy_key 9) [] []) as (c' & s' & sess & Ec & Es & _ & _ & _ & _ & Hr).
  all: try reflexivity.
  - exists (ToyDrbg 7 true). split; vm_compute; reflexivity.
  - exists (ToyDrbg 9 true). split; vm_compute; reflexivity.
  - exists c', s', sess. split; [exact Ec|]. split; [exact Es|exact Hr].
Defined.

Lemma handshake_pinning_witness :
  exists s' : mem_stream,
    server_handshake (Some (MkHandshakeOpts [] (Some []))) (toy_peer 7, ToyDrbg 9 true)
      = ((s', ToyDrbg 10 true), inl (make_error_code Errc.peer_fingerprint_mismatch))
    /\ mem_out s' = [].
Proof.
  destruct (handshake_pinning (Str := mem_stream) (R := toy_drbg) [] [] 1) as (_ & _ & Hs).
  destruct (Hs (toy_peer 7) (ToyDrbg 9 true) (ToyDrbg 10 true) (toy_key 9) (toy_key 7) [])
    as (s' & E & Ho); try reflexivity.
  - exists (ToyDrbg 9 true). split; vm_compute; reflexivity.
  - vm_compute. discriminate.
  - exists s'. split; [exact E|exact Ho].
Defined.
