(* ===== verification/Config.v ===== *)
(** * Config

    [include/cpptcpduplex/config.hpp] and [src/config.cpp]: the user's
    configuration, the defaults, and the frozen copy a connection works with. *)

From S2P Require Import Prelude Errors Protocol Handshake.

(** The identity of the target of a [std::function]; [None] is an empty function. *)
Definition callback : Type := nat.

(** [struct HandshakeAuth]. *)
Record HandshakeAuth := MkHandshakeAuth {
  auth_pre_shared_key : bytes;
  auth_expected_peer_pubkey_sha256 : option bytes
}.

(** [struct Config] and [struct FrozenConfig] have the same fields; durations
    are millisecond counts. *)
Record Config := MkConfig {
  dial_timeout : Z;
  handshake_timeout : Z;
  protocol_version : Z;
  max_message_bytes : Z;
  send_queue_depth : Z;
  receive_queue_depth : Z;
  on_message : option callback;
  on_message_buffer_depth : Z;
  disconnect_on_slow_callback_consumer : bool;
  handshake : HandshakeAuth
}.

Record FrozenConfig := MkFrozenConfig {
  f_dial_timeout : Z;
  f_handshake_timeout : Z;
  f_protocol_version : Z;
  f_max_message_bytes : Z;
  f_send_queue_depth : Z;
  f_receive_queue_depth : Z;
  f_on_message : option callback;
  f_on_message_buffer_depth : Z;
  f_disconnect_on_slow_callback_consumer : bool;
  f_handshake : HandshakeAuth
}.

Definition default_config : Config := {|
  dial_timeout := 30000;
  handshake_timeout := 15000;
  protocol_version := kCurrentProtocolVersion;
  max_message_bytes := Z.shiftl 512 10;
  send_queue_depth := 256;
  receive_queue_depth := 256;
  on_message := None;
  on_message_buffer_depth := 128;
  disconnect_on_slow_callback_consumer := false;
  handshake := MkHandshakeAuth [] None
|}.

Definition freeze_config (cfg : option Config) : FrozenConfig :=
  let d := default_config in
  let src := default d cfg in
  let depth := on_message_buffer_depth src in
  {| f_dial_timeout := if dial_timeout src <=? 0 then dial_timeout d else dial_timeout src;
     f_handshake_timeout :=
       if handshake_timeout src <=? 0 then handshake_timeout d else handshake_timeout src;
     f_protocol_version :=
       if protocol_version src =? 0 then protocol_version d else protocol_version src;
     f_max_message_bytes :=
       if max_message_bytes src <=? 0 then max_message_bytes d else max_message_bytes src;
     f_send_queue_depth :=
       if send_queue_depth src <=? 0 then send_queue_depth d else send_queue_depth src;
     f_receive_queue_depth :=
       if receive_queue_depth src <=? 0 then receive_queue_depth d else receive_queue_depth src;
     f_on_message := on_message src;
     f_on_message_buffer_depth :=
       match on_message src with
       | Some _ => if depth <=? 0 then on_message_buffer_depth d else depth
       | None => depth
       end;
     f_disconnect_on_slow_callback_consumer := disconnect_on_slow_callback_consumer src;
     f_handshake := handshake src |}.

Definition handshake_opts (f : FrozenConfig) : HandshakeOpts :=
  MkHandshakeOpts (auth_pre_shared_key (f_handshake f))
                  (auth_expected_peer_pubkey_sha256 (f_handshake f)).

(** ** Specification: a frozen configuration a connection can run with *)

Record config_wf (f : FrozenConfig) : Prop := {
  wf_dial : 0 < f_dial_timeout f;
  wf_handshake : 0 < f_handshake_timeout f;
  wf_version : f_protocol_version f <> 0;
  wf_max_message : 0 < f_max_message_bytes f;
  wf_send_depth : 0 < f_send_queue_depth f;
  wf_receive_depth : 0 < f_receive_queue_depth f;
  wf_jobs_depth : f_on_message f <> None -> 0 < f_on_message_buffer_depth f
}.

(** A frozen configuration seen as a configuration again. *)
Definition thaw (f : FrozenConfig) : Config := {|
  dial_timeout := f_dial_timeout f;
  handshake_timeout := f_handshake_timeout f;
  protocol_version := f_protocol_version f;
  max_message_bytes := f_max_message_bytes f;
  send_queue_depth := f_send_queue_depth f;
  receive_queue_depth := f_receive_queue_depth f;
  on_message := f_on_message f;
  on_message_buffer_depth := f_on_message_buffer_depth f;
  disconnect_on_slow_callback_consumer := f_disconnect_on_slow_callback_consumer f;
  handshake := f_handshake f
|}.

(** ** Lemmas *)

Lemma freeze_config_wf cfg : config_wf (freeze_config cfg).
Proof.
  split; unfold freeze_config; cbn -[Z.leb Z.shiftl];
    repeat case_match; bool_to_prop; try done; try lia.
Qed.

(** A well-formed configuration is frozen unchanged. *)
Lemma freeze_config_thaw f : config_wf f -> freeze_config (Some (thaw f)) = f.
Proof.
  intros [? ? Hv ? ? ? Hj]. destruct f as [a b c d e g h i j k].
  unfold freeze_config; simpl in *.
  guard_false (a <=? 0). guard_false (b <=? 0). guard_false (c =? 0). guard_false (d <=? 0).
  guard_false (e <=? 0). guard_false (g <=? 0).
  destruct h; [|done]. specialize (Hj ltac:(done)). by guard_false (i <=? 0).
Qed.

(** ** Theorems *)

(** Whatever the caller passes, a null pointer
    included, the frozen configuration is well formed: positive timeouts, sizes
    and depths, a non-zero version, a positive callback buffer when a callback is
    set.  Freezing changes no well-formed configuration, so it is idempotent, and
    the handshake options are those of the source. *)
Theorem freeze_config_correct cfg :
  config_wf (freeze_config cfg)
  /\ freeze_config (Some (thaw (freeze_config cfg))) = freeze_config cfg
  /\ (forall f, config_wf f -> freeze_config (Some (thaw f)) = f)
  /\ freeze_config None = freeze_config (Some default_config)
  /\ handshake_opts (freeze_config cfg)
     = MkHandshakeOpts (auth_pre_shared_key (handshake (default default_config cfg)))
         (auth_expected_peer_pubkey_sha256 (handshake (default default_config cfg))).
Proof.
  split_and!; [apply freeze_config_wf|apply freeze_config_thaw, freeze_config_wf
              |apply freeze_config_thaw|done|done].
Qed.
