(* ===== verification/Conn.v ===== *)
(** * Conn

    [include/cpptcpduplex/conn.hpp] and [src/conn.cpp]: the connection with its
    reader, writer and deliver threads and any number of application threads
    inside [send_for], [receive_for] and [shutdown].

    The state has the members of the class; every thread has a program point.  A
    step runs one thread up to its next scheduling point: a critical section that
    neither blocks nor takes a second mutex is one step, everything else (waiting
    on a condition variable, holding a mutex while taking another, the atomics and
    notifications outside the mutexes) is split.  [step] is executable; an
    interleaving is a list of actions. *)

From S2P Require Import Prelude Errors Stream Protocol Crypto Session Config.

(** ** Data *)

Record Outbound := MkOutbound { typ : u8; pt : bytes }.

#[export] Instance Outbound_eq_dec : EqDecision Outbound.
Proof. solve_decision. Defined.

Inductive mutex := send_mu | recv_mu | jobs_mu.

#[export] Instance mutex_eq_dec : EqDecision mutex.
Proof. solve_decision. Defined.

(** Members guarded by [send_mu_], [recv_mu_], [jobs_mu_], and the atomics. *)
Record send_side := SendSide { send_q : list Outbound; stop_send : bool }.
Record recv_side := RecvSide { recv_q : list bytes; recv_err : error_code; recv_closed : bool }.
Record jobs_side := JobsSide { msg_jobs : list bytes; deliver_stop : bool; callback_dropped : Z }.
Record flags := Flags {
  shutdown_started : bool; closed : bool; write_done : bool; read_done : bool
}.

(** [std::chrono::milliseconds::max()] waits without a timeout. *)
Inductive timeout := NoTimeout | Millis (ms : Z).

(** Program points of [read_loop]. *)
Inductive rpc :=
  | R_read                                          (* lines 269-285: read and open a record *)
  | R_text (p : bytes)                              (* 309: lock recv_mu_ and test the predicate *)
  | R_text_wait (p : bytes)                         (* 314: waiting on recv_cv_ *)
  | R_text_locked (p : bytes)                       (* 319: recv_mu_ held, about to lock send_mu_ *)
  | R_ping (p : bytes)                              (* 338: lock send_mu_ *)
  | R_ping_wait (p : bytes)                         (* 345: waiting on send_cv_ *)
  | R_abort (e : error_code) (held : list mutex)    (* about to call abort_recv *)
  | R_store (held : list mutex)                     (* read_done_.store(true) *)
  | R_notify (held : list mutex)                    (* done_cv_.notify_all() *)
  | R_exit.

(** Program points of [write_loop]. *)
Inductive wpc :=
  | W_idle                      (* 219: lock send_mu_, test, pop *)
  | W_wait                      (* 220: waiting on send_cv_ *)
  | W_send (o : Outbound)       (* 258: write_out(out) *)
  | W_flush                     (* 235: pop the next queued message *)
  | W_flush_send (o : Outbound) (* 245: write_out(more) *)
  | W_close                     (* 251: write the close message *)
  | W_store                     (* write_done_.store(true) *)
  | W_notify                    (* done_cv_.notify_all() *)
  | W_exit.

(** Program points of [deliver_loop]; [D_none] when no callback is set. *)
Inductive dpc :=
  | D_none
  | D_idle                      (* 379: lock jobs_mu_, test, pop *)
  | D_wait                      (* 380: waiting on jobs_cv_ *)
  | D_call (p : bytes)          (* 398: run the callback *)
  | D_drain                     (* 393: lock jobs_mu_ again in the drain loop *)
  | D_drain_call (p : bytes)    (* 390: run the callback in the drain loop *)
  | D_exit.

(** The flag [wait_flag] waits for, and its place in [shutdown]. *)
Inductive done_flag := WriteDone | ReadDone.

(** Program points of the application's calls. *)
Inductive apc :=
  | A_send (p : bytes) (t : timeout)                   (* 61 *)
  | A_send_lock (o : Outbound) (t : timeout)           (* 75: lock send_mu_, test, push *)
  | A_send_wait (o : Outbound) (t : timeout)           (* 80, 81: waiting on send_cv_ *)
  | A_recv (t : timeout)                               (* 107 *)
  | A_recv_lock (t : timeout)                          (* 112: lock recv_mu_, test, pop *)
  | A_recv_wait (t : timeout)                          (* 115, 116: waiting on recv_cv_ *)
  | A_shutdown (t : timeout)                           (* 148: the compare-exchange *)
  | A_sd_closed (t : timeout)                          (* 154: closed_.store(true) *)
  | A_sd_stop (t : timeout)                            (* 157: stop_send_ = true *)
  | A_sd_notify (t : timeout)                          (* 160: send_cv_.notify_all() *)
  | A_sd_check (f : done_flag) (ec : error_code) (t : timeout)  (* 163: lock done_mu_, test *)
  | A_sd_block (f : done_flag) (ec : error_code) (t : timeout)  (* 165: tested false, not yet waiting *)
  | A_sd_sleep (f : done_flag) (ec : error_code) (t : timeout)  (* 165: waiting on done_cv_ *)
  | A_sd_jobs (ec : error_code) (t : timeout)          (* 177: deliver_stop_ = true *)
  | A_sd_jobs_notify (ec : error_code) (t : timeout)   (* 180: jobs_cv_.notify_all() *)
  | A_sd_sock (ec : error_code) (t : timeout)          (* 182: sock_->close() *)
  | A_ret_send (ec : error_code)
  | A_ret_recv (ec : error_code) (msg : bytes)
  | A_ret_shutdown (ec : error_code).

(** History of the connection: what was queued and written, what arrived, what
    the application got.  No operation reads it. *)
Record history := History {
  h_queued : list Outbound;
  h_written : list Outbound;
  h_arrived : list bytes;
  h_received : list bytes;
  h_called : list bytes
}.

Record conn (Str R : Type) := Conn {
  cfg : FrozenConfig;
  sess : session;
  sends : send_side;
  recvs : recv_side;
  jobs : jobs_side;
  flg : flags;
  strm : Str;              (* the stream over sock_ *)
  rng : seal_rng R;        (* the generator behind Session::seal *)
  sock_valid : bool;       (* sock_ not closed by shutdown *)
  reader : rpc;
  writer : wpc;
  deliver : dpc;
  apps : list apc;
  hist : history
}.
Arguments Conn {Str R}.
Arguments cfg {Str R}. Arguments sess {Str R}. Arguments sends {Str R}. Arguments recvs {Str R}.
Arguments jobs {Str R}. Arguments flg {Str R}. Arguments strm {Str R}. Arguments rng {Str R}.
Arguments sock_valid {Str R}. Arguments reader {Str R}. Arguments writer {Str R}.
Arguments deliver {Str R}. Arguments apps {Str R}. Arguments hist {Str R}.

(** ** Updates *)

Section Updates.
Context {Str R : Type}.
Implicit Types c : conn Str R.

Definition set_sends (f : send_side -> send_side) c : conn Str R :=
  Conn (cfg c) (sess c) (f (sends c)) (recvs c) (jobs c) (flg c) (strm c) (rng c) (sock_valid c)
       (reader c) (writer c) (deliver c) (apps c) (hist c).
Definition set_recvs (f : recv_side -> recv_side) c : conn Str R :=
  Conn (cfg c) (sess c) (sends c) (f (recvs c)) (jobs c) (flg c) (strm c) (rng c) (sock_valid c)
       (reader c) (writer c) (deliver c) (apps c) (hist c).
Definition set_jobs (f : jobs_side -> jobs_side) c : conn Str R :=
  Conn (cfg c) (sess c) (sends c) (recvs c) (f (jobs c)) (flg c) (strm c) (rng c) (sock_valid c)
       (reader c) (writer c) (deliver c) (apps c) (hist c).
Definition set_flags (f : flags -> flags) c : conn Str R :=
  Conn (cfg c) (sess c) (sends c) (recvs c) (jobs c) (f (flg c)) (strm c) (rng c) (sock_valid c)
       (reader c) (writer c) (deliver c) (apps c) (hist c).
Definition set_io (s : Str) (r : seal_rng R) c : conn Str R :=
  Conn (cfg c) (sess c) (sends c) (recvs c) (jobs c) (flg c) s r (sock_valid c)
       (reader c) (writer c) (deliver c) (apps c) (hist c).
Definition close_sock c : conn Str R :=
  Conn (cfg c) (sess c) (sends c) (recvs c) (jobs c) (flg c) (strm c) (rng c) false
       (reader c) (writer c) (deliver c) (apps c) (hist c).
Definition set_threads (r : rpc) (w : wpc) (d : dpc) (a : list apc) c : conn Str R :=
  Conn (cfg c) (sess c) (sends c) (recvs c) (jobs c) (flg c) (strm c) (rng c) (sock_valid c)
       r w d a (hist c).
Definition set_hist (f : history -> history) c : conn Str R :=
  Conn (cfg c) (sess c) (sends c) (recvs c) (jobs c) (flg c) (strm c) (rng c) (sock_valid c)
       (reader c) (writer c) (deliver c) (apps c) (f (hist c)).

Definition go_reader (r : rpc) c := set_threads r (writer c) (deliver c) (apps c) c.
Definition go_writer (w : wpc) c := set_threads (reader c) w (deliver c) (apps c) c.
Definition go_deliver (d : dpc) c := set_threads (reader c) (writer c) d (apps c) c.
Definition go_app (n : nat) (a : apc) c :=
  set_threads (reader c) (writer c) (deliver c) (<[n := a]> (apps c)) c.

(** The mutexes the reader holds at its program point; every other critical
    section is a single step. *)
Definition reader_holds (r : rpc) : list mutex :=
  match r with
  | R_text_locked _ => [recv_mu]
  | R_abort _ held | R_store held | R_notify held => held
  | _ => []
  end.

Definition mutex_free (m : mutex) c : bool :=
  negb (bool_decide (m ∈ reader_holds (reader c))).

(** ** Condition variables: a notification sends the waiters back to the test. *)

Definition wake_reader_send (r : rpc) : rpc :=
  match r with R_ping_wait p => R_ping p | _ => r end.
Definition wake_writer_send (w : wpc) : wpc :=
  match w with W_wait => W_idle | _ => w end.
Definition wake_app_send (a : apc) : apc :=
  match a with A_send_wait o t => A_send_lock o t | _ => a end.
Definition wake_reader_recv (r : rpc) : rpc :=
  match r with R_text_wait p => R_text p | _ => r end.
Definition wake_app_recv (a : apc) : apc :=
  match a with A_recv_wait t => A_recv_lock t | _ => a end.
Definition wake_deliver (d : dpc) : dpc :=
  match d with D_wait => D_idle | _ => d end.
Definition wake_app_done (a : apc) : apc :=
  match a with A_sd_sleep f ec t => A_sd_check f ec t | _ => a end.

Definition notify_send_cv c : conn Str R :=
  set_threads (wake_reader_send (reader c)) (wake_writer_send (writer c)) (deliver c)
              (wake_app_send <$> apps c) c.
Definition notify_recv_cv c : conn Str R :=
  set_threads (wake_reader_recv (reader c)) (writer c) (deliver c) (wake_app_recv <$> apps c) c.
Definition notify_jobs_cv c : conn Str R :=
  set_threads (reader c) (writer c) (wake_deliver (deliver c)) (apps c) c.
Definition notify_done_cv c : conn Str R :=
  set_threads (reader c) (writer c) (deliver c) (wake_app_done <$> apps c) c.

End Updates.

(** ** Operations *)

Section Operations.
Context {Str R : Type} {BS : ByteStream Str} {Rng : Drbg_api R} {G : Gcm}.
Implicit Types c : conn Str R.

Definition on_message_set c : bool := bool_decide (f_on_message (cfg c) <> None).

(** [static_cast<int>(q.size()) < depth]. *)
Definition has_space {A} (q : list A) (depth : Z) : bool := to_int (zlen q) <? depth.

(** The constructor starts the threads. *)
Definition Conn_new (s : Str) (r : seal_rng R) (se : session) (f : FrozenConfig) : conn Str R :=
  Conn f se (SendSide [] false) (RecvSide [] ec_none false) (JobsSide [] false 0)
       (Flags false false false false) s r true
       R_read W_idle (if bool_decide (f_on_message f <> None) then D_idle else D_none) []
       (History [] [] [] [] []).

(** [push_back] on [send_q_] and the notification, under [send_mu_]. *)
Definition push_send (o : Outbound) c : conn Str R :=
  notify_send_cv
    (set_hist (fun h => History (h_queued h ++ [o]) (h_written h) (h_arrived h) (h_received h) (h_called h))
      (set_sends (fun s => SendSide (send_q s ++ [o]) (stop_send s)) c)).

(** [write_out]: seal and write one record. *)
Definition write_out (se : session) (o : Outbound) (s : Str) (r : seal_rng R)
    : Str * seal_rng R * bool :=
  match seal se (pt o) r with
  | (r', inl _) => (s, r', false)
  | (r', inr sealed) =>
      match write_record (typ o) sealed s with
      | (s', inl _) => (s', r', false)
      | (s', inr _) => (s', r', true)
      end
  end.

(** A closed socket refuses every system call with [EBADF]. *)
Definition EBADF : error_code := ErrorCode 9 generic_category.

Definition conn_write (o : Outbound) c : conn Str R * bool :=
  if sock_valid c then
    let '(s, r, done) := write_out (sess c) o (strm c) (rng c) in
    let c1 := set_io s r c in
    (if done then
       set_hist (fun h => History (h_queued h) (h_written h ++ [o]) (h_arrived h) (h_received h) (h_called h)) c1
     else c1, done)
  else (set_io (strm c) (fst (seal (sess c) (pt o) (rng c))) c, false).

(** ** [abort_recv], called with [recv_mu_] free *)
Definition abort_recv (err : error_code) c : conn Str R :=
  if recv_closed (recvs c) then c
  else
    let err' := if ec_bool err then err else make_error_code Errc.closed in
    notify_recv_cv (set_recvs (fun rv => RecvSide (recv_q rv) err' true) c).

(** ** The reader thread *)

(** Lines 269-285: read a record, open it. *)
Definition read_message c : Str * (error_code + (u8 * bytes)) :=
  if sock_valid c then
    match read_record (strm c) with
    | (s, inl e) => (s, inl e)
    | (s, inr (t, sealed)) =>
        match open (sess c) sealed with
        | inl e => (s, inl e)
        | inr p => (s, inr (t, p))
        end
    end
  else (strm c, inl EBADF).

(** Lines 286-370: the switch, up to the first mutex. *)
Definition dispatch_message (t : u8) (p : bytes) c : conn Str R :=
  if bool_decide (t = kMsgText) then
    if to_int (zlen p) >? f_max_message_bytes (cfg c) then
      go_reader (R_abort (make_error_code Errc.message_too_large) []) c
    else go_reader (R_text p)
      (set_hist (fun h => History (h_queued h) (h_written h) (h_arrived h ++ [p]) (h_received h) (h_called h)) c)
  else if bool_decide (t = kMsgPing) then go_reader (R_ping p) c
  else if bool_decide (t = kMsgPong) then go_reader R_read c
  else if bool_decide (t = kMsgClose) then
    go_reader (R_abort (make_error_code Errc.closed) []) c
  else go_reader (R_abort (make_error_code Errc.bad_frame) []) c.

(** Lines 294-307: hand a text to the callback queue, under [jobs_mu_]. *)
Definition queue_job (p : bytes) c : conn Str R :=
  if to_int (zlen (msg_jobs (jobs c))) >=? f_on_message_buffer_depth (cfg c) then
    if f_disconnect_on_slow_callback_consumer (cfg c) then
      go_reader (R_abort (make_error_code Errc.slow_consumer) [jobs_mu]) c
    else
      go_reader R_read
        (set_jobs (fun j => JobsSide (msg_jobs j) (deliver_stop j) (wrap64 (callback_dropped j + 1))) c)
  else
    go_reader R_read
      (notify_jobs_cv
        (set_jobs (fun j => JobsSide (msg_jobs j ++ [p]) (deliver_stop j) (callback_dropped j)) c)).

(** The predicate of line 314, evaluated under [recv_mu_]. *)
Definition text_pred c : bool :=
  recv_closed (recvs c) || stop_send (sends c)
  || has_space (recv_q (recvs c)) (f_receive_queue_depth (cfg c)).

(** Lines 319-330, entered with [recv_mu_] held. *)
Definition text_locked (p : bytes) c : conn Str R :=
  if stop_send (sends c)
     && (to_int (zlen (recv_q (recvs c))) >=? f_receive_queue_depth (cfg c)) then
    go_reader (R_abort (make_error_code Errc.closed) [recv_mu; send_mu]) c
  else if negb (recv_closed (recvs c)) then
    go_reader R_read
      (notify_recv_cv (set_recvs (fun rv => RecvSide (recv_q rv ++ [p]) (recv_err rv) (recv_closed rv)) c))
  else go_reader R_read c.

(** Lines 338-356, under [send_mu_]. *)
Definition ping_locked (p : bytes) c : conn Str R :=
  if stop_send (sends c) then
    go_reader (R_abort (make_error_code Errc.closed) [send_mu]) c
  else if has_space (send_q (sends c)) (f_send_queue_depth (cfg c)) then
    go_reader R_read (push_send (MkOutbound kMsgPong p) c)
  else go_reader (R_ping_wait p) c.

Definition reader_step c : option (conn Str R) :=
  match reader c with
  | R_read =>
      let '(s, res) := read_message c in
      let c1 := set_io s (rng c) c in
      match res with
      | inl e => Some (go_reader (R_abort e []) c1)
      | inr (t, p) => Some (dispatch_message t p c1)
      end
  | R_text p =>
      if on_message_set c then
        if mutex_free jobs_mu c then Some (queue_job p c) else None
      else if mutex_free recv_mu c then
        if text_pred c then Some (go_reader (R_text_locked p) c)
        else Some (go_reader (R_text_wait p) c)
      else None
  | R_text_locked p => if mutex_free send_mu c then Some (text_locked p c) else None
  | R_ping p => if mutex_free send_mu c then Some (ping_locked p c) else None
  | R_abort e held =>
      if mutex_free recv_mu c then Some (go_reader (R_store held) (abort_recv e c)) else None
  | R_store held =>
      Some (go_reader (R_notify held)
        (set_flags (fun f => Flags (shutdown_started f) (closed f) (write_done f) true) c))
  | R_notify held => Some (go_reader R_exit (notify_done_cv c))
  | R_text_wait _ | R_ping_wait _ | R_exit => None
  end.

(** ** The writer thread *)

Definition pop_send c : option (Outbound * conn Str R) :=
  match send_q (sends c) with
  | [] => None
  | o :: q => Some (o, set_sends (fun s => SendSide q (stop_send s)) c)
  end.

Definition writer_step c : option (conn Str R) :=
  match writer c with
  | W_idle =>
      if mutex_free send_mu c then
        match pop_send c with
        | Some (o, c1) => Some (go_writer (W_send o) (notify_send_cv c1))
        | None => if stop_send (sends c) then Some (go_writer W_flush c) else Some (go_writer W_wait c)
        end
      else None
  | W_send o =>
      let '(c1, done) := conn_write o c in
      Some (go_writer (if done then W_idle else W_store) c1)
  | W_flush =>
      if mutex_free send_mu c then
        match pop_send c with
        | Some (o, c1) => Some (go_writer (W_flush_send o) c1)
        | None => Some (go_writer W_close c)
        end
      else None
  | W_flush_send o =>
      let '(c1, done) := conn_write o c in
      Some (go_writer (if done then W_flush else W_store) c1)
  | W_close =>
      let '(c1, _) := conn_write (MkOutbound kMsgClose []) c in
      Some (go_writer W_store c1)
  | W_store =>
      Some (go_writer W_notify
        (set_flags (fun f => Flags (shutdown_started f) (closed f) true (read_done f)) c))
  | W_notify => Some (go_writer W_exit (notify_done_cv c))
  | W_wait | W_exit => None
  end.

(** ** The deliver thread *)

Definition run_callback (p : bytes) c : conn Str R :=
  set_hist (fun h => History (h_queued h) (h_written h) (h_arrived h) (h_received h) (h_called h ++ [p])) c.

Definition pop_job c : option (bytes * conn Str R) :=
  match msg_jobs (jobs c) with
  | [] => None
  | p :: q => Some (p, set_jobs (fun j => JobsSide q (deliver_stop j) (callback_dropped j)) c)
  end.

(** Lines 386-395, entered with [jobs_mu_] held: the next job of the drain loop,
    or the return. *)
Definition drain_jobs c : conn Str R :=
  match pop_job c with
  | Some (p, c1) => go_deliver (D_drain_call p) c1
  | None => go_deliver D_exit c
  end.

Definition deliver_step c : option (conn Str R) :=
  match deliver c with
  | D_idle =>
      if mutex_free jobs_mu c then
        match pop_job c with
        | Some (p, c1) => Some (go_deliver (D_call p) c1)
        | None => if deliver_stop (jobs c) then Some (drain_jobs c) else Some (go_deliver D_wait c)
        end
      else None
  | D_call p =>
      if bool_decide (p = []) then Some (go_deliver D_idle c)
      else Some (go_deliver D_idle (run_callback p c))
  | D_drain => if mutex_free jobs_mu c then Some (drain_jobs c) else None
  | D_drain_call p => Some (go_deliver D_drain (run_callback p c))
  | D_none | D_wait | D_exit => None
  end.

(** ** Application threads *)

(** Lines 75-91, under [send_mu_]; [expired]: the timeout of [wait_for] has passed. *)
Definition send_locked (n : nat) (o : Outbound) (t : timeout) (expired : bool) c : conn Str R :=
  if stop_send (sends c) || has_space (send_q (sends c)) (f_send_queue_depth (cfg c)) then
    if stop_send (sends c) then go_app n (A_ret_send (make_error_code Errc.closed)) c
    else push_send o (go_app n (A_ret_send ec_none) c)
  else if expired then go_app n (A_ret_send (make_error_code Errc.timed_out)) c
  else go_app n (A_send_wait o t) c.

(** Lines 112-126, under [recv_mu_]. *)
Definition recv_locked (n : nat) (t : timeout) (expired : bool) c : conn Str R :=
  match recv_q (recvs c) with
  | m :: q =>
      go_app n (A_ret_recv ec_none m)
        (set_hist (fun h => History (h_queued h) (h_written h) (h_arrived h) (h_received h ++ [m]) (h_called h))
          (set_recvs (fun rv => RecvSide q (recv_err rv) (recv_closed rv)) c))
  | [] =>
      if recv_closed (recvs c) then
        go_app n (A_ret_recv (if ec_bool (recv_err (recvs c)) then recv_err (recvs c)
                              else make_error_code Errc.closed) []) c
      else if expired then go_app n (A_ret_recv (make_error_code Errc.timed_out) []) c
      else go_app n (A_recv_wait t) c
  end.

Definition get_flag (f : done_flag) c : bool :=
  match f with WriteDone => write_done (flg c) | ReadDone => read_done (flg c) end.

(** After [wait_flag(write_done_)] comes the rest of [shutdown]; after
    [wait_flag(read_done_)] it returns, keeping the first error. *)
Definition after_wait (f : done_flag) (ec r : error_code) (t : timeout) : apc :=
  match f with
  | WriteDone => A_sd_jobs r t
  | ReadDone => A_ret_shutdown (if ec_bool ec then ec else r)
  end.

Definition app_step (n : nat) c : option (conn Str R) :=
  match apps c !! n with
  | Some (A_send p t) =>
      if closed (flg c) then Some (go_app n (A_ret_send (make_error_code Errc.closed)) c)
      else if to_int (zlen p) >? f_max_message_bytes (cfg c) then
        Some (go_app n (A_ret_send (make_error_code Errc.message_too_large)) c)
      else Some (go_app n (A_send_lock (MkOutbound kMsgText p) t) c)
  | Some (A_send_lock o t) =>
      if mutex_free send_mu c then Some (send_locked n o t false c) else None
  | Some (A_recv t) =>
      if on_message_set c then
        Some (go_app n (A_ret_recv (make_error_code Errc.receive_disabled) []) c)
      else Some (go_app n (A_recv_lock t) c)
  | Some (A_recv_lock t) =>
      if mutex_free recv_mu c then Some (recv_locked n t false c) else None
  | Some (A_shutdown t) =>
      if shutdown_started (flg c) then
        Some (go_app n (A_ret_shutdown (make_error_code Errc.closed)) c)
      else Some (go_app n (A_sd_closed t)
             (set_flags (fun f => Flags true (closed f) (write_done f) (read_done f)) c))
  | Some (A_sd_closed t) =>
      Some (go_app n (A_sd_stop t)
             (set_flags (fun f => Flags (shutdown_started f) true (write_done f) (read_done f)) c))
  | Some (A_sd_stop t) =>
      if mutex_free send_mu c then
        Some (go_app n (A_sd_notify t) (set_sends (fun s => SendSide (send_q s) true) c))
      else None
  | Some (A_sd_notify t) => Some (notify_send_cv (go_app n (A_sd_check WriteDone ec_none t) c))
  | Some (A_sd_check f ec t) =>
      if get_flag f c then Some (go_app n (after_wait f ec ec_none t) c)
      else Some (go_app n (A_sd_block f ec t) c)
  | Some (A_sd_block f ec t) => Some (go_app n (A_sd_sleep f ec t) c)
  | Some (A_sd_jobs ec t) =>
      if mutex_free jobs_mu c then
        Some (go_app n (A_sd_jobs_notify ec t)
               (set_jobs (fun j => JobsSide (msg_jobs j) true (callback_dropped j)) c))
      else None
  | Some (A_sd_jobs_notify ec t) => Some (notify_jobs_cv (go_app n (A_sd_sock ec t) c))
  | Some (A_sd_sock ec t) => Some (go_app n (A_sd_check ReadDone ec t) (close_sock c))
  | Some (A_send_wait _ _) | Some (A_recv_wait _) | Some (A_sd_sleep _ _ _)
  | Some (A_ret_send _) | Some (A_ret_recv _ _) | Some (A_ret_shutdown _) | None => None
  end.

(** A finite timeout passes while a call waits: [wait_for] reacquires the mutex
    and returns the value of the predicate. *)
Definition timeout_step (n : nat) c : option (conn Str R) :=
  match apps c !! n with
  | Some (A_send_wait o (Millis ms)) =>
      if mutex_free send_mu c then Some (send_locked n o (Millis ms) true c) else None
  | Some (A_recv_wait (Millis ms)) =>
      if mutex_free recv_mu c then Some (recv_locked n (Millis ms) true c) else None
  | Some (A_sd_sleep f ec (Millis ms)) =>
      Some (go_app n (after_wait f ec
        (if get_flag f c then ec_none else make_error_code Errc.timed_out) (Millis ms)) c)
  | _ => None
  end.

(** ** Interleavings *)

Inductive call := CallSend (p : bytes) (t : timeout) | CallReceive (t : timeout) | CallShutdown (t : timeout).

Definition start_call (k : call) : apc :=
  match k with
  | CallSend p t => A_send p t
  | CallReceive t => A_recv t
  | CallShutdown t => A_shutdown t
  end.

(** One scheduling decision. *)
Inductive thread := TReader | TWriter | TDeliver | TApp (n : nat).

Inductive action :=
  | ActReader | ActWriter | ActDeliver
  | ActApp (n : nat) | ActTimeout (n : nat)
  | ActCall (k : call)
  | ActSpurious (t : thread).

(** A spurious wakeup ends one thread's wait on a condition variable; the C++
    standard permits it and never promises it. *)
Definition spurious (t : thread) c : conn Str R :=
  match t with
  | TReader => go_reader (wake_reader_recv (wake_reader_send (reader c))) c
  | TWriter => go_writer (wake_writer_send (writer c)) c
  | TDeliver => go_deliver (wake_deliver (deliver c)) c
  | TApp n =>
      match apps c !! n with
      | Some a => go_app n (wake_app_done (wake_app_recv (wake_app_send a))) c
      | None => c
      end
  end.

Definition step (c : conn Str R) (a : action) : option (conn Str R) :=
  match a with
  | ActReader => reader_step c
  | ActWriter => writer_step c
  | ActDeliver => deliver_step c
  | ActApp n => app_step n c
  | ActTimeout n => timeout_step n c
  | ActCall k => Some (set_threads (reader c) (writer c) (deliver c) (apps c ++ [start_call k]) c)
  | ActSpurious t => Some (spurious t c)
  end.

Fixpoint run (c : conn Str R) (l : list action) : option (conn Str R) :=
  match l with
  | [] => Some c
  | a :: l' => match step c a with Some c' => run c' l' | None => None end
  end.

(** States of a connection over the stream [s]. *)
Definition reachable (s : Str) (r : seal_rng R) (se : session) (f : FrozenConfig) (c : conn Str R) : Prop :=
  exists l, run (Conn_new s r se f) l = Some c.

End Operations.

(** ** A concrete connection, for evaluating statements about runs *)

Module Demo.
Import Toy.

Definition config (send_depth recv_depth : Z) (cb : option callback) : FrozenConfig :=
  MkFrozenConfig 30000 15000 1 100 send_depth recv_depth cb 1 false (handshake default_config).

(** The record a peer sends for a message, under the nonce [n]. *)
Definition peer_record (n : Z) (o : Outbound) : bytes :=
  match seal toy_session (pt o) (SealRng false (ToyDrbg n true)) with
  | (_, inr sealed) => record_bytes (typ o) sealed
  | _ => []
  end.

Definition start (f : FrozenConfig) (input : bytes) : conn mem_stream toy_drbg :=
  Conn_new (MemStream input [] false) (SealRng false (ToyDrbg 7 true)) toy_session f.

(** The state after the actions [l], or the initial state when one is not enabled. *)
Definition after (f : FrozenConfig) (input : bytes) (l : list action) : conn mem_stream toy_drbg :=
  default (start f input) (run (start f input) l).

End Demo.
