(* ===== verification/ConnInv.v ===== *)
(** * ConnInv

    Invariants of every interleaving of a connection: the queue bounds, the order
    and completeness of what the writer puts on the wire, the order of what the
    reader hands to the application. *)

From S2P Require Import Prelude Errors Wire Stream Protocol Crypto Session Config Conn.

(** ** Induction over interleavings *)

Section Runs.
Context {Str R : Type} {BS : ByteStream Str} {Rng : Drbg_api R} {G : Gcm}.
Implicit Types c : conn Str R.

Lemma run_app c l1 l2 :
  run c (l1 ++ l2) = match run c l1 with Some c' => run c' l2 | None => None end.
Proof. revert c. induction l1 as [|a l1 IH]; intros c; cbn; [done|]. destruct (step c a); auto. Qed.

(** One more step. *)
Lemma reachable_step s r se f c a c' : reachable s r se f c -> step c a = Some c' -> reachable s r se f c'.
Proof. intros [l Hl] H. exists (l ++ [a]). rewrite run_app, Hl. cbn. by rewrite H. Qed.

Lemma reachable_run s r se f c l c' : reachable s r se f c -> run c l = Some c' -> reachable s r se f c'.
Proof. intros [l0 Hl] H. exists (l0 ++ l). by rewrite run_app, Hl. Qed.

Lemma run_invariant (P : conn Str R -> Prop) c l c' :
  (forall c a c', P c -> step c a = Some c' -> P c') -> P c -> run c l = Some c' -> P c'.
Proof.
  intros Hstep. revert c. induction l as [|a l IH]; intros c Hc Hr; cbn in Hr; [by simplify_eq|].
  destruct (step c a) as [c1|] eqn:E; [|done]. eauto.
Qed.

Lemma reachable_invariant (P : conn Str R -> Prop) s r se f c :
  P (Conn_new s r se f) -> (forall c a c', P c -> step c a = Some c' -> P c') ->
  reachable s r se f c -> P c.
Proof. intros H0 Hs [l Hl]. by eapply run_invariant. Qed.

End Runs.

(** Case analysis on one step: which thread, at which program point, which branch. *)
Ltac unfold_conn H :=
  unfold step, reader_step, writer_step, deliver_step, app_step, timeout_step, dispatch_message,
    queue_job, text_locked, ping_locked, send_locked, recv_locked, abort_recv, pop_send, drain_jobs, pop_job,
    push_send, run_callback, spurious, go_reader, go_writer, go_deliver, go_app, close_sock,
    notify_send_cv, notify_recv_cv, notify_jobs_cv, notify_done_cv, set_io in H.

Ltac step_cases H :=
  unfold_conn H; simplify_eq/=; repeat (case_match; simplify_eq/=).

(** ** One of the application's calls *)

(** The [n]-th call is at a program point that satisfies [P]. *)
Definition call_point (P : apc -> Prop) (n : nat) (l : list apc) : Prop := exists y, l !! n = Some y /\ P y.

Lemma call_point_fmap P n (f : apc -> apc) l : (forall a, P a -> P (f a)) -> call_point P n l -> call_point P n (f <$> l).
Proof. intros Hf (y & Hy & Hk). exists (f y). by rewrite list_lookup_fmap, Hy; auto. Qed.

Lemma call_point_insert P n m x l : call_point P n l -> (n = m -> P x) -> call_point P n (<[m := x]> l).
Proof.
  intros (y & Hy & Hk) Hx. destruct (decide (n = m)) as [->|Hne].
  - exists x. rewrite list_lookup_insert_eq by (by eapply lookup_lt_Some). auto.
  - exists y. by rewrite list_lookup_insert_ne.
Qed.

Lemma call_point_app P n l t : call_point P n l -> call_point P n (l ++ t).
Proof. intros (y & Hy & Hk). exists y. by rewrite lookup_app_l by (by eapply lookup_lt_Some). Qed.

(** ** What a write changes *)

Section Write.
Context {Str R : Type} {BS : ByteStream Str} {Rng : Drbg_api R} {G : Gcm}.
Implicit Types c : conn Str R.

Definition log_written (o : Outbound) (h : history) : history :=
  History (h_queued h) (h_written h ++ [o]) (h_arrived h) (h_received h) (h_called h).

Lemma conn_write_frame o c c' b :
  conn_write o c = (c', b) ->
  exists s r, c' = (if b then set_hist (log_written o) (set_io s r c) else set_io s r c).
Proof.
  unfold conn_write. destruct (sock_valid c).
  - destruct (write_out _ _ _ _) as [[s r] []]; intros [= <- <-]; by exists s, r.
  - intros [= <- <-]. eauto.
Qed.

End Write.

(** Replace the state after a write by its explicit form. *)
Ltac frame_write :=
  repeat match goal with
  | H : conn_write _ _ = (?c', ?b) |- _ =>
      let s := fresh "s" in let r := fresh "r" in
      apply conn_write_frame in H as (s & r & ->); try destruct b
  end.

(** ** Queue bounds *)

Section Bounds.
Context {Str R : Type} {BS : ByteStream Str} {Rng : Drbg_api R} {G : Gcm}.
Implicit Types c : conn Str R.

(** A well-formed configuration whose depths are C++ [int]s. *)
Definition cfg_ok (f : FrozenConfig) : Prop :=
  config_wf f /\ is_int (f_send_queue_depth f) /\ is_int (f_receive_queue_depth f)
  /\ is_int (f_on_message_buffer_depth f).

Record bounds (f : FrozenConfig) c : Prop := {
  b_cfg : cfg c = f;
  b_send : zlen (send_q (sends c)) <= f_send_queue_depth f;
  b_recv : zlen (recv_q (recvs c)) <= f_receive_queue_depth f;
  b_jobs : zlen (msg_jobs (jobs c)) <= Z.max 0 (f_on_message_buffer_depth f);
  (* the predicate of the reader's wait stays true while it holds recv_mu_ *)
  b_locked : forall p, reader c = R_text_locked p -> text_pred c = true
}.

Lemma zlen_snoc {A} (l : list A) x : zlen (l ++ [x]) = zlen l + 1.
Proof. unfold zlen. rewrite length_app. simpl. lia. Qed.

Lemma to_int_small z : is_int z -> to_int z = z.
Proof. unfold is_int, to_int. intros. rewrite Z.mod_small by lia. lia. Qed.

Lemma zlen_nonneg {A} (l : list A) : 0 <= zlen l.
Proof. unfold zlen. lia. Qed.

(** On a queue within its depth the cast to [int] is harmless. *)
Lemma has_space_spec {A} (q : list A) d :
  is_int d -> zlen q <= d -> has_space q d = (zlen q <? d).
Proof.
  intros Hd Hq. unfold has_space. pose proof (zlen_nonneg q).
  rewrite to_int_small; [done|]. unfold is_int in *. lia.
Qed.

Lemma wake_locked_send r p : wake_reader_send r = R_text_locked p -> r = R_text_locked p.
Proof. by destruct r. Qed.
Lemma wake_locked_recv r p : wake_reader_recv r = R_text_locked p -> r = R_text_locked p.
Proof. by destruct r. Qed.

(** While the reader holds [recv_mu_] no receiver is inside its critical section. *)
Lemma locked_not_free c p : reader c = R_text_locked p -> mutex_free recv_mu c = true -> False.
Proof. unfold mutex_free. intros ->. by rewrite bool_decide_eq_true_2 by set_solver. Qed.

Lemma zlen_tail {A} (l : list A) x q d : l = x :: q -> zlen l <= d -> zlen q <= d.
Proof. intros ->. unfold zlen. cbn [length]. lia. Qed.

Lemma text_locked_space c :
  text_pred c = true -> recv_closed (recvs c) = false ->
  stop_send (sends c) && (to_int (zlen (recv_q (recvs c))) >=? f_receive_queue_depth (cfg c)) = false ->
  has_space (recv_q (recvs c)) (f_receive_queue_depth (cfg c)) = true.
Proof.
  unfold text_pred, has_space. intros Hp Hc Hs. rewrite Hc in Hp. cbn [orb] in Hp.
  destruct (stop_send (sends c)); [|done]. cbn [andb] in Hs. bool_to_prop. lia.
Qed.

Lemma has_space_room {A} (q : list A) d :
  is_int d -> zlen q <= d -> has_space q d = true -> zlen q + 1 <= d.
Proof. intros Hd Hq. rewrite has_space_spec by done. intros. bool_to_prop. lia. Qed.

Lemma bounds_step f c a c' : cfg_ok f -> bounds f c -> step c a = Some c' -> bounds f c'.
Proof.
  intros (Hwf & Hs & Hr & Hj) B H.
  destruct a; step_cases H; frame_write; destruct B as [<- Bs Br Bj Bl].
  all: split; cbn; try done; rewrite ?zlen_snoc; try (by eapply zlen_tail).
  all: try (intros p' Hp; try apply wake_locked_recv in Hp; try apply wake_locked_send in Hp; try done).
  all: try (by eapply Bl). all: try (by exfalso; eapply locked_not_free).
  all: try (unfold text_pred; cbn; by rewrite orb_true_r).
  all: try (eapply has_space_room; [done..|]; first [done | eapply text_locked_space; bool_to_prop; eauto]).
  all: try (match goal with H : _ || _ = true, H2 : stop_send _ = false |- _ => by rewrite H2 in H end).
  pose proof (zlen_nonneg (msg_jobs (jobs c))).
  rewrite to_int_small in * by (unfold is_int in *; lia). bool_to_prop. lia.
Qed.

Lemma bounds_reachable s r se f c : cfg_ok f -> reachable s r se f c -> bounds f c.
Proof.
  intros Hf. apply reachable_invariant; [|by intros; eapply bounds_step].
  destruct Hf as [Hwf _]. pose proof (wf_send_depth _ Hwf). pose proof (wf_receive_depth _ Hwf).
  split; cbn; unfold zlen; cbn; done || lia.
Qed.

(** C25 (queue_bounds).  With a frozen configuration of [int] depths, in every
    interleaving no queue ever exceeds its configured depth, however many threads
    send and receive: the send queue, the receive queue and the callback queue. *)
Theorem queue_bounds (s : Str) (r : seal_rng R) (se : session) (cf : option Config) c :
  is_int (f_send_queue_depth (freeze_config cf)) ->
  is_int (f_receive_queue_depth (freeze_config cf)) ->
  is_int (f_on_message_buffer_depth (freeze_config cf)) ->
  reachable s r se (freeze_config cf) c ->
  cfg c = freeze_config cf
  /\ zlen (send_q (sends c)) <= f_send_queue_depth (freeze_config cf)
  /\ zlen (recv_q (recvs c)) <= f_receive_queue_depth (freeze_config cf)
  /\ zlen (msg_jobs (jobs c)) <= Z.max 0 (f_on_message_buffer_depth (freeze_config cf)).
Proof.
  intros H1 H2 H3 Hr. pose proof (freeze_config_wf cf) as Hw.
  destruct (bounds_reachable _ _ _ _ _ (conj Hw (conj H1 (conj H2 H3))) Hr). auto.
Qed.

End Bounds.

(** ** Witness *)

Import Toy.

Definition fill_send : list action :=
  [ActCall (CallSend [Byte.x61] NoTimeout); ActApp 0; ActApp 0].

Lemma queue_bounds_witness :
  let c := Demo.after (freeze_config None) [] fill_send in
  send_q (sends c) = [MkOutbound kMsgText [Byte.x61]] /\ zlen (send_q (sends c)) <= 256.
Proof.
  split; [vm_compute; reflexivity|].
  apply (queue_bounds (MemStream [] [] false) (SealRng false (ToyDrbg 7 true)) toy_session None
    (Demo.after (freeze_config None) [] fill_send)).
  1-3: unfold is_int; cbn; lia.
  exists fill_send. vm_compute. reflexivity.
Defined.
