(* ===== verification/ConnWriter.v ===== *)
(** * ConnWriter

    What a connection puts on the wire.  In every interleaving the records on the
    wire are, in order, the messages the application threads and the reader
    queued, each sealed under the session key; the close record comes after all of
    them and nothing follows it. *)

From S2P Require Import Prelude Errors Wire Stream Protocol Crypto Session Config Conn ConnInv.

(** The record [rec] carries the message [o] under the session [se]. *)
Definition sealed_as {G : Gcm} (se : session) (o : Outbound) (rec : bytes) : Prop :=
  exists sealed, rec = record_bytes (typ o) sealed /\ record_fits sealed /\ open se sealed = inr (pt o).

Definition close_msg : Outbound := MkOutbound kMsgClose [].

Section Writer.
Context {Str R : Type} {BS : ByteStream Str} {Spec : StreamSpec Str}.
Context {Rng : Drbg_api R} {RngL : DrbgLaws R} {G : Gcm} {GL : GcmLaws}.
Implicit Types c : conn Str R.

(** [part] is what remains on the wire of a failed write of [o]. *)
Definition cut_record (se : session) (o : Outbound) (part : bytes) : Prop :=
  part = [] \/ exists rec, sealed_as se o rec /\ part `prefix_of` rec.

(** The output is the records of [written] after [out0]. *)
Definition wire_exact (se : session) (out0 : bytes) (written : list Outbound) (out : bytes) : Prop :=
  exists recs, Forall2 (sealed_as se) written recs /\ out = out0 ++ concat recs.

(** ... and then part of a record of [o]. *)
Definition wire_cut (se : session) (out0 : bytes) (written : list Outbound) (o : Outbound) (out : bytes) : Prop :=
  exists recs part, Forall2 (sealed_as se) written recs /\ cut_record se o part
    /\ out = out0 ++ concat recs ++ part.

(** Where the writer is, what is queued, what is written, what is on the wire. *)
Definition winv (se : session) (out0 : bytes) (w : wpc) (q : list Outbound) (stop : bool)
    (queued written : list Outbound) (out : bytes) : Prop :=
  match w with
  | W_idle | W_wait => queued = written ++ q /\ wire_exact se out0 written out
  | W_send o => queued = written ++ o :: q /\ wire_exact se out0 written out
  | W_flush => stop = true /\ queued = written ++ q /\ wire_exact se out0 written out
  | W_flush_send o => stop = true /\ queued = written ++ o :: q /\ wire_exact se out0 written out
  | W_close => stop = true /\ q = [] /\ queued = written /\ wire_exact se out0 written out
  | W_store | W_notify | W_exit =>
      (stop = true /\ q = [] /\ written = queued ++ [close_msg] /\ wire_exact se out0 written out)
      \/ (exists o, queued = written ++ o :: q /\ wire_cut se out0 written o out)
      \/ (stop = true /\ q = [] /\ queued = written /\ wire_cut se out0 written close_msg out)
  end.

Definition writer_inv (se : session) (out0 : bytes) c : Prop :=
  sess c = se
  /\ winv se out0 (writer c) (send_q (sends c)) (stop_send (sends c))
       (h_queued (hist c)) (h_written (hist c)) (outgoing (strm c)).

(** ** Lemmas *)

Lemma write_out_wire se o s (r : seal_rng R) s' r' b :
  session_ready se -> write_out se o s r = (s', r', b) ->
  incoming s' = incoming s /\
  if b then exists rec, sealed_as se o rec /\ outgoing s' = outgoing s ++ rec
  else exists part, cut_record se o part /\ outgoing s' = outgoing s ++ part.
Proof.
  intros Hk. unfold write_out.
  destruct (seal se (pt o) r) as [r1 [e|sealed]] eqn:Es.
  { intros [= <- <- <-]. split; [done|]. exists []. split; [by left|]. by rewrite app_nil_r. }
  apply seal_ok in Es as (Hz & Hm & n & ct & tag & -> & Hn & He); [|done].
  assert (Hf : record_fits (n ++ ct ++ tag)).
  { unfold record_fits, kMaxRecordPayload, max_plaintext in *. rewrite Hz.
    change (Z.shiftl 1 20) with 1048576. lia. }
  destruct (gcm_encrypt_length _ _ _ _ _ He) as [_ Ht].
  assert (Hs : sealed_as se o (record_bytes (typ o) (n ++ ct ++ tag))).
  { eexists. split_and!; [done..|]. rewrite open_layout by done.
    by rewrite (gcm_decrypt_encrypt _ _ _ _ _ He). }
  destruct (write_record _ _ s) as [s1 [e|[]]] eqn:Ew; apply write_record_inv in Ew as [Hi Ew];
    intros [= <- <- <-]; (split; [done|]).
  - destruct Ew as (p & Hp & Hout). exists p. split; [right; by eexists|done].
  - destruct Ew as [_ Hout]. by eexists.
Qed.

Lemma conn_write_wire o c c' b :
  session_ready (sess c) -> conn_write o c = (c', b) ->
  incoming (strm c') = incoming (strm c) /\
  if b then exists rec, sealed_as (sess c) o rec /\ outgoing (strm c') = outgoing (strm c) ++ rec
  else exists part, cut_record (sess c) o part /\ outgoing (strm c') = outgoing (strm c) ++ part.
Proof.
  intros Hk. unfold conn_write. destruct (sock_valid c).
  - destruct (write_out _ _ _ _) as [[s r] d] eqn:E. apply write_out_wire in E; [|done].
    destruct d; intros [= <- <-]; exact E.
  - intros [= <- <-]. split; [done|]. exists []. split; [by left|]. by rewrite app_nil_r.
Qed.

Lemma wire_exact_snoc se out0 written o rec out :
  wire_exact se out0 written out -> sealed_as se o rec ->
  wire_exact se out0 (written ++ [o]) (out ++ rec).
Proof.
  intros (recs & Hf & ->) Hs. exists (recs ++ [rec]). split.
  - apply Forall2_app; [done|]. by repeat constructor.
  - rewrite concat_app. cbn. by rewrite app_nil_r, app_assoc.
Qed.

Lemma wire_exact_cut se out0 written o part out :
  wire_exact se out0 written out -> cut_record se o part ->
  wire_cut se out0 written o (out ++ part).
Proof. intros (recs & Hf & ->) Hc. exists recs, part. by rewrite <- app_assoc. Qed.

(** Queueing a message while the connection is not stopped. *)
Lemma winv_push se out0 w q queued written out o :
  winv se out0 w q false queued written out ->
  winv se out0 w (q ++ [o]) false (queued ++ [o]) written out.
Proof.
  destruct w; cbn; intros Hw; destruct_and?; simplify_eq; try done;
    rewrite <- ?app_assoc; try done.
  all: destruct Hw as [(? & _)|[(o' & -> & Hc)|(? & _)]]; [done| |done];
    right; left; exists o'; by rewrite <- app_assoc.
Qed.

(** Stopping and waking change nothing on the wire. *)
Lemma winv_stop se out0 w q stop queued written out :
  winv se out0 w q stop queued written out -> winv se out0 w q true queued written out.
Proof. destruct w; cbn; naive_solver. Qed.

Lemma winv_wake se out0 w q stop queued written out :
  winv se out0 w q stop queued written out ->
  winv se out0 (wake_writer_send w) q stop queued written out.
Proof. by destruct w. Qed.

(** The writer's own steps. *)
Lemma winv_write se out0 w w' q stop queued written out o out' (b : bool) :
  (w = W_send o /\ w' = W_idle) \/ (w = W_flush_send o /\ w' = W_flush) ->
  winv se out0 w q stop queued written out ->
  (if b then exists rec, sealed_as se o rec /\ out' = out ++ rec
   else exists part, cut_record se o part /\ out' = out ++ part) ->
  winv se out0 (if b then w' else W_store) q stop queued (if b then written ++ [o] else written) out'.
Proof.
  intros Hw Hi Ho. destruct b; destruct Ho as (x & Hx & ->).
  - assert (Hq : queued = (written ++ [o]) ++ q /\ wire_exact se out0 (written ++ [o]) (out ++ x)).
    { rewrite <- app_assoc. destruct Hw as [[-> _]|[-> _]]; cbn in Hi; destruct_and?;
        auto using wire_exact_snoc. }
    destruct Hw as [[-> ->]|[-> ->]]; cbn in *; naive_solver.
  - cbn. right; left. exists o.
    destruct Hw as [[-> _]|[-> _]]; cbn in Hi; destruct_and?; auto using wire_exact_cut.
Qed.

Lemma winv_close se out0 q stop queued written out out' (b : bool) :
  winv se out0 W_close q stop queued written out ->
  (if b then exists rec, sealed_as se close_msg rec /\ out' = out ++ rec
   else exists part, cut_record se close_msg part /\ out' = out ++ part) ->
  winv se out0 W_store q stop queued (if b then written ++ [close_msg] else written) out'.
Proof.
  cbn. intros (-> & -> & -> & Hw) Ho. destruct b; destruct Ho as (x & Hx & ->).
  - left. auto using wire_exact_snoc.
  - right; right. auto using wire_exact_cut.
Qed.

Lemma read_message_outgoing c s res :
  read_message c = (s, res) -> outgoing s = outgoing (strm c).
Proof.
  unfold read_message. destruct (sock_valid c); [|by intros [= <- <-]].
  destruct (read_record (strm c)) as [s1 r] eqn:E. apply read_record_outgoing in E.
  repeat case_match; intros; by simplify_eq.
Qed.

Lemma writer_inv_init s (r : seal_rng R) se f : writer_inv se (outgoing s) (Conn_new s r se f).
Proof.
  split; [done|]. cbn. split; [done|]. exists []. split; [constructor|]. cbn. by rewrite app_nil_r.
Qed.

(** A step that writes one record, by the lemma [L] on the invariant. *)
Ltac write_case H Hk L :=
  match type of H with context [conn_write ?o ?c] =>
    let E := fresh in
    destruct (conn_write o c) as [? b] eqn:E; simplify_eq/=;
    pose proof (proj2 (conn_write_wire _ _ _ _ Hk E));
    apply conn_write_frame in E as (? & ? & ->);
    destruct b; (split; [done|]);
    first [eapply (L _ _ _ _ _ _ _ true) | eapply (L _ _ _ _ _ _ true)
          | eapply (L _ _ _ _ _ _ _ false) | eapply (L _ _ _ _ _ _ false)]; eauto
  end.

(** One step of the writer thread. *)
Lemma writer_step_inv se out0 c c' :
  session_ready se -> writer_inv se out0 c -> writer_step c = Some c' -> writer_inv se out0 c'.
Proof.
  intros Hk [<- Hw] H. unfold writer_step in H. destruct (writer c) eqn:Ew; try done; cbn in Hw.
  - destruct (mutex_free _ _); [|done]. unfold pop_send in H.
    destruct (send_q (sends c)) eqn:Eq; [destruct (stop_send (sends c)) eqn:Es|];
      simplify_eq/=; (split; [done|]); cbn; rewrite ?Eq, ?Es; naive_solver.
  - write_case H Hk (winv_write (sess c) out0 (W_send o) W_idle).
  - destruct (mutex_free _ _); [|done]. unfold pop_send in H.
    destruct (send_q (sends c)) eqn:Eq; simplify_eq/=; (split; [done|]); cbn; rewrite ?Eq;
      destruct_and?; rewrite ?app_nil_r in *; auto.
  - write_case H Hk (winv_write (sess c) out0 (W_flush_send o) W_flush).
  - write_case H Hk (winv_close (sess c) out0).
  - by simplify_eq/=.
  - by simplify_eq/=.
Qed.

Lemma writer_inv_step se out0 c a c' :
  session_ready se -> writer_inv se out0 c -> step c a = Some c' -> writer_inv se out0 c'.
Proof.
  intros Hk Hi H. destruct a; [|by eapply writer_step_inv|..].
  all: step_cases H; destruct Hi as [<- Hw]; (split; [done|]); cbn; try done.
  all: repeat match goal with E : read_message _ = _ |- _ => apply read_message_outgoing in E as -> end.
  all: try done; try (by apply winv_wake); try (by eapply winv_stop).
  all: match goal with H : stop_send (sends _) = false |- _ => rewrite H in * end.
  all: apply winv_push; by apply winv_wake.
Qed.

Lemma writer_inv_reachable s (r : seal_rng R) se f c :
  session_ready se -> reachable s r se f c -> writer_inv se (outgoing s) c.
Proof.
  intros Hk. apply reachable_invariant; [apply writer_inv_init|]. by intros; eapply writer_inv_step.
Qed.

(** C5 (wire_order).  In every interleaving of the reader, the writer and any
    number of callers, the wire holds exactly one sealed record per written
    message, in the order the messages were queued, after which at most the
    beginning of one further record follows, and only once the writer has given up.
    Only the close record is written without having been queued: it comes last,
    after [shutdown] and after everything that was queued. *)
Theorem wire_order (s : Str) (r : seal_rng R) (se : session) (f : FrozenConfig) c :
  session_ready se -> reachable s r se f c ->
  exists recs part,
    outgoing (strm c) = outgoing s ++ concat recs ++ part
    /\ Forall2 (sealed_as se) (h_written (hist c)) recs
    /\ (h_written (hist c) `prefix_of` h_queued (hist c)
        \/ h_written (hist c) = h_queued (hist c) ++ [close_msg]
           /\ stop_send (sends c) = true /\ send_q (sends c) = [] /\ part = [])
    /\ (part = [] \/ writer c ∈ [W_store; W_notify; W_exit]).
Proof.
  intros Hk Hr. destruct (writer_inv_reachable _ _ _ _ _ Hk Hr) as [_ Hw].
  destruct (writer c); cbn in Hw; destruct_and?.
  1-6: match goal with X : wire_exact _ _ _ _ |- _ => destruct X as (recs & Hf & Ho) end;
    exists recs, []; rewrite app_nil_r; split_and!; [done|done| |by left].
  1-6: left; match goal with X : h_queued _ = _ |- _ => rewrite X end; first [done | by eexists].
  all: destruct Hw as [(Hs & Hq & Hwr & recs & Hf & Ho)
    |[(o & Hq & recs & part & Hf & Hc & Ho)|(Hs & Hq & Hwr & recs & part & Hf & Hc & Ho)]].
  all: first [exists recs, []; rewrite app_nil_r; split_and!; [done|done|by right; rewrite Hwr in *|by left]
    | exists recs, part; split_and!; [done|done|left|right; set_solver]].
  all: first [by rewrite Hq; eexists | by rewrite Hwr].
Qed.

End Writer.

(** ** Witness *)

Import Toy.

Definition two_sends : list action :=
  [ActCall (CallSend [Byte.x61] NoTimeout); ActCall (CallSend [Byte.x62] NoTimeout);
   ActCall (CallShutdown NoTimeout);
   ActApp 0; ActApp 1; ActApp 1; ActApp 0; ActWriter; ActApp 2; ActApp 2; ActApp 2; ActWriter;
   ActWriter; ActWriter; ActWriter; ActWriter; ActWriter].

Lemma wire_order_witness :
  let c := Demo.after (Demo.config 4 4 None) [] two_sends in
  h_written (hist c) = [MkOutbound kMsgText [Byte.x62]; MkOutbound kMsgText [Byte.x61]; close_msg]
  /\ exists recs part,
    outgoing (strm c) = outgoing (MemStream [] [] false) ++ concat recs ++ part
    /\ Forall2 (sealed_as toy_session) (h_written (hist c)) recs
    /\ (h_written (hist c) `prefix_of` h_queued (hist c)
        \/ h_written (hist c) = h_queued (hist c) ++ [close_msg]
           /\ stop_send (sends c) = true /\ send_q (sends c) = [] /\ part = [])
    /\ (part = [] \/ writer c ∈ [W_store; W_notify; W_exit]).
Proof.
  split; [vm_compute; reflexivity|].
  apply (wire_order (MemStream [] [] false) (SealRng false (ToyDrbg 7 true)) toy_session (Demo.config 4 4 None)
    (Demo.after (Demo.config 4 4 None) [] two_sends)).
  - vm_compute. reflexivity.
  - exists two_sends. vm_compute. reflexivity.
Defined.
