(* ===== verification/ConnReader.v ===== *)
(** * ConnReader

    What a connection hands to its application.  In every interleaving the texts
    that arrived are those of the records read, in order; [receive] returns them
    in order without loss or duplication, the callback gets them in order, and a
    peer's queued texts are what the other side receives. *)

From S2P Require Import Prelude Errors Wire Stream Protocol Crypto Session Config Conn ConnInv ConnWriter.

(** The payloads of the text messages of [l]. *)
Definition texts (l : list Outbound) : list bytes :=
  pt <$> filter (fun o => typ o = kMsgText) l.

(** Texts with a non-empty payload: those the deliver thread passes to the callback. *)
Definition non_empty (l : list bytes) : list bytes := filter (fun p => p <> []) l.

(** The text the reader has taken from the wire and not yet queued. *)
Definition in_hand (r : rpc) : list bytes :=
  match r with R_text p | R_text_wait p | R_text_locked p => [p] | _ => [] end.

(** The reader has left its loop. *)
Definition reader_stopped (r : rpc) : bool :=
  match r with R_abort _ _ | R_store _ | R_notify _ | R_exit => true | _ => false end.

(** The job the deliver thread has popped and not yet processed. *)
Definition job_in_hand (d : dpc) : list bytes :=
  match d with D_call p | D_drain_call p => [p] | _ => [] end.

Section Reader.
Context {Str R : Type} {BS : ByteStream Str} {Spec : StreamSpec Str}.
Context {Rng : Drbg_api R} {G : Gcm}.
Implicit Types c : conn Str R.

(** ** What was read *)

(** [msgs] are the messages processed, [rest] what followed their records. *)
Definition read_inv (se : session) (in0 : bytes) c : Prop :=
  sess c = se /\
  exists msgs recs rest,
    Forall2 (sealed_as se) msgs recs /\ in0 = concat recs ++ rest
    /\ h_arrived (hist c) = texts msgs
    /\ (reader_stopped (reader c) = false -> incoming (strm c) = rest).

Lemma texts_app l1 l2 : texts (l1 ++ l2) = texts l1 ++ texts l2.
Proof. unfold texts. by rewrite filter_app, fmap_app. Qed.

Lemma texts_one t p : texts [MkOutbound t p] = if decide (t = kMsgText) then [p] else [].
Proof. unfold texts. rewrite filter_cons. cbn. by case_decide. Qed.

Lemma read_message_ok c s t p :
  read_message c = (s, inr (t, p)) ->
  exists rec, sealed_as (sess c) (MkOutbound t p) rec /\ incoming (strm c) = rec ++ incoming s.
Proof.
  unfold read_message. destruct (sock_valid c); [|done].
  destruct (read_record (strm c)) as [s1 [e|[t1 sealed]]] eqn:E; [done|].
  apply read_record_inv in E as (Hf & Hin & _).
  destruct (open (sess c) sealed) as [e|p1] eqn:Eo; intros [= <- <- <-].
  exists (record_bytes t1 sealed). split; [by eexists|done].
Qed.

(** Processing one more message. *)
Lemma read_inv_snoc se in0 msgs recs rec o rest arrived :
  Forall2 (sealed_as se) msgs recs -> in0 = concat recs ++ rec ++ rest -> sealed_as se o rec ->
  arrived = texts msgs ->
  exists msgs' recs' rest',
    Forall2 (sealed_as se) msgs' recs' /\ in0 = concat recs' ++ rest'
    /\ arrived ++ texts [o] = texts msgs' /\ rest = rest'.
Proof.
  intros Hf -> Hs ->. exists (msgs ++ [o]), (recs ++ [rec]), rest. split_and!; try done.
  - apply Forall2_app; [done|by repeat constructor].
  - rewrite concat_app. cbn. by rewrite app_nil_r, app_assoc.
  - by rewrite texts_app.
Qed.

Lemma conn_write_incoming o c c' b :
  conn_write o c = (c', b) -> incoming (strm c') = incoming (strm c).
Proof.
  unfold conn_write, write_out. destruct (sock_valid c); [|by intros [= <- <-]].
  destruct (seal _ _ _) as [r1 [e|sealed]]; [by intros [= <- <-]|].
  destruct (write_record _ _ _) as [s1 [e|[]]] eqn:E; apply write_record_inv in E as [Hi _];
    by intros [= <- <-].
Qed.

(** The steps that do not read: they keep what arrived, the session and the
    input, and do not restart a stopped reader. *)
Lemma other_step_frame c a c' :
  step c a = Some c' -> (a = ActReader -> reader c <> R_read) ->
  sess c' = sess c /\ incoming (strm c') = incoming (strm c)
  /\ h_arrived (hist c') = h_arrived (hist c)
  /\ (reader_stopped (reader c) = true -> reader_stopped (reader c') = true).
Proof.
  intros H Ha. destruct a; step_cases H; try (by exfalso; apply Ha); clear Ha; try done.
  all: repeat match goal with E : conn_write _ _ = (_, _) |- _ =>
      let E' := fresh in pose proof (conn_write_incoming _ _ _ _ E) as E';
      apply conn_write_frame in E as (? & ? & ->) end.
  all: repeat case_match; simplify_eq/=; try done.
  all: split_and!; try done; by destruct (reader c).
Qed.

Lemma read_inv_init s (r : seal_rng R) se f : read_inv se (incoming s) (Conn_new s r se f).
Proof. split; [done|]. exists [], [], (incoming s). by repeat constructor. Qed.

Lemma dispatch_message_inv se in0 t p rec rest c s r msgs recs :
  Forall2 (sealed_as se) msgs recs -> in0 = concat recs ++ rec ++ rest ->
  sealed_as se (MkOutbound t p) rec -> h_arrived (hist c) = texts msgs -> sess c = se ->
  incoming s = rest -> read_inv se in0 (dispatch_message t p (set_io s r c)).
Proof.
  intros Hf Hin Hs Ha Hse Hr.
  pose proof (read_inv_snoc _ _ _ _ _ _ _ _ Hf Hin Hs Ha) as (ms & rs & rest' & Hf' & Hin' & Ha' & Hr').
  rewrite texts_one in Ha'. unfold dispatch_message.
  repeat (case_bool_decide; simplify_eq/=); rewrite ?app_nil_r in Ha'.
  1: destruct (_ >? _).
  all: split; [done|]; cbn; first [by exists ms, rs, (incoming s) | by exists msgs, recs, (rec ++ incoming s)].
Qed.

Lemma read_inv_step se in0 c a c' : read_inv se in0 c -> step c a = Some c' -> read_inv se in0 c'.
Proof.
  intros (Hse & ms & rs & rest & Hf & Hin & Ha & Hr) H.
  assert (Hd : a = ActReader /\ reader c = R_read \/ (a = ActReader -> reader c <> R_read))
    by (destruct a; try (by right); destruct (reader c); auto).
  destruct Hd as [[-> Er]|Hn].
  - cbn in H. unfold reader_step in H. rewrite Er in *. specialize (Hr eq_refl).
    destruct (read_message c) as [s [e|[t p]]] eqn:E; simplify_eq.
    + split; [done|]. exists ms, rs, (incoming (strm c)). by split_and!.
    + apply read_message_ok in E as (rec & Hs & Hi). rewrite Hi in *. by eapply dispatch_message_inv.
  - apply other_step_frame in H as (H1 & H2 & H3 & H4); [|done].
    split; [congruence|]. exists ms, rs, rest. split_and!; try congruence.
    intros Hs. rewrite H2. apply Hr. destruct (reader_stopped (reader c)); [by rewrite H4 in Hs|done].
Qed.

Lemma read_inv_reachable s (r : seal_rng R) se f c :
  reachable s r se f c -> read_inv se (incoming s) c.
Proof. apply reachable_invariant; [apply read_inv_init|]. by intros; eapply read_inv_step. Qed.

(** ** What [receive] returns *)

(** Without a callback, every text that arrived was returned, or is queued, or is
    in the reader's hand; only a text in hand when [shutdown] finds the queue full
    is given up. *)
Definition recv_inv c : Prop :=
  f_on_message (cfg c) = None /\
  if reader_stopped (reader c) then
    exists lost, h_arrived (hist c) = h_received (hist c) ++ recv_q (recvs c) ++ lost
      /\ (lost = [] \/ exists p, lost = [p] /\ stop_send (sends c) = true)
  else h_arrived (hist c) = h_received (hist c) ++ recv_q (recvs c) ++ in_hand (reader c)
    /\ recv_closed (recvs c) = false.

Lemma wake_send_stopped r : reader_stopped (wake_reader_send r) = reader_stopped r.
Proof. by destruct r. Qed.
Lemma wake_recv_stopped r : reader_stopped (wake_reader_recv r) = reader_stopped r.
Proof. by destruct r. Qed.
Lemma wake_send_in_hand r : in_hand (wake_reader_send r) = in_hand r.
Proof. by destruct r. Qed.
Lemma wake_recv_in_hand r : in_hand (wake_reader_recv r) = in_hand r.
Proof. by destruct r. Qed.

Lemma no_callback c : f_on_message (cfg c) = None -> on_message_set c = false.
Proof. unfold on_message_set. intros ->. apply bool_decide_eq_false_2. by intros []. Qed.

(** The reader's own steps. *)
Lemma recv_inv_reader c c' : recv_inv c -> reader_step c = Some c' -> recv_inv c'.
Proof.
  intros [If I] H. unfold reader_step in H. destruct (reader c) eqn:Er; cbn in I; try done.
  all: try rewrite (no_callback _ If) in H.
  all: step_cases H; (split; [done|]); cbn; try done.
  all: try (destruct I as [I1 I2]; rewrite ?app_nil_r in I1).
  all: try (split; [|congruence]).
  all: rewrite ?app_nil_r, <- ?app_assoc.
  all: try (by rewrite I1, <- ?app_assoc). all: try congruence.
  all: try (exists []; rewrite app_nil_r; by auto).
  all: bool_to_prop; try congruence; try (exists [p]; split; [done|right; by eauto]).
Qed.

Lemma recv_inv_step c a c' : recv_inv c -> step c a = Some c' -> recv_inv c'.
Proof.
  intros I H. destruct a; [by eapply recv_inv_reader|..].
  all: step_cases H; frame_write; destruct I as [If I]; (split; [done|]); cbn; try done.
  all: rewrite ?wake_recv_stopped, ?wake_send_stopped, ?wake_recv_in_hand, ?wake_send_in_hand; try done.
  all: destruct (reader_stopped (reader c)); try naive_solver.
  all: match goal with E : recv_q _ = _ :: _ |- _ => rewrite E in I end; rewrite <- ?app_assoc; try done.
  all: destruct I as (lost & I & ?); exists lost; by rewrite <- app_assoc.
Qed.

Lemma recv_inv_reachable s (r : seal_rng R) se f c :
  f_on_message f = None -> reachable s r se f c -> recv_inv c.
Proof. intros Hf. apply reachable_invariant; [done|apply recv_inv_step]. Qed.

(** ** What the callback gets *)

(** The program points the deliver thread and the reader reach with a callback. *)
Definition callback_points (d : dpc) (r : rpc) : bool :=
  match d with D_none | D_drain | D_drain_call _ => false | _ => true end
  && match r with R_text_wait _ | R_text_locked _ => false | _ => true end.

(** With a callback, [gone] are the jobs processed; the texts kept (processed, in
    the deliver thread's hand, queued, in the reader's hand) are a subsequence of
    those that arrived, and [dropped] counts the others, bar the one a
    disconnected slow consumer loses. *)
Definition jinv (d : dpc) (q : list bytes) (r : rpc) (arrived called : list bytes) (count : Z) : Prop :=
  callback_points d r = true /\
  exists gone (dropped lost : nat),
    gone ++ job_in_hand d ++ q ++ in_hand r `sublist_of` arrived
    /\ (length (gone ++ job_in_hand d ++ q ++ in_hand r) + dropped + lost = length arrived)%nat
    /\ called = non_empty gone
    /\ count = wrap64 (Z.of_nat dropped)
    /\ (lost <= 1)%nat /\ (reader_stopped r = false -> lost = 0%nat).

Definition jobs_inv c : Prop :=
  on_message_set c = true /\
  jinv (deliver c) (msg_jobs (jobs c)) (reader c) (h_arrived (hist c)) (h_called (hist c))
       (callback_dropped (jobs c)).

(** A thread moves without touching what it holds. *)
Lemma jinv_move d d' q r r' ar ca n :
  job_in_hand d' = job_in_hand d -> in_hand r' = in_hand r ->
  (reader_stopped r' = false -> reader_stopped r = false) -> callback_points d' r' = true ->
  jinv d q r ar ca n -> jinv d' q r' ar ca n.
Proof.
  intros Hd Hr Hs Hp (_ & g & k & l & H). split; [done|]. exists g, k, l.
  rewrite Hd, Hr. naive_solver.
Qed.

Lemma jinv_text d q p ar ca n : jinv d q R_read ar ca n -> jinv d q (R_text p) (ar ++ [p]) ca n.
Proof.
  intros (Hp & g & k & l & Hs & Hl & Hc & Hn & H1 & H0). split; [done|]. exists g, k, l. cbn in *.
  rewrite !app_nil_r in *. rewrite !app_assoc in *. split_and!; try done.
  - by apply sublist_app.
  - rewrite !length_app in *. cbn. lia.
Qed.

Lemma jinv_queue d q p ar ca n : jinv d q (R_text p) ar ca n -> jinv d (q ++ [p]) R_read ar ca n.
Proof.
  intros (Hp & g & k & l & H). split; [done|]. exists g, k, l. cbn in *.
  by rewrite !app_nil_r in *.
Qed.

Lemma wrap64_succ n : wrap64 (wrap64 (Z.of_nat n) + 1) = wrap64 (Z.of_nat (n + 1)).
Proof. unfold wrap64. rewrite Zplus_mod_idemp_l. f_equal. lia. Qed.

Lemma sublist_snoc_drop {A} (l : list A) x k : l ++ [x] `sublist_of` k -> l `sublist_of` k.
Proof. intros H. etransitivity; [|exact H]. by apply sublist_inserts_r. Qed.

Lemma jinv_drop d q p ar ca n :
  jinv d q (R_text p) ar ca n -> jinv d q R_read ar ca (wrap64 (n + 1)).
Proof.
  intros (Hp & g & k & l & Hs & Hl & -> & -> & H1 & H0). split; [done|]. exists g, (k + 1)%nat, l.
  cbn in *. rewrite wrap64_succ. rewrite !app_nil_r, !app_assoc in *. split_and!; try done.
  - by eapply sublist_snoc_drop.
  - rewrite !length_app in *. cbn in Hl. lia.
Qed.

Lemma jinv_slow d q p e held ar ca n :
  jinv d q (R_text p) ar ca n -> jinv d q (R_abort e held) ar ca n.
Proof.
  intros (Hp & g & k & l & Hs & Hl & -> & -> & H1 & H0). split; [done|]. exists g, k, 1%nat.
  cbn in *. specialize (H0 eq_refl). rewrite !app_nil_r, !app_assoc in *. split_and!; try done.
  - by eapply sublist_snoc_drop.
  - rewrite !length_app in *. cbn in Hl. lia.
Qed.

Lemma jinv_pop d q p r ar ca n :
  job_in_hand d = [] -> jinv d (p :: q) r ar ca n -> jinv (D_call p) q r ar ca n.
Proof.
  intros Hd (Hp & g & k & l & H). rewrite Hd in H. split.
  - unfold callback_points in *. by bool_to_prop.
  - by exists g, k, l.
Qed.

Lemma jinv_call q p r ar ca n :
  jinv (D_call p) q r ar ca n ->
  jinv D_idle q r ar (if bool_decide (p = []) then ca else ca ++ [p]) n.
Proof.
  intros (Hp & g & k & l & Hs & Hl & -> & H). split; [done|]. exists (g ++ [p]), k, l. cbn in *.
  rewrite <- app_assoc. cbn. split_and!; try done; [|naive_solver..].
  unfold non_empty. rewrite filter_app, filter_cons, filter_nil.
  case_bool_decide; case_decide; by rewrite ?app_nil_r.
Qed.

Lemma jinv_points d q r ar ca n :
  jinv d q r ar ca n -> callback_points d R_read = true /\ callback_points D_idle r = true.
Proof. intros [Hp _]. split; by destruct d, r. Qed.

Lemma jobs_inv_reader c c' : jobs_inv c -> reader_step c = Some c' -> jobs_inv c'.
Proof.
  intros [If I] H. destruct (jinv_points _ _ _ _ _ _ I) as [Pd _].
  unfold reader_step in H. rewrite If in H.
  destruct (reader c) eqn:Er; try done; step_cases H; (split; [exact If|]); cbn.
  all: rewrite ?Er; try done.
  all: try (by apply jinv_text). all: try (by eapply jinv_drop). all: try (by eapply jinv_slow).
  all: try (apply jinv_queue in I; eapply jinv_move; [..|exact I]; by destruct (deliver c)).
  all: try (eapply jinv_move; [..|exact I]; done).
  all: exfalso; destruct I as [P _]; by destruct (deliver c).
Qed.

Lemma jobs_inv_deliver c c' : jobs_inv c -> deliver_step c = Some c' -> jobs_inv c'.
Proof.
  intros [If I] H. destruct (jinv_points _ _ _ _ _ _ I) as [_ Pr].
  unfold deliver_step in H. destruct (deliver c) eqn:Ed; try done; step_cases H.
  all: split; [done|]; cbn; try (by destruct I as [? _]).
  all: try (apply jinv_call in I; by case_bool_decide).
  - by eapply jinv_pop; [|exact I].
  - rewrite H. by eapply jinv_move; [..|exact I].
  - rewrite H. by eapply jinv_move; [..|exact I].
Qed.

Lemma jobs_inv_step c a c' : jobs_inv c -> step c a = Some c' -> jobs_inv c'.
Proof.
  intros I H. destruct a; [by eapply jobs_inv_reader| |by eapply jobs_inv_deliver|..].
  all: step_cases H; frame_write; destruct I as [If I]; (split; [done|]); cbn; try done.
  all: destruct (jinv_points _ _ _ _ _ _ I) as [Pd Pr].
  all: eapply jinv_move; [..|exact I]; destruct (reader c), (deliver c); done.
Qed.

Lemma jobs_inv_reachable s (r : seal_rng R) se f c :
  f_on_message f <> None -> reachable s r se f c -> jobs_inv c.
Proof.
  intros Hf. apply reachable_invariant; [|apply jobs_inv_step].
  assert (Hb : bool_decide (f_on_message f <> None) = true) by by apply bool_decide_eq_true_2.
  split; [done|]. cbn. rewrite Hb. split; [done|].
  exists [], 0%nat, 0%nat. split_and!; try done; repeat constructor.
Qed.

(** [c0] is the last state of the run to [c] in which the reader was in its loop:
    [c] itself, or the state the reader's step left the loop from. *)
Definition last_reading (s : Str) (r : seal_rng R) (se : session) (f : FrozenConfig) c0 c : Prop :=
  reachable s r se f c0 /\ reader_stopped (reader c0) = false
  /\ (c0 = c \/ exists c1 l, step c0 ActReader = Some c1 /\ run c1 l = Some c /\ reader_stopped (reader c) = true).

(** A step of the reader that leaves the loop with a text in hand: sending was
    stopped and the receive queue full. *)
Definition gives_up c0 : Prop :=
  in_hand (reader c0) <> [] ->
  stop_send (sends c0) = true /\ has_space (recv_q (recvs c0)) (f_receive_queue_depth (cfg c0)) = false.

(** Where the texts are in the receive direction. *)
Definition taken c : list bytes := h_received (hist c) ++ recv_q (recvs c).

Lemma reader_leaves c c' :
  f_on_message (cfg c) = None -> reader_stopped (reader c) = false -> reader_step c = Some c' ->
  reader_stopped (reader c') = true -> taken c' = taken c /\ gives_up c.
Proof.
  intros Hf Hs H Hs'. unfold reader_step in H. rewrite (no_callback _ Hf) in H. unfold gives_up, taken, has_space.
  destruct (reader c) eqn:Er; try done; step_cases H; split_and!; try done.
  intros _. bool_to_prop. split; [done|]. apply Z.ltb_ge. lia.
Qed.

Lemma stopped_stays c a c' :
  reader_stopped (reader c) = true -> step c a = Some c' ->
  reader_stopped (reader c') = true /\ taken c' = taken c.
Proof.
  intros Hs H. unfold taken. destruct a; step_cases H; frame_write; cbn; rewrite ?wake_recv_stopped, ?wake_send_stopped.
  all: try done. all: split_and!; try done; first [by rewrite <- app_assoc|congruence].
Qed.

Lemma others_leave c a c' :
  step c a = Some c' -> a <> ActReader -> reader_stopped (reader c') = reader_stopped (reader c).
Proof.
  intros H Ha. destruct a; step_cases H; frame_write; cbn; rewrite ?wake_recv_stopped, ?wake_send_stopped; try done.
  all: by destruct (reader c).
Qed.

(** Since the reader left its loop nothing was lost. *)
Definition last_inv (s : Str) (r : seal_rng R) (se : session) (f : FrozenConfig) c : Prop :=
  reachable s r se f c /\ exists c0, last_reading s r se f c0 c /\ taken c = taken c0
    /\ (reader_stopped (reader c) = true -> gives_up c0).

Lemma last_inv_reachable s (r : seal_rng R) se f c :
  f_on_message f = None -> reachable s r se f c -> last_inv s r se f c.
Proof.
  intros Hf. apply reachable_invariant.
  { assert (Hn : reachable s r se f (Conn_new s r se f)) by by exists []. split; [done|].
    exists (Conn_new s r se f). by split_and!; [split_and!; [..|left]|..]. }
  intros c1 a c' (Hr & c0 & (R0 & S0 & L) & T & Hg) H. pose proof (reachable_step _ _ _ _ _ _ _ Hr H) as Hr'.
  split; [done|]. destruct (reader_stopped (reader c1)) eqn:Es.
  - destruct (stopped_stays _ _ _ Es H) as (Es' & T'). destruct L as [->|(x & l & L1 & L2 & L3)]; [congruence|].
    exists c0. split_and!; [|congruence..|auto]. split_and!; [done..|]. right. exists x, (l ++ [a]).
    split_and!; try done. rewrite run_app, L2. cbn. by rewrite H.
  - destruct (reader_stopped (reader c')) eqn:Es'; [|by exists c'; split_and!; [split_and!; [..|left]|..]].
    assert (Ha : a = ActReader \/ a <> ActReader) by (destruct a; auto).
    destruct Ha as [->|Ha]; [|rewrite (others_leave _ _ _ H Ha) in Es'; congruence].
    destruct (recv_inv_reachable _ _ _ _ _ Hf Hr) as [Hc _].
    destruct (reader_leaves _ _ Hc Es H Es') as (T' & G'). exists c1. split_and!; try done.
    split_and!; [done..|]. right. by exists c', [].
Qed.



End Reader.

(** ** Two connections *)

Section Wire.
Context {Str R : Type} {BS : ByteStream Str} {Spec : StreamSpec Str}.
Context {Rng : Drbg_api R} {RngL : DrbgLaws R} {G : Gcm} {GL : GcmLaws}.

(** Equal records carry equal messages. *)
Lemma sealed_as_inj se o1 o2 rec1 rec2 r1 r2 :
  sealed_as se o1 rec1 -> sealed_as se o2 rec2 -> rec1 ++ r1 = rec2 ++ r2 ->
  o1 = o2 /\ rec1 = rec2 /\ r1 = r2.
Proof.
  intros (b1 & -> & F1 & O1) (b2 & -> & F2 & O2) E.
  apply record_bytes_inj in E as (Et & -> & ->); [|done..].
  rewrite O1 in O2. destruct o1, o2; cbn in *; by simplify_eq.
Qed.

Lemma sealed_as_non_empty se o rec : sealed_as se o rec -> rec <> [].
Proof.
  intros (b & -> & _) E. apply (f_equal length) in E. unfold record_bytes in E.
  rewrite length_app in E. cbn [length] in E. lia.
Qed.

(** A sequence of complete records inside the records of [sent] and part of one
    more is a prefix of them. *)
Lemma records_prefix se got rs1 sent rs2 o part rest1 rest2 :
  Forall2 (sealed_as se) got rs1 -> Forall2 (sealed_as se) sent rs2 -> cut_record se o part ->
  concat rs2 ++ part = concat rs1 ++ rest1 ++ rest2 ->
  got `prefix_of` sent ++ [o].
Proof.
  intros H1. revert sent rs2. induction H1 as [|m rec got rs1 Hm Hms IH]; intros sent rs2 H2 Hc E.
  { apply prefix_nil. }
  destruct H2 as [|m' rec' sent rs2 Hm' H2]; cbn in E; rewrite <- !app_assoc in E.
  - destruct Hc as [->|(rec' & Hr & k & ->)].
    { symmetry in E. apply app_eq_nil in E as [E _]. by apply sealed_as_non_empty in Hm. }
    rewrite E in Hr. rewrite <- !app_assoc in Hr.
    destruct (sealed_as_inj _ _ _ _ _ _ [] Hm Hr (eq_sym (app_nil_r _))) as (-> & _ & Ek).
    apply app_eq_nil in Ek as [Ek _].
    destruct Hms as [|?? got' ? Hx]; [done|]. apply sealed_as_non_empty in Hx.
    cbn in Ek. by apply app_eq_nil in Ek as [? _].
  - destruct (sealed_as_inj _ _ _ _ _ _ _ Hm' Hm E) as (-> & -> & E').
    apply prefix_cons. by eapply IH.
Qed.

Lemma texts_prefix l1 l2 : l1 `prefix_of` l2 -> texts l1 `prefix_of` texts l2.
Proof. intros [k ->]. rewrite texts_app. by eexists. Qed.

Lemma texts_close l : texts (l ++ [close_msg]) = texts l.
Proof. rewrite texts_app. apply app_nil_r. Qed.

(** The texts on the wire are a prefix of those queued. *)
Lemma wire_texts (s : Str) (r : seal_rng R) se f c :
  session_ready se -> reachable s r se f c ->
  exists sent rs o part, Forall2 (sealed_as se) sent rs /\ cut_record se o part
    /\ outgoing (strm c) = outgoing s ++ concat rs ++ part
    /\ texts (sent ++ [o]) `prefix_of` texts (h_queued (hist c)).
Proof.
  intros Hk Hr. destruct (writer_inv_reachable _ _ _ _ _ Hk Hr) as [_ Hw].
  assert (X : (wire_exact se (outgoing s) (h_written (hist c)) (outgoing (strm c))
       /\ texts (h_written (hist c)) `prefix_of` texts (h_queued (hist c)))
     \/ exists o, wire_cut se (outgoing s) (h_written (hist c)) o (outgoing (strm c))
         /\ texts (h_written (hist c) ++ [o]) `prefix_of` texts (h_queued (hist c))).
  { destruct (writer c); cbn in Hw; destruct_and?.
    1-6: left; split; [done|]; apply texts_prefix;
      match goal with X : h_queued _ = _ |- _ => rewrite X end; first [done|by eexists].
    all: destruct Hw as [(_ & _ & -> & Hw)|[(o & -> & Hw)|(_ & _ & -> & Hw)]].
    all: first [left; split; [done|]; by rewrite texts_close | right; eexists; split; [exact Hw|]].
    all: first [by rewrite texts_close | apply texts_prefix; eexists; by rewrite <- app_assoc]. }
  destruct X as [[(rs & Hf & Ho) Hp]|(o & (rs & part & Hf & Hc & Ho) & Hp)].
  - exists (h_written (hist c)), rs, close_msg, []. rewrite app_nil_r, texts_close.
    split_and!; [done|by left|done..].
  - by exists (h_written (hist c)), rs, o, part.
Qed.

End Wire.

(** ... over two streams, which need not be of the same kind. *)
Lemma delivery_prefix {Sa Sb R : Type} {BSa : ByteStream Sa} {Pa : StreamSpec Sa} {BSb : ByteStream Sb} {Pb : StreamSpec Sb}
    {Rng : Drbg_api R} {RngL : DrbgLaws R} {G : Gcm} {GL : GcmLaws}
    (sa : Sa) (sb : Sb) (ra rb : seal_rng R) (se : session) (fa fb : FrozenConfig) (a : conn Sa R) (b : conn Sb R)
    (wire : bytes) :
  session_ready se -> f_on_message fb = None ->
  reachable sa ra se fa a -> reachable sb rb se fb b ->
  outgoing (strm a) = outgoing sa ++ wire -> incoming sb `prefix_of` wire ->
  h_received (hist b) ++ recv_q (recvs b) `prefix_of` texts (h_queued (hist a)).
Proof.
  intros Hk Hf Ha Hb Ho [more Hw].
  destruct (wire_texts _ _ _ _ _ Hk Ha) as (sent & rs & o & part & Hs & Hc & Ho' & Hq).
  destruct (read_inv_reachable _ _ _ _ _ Hb) as (_ & got & rs' & rest & Hg & Hin & Harr & _).
  etransitivity; [|exact Hq]. rewrite Ho' in Ho. apply app_inv_head in Ho.
  assert (Hp : texts got `prefix_of` texts (sent ++ [o])).
  { apply texts_prefix. eapply (records_prefix _ _ _ _ _ _ _ rest more); [done..|].
    by rewrite Ho, Hw, Hin, <- app_assoc. }
  etransitivity; [|exact Hp]. rewrite <- Harr.
  destruct (recv_inv_reachable _ _ _ _ _ Hf Hb) as [_ I].
  destruct (reader_stopped (reader b)); [destruct I as (lost & -> & _)|destruct I as [-> _]];
    rewrite app_assoc; by eexists.
Qed.

Section Duplex.
Context {Str R : Type} {BS : ByteStream Str} {Spec : StreamSpec Str}.
Context {Rng : Drbg_api R} {RngL : DrbgLaws R} {G : Gcm} {GL : GcmLaws}.

(** C1 (duplex_delivery).  Two connections with the same session key, each under any
    interleaving of its threads: when what [b] finds on its stream is a prefix of
    what [a] has put on the wire, the messages [receive] returned at [b] followed by
    those in its receive queue are a prefix of the messages queued by the sends of
    [a]: nothing is lost in the middle, duplicated, reordered or made up. *)
Theorem duplex_delivery (sa sb : Str) (ra rb : seal_rng R) (se : session)
    (fa fb : FrozenConfig) (a b : conn Str R) (wire : bytes) :
  session_ready se -> f_on_message fb = None ->
  reachable sa ra se fa a -> reachable sb rb se fb b ->
  outgoing (strm a) = outgoing sa ++ wire -> incoming sb `prefix_of` wire ->
  h_received (hist b) ++ recv_q (recvs b) `prefix_of` texts (h_queued (hist a)).
Proof. apply delivery_prefix. Qed.

End Duplex.

(** ** Witnesses *)

Import Toy.

Definition text_of (p : bytes) : Outbound := MkOutbound kMsgText p.

(** Two texts and a ping from the peer. *)
Definition peer_input : bytes :=
  Demo.peer_record 1 (text_of [Byte.x61]) ++ Demo.peer_record 2 (MkOutbound kMsgPing [Byte.x70])
  ++ Demo.peer_record 3 (text_of [Byte.x62]).

Definition read_all : list action :=
  [ActReader; ActReader; ActReader; ActReader; ActReader; ActReader; ActReader; ActReader;
   ActCall (CallReceive NoTimeout); ActApp 0; ActApp 0].


Definition call_all : list action :=
  [ActReader; ActReader; ActDeliver; ActReader; ActReader; ActReader; ActReader; ActDeliver].


Definition sender : conn mem_stream toy_drbg := Demo.after (Demo.config 4 4 None) [] two_sends.

Definition receive_first : list action :=
  [ActReader; ActReader; ActReader; ActCall (CallReceive NoTimeout); ActApp 0; ActApp 0].

Lemma duplex_delivery_witness :
  let wire := mem_out (strm sender) in
  let b := Demo.after (Demo.config 4 4 None) (take 45 wire) receive_first in
  h_received (hist b) = [[Byte.x62]]
  /\ h_received (hist b) ++ recv_q (recvs b) `prefix_of` texts (h_queued (hist sender)).
Proof.
  split; [vm_compute; reflexivity|].
  apply (duplex_delivery (MemStream [] [] false) (MemStream (take 45 (mem_out (strm sender))) [] false)
    (SealRng false (ToyDrbg 7 true)) (SealRng false (ToyDrbg 7 true)) toy_session
    (Demo.config 4 4 None) (Demo.config 4 4 None) sender
    (Demo.after (Demo.config 4 4 None) (take 45 (mem_out (strm sender))) receive_first)
    (mem_out (strm sender))).
  - reflexivity.
  - reflexivity.
  - exists two_sends. vm_compute. reflexivity.
  - exists receive_first. vm_compute. reflexivity.
  - reflexivity.
  - exists (drop 45 (mem_out (strm sender))). vm_compute. reflexivity.
Defined.
