(* ===== verification/ConnLive.v ===== *)
(** * ConnLive

    Progress of a connection: its flags only ever go up and in which order
    [shutdown] sets them, no notification that a sender, the writer, a receiver or
    the deliver thread waits for is lost, the writer drains and exits after
    [shutdown], a closed receive side stays closed; and the interleavings in which
    a thread is stuck for good. *)

From S2P Require Import Prelude Errors Wire Stream Protocol Crypto Session Config Conn ConnInv ConnWriter.

(** ** Lists of program points *)

Lemma elem_insert_inv {A} (l : list A) n b x : x ∈ <[n:=b]> l -> x = b \/ x ∈ l.
Proof.
  rewrite !list_elem_of_lookup. intros [i Hi]. apply list_lookup_insert_Some in Hi.
  destruct Hi as [(-> & <- & _)|[_ Hi]]; [by left|right; by exists i].
Qed.

Lemma elem_insert_keep {A} (l : list A) n a b x :
  l !! n = Some a -> x <> a -> x ∈ l -> x ∈ <[n:=b]> l.
Proof.
  intros Hn Hx. rewrite !list_elem_of_lookup. intros [i Hi]. exists i.
  rewrite list_lookup_insert_ne; [done|]. intros ->. congruence.
Qed.

Section Live.
Context {Str R : Type} {BS : ByteStream Str} {Rng : Drbg_api R} {G : Gcm}.
Implicit Types c : conn Str R.

(** ** The flags only go up *)

Record flags_le c c' : Prop := {
  le_started : shutdown_started (flg c) = true -> shutdown_started (flg c') = true;
  le_closed : closed (flg c) = true -> closed (flg c') = true;
  le_stop : stop_send (sends c) = true -> stop_send (sends c') = true;
  le_wdone : write_done (flg c) = true -> write_done (flg c') = true;
  le_rdone : read_done (flg c) = true -> read_done (flg c') = true;
  le_jobs : deliver_stop (jobs c) = true -> deliver_stop (jobs c') = true;
  le_sock : sock_valid c = false -> sock_valid c' = false;
  le_recv : recv_closed (recvs c) = true ->
    recv_closed (recvs c') = true /\ recv_err (recvs c') = recv_err (recvs c)
}.

Lemma flags_step c a c' : step c a = Some c' -> flags_le c c'.
Proof. intros H. destruct a; step_cases H; frame_write; split; cbn; intros; try split; done || congruence. Qed.

(** ** The order in which [shutdown] sets them *)

(** The result of [wait_flag(write_done_)]. *)
Definition waited c (ec : error_code) : Prop :=
  ec = make_error_code Errc.timed_out \/ ec = ec_none /\ write_done (flg c) = true.

(** What holds when the call is at a program point. *)
Definition app_ok c (a : apc) : Prop :=
  match a with
  | A_sd_closed _ => shutdown_started (flg c) = true
  | A_sd_stop _ => closed (flg c) = true
  | A_sd_notify _ | A_sd_check WriteDone _ _ | A_sd_block WriteDone _ _ | A_sd_sleep WriteDone _ _ =>
      stop_send (sends c) = true
  | A_sd_jobs ec _ => stop_send (sends c) = true /\ waited c ec
  | A_sd_jobs_notify ec _ | A_sd_sock ec _ => deliver_stop (jobs c) = true /\ waited c ec
  | A_sd_check ReadDone ec _ | A_sd_block ReadDone ec _ | A_sd_sleep ReadDone ec _ =>
      sock_valid c = false /\ waited c ec
  | A_ret_shutdown ec =>
      ec = make_error_code Errc.closed /\ shutdown_started (flg c) = true
      \/ ec = make_error_code Errc.timed_out /\ sock_valid c = false
      \/ ec = ec_none /\ write_done (flg c) = true /\ read_done (flg c) = true /\ sock_valid c = false
  | _ => True
  end.

Definition writer_done (w : wpc) : bool := match w with W_notify | W_exit => true | _ => false end.
Definition reader_done (r : rpc) : bool := match r with R_notify _ | R_exit => true | _ => false end.
Definition writer_flushing (w : wpc) : bool :=
  match w with W_flush | W_flush_send _ | W_close => true | _ => false end.

Record life c : Prop := {
  lf_apps : Forall (app_ok c) (apps c);
  lf_closed : closed (flg c) = true -> shutdown_started (flg c) = true;
  lf_stop : stop_send (sends c) = true -> closed (flg c) = true;
  lf_jobs : deliver_stop (jobs c) = true -> stop_send (sends c) = true;
  lf_sock : sock_valid c = false -> deliver_stop (jobs c) = true;
  lf_wdone : write_done (flg c) = writer_done (writer c);
  lf_rdone : read_done (flg c) = reader_done (reader c);
  lf_flush : writer_flushing (writer c) = true -> stop_send (sends c) = true;
  lf_rerr : recv_closed (recvs c) = true -> ec_bool (recv_err (recvs c)) = true
}.

Lemma app_ok_mono c c' a : flags_le c c' -> app_ok c a -> app_ok c' a.
Proof.
  intros [Hst Hcl Hsp Hwd Hrd Hj Hso _]. unfold app_ok, waited.
  destruct a; try done; try (by auto); repeat case_match; naive_solver.
Qed.

(** Waking a call keeps what holds at its program point. *)
Lemma app_ok_wake c a :
  app_ok c a -> app_ok c (wake_app_send a) /\ app_ok c (wake_app_recv a) /\ app_ok c (wake_app_done a).
Proof. by destruct a. Qed.

Lemma apps_ok_insert c c' n a :
  flags_le c c' -> Forall (app_ok c) (apps c) -> app_ok c' a ->
  Forall (app_ok c') (<[n:=a]> (apps c)).
Proof.
  intros Hle Ha Hn. apply Forall_insert; [|done]. eapply Forall_impl; [exact Ha|].
  intros x. by apply app_ok_mono.
Qed.

Lemma apps_ok_same c c' : flags_le c c' -> Forall (app_ok c) (apps c) -> Forall (app_ok c') (apps c).
Proof. intros Hle Ha. eapply Forall_impl; [exact Ha|]. intros x. by apply app_ok_mono. Qed.

Lemma apps_ok_fmap c (f : apc -> apc) l :
  (forall a, app_ok c a -> app_ok c (f a)) -> Forall (app_ok c) l -> Forall (app_ok c) (f <$> l).
Proof. intros Hf Hl. apply Forall_fmap. eapply Forall_impl; [exact Hl|]. apply Hf. Qed.

Ltac solve_apps Hle La :=
  match goal with
  | |- Forall (app_ok ?c') ?l =>
      repeat match goal with
      | |- Forall _ (_ <$> _) => apply apps_ok_fmap; [intros; by apply app_ok_wake|]
      | |- Forall _ (_ ++ _) => apply Forall_app; split; [|by repeat constructor]
      | |- Forall _ (<[_ := _]> _) => apply (apps_ok_insert _ _ _ _ Hle La)
      | |- Forall _ _ => exact (apps_ok_same _ _ Hle La)
      end
  end.

Lemma after_wait_ok c f ec r t :
  app_ok c (A_sd_check f ec t) ->
  r = make_error_code Errc.timed_out \/ r = ec_none /\ get_flag f c = true ->
  app_ok c (after_wait f ec r t).
Proof.
  destruct f; cbn; [done|]. intros [Hs [->|[-> Hw]]] Hr; cbn; [auto|].
  destruct Hr as [->|[-> Hd]]; auto 10.
Qed.

Lemma start_call_ok c k : app_ok c (start_call k).
Proof. by destruct k. Qed.

Lemma apps_ok_step c a c' : life c -> step c a = Some c' -> Forall (app_ok c') (apps c').
Proof.
  intros L H. pose proof (flags_step _ _ _ H) as Hle.
  destruct a; step_cases H; frame_write; destruct L as [La L1 L2 L3 L4 L5 L6 L7 L8].
  all: cbn [apps]; solve_apps Hle La.
  all: try (by repeat constructor).
  all: try match goal with E : apps _ !! _ = Some _ |- _ => pose proof (Forall_lookup_1 _ _ _ _ La E) as Hn end.
  all: try done; cbn -[ec_bool] in *; try done.
  all: try (by destruct Hn).
  1-3: apply (app_ok_mono _ _ _ Hle), after_wait_ok; auto.
  - apply Forall_app. split; [exact (apps_ok_same _ _ Hle La)|].
    apply Forall_singleton, start_call_ok.
  - apply (app_ok_mono _ _ _ Hle), app_ok_wake, app_ok_wake, app_ok_wake, Hn.
Qed.

Lemma wake_flushing w : writer_flushing (wake_writer_send w) = writer_flushing w.
Proof. by destruct w. Qed.
Lemma wake_done w : writer_done (wake_writer_send w) = writer_done w.
Proof. by destruct w. Qed.
Lemma wake_send_done r : reader_done (wake_reader_send r) = reader_done r.
Proof. by destruct r. Qed.
Lemma wake_recv_done r : reader_done (wake_reader_recv r) = reader_done r.
Proof. by destruct r. Qed.

Lemma life_step c a c' : life c -> step c a = Some c' -> life c'.
Proof.
  intros L H. pose proof (apps_ok_step _ _ _ L H) as Ha.
  destruct a; step_cases H; frame_write; destruct L as [La L1 L2 L3 L4 L5 L6 L7 L8].
  all: split; try exact Ha; try exact L1; try exact L2; try exact L3; try exact L4; try exact L5;
    try exact L6; try exact L7; try exact L8; clear Ha; cbn -[ec_bool]; try done; try congruence.
  all: rewrite ?wake_flushing, ?wake_done, ?wake_send_done, ?wake_recv_done; try done.
  all: try (first [rewrite L5 | rewrite L6 | intros _; apply L7];
    by match goal with E : writer _ = _ |- _ => rewrite E | E : reader _ = _ |- _ => rewrite E end).
  all: try match goal with E : apps _ !! _ = Some _ |- _ => pose proof (Forall_lookup_1 _ _ _ _ La E) as Hn end.
  all: try (by intros _; apply Hn).
  rewrite L6. by destruct (reader c).
Qed.

Lemma life_reachable s r se f c : reachable s r se f c -> life c.
Proof. apply reachable_invariant; [|apply life_step]. by split. Qed.

(** ** One thread at a time inside [shutdown] *)

Definition in_shutdown (a : apc) : bool :=
  match a with
  | A_sd_closed _ | A_sd_stop _ | A_sd_notify _ | A_sd_check _ _ _ | A_sd_block _ _ _
  | A_sd_sleep _ _ _ | A_sd_jobs _ _ | A_sd_jobs_notify _ _ | A_sd_sock _ _ => true
  | _ => false
  end.

(** Calls that won the compare-exchange: inside, or returned other than [closed]. *)
Definition won (a : apc) : bool :=
  in_shutdown a ||
  match a with A_ret_shutdown ec => negb (bool_decide (ec = make_error_code Errc.closed)) | _ => false end.

Definition winners (l : list apc) : nat := length (List.filter won l).

Lemma winners_insert l n a b :
  l !! n = Some a -> (winners (<[n:=b]> l) + Nat.b2n (won a) = winners l + Nat.b2n (won b))%nat.
Proof.
  unfold winners. revert n. induction l as [|x l IH]; intros [|n] H; simplify_eq/=.
  - destruct (won a), (won b); cbn; lia.
  - specialize (IH _ H). destruct (won x); cbn; lia.
Qed.

Lemma winners_fmap (f : apc -> apc) l : (forall a, won (f a) = won a) -> winners (f <$> l) = winners l.
Proof.
  intros Hf. unfold winners. induction l as [|x l IH]; cbn; [done|]. rewrite Hf.
  destruct (won x); cbn; congruence.
Qed.

Lemma winners_app l1 l2 : winners (l1 ++ l2) = (winners l1 + winners l2)%nat.
Proof. unfold winners. by rewrite List.filter_app, length_app. Qed.

Lemma won_wake a : won (wake_app_send a) = won a /\ won (wake_app_recv a) = won a /\ won (wake_app_done a) = won a.
Proof. by destruct a. Qed.

Definition once c : Prop := winners (apps c) = Nat.b2n (shutdown_started (flg c)).

Lemma winners_keep l n a b : l !! n = Some a -> won b = won a -> winners (<[n:=b]> l) = winners l.
Proof. intros Hn Hw. pose proof (winners_insert l n a b Hn). rewrite Hw in *. lia. Qed.

Lemma won_after_wait c f ec r t :
  app_ok c (A_sd_check f ec t) -> r = make_error_code Errc.timed_out \/ r = ec_none ->
  won (after_wait f ec r t) = true.
Proof. destruct f; [done|]. by intros [_ [->|[-> _]]] [-> | ->]. Qed.

Lemma once_step c a c' : life c -> once c -> step c a = Some c' -> once c'.
Proof.
  intros L I H. destruct a; step_cases H; frame_write; try exact I; destruct L as [La _ _ _ _ _ _ _ _].
  all: unfold once in *; cbn -[winners won].
  all: try match goal with E : apps _ !! _ = Some _ |- _ => pose proof (Forall_lookup_1 _ _ _ _ La E) as Hn end.
  all: rewrite ?winners_fmap by (intros; apply won_wake); try done.
  all: try (erewrite winners_keep; [exact I|eassumption|];
            first [done | by eapply won_after_wait; [exact Hn|auto]]).
  - match goal with E : apps _ !! _ = Some _ |- _ => pose proof (winners_insert _ _ _ (A_sd_closed t) E) as Hc end.
    match goal with E : shutdown_started _ = false |- _ => rewrite E in I end. cbn in *. lia.
  - rewrite winners_app, I. by destruct k; cbn; rewrite Nat.add_0_r.
  - erewrite winners_keep; [exact I|eassumption|]. by destruct a.
Qed.

Lemma once_reachable s r se f c : reachable s r se f c -> life c /\ once c.
Proof.
  apply (reachable_invariant (fun c => life c /\ once c)); [by split|].
  intros c1 a c2 [L O] H. split; [by eapply life_step|by eapply once_step].
Qed.

(** ** No lost notification *)

(** Kinds of program points, and whether a call is at one. *)
Definition is_send_wait (a : apc) : bool := match a with A_send_wait _ _ => true | _ => false end.
Definition is_recv_wait (a : apc) : bool := match a with A_recv_wait _ => true | _ => false end.
Definition is_send_notify (a : apc) : bool := match a with A_sd_notify _ => true | _ => false end.
Definition is_jobs_notify (a : apc) : bool := match a with A_sd_jobs_notify _ _ => true | _ => false end.

Definition any (f : apc -> bool) (l : list apc) : bool := existsb f l.

Lemma any_insert_inv f l n b : any f (<[n:=b]> l) = true -> f b = true \/ any f l = true.
Proof.
  unfold any. rewrite !existsb_exists. intros (x & Hx & Hf).
  rewrite <- list_elem_of_In in Hx. apply elem_insert_inv in Hx as [-> | Hx]; [by left|right].
  exists x. by rewrite <- list_elem_of_In.
Qed.

Lemma any_insert_keep f l n a b :
  l !! n = Some a -> f a = false -> any f l = true -> any f (<[n:=b]> l) = true.
Proof.
  intros Hn Ha. unfold any. rewrite !existsb_exists. intros (x & Hx & Hf). exists x.
  rewrite <- list_elem_of_In in *. split; [|done]. eapply elem_insert_keep; [done| |done]. congruence.
Qed.

Lemma any_insert_at f l n a b : l !! n = Some a -> f b = true -> any f (<[n:=b]> l) = true.
Proof.
  intros Hn Hb. unfold any. rewrite existsb_exists. exists b. split; [|done].
  rewrite <- list_elem_of_In. apply list_elem_of_lookup. exists n.
  apply list_lookup_insert_eq. by eapply lookup_lt_Some.
Qed.

Lemma any_fmap f g (w : apc -> apc) l : (forall a, f (w a) = g a) -> any f (w <$> l) = any g l.
Proof. intros Hw. unfold any. induction l as [|x l IH]; cbn; [done|]. by rewrite Hw, IH. Qed.

Lemma any_none l : any (fun _ => false) l = false.
Proof. unfold any. by induction l. Qed.

Lemma any_app f l1 l2 : any f (l1 ++ l2) = any f l1 || any f l2.
Proof. apply existsb_app. Qed.

(** A thread that waits for space in the send queue has reason to: the queue is
    full, or [shutdown] has set [stop_send_] and is about to notify. *)
Definition full_or_due c : Prop :=
  stop_send (sends c) = false /\ has_space (send_q (sends c)) (f_send_queue_depth (cfg c)) = false
  \/ stop_send (sends c) = true /\ any is_send_notify (apps c) = true.

Record wakeups c : Prop := {
  wk_writer : writer c = W_wait ->
    send_q (sends c) = [] /\ (stop_send (sends c) = false \/ any is_send_notify (apps c) = true);
  wk_send : any is_send_wait (apps c) = true -> full_or_due c;
  wk_ping : forall p, reader c = R_ping_wait p -> full_or_due c;
  wk_recv : any is_recv_wait (apps c) = true ->
    recv_q (recvs c) = [] /\ recv_closed (recvs c) = false;
  wk_jobs : deliver c = D_wait ->
    msg_jobs (jobs c) = [] /\ (deliver_stop (jobs c) = false \/ any is_jobs_notify (apps c) = true)
}.

(** Rewriting [any] through notifications and new calls. *)
Ltac norm_any :=
  repeat match goal with
  | |- context [any ?f (?w <$> ?l)] =>
      first [rewrite (any_fmap f f w l) by (by intros [])
            |rewrite (any_fmap f (fun _ => false) w l), any_none by (by intros [])]
  | |- context [any ?f (?l ++ [start_call ?k])] =>
      rewrite (any_app f l); replace (any f [start_call k]) with false by (by destruct k);
      rewrite orb_false_r
  end.

Lemma any_insert_same f l n a b :
  l !! n = Some a -> f a = false -> f b = false -> any f (<[n:=b]> l) = any f l.
Proof.
  intros Hn Ha Hb. apply eq_true_iff_eq. split; [|by eapply any_insert_keep].
  intros [?|?]%any_insert_inv; congruence.
Qed.

(** A call moves between program points of no interest to [f], or leaves one. *)
Ltac move_any E :=
  repeat match goal with
  | |- context [any ?f (<[?n := ?b]> ?l)] => rewrite (any_insert_same f l n _ b E) by done
  end.

Lemma is_wake a :
  is_send_notify (wake_app_done (wake_app_recv (wake_app_send a))) = is_send_notify a
  /\ is_jobs_notify (wake_app_done (wake_app_recv (wake_app_send a))) = is_jobs_notify a
  /\ is_send_wait (wake_app_done (wake_app_recv (wake_app_send a))) = false
  /\ is_recv_wait (wake_app_done (wake_app_recv (wake_app_send a))) = false.
Proof. by destruct a. Qed.

(** A program point that keeps [f]. *)
Lemma any_insert_equal f l n a b : l !! n = Some a -> f b = f a -> any f l = true -> any f (<[n:=b]> l) = true.
Proof.
  intros Hn Hf Ha. destruct (f a) eqn:E; [by eapply any_insert_at|by eapply any_insert_keep].
Qed.

Ltac any_goal :=
  first [done | eapply any_insert_at; [eassumption|done]
        | eapply any_insert_equal; [eassumption|first [done | by apply is_wake]|done]].

Ltac old_wk I1 I2 I3 I4 I5 := first [done | exact I1 | exact I2 | exact I3 | exact I4 | exact I5].

Lemma wakeups_step c a c' : life c -> wakeups c -> step c a = Some c' -> wakeups c'.
Proof.
  intros L I H. pose proof (lf_flush _ L) as Lf. clear L.
  destruct a; step_cases H; frame_write; destruct I as [I1 I2 I3 I4 I5].
  all: split; unfold full_or_due in *; try (old_wk I1 I2 I3 I4 I5).
  all: cbn -[any]; norm_any; try (old_wk I1 I2 I3 I4 I5).
  all: try match goal with E : apps _ !! _ = Some (_ ?f _ _) |- _ => destruct f; cbn -[any] in * end.
  all: try (match goal with E : apps _ !! _ = Some _ |- _ => move_any E end; old_wk I1 I2 I3 I4 I5).
  all: try (intros X; by destruct (writer c)).
  all: try (intros X; by destruct (deliver c)).
  all: try (intros p' X; by destruct (reader c)).
  all: try (intros X; first [apply any_insert_inv in X as [X|X]; [first [done | by destruct a]|] | idtac]).
  all: try (intros Y).
  all: first [apply I1 in X | apply I2 in X | apply I3 in Y | apply I4 in X | apply I5 in X | idtac].
  all: bool_to_prop; destruct_and?; destruct_or?; destruct_and?; try congruence.
  all: try first [split; any_goal | split; [any_goal|left; any_goal] | split; [any_goal|right; any_goal]
    | left; split; any_goal | right; split; any_goal].
  all: specialize (Lf eq_refl); congruence.
Qed.

Lemma wakeups_reachable s r se f c : reachable s r se f c -> life c /\ wakeups c.
Proof.
  apply (reachable_invariant (fun c => life c /\ wakeups c)).
  - split; [by split|]. split; cbn; try done. by case_bool_decide.
  - intros c1 a c2 [L O] H. split; [by eapply life_step|by eapply wakeups_step].
Qed.

(** ** The writer after [shutdown] *)

(** Writer steps left: one per pop and one per write, and the exit. *)
Definition writer_left c : nat :=
  match writer c with
  | W_wait => 0
  | W_idle => 2 * length (send_q (sends c)) + 5
  | W_send _ => 2 * length (send_q (sends c)) + 6
  | W_flush => 2 * length (send_q (sends c)) + 4
  | W_flush_send _ => 2 * length (send_q (sends c)) + 5
  | W_close => 3
  | W_store => 2
  | W_notify => 1
  | W_exit => 0
  end.

Lemma writer_progress c :
  stop_send (sends c) = true -> writer c <> W_wait -> writer c <> W_exit -> mutex_free send_mu c = true ->
  exists c', writer_step c = Some c' /\ (writer_left c' < writer_left c)%nat
    /\ stop_send (sends c') = true /\ writer c' <> W_wait /\ mutex_free send_mu c' = true.
Proof.
  intros Hs Hw He Hm. unfold writer_step, writer_left, pop_send.
  destruct (writer c) eqn:E; try done.
  all: try rewrite Hm; try (destruct (send_q (sends c)) eqn:Eq); try rewrite Hs.
  all: try (destruct (conn_write _ c) as [c1 b] eqn:Ew; apply conn_write_frame in Ew as (s & r & ->); destruct b).
  all: eexists; split; [reflexivity|]; unfold mutex_free in *; cbn; rewrite ?Eq, ?E; cbn.
  all: split_and!; try done; try lia.
  all: destruct (reader c); done.
Qed.

Lemma writer_exits n c :
  (writer_left c <= n)%nat -> stop_send (sends c) = true -> writer c <> W_wait -> mutex_free send_mu c = true ->
  exists k c', (k <= n)%nat /\ run c (replicate k ActWriter) = Some c' /\ writer c' = W_exit
    /\ stop_send (sends c') = true.
Proof.
  revert c. induction n as [|n IH]; intros c Hn Hs Hw Hm.
  - exists 0%nat, c. split_and!; try done. unfold writer_left in Hn. destruct (writer c); done || lia.
  - assert (Hd : writer c = W_exit \/ writer c <> W_exit) by (destruct (writer c); auto).
    destruct Hd as [E|E]; [exists 0%nat, c; split_and!; done || lia|].
    destruct (writer_progress c Hs Hw E Hm) as (c1 & E1 & Hl & Hs1 & Hw1 & Hm1).
    destruct (IH c1) as (k & c2 & Hk & Hr & He & Hs2); [lia|done..|].
    exists (S k), c2. cbn. rewrite E1. split_and!; [lia|done..].
Qed.

(** The writer has left its loop. *)
Definition writer_over (w : wpc) : bool := match w with W_store | W_notify | W_exit => true | _ => false end.

(** The message the writer is about to seal and write. *)
Definition writing (w : wpc) : option Outbound :=
  match w with W_send o | W_flush_send o => Some o | W_close => Some close_msg | _ => None end.

(** The writer's last write: one that fails, or that of the close record. *)
Lemma last_write_exits c o c2 b :
  writing (writer c) = Some o -> conn_write o c = (c2, b) -> (b = true -> writer c = W_close) ->
  exists c', run c (replicate 3 ActWriter) = Some c' /\ writer c' = W_exit
    /\ hist c' = hist c2 /\ sends c' = sends c2 /\ strm c' = strm c2.
Proof.
  intros Hw Hc Hb. assert (H1 : writer_step c = Some (go_writer W_store c2)).
  { unfold writer_step. destruct (writer c); try done; cbn in Hw; simplify_eq.
    all: try (fold close_msg; by rewrite Hc). all: rewrite Hc; destruct b; [|done]; by specialize (Hb eq_refl). }
  cbn. rewrite H1. cbn. eexists. by split_and!.
Qed.

(** Every other step of a stopped writer leads on to it. *)
Lemma writer_moves c :
  stop_send (sends c) = true -> writer c <> W_wait -> writer_over (writer c) = false -> mutex_free send_mu c = true ->
  (exists o c2 b, writing (writer c) = Some o /\ conn_write o c = (c2, b) /\ (b = true -> writer c = W_close))
  \/ (exists c1, writer_step c = Some c1 /\ writer_over (writer c1) = false).
Proof.
  intros Hs Hw Ho Hm. unfold writer_step, pop_send. destruct (writer c) eqn:E; try done; try rewrite Hm.
  - right. destruct (send_q (sends c)); [rewrite Hs|]; by eexists.
  - destruct (conn_write o c) as [c2 b] eqn:Ec. destruct b; [right; by eexists|left; by exists o, c2, false].
  - right. destruct (send_q (sends c)); by eexists.
  - destruct (conn_write o c) as [c2 b] eqn:Ec. destruct b; [right; by eexists|left; by exists o, c2, false].
  - left. destruct (conn_write close_msg c) as [c2 b] eqn:Ec. by exists close_msg, c2, b.
Qed.

Lemma writer_ends n c :
  (writer_left c <= n)%nat -> stop_send (sends c) = true -> writer c <> W_wait -> mutex_free send_mu c = true ->
  writer_over (writer c) = false ->
  exists j c1 o c2 b c', run c (replicate j ActWriter) = Some c1 /\ writing (writer c1) = Some o
    /\ conn_write o c1 = (c2, b) /\ (b = true -> writer c1 = W_close)
    /\ run c1 (replicate 3 ActWriter) = Some c' /\ (j + 3 <= n)%nat /\ writer c' = W_exit
    /\ hist c' = hist c2 /\ sends c' = sends c2 /\ strm c' = strm c2.
Proof.
  revert c. induction n as [|n IH]; intros c Hn Hs Hw Hm Ho.
  { unfold writer_left in Hn. destruct (writer c); done || lia. }
  destruct (writer_moves c Hs Hw Ho Hm) as [(o & c2 & b & H1 & H2 & H3)|(c1 & H1 & H2)].
  - destruct (last_write_exits _ _ _ _ H1 H2 H3) as (c' & Rn & E & F1 & F2 & F3).
    exists 0%nat, c, o, c2, b, c'. split_and!; try done. unfold writer_left in Hn. destruct (writer c); done || lia.
  - destruct (writer_progress c Hs Hw ltac:(by destruct (writer c)) Hm) as (x & E1 & Hl & Hs1 & Hw1 & Hm1).
    rewrite H1 in E1. injection E1 as <-.
    destruct (IH c1) as (j & c3 & o & c2 & b & c' & R1 & T1 & T2 & T3 & R2 & Hj & T4 & T5 & T6 & T7); [lia|done..|].
    exists (S j), c3, o, c2, b, c'. cbn [replicate run step]. rewrite H1. split_and!; try done. lia.
Qed.

(** ** A closed receive side *)

Lemma recv_close_step c a c' :
  recv_closed (recvs c) = true -> step c a = Some c' ->
  recv_closed (recvs c') = true /\ recv_err (recvs c') = recv_err (recvs c)
  /\ recv_q (recvs c') `suffix_of` recv_q (recvs c).
Proof.
  intros Hc H. destruct (le_recv _ _ (flags_step _ _ _ H) Hc) as [H1 H2]. split_and!; [done..|].
  destruct a; step_cases H; frame_write; try done; bool_to_prop; try congruence.
  all: first [by match goal with E : recv_q _ = _ |- _ => rewrite E end | by exists [l]].
Qed.

(** ** Threads that are stuck *)

(** The reader waiting for space in the receive queue: only a spurious wakeup
    ends the wait. *)
Lemma text_wait_step c a c' p :
  reader c = R_text_wait p -> a <> ActSpurious TReader -> step c a = Some c' ->
  reader c' = R_text_wait p /\ h_arrived (hist c') = h_arrived (hist c)
  /\ read_done (flg c') = read_done (flg c).
Proof.
  intros Hr Ha H. destruct a; step_cases H; frame_write; try done; try (by rewrite ?Hr).
Qed.

(** The reader about to call [abort_recv] with [recv_mu_] held. *)
Lemma self_lock_step c a c' e held :
  reader c = R_abort e held -> recv_mu ∈ held -> step c a = Some c' ->
  reader c' = R_abort e held
  /\ forall n t, apps c !! n = Some (A_recv_lock t) -> apps c' !! n = Some (A_recv_lock t).
Proof.
  intros Hr Hm H.
  assert (Hf : mutex_free recv_mu c = false)
    by (unfold mutex_free; rewrite Hr; by rewrite bool_decide_eq_true_2).
  destruct a; step_cases H; frame_write; try done; try congruence; rewrite ?Hr; (split; [done|]); intros m t' Hm'.
  all: rewrite ?list_lookup_fmap, ?lookup_app_l by (by eapply lookup_lt_Some).
  all: try (rewrite list_lookup_insert_ne by (intros <-; congruence)).
  all: rewrite ?Hm'; try done.
  destruct (decide (n = m)) as [->|?]; [|by rewrite list_lookup_insert_ne].
  simplify_eq. apply list_lookup_insert_eq. by eapply lookup_lt_Some.
Qed.

(** A [shutdown] asleep on [done_cv_] after both threads have exited. *)
Lemma done_sleep_step c a c' n f ec :
  reader c = R_exit /\ writer c = W_exit /\ apps c !! n = Some (A_sd_sleep f ec NoTimeout) ->
  a <> ActSpurious (TApp n) -> step c a = Some c' ->
  reader c' = R_exit /\ writer c' = W_exit /\ apps c' !! n = Some (A_sd_sleep f ec NoTimeout).
Proof.
  intros (Hr & Hw & Hn) Ha H. destruct a; step_cases H; frame_write; try done; rewrite ?Hr, ?Hw.
  all: split_and!; try done.
  all: rewrite ?list_lookup_fmap, ?lookup_app_l by (by eapply lookup_lt_Some).
  all: try (rewrite list_lookup_insert_ne by (intros <-; congruence)).
  all: rewrite ?Hn; try done.
Qed.

Lemma run_preserves (P : conn Str R -> Prop) (Q : action -> Prop) c l c' :
  (forall c a c', P c -> Q a -> step c a = Some c' -> P c') ->
  P c -> Forall Q l -> run c l = Some c' -> P c'.
Proof.
  intros Hs. revert c. induction l as [|a l IH]; intros c Hc Hl Hr; cbn in Hr; [by simplify_eq|].
  apply Forall_cons in Hl as [Ha Hl]. destruct (step c a) as [c1|] eqn:E; [|done]. eauto.
Qed.

(** ** Theorems *)

(** C21 (shutdown_protocol).  In every interleaving: at most one call of [shutdown]
    gets past the compare-exchange; the flags go up in the order
    [shutdown_started_], [closed_], [stop_send_], [deliver_stop_], socket closed; a
    call of [shutdown] returns [closed] (another call came first), a time-out after
    closing the socket, or success, and then both loops have finished and the
    socket is closed. *)
Theorem shutdown_protocol (s : Str) (r : seal_rng R) (se : session) (f : FrozenConfig) c :
  reachable s r se f c ->
  (winners (apps c) <= 1)%nat
  /\ (closed (flg c) = true -> shutdown_started (flg c) = true)
  /\ (stop_send (sends c) = true -> closed (flg c) = true)
  /\ (deliver_stop (jobs c) = true -> stop_send (sends c) = true)
  /\ (sock_valid c = false -> deliver_stop (jobs c) = true)
  /\ forall n ec, apps c !! n = Some (A_ret_shutdown ec) ->
       ec = make_error_code Errc.closed /\ shutdown_started (flg c) = true
       \/ ec = make_error_code Errc.timed_out /\ sock_valid c = false
       \/ ec = ec_none /\ reader_done (reader c) = true /\ writer_done (writer c) = true
          /\ sock_valid c = false.
Proof.
  intros Hr. destruct (once_reachable _ _ _ _ _ Hr) as [[La L1 L2 L3 L4 L5 L6 L7 L8] Ho].
  split_and!; try done.
  - rewrite Ho. destruct (shutdown_started (flg c)); cbn; lia.
  - intros n ec Hn. pose proof (Forall_lookup_1 _ _ _ _ La Hn) as Ha. cbn in Ha.
    rewrite L5, L6 in Ha. naive_solver.
Qed.

(** C24 (no_lost_wakeup).  In every interleaving a thread that waits has reason to,
    so no notification it needs was lost: the writer waits only with an empty send
    queue before a stop is notified, a sender and the reader answering a ping only
    while the send queue is full or a stop is about to be notified, a receiver only
    while the receive queue is empty and open, the deliver thread only without jobs
    before a stop is notified. *)
Theorem no_lost_wakeup (s : Str) (r : seal_rng R) (se : session) (f : FrozenConfig) c :
  reachable s r se f c ->
  (writer c = W_wait ->
     send_q (sends c) = [] /\ (stop_send (sends c) = false \/ any is_send_notify (apps c) = true))
  /\ (any is_send_wait (apps c) = true \/ (exists p, reader c = R_ping_wait p) ->
       stop_send (sends c) = false /\ has_space (send_q (sends c)) (f_send_queue_depth (cfg c)) = false
       \/ stop_send (sends c) = true /\ any is_send_notify (apps c) = true)
  /\ (any is_recv_wait (apps c) = true -> recv_q (recvs c) = [] /\ recv_closed (recvs c) = false)
  /\ (deliver c = D_wait ->
       msg_jobs (jobs c) = [] /\ (deliver_stop (jobs c) = false \/ any is_jobs_notify (apps c) = true)).
Proof.
  intros Hr. destruct (wakeups_reachable _ _ _ _ _ Hr) as [_ [I1 I2 I3 I4 I5]].
  split_and!; try done. intros [Hs|[p Hp]]; [by apply I2|by eapply I3].
Qed.

(** Once the receive side is closed, it stays closed with the
    same error, which is an error, and the receive queue only loses messages at its
    front: what arrived before is still received in order, then the error. *)
Theorem recv_close_final (s : Str) (r : seal_rng R) (se : session) (f : FrozenConfig) c l c' :
  reachable s r se f c -> recv_closed (recvs c) = true -> run c l = Some c' ->
  recv_closed (recvs c') = true /\ recv_err (recvs c') = recv_err (recvs c)
  /\ ec_bool (recv_err (recvs c')) = true
  /\ recv_q (recvs c') `suffix_of` recv_q (recvs c).
Proof.
  intros Hr Hc Hl. pose proof (lf_rerr _ (life_reachable _ _ _ _ _ Hr) Hc) as He.
  assert (X : recv_closed (recvs c') = true /\ recv_err (recvs c') = recv_err (recvs c)
     /\ recv_q (recvs c') `suffix_of` recv_q (recvs c)); [|naive_solver congruence].
  apply (run_invariant (fun c1 => recv_closed (recvs c1) = true /\ recv_err (recvs c1) = recv_err (recvs c)
     /\ recv_q (recvs c1) `suffix_of` recv_q (recvs c)) c l c'); [|done|done].
  intros c1 a c2 (H1 & H2 & H3) Hs. destruct (recv_close_step _ _ _ H1 Hs) as (G1 & G2 & G3).
  split_and!; [done|congruence|by etransitivity].
Qed.

(** A reader that waits for space in the receive queue waits
    through every later interleaving unless the operating system wakes it
    spuriously: neither [receive] nor [shutdown] notifies [recv_cv_], so nothing
    more arrives and [read_done_] is never set. *)
Theorem receive_stall c l c' p :
  reader c = R_text_wait p -> Forall (fun a => a <> ActSpurious TReader) l -> run c l = Some c' ->
  reader c' = R_text_wait p /\ h_arrived (hist c') = h_arrived (hist c)
  /\ read_done (flg c') = read_done (flg c).
Proof.
  intros Hr Hl.
  apply (run_preserves (fun c1 => reader c1 = R_text_wait p /\ h_arrived (hist c1) = h_arrived (hist c)
    /\ read_done (flg c1) = read_done (flg c)) (fun a => a <> ActSpurious TReader)); try done.
  intros c1 a c2 (H1 & H2 & H3) Ha Hs. destruct (text_wait_step _ _ _ _ H1 Ha Hs) as (G1 & G2 & G3).
  split_and!; congruence.
Qed.

(** When the reader finds the receive queue full after a
    stop, it calls [abort_recv] holding the mutex that function takes: it never
    proceeds, and neither does any [receive] that needs the mutex, in any later
    interleaving. *)
Theorem reader_self_deadlock c l c' p :
  reader c = R_text_locked p -> stop_send (sends c) = true ->
  f_receive_queue_depth (cfg c) <= to_int (zlen (recv_q (recvs c))) ->
  run c (ActReader :: l) = Some c' ->
  reader c' = R_abort (make_error_code Errc.closed) [recv_mu; send_mu]
  /\ reader_step c' = None
  /\ forall n t, apps c !! n = Some (A_recv_lock t) -> apps c' !! n = Some (A_recv_lock t).
Proof.
  intros Hr Hs Hq H. set (stuck := R_abort (make_error_code Errc.closed) [recv_mu; send_mu]).
  assert (X : reader c' = stuck /\ forall n t, apps c !! n = Some (A_recv_lock t) -> apps c' !! n = Some (A_recv_lock t)).
  { cbn in H. unfold reader_step in H. rewrite Hr in H.
    destruct (mutex_free send_mu c); [|done]. unfold text_locked in H. rewrite Hs in H.
    assert ((to_int (zlen (recv_q (recvs c))) >=? f_receive_queue_depth (cfg c)) = true) as E by lia.
    rewrite E in H. cbn [andb] in H. revert H.
    apply (run_invariant (fun c1 => reader c1 = stuck /\ forall n t, apps c !! n = Some (A_recv_lock t) -> apps c1 !! n = Some (A_recv_lock t)));
      [|done]. intros c1 a c2 [H1 H2] H3.
    destruct (self_lock_step _ _ _ _ [recv_mu; send_mu] H1 ltac:(set_solver) H3) as [G1 G2]. auto. }
  destruct X as [X1 X2]. split_and!; [done| |done].
  unfold reader_step, mutex_free. by rewrite X1.
Qed.

(** [done_cv_] is notified without [done_mu_]: a [shutdown]
    without timeout that tested the flag just before both threads finished sleeps
    through every later interleaving, unless it is woken spuriously, although the
    flag it waits for is set. *)
Theorem done_wakeup_lost c l c' n f ec :
  reader c = R_exit -> writer c = W_exit -> apps c !! n = Some (A_sd_sleep f ec NoTimeout) ->
  Forall (fun a => a <> ActSpurious (TApp n)) l -> run c l = Some c' ->
  apps c' !! n = Some (A_sd_sleep f ec NoTimeout).
Proof.
  intros Hr Hw Hn Hl H.
  apply (run_preserves (fun c1 => reader c1 = R_exit /\ writer c1 = W_exit
    /\ apps c1 !! n = Some (A_sd_sleep f ec NoTimeout)) (fun a => a <> ActSpurious (TApp n)) c l c'); try done.
  intros c1 a c2 H1 Ha Hs. by eapply done_sleep_step.
Qed.

(** C40 (stuck_threads).  Three waits of a connection that no other thread ends, in any
    later interleaving without spurious wakeups.  A reader that waits for room in the
    receive queue waits on: neither [receive] nor [shutdown] notifies [recv_cv_], so
    nothing more arrives and [read_done_] is never set.  A reader that finds the queue
    full after a stop calls [abort_recv] with the mutex that function takes: it does not
    proceed, and neither does a [receive] that needs the mutex.  A [shutdown] without
    timeout that tested its flag just before both threads ended sleeps on although the
    flag is set, since [done_cv_] is notified without [done_mu_]. *)
Theorem stuck_threads c l c' :
  (forall p, reader c = R_text_wait p -> Forall (fun a => a <> ActSpurious TReader) l -> run c l = Some c' ->
     reader c' = R_text_wait p /\ h_arrived (hist c') = h_arrived (hist c) /\ read_done (flg c') = read_done (flg c))
  /\ (forall p, reader c = R_text_locked p -> stop_send (sends c) = true ->
     f_receive_queue_depth (cfg c) <= to_int (zlen (recv_q (recvs c))) -> run c (ActReader :: l) = Some c' ->
     reader c' = R_abort (make_error_code Errc.closed) [recv_mu; send_mu] /\ reader_step c' = None
     /\ forall n t, apps c !! n = Some (A_recv_lock t) -> apps c' !! n = Some (A_recv_lock t))
  /\ (forall n f ec, reader c = R_exit -> writer c = W_exit -> apps c !! n = Some (A_sd_sleep f ec NoTimeout) ->
     Forall (fun a => a <> ActSpurious (TApp n)) l -> run c l = Some c' ->
     apps c' !! n = Some (A_sd_sleep f ec NoTimeout)).
Proof. split_and!; intros; [by eapply receive_stall|by eapply reader_self_deadlock|by eapply done_wakeup_lost]. Qed.

End Live.

Section Flush.
Context {Str R : Type} {BS : ByteStream Str} {Spec : StreamSpec Str}.
Context {Rng : Drbg_api R} {RngL : DrbgLaws R} {G : Gcm} {GL : GcmLaws}.

(** A write failed: everything queued before its message is on the wire, and then at
    most the beginning of a record of it. *)
Definition cut_off (se : session) (out0 : bytes) (o : Outbound) (c : conn Str R) : Prop :=
  wire_cut se out0 (h_written (hist c)) o (outgoing (strm c))
  /\ (h_queued (hist c) = h_written (hist c) ++ o :: send_q (sends c)
      \/ o = close_msg /\ h_queued (hist c) = h_written (hist c) /\ send_q (sends c) = []).


End Flush.

(** ** Witnesses *)

Import Toy.

Definition demo1 (input : bytes) (l : list action) : conn mem_stream toy_drbg :=
  Demo.after (Demo.config 1 1 None) input l.

(** Two calls of [shutdown]; the second loses. *)
Definition two_shutdowns : list action :=
  [ActCall (CallShutdown NoTimeout); ActCall (CallShutdown NoTimeout); ActApp 0; ActApp 1].

Lemma shutdown_protocol_witness :
  apps (demo1 [] two_shutdowns) = [A_sd_closed NoTimeout; A_ret_shutdown (make_error_code Errc.closed)]
  /\ (winners (apps (demo1 [] two_shutdowns)) <= 1)%nat.
Proof.
  split; [vm_compute; reflexivity|].
  apply (shutdown_protocol (MemStream [] [] false) (SealRng false (ToyDrbg 7 true)) toy_session
    (Demo.config 1 1 None)).
  exists two_shutdowns. vm_compute. reflexivity.
Defined.

(** A sender waits: the queue is full. *)
Definition full_queue : list action :=
  [ActCall (CallSend [Byte.x61] NoTimeout); ActCall (CallSend [Byte.x62] NoTimeout);
   ActApp 0; ActApp 0; ActApp 1; ActApp 1].

Lemma no_lost_wakeup_witness :
  let c := demo1 [] full_queue in
  any is_send_wait (apps c) = true
  /\ (stop_send (sends c) = false /\ has_space (send_q (sends c)) (f_send_queue_depth (cfg c)) = false
      \/ stop_send (sends c) = true /\ any is_send_notify (apps c) = true).
Proof.
  split; [vm_compute; reflexivity|].
  apply (no_lost_wakeup (MemStream [] [] false) (SealRng false (ToyDrbg 7 true)) toy_session
    (Demo.config 1 1 None) (demo1 [] full_queue)).
  - exists full_queue. vm_compute. reflexivity.
  - left. vm_compute. reflexivity.
Defined.

Definition two_texts : bytes :=
  Demo.peer_record 1 (MkOutbound kMsgText [Byte.x61]) ++ Demo.peer_record 2 (MkOutbound kMsgText [Byte.x62]).

Definition receive_one (n : nat) : list action :=
  [ActCall (CallReceive NoTimeout); ActApp n; ActApp n].

(** The second text finds the queue full; [receive] then empties it and [shutdown]
    runs until it waits for the reader. *)
Definition fill_receive : list action :=
  [ActReader; ActReader; ActReader; ActReader; ActReader].
Definition drain_and_shutdown : list action :=
  receive_one 0 ++
  [ActCall (CallShutdown NoTimeout); ActApp 1; ActApp 1; ActApp 1; ActApp 1;
   ActWriter; ActWriter; ActWriter; ActWriter; ActWriter;
   ActApp 1; ActApp 1; ActApp 1; ActApp 1; ActApp 1; ActApp 1].

(** The second text is read after [shutdown] has set [stop_send_]. *)
Definition stop_then_text : list action :=
  [ActReader; ActReader; ActReader; ActCall (CallShutdown NoTimeout); ActApp 0; ActApp 0; ActApp 0;
   ActReader; ActReader; ActCall (CallReceive NoTimeout); ActApp 1].

(** Both threads finish between the test and the wait of [wait_flag(read_done_)]. *)
Definition lose_done : list action :=
  [ActCall (CallShutdown NoTimeout); ActApp 0; ActApp 0; ActApp 0; ActApp 0;
   ActWriter; ActWriter; ActWriter; ActWriter; ActWriter;
   ActApp 0; ActApp 0; ActApp 0; ActApp 0; ActApp 0;
   ActReader; ActReader; ActReader; ActReader; ActApp 0].

Lemma stuck_threads_witness :
  (let c := demo1 two_texts fill_receive in
   let c' := default c (run c drain_and_shutdown) in
   recv_q (recvs c') = [] /\ apps c' !! 1%nat = Some (A_sd_sleep ReadDone ec_none NoTimeout)
   /\ reader c' = R_text_wait [Byte.x62] /\ h_arrived (hist c') = h_arrived (hist c)
   /\ read_done (flg c') = read_done (flg c))
  /\ (let c := demo1 two_texts stop_then_text in
      let c' := default c (run c [ActReader; ActApp 0]) in
      reader c' = R_abort (make_error_code Errc.closed) [recv_mu; send_mu] /\ reader_step c' = None
      /\ forall n t, apps c !! n = Some (A_recv_lock t) -> apps c' !! n = Some (A_recv_lock t))
  /\ (let c := demo1 [] lose_done in
      let c' := default c (run c [ActCall (CallReceive NoTimeout); ActApp 1]) in
      read_done (flg c) = true /\ apps c' !! 0%nat = Some (A_sd_sleep ReadDone ec_none NoTimeout)).
Proof.
  split; [|split].
  - split; [vm_compute; reflexivity|]. split; [vm_compute; reflexivity|].
    apply (stuck_threads (demo1 two_texts fill_receive) drain_and_shutdown);
      [vm_compute; reflexivity|repeat constructor; discriminate|vm_compute; reflexivity].
  - apply (stuck_threads (demo1 two_texts stop_then_text) [ActApp 0]) with [Byte.x62];
      [vm_compute; reflexivity|vm_compute; reflexivity|vm_compute; discriminate|vm_compute; reflexivity].
  - split; [vm_compute; reflexivity|].
    apply (stuck_threads (demo1 [] lose_done) [ActCall (CallReceive NoTimeout); ActApp 1]);
      [vm_compute; reflexivity|vm_compute; reflexivity|vm_compute; reflexivity|repeat constructor; discriminate|vm_compute; reflexivity].
Defined.

(** Stopped and notified with one message queued. *)
Definition stop_with_queue : list action :=
  [ActCall (CallSend [Byte.x61] NoTimeout); ActApp 0; ActApp 0;
   ActCall (CallShutdown NoTimeout); ActApp 1; ActApp 1; ActApp 1; ActApp 1].

