(* ===== verification/ConnApi.v ===== *)
(** * ConnApi

    The public face of a connection: the overloads of [Conn] that throw
    ([src/conn.cpp], [include/cpptcpduplex/conn.hpp]), the errors each call can end
    with, what the joins of the destructor wait for, and what the threads hold: the class
    invariant of the members and the progress of the mutexes. *)

From S2P Require Import Prelude Errors Stream Protocol Crypto Session Config Conn ConnInv ConnLive.

(** ** The overloads *)

(** The public calls; [_ec] marks the overloads that report through an error code. *)
Inductive api :=
  | send (p : bytes) | send_ec (p : bytes) | send_for (p : bytes) (t : timeout)
  | receive | receive_ec | receive_for (t : timeout)
  | close | shutdown (t : timeout) | shutdown_ec (t : timeout).

(** What they forward to. *)
Definition forward (k : api) : call :=
  match k with
  | send p | send_ec p => CallSend p NoTimeout
  | send_for p t => CallSend p t
  | receive | receive_ec => CallReceive NoTimeout
  | receive_for t => CallReceive t
  | close => CallShutdown NoTimeout
  | shutdown t | shutdown_ec t => CallShutdown t
  end.

(** How a call ends: an exception, or a value with the error code of the overloads
    that have one. *)
Inductive outcome :=
  | Throw (e : Error)
  | Return (msg : bytes) (ec : error_code).

Section Api.
Variable os_message : Z -> string.

(** [if (ec) throw Error(op, ec);] *)
Definition throw_if (op : string) (ec : error_code) (msg : bytes) : outcome :=
  if ec_bool ec then Throw (Error_of_code os_message op ec) else Return msg ec_none.

(** [if (ec && ec != errc::closed) throw Error(op, ec);] *)
Definition throw_unless_closed (op : string) (ec : error_code) : outcome :=
  if ec_bool ec && negb (ec_eqb ec (make_error_code Errc.closed))
  then Throw (Error_of_code os_message op ec) else Return [] ec_none.

(** The end of a call at a return of the function it forwards to. *)
Definition finish (k : api) (a : apc) : option outcome :=
  match k, a with
  | send _, A_ret_send ec => Some (throw_if "send" ec [])
  | send_ec _, A_ret_send ec | send_for _ _, A_ret_send ec => Some (Return [] ec)
  | receive, A_ret_recv ec m => Some (throw_if "receive" ec m)
  | receive_ec, A_ret_recv ec m | receive_for _, A_ret_recv ec m => Some (Return m ec)
  | close, A_ret_shutdown ec => Some (throw_unless_closed "close" ec)
  | shutdown _, A_ret_shutdown ec => Some (throw_unless_closed "shutdown" ec)
  | shutdown_ec _, A_ret_shutdown ec => Some (Return [] ec)
  | _, _ => None
  end.

End Api.

(** ** The errors of a call *)

Section Errors.
Context {Str R : Type} {BS : ByteStream Str} {Rng : Drbg_api R} {G : Gcm}.
Implicit Types c : conn Str R.

Definition timed_out_after (t : timeout) (ec : error_code) : Prop :=
  ec = make_error_code Errc.timed_out /\ exists ms, t = Millis ms.

(** Where a call can be, and with which error it can be about to end. *)
Definition call_at (k : call) (a : apc) : Prop :=
  match k, a with
  | CallSend p t, A_send p' t' => p' = p /\ t' = t
  | CallSend p t, A_send_lock o t' | CallSend p t, A_send_wait o t' => o = MkOutbound kMsgText p /\ t' = t
  | CallSend p t, A_ret_send ec =>
      ec = ec_none \/ ec = make_error_code Errc.closed \/ ec = make_error_code Errc.message_too_large
      \/ timed_out_after t ec
  | CallReceive t, A_recv t' | CallReceive t, A_recv_lock t' | CallReceive t, A_recv_wait t' => t' = t
  | CallReceive t, A_ret_recv ec m => ec = ec_none \/ ec_bool ec = true /\ m = []
  | CallShutdown t, A_shutdown t' | CallShutdown t, A_sd_closed t' | CallShutdown t, A_sd_stop t'
  | CallShutdown t, A_sd_notify t' => t' = t
  | CallShutdown t, A_sd_check _ ec t' | CallShutdown t, A_sd_block _ ec t' | CallShutdown t, A_sd_sleep _ ec t'
  | CallShutdown t, A_sd_jobs ec t' | CallShutdown t, A_sd_jobs_notify ec t' | CallShutdown t, A_sd_sock ec t' =>
      t' = t /\ (ec = ec_none \/ timed_out_after t ec)
  | CallShutdown t, A_ret_shutdown ec =>
      ec = ec_none \/ ec = make_error_code Errc.closed \/ timed_out_after t ec
  | _, _ => False
  end.

Lemma call_at_wake k a :
  call_at k a -> call_at k (wake_app_send a) /\ call_at k (wake_app_recv a) /\ call_at k (wake_app_done a).
Proof. destruct k, a; cbn; auto. Qed.

Lemma call_at_after_wait t f ec r t' :
  call_at (CallShutdown t) (A_sd_check f ec t') -> r = ec_none \/ timed_out_after t r ->
  call_at (CallShutdown t) (after_wait f ec r t').
Proof. destruct f; cbn; [by intros [-> _]|]. intros [_ [->|H]] Hr; cbn; [naive_solver|]. destruct (ec_bool ec); naive_solver. Qed.

(** The [n]-th call is still such a call. *)
Notation kept k := (call_point (call_at k)).

Ltac solve_kept H :=
  repeat first
    [ exact H
    | apply call_point_fmap; [by intros; apply call_at_wake|]
    | apply call_point_app
    | apply call_point_insert; [|intros <-] ].

Lemma call_at_step k n c a c' : kept k n (apps c) -> step c a = Some c' -> kept k n (apps c').
Proof.
  intros K H. assert (K' := K). destruct K' as (x & Hx & Hk).
  destruct a; step_cases H; frame_write; cbn [apps]; solve_kept K.
  all: try match goal with E : apps _ !! _ = Some _ |- _ => rewrite Hx in E; injection E as -> end.
  all: try (by do 3 apply call_at_wake).
  all: try match goal with |- call_at ?k (after_wait _ _ _ _) =>
    destruct k as [| |t1]; [by destruct Hk..|]; apply call_at_after_wait; [exact Hk|]; destruct Hk as [<- _];
    first [by left | right; split; [done|by eexists]] end.
  all: destruct k; cbn in Hk; try done; destruct_and?; subst; cbn; auto.
  do 3 right. split; [done|by eexists].
Qed.

(** The [n]-th call after it was made. *)
Lemma call_at_run k c c' l n :
  n = length (apps c) -> run c (ActCall k :: l) = Some c' -> kept k n (apps c').
Proof.
  intros -> H. cbn in H. revert H. apply (run_invariant (fun x => kept k (length (apps c)) (apps x))); [intros; by eapply call_at_step|].
  exists (start_call k). cbn. rewrite lookup_app_r, Nat.sub_diag by lia. split; [done|]. by destruct k.
Qed.

End Errors.

(** C27 (api_errors).  The errors of the public calls, in every interleaving after the
    call: [send] throws only [closed] or [message_too_large], and the overloads with an
    error code report nothing else without a timeout; a time-out is only reported by
    calls that have one; a [receive] that fails returns no message; [close] never
    throws, and [shutdown] throws nothing but a time-out. *)
Theorem api_errors {Str R : Type} `{BS : ByteStream Str} `{Rng : Drbg_api R} `{G : Gcm} (os_message : Z -> string)
    (k : api) (c c' : conn Str R) (l : list action) (a : apc) (out : outcome) :
  run c (ActCall (forward k) :: l) = Some c' -> apps c' !! length (apps c) = Some a ->
  finish os_message k a = Some out ->
  match k, out with
  | send _, Return _ ec => ec = ec_none
  | send _, Throw e => code_ e = make_error_code Errc.closed \/ code_ e = make_error_code Errc.message_too_large
  | send_ec _, Return _ ec =>
      ec = ec_none \/ ec = make_error_code Errc.closed \/ ec = make_error_code Errc.message_too_large
  | send_for _ t, Return _ ec =>
      ec = ec_none \/ ec = make_error_code Errc.closed \/ ec = make_error_code Errc.message_too_large
      \/ timed_out_after t ec
  | receive, Throw e => ec_bool (code_ e) = true
  | receive_ec, Return m ec | receive_for _, Return m ec => ec = ec_none \/ ec_bool ec = true /\ m = []
  | shutdown t, Throw e => timed_out_after t (code_ e)
  | shutdown_ec t, Return _ ec => ec = ec_none \/ ec = make_error_code Errc.closed \/ timed_out_after t ec
  | receive, Return _ _ | close, Return _ _ | shutdown _, Return _ _ => True
  | _, _ => False
  end.
Proof.
  intros Hrun Ha Hf. destruct (call_at_run _ _ _ _ _ eq_refl Hrun) as (y & Hy & Hk).
  rewrite Ha in Hy. injection Hy as <-.
  destruct k, a; try done; cbn in Hf, Hk; injection Hf as <-; unfold throw_if, throw_unless_closed.
  all: try exact Hk.
  all: try (destruct Hk as [->|[->|[->|[-> [ms Hms]]]]]; cbn; auto; done).
  all: try (destruct Hk as [->|[->|Hk]]; cbn; [done|done|]; assert (Ht := Hk); destruct Ht as [-> [ms Hms]]; by cbn).
  all: try (destruct Hk as [->|[He ->]]; cbn; auto; rewrite ?He; by auto).
Qed.

(** ** The destructor *)

Section Destructor.
Context {Str R : Type} {BS : ByteStream Str} {Rng : Drbg_api R} {G : Gcm}.
Implicit Types c : conn Str R.

(** What the joins of [~Conn] wait for: the reader, the writer and, if it runs, the
    deliver thread have ended. *)
Definition joined c : Prop :=
  reader c = R_exit /\ writer c = W_exit /\ (deliver c = D_exit \/ deliver c = D_none).

Lemma joined_step c a c' : joined c -> step c a = Some c' -> joined c'.
Proof.
  intros (Hr & Hw & Hd) H. unfold joined.
  destruct a; step_cases H; frame_write; try done; try (destruct Hd; congruence).
  all: rewrite ?Hr, ?Hw; split_and!; try done; destruct Hd as [-> | ->]; auto.
Qed.

End Destructor.

(** ** The class invariant *)

Section Typed.
Context {Str R : Type} {BS : ByteStream Str} {Rng : Drbg_api R} {G : Gcm}.
Implicit Types c : conn Str R.

(** Messages that passed the size test, and replies. *)
Definition out_ok (f : FrozenConfig) (o : Outbound) : Prop :=
  typ o = kMsgText /\ to_int (zlen (pt o)) <= f_max_message_bytes f \/ typ o = kMsgPong.

Definition app_typed (f : FrozenConfig) (a : apc) : Prop :=
  match a with
  | A_send_lock o _ | A_send_wait o _ => typ o = kMsgText /\ to_int (zlen (pt o)) <= f_max_message_bytes f
  | A_ret_recv ec _ => f_on_message f <> None -> ec_bool ec = true
  | A_recv_lock _ | A_recv_wait _ => f_on_message f = None
  | _ => True
  end.

(** The texts in the reader's hand passed its size test. *)
Definition reader_typed (f : FrozenConfig) (r : rpc) : Prop :=
  match r with
  | R_text p => to_int (zlen p) <= f_max_message_bytes f
  | R_text_wait p | R_text_locked p => to_int (zlen p) <= f_max_message_bytes f /\ f_on_message f = None
  | R_abort _ held | R_store held | R_notify held =>
      held = [] \/ held = [jobs_mu] \/ held = [send_mu] \/ held = [recv_mu; send_mu]
  | _ => True
  end.

Record typed (se : session) (f : FrozenConfig) c : Prop := {
  ty_cfg : cfg c = f;
  ty_sess : sess c = se;
  ty_queue : Forall (out_ok f) (send_q (sends c));
  ty_recv : Forall (fun p => to_int (zlen p) <= f_max_message_bytes f) (recv_q (recvs c));
  ty_recv_none : f_on_message f <> None -> recv_q (recvs c) = [];
  ty_jobs : Forall (fun p => to_int (zlen p) <= f_max_message_bytes f) (msg_jobs (jobs c));
  ty_jobs_none : f_on_message f = None -> msg_jobs (jobs c) = [];
  ty_dropped : 0 <= callback_dropped (jobs c) < 2 ^ 64;
  ty_deliver : deliver c = D_none <-> f_on_message f = None;
  ty_reader : reader_typed f (reader c);
  ty_apps : Forall (app_typed f) (apps c)
}.

Lemma typed_new s r se f : typed se f (Conn_new s r se f).
Proof. split; cbn; try done. case_bool_decide as Hf; destruct (f_on_message f); try done; naive_solver. Qed.

Lemma app_typed_wake f a :
  app_typed f a -> app_typed f (wake_app_send a) /\ app_typed f (wake_app_recv a) /\ app_typed f (wake_app_done a).
Proof. destruct a; cbn; auto. Qed.

Lemma reader_typed_wake f r :
  reader_typed f r -> reader_typed f (wake_reader_send r) /\ reader_typed f (wake_reader_recv r).
Proof. destruct r; cbn; naive_solver. Qed.

Lemma on_message_set_true c : on_message_set c = true -> f_on_message (cfg c) <> None.
Proof. unfold on_message_set. intros H. by bool_to_prop. Qed.
Lemma on_message_set_false c : on_message_set c = false -> f_on_message (cfg c) = None.
Proof. unfold on_message_set. intros H. bool_to_prop. by destruct (f_on_message (cfg c)); [destruct H|]. Qed.

Lemma wake_deliver_none d : wake_deliver d = D_none <-> d = D_none.
Proof. by destruct d. Qed.

Lemma apps_wake f (g : apc -> apc) l :
  (forall a, app_typed f a -> app_typed f (g a)) -> Forall (app_typed f) l -> Forall (app_typed f) (g <$> l).
Proof. intros Hg Hl. apply Forall_fmap. eapply Forall_impl; [exact Hl|]. apply Hg. Qed.

(** The list of calls: one call moved, or all were woken. *)
Ltac solve_typed_apps T :=
  repeat first
    [ exact T
    | apply apps_wake; [by intros; apply app_typed_wake|]
    | apply Forall_insert
    | apply Forall_app; split; [|apply Forall_singleton] ].

(** Use what the class invariant says of the thread that moves. *)
Ltac use_typed T9 T10 T11 :=
  repeat match goal with
  | E : on_message_set _ = true |- _ => apply on_message_set_true in E
  | E : on_message_set _ = false |- _ => apply on_message_set_false in E
  | E : apps _ !! _ = Some _ |- _ => apply (Forall_lookup_1 _ _ _ _ T11) in E; cbn in E
  | E : reader _ = _ |- _ => rewrite E in T10; cbn in T10; clear E
  | E : deliver _ = _ |- _ => rewrite E in T9; clear E
  end.

Lemma typed_step se f c a c' : life c -> typed se f c -> step c a = Some c' -> typed se f c'.
Proof.
  intros L T H. assert (Le := lf_rerr _ L).
  destruct a; step_cases H; frame_write; destruct T as [<- <- T3 T4 T5 T6 T7 T8 T9 T10 T11]; clear L.
  all: split; cbn; try done.
  all: try (solve_typed_apps T11).
  all: try (by apply reader_typed_wake, T10). all: try (by apply reader_typed_wake, reader_typed_wake, T10).
  all: try (rewrite wake_deliver_none; exact T9).
  all: use_typed T9 T10 T11; bool_to_prop.
  all: try tauto.
  all: try match goal with E : send_q _ = _ :: _ |- _ => rewrite E in T3; by inversion T3 end.
  all: try match goal with E : recv_q _ = _ :: _ |- _ => rewrite E in T4, T5; first [by inversion T4 | intros X; by apply T5 in X] end.
  all: try match goal with E : msg_jobs _ = _ :: _ |- _ => rewrite E in T6, T7; first [by inversion T6 | intros X; by apply T7 in X] end.
  all: try (apply Forall_app; split; [done|apply Forall_singleton]; first [tauto | by right | by left]).
  all: try (by do 3 apply app_typed_wake). all: try (by destruct f0). all: try (by destruct k).
  all: try (split; [done|]; intros X; by apply T9 in X).
  all: try (intros X; by first [apply T7 in X | apply T9 in X]).
  all: cbn; try (by right). all: try (by left). all: try done. all: try tauto. all: try (intros _; by auto).
  apply Z.mod_pos_bound. lia.
Qed.

Lemma typed_reachable s r se f c : reachable s r se f c -> typed se f c.
Proof.
  intros Hr. assert (H : life c /\ typed se f c); [|apply H].
  revert Hr. apply (reachable_invariant (fun c => life c /\ typed se f c)).
  - split; [|apply typed_new]. eapply life_reachable. by exists [].
  - intros c1 a c2 [H1 H2] Hs. split; [by eapply life_step|by eapply typed_step].
Qed.

(** C26 (conn_typed).  The class invariant, in every reachable state: the configuration
    and the session never change; only texts within the size test and replies to pings
    are in the send queue; the receive queue and the callback queue hold texts within
    the size test, the first only without a callback and the second only with one; the
    deliver thread exists exactly when a callback is set; the drop counter is a 64-bit
    number; the reader holds at most the mutexes its program point takes; and with a
    callback every [receive] fails. *)
Theorem conn_typed (s : Str) (r : seal_rng R) (se : session) (f : FrozenConfig) c :
  reachable s r se f c -> typed se f c.
Proof. apply typed_reachable. Qed.

(** Mutexes are not held for ever: whenever the reader holds one, at
    most three of its own steps, which nothing can block, release all it holds; the only
    exception is the state in which it has locked [recv_mu_] and calls [abort_recv],
    which it is in or enters with its next step. *)
Theorem lock_progress (s : Str) (r : seal_rng R) (se : session) (f : FrozenConfig) c :
  reachable s r se f c -> reader_holds (reader c) <> [] ->
  (exists k c', (k <= 3)%nat /\ run c (replicate k ActReader) = Some c' /\ reader_holds (reader c') = [])
  \/ (exists k c' e, (k <= 1)%nat /\ run c (replicate k ActReader) = Some c'
        /\ reader c' = R_abort e [recv_mu; send_mu]).
Proof.
  intros Hr Hh. pose proof (ty_reader _ _ _ (typed_reachable _ _ _ _ _ Hr)) as Ht.
  assert (Habort : forall x e held, reader x = R_abort e held -> held = [jobs_mu] \/ held = [send_mu] ->
    exists c', run x (replicate 3 ActReader) = Some c' /\ reader_holds (reader c') = []).
  { intros x e held Hx Hheld. cbn [replicate run step]. unfold reader_step at 1. rewrite Hx.
    assert (mutex_free recv_mu x = true) as -> by (unfold mutex_free; rewrite Hx; by destruct Hheld as [-> | ->]).
    cbn. by eexists. }
  destruct (reader c) as [|p|p|p|p|p|e held|held|held|] eqn:Er; cbn in Hh, Ht; try done.
  - assert (Hone : run c [ActReader] = Some (text_locked p c)).
    { cbn [run step]. unfold reader_step. rewrite Er. unfold mutex_free. by rewrite Er. }
    destruct (stop_send (sends c) && (to_int (zlen (recv_q (recvs c))) >=? f_receive_queue_depth (cfg c))) eqn:E.
    + right. exists 1%nat, (text_locked p c). eexists. split_and!; [lia|exact Hone|].
      unfold text_locked. by rewrite E.
    + left. exists 1%nat, (text_locked p c). split_and!; [lia|exact Hone|].
      unfold text_locked. rewrite E. by destruct (negb _).
  - destruct Ht as [->|[->|[->| ->]]]; [done|..].
    1, 2: left; destruct (Habort c e _ Er) as (c' & H1 & H2); [by auto|]; exists 3%nat, c'; by split_and!.
    right. exists 0%nat, c, e. split_and!; [lia|done|done].
  - left. exists 2%nat. eexists. cbn [replicate run step]. unfold reader_step at 1. rewrite Er. cbn. by split_and!; [lia|..].
  - left. exists 1%nat. eexists. cbn [replicate run step]. unfold reader_step at 1. rewrite Er. by split_and!; [lia|..].
Qed.

End Typed.

(** ** Message sizes *)

Section Sizes.
Context {Str R : Type} {BS : ByteStream Str} {Rng : Drbg_api R} {G : Gcm}.
Implicit Types c : conn Str R.

(** What [send] does with a payload, before it takes the mutex. *)
Definition accepts (p : bytes) (t : timeout) n c : Prop :=
  app_step n c = Some (go_app n (A_send_lock (MkOutbound kMsgText p) t) c).
Definition refuses (n : nat) c : Prop :=
  app_step n c = Some (go_app n (A_ret_send (make_error_code Errc.message_too_large)) c).

(** A message no record can carry: the writer gives up and writes nothing. *)
Lemma write_oversize o c :
  max_plaintext < zlen (pt o) -> exists rg, conn_write o c = (set_io (strm c) rg c, false).
Proof.
  intros Hs. assert (E : seal (sess c) (pt o) (rng c) = (rng c, inl (make_error_code Errc.bad_frame))).
  { unfold seal. rewrite seal_guard. by guard_true (max_plaintext <? zlen (pt o)). }
  unfold conn_write, write_out. destruct (sock_valid c); rewrite E; by eexists.
Qed.

(** C28 (message_sizes).  The size test of [send] is exact below 2 GiB and lets every
    payload from 2 GiB to 4 GiB pass, because the size is cast to [int]; and nothing ties
    [max_message_bytes] to what a record can carry (1048547 bytes): a longer message that
    [send] accepted is not written, and the writer thread stops after it, so the
    messages queued behind it are not sent either, though every [send] succeeded. *)
Theorem message_sizes (p : bytes) (t : timeout) (n : nat) c :
  apps c !! n = Some (A_send p t) -> closed (flg c) = false -> 0 < f_max_message_bytes (cfg c) ->
  (zlen p < 2 ^ 31 -> if f_max_message_bytes (cfg c) <? zlen p then refuses n c else accepts p t n c)
  /\ (2 ^ 31 <= zlen p < 2 ^ 32 -> accepts p t n c)
  /\ (1048547 < zlen p -> forall c1, writer c1 = W_send (MkOutbound kMsgText p) ->
       exists c2, writer_step c1 = Some c2 /\ writer c2 = W_store
         /\ strm c2 = strm c1 /\ hist c2 = hist c1 /\ send_q (sends c2) = send_q (sends c1)).
Proof.
  intros Hn Hc Hm. split_and!.
  - intros Hp. pose proof (zlen_nonneg p). unfold refuses, accepts, app_step. rewrite Hn, Hc.
    rewrite to_int_small by (unfold is_int; lia). rewrite Z.gtb_ltb. by destruct (_ <? _).
  - intros Hp. unfold accepts, app_step. rewrite Hn, Hc.
    assert (Hneg : to_int (zlen p) < 0).
    { unfold to_int. replace (zlen p + 2 ^ 31) with (zlen p - 2 ^ 31 + 1 * 2 ^ 32) by lia.
      rewrite Z.mod_add, Z.mod_small by lia. lia. }
    by guard_false (to_int (zlen p) >? f_max_message_bytes (cfg c)).
  - intros Hp c1 Hw. unfold writer_step. rewrite Hw.
    destruct (write_oversize (MkOutbound kMsgText p) c1 Hp) as [rg ->]. eexists. by split_and!.
Qed.

End Sizes.

(** ** Witnesses *)

Import Toy.

(** A [send] on a connection that is shutting down. *)
Definition after_shutdown : list action := [ActCall (CallShutdown NoTimeout); ActApp 0; ActApp 0].

Lemma api_errors_witness :
  let c := demo1 [] after_shutdown in
  let e := Error_of_code (fun _ => ""%string) "send" (make_error_code Errc.closed) in
  finish (fun _ => ""%string) (send [Byte.x61]) (A_ret_send (make_error_code Errc.closed)) = Some (Throw e)
  /\ (code_ e = make_error_code Errc.closed \/ code_ e = make_error_code Errc.message_too_large).
Proof.
  split; [reflexivity|].
  apply (api_errors (fun _ => ""%string) (send [Byte.x61]) (demo1 [] after_shutdown)
    (default (demo1 [] after_shutdown) (run (demo1 [] after_shutdown) [ActCall (forward (send [Byte.x61])); ActApp 1]))
    [ActApp 1] (A_ret_send (make_error_code Errc.closed))
    (Throw (Error_of_code (fun _ => ""%string) "send" (make_error_code Errc.closed)))); vm_compute; reflexivity.
Defined.

Lemma conn_typed_witness :
  let c := demo1 two_texts fill_receive in
  recv_q (recvs c) = [[Byte.x61]] /\ typed toy_session (Demo.config 1 1 None) c.
Proof.
  split; [vm_compute; reflexivity|].
  apply (conn_typed (MemStream two_texts [] false) (SealRng false (ToyDrbg 7 true)) toy_session (Demo.config 1 1 None)).
  exists fill_receive. vm_compute. reflexivity.
Defined.

(** A connection whose [max_message_bytes] is 2 MiB, and a message of 1048548 bytes. *)
Definition large_config : FrozenConfig :=
  MkFrozenConfig 30000 15000 1 2097152 1 1 None 1 false (handshake default_config).
Definition large : bytes := replicate (Z.to_nat 1048548) Byte.x61.

Lemma zlen_large : zlen large = 1048548.
Proof. unfold zlen, large. rewrite length_replicate. lia. Qed.

Lemma message_sizes_witness :
  let c := set_threads R_read (W_send (MkOutbound kMsgText large)) D_none [A_send large NoTimeout]
             (Demo.start large_config []) in
  accepts large NoTimeout 0 c
  /\ exists c2, writer_step c = Some c2 /\ writer c2 = W_store
       /\ strm c2 = strm c /\ hist c2 = hist c /\ send_q (sends c2) = send_q (sends c).
Proof.
  intros c. destruct (message_sizes large NoTimeout 0 c eq_refl eq_refl ltac:(cbn; lia)) as (H1 & _ & H3).
  rewrite zlen_large in H1, H3. split; [exact (H1 ltac:(lia))|]. apply H3; [lia|reflexivity].
Defined.
