(* ===== verification/ConnTimed.v ===== *)
(** * ConnTimed

    The calls of a connection that have a timeout ([send_for], [receive_for] and
    [shutdown] with a wait, [src/conn.cpp]): they end by their own steps, whatever the
    other threads, the peer and the queues do, unless the reader has locked itself out. *)

From S2P Require Import Prelude Errors Stream Protocol Crypto Session Config Conn ConnInv ConnApi.

Definition timeout_of (k : call) : timeout :=
  match k with CallSend _ t | CallReceive t | CallShutdown t => t end.

Definition returned (a : apc) : bool :=
  match a with A_ret_send _ | A_ret_recv _ _ | A_ret_shutdown _ => true | _ => false end.

(** The steps a call with a timeout has before it at most, when each wait times out. *)
Definition steps_left (a : apc) : nat :=
  match a with
  | A_send _ _ | A_recv _ => 3
  | A_send_lock _ _ | A_recv_lock _ => 2
  | A_send_wait _ _ | A_recv_wait _ => 1
  | A_shutdown _ => 13
  | A_sd_closed _ => 12
  | A_sd_stop _ => 11
  | A_sd_notify _ => 10
  | A_sd_check WriteDone _ _ => 9
  | A_sd_block WriteDone _ _ => 8
  | A_sd_sleep WriteDone _ _ => 7
  | A_sd_jobs _ _ => 6
  | A_sd_jobs_notify _ _ => 5
  | A_sd_sock _ _ => 4
  | A_sd_check ReadDone _ _ => 3
  | A_sd_block ReadDone _ _ => 2
  | A_sd_sleep ReadDone _ _ => 1
  | A_ret_send _ | A_ret_recv _ _ | A_ret_shutdown _ => 0
  end.

(** The steps of the [n]-th call. *)
Definition own (n : nat) (a : action) : Prop := a = ActApp n \/ a = ActTimeout n.

Section Timed.
Context {Str R : Type} {BS : ByteStream Str} {Rng : Drbg_api R} {G : Gcm}.
Implicit Types c : conn Str R.

Lemma steps_left_bound a : (steps_left a <= 13)%nat.
Proof. destruct a; cbn; try case_match; lia. Qed.

Lemma wake_reader_holds r : reader_holds (wake_reader_send r) = reader_holds r.
Proof. by destruct r. Qed.

Lemma point_insert (P : apc -> Prop) n b (l : list apc) : (n < length l)%nat -> P b -> call_point P n (<[n := b]> l).
Proof. intros Hn Hb. exists b. by rewrite list_lookup_insert_eq. Qed.

Lemma point_wake (P : apc -> Prop) n b (f : apc -> apc) (l : list apc) :
  (n < length l)%nat -> P (f b) -> call_point P n (f <$> <[n := b]> l).
Proof. intros Hn Hb. exists (f b). by rewrite list_lookup_fmap, list_lookup_insert_eq. Qed.

(** With the mutexes free, a call with a timeout has a step of its own that brings it
    nearer to its end and leaves them free. *)
Lemma own_step k ms n a c :
  timeout_of k = Millis ms -> call_at k a -> apps c !! n = Some a -> returned a = false ->
  reader_holds (reader c) = [] ->
  exists x c', own n x /\ step c x = Some c' /\ reader_holds (reader c') = []
    /\ call_point (fun b => steps_left b < steps_left a)%nat n (apps c').
Proof.
  intros Ht Hk Hn Hret Hh. pose proof (lookup_lt_Some _ _ _ Hn) as Hlt.
  assert (Hm : forall m, mutex_free m c = true) by (intros m; unfold mutex_free; by rewrite Hh).
  assert (Hx : exists x c', own n x /\ step c x = Some c' /\ reader_holds (reader c') = reader_holds (reader c)
    /\ call_point (fun b => steps_left b < steps_left a)%nat n (apps c')); [|by rewrite Hh in Hx].
  clear Hh. exists (match a with A_send_wait _ _ | A_recv_wait _ | A_sd_sleep _ _ _ => ActTimeout n | _ => ActApp n end).
  destruct k, a; try done; cbn in Ht, Hk; destruct_and?; subst; cbn [step];
    unfold app_step, timeout_step; rewrite Hn, ?Hm; unfold send_locked, recv_locked; repeat case_match; try done;
    (eexists; split; [first [by left|by right]|]; split; [reflexivity|]; split; [cbn; rewrite ?wake_reader_holds; reflexivity|]).
  all: first [apply point_insert|apply point_wake]; [exact Hlt|]; cbn; try case_match; cbn; lia.
Qed.

Lemma own_run k ms n m a c :
  timeout_of k = Millis ms -> call_point (call_at k) n (apps c) -> apps c !! n = Some a -> (steps_left a <= m)%nat ->
  reader_holds (reader c) = [] ->
  exists l c', Forall (own n) l /\ (length l <= m)%nat /\ run c l = Some c' /\ call_point (fun b => returned b = true) n (apps c').
Proof.
  intros Ht. revert a c. induction m as [m IH] using lt_wf_ind. intros a c Hk Hn Hm Hh.
  destruct (returned a) eqn:Hret; [exists [], c; split_and!; [done|cbn; lia|done|by exists a]|].
  assert (Hka : call_at k a) by (destruct Hk as (a' & ? & ?); by simplify_eq).
  destruct (own_step k ms n a c) as (x & c1 & Hx & Hs & Hh1 & b & Hb & Hlt); [done..|].
  destruct (IH (steps_left b) ltac:(lia) b c1) as (l & c' & Hl & Hlen & Hr & Hret'); [by eapply call_at_step|done..|].
  exists (x :: l), c'. split_and!; [by constructor|cbn; lia|cbn; by rewrite Hs|done].
Qed.

(** C23 (timed_calls_return).  Once a call of [send_for], [receive_for] or [shutdown] with a
    finite timeout has been made, then after any interleaving it can return without the
    help of anybody: at most three steps of the reader, which give up the mutexes it holds,
    and at most thirteen of the call itself, its time-outs included, whatever the queues,
    the peer and the other threads do.  The one exception is a reader that is about to
    lock a mutex it holds. *)
Theorem timed_calls_return (s : Str) (r : seal_rng R) (se : session) (f : FrozenConfig) c (k : call) (ms : Z)
    (l : list action) c1 :
  reachable s r se f c -> timeout_of k = Millis ms -> run c (ActCall k :: l) = Some c1 ->
  let n := length (apps c) in
  (exists i l' c', (i <= 3)%nat /\ (length l' <= 13)%nat /\ Forall (own n) l'
     /\ run c1 (replicate i ActReader ++ l') = Some c' /\ call_point (fun a => returned a = true) n (apps c'))
  \/ (exists i c' e, (i <= 1)%nat /\ run c1 (replicate i ActReader) = Some c' /\ reader c' = R_abort e [recv_mu; send_mu]).
Proof.
  intros Hr Ht Hrun n. pose proof (call_at_run k c c1 l n eq_refl Hrun) as Hk.
  assert (Hr1 : reachable s r se f c1) by (destruct Hr as [l0 Hl0]; exists (l0 ++ ActCall k :: l); by rewrite run_app, Hl0).
  assert (Hfree : (exists i c2, (i <= 3)%nat /\ run c1 (replicate i ActReader) = Some c2 /\ reader_holds (reader c2) = [])
    \/ (exists i c' e, (i <= 1)%nat /\ run c1 (replicate i ActReader) = Some c' /\ reader c' = R_abort e [recv_mu; send_mu])).
  { destruct (reader_holds (reader c1)) as [|m h] eqn:E; [left; exists 0%nat, c1; split_and!; [lia|done..]|].
    apply (lock_progress s r se f); [done|by rewrite E]. }
  destruct Hfree as [(i & c2 & Hi & H2 & Hh)|?]; [left|by right].
  assert (Hk2 : call_point (call_at k) n (apps c2)).
  { revert H2. apply (run_invariant (fun x => call_point (call_at k) n (apps x))); [intros; by eapply call_at_step|done]. }
  pose proof Hk2 as (a & Ha & _). pose proof (steps_left_bound a).
  destruct (own_run k ms n 13 a c2) as (l' & c' & Hl' & Hlen & Hr' & Hret); [done..|].
  exists i, l', c'. split_and!; try done. by rewrite run_app, H2.
Qed.

End Timed.

(** ** Witness *)

Import Toy.

(** The writer has stopped without saying so and the queue is full: a [send] with a
    timeout finds no room. *)
Definition full_start : conn mem_stream toy_drbg :=
  Conn_new (MemStream [] [] true) (SealRng false (ToyDrbg 7 true)) toy_session (Demo.config 1 1 None).
Definition filling : list action :=
  [ActCall (CallSend [Byte.x61] NoTimeout); ActApp 0; ActApp 0; ActWriter; ActWriter; ActWriter; ActWriter;
   ActCall (CallSend [Byte.x62] NoTimeout); ActApp 1; ActApp 1].
Definition filled : conn mem_stream toy_drbg := default full_start (run full_start filling).

Lemma timed_calls_return_witness :
  let k := CallSend [Byte.x63] (Millis 10) in
  let c1 := default filled (run filled [ActCall k; ActApp 2; ActApp 2]) in
  apps c1 !! 2%nat = Some (A_send_wait (MkOutbound kMsgText [Byte.x63]) (Millis 10))
  /\ exists i l' c', (i <= 3)%nat /\ (length l' <= 13)%nat /\ Forall (own 2) l'
     /\ run c1 (replicate i ActReader ++ l') = Some c' /\ call_point (fun a => returned a = true) 2 (apps c').
Proof.
  split; [vm_compute; reflexivity|].
  destruct (timed_calls_return (MemStream [] [] true) (SealRng false (ToyDrbg 7 true)) toy_session (Demo.config 1 1 None)
    filled (CallSend [Byte.x63] (Millis 10)) 10 [ActApp 2; ActApp 2]
    (default filled (run filled [ActCall (CallSend [Byte.x63] (Millis 10)); ActApp 2; ActApp 2])))
    as [H|(i & c' & e & Hi & Hr & He)].
  - exists filling. vm_compute. reflexivity.
  - reflexivity.
  - vm_compute. reflexivity.
  - exact H.
  - exfalso. destruct i as [|[|i]]; [..|lia]; vm_compute in Hr; injection Hr as <-; discriminate He.
Defined.
