(* ===== verification/ConnDestroy.v ===== *)
(** * ConnDestroy

    The destructor of a connection ([src/conn.cpp], [~Conn]) as steps of the thread that
    runs it: [shutdown] with a wait of five seconds, whose result is ignored, then [join]
    on the reader, on the writer and, if it was started, on the deliver thread, while
    those three go on.  As the language asks of whoever destroys an object, no other call
    is in progress and none is made meanwhile. *)

From stdpp Require Import relations.
From S2P Require Import Prelude Errors Stream Protocol Crypto Session Config Conn ConnInv ConnLive ConnApi ConnTimed.

(** ** The destructor's steps *)

Inductive dtor :=
  | Dt_shutdown (n : nat)   (* shutdown(5000ms, ec), the n-th call *)
  | Dt_reader               (* reader_.join() *)
  | Dt_writer               (* writer_.join() *)
  | Dt_deliver              (* deliver_.join() *)
  | Dt_done.

(** Steps of the calls in progress and of the connection's threads; those and spurious
    wakeups; those and spurious wakeups of the other threads. *)
Definition threads_act (a : action) : Prop := match a with ActCall _ | ActSpurious _ => False | _ => True end.
Definition no_call (a : action) : Prop := match a with ActCall _ => False | _ => True end.
Definition reader_waits_on (a : action) : Prop := no_call a /\ a <> ActSpurious TReader.

Section Steps.
Context {Str R : Type} {BS : ByteStream Str} {Rng : Drbg_api R} {G : Gcm}.
Implicit Types c : conn Str R.

(** [join] returns when the thread has ended; [deliver_] is joinable only if the
    constructor started it. *)
Definition dtor_step (d : dtor) c : option dtor :=
  match d with
  | Dt_shutdown n => match apps c !! n with Some (A_ret_shutdown _) => Some Dt_reader | _ => None end
  | Dt_reader => match reader c with R_exit => Some Dt_writer | _ => None end
  | Dt_writer => match writer c with W_exit => Some Dt_deliver | _ => None end
  | Dt_deliver => match deliver c with D_none | D_exit => Some Dt_done | _ => None end
  | Dt_done => None
  end.

Inductive dstep (allowed : action -> Prop) : dtor * conn Str R -> dtor * conn Str R -> Prop :=
  | ds_own d c d' : dtor_step d c = Some d' -> dstep allowed (d, c) (d', c)
  | ds_thread d c a c' : allowed a -> step c a = Some c' -> dstep allowed (d, c) (d, c').

(** Every call has returned. *)
Definition all_over c : Prop := Forall (fun a => returned a = true) (apps c).

(** The destructor's thread enters [shutdown]. *)
Definition destroy c : option (dtor * conn Str R) :=
  match step c (ActCall (CallShutdown (Millis 5000))) with
  | Some c0 => Some (Dt_shutdown (length (apps c)), c0)
  | None => None
  end.

(** The reader waits for room in the receive queue, or has locked itself out. *)
Definition stuck (r : rpc) : Prop :=
  (exists p, r = R_text_wait p) \/ exists e, r = R_abort e [recv_mu; send_mu].

(** ** What stays *)

Lemma over_wake_app a :
  returned a = true -> wake_app_send a = a /\ wake_app_recv a = a /\ wake_app_done a = a.
Proof. by destruct a. Qed.

(** A call that has returned stays so, and only [ActCall] adds one. *)
Lemma calls_step c a c' : step c a = Some c' -> no_call a -> length (apps c') = length (apps c).
Proof. intros H Ha. destruct a; step_cases H; frame_write; cbn; by rewrite ?length_fmap, ?length_insert. Qed.

Lemma returned_step c a c' m x :
  step c a = Some c' -> apps c !! m = Some x -> returned x = true -> call_point (eq x) m (apps c').
Proof.
  intros H Hm Hx. assert (Hp : call_point (eq x) m (apps c)) by by exists x.
  destruct (over_wake_app _ Hx) as (E1 & E2 & E3).
  destruct a; step_cases H; frame_write; cbn.
  all: repeat first
    [ exact Hp
    | apply call_point_fmap; [by intros ? <-|]
    | apply call_point_app
    | apply call_point_insert; [|intros <-] ].
  all: rewrite Hm in *; simplify_eq; try done. by rewrite E1, E2, E3.
Qed.

(** Threads that have ended stay so. *)
Lemma ended_step c a c' : step c a = Some c' ->
  (reader c = R_exit -> reader c' = R_exit) /\ (writer c = W_exit -> writer c' = W_exit)
  /\ (deliver c = D_exit \/ deliver c = D_none -> deliver c' = D_exit \/ deliver c' = D_none).
Proof.
  intros H. destruct a; step_cases H; frame_write; cbn; split_and!; intros E; try done.
  all: try congruence. all: try (by rewrite E). all: try (by destruct E; congruence).
  all: by destruct E as [-> | ->]; auto.
Qed.

(** ** After [shutdown] *)

Lemma over_none (f : apc -> bool) c : (forall a, returned a = true -> f a = false) -> all_over c -> any f (apps c) = false.
Proof.
  intros Hf Hc. unfold any, all_over in *. apply not_true_iff_false. intros (x & Hx & Ht)%existsb_exists.
  rewrite Forall_forall in Hc. rewrite <- list_elem_of_In in Hx. rewrite (Hf _ (Hc _ Hx)) in Ht. done.
Qed.

(** Once every call has returned, one of them a [shutdown], the socket is closed and
    no thread misses a notification. *)
Record closed_down c : Prop := {
  cd_sock : sock_valid c = false;
  cd_jobs : deliver_stop (jobs c) = true;
  cd_stop : stop_send (sends c) = true;
  cd_writer : writer c <> W_wait;
  cd_ping : forall p, reader c <> R_ping_wait p;
  cd_deliver : deliver c <> D_wait
}.

Lemma over_closed s (r : seal_rng R) se f c n ec :
  reachable s r se f c -> all_over c -> apps c !! n = Some (A_ret_shutdown ec) -> closed_down c.
Proof.
  intros Hr Ho Hn. destruct (once_reachable _ _ _ _ _ Hr) as [L O]. destruct (wakeups_reachable _ _ _ _ _ Hr) as [_ W].
  assert (Hst : shutdown_started (flg c) = true).
  { assert (Hs : sock_valid c = false -> shutdown_started (flg c) = true).
    { intros E. by apply (lf_closed _ L), (lf_stop _ L), (lf_jobs _ L), (lf_sock _ L). }
    pose proof (Forall_lookup_1 _ _ _ _ (lf_apps _ L) Hn) as Ha. cbn in Ha. naive_solver. }
  assert (Hsock : sock_valid c = false).
  { unfold once, winners in O. rewrite Hst in O. destruct (List.filter won (apps c)) as [|x l] eqn:E; [done|].
    assert (Hx : In x (List.filter won (apps c))) by (rewrite E; by left). apply filter_In in Hx as [Hx Hw].
    rewrite <- list_elem_of_In in Hx. unfold all_over in Ho. rewrite Forall_forall in Ho. specialize (Ho _ Hx).
    pose proof (lf_apps _ L) as La. rewrite Forall_forall in La. specialize (La _ Hx). destruct x; try done.
    unfold won in Hw. cbn in Hw, La. bool_to_prop. naive_solver. }
  assert (Hd := lf_sock _ L Hsock). assert (Hs := lf_jobs _ L Hd).
  pose proof (over_none is_send_notify c ltac:(by intros []) Ho) as N1.
  pose proof (over_none is_jobs_notify c ltac:(by intros []) Ho) as N2.
  split; try done.
  - intros E. destruct (wk_writer _ W E) as [_ [?|?]]; congruence.
  - intros p E. destruct (wk_ping _ W p E) as [[? _]|[_ ?]]; congruence.
  - intros E. destruct (wk_jobs _ W E) as [_ [?|?]]; congruence.
Qed.

(** ** The threads end *)

(** The reader's own steps bring it to its end, or to where it is stuck. *)
Definition reader_goes c : Prop :=
  exists k c', run c (replicate k ActReader) = Some c' /\ (reader c' = R_exit \/ stuck (reader c')).

Lemma reader_goes_step c c1 : reader_step c = Some c1 -> reader_goes c1 -> reader_goes c.
Proof. intros H (k & c' & Hr & He). exists (S k), c'. cbn. by rewrite H. Qed.

Lemma reader_goes_abort c e held :
  reader c = R_abort e held -> recv_mu ∉ held \/ held = [recv_mu; send_mu] -> reader_goes c.
Proof.
  intros Hr [Hh| ->]; [|by exists 0%nat, c; split; [|right; right; exists e]].
  assert (Hf : mutex_free recv_mu c = true) by (unfold mutex_free; rewrite Hr; cbn; by rewrite bool_decide_false).
  exists 3%nat. eexists. cbn [replicate run step]. unfold reader_step at 1. rewrite Hr, Hf. split; [reflexivity|by left].
Qed.

(** From the top of the loop: the socket is closed. *)
Lemma reader_goes_read c : reader c = R_read -> sock_valid c = false -> reader_goes c.
Proof.
  intros Hr Hs. eapply reader_goes_step.
  - unfold reader_step, read_message. by rewrite Hr, Hs.
  - eapply reader_goes_abort; [done|]. left. set_solver.
Qed.

Lemma reader_goes_locked c p :
  reader c = R_text_locked p -> sock_valid c = false -> reader_goes c.
Proof.
  intros Hr Hs. eapply reader_goes_step.
  - unfold reader_step, mutex_free. rewrite Hr. reflexivity.
  - unfold text_locked. destruct (_ && _); [|destruct (negb _)].
    + eapply reader_goes_abort; [done|by right].
    + by apply reader_goes_read.
    + by apply reader_goes_read.
Qed.

Lemma reader_ends s (r : seal_rng R) se f c : reachable s r se f c -> closed_down c -> reader_goes c.
Proof.
  intros Hreach [Hs Hj Hst _ Hp _]. pose proof (ty_reader _ _ _ (typed_reachable _ _ _ _ _ Hreach)) as Ht.
  destruct (reader c) as [|p|p|p|p|p|e held|held|held|] eqn:Er.
  - by apply reader_goes_read.
  - destruct (on_message_set c) eqn:Em.
    + eapply reader_goes_step; [unfold reader_step, mutex_free; rewrite Er, Em; reflexivity|].
      unfold queue_job. repeat case_match; try (by apply reader_goes_read).
      eapply reader_goes_abort; [done|]. left. set_solver.
    + apply (reader_goes_step _ (go_reader (R_text_locked p) c)); [|by apply (reader_goes_locked _ p)].
      unfold reader_step, mutex_free, text_pred. rewrite Er, Em, Hst. by rewrite orb_true_r.
  - exists 0%nat, c. split; [done|right; left]. by exists p.
  - by eapply reader_goes_locked.
  - eapply reader_goes_step; [unfold reader_step, mutex_free; rewrite Er; reflexivity|].
    unfold ping_locked. rewrite Hst. eapply reader_goes_abort; [done|]. left. set_solver.
  - by destruct (Hp p).
  - eapply reader_goes_abort; [done|]. cbn in Ht. destruct Ht as [->|[->|[->| ->]]]; [left; set_solver..|by right].
  - exists 2%nat. eexists. cbn [replicate run step]. unfold reader_step at 1. rewrite Er. split; [reflexivity|by left].
  - exists 1%nat. eexists. cbn [replicate run step]. unfold reader_step at 1. rewrite Er. split; [reflexivity|by left].
  - exists 0%nat, c. split; [done|by left].
Qed.

Definition deliver_over (d : dpc) : Prop := d = D_exit \/ d = D_none.

(** Steps of the deliver thread before its end. *)
Definition deliver_left c : nat :=
  match deliver c with
  | D_none | D_exit | D_wait => 0
  | D_idle | D_drain => 2 * length (msg_jobs (jobs c)) + 1
  | D_call _ | D_drain_call _ => 2 * length (msg_jobs (jobs c)) + 2
  end.

Lemma deliver_ends n c :
  (deliver_left c <= n)%nat -> deliver_stop (jobs c) = true -> deliver c <> D_wait -> mutex_free jobs_mu c = true ->
  exists k c', run c (replicate k ActDeliver) = Some c' /\ deliver_over (deliver c').
Proof.
  revert c. induction n as [n IH] using lt_wf_ind. intros c Hn Hs Hw Hm.
  assert (Hd : deliver_over (deliver c) \/ exists c1, deliver_step c = Some c1 /\ (deliver_left c1 < deliver_left c)%nat
    /\ deliver_stop (jobs c1) = true /\ deliver c1 <> D_wait /\ mutex_free jobs_mu c1 = true).
  { unfold deliver_over, deliver_left, deliver_step, drain_jobs, pop_job, mutex_free in *.
    destruct (deliver c); auto; try done; right; rewrite ?Hm, ?Hs; repeat case_match; simplify_eq/=.
    all: eexists; split; [reflexivity|]; cbn; split_and!; try done; try lia. }
  destruct Hd as [Hd|(c1 & H1 & H2 & H3 & H4 & H5)]; [by exists 0%nat, c|].
  destruct (IH (deliver_left c1) ltac:(lia) c1) as (k & c' & Hr & He); [done..|].
  exists (S k), c'. cbn. by rewrite H1.
Qed.

(** ** The destructor *)

Section Run.
Context (s : Str) (r : seal_rng R) (se : session) (f : FrozenConfig).

(** Where the destructor is: the calls before its own have returned, and so has its
    own once it joins; the threads it has joined have ended. *)
Definition shut (n : nat) c : Prop := exists ec, apps c !! n = Some (A_ret_shutdown ec).

Definition joins (n : nat) (d : dtor) c : Prop :=
  match d with
  | Dt_shutdown m => m = n
  | Dt_reader => shut n c
  | Dt_writer => shut n c /\ reader c = R_exit
  | Dt_deliver => shut n c /\ reader c = R_exit /\ writer c = W_exit
  | Dt_done => shut n c /\ reader c = R_exit /\ writer c = W_exit /\ deliver_over (deliver c)
  end.

Record dinv (n : nat) (t : dtor * conn Str R) : Prop := {
  di_reach : reachable s r se f (snd t);
  di_calls : length (apps (snd t)) = S n;
  di_own : call_point (call_at (CallShutdown (Millis 5000))) n (apps (snd t));
  di_others : forall m, (m < n)%nat -> call_point (fun a => returned a = true) m (apps (snd t));
  di_joins : joins n (fst t) (snd t)
}.

Lemma shut_step n c a c' : step c a = Some c' -> shut n c -> shut n c'.
Proof. intros H [ec Hn]. destruct (returned_step _ _ _ _ _ H Hn eq_refl) as (x & Hx & <-). by exists ec. Qed.

Lemma joins_step n d c a c' : step c a = Some c' -> joins n d c -> joins n d c'.
Proof.
  intros H. destruct (ended_step _ _ _ H) as (E1 & E2 & E3). pose proof (shut_step n _ _ _ H) as E4.
  unfold joins, deliver_over. destruct d; naive_solver.
Qed.

Lemma dinv_step n (allowed : action -> Prop) t t' :
  (forall a, allowed a -> no_call a) -> dinv n t -> dstep allowed t t' -> dinv n t'.
Proof.
  intros Hal [D1 D2 D3 D4 D5] H. destruct H as [d c d' H|d c a c' Ha H]; cbn in *.
  - split; cbn; try done. unfold dtor_step, joins in *. destruct d; repeat case_match; simplify_eq; unfold deliver_over, shut in *; naive_solver.
  - split; cbn.
    + by eapply reachable_step.
    + rewrite (calls_step _ _ _ H (Hal _ Ha)). done.
    + by eapply call_at_step.
    + intros m Hm. destruct (D4 m Hm) as (x & Hx & Hret). destruct (returned_step _ _ _ _ _ H Hx Hret) as (y & Hy & <-). by exists x.
    + by eapply joins_step.
Qed.

Lemma dinv_rtc n (allowed : action -> Prop) t t' :
  (forall a, allowed a -> no_call a) -> dinv n t -> rtc (dstep allowed) t t' -> dinv n t'.
Proof. intros Hal D H. induction H as [|t t1 t' H _ IH]; [done|]. apply IH. by eapply dinv_step. Qed.

Lemma dinv_over n t : dinv n t -> shut n (snd t) -> all_over (snd t).
Proof.
  intros [_ D2 _ D4 _] [ec Hn]. unfold all_over. rewrite Forall_lookup. intros m x Hm.
  pose proof (lookup_lt_Some _ _ _ Hm) as Hl. rewrite D2 in Hl.
  destruct (decide (m = n)) as [->|Hne]; [by simplify_eq|]. destruct (D4 m ltac:(lia)) as (y & Hy & Hr). by simplify_eq.
Qed.

Lemma dinv_closed n d c : dinv n (d, c) -> shut n c -> closed_down c.
Proof. intros D Hn. pose proof (dinv_over _ _ D Hn) as Ho. destruct Hn as [ec Hn]. by eapply over_closed; [apply (di_reach _ _ D)|..]. Qed.

Lemma run_dsteps (allowed : action -> Prop) d c l c' :
  Forall allowed l -> run c l = Some c' -> rtc (dstep allowed) (d, c) (d, c').
Proof.
  revert c. induction l as [|a l IH]; intros c Hl Hr; cbn in Hr; [by simplify_eq|].
  apply Forall_cons in Hl as [Ha Hl]. destruct (step c a) as [c1|] eqn:E; [|done].
  eapply rtc_l; [by eapply ds_thread|auto].
Qed.

Lemma dinv_start c t : reachable s r se f c -> all_over c -> destroy c = Some t -> dinv (length (apps c)) t.
Proof.
  intros Hr Ho H. unfold destroy in H. destruct (step c _) as [c0|] eqn:E; simplify_eq.
  pose proof (reachable_step _ _ _ _ _ _ _ Hr E) as Hr0. cbn in E. simplify_eq. split; cbn; try done.
  - rewrite length_app. cbn. lia.
  - eexists. split; [by apply list_lookup_middle|done].
  - intros m Hm. apply call_point_app. unfold all_over in Ho. destruct (lookup_lt_is_Some_2 _ _ Hm) as [x Hx].
    exists x. split; [done|]. by eapply (Forall_lookup_1 _ _ _ _ Ho).
Qed.

(** ** It comes to its end *)

Notation ahead := (rtc (dstep threads_act)).

(** The end, or a reader that is stuck. *)
Definition settled (t : dtor * conn Str R) : Prop := fst t = Dt_done \/ stuck (reader (snd t)).

Lemma threads_no_call a : threads_act a -> no_call a.
Proof. by destruct a. Qed.

Lemma own_threads n l : Forall (own n) l -> Forall threads_act l.
Proof. intros H. eapply Forall_impl; [exact H|]. by intros a [-> | ->]. Qed.

Lemma thread_ahead d c k a c' : threads_act a -> run c (replicate k a) = Some c' -> ahead (d, c) (d, c').
Proof. intros Ha. apply run_dsteps. by apply Forall_replicate. Qed.

(** [shutdown] returns. *)
Lemma settles_shutdown n c : dinv n (Dt_shutdown n, c) -> exists t, ahead (Dt_shutdown n, c) t /\ (fst t = Dt_reader \/ settled t).
Proof.
  intros D. pose proof (di_reach _ _ D) as Hr. cbn in Hr.
  assert (Hfree : (exists i c2, run c (replicate i ActReader) = Some c2 /\ reader_holds (reader c2) = [])
    \/ (exists i c', run c (replicate i ActReader) = Some c' /\ stuck (reader c'))).
  { destruct (reader_holds (reader c)) as [|m h] eqn:E; [left; by exists 0%nat, c|].
    destruct (lock_progress s r se f c Hr ltac:(by rewrite E)) as [(i & c2 & _ & ? & ?)|(i & c2 & e & _ & ? & ?)]; [left; eauto|].
    right. exists i, c2. split; [done|]. right. by exists e. }
  destruct Hfree as [(i & c2 & R2 & Hh)|(i & c2 & R2 & Hst)].
  2: { exists (Dt_shutdown n, c2). split; [by eapply (thread_ahead _ _ _ ActReader)|right; by right]. }
  assert (A2 : ahead (Dt_shutdown n, c) (Dt_shutdown n, c2)) by by eapply (thread_ahead _ _ _ ActReader).
  pose proof (dinv_rtc _ _ _ _ threads_no_call D A2) as D2. pose proof (di_own _ _ D2) as Hk. pose proof Hk as (a & Ha & _).
  pose proof (steps_left_bound a). destruct (own_run (CallShutdown (Millis 5000)) 5000 n 13 a c2) as (l & c3 & Hl & _ & R3 & b & Hb & Hret); [done..|].
  assert (A3 : ahead (Dt_shutdown n, c2) (Dt_shutdown n, c3)) by (eapply run_dsteps; [|exact R3]; by eapply own_threads).
  pose proof (dinv_rtc _ _ _ _ threads_no_call D2 A3) as D3. destruct (di_own _ _ D3) as (b' & Hb' & Hk'). cbn in Hb'. rewrite Hb in Hb'. injection Hb' as <-.
  exists (Dt_reader, c3). split; [|by left]. etransitivity; [exact A2|]. etransitivity; [exact A3|]. apply rtc_once, ds_own.
  cbn. rewrite Hb. by destruct b.
Qed.

Lemma settles_reader n c : dinv n (Dt_reader, c) -> exists t, ahead (Dt_reader, c) t /\ (fst t = Dt_writer \/ settled t).
Proof.
  intros D. destruct (reader_ends s r se f c (di_reach _ _ D) (dinv_closed _ _ _ D (di_joins _ _ D))) as (k & c' & Hr & He).
  assert (A : ahead (Dt_reader, c) (Dt_reader, c')) by by eapply (thread_ahead _ _ _ ActReader).
  destruct He as [He|He]; [|by exists (Dt_reader, c'); split; [|right; right]].
  exists (Dt_writer, c'). split; [|by left]. etransitivity; [exact A|]. apply rtc_once, ds_own. cbn. by rewrite He.
Qed.

Lemma settles_writer n c : dinv n (Dt_writer, c) -> exists t, ahead (Dt_writer, c) t /\ fst t = Dt_deliver.
Proof.
  intros D. destruct (di_joins _ _ D) as [Hs Hr]. pose proof (dinv_closed _ _ _ D Hs) as [_ _ Hst Hw _ _]. cbn in *.
  destruct (writer_exits (writer_left c) c) as (k & c' & _ & Hrun & He & _); [lia|done..|unfold mutex_free; by rewrite Hr|].
  exists (Dt_deliver, c'). split; [|done]. etransitivity; [by eapply (thread_ahead _ _ _ ActWriter)|].
  apply rtc_once, ds_own. cbn. by rewrite He.
Qed.

Lemma settles_deliver n c : dinv n (Dt_deliver, c) -> exists t, ahead (Dt_deliver, c) t /\ fst t = Dt_done.
Proof.
  intros D. destruct (di_joins _ _ D) as (Hs & Hr & _). pose proof (dinv_closed _ _ _ D Hs) as [_ Hst _ _ _ Hw]. cbn in *.
  destruct (deliver_ends (deliver_left c) c) as (k & c' & Hrun & He); [lia|done..|unfold mutex_free; by rewrite Hr|].
  exists (Dt_done, c'). split; [|done]. etransitivity; [by eapply (thread_ahead _ _ _ ActDeliver)|].
  apply rtc_once, ds_own. cbn. by destruct He as [-> | ->].
Qed.

Lemma settles n t : dinv n t -> exists t', ahead t t' /\ settled t'.
Proof.
  assert (Hnext : forall t1 t2, dinv n t1 -> ahead t1 t2 -> (dinv n t2 -> exists t', ahead t2 t' /\ settled t') ->
    exists t', ahead t1 t' /\ settled t').
  { intros t1 t2 D1 A H. destruct H as (t' & A' & S'); [by eapply dinv_rtc; [apply threads_no_call|..]|].
    exists t'. split; [by etransitivity|done]. }
  assert (H4 : forall c, dinv n (Dt_deliver, c) -> exists t', ahead (Dt_deliver, c) t' /\ settled t').
  { intros c D. destruct (settles_deliver _ _ D) as (t' & A & E). exists t'. split; [done|by left]. }
  assert (H3 : forall c, dinv n (Dt_writer, c) -> exists t', ahead (Dt_writer, c) t' /\ settled t').
  { intros c D. destruct (settles_writer _ _ D) as ([d c'] & A & E). cbn in E. subst. eauto. }
  assert (H2 : forall c, dinv n (Dt_reader, c) -> exists t', ahead (Dt_reader, c) t' /\ settled t').
  { intros c D. destruct (settles_reader _ _ D) as ([d c'] & A & [E|E]); cbn in E; subst; eauto. }
  intros D. destruct t as [[m| | | |] c]; [|by auto..|by exists (Dt_done, c); split; [|left]].
  assert (m = n) as -> by exact (di_joins _ _ D).
  destruct (settles_shutdown _ _ D) as ([d c'] & A & [E|E]); cbn in E; subst; eauto.
Qed.

(** ** Or never *)

Lemma stuck_step c a c' : stuck (reader c) -> a <> ActSpurious TReader -> step c a = Some c' -> stuck (reader c').
Proof.
  intros [[p Hp]|[e He]] Ha H.
  - left. exists p. by eapply text_wait_step.
  - right. exists e. by eapply self_lock_step; [done|set_solver|].
Qed.

Lemma stuck_rtc t t' : stuck (reader (snd t)) -> rtc (dstep reader_waits_on) t t' -> stuck (reader (snd t')).
Proof.
  intros Hs H. induction H as [|t t1 t' H _ IH]; [done|]. apply IH.
  destruct H as [d c d' H|d c a c' [_ Ha] H]; [done|]. by eapply stuck_step.
Qed.

Lemma stuck_not_done n t : dinv n t -> stuck (reader (snd t)) -> fst t <> Dt_done.
Proof.
  intros D [[p Hp]|[e He]] E; pose proof (di_joins _ _ D) as J; rewrite E in J; destruct J as (_ & J & _); congruence.
Qed.

(** Nothing runs when it is done. *)
Lemma done_quiet n c : dinv n (Dt_done, c) -> forall a, threads_act a -> step c a = None.
Proof.
  intros D a Ha. destruct (di_joins _ _ D) as (Hs & Hr & Hw & Hd). pose proof (dinv_over _ _ D Hs) as Ho. cbn in *.
  assert (Hn : forall m, app_step m c = None /\ timeout_step m c = None).
  { intros m. unfold app_step, timeout_step. destruct (apps c !! m) as [x|] eqn:Hm; [|done].
    unfold all_over in Ho. pose proof (Forall_lookup_1 _ _ _ _ Ho Hm) as Hx. by destruct x. }
  destruct a; try done; cbn; try apply Hn.
  - unfold reader_step. by rewrite Hr.
  - unfold writer_step. by rewrite Hw.
  - unfold deliver_step. by destruct Hd as [-> | ->].
Qed.

End Run.


End Steps.

(** ** Witness *)

Import Toy.

(** A connection that has received two texts into a queue of one: its reader waits for
    room, and its destructor ends with a join that does not return. *)
Definition crowded : conn mem_stream toy_drbg := demo1 two_texts fill_receive.
Definition shutdown_times_out : list action :=
  [ActApp 0; ActApp 0; ActApp 0; ActApp 0; ActWriter; ActWriter; ActWriter; ActWriter; ActWriter;
   ActApp 0; ActApp 0; ActApp 0; ActApp 0; ActApp 0; ActApp 0; ActTimeout 0].

(** The same without a second text. *)
Definition calm : conn mem_stream toy_drbg := demo1 [] [].

