(* ===== verification/App.v ===== *)
(** * App

    Programs that use a connection: application threads which share one [Conn]
    ([src/conn.cpp]) and make its public calls one after the other, each thread in its
    own order.  What such threads know of a connection is what their calls return; when
    one thread does all the sending, what is queued is what it sent successfully, and
    when one does all the receiving, it gets what was received. *)

From S2P Require Import Prelude Errors Stream Protocol Crypto Session Config Conn ConnInv ConnReader ConnApi.

(** ** One call at a time *)

Section Calls.
Context {Str R : Type} {BS : ByteStream Str} {Rng : Drbg_api R} {G : Gcm}.
Implicit Types c : conn Str R.

Definition in_send (a : apc) : bool :=
  match a with A_send _ _ | A_send_lock _ _ | A_send_wait _ _ => true | _ => false end.
Definition in_receive (a : apc) : bool :=
  match a with A_recv _ | A_recv_lock _ | A_recv_wait _ => true | _ => false end.

(** Whether a call has put its message into the queue, and what it has taken out. *)
Definition has_queued (a : apc) : bool := match a with A_ret_send ec => negb (ec_bool ec) | _ => false end.
Definition has_taken (a : apc) : list bytes :=
  match a with A_ret_recv ec m => if ec_bool ec then [] else [m] | _ => [] end.

(** Every call of the kind [P] is the [n]-th. *)
Definition only_call (P : apc -> bool) (n : option nat) (l : list apc) : Prop :=
  forall m a, l !! m = Some a -> P a = true -> n = Some m.

Lemma only_call_fmap P n (f : apc -> apc) l : (forall a, P (f a) = P a) -> only_call P n l -> only_call P n (f <$> l).
Proof. intros Hf H m a Hm Ha. rewrite list_lookup_fmap in Hm. destruct (l !! m) eqn:E; [|done]. cbn in Hm. simplify_eq. rewrite Hf in Ha. eauto. Qed.

Lemma only_call_insert P n m x y l :
  l !! m = Some x -> (P y = true -> P x = true) -> only_call P n l -> only_call P n (<[m := y]> l).
Proof. intros Hm Hx H k a Hk Ha. apply list_lookup_insert_Some in Hk as [(<- & <- & _)|[_ Hk]]; eauto. Qed.

(** The actions other than a new call. *)
Definition internal (x : action) : bool := match x with ActCall _ => false | _ => true end.

Lemma only_call_step n c x c' :
  internal x = true -> step c x = Some c' ->
  (only_call in_send n (apps c) -> only_call in_send n (apps c'))
  /\ (only_call in_receive n (apps c) -> only_call in_receive n (apps c')).
Proof.
  intros Hx H. destruct x; try done; step_cases H; frame_write; cbn [apps]; (split; intros Ho).
  all: try exact Ho.
  all: repeat first [exact Ho | apply only_call_fmap; [by intros []|] | eapply only_call_insert; [eassumption|done|]].
  all: eapply only_call_insert; [eassumption| |exact Ho]; first [by destruct f|by destruct a].
Qed.

(** At most one [send] is under way, the [n]-th call; the sends before it queued [done]. *)
Definition one_sender (done : list bytes) (pend : option (nat * (bytes * timeout))) c : Prop :=
  only_call in_send (fst <$> pend) (apps c) /\
  match pend with
  | Some (n, (p, t)) => call_point (fun a => call_at (CallSend p t) a /\ texts (h_queued (hist c)) = done ++ (if has_queued a then [p] else [])) n (apps c)
  | None => texts (h_queued (hist c)) = done
  end.

(** At most one [receive] is under way; those before it returned [got]. *)
Definition one_receiver (got : list bytes) (pend : option (nat * timeout)) c : Prop :=
  only_call in_receive (fst <$> pend) (apps c) /\
  match pend with
  | Some (n, t) => call_point (fun a => call_at (CallReceive t) a /\ h_received (hist c) = got ++ has_taken a) n (apps c)
  | None => h_received (hist c) = got
  end.

Lemma call_point_and (P Q : apc -> Prop) n l : call_point P n l -> call_point Q n l -> call_point (fun a => P a /\ Q a) n l.
Proof. intros (a & Ha & HP) (b & Hb & HQ). exists a. simplify_eq. done. Qed.

(** The calls of [l'] and [l] agree on [g]. *)
Definition same_at {X} (g : apc -> X) (l l' : list apc) : Prop :=
  forall m a, l !! m = Some a -> exists a', l' !! m = Some a' /\ g a' = g a.

Lemma same_at_refl {X} (g : apc -> X) l : same_at g l l.
Proof. intros m a Hm. by exists a. Qed.

Lemma same_at_fmap {X} (g : apc -> X) (f : apc -> apc) l l' :
  (forall a, g (f a) = g a) -> same_at g l l' -> same_at g l (f <$> l').
Proof. intros Hf H m a Hm. destruct (H m a Hm) as (a' & Ha & Hg). exists (f a'). by rewrite list_lookup_fmap, Ha, Hf. Qed.

Lemma same_at_insert {X} (g : apc -> X) k x y l l' :
  l !! k = Some x -> g y = g x -> same_at g l l' -> same_at g l (<[k := y]> l').
Proof.
  intros Hk Hg H m a Hm. destruct (H m a Hm) as (a' & Ha & Ha'). destruct (decide (m = k)) as [->|Hne].
  - exists y. rewrite list_lookup_insert_eq by (by eapply lookup_lt_Some). split; [done|congruence].
  - exists a'. by rewrite list_lookup_insert_ne.
Qed.

(** What a step does to the texts queued: nothing, or it ends a [send] that queues its. *)
Lemma queue_effect c x c' :
  internal x = true -> step c x = Some c' ->
  (texts (h_queued (hist c')) = texts (h_queued (hist c)) /\ same_at has_queued (apps c) (apps c'))
  \/ exists n a o t, apps c !! n = Some a /\ (a = A_send_lock o t \/ a = A_send_wait o t)
       /\ texts (h_queued (hist c')) = texts (h_queued (hist c)) ++ texts [o]
       /\ apps c' !! n = Some (A_ret_send ec_none).
Proof.
  intros Hx H. destruct x; try done; step_cases H; frame_write; cbn [apps hist h_queued set_io].
  all: try (left; split; [done|]; repeat first [apply same_at_refl | apply same_at_fmap; [by intros []|]
     | eapply same_at_insert; [eassumption|first [done|by destruct f]|]]).
  - left. split; [by rewrite texts_app, app_nil_r|]. apply same_at_fmap; [by intros []|apply same_at_refl].
  - right. do 4 eexists. split; [eassumption|]. rewrite texts_app. split_and!; [by left|done|].
    rewrite list_lookup_fmap, list_lookup_insert_eq by (by eapply lookup_lt_Some). done.
  - right. do 4 eexists. split; [eassumption|]. rewrite texts_app. split_and!; [by right|done|].
    rewrite list_lookup_fmap, list_lookup_insert_eq by (by eapply lookup_lt_Some). done.
  - eapply same_at_insert; [eassumption|by destruct a|apply same_at_refl].
Qed.

(** What a step does to the messages received: nothing, or it ends a [receive] that takes one. *)
Lemma take_effect c x c' :
  internal x = true -> step c x = Some c' ->
  (h_received (hist c') = h_received (hist c) /\ same_at has_taken (apps c) (apps c'))
  \/ exists n a m t, apps c !! n = Some a /\ (a = A_recv_lock t \/ a = A_recv_wait t)
       /\ h_received (hist c') = h_received (hist c) ++ [m]
       /\ apps c' !! n = Some (A_ret_recv ec_none m).
Proof.
  intros Hx H. destruct x; try done; step_cases H; frame_write; cbn [apps hist h_received set_io].
  all: try (left; split; [done|]; repeat first [apply same_at_refl | apply same_at_fmap; [by intros []|]
     | eapply same_at_insert; [eassumption|first [done|by destruct f]|]]).
  1, 3: eapply same_at_insert; [eassumption|cbn; by case_match|apply same_at_refl].
  3: eapply same_at_insert; [eassumption|by destruct a|apply same_at_refl].
  all: right; do 4 eexists; split; [eassumption|]; split; [by eauto|]; split; [done|];
    by rewrite list_lookup_insert_eq by (by eapply lookup_lt_Some).
Qed.

Lemma one_sender_step done pend c x c' :
  internal x = true -> step c x = Some c' -> one_sender done pend c -> one_sender done pend c'.
Proof.
  intros Hx H [Ho Hp]. split; [by eapply only_call_step|]. destruct pend as [[n [p t]]|].
  - destruct Hp as (a & Ha & Hk & Hq). destruct (call_at_step (CallSend p t) n c x c') as (a' & Ha' & Hk'); [by exists a|done|].
    exists a'. split; [done|]. split; [done|].
    destruct (queue_effect _ _ _ Hx H) as [[-> Hs]|(n0 & a0 & o & t0 & H0 & Hlock & -> & Hret)].
    + destruct (Hs _ _ Ha) as (b & Hb & Hg). simplify_eq. by rewrite Hq, Hg.
    + assert (Some n = Some n0) as [= <-] by (apply (Ho n0 a0); [done|by destruct Hlock; subst]). simplify_eq.
      destruct Hlock as [-> | ->]; destruct Hk as [-> ->]; rewrite Hq; cbn; by rewrite !app_nil_r.
  - destruct (queue_effect _ _ _ Hx H) as [[-> Hs]|(n0 & a0 & o & t0 & H0 & Hlock & -> & Hret)]; [done|].
    exfalso. assert (None = Some n0) by (apply (Ho n0 a0); [done|by destruct Hlock; subst]). done.
Qed.

Lemma one_receiver_step got pend c x c' :
  internal x = true -> step c x = Some c' -> one_receiver got pend c -> one_receiver got pend c'.
Proof.
  intros Hx H [Ho Hp]. split; [by eapply only_call_step|]. destruct pend as [[n t]|].
  - destruct Hp as (a & Ha & Hk & Hq). destruct (call_at_step (CallReceive t) n c x c') as (a' & Ha' & Hk'); [by exists a|done|].
    exists a'. split; [done|]. split; [done|].
    destruct (take_effect _ _ _ Hx H) as [[-> Hs]|(n0 & a0 & m & t0 & H0 & Hlock & -> & Hret)].
    + destruct (Hs _ _ Ha) as (b & Hb & Hg). simplify_eq. by rewrite Hq, Hg.
    + assert (Some n = Some n0) as [= <-] by (apply (Ho n0 a0); [done|by destruct Hlock; subst]). simplify_eq.
      destruct Hlock as [-> | ->]; rewrite Hq; cbn; by rewrite !app_nil_r.
  - destruct (take_effect _ _ _ Hx H) as [[-> Hs]|(n0 & a0 & m & t0 & H0 & Hlock & -> & Hret)]; [done|].
    exfalso. assert (None = Some n0) by (apply (Ho n0 a0); [done|by destruct Hlock; subst]). done.
Qed.

(** The connection after a call was made. *)
Definition called (k : call) c : conn Str R := set_threads (reader c) (writer c) (deliver c) (apps c ++ [start_call k]) c.

Lemma only_call_snoc P n a l : P a = false -> only_call P n l -> only_call P n (l ++ [a]).
Proof.
  intros Ha H m x Hm Hx. apply lookup_app_Some in Hm as [Hm|[_ Hm]]; [by eapply H|].
  apply list_lookup_singleton_Some in Hm as [_ <-]. congruence.
Qed.

Lemma only_call_new P a l : only_call P None l -> only_call P (Some (length l)) (l ++ [a]).
Proof.
  intros H m x Hm Hx. apply lookup_app_Some in Hm as [Hm|[Hge Hm]]; [by apply (H m x Hm) in Hx|].
  apply list_lookup_singleton_Some in Hm as [Hm _]. f_equal. lia.
Qed.

Lemma call_point_new (P : apc -> Prop) a l : P a -> call_point P (length l) (l ++ [a]).
Proof. intros Ha. exists a. by rewrite lookup_app_r, Nat.sub_diag by lia. Qed.

Lemma one_sender_call done k c :
  one_sender done None c ->
  one_sender done (match k with CallSend p t => Some (length (apps c), (p, t)) | _ => None end) (called k c).
Proof.
  intros [Ho Hq]. destruct k; (split; [try by apply only_call_new|]); try by apply only_call_snoc.
  - apply call_point_new. cbn. by rewrite app_nil_r.
  - done.
  - done.
Qed.

Lemma one_sender_other done pend k c :
  (forall p t, k <> CallSend p t) -> one_sender done pend c -> one_sender done pend (called k c).
Proof.
  intros Hk [Ho Hq]. split; [by apply only_call_snoc; [destruct k|]; naive_solver|].
  destruct pend as [[n [p t]]|]; [by apply call_point_app|done].
Qed.

Lemma one_receiver_call got k c :
  one_receiver got None c ->
  one_receiver got (match k with CallReceive t => Some (length (apps c), t) | _ => None end) (called k c).
Proof.
  intros [Ho Hq]. destruct k; (split; [try by apply only_call_new|]); try by apply only_call_snoc.
  - done.
  - apply call_point_new. cbn. by rewrite app_nil_r.
  - done.
Qed.

Lemma one_receiver_other got pend k c :
  (forall t, k <> CallReceive t) -> one_receiver got pend c -> one_receiver got pend (called k c).
Proof.
  intros Hk [Ho Hq]. split; [by apply only_call_snoc; [destruct k|]; naive_solver|].
  destruct pend as [[n t]|]; [by apply call_point_app|done].
Qed.

(** The call returned: its effect joins that of the calls before it. *)
Lemma only_call_over P n a l : l !! n = Some a -> P a = false -> only_call P (Some n) l -> only_call P None l.
Proof. intros Hn Ha H m x Hm Hx. pose proof (H m x Hm Hx). simplify_eq. congruence. Qed.

Lemma one_sender_return done n p t c ec :
  one_sender done (Some (n, (p, t))) c -> apps c !! n = Some (A_ret_send ec) ->
  one_sender (done ++ if ec_bool ec then [] else [p]) None c.
Proof.
  intros [Ho (a & Ha & _ & Hq)] Hn. simplify_eq. split; [by eapply only_call_over|]. rewrite Hq. cbn. by destruct (ec_bool ec).
Qed.

Lemma one_receiver_return got n t c ec m :
  one_receiver got (Some (n, t)) c -> apps c !! n = Some (A_ret_recv ec m) ->
  one_receiver (got ++ if ec_bool ec then [] else [m]) None c.
Proof. intros [Ho (a & Ha & _ & Hq)] Hn. simplify_eq. split; [by eapply only_call_over|]. done. Qed.

End Calls.

(** ** Application threads *)

(** What a program is at a point where it does not run: about to make a call of the
    connection, or about to do something of its own. *)
Class Program (T C : Type) := {
  wants : T -> option api;
  resume : T -> outcome -> T;             (* the call returned or threw *)
  local : C -> list T -> T -> option T    (* with the connection and the other threads in view *)
}.

Section Threads.
Context {Str R : Type} {BS : ByteStream Str} {Rng : Drbg_api R} {G : Gcm}.
Context {T : Type} {Prg : Program T (conn Str R)}.
Variable os_message : Z -> string.
Implicit Types c : conn Str R.

(** A thread: its point, the call it waits for, the calls that ended. *)
Record athread := AThread { a_code : T; a_call : option nat; a_log : list (api * outcome) }.

Record app := App { a_conn : conn Str R; a_threads : list athread }.

(** A decision of the scheduler. *)
Inductive aact :=
  | Internal (x : action)     (* a thread of the connection, a time-out, a spurious wake-up, a step of a call *)
  | Begin (i : nat)           (* thread i makes its call *)
  | Ended (i : nat)            (* its call has ended *)
  | Own (i : nat).             (* thread i does something of its own *)

Definition astep (s : app) (x : aact) : option app :=
  match x with
  | Internal x =>
      if internal x then c ← step (a_conn s) x; Some (App c (a_threads s)) else None
  | Begin i =>
      th ← a_threads s !! i;
      match a_call th, wants (a_code th) with
      | None, Some k =>
          Some (App (called (forward k) (a_conn s))
                    (<[i := AThread (a_code th) (Some (length (apps (a_conn s)))) (a_log th)]> (a_threads s)))
      | _, _ => None
      end
  | Ended i =>
      th ← a_threads s !! i;
      match a_call th, wants (a_code th) with
      | Some n, Some k =>
          a ← apps (a_conn s) !! n;
          out ← finish os_message k a;
          Some (App (a_conn s) (<[i := AThread (resume (a_code th) out) None (a_log th ++ [(k, out)])]> (a_threads s)))
      | _, _ => None
      end
  | Own i =>
      th ← a_threads s !! i;
      match a_call th with
      | None =>
          t ← local (a_conn s) (a_code <$> a_threads s) (a_code th);
          Some (App (a_conn s) (<[i := AThread t None (a_log th)]> (a_threads s)))
      | Some _ => None
      end
  end.

Fixpoint arun (s : app) (l : list aact) : option app :=
  match l with
  | [] => Some s
  | x :: l' => s' ← astep s x; arun s' l'
  end.

(** The program starts its threads on a new connection. *)
Definition start (s : Str) (r : seal_rng R) (se : session) (f : FrozenConfig) (ts : list T) : app :=
  App (Conn_new s r se f) ((fun t => AThread t None []) <$> ts).

Lemma arun_invariant (P : app -> Prop) s l s' :
  (forall s x s', P s -> astep s x = Some s' -> P s') -> P s -> arun s l = Some s' -> P s'.
Proof.
  intros Hstep. revert s. induction l as [|x l IH]; intros s Hs Hr; cbn in Hr; [by simplify_eq|].
  destruct (astep s x) as [s1|] eqn:E; [|done]. eauto.
Qed.

(** The connection of a program is one of the states [Conn] describes. *)
Lemma arun_reachable s r se f ts l s' : arun (start s r se f ts) l = Some s' -> reachable s r se f (a_conn s').
Proof.
  apply (arun_invariant (fun s' => reachable s r se f (a_conn s'))); [|by exists []].
  clear. intros s0 x s1 [l Hl] H.
  assert (Hone : forall a c', step (a_conn s0) a = Some c' -> reachable s r se f c').
  { intros a c' Ha. exists (l ++ [a]). rewrite run_app, Hl. cbn. by rewrite Ha. }
  destruct x as [x|i|i|i]; cbn in H.
  - destruct (internal x); [|done]. destruct (step (a_conn s0) x) as [c|] eqn:E; [|done]. cbn in H. simplify_eq. eauto.
  - destruct (a_threads s0 !! i); [|done]. cbn in H. repeat case_match; simplify_eq. by eapply (Hone (ActCall _)).
  - destruct (a_threads s0 !! i); [|done]. cbn in H. repeat case_match; try done.
    destruct (apps _ !! _); [|done]. cbn in H. destruct (finish _ _ _); [|done]. cbn in H. simplify_eq. by exists l.
  - destruct (a_threads s0 !! i); [|done]. cbn in H. repeat case_match; try done.
    destruct (local _ _ _); [|done]. cbn in H. simplify_eq. by exists l.
Qed.

(** *** What a thread knows *)

(** A property of a point and the calls made so far, of a connection in any state. *)
Section Knows.
Context (I : conn Str R -> T -> list (api * outcome) -> Prop).
Hypothesis I_step : forall c x c' t l, step c x = Some c' -> I c t l -> I c' t l.
Hypothesis I_resume : forall c t l k a out,
  I c t l -> wants t = Some k -> call_at (forward k) a -> finish os_message k a = Some out ->
  I c (resume t out) (l ++ [(k, out)]).
Hypothesis I_local : forall c ts t t' l, I c t l -> local c ts t = Some t' -> I c t' l.

(** ... and the call it waits for is the one it made. *)
Definition knows c (th : athread) : Prop :=
  I c (a_code th) (a_log th)
  /\ forall n, a_call th = Some n -> exists k, wants (a_code th) = Some k /\ call_point (call_at (forward k)) n (apps c).

Lemma knows_step c x c' th : step c x = Some c' -> knows c th -> knows c' th.
Proof.
  intros H [H1 H2]. split; [by eapply I_step|]. intros n Hn. destruct (H2 n Hn) as (k & Hk & Hp).
  exists k. split; [done|]. by eapply call_at_step.
Qed.

Lemma knows_astep s x s' :
  Forall (knows (a_conn s)) (a_threads s) -> astep s x = Some s' -> Forall (knows (a_conn s')) (a_threads s').
Proof.
  intros K H. assert (Hget : forall i th, a_threads s !! i = Some th -> knows (a_conn s) th) by (intros i th; apply Forall_lookup_1, K).
  destruct x as [x|i|i|i]; cbn in H.
  - destruct (internal x); [|done]. destruct (step (a_conn s) x) as [c|] eqn:E; [|done]. cbn in H. simplify_eq.
    eapply Forall_impl; [exact K|]. intros th. by eapply knows_step.
  - destruct (a_threads s !! i) as [th|] eqn:Hi; [|done]. cbn in H. destruct (a_call th) eqn:Hc; [done|].
    destruct (wants (a_code th)) as [k|] eqn:Hw; [|done]. simplify_eq. cbn.
    assert (Hk : forall th, knows (a_conn s) th -> knows (called (forward k) (a_conn s)) th)
      by (intros u; by apply (knows_step _ (ActCall (forward k)))).
    apply Forall_insert; [eapply Forall_impl; [exact K|]; exact Hk|]. destruct (Hk th (Hget _ _ Hi)) as [H1 _].
    split; [done|]. cbn. intros n [= <-]. exists k. split; [done|]. apply call_point_new. by destruct (forward k).
  - destruct (a_threads s !! i) as [th|] eqn:Hi; [|done]. cbn in H. destruct (a_call th) as [n|] eqn:Hc; [|done].
    destruct (wants (a_code th)) as [k|] eqn:Hw; [|done]. destruct (apps (a_conn s) !! n) as [a|] eqn:Ha; [|done]. cbn in H.
    destruct (finish os_message k a) as [out|] eqn:Hf; [|done]. cbn in H. simplify_eq. cbn. apply Forall_insert; [done|].
    destruct (Hget _ _ Hi) as [H1 H2]. destruct (H2 n Hc) as (k' & Hk' & a' & Ha' & Hca). simplify_eq.
    split; [|done]. by eapply I_resume.
  - destruct (a_threads s !! i) as [th|] eqn:Hi; [|done]. cbn in H. destruct (a_call th) eqn:Hc; [done|].
    destruct (local _ _ _) as [t|] eqn:Hl; [|done]. cbn in H. simplify_eq. cbn. apply Forall_insert; [done|].
    destruct (Hget _ _ Hi) as [H1 _]. split; [|done]. by eapply I_local.
Qed.

Lemma knows_arun s r se f ts l s' i th :
  (forall t, t ∈ ts -> I (Conn_new s r se f) t []) -> arun (start s r se f ts) l = Some s' ->
  a_threads s' !! i = Some th -> knows (a_conn s') th.
Proof.
  intros H0 Hr. apply Forall_lookup_1. revert Hr. apply (arun_invariant (fun s => Forall (knows (a_conn s)) (a_threads s))); [intros; by eapply knows_astep|].
  apply Forall_fmap, Forall_forall. intros t Ht. split; [by apply H0|done].
Qed.

End Knows.

(** *** One thread makes all calls of a kind *)

Section Sole.
Context {P : Type} (kind : call -> option P) (effect : list bytes -> option (nat * P) -> conn Str R -> Prop).
Context (yield : api -> outcome -> list bytes) (sole : T -> bool).
Hypothesis effect_step : forall d pend c x c',
  internal x = true -> step c x = Some c' -> effect d pend c -> effect d pend c'.
Hypothesis effect_call : forall d k c, effect d None c -> effect d (pair (length (apps c)) <$> kind k) (called k c).
Hypothesis effect_other : forall d pend k c, kind k = None -> effect d pend c -> effect d pend (called k c).
Hypothesis effect_return : forall d n q c k a out,
  effect d (Some (n, q)) c -> kind (forward k) = Some q -> apps c !! n = Some a -> finish os_message k a = Some out ->
  effect (d ++ yield k out) None c.
Hypothesis yield_other : forall k out, kind (forward k) = None -> yield k out = [].
Hypothesis sole_wants : forall t k, wants t = Some k -> kind (forward k) <> None -> sole t = true.
Hypothesis sole_resume : forall t out, sole (resume t out) = sole t.
Hypothesis sole_local : forall c ts t t', local c ts t = Some t' -> sole t' = sole t.

Definition yields (l : list (api * outcome)) : list bytes := concat ((fun x => yield x.1 x.2) <$> l).

#[local] Arguments yields : simpl never.

(** The call of the kind a thread waits for. *)
Definition pends (th : athread) : option (nat * P) :=
  n ← a_call th; k ← wants (a_code th); pair n <$> kind (forward k).

Record sole_inv (i : nat) (s : app) : Prop := {
  so_only : forall j th, a_threads s !! j = Some th -> sole (a_code th) = true -> j = i;
  so_effect : exists th, a_threads s !! i = Some th /\ effect (yields (a_log th)) (pends th) (a_conn s)
}.

Lemma yields_snoc l k out : yields (l ++ [(k, out)]) = yields l ++ yield k out.
Proof. unfold yields. rewrite fmap_app, concat_app. cbn. by rewrite app_nil_r. Qed.

(** One thread moves on in a way that keeps its role. *)
Lemma sole_move i s j th th' c :
  sole_inv i s -> a_threads s !! j = Some th -> sole (a_code th') = sole (a_code th) ->
  (j = i -> effect (yields (a_log th)) (pends th) (a_conn s) -> effect (yields (a_log th')) (pends th') c) ->
  (forall d pend, j <> i -> effect d pend (a_conn s) -> effect d pend c) ->
  sole_inv i (App c (<[j := th']> (a_threads s))).
Proof.
  intros [H1 (u & Hu & He)] Hj Hr Hi Hne. split; cbn.
  - intros k v Hk Hv. apply list_lookup_insert_Some in Hk as [(<- & <- & _)|[_ Hk]]; [|by eapply H1].
    apply (H1 _ _ Hj). congruence.
  - destruct (decide (j = i)) as [->|Hji].
    + exists th'. rewrite list_lookup_insert_eq by (by eapply lookup_lt_Some). simplify_eq. auto.
    + exists u. rewrite list_lookup_insert_ne by done. auto.
Qed.

Lemma sole_step i s x s' : sole_inv i s -> astep s x = Some s' -> sole_inv i s'.
Proof.
  intros I H. destruct x as [x|j|j|j]; cbn in H.
  - destruct (internal x) eqn:Hx; [|done]. destruct (step (a_conn s) x) as [c|] eqn:E; [|done]. cbn in H. simplify_eq.
    destruct I as [H1 (u & Hu & He)]. split; [done|]. exists u. eauto.
  - destruct (a_threads s !! j) as [th|] eqn:Hj; [|done]. cbn in H. destruct (a_call th) eqn:Hc; [done|].
    destruct (wants (a_code th)) as [k|] eqn:Hw; [|done]. simplify_eq. eapply sole_move; [done|done|done| |].
    + unfold pends. rewrite Hc. cbn. rewrite Hw. cbn. intros _. apply effect_call.
    + intros d pend Hne. apply effect_other. destruct (kind (forward k)) eqn:Ek; [|done]. exfalso. apply Hne.
      apply (so_only _ _ I j th Hj). apply (sole_wants _ k); congruence.
  - destruct (a_threads s !! j) as [th|] eqn:Hj; [|done]. cbn in H. destruct (a_call th) as [n|] eqn:Hc; [|done].
    destruct (wants (a_code th)) as [k|] eqn:Hw; [|done]. destruct (apps (a_conn s) !! n) as [a|] eqn:Ha; [|done]. cbn in H.
    destruct (finish os_message k a) as [out|] eqn:Hf; [|done]. cbn in H. simplify_eq.
    eapply sole_move; [done|done|cbn; apply sole_resume| |by auto]. intros _. unfold pends. cbn. rewrite yields_snoc, Hc. cbn.
    rewrite Hw. cbn. destruct (kind (forward k)) as [q|] eqn:Ek; cbn.
    + intros He. by eapply effect_return.
    + by rewrite yield_other, app_nil_r.
  - destruct (a_threads s !! j) as [th|] eqn:Hj; [|done]. cbn in H. destruct (a_call th) eqn:Hc; [done|].
    destruct (local _ _ _) as [t|] eqn:Hl; [|done]. cbn in H. simplify_eq.
    eapply sole_move; [done|done|cbn; by eapply sole_local| |by auto]. unfold pends. cbn. by rewrite Hc.
Qed.

Lemma sole_start i t s r se f ts :
  effect [] None (Conn_new s r se f) -> (forall k t, ts !! k = Some t -> sole t = true -> k = i) -> ts !! i = Some t ->
  sole_inv i (start s r se f ts).
Proof.
  intros He Hi Ht. split; cbn.
  - intros k th Hk. rewrite list_lookup_fmap in Hk. destruct (ts !! k) eqn:E; [|done]. cbn in Hk. simplify_eq. eauto.
  - eexists. by rewrite list_lookup_fmap, Ht.
Qed.

End Sole.

Definition send_kind (k : call) : option (bytes * timeout) := match k with CallSend p t => Some (p, t) | _ => None end.
Definition receive_kind (k : call) : option timeout := match k with CallReceive t => Some t | _ => None end.

(** The message a call queued, and the message a call returned. *)
Definition queued_by (k : api) (out : outcome) : list bytes :=
  match forward k, out with CallSend p _, Return _ ec => if ec_bool ec then [] else [p] | _, _ => [] end.
Definition returned_by (k : api) (out : outcome) : list bytes :=
  match forward k, out with CallReceive _, Return m ec => if ec_bool ec then [] else [m] | _, _ => [] end.

Definition sent_in (l : list (api * outcome)) : list bytes := yields queued_by l.
Definition received_in (l : list (api * outcome)) : list bytes := yields returned_by l.

Lemma sender_return d n q c k a out :
  one_sender d (Some (n, q)) c -> send_kind (forward k) = Some q -> apps c !! n = Some a -> finish os_message k a = Some out ->
  one_sender (d ++ queued_by k out) None c.
Proof.
  intros He Hk Ha Hf. destruct q as [p t]. destruct (forward k) as [p' t'| |] eqn:Ek; try done. cbn in Hk. simplify_eq.
  assert (exists ec, a = A_ret_send ec) as [ec ->].
  { destruct k, a; try done; eauto. }
  replace (queued_by k out) with (if ec_bool ec then [] else [p]); [by eapply one_sender_return|].
  unfold queued_by. rewrite Ek. destruct k; try done; cbn in Hf; simplify_eq; try done.
  unfold throw_if. by destruct (ec_bool ec).
Qed.

Lemma receiver_return d n q c k a out :
  one_receiver d (Some (n, q)) c -> receive_kind (forward k) = Some q -> apps c !! n = Some a -> finish os_message k a = Some out ->
  one_receiver (d ++ returned_by k out) None c.
Proof.
  intros He Hk Ha Hf. destruct (forward k) as [|t'|] eqn:Ek; try done. cbn in Hk. simplify_eq.
  assert (exists ec m, a = A_ret_recv ec m) as (ec & m & ->).
  { destruct k, a; try done; eauto. }
  replace (returned_by k out) with (if ec_bool ec then [] else [m]); [by eapply one_receiver_return|].
  unfold returned_by. rewrite Ek. destruct k; try done; cbn in Hf; simplify_eq; try done.
  unfold throw_if. by destruct (ec_bool ec).
Qed.

End Threads.

(** *** Shared by the programs *)

(** [reader_.join()], [writer_.join()] and [deliver_.join()] have returned. *)
Definition joined_b {Str R} (c : conn Str R) : bool :=
  match reader c, writer c, deliver c with
  | R_exit, W_exit, (D_exit | D_none) => true
  | _, _, _ => false
  end.

Lemma joined_b_spec {Str R} (c : conn Str R) : joined_b c = true -> joined c.
Proof.
  unfold joined_b, joined. destruct (reader c); try done. destruct (writer c); try done. destruct (deliver c); try done; auto.
Qed.

Lemma sent_in_snoc l k out : sent_in (l ++ [(k, out)]) = sent_in l ++ queued_by k out.
Proof. apply yields_snoc. Qed.
Lemma received_in_snoc l k out : received_in (l ++ [(k, out)]) = received_in l ++ returned_by k out.
Proof. apply yields_snoc. Qed.

(** [close] does not throw, and neither do the overloads with an error code. *)
Lemma close_returns os_message a out : call_at (CallShutdown NoTimeout) a -> finish os_message close a = Some out -> out = Return [] ec_none.
Proof.
  intros Hk Hf. destruct a; try done. cbn in Hk, Hf. simplify_eq. unfold throw_unless_closed.
  by destruct Hk as [->|[->|[_ [ms Hms]]]].
Qed.

(** *** Programs with one sending and one receiving thread *)

(** Which points belong to the thread that sends and to the one that receives. *)
Class Roles (T C : Type) `{Program T C} := {
  sender : T -> bool;
  receiver : T -> bool;
  sender_wants : forall t k, wants t = Some k -> send_kind (forward k) <> None -> sender t = true;
  receiver_wants : forall t k, wants t = Some k -> receive_kind (forward k) <> None -> receiver t = true;
  role_resume : forall t out, sender (resume t out) = sender t /\ receiver (resume t out) = receiver t;
  role_local : forall c ts t t', local c ts t = Some t' -> sender t' = sender t /\ receiver t' = receiver t
}.

Section Roles.
Context {Str R : Type} {BS : ByteStream Str} {Rng : Drbg_api R} {G : Gcm}.
Context {T : Type} {Prg : Program T (conn Str R)} {Rol : Roles T (conn Str R)}.
Variable os_message : Z -> string.

(** What the connection has queued and what was received, as the threads see it. *)
Theorem threads_see (s : Str) (r : seal_rng R) (se : session) (f : FrozenConfig) (ts : list T) (i j : nat) l (a : app) :
  (forall k t, ts !! k = Some t -> sender t = true -> k = i) -> is_Some (ts !! i) ->
  (forall k t, ts !! k = Some t -> receiver t = true -> k = j) -> is_Some (ts !! j) ->
  arun os_message (start s r se f ts) l = Some a ->
  (exists th, a_threads a !! i = Some th /\ one_sender (sent_in (a_log th)) (pends send_kind th) (a_conn a))
  /\ (exists th, a_threads a !! j = Some th /\ one_receiver (received_in (a_log th)) (pends receive_kind th) (a_conn a)).
Proof.
  intros Hi [ti Hti] Hj [tj Htj] Hr. split.
  - assert (I : sole_inv send_kind one_sender queued_by sender i a); [|by apply so_effect in I].
    revert Hr. apply arun_invariant.
    + intros s0 x s1. apply sole_step; eauto using one_sender_step, sender_return, sender_wants.
      * intros d k c He. apply (one_sender_call _ k) in He. by destruct k.
      * intros d pend k c Hk. apply one_sender_other. intros p t ->. done.
      * intros k out Hk. unfold queued_by. by destruct (forward k).
      * intros t out. apply role_resume.
      * intros c0 ts0 t t' Hl. by destruct (role_local _ _ _ _ Hl).
    + eapply sole_start; [split; [by intros m x Hm|done]|done..].
  - assert (I : sole_inv receive_kind one_receiver returned_by receiver j a); [|by apply so_effect in I].
    revert Hr. apply arun_invariant.
    + intros s0 x s1. apply sole_step; eauto using one_receiver_step, receiver_return, receiver_wants.
      * intros d k c He. apply (one_receiver_call _ k) in He. by destruct k.
      * intros d pend k c Hk. apply one_receiver_other. intros t ->. done.
      * intros k out Hk. unfold returned_by. by destruct (forward k).
      * intros t out. apply role_resume.
      * intros c0 ts0 t t' Hl. by destruct (role_local _ _ _ _ Hl).
    + eapply sole_start; [split; [by intros m x Hm|done]|done..].
Qed.

End Roles.

(** ** Two programs *)

(** [b] is the other end of [a]: same session key, and what it reads is what [a] wrote. *)
Definition reads_from {Str R : Type} {BS : ByteStream Str} {Rng : Drbg_api R} {G : Gcm} {Spec : StreamSpec Str}
    (sa sb : Str) (ra rb : seal_rng R) (se : session) (fa fb : FrozenConfig) (a b : conn Str R) : Prop :=
  session_ready se /\ f_on_message fb = None /\ reachable sa ra se fa a /\ reachable sb rb se fb b
  /\ exists wire, outgoing (strm a) = outgoing sa ++ wire /\ incoming sb `prefix_of` wire.

(** The messages a sending thread has queued, with the one it is about to. *)
Definition offered (sent : list bytes) (pend : option (nat * (bytes * timeout))) : list bytes :=
  sent ++ match pend with Some (_, (p, _)) => [p] | None => [] end.

Section Exchange.
Context {Str R : Type} {BS : ByteStream Str} {Spec : StreamSpec Str}.
Context {Rng : Drbg_api R} {RngL : DrbgLaws R} {G : Gcm} {GL : GcmLaws}.

Lemma sender_offered sent pend (c : conn Str R) : one_sender sent pend c -> texts (h_queued (hist c)) `prefix_of` offered sent pend.
Proof.
  unfold offered. intros [_ Hs]. destruct pend as [[n [p t]]|]; [destruct Hs as (x & _ & _ & ->)|by rewrite Hs, app_nil_r].
  apply prefix_app. destruct (has_queued x); [done|apply prefix_nil].
Qed.

Lemma receiver_got got pend (c : conn Str R) : one_receiver got pend c -> got `prefix_of` h_received (hist c).
Proof. intros [_ Hr]. destruct pend as [[n t]|]; [destruct Hr as (x & _ & _ & ->); by eexists|by rewrite Hr]. Qed.

Lemma peer_received (sa sb : Str) (ra rb : seal_rng R) (se : session) (fa fb : FrozenConfig) (a b : conn Str R) :
  reads_from sa sb ra rb se fa fb a b -> h_received (hist b) `prefix_of` texts (h_queued (hist a)).
Proof.
  intros (Hk & Hf & Ha & Hb & wire & Ho & Hi). etransitivity; [|by eapply delivery_prefix]. by eexists.
Qed.

(** What the receiving thread at one end got is a prefix of what the sending thread at
    the other end sent. *)
Lemma exchange (sa sb : Str) (ra rb : seal_rng R) (se : session) (fa fb : FrozenConfig) (a b : conn Str R) sent pend got pend' :
  reads_from sa sb ra rb se fa fb a b -> one_sender sent pend a -> one_receiver got pend' b ->
  got `prefix_of` offered sent pend.
Proof. intros Hl Hs%sender_offered Hr%receiver_got. apply peer_received in Hl. etransitivity; [|exact Hs]. by etransitivity. Qed.

End Exchange.

(** ** Schedules to evaluate programs with *)

Module AppDemo.
Import Toy.

Definition no_os (z : Z) : string := "".
Definition cfg : FrozenConfig := Demo.config 4 4 None.
Definition rng (n : Z) : seal_rng toy_drbg := SealRng false (ToyDrbg n true).

(** A program over [input], and its output. *)
Definition play {T} `{Program T (conn mem_stream toy_drbg)} (n : Z) (input : bytes) (ts : list T) (l : list aact) : app :=
  default (start (MemStream input [] false) (rng n) toy_session cfg ts)
    (arun no_os (start (MemStream input [] false) (rng n) toy_session cfg ts) l).
Definition output {T} (a : app (Str := mem_stream) (R := toy_drbg) (T := T)) : bytes := mem_out (strm (a_conn a)).

(** Thread [i] makes the [n]-th call: a [send] that the writer writes, a [receive] of what
    the reader reads, a [shutdown] in which both threads end, one that finds it was done. *)
Definition say (i n : nat) : list aact :=
  [Begin i] ++ (Internal <$> [ActApp n; ActApp n]) ++ [Ended i] ++ (Internal <$> [ActWriter; ActWriter]).
Definition hear (i n : nat) : list aact :=
  (Internal <$> [ActReader; ActReader; ActReader]) ++ [Begin i] ++ (Internal <$> [ActApp n; ActApp n]) ++ [Ended i].
Definition shut (i n : nat) : list aact :=
  [Begin i] ++ (Internal <$> replicate 4 (ActApp n) ++ replicate 5 ActWriter ++ replicate 4 (ActApp n)
    ++ replicate 4 ActReader ++ [ActApp n]) ++ [Ended i].
Definition again (i n : nat) : list aact := [Begin i; Internal (ActApp n); Ended i].

End AppDemo.
