(* ===== verification/ConnAttack.v ===== *)
(** * ConnAttack

    A connection against the network.  The records of [src/conn.cpp] are sealed one by
    one by [src/crypto/session.cpp] with AES-GCM under a random nonce and without
    additional data: neither the type of a record, nor its position, nor its direction is
    under the tag.  What an attacker who rewrites the stream can and cannot make a
    connection accept follows: nothing that was not sealed by one of the two ends, but
    anything that was and is within the receiver's message limit, as often and in
    whatever order and as whatever type it likes; also the close record of an end, as
    an empty message. *)

From S2P Require Import Prelude Errors Wire Stream Protocol Crypto Session Config Conn ConnInv ConnWriter ConnReader.

(** ** What the attacker sees *)

(** [blob] is the payload of one of the complete records at the start of [wire]. *)
Definition sealed_on (wire blob : bytes) : Prop :=
  exists l t rest, Forall (fun x => record_fits (snd x)) l /\ wire = wire_of l ++ rest /\ (t, blob) ∈ l.

(** The authenticity of AES-GCM, for the stream [input]: whatever part of it opens under
    the key was taken from one of the [wires]. *)
Definition unforged {G : Gcm} (se : session) (wires : list bytes) (input : bytes) : Prop :=
  forall pre blob post p, input = pre ++ blob ++ post -> open se blob = inr p ->
  exists wire, wire ∈ wires /\ sealed_on wire blob.

(** ** Where messages come from *)

Section Source.
Context {Str R : Type} {BS : ByteStream Str} {Rng : Drbg_api R} {G : Gcm}.
Implicit Types c : conn Str R.

(** Whatever the application gets, and whatever is on its way to it, arrived. *)
Record from_wire c : Prop := {
  fw_hand : Forall (fun p => p ∈ h_arrived (hist c)) (in_hand (reader c));
  fw_recv_q : Forall (fun p => p ∈ h_arrived (hist c)) (recv_q (recvs c));
  fw_received : Forall (fun p => p ∈ h_arrived (hist c)) (h_received (hist c));
  fw_jobs : Forall (fun p => p ∈ h_arrived (hist c)) (msg_jobs (jobs c));
  fw_job : Forall (fun p => p ∈ h_arrived (hist c)) (job_in_hand (deliver c));
  fw_called : Forall (fun p => p ∈ h_arrived (hist c)) (h_called (hist c))
}.

Lemma from_wire_step c a c' : from_wire c -> step c a = Some c' -> from_wire c'.
Proof.
  intros F H. destruct a; step_cases H; frame_write; destruct F as [F1 F2 F3 F4 F5 F6].
  all: split; cbn; try done; rewrite ?wake_recv_in_hand, ?wake_send_in_hand, ?wake_recv_in_hand; try done.
  all: repeat match goal with
    | E : reader _ = _ |- _ => rewrite E in F1; clear E
    | E : deliver _ = _ |- _ => rewrite E in F5; clear E
    | E : recv_q _ = _ |- _ => rewrite E in F2; clear E
    | E : msg_jobs _ = _ |- _ => rewrite E in F4; clear E
    end.
  all: cbn in *; rewrite ?Forall_app, ?Forall_cons in *; rewrite ?Forall_singleton in *.
  all: try done; try tauto.
  all: try (by destruct (deliver c)).
  all: try (eapply Forall_impl; [eassumption|]; cbn; set_solver).
  all: split_and?; try (by constructor); try tauto; set_solver.
Qed.

Lemma from_wire_reachable s (r : seal_rng R) se f c : reachable s r se f c -> from_wire c.
Proof.
  apply reachable_invariant; [|apply from_wire_step]. split; cbn; try constructor.
  by destruct (bool_decide _).
Qed.

End Source.

(** ** Nothing is made up *)

Section Attack.
Context {Str R : Type} {BS : ByteStream Str} {Spec : StreamSpec Str}.
Context {Rng : Drbg_api R} {RngL : DrbgLaws R} {G : Gcm} {GL : GcmLaws}.
Implicit Types c : conn Str R.

(** Everything on the wire, up to a cut at its end, is a queued message or the close
    message. *)
Lemma wire_messages (s : Str) (r : seal_rng R) se f c :
  session_ready se -> reachable s r se f c ->
  exists sent rs o part, Forall2 (sealed_as se) sent rs /\ cut_record se o part
    /\ outgoing (strm c) = outgoing s ++ concat rs ++ part
    /\ Forall (fun m => m ∈ h_queued (hist c) \/ m = close_msg) (sent ++ [o]).
Proof.
  intros Hk Hr. destruct (writer_inv_reachable _ _ _ _ _ Hk Hr) as [_ Hw].
  assert (X : exists o, wire_cut se (outgoing s) (h_written (hist c)) o (outgoing (strm c))
     /\ Forall (fun m => m ∈ h_queued (hist c) \/ m = close_msg) (h_written (hist c) ++ [o])).
  { assert (Hex : wire_exact se (outgoing s) (h_written (hist c)) (outgoing (strm c)) ->
      wire_cut se (outgoing s) (h_written (hist c)) close_msg (outgoing (strm c))).
    { intros (rs & Hf & Ho). exists rs, []. rewrite app_nil_r. split_and!; [done|by left|done]. }
    destruct (writer c); cbn in Hw; destruct_and?.
    1-6: exists close_msg; split; [by apply Hex|];
      match goal with X : h_queued _ = _ |- _ => rewrite X end;
      apply Forall_forall; intros m; set_solver.
    all: destruct Hw as [(_ & _ & Hq & Hw)|[(o & Hq & Hw)|(_ & _ & Hq & Hw)]].
    all: first [exists close_msg; split; [by apply Hex|] | eexists; split; [exact Hw|]].
    all: apply Forall_forall; intros m; rewrite Hq; set_solver. }
  destruct X as (o & (rs & part & Hf & Hc & Ho) & Hq). by exists (h_written (hist c)), rs, o, part.
Qed.

(** A record read off the wire carries one of the messages written to it. *)
Lemma sealed_on_message se sent rs o part blob :
  Forall2 (sealed_as se) sent rs -> cut_record se o part -> sealed_on (concat rs ++ part) blob ->
  exists m, m ∈ sent ++ [o] /\ open se blob = inr (pt m).
Proof.
  intros Hs Hc (l & t & rest & Hl & Hw & Hin). revert rs sent Hs Hw.
  induction l as [|[t1 b1] l IH]; intros rs sent Hs Hw; [by apply elem_of_nil in Hin|].
  apply Forall_cons in Hl as [Hb Hl]. rewrite wire_of_cons, <- app_assoc in Hw.
  destruct Hs as [|m rec sent rs (b & -> & Hf & Ho) Hs]; cbn [concat app] in Hw.
  - destruct Hc as [->|(rec & (b & -> & Hf & Ho) & k & E)]; [symmetry in Hw; by apply record_bytes_app in Hw|].
    rewrite Hw, <- !app_assoc in E.
    rewrite <- (app_nil_r (record_bytes (typ o) b)) in E.
    apply record_bytes_inj in E as (_ & -> & E); [|done..]. symmetry in E. apply app_eq_nil in E as [E _].
    apply elem_of_cons in Hin as [[= -> ->]|Hin]; [by exists o; split; [set_solver|]|].
    destruct l as [|[t2 b2] l]; [by apply elem_of_nil in Hin|]. by apply record_bytes_app in E.
  - rewrite <- app_assoc in Hw. apply record_bytes_inj in Hw as (_ & <- & Hw); [|done..].
    apply elem_of_cons in Hin as [[= -> ->]|Hin]; [by exists m; split; [set_solver|]|].
    destruct (IH Hl Hin rs sent Hs Hw) as (m' & Hm & Hop). exists m'. split; [set_solver|done].
Qed.

(** A payload on the wire of a connection was queued there, or is that of the close record. *)
Lemma wire_blob (s : Str) (r : seal_rng R) se f c wire blob :
  session_ready se -> reachable s r se f c -> outgoing (strm c) = outgoing s ++ wire -> sealed_on wire blob ->
  exists m, open se blob = inr (pt m) /\ (m ∈ h_queued (hist c) \/ m = close_msg).
Proof.
  intros Hk Hc Hw Hs. destruct (wire_messages _ _ _ _ _ Hk Hc) as (sent & rs & o & part & H1 & H2 & H3 & H4).
  rewrite H3 in Hw. apply app_inv_head in Hw as <-.
  destruct (sealed_on_message _ _ _ _ _ _ H1 H2 Hs) as (m & Hm & Ho). rewrite Forall_forall in H4. eauto.
Qed.

(** C10 (wire_authenticity).  Two connections with the same session key, each under any
    interleaving, and a network that puts anything it likes before the second one, as long
    as it forges no ciphertext: every message the application of the second one gets, from
    [receive] or in its callback, is the payload of a message one of the two ends queued,
    or that of the close record, which is empty: retyped as a text, a close record is
    received as an empty message that nobody queued. *)
Theorem wire_authenticity (sa sb : Str) (ra rb : seal_rng R) (se : session) (fa fb : FrozenConfig)
    (a b : conn Str R) (wa wb : bytes) :
  session_ready se -> reachable sa ra se fa a -> reachable sb rb se fb b ->
  outgoing (strm a) = outgoing sa ++ wa -> outgoing (strm b) = outgoing sb ++ wb ->
  unforged se [wa; wb] (incoming sb) ->
  forall p, p ∈ h_received (hist b) \/ p ∈ h_called (hist b) ->
  exists m, (m ∈ h_queued (hist a) \/ m ∈ h_queued (hist b) \/ m = close_msg) /\ pt m = p.
Proof.
  intros Hk Ha Hb Hoa Hob Hu p Hp. pose proof (from_wire_reachable _ _ _ _ _ Hb) as [_ _ F3 _ _ F6].
  assert (Harr : p ∈ h_arrived (hist b)).
  { rewrite Forall_forall in F3, F6. destruct Hp; auto. }
  destruct (read_inv_reachable _ _ _ _ _ Hb) as (_ & got & rs & rest & Hg & Hin & E & _). rewrite E in Harr.
  apply list_elem_of_fmap in Harr as (o & -> & Ho). apply list_elem_of_filter in Ho as [_ Ho].
  apply list_elem_of_lookup in Ho as [i Hi]. destruct (Forall2_lookup_l _ _ _ _ _ Hg Hi) as (rec & Hrec & blob & -> & Hf & Hop).
  assert (Hpart : exists pre post, incoming sb = pre ++ blob ++ post).
  { rewrite Hin, <- (take_drop_middle _ _ _ Hrec), concat_app. cbn [concat].
    exists (concat (take i rs) ++ be_bytes 4 (1 + zlen blob) ++ [typ o]), (concat (drop (S i) rs) ++ rest).
    unfold record_bytes. by rewrite <- !app_assoc. }
  destruct Hpart as (pre & post & Hpart). destruct (Hu _ _ _ _ Hpart Hop) as (w & Hw & Hs).
  apply elem_of_cons in Hw as [->|Hw]; [|apply list_elem_of_singleton in Hw as ->].
  - destruct (wire_blob _ _ _ _ _ _ _ Hk Ha Hoa Hs) as (m & Ho' & Hq); rewrite Hop in Ho'; injection Ho' as ->; exists m; tauto.
  - destruct (wire_blob _ _ _ _ _ _ _ Hk Hb Hob Hs) as (m & Ho' & Hq); rewrite Hop in Ho'; injection Ho' as ->; exists m; tauto.
Qed.

(** ** Everything else is possible *)

(** A connection at rest: the reader about to read, [q] in the receive queue. *)
Record at_rest (se : session) (f : FrozenConfig) (input : bytes) (q : list bytes) c : Prop := {
  ar_sess : sess c = se; ar_cfg : cfg c = f; ar_sock : sock_valid c = true;
  ar_reader : reader c = R_read; ar_in : incoming (strm c) = input;
  ar_queue : recv_q (recvs c) = q; ar_open : recv_closed (recvs c) = false;
  ar_going : stop_send (sends c) = false
}.

(** The reader takes a text record from the stream into the empty queue. *)
Lemma reader_takes se f blob p input c :
  f_on_message f = None -> 0 < f_receive_queue_depth f -> zlen p <= f_max_message_bytes f < 2 ^ 31 ->
  record_fits blob -> open se blob = inr p -> at_rest se f (record_bytes kMsgText blob ++ input) [] c ->
  exists c', run c [ActReader; ActReader; ActReader] = Some c' /\ at_rest se f input [p] c'
    /\ h_received (hist c') = h_received (hist c) /\ length (apps c') = length (apps c).
Proof using Spec.
  clear RngL GL. intros Hcb Hd Hm Hf Ho [Hs Hc Hv Hr Hin Hq Hcl Hst].
  destruct (read_record_ok kMsgText blob input (strm c) Hf Hin) as (s & E & Hi & _ & _).
  assert (Hread : reader_step c = Some (dispatch_message kMsgText p (set_io s (rng c) c))).
  { unfold reader_step, read_message. by rewrite Hr, Hv, E, Hs, Ho. }
  unfold dispatch_message in Hread. rewrite bool_decide_true in Hread by done. cbn [cfg set_io] in Hread.
  pose proof (zlen_nonneg p). rewrite Hc, to_int_small in Hread by (unfold is_int; lia).
  assert (Hg : (zlen p >? f_max_message_bytes f) = false) by (rewrite Z.gtb_ltb; apply Z.ltb_ge; lia).
  rewrite Hg in Hread. set (c1 := go_reader _ _) in Hread.
  assert (Hf1 : on_message_set c1 = false) by (apply no_callback; cbn; by rewrite Hc).
  assert (Hp1 : text_pred c1 = true).
  { unfold text_pred, has_space. cbn. rewrite Hq, Hc. cbn. change (to_int 0) with 0.
    rewrite (proj2 (Z.ltb_lt 0 _)) by done. by rewrite !orb_true_r. }
  assert (H2 : run c [ActReader; ActReader; ActReader] = Some (text_locked p (go_reader (R_text_locked p) c1))).
  { cbn [run step]. rewrite Hread. unfold reader_step at 1. change (reader c1) with (R_text p). cbv iota. rewrite Hf1.
    change (mutex_free recv_mu c1) with true. cbv iota. rewrite Hp1. done. }
  rewrite H2. eexists. split; [done|]. unfold text_locked. cbn. rewrite Hst, Hcl. cbn.
  split; [split; cbn; try done; by rewrite Hq|]. split; [done|]. by rewrite length_fmap.
Qed.

(** A [receive] returns the first message of the queue. *)
Lemma receive_takes se f input p q c :
  f_on_message f = None -> at_rest se f input (p :: q) c ->
  exists c', run c [ActCall (CallReceive NoTimeout); ActApp (length (apps c)); ActApp (length (apps c))] = Some c'
    /\ at_rest se f input q c' /\ h_received (hist c') = h_received (hist c) ++ [p].
Proof using Spec.
  clear RngL GL. intros Hcb [Hs Hc Hv Hr Hin Hq Hcl Hst]. set (n := length (apps c)). cbn [run step start_call].
  set (c1 := set_threads _ _ _ _ c).
  assert (Hn : forall x, (apps c ++ [x]) !! n = Some x) by (intros x; apply list_lookup_middle; done).
  assert (H1 : app_step n c1 = Some (go_app n (A_recv_lock NoTimeout) c1)).
  { unfold app_step. cbn [c1 apps set_threads]. rewrite Hn. rewrite no_callback by (cbn; by rewrite Hc). done. }
  rewrite H1. set (c2 := go_app _ _ _).
  assert (H2 : apps c2 !! n = Some (A_recv_lock NoTimeout)).
  { cbn. apply list_lookup_insert_eq. rewrite length_app. cbn. lia. }
  unfold app_step. rewrite H2. unfold mutex_free. cbn [reader c2 c1 go_app set_threads]. rewrite Hr. cbn [reader_holds].
  rewrite bool_decide_false by set_solver. cbn [negb]. unfold recv_locked. cbn [recvs c2 c1 go_app set_threads]. rewrite Hq.
  eexists. split; [done|]. split; [by split|done].
Qed.

(** A sealed payload is 28 bytes longer than what it opens to: nonce and tag. *)
Lemma open_size se blob p : open se blob = inr p -> zlen blob = zlen p + 28.
Proof.
  intros Ho. apply open_inv in Ho as (n & ct & tag & -> & Hn & Ht & He). destruct (gcm_encrypt_length _ _ _ _ _ He) as [Hl _].
  unfold zlen. rewrite !length_app, Hn, Ht, Hl. unfold kNonceSize, kTagSize. lia.
Qed.

(** Records one after the other, each received before the next is read. *)
Lemma replay_runs se f picks msgs rest c :
  f_on_message f = None -> 0 < f_receive_queue_depth f -> f_max_message_bytes f < 2 ^ 31 ->
  Forall (fun blob => record_fits blob /\ zlen blob <= f_max_message_bytes f + 28) picks -> Forall2 (fun blob m => open se blob = inr (pt m)) picks msgs ->
  at_rest se f (wire_of ((fun blob => (kMsgText, blob)) <$> picks) ++ rest) [] c ->
  exists acts c', run c acts = Some c' /\ h_received (hist c') = h_received (hist c) ++ (pt <$> msgs).
Proof.
  intros Hcb Hd Hmax Hf Hm. revert c. induction Hm as [|blob m picks msgs Ho Hm IH]; intros c Hc.
  { exists [], c. cbn. by rewrite app_nil_r. }
  apply Forall_cons in Hf as [[Hb Hx] Hf]. cbn [fmap list_fmap] in Hc. rewrite wire_of_cons, <- app_assoc in Hc.
  pose proof (open_size _ _ _ Ho) as Hz.
  destruct (reader_takes se f blob (pt m) _ c Hcb Hd ltac:(lia) Hb Ho Hc) as (c1 & R1 & A1 & E1 & _).
  destruct (receive_takes se f _ _ _ c1 Hcb A1) as (c2 & R2 & A2 & E2).
  destruct (IH Hf c2 A2) as (acts & c3 & R3 & E3). eexists (_ ++ _ ++ acts), c3. split.
  - rewrite run_app, R1, run_app, R2. exact R3.
  - rewrite E3, E2, E1. cbn. by rewrite <- app_assoc.
Qed.

(** C38 (wire_malleable).  But that is all the network is denied.  Take any sealed
    payloads that two ends with the same session key have put on their wires, in any
    order, any of them any number of times, also those of the receiver's own wire, and
    whatever the type of their records was, as long as none is larger than the message
    limit of the receiver and the 28 bytes of nonce and tag: sent as text records to a
    connection with that key and without a callback, they are all received, one by one,
    as messages. *)
Theorem wire_malleable (sa sb s : Str) (ra rb r : seal_rng R) (se : session) (fa fb f : FrozenConfig)
    (a b : conn Str R) (wa wb : bytes) (picks : list bytes) (rest : bytes) :
  session_ready se -> reachable sa ra se fa a -> reachable sb rb se fb b ->
  outgoing (strm a) = outgoing sa ++ wa -> outgoing (strm b) = outgoing sb ++ wb ->
  Forall (fun blob => record_fits blob /\ (sealed_on wa blob \/ sealed_on wb blob)
    /\ zlen blob <= f_max_message_bytes f + 28) picks ->
  f_on_message f = None -> 0 < f_receive_queue_depth f -> f_max_message_bytes f < 2 ^ 31 ->
  incoming s = wire_of ((fun blob => (kMsgText, blob)) <$> picks) ++ rest ->
  exists msgs acts c,
    Forall2 (fun blob m => open se blob = inr (pt m)
      /\ (m ∈ h_queued (hist a) \/ m ∈ h_queued (hist b) \/ m = close_msg)) picks msgs
    /\ run (Conn_new s r se f) acts = Some c /\ h_received (hist c) = pt <$> msgs.
Proof.
  intros Hk Ha Hb Hoa Hob Hp Hcb Hd Hmax Hin.
  assert (Hmsgs : exists msgs, Forall2 (fun blob m => open se blob = inr (pt m)
      /\ (m ∈ h_queued (hist a) \/ m ∈ h_queued (hist b) \/ m = close_msg)) picks msgs).
  { clear Hin. induction Hp as [|blob picks (_ & Hon & _) _ [msgs IH]]; [by exists []|].
    assert (Hm : exists m, open se blob = inr (pt m) /\ (m ∈ h_queued (hist a) \/ m ∈ h_queued (hist b) \/ m = close_msg)).
    { destruct Hon as [Hon|Hon]; [destruct (wire_blob _ _ _ _ _ _ _ Hk Ha Hoa Hon) as (m & ? & ?)
        |destruct (wire_blob _ _ _ _ _ _ _ Hk Hb Hob Hon) as (m & ? & ?)]; exists m; tauto. }
    destruct Hm as [m Hm]. exists (m :: msgs). by constructor. }
  destruct Hmsgs as [msgs Hmsgs]. exists msgs.
  destruct (replay_runs se f picks msgs rest (Conn_new s r se f) Hcb Hd Hmax) as (acts & c & Hrun & Hrec).
  - eapply Forall_impl; [exact Hp|]. naive_solver.
  - eapply Forall2_impl; [exact Hmsgs|]. naive_solver.
  - by split.
  - by exists acts, c.
Qed.

End Attack.

(** ** Witnesses *)

Import Toy.

(** The wire of a sender of two texts ([sender] of [ConnReader]), and a connection that
    finds its second and first record there, the second one twice. *)
Definition seen : bytes := Eval vm_compute in mem_out (strm sender).
Definition blob_at (i : nat) : bytes := take 29 (drop (5 + 34 * i) seen).
Definition replayed : list bytes := [blob_at 1; blob_at 0; blob_at 1].
Definition attacked : bytes := wire_of ((fun blob => (kMsgText, blob)) <$> replayed).

Definition sender_config : FrozenConfig := Demo.config 4 4 None.
Definition blobs_seen : list (u8 * bytes) := [(kMsgText, blob_at 0); (kMsgText, blob_at 1); (kMsgClose, take 28 (drop 73 seen))].

Lemma seen_blobs : seen = wire_of blobs_seen /\ Forall (fun x => record_fits (snd x)) blobs_seen.
Proof. split; [vm_compute; reflexivity|]. repeat constructor; vm_compute; discriminate. Qed.

Lemma replayed_seen :
  Forall (fun blob => record_fits blob /\ (sealed_on seen blob \/ sealed_on [] blob)
    /\ zlen blob <= f_max_message_bytes (freeze_config None) + 28) replayed.
Proof.
  assert (H : forall t blob, (t, blob) ∈ blobs_seen -> (length blob <=? 29)%nat = true ->
    record_fits blob /\ (sealed_on seen blob \/ sealed_on [] blob) /\ zlen blob <= f_max_message_bytes (freeze_config None) + 28).
  { destruct seen_blobs as [Hs Hf]. intros t blob Hin Hl. split_and!.
    - rewrite Forall_forall in Hf. apply (Hf _ Hin).
    - left. exists blobs_seen, t, []. rewrite app_nil_r. exact (conj Hf (conj Hs Hin)).
    - apply Nat.leb_le in Hl. change (f_max_message_bytes (freeze_config None)) with 524288. unfold zlen. lia. }
  assert (H0 := H _ _ (list_elem_of_here _ _) eq_refl).
  assert (H1 := H _ _ (list_elem_of_further _ _ _ (list_elem_of_here _ _)) eq_refl).
  exact (Forall_cons_2 _ _ _ H1 (Forall_cons_2 _ _ _ H0 (Forall_cons_2 _ _ _ H1 (Forall_nil_2 _)))).
Qed.

Lemma wire_malleable_witness :
  exists msgs acts c, run (Conn_new (MemStream attacked [] false) (SealRng false (ToyDrbg 9 true)) toy_session (freeze_config None)) acts = Some c
    /\ h_received (hist c) = pt <$> msgs /\ length msgs = 3%nat.
Proof.
  destruct (wire_malleable (MemStream [] [] false) (MemStream [] [] false) (MemStream attacked [] false)
    (SealRng false (ToyDrbg 7 true)) (SealRng false (ToyDrbg 7 true)) (SealRng false (ToyDrbg 9 true)) toy_session
    sender_config sender_config (freeze_config None) sender (Conn_new (MemStream [] [] false) (SealRng false (ToyDrbg 7 true)) toy_session sender_config)
    seen [] replayed []) as (msgs & acts & c & Hm & Hr & Hrec).
  - reflexivity.
  - exists two_sends. vm_compute. reflexivity.
  - exists []. reflexivity.
  - reflexivity.
  - reflexivity.
  - exact replayed_seen.
  - reflexivity.
  - reflexivity.
  - reflexivity.
  - symmetry. apply app_nil_r.
  - exists msgs, acts, c. split; [exact Hr|]. split; [exact Hrec|]. symmetry. apply (Forall2_length _ _ _ Hm).
Defined.

(** A network that delivers the second record only. *)
Definition swapped : bytes := wire_of [(kMsgText, blob_at 1)].

(** No part of [input] opens, other than the payloads of [l]. *)
Definition unforged_b (l : list bytes) (input : bytes) : bool :=
  forallb (fun i => forallb (fun j =>
    let blob := take j (drop i input) in
    match open toy_session blob with inl _ => true | inr _ => bool_decide (blob ∈ l) end)
    (seq 0 (S (length input)))) (seq 0 (S (length input))).

Lemma unforged_b_ok l input pre blob post p :
  unforged_b l input = true -> input = pre ++ blob ++ post -> open toy_session blob = inr p -> blob ∈ l.
Proof.
  intros Hb E Ho. unfold unforged_b in Hb. rewrite forallb_forall in Hb.
  assert (Hi : In (length pre) (seq 0 (S (length input)))) by (apply in_seq; rewrite E, length_app; lia).
  specialize (Hb _ Hi). rewrite forallb_forall in Hb.
  assert (Hj : In (length blob) (seq 0 (S (length input)))) by (apply in_seq; rewrite E, !length_app; lia).
  specialize (Hb _ Hj). cbv zeta in Hb. rewrite E, drop_app_length, take_app_length, Ho in Hb. by apply bool_decide_eq_true in Hb.
Qed.

Lemma wire_authenticity_witness :
  let b := Demo.after sender_config swapped receive_first in
  h_received (hist b) = [[Byte.x61]]
  /\ forall p, p ∈ h_received (hist b) \/ p ∈ h_called (hist b) ->
     exists m, (m ∈ h_queued (hist sender) \/ m ∈ h_queued (hist b) \/ m = close_msg) /\ pt m = p.
Proof.
  split; [vm_compute; reflexivity|].
  apply (wire_authenticity (MemStream [] [] false) (MemStream swapped [] false) (SealRng false (ToyDrbg 7 true))
    (SealRng false (ToyDrbg 7 true)) toy_session sender_config sender_config sender
    (Demo.after sender_config swapped receive_first) seen []).
  - reflexivity.
  - exists two_sends. vm_compute. reflexivity.
  - exists receive_first. vm_compute. reflexivity.
  - reflexivity.
  - vm_compute. reflexivity.
  - intros pre blob post p E Ho. exists seen. split; [exact (list_elem_of_here _ _)|].
    pose proof (unforged_b_ok [blob_at 1] swapped pre blob post p) as Hin.
    apply list_elem_of_singleton in Hin; [|vm_compute; reflexivity|exact E|exact Ho]. rewrite Hin.
    destruct seen_blobs as [Hs Hf]. exists blobs_seen, kMsgText, []. rewrite app_nil_r.
    split; [exact Hf|]. split; [exact Hs|]. exact (list_elem_of_further _ _ _ (list_elem_of_here _ _)).
Defined.
