(* ===== verification/ConnRace.v ===== *)
(** * ConnRace

    Data races of a connection.  The members of [Conn] that are not atomic are shared
    between its threads ([src/conn.cpp], [include/cpptcpduplex/conn.hpp]); here is which
    of them the next step of a thread reads and writes and which mutexes it holds while
    it does, and that in every reachable state two threads conflict without a common
    mutex at two places only: the reader's unguarded look at [stop_send_], and the
    descriptor that [shutdown] closes under the reader. *)

From S2P Require Import Prelude Errors Stream Protocol Crypto Session Config Conn ConnInv ConnLive.

(** The members that are not atomic; [fd_] is that of the socket. *)
Inductive member := send_q_ | stop_send_ | recv_q_ | recv_err_ | recv_closed_ | msg_jobs_ | deliver_stop_ | fd_.

#[export] Instance member_eq_dec : EqDecision member.
Proof. solve_decision. Defined.

Inductive kind := Read | Write.

Record access := Access { a_member : member; a_kind : kind; a_locks : list mutex }.

(** The mutex that guards a member; [fd_] has none. *)
Definition guard (m : member) : option mutex :=
  match m with
  | send_q_ | stop_send_ => Some send_mu
  | recv_q_ | recv_err_ | recv_closed_ => Some recv_mu
  | msg_jobs_ | deliver_stop_ => Some jobs_mu
  | fd_ => None
  end.

(** Reading and updating members under the same mutexes. *)
Definition reads (ms : list member) (locks : list mutex) : list access := (fun m => Access m Read locks) <$> ms.
Definition writes (ms : list member) (locks : list mutex) : list access := (fun m => Access m Write locks) <$> ms.

Section Accesses.
Context {Str R : Type} {BS : ByteStream Str} {Rng : Drbg_api R} {G : Gcm}.
Implicit Types c : conn Str R.

Definition reader_accesses c : list access :=
  match reader c with
  | R_read => reads [fd_] []
  | R_text _ =>
      if on_message_set c then reads [msg_jobs_] [jobs_mu] ++ writes [msg_jobs_] [jobs_mu]
      else reads [stop_send_; recv_closed_; recv_q_] [recv_mu]
  | R_text_locked _ =>
      reads [stop_send_; recv_q_] [recv_mu; send_mu] ++ reads [recv_closed_] [recv_mu] ++ writes [recv_q_] [recv_mu]
  | R_ping _ => reads [stop_send_; send_q_] [send_mu] ++ writes [send_q_] [send_mu]
  | R_abort _ held => reads [recv_closed_] (recv_mu :: held) ++ writes [recv_err_; recv_closed_] (recv_mu :: held)
  | R_text_wait _ | R_ping_wait _ | R_store _ | R_notify _ | R_exit => []
  end.

Definition writer_accesses c : list access :=
  match writer c with
  | W_idle => reads [stop_send_; send_q_] [send_mu] ++ writes [send_q_] [send_mu]
  | W_flush => reads [send_q_] [send_mu] ++ writes [send_q_] [send_mu]
  | W_send _ | W_flush_send _ | W_close => reads [fd_] []
  | W_wait | W_store | W_notify | W_exit => []
  end.

Definition deliver_accesses c : list access :=
  match deliver c with
  | D_idle => reads [deliver_stop_; msg_jobs_] [jobs_mu] ++ writes [msg_jobs_] [jobs_mu]
  | D_drain => reads [msg_jobs_] [jobs_mu] ++ writes [msg_jobs_] [jobs_mu]
  | D_none | D_wait | D_call _ | D_drain_call _ | D_exit => []
  end.

(** A wait that times out tests its predicate once more. *)
Definition app_accesses (n : nat) c : list access :=
  match apps c !! n with
  | Some (A_send_lock _ _) | Some (A_send_wait _ _) =>
      reads [stop_send_; send_q_] [send_mu] ++ writes [send_q_] [send_mu]
  | Some (A_recv_lock _) | Some (A_recv_wait _) =>
      reads [recv_q_; recv_closed_; recv_err_] [recv_mu] ++ writes [recv_q_] [recv_mu]
  | Some (A_sd_stop _) => writes [stop_send_] [send_mu]
  | Some (A_sd_jobs _ _) => writes [deliver_stop_] [jobs_mu]
  | Some (A_sd_sock _ _) => reads [fd_] [] ++ writes [fd_] []
  | _ => []
  end.

Definition accesses (t : thread) c : list access :=
  match t with
  | TReader => reader_accesses c
  | TWriter => writer_accesses c
  | TDeliver => deliver_accesses c
  | TApp n => app_accesses n c
  end.

(** The actions by which a thread moves on. *)
Definition moves_on (t : thread) (a : action) : Prop :=
  match t with
  | TReader => a = ActReader
  | TWriter => a = ActWriter
  | TDeliver => a = ActDeliver
  | TApp n => a = ActApp n \/ a = ActTimeout n
  end.

(** ** The accesses are those of the steps *)

(** [c] and [c'] agree on a member. *)
Definition same_member (m : member) c c' : Prop :=
  match m with
  | send_q_ => send_q (sends c') = send_q (sends c)
  | stop_send_ => stop_send (sends c') = stop_send (sends c)
  | recv_q_ => recv_q (recvs c') = recv_q (recvs c)
  | recv_err_ => recv_err (recvs c') = recv_err (recvs c)
  | recv_closed_ => recv_closed (recvs c') = recv_closed (recvs c)
  | msg_jobs_ => msg_jobs (jobs c') = msg_jobs (jobs c)
  | deliver_stop_ => deliver_stop (jobs c') = deliver_stop (jobs c)
  | fd_ => sock_valid c' = sock_valid c
  end.

Definition holds (t : thread) c : list mutex := match t with TReader => reader_holds (reader c) | _ => [] end.

Ltac find_access := solve [repeat first [apply list_elem_of_here | apply list_elem_of_further]].

(** A step changes only members in its list of writes. *)
Lemma accesses_cover t a c c' m :
  moves_on t a -> step c a = Some c' -> same_member m c c' \/ exists l, Access m Write l ∈ accesses t c.
Proof.
  intros Ha H. destruct t; cbn in Ha.
  1-3: subst a. 4: destruct Ha; subst a.
  all: cbn [accesses]; unfold reader_accesses, writer_accesses, deliver_accesses, app_accesses.
  all: step_cases H; frame_write; destruct m; try (by left); right.
  all: eexists; cbn; find_access.
Qed.

(** The mutexes of an access are free, or the thread already holds them. *)
Lemma accesses_locked t a c c' x m :
  moves_on t a -> step c a = Some c' -> x ∈ accesses t c -> m ∈ a_locks x -> mutex_free m c = true \/ m ∈ holds t c.
Proof.
  intros Ha H Hx Hm. destruct t; cbn in Ha.
  1-3: subst a. 4: destruct Ha; subst a.
  all: cbn [accesses] in Hx; unfold reader_accesses, writer_accesses, deliver_accesses, app_accesses in Hx.
  all: unfold step, reader_step, writer_step, deliver_step, app_step, timeout_step in H.
  all: repeat (case_match; simplify_eq/=; try done).
  all: repeat (apply elem_of_cons in Hx as [->|Hx]); try (by apply elem_of_nil in Hx); cbn in Hm.
  all: repeat (apply elem_of_cons in Hm as [->|Hm]); try (by apply elem_of_nil in Hm); auto.
  all: try (right; cbn; match goal with E : reader _ = _ |- _ => rewrite E end; set_solver).
Qed.

(** ** Races *)

Definition conflict (x y : access) : Prop :=
  a_member x = a_member y /\ (a_kind x = Write \/ a_kind y = Write)
  /\ (forall m, m ∈ a_locks x -> m ∈ a_locks y -> False).

Definition enabled (t : thread) c : Prop := exists a c', moves_on t a /\ step c a = Some c'.

(** Two threads can both go on, and their accesses to [m] conflict. *)
Definition race (m : member) (t1 t2 : thread) c : Prop :=
  t1 <> t2 /\ enabled t1 c /\ enabled t2 c
  /\ exists x y, x ∈ accesses t1 c /\ y ∈ accesses t2 c /\ a_member x = m /\ conflict x y.

(** Every access but two kinds is under the mutex of its member. *)
Lemma access_guarded t c x :
  x ∈ accesses t c ->
  (exists mu, guard (a_member x) = Some mu /\ mu ∈ a_locks x)
  \/ (a_member x = stop_send_ /\ a_kind x = Read /\ t = TReader /\ on_message_set c = false
      /\ exists p, reader c = R_text p)
  \/ (a_member x = fd_ /\ a_locks x = []).
Proof.
  intros Hx. destruct t; cbn [accesses] in Hx;
    unfold reader_accesses, writer_accesses, deliver_accesses, app_accesses in Hx;
    repeat (case_match; simplify_eq/=); try (by apply elem_of_nil in Hx).
  all: repeat (apply elem_of_cons in Hx as [->|Hx]); try (by apply elem_of_nil in Hx); cbn.
  all: try (by right; right). all: try (left; eexists; split; [done|]; set_solver).
  right; left. split_and!; try done. by eexists.
Qed.

(** Only [shutdown] writes [stop_send_] and the descriptor. *)
Lemma stop_send_write t c x :
  x ∈ accesses t c -> a_member x = stop_send_ -> a_kind x = Write ->
  exists n to, t = TApp n /\ apps c !! n = Some (A_sd_stop to).
Proof.
  intros Hx Hm Hk. destruct t; cbn [accesses] in Hx;
    unfold reader_accesses, writer_accesses, deliver_accesses, app_accesses in Hx;
    repeat (case_match; simplify_eq/=); try (by apply elem_of_nil in Hx).
  all: repeat (apply elem_of_cons in Hx as [->|Hx]); try (by apply elem_of_nil in Hx); try done.
  by eauto.
Qed.

Lemma fd_access t c x :
  x ∈ accesses t c -> a_member x = fd_ ->
  (a_kind x = Read /\ (t = TReader /\ reader c = R_read \/ t = TWriter /\ writer_done (writer c) = false))
  \/ exists n ec to, t = TApp n /\ apps c !! n = Some (A_sd_sock ec to).
Proof.
  intros Hx Hm. destruct t; cbn [accesses] in Hx;
    unfold reader_accesses, writer_accesses, deliver_accesses, app_accesses in Hx;
    repeat (case_match; simplify_eq/=); try (by apply elem_of_nil in Hx).
  all: repeat (apply elem_of_cons in Hx as [->|Hx]); try (by apply elem_of_nil in Hx); try done.
  all: first [by left; auto | right; eauto | left; split; [done|]; right; split; [done|]].
Qed.

(** The two races there are: [t1] reads, [t2] is in [shutdown]. *)
Definition known_race (m : member) (t1 t2 : thread) c : Prop :=
  (m = stop_send_ /\ t1 = TReader /\ on_message_set c = false /\ (exists p, reader c = R_text p)
   /\ exists n to, t2 = TApp n /\ apps c !! n = Some (A_sd_stop to))
  \/ (m = fd_ /\ exists n ec to, t2 = TApp n /\ apps c !! n = Some (A_sd_sock ec to)
      /\ (t1 = TReader /\ reader c = R_read
          \/ t1 = TWriter /\ writer_done (writer c) = false /\ ec = make_error_code Errc.timed_out)).

(** Two calls of [shutdown] are not both past its first test. *)
Lemma two_winners l i j x y :
  i <> j -> l !! i = Some x -> l !! j = Some y -> won x = true -> won y = true -> (2 <= winners l)%nat.
Proof.
  intros Hij Hi Hj Hx Hy. pose proof (winners_insert l i x (A_ret_send ec_none) Hi) as H1.
  assert (Hj' : (<[i := A_ret_send ec_none]> l) !! j = Some y) by (by rewrite list_lookup_insert_ne).
  pose proof (winners_insert _ j y (A_ret_send ec_none) Hj') as H2. rewrite Hx in H1. rewrite Hy in H2. cbn in *. lia.
Qed.

(** A conflict on the descriptor. *)
Lemma fd_race c t1 t2 x y :
  life c -> once c -> t1 <> t2 -> x ∈ accesses t1 c -> y ∈ accesses t2 c -> a_member x = fd_ -> a_member y = fd_ ->
  a_kind y = Write -> known_race fd_ t1 t2 c.
Proof.
  intros L O Ht Hx Hy Mx My Ky. destruct (fd_access _ _ _ Hy My) as [[Hk _]|(n & ec & to & -> & Hn)]; [congruence|].
  right. split; [done|]. exists n, ec, to. split_and!; [done|done|].
  destruct (fd_access _ _ _ Hx Mx) as [[_ [Hr|[-> Hw]]]|(n' & ec' & to' & -> & Hn')].
  - by left.
  - right. split_and!; [done|done|]. pose proof (Forall_lookup_1 _ _ _ _ (lf_apps _ L) Hn) as [_ Hok].
    destruct Hok as [->|[_ Hd]]; [done|]. rewrite (lf_wdone _ L), Hw in Hd. done.
  - exfalso. assert (n' <> n) by congruence. pose proof (two_winners _ _ _ _ _ H Hn' Hn eq_refl eq_refl) as H2.
    unfold once in O. rewrite O in H2. destruct (shutdown_started _); cbn in H2; lia.
Qed.

(** A conflict that is none of the two. *)
Lemma no_other_race c t1 t2 x y :
  life c -> once c -> t1 <> t2 -> x ∈ accesses t1 c -> y ∈ accesses t2 c -> conflict x y -> a_kind y = Write ->
  known_race (a_member x) t1 t2 c.
Proof.
  intros L O Ht Hx Hy (Hm & _ & Hl) Ky. destruct (decide (a_member x = fd_)) as [E|Hne].
  { rewrite E in *. by eapply fd_race. }
  destruct (access_guarded _ _ _ Hy) as [(mu & Gy & Ly)|[(_ & Hk & _)|[Hf _]]]; [|congruence|congruence].
  destruct (access_guarded _ _ _ Hx) as [(mu' & Gx & Lx)|[(Mx & _ & -> & Hcb & Hr)|[Hf _]]]; [..|done].
  - exfalso. rewrite Hm, Gy in Gx. injection Gx as <-. by eapply Hl.
  - rewrite Mx. left. split_and!; try done. rewrite Mx in Hm. by eapply stop_send_write.
Qed.

End Accesses.

(** C11 (data_races).  In every reachable state, two threads of a connection that are about
    to touch the same member, one of them to write it, hold a common mutex, with two
    exceptions: the reader tests [stop_send_] under the wrong mutex while [shutdown] sets
    it, and [shutdown] closes the descriptor that the reader is reading from (or the
    writer is writing to, when the wait for it timed out). *)
Theorem data_races {Str R : Type} `{BS : ByteStream Str} `{Rng : Drbg_api R} `{G : Gcm}
    (s : Str) (r : seal_rng R) (se : session) (f : FrozenConfig) (c : conn Str R) (m : member) (t1 t2 : thread) :
  reachable s r se f c -> race m t1 t2 c -> known_race m t1 t2 c \/ known_race m t2 t1 c.
Proof.
  intros Hr (Ht & _ & _ & x & y & Hx & Hy & <- & Hc). destruct (once_reachable _ _ _ _ _ Hr) as [L O].
  pose proof Hc as (Hm & Hk & Hl). destruct Hk as [Hk|Hk].
  - right. rewrite Hm. apply (no_other_race c t2 t1 y x); try done. split_and!; [done|by right|]. eauto.
  - left. by eapply no_other_race.
Qed.

(** ** Witness *)

Import Toy.

(** A [shutdown] that timed out waiting for the writer, while the reader reads; and one
    that is about to stop the senders while the reader looks at the queue. *)
Definition closing : list action :=
  ActCall (CallShutdown (Millis 10)) :: replicate 6 (ActApp 0) ++ [ActTimeout 0; ActApp 0; ActApp 0].
Definition stopping : list action := [ActReader; ActCall (CallShutdown NoTimeout); ActApp 0; ActApp 0].

Lemma data_races_witness :
  race fd_ TReader (TApp 0) (demo1 two_texts closing)
  /\ race stop_send_ TReader (TApp 0) (demo1 two_texts stopping)
  /\ (known_race fd_ TReader (TApp 0) (demo1 two_texts closing)
      \/ known_race fd_ (TApp 0) TReader (demo1 two_texts closing)).
Proof.
  assert (H : race fd_ TReader (TApp 0) (demo1 two_texts closing)).
  { split; [discriminate|]. split; [exists ActReader; eexists; split; [reflexivity|vm_compute; reflexivity]|].
    split; [exists (ActApp 0); eexists; split; [by left|vm_compute; reflexivity]|].
    exists (Access fd_ Read []), (Access fd_ Write []).
    split; [apply list_elem_of_here|]. split; [apply list_elem_of_further, list_elem_of_here|].
    split; [reflexivity|]. split; [reflexivity|]. split; [by right|]. intros m Hm. by apply elem_of_nil in Hm. }
  split; [exact H|]. split.
  - split; [discriminate|]. split; [exists ActReader; eexists; split; [reflexivity|vm_compute; reflexivity]|].
    split; [exists (ActApp 0); eexists; split; [by left|vm_compute; reflexivity]|].
    exists (Access stop_send_ Read [recv_mu]), (Access stop_send_ Write [send_mu]).
    split; [apply list_elem_of_here|]. split; [apply list_elem_of_here|].
    split; [reflexivity|]. split; [reflexivity|]. split; [by right|].
    intros m H1 H2. apply list_elem_of_singleton in H1, H2. by subst.
  - apply (data_races (MemStream two_texts [] false) (SealRng false (ToyDrbg 7 true)) toy_session (Demo.config 1 1 None));
      [|exact H]. exists closing. vm_compute. reflexivity.
Defined.
