(* ===== verification/ConnFail.v ===== *)
(** * ConnFail

    A connection whose writer has given up ([src/conn.cpp], [write_loop]): when a message
    cannot be sealed or written, the thread ends and nothing else changes: [stop_send_]
    and [closed_] stay unset, so callers of [send] are not told. *)

From S2P Require Import Prelude Errors Stream Protocol Crypto Session Config Conn ConnInv ConnLive.

Section Fail.
Context {Str R : Type} {BS : ByteStream Str} {Rng : Drbg_api R} {G : Gcm}.
Implicit Types c : conn Str R.

(** What was on the wire and in the queue at [c], and what was queued since. *)
Record abandoned c (later : list Outbound) c' : Prop := {
  ab_writer : writer_over (writer c') = true;
  ab_written : h_written (hist c') = h_written (hist c);
  ab_queued : h_queued (hist c') = h_queued (hist c) ++ later;
  ab_queue : send_q (sends c') = send_q (sends c) ++ later;
  ab_cfg : cfg c' = cfg c
}.

Lemma over_wake w : writer_over (wake_writer_send w) = writer_over w.
Proof. by destruct w. Qed.

Lemma abandoned_step c later x a y :
  abandoned c later x -> step x a = Some y -> exists more, abandoned c (later ++ more) y
    /\ (more = [] \/ has_space (send_q (sends x)) (f_send_queue_depth (cfg x)) = true).
Proof.
  intros [H1 H2 H3 H4 H5] H. destruct a; step_cases H; frame_write.
  all: try match goal with E : writer _ = _ |- _ => rewrite E in H1; done end.
  all: try (exists []; split; [|by left]; rewrite app_nil_r; by split; cbn; rewrite ?over_wake).
  all: eexists [_]; (split; [split; cbn; rewrite ?over_wake, ?app_assoc; try done; by rewrite ?H3, ?H4|right]).
  all: done.
Qed.

Lemma abandoned_run c l c' :
  writer_over (writer c) = true -> run c l = Some c' -> exists later, abandoned c later c'.
Proof.
  intros Hw. apply (run_invariant (fun x => exists later, abandoned c later x)).
  - intros x a y [later Hx] Hs. destruct (abandoned_step _ _ _ _ _ Hx Hs) as (more & Hy & _). eauto.
  - exists []. by split; rewrite ?app_nil_r.
Qed.

(** With a full queue nothing more is queued. *)
Lemma full_run c l c' :
  writer_over (writer c) = true -> has_space (send_q (sends c)) (f_send_queue_depth (cfg c)) = false ->
  run c l = Some c' -> abandoned c [] c'.
Proof.
  intros Hw Hf. apply (run_invariant (fun x => abandoned c [] x)).
  - intros x a y Hx Hs. destruct (abandoned_step _ _ _ _ _ Hx Hs) as (more & Hy & [->|Hsp]); [done|].
    rewrite (ab_queue _ _ _ Hx), (ab_cfg _ _ _ Hx), app_nil_r in Hsp. congruence.
  - by split; rewrite ?app_nil_r.
Qed.

(** A [send] without a timeout that has not returned. *)
Definition sending (a : apc) : Prop :=
  match a with A_send_lock _ NoTimeout | A_send_wait _ NoTimeout => True | _ => False end.

Definition full c : Prop := has_space (send_q (sends c)) (f_send_queue_depth (cfg c)) = false.

Lemma sending_wake a : sending a -> sending (wake_app_send a) /\ sending (wake_app_recv a) /\ sending (wake_app_done a).
Proof. by destruct a. Qed.

Lemma sending_step n c a c' :
  full c -> stop_send (sends c) = false -> call_point sending n (apps c) -> step c a = Some c' ->
  stop_send (sends c') = true \/ call_point sending n (apps c').
Proof.
  intros Hf Hst Hn H. unfold full in Hf. assert (Hn' := Hn). destruct Hn' as (x & Hx & Hk).
  destruct a; step_cases H; frame_write; cbn in *; try (by left); right.
  all: repeat first
    [ exact Hn
    | apply call_point_fmap; [by intros; apply sending_wake|]
    | apply call_point_app
    | apply call_point_insert; [|intros <-] ].
  all: rewrite Hx in *; simplify_eq; try done; rewrite ?Hst, ?Hf in *; try done.
  by do 3 apply sending_wake.
Qed.

(** With a full queue and without [shutdown] a [send] without a timeout waits on. *)
Lemma sending_run n c l c' :
  writer_over (writer c) = true -> full c -> call_point sending n (apps c) ->
  run c l = Some c' -> stop_send (sends c') = false -> call_point sending n (apps c').
Proof.
  intros Hw Hf Hn. revert c'. induction l as [|a l IH] using rev_ind; intros c' Hr Hs.
  { cbn in Hr. by simplify_eq. }
  rewrite run_app in Hr. destruct (run c l) as [x|] eqn:Hx; [|done]. cbn in Hr. destruct (step x a) as [y|] eqn:Hy; simplify_eq.
  destruct (full_run _ _ _ Hw Hf Hx) as [_ X2 X3 X4 X5]. rewrite app_nil_r in X3, X4.
  assert (Hsx : stop_send (sends x) = false).
  { destruct (stop_send (sends x)) eqn:E; [|done]. pose proof (le_stop _ _ (flags_step _ _ _ Hy) E). congruence. }
  assert (Hfx : full x) by (unfold full; by rewrite X4, X5).
  destruct (sending_step _ _ _ _ Hfx Hsx (IH x eq_refl Hsx) Hy) as [?|?]; [congruence|done].
Qed.

(** The reader keeps [send_mu_] only after a stop. *)
Definition send_held c : Prop := stop_send (sends c) = false -> mutex_free send_mu c = true.

Lemma send_held_step c a c' : send_held c -> step c a = Some c' -> send_held c'.
Proof.
  unfold send_held, mutex_free. intros Hc H. destruct a; step_cases H; frame_write; cbn in *; intros Hs; try done.
  all: try specialize (Hc Hs); try done; try congruence.
  all: repeat match goal with E : reader _ = _ |- _ => rewrite E in Hc; clear E end; try done.
  all: try (apply andb_true_iff in H as [H _]; congruence).
  all: try specialize (Hc eq_refl); by destruct (reader c).
Qed.

Lemma send_free (s : Str) (r : seal_rng R) se f c :
  reachable s r se f c -> stop_send (sends c) = false -> mutex_free send_mu c = true.
Proof. apply (reachable_invariant send_held); [done|apply send_held_step]. Qed.

(** A [send] of a connection that is not stopped and has room. *)
Lemma send_accepted n p t c :
  closed (flg c) = false -> stop_send (sends c) = false -> mutex_free send_mu c = true ->
  apps c !! n = Some (A_send p t) -> to_int (zlen p) <= f_max_message_bytes (cfg c) -> ~ full c ->
  exists c', run c [ActApp n; ActApp n] = Some c' /\ apps c' !! n = Some (A_ret_send ec_none)
    /\ send_q (sends c') = send_q (sends c) ++ [MkOutbound kMsgText p].
Proof.
  intros Hc Hs Hm Hn Hp Hf. set (o := MkOutbound kMsgText p). pose proof (lookup_lt_Some _ _ _ Hn) as Hl.
  assert (H1 : app_step n c = Some (go_app n (A_send_lock o t) c)).
  { unfold app_step. rewrite Hn, Hc. by guard_false (to_int (zlen p) >? f_max_message_bytes (cfg c)). }
  cbn [run step]. rewrite H1. unfold app_step. cbn [apps go_app set_threads]. rewrite list_lookup_insert_eq by done.
  unfold mutex_free in *. cbn [reader go_app set_threads]. rewrite Hm. unfold send_locked. cbn [sends cfg go_app set_threads].
  rewrite Hs. unfold full in Hf. apply not_false_iff_true in Hf. rewrite Hf. eexists. split; [done|]. cbn.
  by rewrite list_lookup_fmap, list_insert_insert_eq, list_lookup_insert_eq by done.
Qed.

(** C39 (write_failure_silent).  When the write of a message fails, the writer thread ends
    and nobody is told.  In every later state in which [shutdown] has not been called:
    nothing more was written, and the message whose write failed and all that was queued
    since stay unsent; [closed_] and [stop_send_] are unset, so a [send] of a message
    within the limit with room in the queue returns success by its own two steps, its
    message in the queue; and when the queue is full, a [send] without a timeout does not
    return in any continuation without [shutdown]. *)
Theorem write_failure_silent (s : Str) (r : seal_rng R) (se : session) (f : FrozenConfig) c o c1 l c' :
  reachable s r se f c -> writer c = W_send o -> conn_write o c = (c1, false) ->
  run c (ActWriter :: l) = Some c' -> shutdown_started (flg c') = false ->
  (exists later, h_written (hist c') = h_written (hist c) /\ h_queued (hist c') = h_queued (hist c) ++ later
     /\ send_q (sends c') = send_q (sends c) ++ later)
  /\ closed (flg c') = false /\ stop_send (sends c') = false
  /\ (forall n p t, apps c' !! n = Some (A_send p t) -> to_int (zlen p) <= f_max_message_bytes (cfg c') -> ~ full c' ->
      exists c2, run c' [ActApp n; ActApp n] = Some c2 /\ apps c2 !! n = Some (A_ret_send ec_none)
        /\ send_q (sends c2) = send_q (sends c') ++ [MkOutbound kMsgText p])
  /\ (full c' -> forall n l' c2, call_point sending n (apps c') -> run c' l' = Some c2 ->
      shutdown_started (flg c2) = false -> call_point sending n (apps c2)).
Proof.
  intros Hr Hw Hc Hrun Hs. pose proof (reachable_run _ _ _ _ _ _ _ Hr Hrun) as Hr'.
  assert (Hopen : forall x, reachable s r se f x -> shutdown_started (flg x) = false ->
    closed (flg x) = false /\ stop_send (sends x) = false).
  { intros x Hx Hsx. pose proof (life_reachable _ _ _ _ _ Hx) as L. split; apply not_true_iff_false; intros E.
    - rewrite (lf_closed _ L E) in Hsx. done.
    - rewrite (lf_closed _ L (lf_stop _ L E)) in Hsx. done. }
  destruct (Hopen _ Hr' Hs) as [Hcl Hst]. cbn [run step] in Hrun. unfold writer_step in Hrun. rewrite Hw, Hc in Hrun.
  apply conn_write_frame in Hc as (s1 & r1 & ->).
  destruct (abandoned_run (go_writer W_store (set_io s1 r1 c)) _ _ eq_refl Hrun) as (later & [A1 A2 A3 A4 A5]). split_and!; try done.
  - by exists later.
  - intros n p t Hn Hp Hf. eapply send_accepted; try done. by eapply send_free.
  - intros Hf n l' c2 Hn Hl' Hs2. eapply sending_run; try done.
    by apply (Hopen _ (reachable_run _ _ _ _ _ _ _ Hr' Hl') Hs2).
Qed.

End Fail.

(** ** Witness *)

Import Toy.

(** A send on a connection whose peer is gone: the write is about to fail. *)
Definition broken_start : conn mem_stream toy_drbg :=
  Conn_new (MemStream [] [] true) (SealRng false (ToyDrbg 7 true)) toy_session (Demo.config 1 1 None).
Definition about_to_fail : list action := [ActCall (CallSend [Byte.x61] NoTimeout); ActApp 0; ActApp 0; ActWriter].
Definition before_failure : conn mem_stream toy_drbg := default broken_start (run broken_start about_to_fail).

(** The next call finds the queue of depth one empty ... *)
Definition next_send : list action := [ActWriter; ActWriter; ActCall (CallSend [Byte.x62] NoTimeout)].
(** ... and the one after it finds it full. *)
Definition last_send : list action :=
  next_send ++ [ActApp 1; ActApp 1; ActCall (CallSend [Byte.x63] NoTimeout); ActApp 2; ActApp 2].
Definition after_failure (l : list action) : conn mem_stream toy_drbg :=
  default before_failure (run before_failure (ActWriter :: l)).
Definition trying : list action := [ActSpurious (TApp 2); ActApp 2; ActCall (CallSend [Byte.x64] NoTimeout); ActApp 3; ActApp 3].

Lemma write_failure_silent_witness :
  writer before_failure = W_send (MkOutbound kMsgText [Byte.x61])
  /\ (exists c2, run (after_failure next_send) [ActApp 1; ActApp 1] = Some c2 /\ apps c2 !! 1%nat = Some (A_ret_send ec_none)
       /\ send_q (sends c2) = [MkOutbound kMsgText [Byte.x62]])
  /\ h_written (hist (after_failure last_send)) = []
  /\ call_point sending 2 (apps (default before_failure (run (after_failure last_send) trying))).
Proof.
  assert (Hr : reachable (MemStream [] [] true) (SealRng false (ToyDrbg 7 true)) toy_session (Demo.config 1 1 None) before_failure)
    by (exists about_to_fail; vm_compute; reflexivity).
  assert (Hw : writer before_failure = W_send (MkOutbound kMsgText [Byte.x61])) by (vm_compute; reflexivity).
  assert (Hc : conn_write (MkOutbound kMsgText [Byte.x61]) before_failure
    = (fst (conn_write (MkOutbound kMsgText [Byte.x61]) before_failure), false)) by (vm_compute; reflexivity).
  split; [exact Hw|]. split.
  - destruct (write_failure_silent _ _ _ _ _ _ _ next_send (after_failure next_send) Hr Hw Hc) as (_ & _ & _ & H & _).
    + vm_compute. reflexivity.
    + vm_compute. reflexivity.
    + apply (H 1%nat [Byte.x62] NoTimeout); [vm_compute; reflexivity|vm_compute; discriminate|vm_compute; discriminate].
  - destruct (write_failure_silent _ _ _ _ _ _ _ last_send (after_failure last_send) Hr Hw Hc) as (_ & _ & _ & _ & H).
    + vm_compute. reflexivity.
    + vm_compute. reflexivity.
    + split; [vm_compute; reflexivity|].
      apply (H ltac:(vm_compute; reflexivity) 2%nat trying).
      * eexists. split; [vm_compute; reflexivity|exact I].
      * vm_compute. reflexivity.
      * vm_compute. reflexivity.
Defined.
