(* ===== verification/Socket.v ===== *)
(** * Socket

    [include/cpptcpduplex/detail/socket.hpp] and [src/detail/socket.cpp], the POSIX
    branch: addresses, [TcpSocket] and [TcpListener] over the system calls of the
    operating system, which are operations of the class [Kernel] with what their
    manual pages promise as laws.  The read and write loops make a stream out of
    calls that transfer any part of a buffer: they satisfy [Stream.StreamSpec], so
    everything proved of the handshake, the records and the connection over a stream
    holds over a socket. *)

From stdpp Require Import gmap.
From S2P Require Import Prelude Errors Stream.

(** ** The operating system *)

Record addrinfo := AddrInfo { ai_family : Z; ai_addr : bytes }.

(** [struct timeval]. *)
Record timeval := TimeVal { tv_sec : Z; tv_usec : Z }.

Inductive sockopt := SO_RCVTIMEO | SO_SNDTIMEO.

(** The calls the code makes; [-1] and [None] report a failure, with its number in
    [errno]. *)
Class Kernel (K : Type) := {
  errno : K -> Z;
  sys_recv : Z -> nat -> K -> K * option bytes;
  sys_send : Z -> bytes -> K -> K * Z;
  sys_close : Z -> K -> K;
  sys_socket : Z -> K -> K * Z;
  sys_connect : Z -> addrinfo -> K -> K * bool;
  sys_bind : Z -> addrinfo -> K -> K * bool;
  sys_listen : Z -> K -> K * bool;
  sys_accept : Z -> K -> K * Z;
  sys_settimeo : Z -> sockopt -> timeval -> K -> K;
  sys_reuseaddr : Z -> K -> K;
  sys_getaddrinfo : option bytes -> bytes -> bool -> K -> K * option (list addrinfo);
  sys_getpeername : Z -> K -> option addrinfo;
  sys_getsockname : Z -> K -> option addrinfo;
  sys_getnameinfo : addrinfo -> option (bytes * bytes)
}.

(** Values of <errno.h> and <sys/socket.h> on Linux; EWOULDBLOCK is EAGAIN. *)
Definition ETIMEDOUT : Z := 110.
Definition EAGAIN : Z := 11.
Definition AF_INET : Z := 2.
Definition AF_INET6 : Z := 10.

(** ** Addresses *)

Definition colon : u8 := Byte.x3a.
Definition open_bracket : u8 := Byte.x5b.
Definition close_bracket : u8 := Byte.x5d.

(** [s.find(c)] and [s.rfind(c)]. *)
Fixpoint find (c : u8) (s : bytes) : option nat :=
  match s with
  | [] => None
  | x :: rest => if bool_decide (x = c) then Some 0%nat else S <$> find c rest
  end.

Fixpoint rfind (c : u8) (s : bytes) : option nat :=
  match s with
  | [] => None
  | x :: rest =>
      match rfind c rest with
      | Some i => Some (S i)
      | None => if bool_decide (x = c) then Some 0%nat else None
      end
  end.

(** "0.0.0.0" *)
Definition any_host : bytes := String.list_byte_of_string "0.0.0.0".

(** [Some (host, port)] when the function returns [true]. *)
Definition parse_host_port (address : bytes) : option (bytes * bytes) :=
  if bool_decide (address = []) then None
  else if bool_decide (address !! 0%nat = Some open_bracket) then
    match find close_bracket address with
    | None => None
    | Some e =>
        if (length address <=? e + 1)%nat || negb (bool_decide (address !! (e + 1)%nat = Some colon)) then None
        else
          let host := take (e - 1) (drop 1 address) in
          let port := drop (e + 2) address in
          if bool_decide (host = []) || bool_decide (port = []) then None else Some (host, port)
    end
  else
    match rfind colon address with
    | None => None
    | Some pos =>
        let host := take pos address in
        let port := drop (pos + 1) address in
        let host := if bool_decide (host = []) then any_host else host in
        if bool_decide (port = []) then None else Some (host, port)
    end.

(** ** Sockets *)

Definition kInvalidSocket : Z := -1.

(** [class TcpSocket] is its descriptor. *)
Record TcpSocket := MkTcpSocket { fd_ : Z }.
Record TcpListener := MkTcpListener { ln_fd_ : Z; addr_ : bytes }.

Section Operations.
Context {K : Type} {Ker : Kernel K}.
Implicit Types k : K.

Definition last_socket_error k : error_code :=
  let e := errno k in
  if (e =? ETIMEDOUT) || (e =? EAGAIN) then make_error_code Errc.timed_out
  else if (e =? ECONNRESET) || (e =? EPIPE) then make_error_code Errc.closed
  else ErrorCode e generic_category.

Definition map_socket_error k : error_code := last_socket_error k.

Definition sockaddr_to_string (sa : addrinfo) : bytes :=
  match sys_getnameinfo sa with
  | None => []
  | Some (host, serv) =>
      if ai_family sa =? AF_INET6 then [open_bracket] ++ host ++ [close_bracket; colon] ++ serv
      else host ++ [colon] ++ serv
  end.

Definition socket_valid (s : TcpSocket) : bool := negb (fd_ s =? kInvalidSocket).

Definition TcpSocket_close (s : TcpSocket) k : TcpSocket * K :=
  if fd_ s =? kInvalidSocket then (s, k) else (MkTcpSocket kInvalidSocket, sys_close (fd_ s) k).

(** The move constructor: the new socket and what is left of the old one. *)
Definition TcpSocket_move (other : TcpSocket) : TcpSocket * TcpSocket :=
  (MkTcpSocket (fd_ other), MkTcpSocket kInvalidSocket).

(** Move assignment of another object. *)
Definition TcpSocket_assign (this other : TcpSocket) k : TcpSocket * TcpSocket * K :=
  let '(_, k1) := TcpSocket_close this k in
  (MkTcpSocket (fd_ other), MkTcpSocket kInvalidSocket, k1).

(** Milliseconds as seconds and microseconds. *)
Definition timeval_of (ms : Z) : timeval := TimeVal (Z.quot ms 1000) (Z.rem ms 1000 * 1000).

Definition set_both (fd : Z) (tv : timeval) k : K := sys_settimeo fd SO_SNDTIMEO tv (sys_settimeo fd SO_RCVTIMEO tv k).

Definition set_deadline (s : TcpSocket) (from_now : Z) k : K :=
  if negb (socket_valid s) then k
  else set_both (fd_ s) (if from_now >? 0 then timeval_of from_now else TimeVal 0 0) k.

Definition clear_deadline (s : TcpSocket) k : K := set_deadline s 0 k.

(** Lines 179-214: the first address that connects. *)
Fixpoint connect_loop (timeout : Z) (res : list addrinfo) k : K * Z :=
  match res with
  | [] => (k, kInvalidSocket)
  | ai :: rest =>
      let '(k1, s) := sys_socket (ai_family ai) k in
      if s <? 0 then connect_loop timeout rest k1
      else
        let k2 := if timeout >? 0 then set_both s (timeval_of timeout) k1 else k1 in
        let '(k3, ok) := sys_connect s ai k2 in
        if ok then (k3, s) else connect_loop timeout rest (sys_close s k3)
  end.

Definition connect (address : bytes) (timeout : Z) : io K TcpSocket := fun k =>
  match parse_host_port address with
  | None => (k, inl (make_error_code Errc.other))
  | Some (host, port) =>
      match sys_getaddrinfo (Some host) port false k with
      | (k1, None) => (k1, inl (make_error_code Errc.io_error))
      | (k1, Some res) =>
          let '(k2, fd) := connect_loop timeout res k1 in
          if fd =? kInvalidSocket then (k2, inl (make_error_code Errc.io_error))
          else let sock := MkTcpSocket fd in (clear_deadline sock k2, inr sock)
      end
  end.

(** [fuel] bounds the calls: each one that continues the loop got at least a byte. *)
Fixpoint read_loop (fd : Z) (fuel want : nat) (got : bytes) : io K bytes := fun k =>
  if (length got <? want)%nat then
    match fuel with
    | O => (k, inl (make_error_code Errc.other))
    | S fuel' =>
        match sys_recv fd (want - length got) k with
        | (k1, Some []) => (k1, inl (make_error_code Errc.closed))
        | (k1, None) => (k1, inl (last_socket_error k1))
        | (k1, Some b) => read_loop fd fuel' want (got ++ b) k1
        end
    end
  else (k, inr got).

Definition socket_read_exact (s : TcpSocket) (n : nat) : io K bytes := read_loop (fd_ s) n n [].

Fixpoint write_loop (fd : Z) (fuel : nat) (buf : bytes) (sent : Z) : io K unit := fun k =>
  if sent <? zlen buf then
    match fuel with
    | O => (k, inl (make_error_code Errc.other))
    | S fuel' =>
        let '(k1, n) := sys_send fd (drop (Z.to_nat sent) buf) k in
        if n <=? 0 then (k1, inl (last_socket_error k1))
        else write_loop fd fuel' buf (sent + n) k1
    end
  else (k, inr tt).

Definition socket_write_all (s : TcpSocket) (buf : bytes) : io K unit := write_loop (fd_ s) (length buf) buf 0.

Definition remote_addr (s : TcpSocket) k : bytes :=
  if negb (socket_valid s) then []
  else match sys_getpeername (fd_ s) k with Some sa => sockaddr_to_string sa | None => [] end.

Definition local_addr (s : TcpSocket) k : bytes :=
  if negb (socket_valid s) then []
  else match sys_getsockname (fd_ s) k with Some sa => sockaddr_to_string sa | None => [] end.

(** ** Listeners *)

Definition TcpListener_close (l : TcpListener) k : TcpListener * K :=
  if ln_fd_ l =? kInvalidSocket then (l, k)
  else (MkTcpListener kInvalidSocket (addr_ l), sys_close (ln_fd_ l) k).

(** Lines 362-390: the first address that can be bound and listened on. *)
Fixpoint listen_loop (res : list addrinfo) k : K * Z :=
  match res with
  | [] => (k, kInvalidSocket)
  | ai :: rest =>
      let '(k1, s) := sys_socket (ai_family ai) k in
      if s <? 0 then listen_loop rest k1
      else
        let '(k2, bound) := sys_bind s ai (sys_reuseaddr s k1) in
        let '(k3, ok) := if bound then sys_listen s k2 else (k2, false) in
        if ok then (k3, s) else listen_loop rest (sys_close s k3)
  end.

Definition listen (address : bytes) : io K TcpListener := fun k =>
  match parse_host_port address with
  | None => (k, inl (make_error_code Errc.other))
  | Some (host, port) =>
      let host_c := if bool_decide (host = any_host) || bool_decide (host = []) then None else Some host in
      match sys_getaddrinfo host_c port true k with
      | (k1, None) => (k1, inl (make_error_code Errc.io_error))
      | (k1, Some res) =>
          let '(k2, fd) := listen_loop res k1 in
          if fd =? kInvalidSocket then (k2, inl (make_error_code Errc.io_error))
          else
            let addr := match sys_getsockname fd k2 with Some sa => sockaddr_to_string sa | None => [] end in
            (k2, inr (MkTcpListener fd addr))
      end
  end.

Definition accept (l : TcpListener) : io K TcpSocket := fun k =>
  if ln_fd_ l =? kInvalidSocket then (k, inl (make_error_code Errc.closed))
  else
    let '(k1, s) := sys_accept (ln_fd_ l) k in
    if s <? 0 then (k1, inl (last_socket_error k1)) else (k1, inr (MkTcpSocket s)).

End Operations.

(** [class SocketStream] of dial.cpp and protocol.cpp. *)
Definition SocketStream {K} `{Kernel K} (sock : TcpSocket) : ByteStream K := {|
  read_exact := socket_read_exact sock;
  write_all := socket_write_all sock
|}.

(** ** What the manual pages promise *)

Class KernelLaws (K : Type) `{Kernel K} := {
  open_fds : K -> gset Z;
  timeo : sockopt -> Z -> K -> timeval;
  pending : Z -> K -> bytes;     (* what the peer will have delivered on a descriptor *)
  delivered : Z -> K -> bytes;   (* what was taken for delivery to the peer *)
  ready : Z -> K -> Prop;        (* the connection accepts data *)
  same_fds (k k' : K) : Prop := open_fds k' = open_fds k /\ forall o fd, timeo o fd k' = timeo o fd k;
  recv_law fd n k k' r : (0 < n)%nat -> sys_recv fd n k = (k', r) ->
    same_fds k k' /\ delivered fd k' = delivered fd k /\ (ready fd k -> ready fd k')
    /\ match r with
       | None => pending fd k = [] /\ errno k' <> 0
       | Some b => (length b <= n)%nat /\ pending fd k = b ++ pending fd k' /\ (b = [] -> pending fd k = [])
       end;
  send_law fd b k k' m : b <> [] -> sys_send fd b k = (k', m) ->
    same_fds k k' /\ pending fd k' = pending fd k /\ m <= zlen b /\ (ready fd k -> 0 < m /\ ready fd k')
    /\ (0 < m -> delivered fd k' = delivered fd k ++ take (Z.to_nat m) b)
    /\ (m <= 0 -> delivered fd k' = delivered fd k /\ errno k' <> 0);
  close_law fd k : open_fds (sys_close fd k) = open_fds k ∖ {[fd]}
    /\ forall o fd', fd' <> fd -> timeo o fd' (sys_close fd k) = timeo o fd' k;
  socket_law f k k' s : sys_socket f k = (k', s) ->
    if s <? 0 then same_fds k k'
    else s ∉ open_fds k /\ open_fds k' = {[s]} ∪ open_fds k /\ forall o fd, fd <> s -> timeo o fd k' = timeo o fd k;
  connect_law fd ai k : same_fds k (fst (sys_connect fd ai k));
  bind_law fd ai k : same_fds k (fst (sys_bind fd ai k));
  listen_law fd k : same_fds k (fst (sys_listen fd k));
  reuseaddr_law fd k : same_fds k (sys_reuseaddr fd k);
  getaddrinfo_law h p f k : same_fds k (fst (sys_getaddrinfo h p f k));
  accept_law l k k' s : sys_accept l k = (k', s) ->
    if s <? 0 then same_fds k k' /\ errno k' <> 0
    else s ∉ open_fds k /\ open_fds k' = {[s]} ∪ open_fds k /\ forall o fd, fd <> s -> timeo o fd k' = timeo o fd k;
  settimeo_law fd o tv k : open_fds (sys_settimeo fd o tv k) = open_fds k
    /\ timeo o fd (sys_settimeo fd o tv k) = tv
    /\ forall o' fd', o' <> o \/ fd' <> fd -> timeo o' fd' (sys_settimeo fd o tv k) = timeo o' fd' k;
  settimeo_data fd o tv k fd' : pending fd' (sys_settimeo fd o tv k) = pending fd' k
    /\ delivered fd' (sys_settimeo fd o tv k) = delivered fd' k
}.

Section Facts.
Context {K : Type} {Ker : Kernel K} {Laws : KernelLaws K}.
Implicit Types k : K.

Lemma same_fds_trans k1 k2 k3 : same_fds k1 k2 -> same_fds k2 k3 -> same_fds k1 k3.
Proof. intros [H1 H2] [H3 H4]. split; [congruence|]. intros. by rewrite H4, H2. Qed.

Lemma same_fds_refl k : same_fds k k.
Proof. done. Qed.

(** An error number that is not zero gives an error. *)
Lemma last_socket_error_bool k : errno k <> 0 -> ec_bool (last_socket_error k) = true.
Proof.
  intros He. unfold last_socket_error. destruct (_ || _); [done|]. destruct (_ || _); [done|].
  unfold ec_bool. cbn. by guard_false (errno k =? 0).
Qed.

(** ** The read loop *)

Section Stream.
Context (fd : Z).

(** Whatever pieces the calls return, the loop returns the next bytes of the stream,
    or fails when there are fewer. *)
Lemma read_loop_spec fuel want got k :
  (want <= length got + fuel)%nat -> (length got <= want)%nat ->
  let n := (want - length got)%nat in
  exists k' r, read_loop fd fuel want got k = (k', r) /\ same_fds k k'
    /\ delivered fd k' = delivered fd k /\ (ready fd k -> ready fd k')
    /\ if decide (n <= length (pending fd k))%nat
       then r = inr (got ++ take n (pending fd k)) /\ pending fd k' = drop n (pending fd k)
       else exists e, r = inl e /\ ec_bool e = true.
Proof.
  revert got k. induction fuel as [|fuel IH]; intros got k Hf Hg; cbn [read_loop]; cbn zeta.
  all: destruct (length got <? want)%nat eqn:Hlt.
  1: apply Nat.ltb_lt in Hlt; lia.
  1, 3: apply Nat.ltb_ge in Hlt; assert (want - length got = 0)%nat as -> by lia; exists k, (inr got);
    rewrite decide_True, take_0, app_nil_r by lia; done.
  apply Nat.ltb_lt in Hlt. destruct (sys_recv fd (want - length got) k) as [k1 r] eqn:Hr.
  destruct (recv_law fd (want - length got) k k1 r ltac:(lia) Hr) as (Hs & Hd & Hw & Hb).
  destruct r as [[|x b]|].
  - destruct Hb as (_ & _ & Hp). specialize (Hp eq_refl). eexists k1, _.
    split_and!; [done|done|done|done|]. rewrite Hp, decide_False by (cbn; lia). by eexists.
  - destruct Hb as (Hl & Hp & _). set (piece := x :: b) in *. assert (0 < length piece)%nat by (cbn; lia). clearbody piece.
    destruct (IH (got ++ piece) k1) as (k' & r & E & H1 & H2 & H3 & H4); [rewrite length_app; lia|rewrite length_app; lia|].
    rewrite length_app in H4. exists k', r. cbn [app] in E. rewrite Hp, length_app.
    split_and!; [destruct piece; [cbn in *; lia|exact E]|by apply (same_fds_trans _ k1)|congruence|auto|].
    destruct (decide (want - (length got + length piece) <= length (pending fd k1))%nat) as [Hle|Hgt].
    + rewrite decide_True by lia. destruct H4 as [-> ->].
      rewrite take_app_ge, drop_app_ge by lia. rewrite <- app_assoc.
      by replace (want - length got - length piece)%nat with (want - (length got + length piece))%nat by lia.
    + rewrite decide_False by lia. done.
  - destruct Hb as (Hp & He). eexists k1, _. split_and!; [done|done|done|done|].
    rewrite Hp, decide_False by (cbn; lia). eexists. split; [done|by apply last_socket_error_bool].
Qed.

(** ** The write loop *)

Lemma write_loop_spec fuel buf sent k :
  0 <= sent <= zlen buf -> zlen buf <= sent + Z.of_nat fuel ->
  exists k' r, write_loop fd fuel buf sent k = (k', r) /\ same_fds k k' /\ pending fd k' = pending fd k
    /\ (ready fd k -> r = inr tt /\ ready fd k')
    /\ match r with
       | inr _ => delivered fd k' = delivered fd k ++ drop (Z.to_nat sent) buf
       | inl e => ec_bool e = true
           /\ exists p, p `prefix_of` drop (Z.to_nat sent) buf /\ delivered fd k' = delivered fd k ++ p
       end.
Proof.
  revert sent k. induction fuel as [|fuel IH]; intros sent k Hs Hf; cbn [write_loop].
  all: destruct (sent <? zlen buf) eqn:Hlt; bool_to_prop.
  1: lia.
  1, 3: exists k, (inr tt); rewrite drop_ge, app_nil_r by (unfold zlen in *; lia); done.
  set (rest := drop (Z.to_nat sent) buf). assert (Hrest : zlen rest = zlen buf - sent) by (unfold rest, zlen in *; rewrite length_drop; lia).
  destruct (sys_send fd rest k) as [k1 n] eqn:Hsend.
  destruct (send_law fd rest k k1 n) as (H1 & H2 & Hn & H3 & H4 & H5); [intros E; rewrite E in Hrest; unfold zlen in *; cbn in *; lia|done|].
  destruct (n <=? 0) eqn:Hn0; bool_to_prop.
  - destruct (H5 Hn0) as [Hd He]. eexists k1, _. split_and!; [done|done|done|intros Hr; destruct (H3 Hr); lia|].
    split; [by apply last_socket_error_bool|]. exists []. split; [apply prefix_nil|]. by rewrite app_nil_r.
  - destruct (IH (sent + n) k1) as (k' & r & E & E1 & E2 & E3 & E4); [lia|lia|]. specialize (H4 Hn0).
    exists k', r. assert (Hdrop : drop (Z.to_nat (sent + n)) buf = drop (Z.to_nat n) rest)
      by (unfold rest; rewrite drop_drop; f_equal; lia).
    split_and!; [done|by apply (same_fds_trans _ k1)|congruence|intros Hr; apply E3, H3, Hr|].
    rewrite Hdrop, H4 in E4. destruct r as [e|].
    + destruct E4 as (He & p & Hp & Hd). split; [done|]. exists (take (Z.to_nat n) rest ++ p).
      rewrite app_assoc. split; [|done]. rewrite <- (take_drop (Z.to_nat n) rest) at 2. by apply prefix_app.
    + by rewrite E4, <- app_assoc, take_drop.
Qed.

End Stream.

(** ** A socket is a stream *)

Section SocketSpec.
Context (sock : TcpSocket).

Lemma socket_read k n :
  exists k' r, socket_read_exact sock n k = (k', r) /\ same_fds k k'
    /\ delivered (fd_ sock) k' = delivered (fd_ sock) k /\ (ready (fd_ sock) k -> ready (fd_ sock) k')
    /\ if decide (n <= length (pending (fd_ sock) k))%nat
       then r = inr (take n (pending (fd_ sock) k)) /\ pending (fd_ sock) k' = drop n (pending (fd_ sock) k)
       else exists e, r = inl e /\ ec_bool e = true.
Proof.
  destruct (read_loop_spec (fd_ sock) n n [] k) as (k' & r & H); [cbn; lia|cbn; lia|].
  cbn [length app] in H. rewrite Nat.sub_0_r in H. by exists k', r.
Qed.

Lemma socket_write k b :
  exists k' r, socket_write_all sock b k = (k', r) /\ same_fds k k' /\ pending (fd_ sock) k' = pending (fd_ sock) k
    /\ (ready (fd_ sock) k -> r = inr tt /\ ready (fd_ sock) k')
    /\ match r with
       | inr _ => delivered (fd_ sock) k' = delivered (fd_ sock) k ++ b
       | inl e => ec_bool e = true
           /\ exists p, p `prefix_of` b /\ delivered (fd_ sock) k' = delivered (fd_ sock) k ++ p
       end.
Proof. apply (write_loop_spec (fd_ sock) (length b) b 0 k); unfold zlen; lia. Qed.

#[refine] Instance socket_stream_spec : @StreamSpec K (SocketStream sock) := {
  incoming := pending (fd_ sock);
  outgoing := delivered (fd_ sock);
  writable := ready (fd_ sock)
}.
Proof.
  - intros n k Hn. destruct (socket_read k n) as (k' & r & E & _ & Hd & Hw & H). rewrite decide_True in H by done.
    destruct H as [-> Hp]. by exists k'.
  - intros n k Hn. destruct (socket_read k n) as (k' & r & E & _ & Hd & _ & H). rewrite decide_False in H by lia.
    destruct H as (e & -> & He). by exists k', e.
  - intros b k Hw. destruct (socket_write k b) as (k' & r & E & _ & Hp & Hr & H). destruct (Hr Hw) as [-> Hw'].
    by exists k'.
  - intros b k k' r Hb. destruct (socket_write k b) as (k1 & r1 & E & _ & Hp & _ & H). cbn in Hb. rewrite Hb in E.
    by simplify_eq.
Defined.

End SocketSpec.

(** ** Descriptors *)

(** [fd] is a new descriptor; the others are as before. *)
Definition opens (fd : Z) (k k' : K) : Prop :=
  0 <= fd /\ fd ∉ open_fds k /\ open_fds k' = {[fd]} ∪ open_fds k
  /\ forall o fd', fd' ∈ open_fds k -> timeo o fd' k' = timeo o fd' k.

(** The same descriptors as before, with their timeouts. *)
Definition keeps_fds (k k' : K) : Prop :=
  open_fds k' = open_fds k /\ forall o fd, fd ∈ open_fds k -> timeo o fd k' = timeo o fd k.

Lemma same_keeps k k' : same_fds k k' -> keeps_fds k k'.
Proof. intros [H1 H2]. split; auto. Qed.

Lemma keeps_trans k1 k2 k3 : keeps_fds k1 k2 -> keeps_fds k2 k3 -> keeps_fds k1 k3.
Proof. intros [H1 H2] [H3 H4]. split; [congruence|]. intros o fd Hfd. rewrite H4, H2 by congruence. done. Qed.

Lemma keeps_opens fd k1 k2 k3 : keeps_fds k1 k2 -> opens fd k2 k3 -> opens fd k1 k3.
Proof.
  intros [H1 H2] (H3 & H4 & H5 & H6). rewrite H1 in *. split_and!; [done|done|done|].
  intros o fd' Hfd. by rewrite H6, H2.
Qed.

Lemma opens_same fd k1 k2 k3 : opens fd k1 k2 -> same_fds k2 k3 -> opens fd k1 k3.
Proof. intros (H1 & H2 & H3 & H4) [H5 H6]. split_and!; [done|done|congruence|]. intros. by rewrite H6, H4. Qed.

Lemma set_both_opens fd tv k1 k2 :
  opens fd k1 k2 -> opens fd k1 (set_both fd tv k2) /\ forall o, timeo o fd (set_both fd tv k2) = tv.
Proof.
  intros (H1 & H2 & H3 & H4). unfold set_both.
  destruct (settimeo_law fd SO_RCVTIMEO tv k2) as (L1 & L2 & L3).
  destruct (settimeo_law fd SO_SNDTIMEO tv (sys_settimeo fd SO_RCVTIMEO tv k2)) as (L4 & L5 & L6).
  split; [split_and!; [done|done|congruence|]|].
  - intros o fd' Hfd. rewrite L6, L3 by (right; set_solver). auto.
  - intros []; [|done]. by rewrite L6 by (left; done).
Qed.

(** Closing a new descriptor. *)
Lemma opens_close fd k1 k2 : opens fd k1 k2 -> keeps_fds k1 (sys_close fd k2).
Proof.
  intros (H1 & H2 & H3 & H4). destruct (close_law fd k2) as [L1 L2]. split; [set_solver|].
  intros o fd' Hfd. rewrite L2 by set_solver. auto.
Qed.

Lemma new_fd s k k' :
  (if s <? 0 then same_fds k k'
   else s ∉ open_fds k /\ open_fds k' = {[s]} ∪ open_fds k /\ forall o fd, fd <> s -> timeo o fd k' = timeo o fd k) ->
  if s <? 0 then keeps_fds k k' else opens s k k'.
Proof.
  destruct (s <? 0) eqn:Hs; bool_to_prop; [apply same_keeps|]. intros (H1 & H2 & H3). split_and!; [done|done|done|].
  intros o fd' Hfd. apply H3. set_solver.
Qed.

Lemma connect_loop_fds timeout res k k' fd :
  connect_loop timeout res k = (k', fd) -> if fd =? kInvalidSocket then keeps_fds k k' else opens fd k k'.
Proof.
  revert k. induction res as [|ai res IH]; intros k H; cbn in H; [simplify_eq; done|].
  destruct (sys_socket (ai_family ai) k) as [k1 s] eqn:Hs. apply socket_law, new_fd in Hs.
  destruct (s <? 0) eqn:Hneg; bool_to_prop.
  { specialize (IH _ H). destruct (fd =? kInvalidSocket); [by eapply keeps_trans|by eapply keeps_opens]. }
  set (k2 := if timeout >? 0 then _ else _) in *.
  assert (H2 : opens s k k2) by (unfold k2; destruct (_ >? _); [by apply set_both_opens|done]). clearbody k2.
  pose proof (connect_law s ai k2) as Hc. destruct (sys_connect s ai k2) as [k3 ok]. cbn in Hc.
  apply (opens_same _ _ _ _ H2) in Hc. destruct ok.
  - simplify_eq. unfold kInvalidSocket. by guard_false (fd =? -1).
  - specialize (IH _ H). apply opens_close in Hc.
    destruct (fd =? kInvalidSocket); [by eapply keeps_trans|by eapply keeps_opens].
Qed.

Lemma listen_loop_fds res k k' fd :
  listen_loop res k = (k', fd) -> if fd =? kInvalidSocket then keeps_fds k k' else opens fd k k'.
Proof.
  revert k. induction res as [|ai res IH]; intros k H; cbn in H; [simplify_eq; done|].
  destruct (sys_socket (ai_family ai) k) as [k1 s] eqn:Hs. apply socket_law, new_fd in Hs.
  destruct (s <? 0) eqn:Hneg; bool_to_prop.
  { specialize (IH _ H). destruct (fd =? kInvalidSocket); [by eapply keeps_trans|by eapply keeps_opens]. }
  apply (opens_same _ _ _ (sys_reuseaddr s k1)) in Hs; [|apply reuseaddr_law].
  pose proof (bind_law s ai (sys_reuseaddr s k1)) as Hb. destruct (sys_bind s ai _) as [k2 bound]. cbn in Hb.
  apply (opens_same _ _ _ _ Hs) in Hb.
  assert (Hl : opens s k (fst (if bound then sys_listen s k2 else (k2, false)))).
  { destruct bound; [|done]. by apply (opens_same _ _ _ _ Hb), listen_law. }
  destruct (if bound then _ else _) as [k3 ok]. cbn in Hl. destruct ok.
  - simplify_eq. unfold kInvalidSocket. by guard_false (fd =? -1).
  - specialize (IH _ H). apply opens_close in Hl.
    destruct (fd =? kInvalidSocket); [by eapply keeps_trans|by eapply keeps_opens].
Qed.

(** [connect]: one new descriptor without a deadline, or the state of before. *)
Lemma connect_fds address timeout k k' r :
  connect address timeout k = (k', r) ->
  match r with
  | inr sock => opens (fd_ sock) k k' /\ socket_valid sock = true
      /\ forall o, timeo o (fd_ sock) k' = TimeVal 0 0
  | inl e => ec_bool e = true /\ keeps_fds k k'
  end.
Proof.
  unfold connect. intros H. destruct (parse_host_port address) as [[host port]|]; [|by simplify_eq].
  pose proof (getaddrinfo_law (Some host) port false k) as Hg.
  destruct (sys_getaddrinfo _ _ _ k) as [k1 [res|]]; cbn in Hg; apply same_keeps in Hg; [|by simplify_eq].
  destruct (connect_loop timeout res k1) as [k2 fd] eqn:Hl. apply connect_loop_fds in Hl.
  destruct (fd =? kInvalidSocket) eqn:Hfd.
  - simplify_eq. split; [done|]. by eapply keeps_trans.
  - simplify_eq. apply (keeps_opens _ _ _ _ Hg) in Hl. unfold clear_deadline, set_deadline, socket_valid. cbn [fd_].
    rewrite Hfd. cbn [negb]. destruct (set_both_opens fd (TimeVal 0 0) k k2 Hl). done.
Qed.

End Facts.

(** ** Addresses *)

Lemma find_none c s : find c s = None <-> c ∉ s.
Proof.
  induction s as [|x s IH]; cbn; [set_solver|]. case_bool_decide as Hx; [set_solver|].
  rewrite fmap_None, IH. set_solver.
Qed.

Lemma find_some c s i : find c s = Some i <-> exists a b, s = a ++ c :: b /\ length a = i /\ c ∉ a.
Proof.
  revert i. induction s as [|x s IH]; intros i; cbn.
  { split; [done|]. intros ([|y a] & b & H & _); done. }
  case_bool_decide as Hx.
  - subst x. split.
    + intros [= <-]. exists [], s. set_solver.
    + intros ([|y a] & b & H & <- & Hn); [done|]. simplify_eq/=. set_solver.
  - rewrite fmap_Some. split.
    + intros (j & Hj & ->). apply IH in Hj as (a & b & -> & <- & Hn). exists (x :: a), b. set_solver.
    + intros ([|y a] & b & H & <- & Hn); simplify_eq/=. exists (length a). split; [|done].
      apply IH. exists a, b. set_solver.
Qed.

Lemma rfind_none c s : rfind c s = None <-> c ∉ s.
Proof.
  induction s as [|x s IH]; cbn; [set_solver|]. destruct (rfind c s) as [j|].
  - split; [done|]. intros Hn. assert (Hs : c ∉ s) by set_solver. by apply IH in Hs.
  - case_bool_decide as Hx; [set_solver|]. assert (c ∉ s) by (by apply IH). set_solver.
Qed.

Lemma rfind_some c s i : rfind c s = Some i <-> exists a b, s = a ++ c :: b /\ length a = i /\ c ∉ b.
Proof.
  revert i. induction s as [|x s IH]; intros i; cbn.
  { split; [done|]. intros ([|y a] & b & H & _); done. }
  destruct (rfind c s) as [j|] eqn:Hj.
  - destruct (proj1 (IH j) eq_refl) as (a' & b' & -> & Hl & Hn'). split.
    + intros [= <-]. rewrite <- Hl. by exists (x :: a'), b'.
    + intros ([|y a] & b & H & <- & Hn); [exfalso; injection H as -> <-; set_solver|]. injection H as -> H.
      assert (Hs : Some j = Some (length a)) by (apply IH; exists a, b; done). injection Hs as Hs. cbn. by rewrite Hs.
  - apply rfind_none in Hj. split.
    + case_bool_decide as Hx; [|done]. intros [= <-]. subst. by exists [], s.
    + intros ([|y a] & b & H & <- & Hn); simplify_eq/=; [by rewrite bool_decide_eq_true_2|]. exfalso. set_solver.
Qed.

(** The addresses the library understands. *)
Inductive address_of : bytes -> bytes -> bytes -> Prop :=
  | bracketed h p : h <> [] -> close_bracket ∉ h -> p <> [] ->
      address_of (open_bracket :: h ++ close_bracket :: colon :: p) h p
  | plain h p : h <> [] -> head h <> Some open_bracket -> p <> [] -> colon ∉ p ->
      address_of (h ++ colon :: p) h p
  | any p : p <> [] -> colon ∉ p -> address_of (colon :: p) any_host p.

Lemma parse_bracketed h p :
  h <> [] -> close_bracket ∉ h -> p <> [] ->
  parse_host_port (open_bracket :: h ++ close_bracket :: colon :: p) = Some (h, p).
Proof.
  intros Hh Hn Hp. unfold parse_host_port. rewrite bool_decide_eq_false_2 by done.
  rewrite bool_decide_eq_true_2 by done.
  rewrite (proj2 (find_some close_bracket _ (S (length h)))).
  2: { exists (open_bracket :: h), (colon :: p). split_and!; [done|done|]. set_solver. }
  cbn [length]. rewrite length_app. cbn [length]. rewrite (proj2 (Nat.leb_gt _ _)) by lia.
  rewrite bool_decide_eq_true_2. 2: { rewrite app_comm_cons, lookup_app_r by (cbn; lia). by replace (_ - _)%nat with 1%nat by (cbn; lia). }
  cbn [negb orb drop]. rewrite Nat.sub_1_r. cbn [Nat.pred Nat.add]. rewrite drop_0.
  rewrite take_app_length, skipn_cons, drop_app_add. cbn [drop].
  by rewrite !bool_decide_eq_false_2.
Qed.

Lemma parse_unbracketed h p :
  head h <> Some open_bracket -> p <> [] -> colon ∉ p ->
  parse_host_port (h ++ colon :: p) = Some (if bool_decide (h = []) then any_host else h, p).
Proof.
  intros Hh Hp Hn. unfold parse_host_port. rewrite bool_decide_eq_false_2 by (by destruct h).
  rewrite bool_decide_eq_false_2 by (by destruct h).
  rewrite (proj2 (rfind_some colon _ (length h))) by (by exists h, p).
  rewrite take_app_length, drop_app_add. cbn [drop].
  by rewrite (bool_decide_eq_false_2 (p = [])).
Qed.

Lemma parse_sound a h p : parse_host_port a = Some (h, p) -> address_of a h p.
Proof.
  unfold parse_host_port. case_bool_decide as Ha; [done|]. case_bool_decide as Hb.
  - destruct a as [|x a]; [done|]. cbn in Hb. injection Hb as ->.
    destruct (find close_bracket (open_bracket :: a)) as [e|] eqn:He; [|done].
    apply find_some in He as ([|y l] & r & Heq & <- & Hn); simplify_eq/=.
    rewrite length_app. cbn [length]. destruct (_ || _) eqn:Hg; [done|]. apply orb_false_iff in Hg as [Hg1 Hg2].
    bool_to_prop. rewrite Nat.add_1_r in Hg2. cbn in Hg2. rewrite lookup_app_r in Hg2 by lia.
    rewrite Nat.sub_succ_l, Nat.sub_diag in Hg2 by lia. cbn in Hg2. destruct r as [|z r]; [done|]. cbn in Hg2. simplify_eq.
    rewrite Nat.sub_0_r, drop_0, take_app_length, drop_app_add. cbn [drop].
    destruct (_ || _) eqn:Hg; [done|]. apply orb_false_iff in Hg as [Hg3 Hg4]. bool_to_prop. intros [= <- <-].
    apply bracketed; set_solver.
  - destruct (rfind colon a) as [pos|] eqn:Hr; [|done]. apply rfind_some in Hr as (l & r & -> & <- & Hn).
    rewrite take_app_length, drop_app_add. cbn [drop].
    case_bool_decide as Hp; [done|]. intros [= <- <-]. destruct l as [|x l]; [by apply any|].
    apply plain; [done|by intros [= ->]|done|done].
Qed.

Lemma parse_complete a h p : address_of a h p -> parse_host_port a = Some (h, p).
Proof.
  intros [h' p' H1 H2 H3|h' p' H1 H2 H3 H4|p' H1 H2].
  - by apply parse_bracketed.
  - rewrite parse_unbracketed by done. by rewrite bool_decide_eq_false_2.
  - by apply (parse_unbracketed [] p').
Qed.

(** [parse_host_port] accepts exactly the addresses
    [[host]:port], [host:port] and [:port] with a port, splits them where the form
    says, and gives the wildcard host for the last; and it reads back what
    [sockaddr_to_string] prints for the numeric host and port of an address. *)
Theorem parse_host_port_exact {K} `{Kernel K} (a h p : bytes) (sa : addrinfo) (host serv : bytes) :
  (parse_host_port a = Some (h, p) <-> address_of a h p)
  /\ (sys_getnameinfo sa = Some (host, serv) -> host <> [] -> serv <> [] ->
      open_bracket ∉ host -> close_bracket ∉ host -> colon ∉ serv ->
      parse_host_port (sockaddr_to_string sa) = Some (host, serv)).
Proof.
  split; [split; [apply parse_sound|apply parse_complete]|].
  intros Hn Hh Hs Ho Hc Hcol. unfold sockaddr_to_string. rewrite Hn. destruct (ai_family sa =? AF_INET6).
  - by apply parse_bracketed.
  - cbn [app]. rewrite parse_unbracketed; [by rewrite bool_decide_eq_false_2| |done|done].
    destruct host as [|x host]; [done|]. cbn. intros [= ->]. set_solver.
Qed.

(** ** Theorems *)

(** Over any kernel that returns a non-empty part of what
    was asked for, the read and write loops of [TcpSocket] implement a byte stream:
    [read_exact] returns exactly the next bytes the peer delivers, however they are
    cut, and fails when the stream ends before; [write_all] hands over the whole
    buffer in order, or fails with a part of it handed over; neither touches the
    descriptors. *)
Theorem socket_stream_correct {K} `{KernelLaws K} (sock : TcpSocket) (n : nat) (b : bytes) (k : K) :
  (exists k' r, socket_read_exact sock n k = (k', r) /\ same_fds k k'
     /\ delivered (fd_ sock) k' = delivered (fd_ sock) k
     /\ if decide (n <= length (pending (fd_ sock) k))%nat
        then r = inr (take n (pending (fd_ sock) k)) /\ pending (fd_ sock) k' = drop n (pending (fd_ sock) k)
        else exists e, r = inl e /\ ec_bool e = true)
  /\ (exists k' r, socket_write_all sock b k = (k', r) /\ same_fds k k'
     /\ pending (fd_ sock) k' = pending (fd_ sock) k
     /\ match r with
        | inr _ => delivered (fd_ sock) k' = delivered (fd_ sock) k ++ b
        | inl e => ec_bool e = true
            /\ exists p, p `prefix_of` b /\ delivered (fd_ sock) k' = delivered (fd_ sock) k ++ p
        end).
Proof.
  split.
  - destruct (socket_read sock k n) as (k' & r & H1 & H2 & H3 & _ & H4). by exists k', r.
  - destruct (socket_write sock k b) as (k' & r & H1 & H2 & H3 & _ & H4). by exists k', r.
Qed.

(** [connect] and [listen] leak nothing: they return
    one new open descriptor (a connected one without deadlines), or an error with
    the set of open descriptors and their timeouts as before, whichever of the
    addresses could not be used. *)
Theorem connect_listen_descriptors {K} `{KernelLaws K} (address : bytes) (timeout : Z) (k : K) :
  match connect address timeout k with
  | (k', inr sock) => opens (fd_ sock) k k' /\ forall o, timeo o (fd_ sock) k' = TimeVal 0 0
  | (k', inl e) => ec_bool e = true /\ keeps_fds k k'
  end
  /\ match listen address k with
     | (k', inr ln) => opens (ln_fd_ ln) k k'
     | (k', inl e) => ec_bool e = true /\ keeps_fds k k'
     end.
Proof.
  split.
  - destruct (connect address timeout k) as [k' [e|sock]] eqn:E; apply connect_fds in E; naive_solver.
  - unfold listen. destruct (parse_host_port address) as [[host port]|]; [|done].
    set (host_c := if _ || _ then _ else _). pose proof (getaddrinfo_law host_c port true k) as Hg.
    destruct (sys_getaddrinfo _ _ _ k) as [k1 [res|]]; cbn in Hg; apply same_keeps in Hg; [|done].
    destruct (listen_loop res k1) as [k2 fd] eqn:Hl. apply listen_loop_fds in Hl.
    destruct (fd =? kInvalidSocket); [split; [done|by eapply keeps_trans]|by eapply keeps_opens].
Qed.

(** ** A kernel to evaluate the operations with *)

Module ToyKernel.

(** Every descriptor sees the same connection; calls move at most two bytes; the
    first address of a name refuses connections. *)
Record kernel := MkKernel {
  k_open : gset Z; k_next : Z; k_rcv : gmap Z timeval; k_snd : gmap Z timeval;
  k_in : bytes; k_out : bytes; k_broken : bool
}.

Definition table (o : sockopt) (k : kernel) : gmap Z timeval := match o with SO_RCVTIMEO => k_rcv k | SO_SNDTIMEO => k_snd k end.

Definition new_descriptor (k : kernel) : kernel * Z :=
  let s := fresh (k_open k ∪ {[k_next k]}) in
  let s := if decide (0 <= s) then s else foldr Z.max 0 (elements (k_open k)) + 1 in
  (MkKernel ({[s]} ∪ k_open k) (k_next k) (k_rcv k) (k_snd k) (k_in k) (k_out k) (k_broken k), s).

#[export] Instance toy_kernel : Kernel kernel := {
  errno k := 104;
  sys_recv fd n k :=
    (MkKernel (k_open k) (k_next k) (k_rcv k) (k_snd k) (drop (Nat.min n 2) (k_in k)) (k_out k) (k_broken k),
     Some (take (Nat.min n 2) (k_in k)));
  sys_send fd b k :=
    if k_broken k then (k, -1)
    else (MkKernel (k_open k) (k_next k) (k_rcv k) (k_snd k) (k_in k) (k_out k ++ take 2 b) (k_broken k),
          Z.min 2 (zlen b));
  sys_close fd k := MkKernel (k_open k ∖ {[fd]}) (k_next k) (k_rcv k) (k_snd k) (k_in k) (k_out k) (k_broken k);
  sys_socket _ k := new_descriptor k;
  sys_connect fd ai k := (k, negb (bool_decide (ai_addr ai = [])));
  sys_bind fd ai k := (k, true);
  sys_listen fd k := (k, true);
  sys_accept fd k := new_descriptor k;
  sys_settimeo fd o tv k :=
    match o with
    | SO_RCVTIMEO => MkKernel (k_open k) (k_next k) (<[fd := tv]> (k_rcv k)) (k_snd k) (k_in k) (k_out k) (k_broken k)
    | SO_SNDTIMEO => MkKernel (k_open k) (k_next k) (k_rcv k) (<[fd := tv]> (k_snd k)) (k_in k) (k_out k) (k_broken k)
    end;
  sys_reuseaddr fd k := k;
  sys_getaddrinfo h p f k := (k, Some [AddrInfo AF_INET []; AddrInfo AF_INET p]);
  sys_getpeername fd k := None;
  sys_getsockname fd k := None;
  sys_getnameinfo sa := Some (any_host, ai_addr sa)
}.

Lemma fresh_descriptor k k' s :
  new_descriptor k = (k', s) -> 0 <= s /\ s ∉ k_open k /\ k_open k' = {[s]} ∪ k_open k
    /\ k_rcv k' = k_rcv k /\ k_snd k' = k_snd k.
Proof.
  unfold new_descriptor. intros [= <- <-]. cbn. split_and!; try done.
  - destruct (decide _); [done|]. assert (forall l, 0 <= foldr Z.max 0 l) by (induction l; cbn; lia).
    specialize (H (elements (k_open k))). lia.
  - destruct (decide _).
    + pose proof (is_fresh (k_open k ∪ {[k_next k]})). set_solver.
    + intros Hin. apply elem_of_elements in Hin. revert Hin. generalize (elements (k_open k)). intros l Hin.
      assert (Hb : forall x, x ∈ l -> x <= foldr Z.max 0 l).
      { clear. induction l as [|y l IH]; intros x Hx; [set_solver|]. cbn. apply elem_of_cons in Hx as [->|Hx]; [lia|].
        specialize (IH x Hx). lia. }
      apply Hb in Hin. lia.
Qed.

#[export, refine] Instance toy_kernel_laws : KernelLaws kernel := {
  open_fds := k_open;
  timeo o fd k := default (TimeVal 0 0) (table o k !! fd);
  pending _ := k_in;
  delivered _ := k_out;
  ready _ k := k_broken k = false
}.
Proof.
  - intros fd n k k' r Hn H. cbn in H. simplify_eq. cbn. split_and!; try done.
    + rewrite length_take. lia.
    + by rewrite take_drop.
    + intros Hb. destruct n as [|n]; [lia|]. by destruct (k_in k).
  - intros fd b k k' m Hb H. cbn in H. destruct (k_broken k) eqn:Hk; simplify_eq; cbn.
    + split_and!; try done; try lia. unfold zlen. lia.
    + split_and!; try done; [lia| | |].
      * intros _. destruct b; [done|]. unfold zlen. cbn. lia.
      * intros _. f_equal. unfold zlen. destruct b as [|x [|y b]]; [done|done|]. cbn -[Z.min].
        by replace (Z.to_nat (Z.min 2 _)) with 2%nat by lia.
      * destruct b; [done|]. unfold zlen. cbn. lia.
  - done.
  - intros f k k' s H. apply fresh_descriptor in H as (H1 & H2 & H3 & H4 & H5). guard_false (s <? 0).
    split_and!; [done|done|]. intros [] fd _; cbn; congruence.
  - done.
  - done.
  - done.
  - done.
  - done.
  - intros l k k' s H. apply fresh_descriptor in H as (H1 & H2 & H3 & H4 & H5). guard_false (s <? 0).
    split_and!; [done|done|]. intros [] fd _; cbn; congruence.
  - intros fd [] tv k; cbn; rewrite lookup_insert_eq; (split_and!; [done|done|]); intros [] fd' Hne; cbn; try done.
    all: rewrite lookup_insert_ne; [done|naive_solver].
  - by intros fd [] tv k fd'.
Defined.

Definition start : kernel := MkKernel {[0; 1; 2]} 3 ∅ ∅ [Byte.x61; Byte.x62; Byte.x63; Byte.x64; Byte.x65] [] false.

(** "localhost:9" *)
Definition address : bytes := String.list_byte_of_string "localhost:9".

End ToyKernel.

Import ToyKernel.

