(* ===== verification/SocketProtocol.v ===== *)
(** * SocketProtocol

    The overloads of [src/protocol/protocol.cpp] that take a socket (as [void*]) and wrap
    it in a [SocketStream]: the messages of the protocol over the system calls of two
    kernels, whatever pieces these move. *)

From S2P Require Import Prelude Errors Wire Stream Protocol Socket.

Section Operations.
Context {K : Type} {Ker : Kernel K} (sock : TcpSocket).

Definition write_handshake_sock (negotiated_version : Z) (pub_key : bytes) : io K unit :=
  write_handshake (BS := SocketStream sock) negotiated_version pub_key.
Definition read_handshake_sock : io K (Z * bytes) := read_handshake (BS := SocketStream sock).
Definition read_record_sock : io K (u8 * bytes) := read_record (BS := SocketStream sock).
Definition write_record_sock (msg_type : u8) (sealed : bytes) : io K unit :=
  write_record (BS := SocketStream sock) msg_type sealed.

(** A peer that writes records one after the other, and one that reads as many. *)
Fixpoint write_records (l : list (u8 * bytes)) : io K unit :=
  match l with
  | [] => io_ret tt
  | (t, b) :: l' => let* _ := write_record_sock t b in write_records l'
  end.

Fixpoint read_records (n : nat) : io K (list (u8 * bytes)) :=
  match n with
  | O => io_ret []
  | S n' => let* x := read_record_sock in let* l := read_records n' in io_ret (x :: l)
  end.

(** A conversation: the handshake message, then records. *)
Definition write_conversation (ver : Z) (pub : bytes) (l : list (u8 * bytes)) : io K unit :=
  let* _ := write_handshake_sock ver pub in write_records l.
Definition read_conversation (n : nat) : io K (Z * bytes * list (u8 * bytes)) :=
  let* x := read_handshake_sock in let* l := read_records n in io_ret (x, l).

End Operations.

Definition fits (x : u8 * bytes) : Prop := zlen (snd x) <= 2 ^ 20 - 1.

Section Facts.
Context {K : Type} {Ker : Kernel K} {Laws : KernelLaws K} (sock : TcpSocket).

#[local] Existing Instance socket_stream_spec.

Lemma write_records_ok l k :
  Forall fits l -> ready (fd_ sock) k ->
  exists k', write_records sock l k = (k', inr tt)
    /\ delivered (fd_ sock) k' = delivered (fd_ sock) k ++ wire_of l /\ ready (fd_ sock) k'.
Proof.
  revert k. induction l as [|[t b] l IH]; intros k Hl Hr; cbn [write_records].
  { exists k. cbn. by rewrite app_nil_r. }
  apply Forall_cons in Hl as [Hb Hl].
  destruct (write_record_ok (Spec := socket_stream_spec sock) t b k Hb Hr) as (k1 & E & Ho & _ & Hr1).
  destruct (IH k1 Hl Hr1) as (k2 & E2 & Ho2 & Hr2). exists k2. unfold io_bind, write_record_sock. rewrite E.
  split_and!; [done| |done]. rewrite Ho2. cbn in Ho. by rewrite Ho, wire_of_cons, <- app_assoc.
Qed.

Lemma read_records_ok l rest k :
  Forall fits l -> pending (fd_ sock) k = wire_of l ++ rest ->
  exists k', read_records sock (length l) k = (k', inr l) /\ pending (fd_ sock) k' = rest.
Proof.
  revert k. induction l as [|[t b] l IH]; intros k Hl Hp; cbn [length read_records].
  { by exists k. }
  apply Forall_cons in Hl as [Hb Hl]. rewrite wire_of_cons, <- app_assoc in Hp.
  destruct (read_record_ok (Spec := socket_stream_spec sock) t b _ k Hb Hp) as (k1 & E & Hi & _).
  destruct (IH k1 Hl Hi) as (k2 & E2 & Hi2). exists k2. unfold io_bind, read_record_sock. rewrite E, E2. done.
Qed.

End Facts.

(** C32 (socket_conversation).  Protocol messages over sockets: on a connected socket a
    handshake message of a supported version and any sequence of records of at most
    2^20 - 1 bytes are written without an error, however few bytes each [send] takes; and
    on any socket that will deliver these bytes, followed by anything, reading returns
    version, key and the same records in the same order, in whatever pieces [recv] hands
    them over, and leaves what follows. *)
Theorem socket_conversation {K} `{KernelLaws K} (sock : TcpSocket) (ver : Z) (pub : bytes) (l : list (u8 * bytes)) (k : K) :
  supports_version ver = true -> length pub = 32%nat -> Forall fits l -> ready (fd_ sock) k ->
  exists k' wire, write_conversation sock ver pub l k = (k', inr tt)
    /\ delivered (fd_ sock) k' = delivered (fd_ sock) k ++ wire
    /\ forall (peer : TcpSocket) (k1 : K) rest, pending (fd_ peer) k1 = wire ++ rest ->
       exists k2, read_conversation peer (length l) k1 = (k2, inr (ver, pub, l)) /\ pending (fd_ peer) k2 = rest.
Proof.
  intros Hv Hp Hl Hr.
  destruct (write_handshake_ok (Spec := socket_stream_spec sock) ver pub k Hv Hp Hr) as (k1 & E & Ho & _ & Hr1).
  destruct (write_records_ok sock l k1 Hl Hr1) as (k2 & E2 & Ho2 & _).
  exists k2, (handshake_bytes ver pub ++ wire_of l). cbn in Ho. split_and!.
  - unfold write_conversation, write_handshake_sock, io_bind. by rewrite E.
  - by rewrite Ho2, Ho, app_assoc.
  - intros peer k3 rest Hin. rewrite <- app_assoc in Hin.
    destruct (read_handshake_ok (Spec := socket_stream_spec peer) ver pub _ k3 Hv Hp Hin) as (k4 & E4 & Hi4 & _).
    destruct (read_records_ok peer l rest k4 Hl Hi4) as (k5 & E5 & Hi5). exists k5.
    unfold read_conversation, read_handshake_sock, io_bind. by rewrite E4, E5.
Qed.

Import ToyKernel.

(** Two records over a kernel that moves two bytes at a time. *)
Lemma socket_conversation_witness :
  let l := [(kMsgText, [Byte.x61; Byte.x62; Byte.x63]); (kMsgClose, [])] in
  exists k', write_conversation (MkTcpSocket 7) 1 key_bytes l start = (k', inr tt)
    /\ exists k2, read_conversation (MkTcpSocket 8) 2 (MkKernel ∅ 0 ∅ ∅ (k_out k') [] false) = (k2, inr (1, key_bytes, l)).
Proof.
  intros l. destruct (socket_conversation (MkTcpSocket 7) 1 key_bytes l start) as (k' & wire & E & Ho & Hr).
  - reflexivity.
  - reflexivity.
  - repeat constructor; vm_compute; discriminate.
  - reflexivity.
  - exists k'. split; [exact E|].
    destruct (Hr (MkTcpSocket 8) (MkKernel ∅ 0 ∅ ∅ (k_out k') [] false) []) as (k2 & E2 & _).
    + rewrite app_nil_r. exact Ho.
    + exists k2. exact E2.
Defined.
