(* ===== verification/Dial.v ===== *)
(** * Dial

    [src/dial.cpp]: [dial_for] opens a socket, runs the client handshake on it under a
    deadline and hands socket, session and configuration to a connection;
    [serve_conn_for] does the same on an accepted socket.  The state is the kernel
    paired with the entropy of the process. *)

From S2P Require Import Prelude Errors Wire Stream Protocol Crypto Session Handshake Config Socket.

(** The arguments of the constructor of [Conn]. *)
Record conn_args := ConnArgs { a_sock : TcpSocket; a_sess : session; a_cfg : FrozenConfig }.

(** [opts_ptr]: null when nothing is set. *)
Definition opts_ptr (fc : FrozenConfig) : option HandshakeOpts :=
  let hops := handshake_opts fc in
  if bool_decide (pre_shared_key hops = []) && negb (bool_decide (expected_peer_pubkey_sha256 hops <> None))
  then None else Some hops.

Section Operations.
Context {K R : Type} {Ker : Kernel K} {Rng : Drbg_api R} {Sha : Sha256} {Dh : X25519}.

(** The deadline of the handshake, the handshake [run], and what follows it. *)
Definition under_deadline {A} (sock : TcpSocket) (fc : FrozenConfig) (run : io (K * R) A)
    (sess_of : A -> session) : io (K * R) conn_args := fun '(k, r) =>
  let k1 := if f_handshake_timeout fc >? 0 then set_deadline sock (f_handshake_timeout fc) k else k in
  let '((k2, r2), res) := run (k1, r) in
  let k3 := clear_deadline sock k2 in
  match res with
  | inl hec => let '(_, k4) := TcpSocket_close sock k3 in ((k4, r2), inl hec)
  | inr a => ((k3, r2), inr (ConnArgs sock (sess_of a) fc))
  end.

Definition dial_for (address : bytes) (cfg : option Config) : io (K * R) conn_args := fun '(k, r) =>
  let fc := freeze_config cfg in
  if negb (supports_version (f_protocol_version fc)) then ((k, r), inl (make_error_code Errc.unsupported_protocol))
  else
    match connect address (f_dial_timeout fc) k with
    | (k1, inl e) => ((k1, r), inl e)
    | (k1, inr sock) =>
        under_deadline sock fc
          (client_handshake (BS := SocketStream sock) (f_protocol_version fc) (opts_ptr fc)) (fun s => s) (k1, r)
    end.

(** [sock]: null or a socket the caller gives away. *)
Definition serve_conn_for (sock : option TcpSocket) (cfg : option Config) : io (K * R) conn_args := fun '(k, r) =>
  match sock with
  | None => ((k, r), inl (make_error_code Errc.other))
  | Some sock =>
      let fc := freeze_config cfg in
      under_deadline sock fc (server_handshake (BS := SocketStream sock) (opts_ptr fc)) fst (k, r)
  end.

End Operations.

(** ** The overloads *)

Section Overloads.
Context {K R : Type} {Ker : Kernel K} {Rng : Drbg_api R} {Sha : Sha256} {Dh : X25519}.
Variable os_message : Z -> string.

(** [auto c = f(ec); if (ec) throw Error(op, ec); return c;]: an exception, or the
    pointer returned, which is null when [f] failed without setting [ec]. *)
Definition throwing {S A} (op : string) (m : io S A) (s : S) : S * (Error + option A) :=
  match m s with
  | (s', inl ec) => (s', if ec_bool ec then inl (Error_of_code os_message op ec) else inr None)
  | (s', inr a) => (s', inr (Some a))
  end.

Definition dial (address : bytes) (cfg : option Config) : K * R -> K * R * (Error + option conn_args) :=
  throwing "dial" (dial_for address cfg).
Definition serve_conn (sock : option TcpSocket) (cfg : option Config) : K * R -> K * R * (Error + option conn_args) :=
  throwing "handshake" (serve_conn_for sock cfg).

(** The overload that throws reports what the other one does. *)
Definition reports {S A} (op : string) (x : S * (error_code + A)) (y : S * (Error + option A)) : Prop :=
  fst y = fst x
  /\ match snd x with
     | inl ec => exists e, snd y = inl e /\ code_ e = ec /\ op_ e = op
     | inr a => snd y = inr (Some a)
     end.

Lemma throwing_reports {S A} (op : string) (m : io S A) (s : S) :
  (forall s' e, m s = (s', inl e) -> ec_bool e = true) -> reports op (m s) (throwing op m s).
Proof using.
  intros H. unfold reports, throwing. destruct (m s) as [s' [e|a]]; [|done]. rewrite (H _ _ eq_refl). cbn. by eauto.
Qed.

End Overloads.

(** ** Errors and effects of a sequence of stream operations *)

Section Effects.
Context {S : Type} (rel : S -> S -> Prop) {Hrefl : Reflexive rel} {Htrans : Transitive rel}.

(** Every run relates the states, and a failure is an error. *)
Definition well_behaved {A} (m : io S A) : Prop :=
  forall s s' r, m s = (s', r) -> rel s s' /\ match r with inl e => ec_bool e = true | inr _ => True end.

Lemma wb_ret {A} (a : A) : well_behaved (io_ret a).
Proof. by intros s s' r [= <- <-]. Qed.

Lemma wb_fail {A} e : ec_bool e = true -> well_behaved (io_fail (A := A) e).
Proof. by intros He s s' r [= <- <-]. Qed.

Lemma wb_bind {A B} (m : io S A) (f : A -> io S B) :
  well_behaved m -> (forall a, well_behaved (f a)) -> well_behaved (io_bind m f).
Proof.
  intros Hm Hf s s' r. unfold io_bind. destruct (m s) as [s1 [e|a]] eqn:E; apply Hm in E as [E1 E2].
  - by intros [= <- <-].
  - intros H. apply Hf in H as [H1 H2]. split; [by etransitivity|done].
Qed.

Lemma wb_if {A} (b : bool) (m1 m2 : io S A) : well_behaved m1 -> well_behaved m2 -> well_behaved (if b then m1 else m2).
Proof. by destruct b. Qed.

End Effects.

Section HandshakeEffects.
Context {Str R : Type} {BS : ByteStream Str} {Rng : Drbg_api R} {Sha : Sha256} {Dh : X25519}.
Context (rel : Str -> Str -> Prop) {Hrefl : Reflexive rel} {Htrans : Transitive rel}.
Context (Hread : forall n, well_behaved rel (read_exact n)) (Hwrite : forall b, well_behaved rel (write_all b)).

(** The states of the stream, whatever happens to the generator. *)
Definition on_fst (p q : Str * R) : Prop := rel (fst p) (fst q).

#[local] Instance on_fst_refl : Reflexive on_fst.
Proof using Hrefl. intros [s r]. unfold on_fst. done. Qed.
#[local] Instance on_fst_trans : Transitive on_fst.
Proof using Htrans. intros [a ?] [b ?] [c ?] H1 H2. unfold on_fst in *. by etransitivity. Qed.

Lemma wb_on_stream {A} (m : io Str A) : well_behaved rel m -> well_behaved on_fst (on_stream (R := R) m).
Proof using. intros Hm [s r] [s' r'] x. cbn. destruct (m s) as [s1 y] eqn:E. intros [= <- <- <-]. by apply Hm in E. Qed.

Lemma wb_drbg_init : well_behaved on_fst (on_rng Drbg_init).
Proof using Hrefl. intros [s r] [s' r'] x. unfold on_rng, Drbg_init. destruct (drbg_seed "cpptcpduplex" r). intros [= <- <- <-]. split; [by unfold on_fst|done]. Qed.

Lemma wb_drbg_fill ok n : well_behaved on_fst (on_rng (Drbg_fill ok n)).
Proof using Hrefl.
  intros [s r] [s' r'] x. unfold on_rng, Drbg_fill. destruct ok; cbn [negb].
  - destruct (drbg_random n r) as [r1 [b|]]; intros [= <- <- <-]; (split; [by unfold on_fst|done]).
  - intros [= <- <- <-]. split; [by unfold on_fst|done].
Qed.

Lemma wb_write_handshake v p : well_behaved rel (write_handshake v p).
Proof using Hrefl Htrans Hwrite.
  unfold write_handshake. repeat (apply wb_if; [by apply wb_fail|]). apply wb_bind; auto.
Qed.

Lemma wb_read_handshake : well_behaved rel read_handshake.
Proof using Hrefl Htrans Hread.
  unfold read_handshake. apply wb_bind; [apply _|auto|]. intros magic. apply wb_if; [by apply wb_fail|].
  apply wb_bind; [apply _|auto|]. intros ver. apply wb_if; [by apply wb_fail|].
  apply wb_bind; [apply _|auto|]. intros pub. by apply wb_ret.
Qed.

Lemma wb_client_handshake v opts : well_behaved on_fst (client_handshake (R := R) v opts).
Proof using Hrefl Htrans Hread Hwrite.
  unfold client_handshake. apply wb_bind; [apply _|apply wb_drbg_init|]. intros ok.
  apply wb_bind; [apply _|apply wb_drbg_fill|]. intros priv.
  apply wb_bind; [apply _|apply wb_on_stream, wb_write_handshake|]. intros _.
  apply wb_bind; [apply _|apply wb_on_stream, wb_read_handshake|]. intros [pv pp].
  apply wb_if; [apply wb_fail; [apply _|done]|]. apply wb_if; [apply wb_fail; [apply _|done]|].
  destruct (Session_create _ _) as [ec out]. destruct (ec_bool ec) eqn:E; [by apply wb_fail; [apply _|]|apply wb_ret; apply _].
Qed.

Lemma wb_server_handshake opts : well_behaved on_fst (server_handshake (R := R) opts).
Proof using Hrefl Htrans Hread Hwrite.
  unfold server_handshake. apply wb_bind; [apply _|apply wb_drbg_init|]. intros ok.
  apply wb_bind; [apply _|apply wb_drbg_fill|]. intros priv.
  apply wb_bind; [apply _|apply wb_on_stream, wb_read_handshake|]. intros [pv pp].
  apply wb_if; [apply wb_fail; [apply _|done]|]. apply wb_if; [apply wb_fail; [apply _|done]|].
  apply wb_bind; [apply _|apply wb_on_stream, wb_write_handshake|]. intros _.
  destruct (Session_create _ _) as [ec out]. destruct (ec_bool ec) eqn:E; [by apply wb_fail; [apply _|]|apply wb_ret; apply _].
Qed.

End HandshakeEffects.

(** ** Over a socket *)

Section Facts.
Context {K R : Type} {Ker : Kernel K} {Laws : KernelLaws K}.
Context {Rng : Drbg_api R} {RngL : DrbgLaws R}.
Context {Sha : Sha256} {ShaL : Sha256Laws} {Dh : X25519} {DhL : X25519Laws}.
Implicit Types (k : K) (r : R).

#[local] Instance same_fds_reflexive : Reflexive (same_fds (K := K)).
Proof using. intros k. apply same_fds_refl. Qed.
#[local] Instance same_fds_transitive : Transitive (same_fds (K := K)).
Proof using. intros k1 k2 k3. apply same_fds_trans. Qed.

Lemma wb_socket_read sock n : well_behaved same_fds (socket_read_exact (K := K) sock n).
Proof using.
  intros k k' r E. destruct (socket_read sock k n) as (k1 & r1 & E1 & Hs & _ & _ & H). rewrite E in E1. simplify_eq.
  split; [done|]. destruct (decide _); [by destruct H as [-> _]|]. by destruct H as (e & -> & He).
Qed.

Lemma wb_socket_write sock b : well_behaved same_fds (socket_write_all (K := K) sock b).
Proof using.
  intros k k' r E. destruct (socket_write sock k b) as (k1 & r1 & E1 & Hs & _ & _ & H). rewrite E in E1. simplify_eq.
  split; [done|]. destruct r1; [apply H|done].
Qed.

Lemma set_both_fds fd tv k :
  open_fds (set_both fd tv k) = open_fds k /\ (forall o, timeo o fd (set_both fd tv k) = tv)
  /\ forall o fd', fd' <> fd -> timeo o fd' (set_both fd tv k) = timeo o fd' k.
Proof using.
  unfold set_both. destruct (settimeo_law fd SO_RCVTIMEO tv k) as (L1 & L2 & L3).
  destruct (settimeo_law fd SO_SNDTIMEO tv (sys_settimeo fd SO_RCVTIMEO tv k)) as (L4 & L5 & L6).
  split_and!; [congruence| |].
  - intros []; [|done]. by rewrite L6 by (left; done).
  - intros o fd' Hne. by rewrite L6, L3 by (by right).
Qed.

(** The deadline machinery around a well-behaved run on a socket: the socket stays
    open and without deadlines, or is closed; the other descriptors are untouched. *)
Lemma under_deadline_fds {A} sock fc (run : io (K * R) A) sess_of k r k' r' res :
  socket_valid sock = true -> well_behaved (on_fst same_fds) run ->
  under_deadline sock fc run sess_of (k, r) = ((k', r'), res) ->
  (forall o fd, fd <> fd_ sock -> timeo o fd k' = timeo o fd k)
  /\ match res with
     | inl e => ec_bool e = true /\ open_fds k' = open_fds k ∖ {[fd_ sock]}
     | inr a => open_fds k' = open_fds k /\ (forall o, timeo o (fd_ sock) k' = TimeVal 0 0)
         /\ exists k1 k2 x, run (k1, r) = ((k2, r'), inr x) /\ a = ConnArgs sock (sess_of x) fc
     end.
Proof using.
  intros Hv Hrun. unfold under_deadline.
  set (k1 := if f_handshake_timeout fc >? 0 then set_deadline sock (f_handshake_timeout fc) k else k).
  assert (H1 : open_fds k1 = open_fds k /\ forall o fd, fd <> fd_ sock -> timeo o fd k1 = timeo o fd k).
  { unfold k1. destruct (_ >? _); [|done]. unfold set_deadline. rewrite Hv. cbn [negb]. split; apply set_both_fds. }
  destruct H1 as [H1 H1']. destruct (run (k1, r)) as [[k2 r2] x] eqn:E.
  destruct (Hrun _ _ _ E) as [[H2 H2'] He]. cbn in H2, H2'.
  unfold clear_deadline, set_deadline. rewrite Hv. cbn [negb]. change (0 >? 0) with false. cbv iota.
  destruct (set_both_fds (fd_ sock) (TimeVal 0 0) k2) as (H3 & H3' & H3''). destruct x as [e|a].
  - unfold TcpSocket_close. unfold socket_valid in Hv. apply negb_true_iff in Hv. rewrite Hv. intros [= <- <- <-].
    set (k3 := set_both (fd_ sock) (TimeVal 0 0) k2) in *. destruct (close_law (fd_ sock) k3) as [H4 H4'].
    split; [|split; [done|congruence]]. intros o fd Hfd. by rewrite H4', H3'', H2', H1'.
  - intros [= <- <- <-]. split; [|split_and!; [congruence|done|by exists k1, k2, a]].
    intros o fd Hfd. by rewrite H3'', H2', H1'.
Qed.

(** What a handshake with the options of a configuration achieves. *)
Definition session_of_config (fc : FrozenConfig) (sess : session) (r r' : R) : Prop :=
  exists priv pub, draws_key r priv r' /\ length pub = 32%nat
    /\ sess = Session (derive_session_key (crypto_x25519 priv pub) (auth_pre_shared_key (f_handshake fc)))
    /\ forall fp, auth_expected_peer_pubkey_sha256 (f_handshake fc) = Some fp -> sha256 pub = fp.

Lemma opts_ptr_psk fc : psk_of (opts_ptr fc) = auth_pre_shared_key (f_handshake fc).
Proof using.
  unfold opts_ptr. destruct (bool_decide _) eqn:E; cbn [andb]; [|done]. bool_to_prop.
  by destruct (negb _).
Qed.

Lemma opts_ptr_pin fc pub fp :
  pin_mismatch (opts_ptr fc) pub = false -> auth_expected_peer_pubkey_sha256 (f_handshake fc) = Some fp -> sha256 pub = fp.
Proof using.
  intros Hm Hfp. unfold opts_ptr, handshake_opts in Hm. cbn in Hm. rewrite Hfp in Hm.
  rewrite andb_false_r in Hm. cbn in Hm. unfold fingerprint_sha256 in Hm. by case_bool_decide.
Qed.

Lemma client_session fc sock k r k' r' sess :
  client_handshake (BS := SocketStream sock) (f_protocol_version fc) (opts_ptr fc) (k, r) = ((k', r'), inr sess) ->
  session_of_config fc sess r r'.
Proof using Laws RngL.
  intros H. apply (client_handshake_inv (Spec := socket_stream_spec sock)) in H
    as (priv & pub & H1 & _ & H3 & _ & _ & _ & H7 & ->).
  exists priv, pub. rewrite opts_ptr_psk. split_and!; try done. intros fp. by apply opts_ptr_pin.
Qed.

Lemma server_session fc sock k r k' r' x :
  server_handshake (BS := SocketStream sock) (opts_ptr fc) (k, r) = ((k', r'), inr x) ->
  session_of_config fc (fst x) r r'.
Proof using Laws RngL.
  destruct x as [sess ver]. intros H. apply (server_handshake_inv (Spec := socket_stream_spec sock)) in H
    as (priv & pub & H1 & _ & H3 & _ & _ & _ & H7 & ->).
  exists priv, pub. rewrite opts_ptr_psk. split_and!; try done. intros fp. by apply opts_ptr_pin.
Qed.

(** What [dial] does to the descriptors, and the session it returns. *)
Lemma dial_fds (address : bytes) (cfg : option Config) (k k' : K) (r r' : R) res :
  dial_for address cfg (k, r) = ((k', r'), res) ->
  match res with
  | inl e => ec_bool e = true /\ keeps_fds k k'
  | inr a => a_cfg a = freeze_config cfg /\ opens (fd_ (a_sock a)) k k'
      /\ (forall o, timeo o (fd_ (a_sock a)) k' = TimeVal 0 0)
      /\ session_of_config (freeze_config cfg) (a_sess a) r r'
  end.
Proof using Laws RngL.
  clear ShaL DhL. unfold dial_for. destruct (supports_version _); cbn [negb]; [|by intros [= <- <- <-]].
  destruct (connect address _ k) as [k1 [e|sock]] eqn:Hc; apply connect_fds in Hc; [by intros [= <- <- <-]|].
  destruct Hc as ((O1 & O2 & O3 & O4) & Hv & _). intros H. apply under_deadline_fds in H as [Ht H]; [|done|].
  2: { apply wb_client_handshake; [apply _..|apply wb_socket_read|apply wb_socket_write]. }
  destruct res as [e|a].
  - destruct H as [He Hf]. split; [done|]. split; [set_solver|]. intros o fd Hfd. rewrite Ht by set_solver. auto.
  - destruct H as (Hf & H0 & k2 & k3 & x & Hr & ->).
    split; [done|]. split; [|split; [done|by eapply client_session]]. cbn [a_sock].
    split; [done|]. split; [done|]. split; [congruence|]. intros o fd Hfd. rewrite Ht by set_solver. auto.
Qed.

(** What [serve_conn] does with the socket it is given. *)
Lemma serve_conn_fds (sock : option TcpSocket) (cfg : option Config) (k k' : K) (r r' : R) res :
  (forall s, sock = Some s -> socket_valid s = true /\ fd_ s ∈ open_fds k) ->
  serve_conn_for sock cfg (k, r) = ((k', r'), res) ->
  match sock with
  | None => res = inl (make_error_code Errc.other) /\ k' = k
  | Some s =>
      (forall o fd, fd <> fd_ s -> timeo o fd k' = timeo o fd k)
      /\ match res with
         | inl e => ec_bool e = true /\ open_fds k' = open_fds k ∖ {[fd_ s]}
         | inr a => a_sock a = s /\ a_cfg a = freeze_config cfg /\ open_fds k' = open_fds k
             /\ (forall o, timeo o (fd_ s) k' = TimeVal 0 0)
             /\ session_of_config (freeze_config cfg) (a_sess a) r r'
         end
  end.
Proof using Laws RngL.
  intros Hs. unfold serve_conn_for. destruct sock as [s|]; [|by intros [= <- <- <-]].
  destruct (Hs s eq_refl) as [Hv _]. intros H. apply under_deadline_fds in H as [Ht H]; [|done|].
  2: { apply wb_server_handshake; [apply _..|apply wb_socket_read|apply wb_socket_write]. }
  split; [done|]. destruct res as [e|a]; [done|].
  destruct H as (Hf & H0 & k2 & k3 & x & Hr & ->). split_and!; [done|done|done|done|by eapply server_session].
Qed.

(** ** Theorems *)

(** C33 (dial_correct).  [dial] either fails with an error and with the descriptors
    and their timeouts as they were (nothing is leaked on any path), or returns with
    exactly one new descriptor, without deadlines, and a session derived from the
    pre-shared key of the configuration with a peer key that matches its pin. *)
Theorem dial_correct (address : bytes) (cfg : option Config) (k k' : K) (r r' : R) res :
  dial_for address cfg (k, r) = ((k', r'), res) ->
  match res with
  | inl e => ec_bool e = true /\ keeps_fds k k'
  | inr a => a_cfg a = freeze_config cfg /\ opens (fd_ (a_sock a)) k k'
      /\ (forall o, timeo o (fd_ (a_sock a)) k' = TimeVal 0 0)
      /\ session_of_config (freeze_config cfg) (a_sess a) r r'
  end.
Proof using Laws RngL. clear ShaL DhL. apply dial_fds. Qed.

(** [serve_conn] owns the socket it is given: it fails with
    an error and the socket closed, or returns it open and without deadlines with a
    session derived from the pre-shared key of the configuration and a peer key that
    matches its pin; no other descriptor is touched.  A null socket is an error. *)
Theorem serve_conn_correct (sock : option TcpSocket) (cfg : option Config) (k k' : K) (r r' : R) res :
  (forall s, sock = Some s -> socket_valid s = true /\ fd_ s ∈ open_fds k) ->
  serve_conn_for sock cfg (k, r) = ((k', r'), res) ->
  match sock with
  | None => res = inl (make_error_code Errc.other) /\ k' = k
  | Some s =>
      (forall o fd, fd <> fd_ s -> timeo o fd k' = timeo o fd k)
      /\ match res with
         | inl e => ec_bool e = true /\ open_fds k' = open_fds k ∖ {[fd_ s]}
         | inr a => a_sock a = s /\ a_cfg a = freeze_config cfg /\ open_fds k' = open_fds k
             /\ (forall o, timeo o (fd_ s) k' = TimeVal 0 0)
             /\ session_of_config (freeze_config cfg) (a_sess a) r r'
         end
  end.
Proof using Laws RngL. apply serve_conn_fds. Qed.

(** The overloads of [dial] and [serve_conn] that throw never
    return a null pointer: each either returns the connection that the overload with an
    error code builds, in the same state, or throws an [Error] that carries its code and
    the name of the operation. *)
Theorem overloads_report (os_message : Z -> string) (address : bytes) (sock : option TcpSocket)
    (cfg : option Config) (p : K * R) :
  (forall s, sock = Some s -> socket_valid s = true /\ fd_ s ∈ open_fds (fst p)) ->
  reports "dial" (dial_for address cfg p) (dial os_message address cfg p)
  /\ reports "handshake" (serve_conn_for sock cfg p) (serve_conn os_message sock cfg p).
Proof using Laws RngL.
  destruct p as [k r]. intros Hs. split; apply throwing_reports.
  - intros [k' r'] e H. by apply dial_fds in H as [H _].
  - intros [k' r'] e H. apply serve_conn_fds in H; [|done]. destruct sock; [|by destruct H as [[= ->] _]].
    by destruct H as [_ [H _]].
Qed.

End Facts.

(** ** Witnesses *)

Import Toy ToyKernel.

(** The peer's handshake message is waiting on the connection. *)
Definition peer_kernel : kernel := MkKernel {[0; 1; 2; 7]} 3 ∅ ∅ (handshake_bytes 1 (toy_key 9)) [] false.

Lemma dial_correct_witness :
  exists k' a, dial_for address None (peer_kernel, ToyDrbg 7 true) = ((k', ToyDrbg 8 true), inr a)
    /\ opens (fd_ (a_sock a)) peer_kernel k'.
Proof.
  destruct (dial_for address None (peer_kernel, ToyDrbg 7 true)) as [[k' r'] res] eqn:E.
  pose proof (dial_correct address None peer_kernel k' (ToyDrbg 7 true) r' res E) as H.
  assert (Hr : exists a, res = inr a /\ r' = ToyDrbg 8 true).
  { vm_compute in E. injection E as _ E2 E3. rewrite <- E2, <- E3. eexists. split; reflexivity. }
  destruct Hr as (a & -> & ->). exists k', a. split; [reflexivity|]. apply H.
Defined.

