(* ===== verification/Established.v ===== *)
(** * Established

    From [dial] and [serve_conn] to messages: the socket, the handshake, the session and
    the connection put together.  A client that dialled and a server that accepted, each
    with its own operating system, run their connections over the sockets the handshakes
    were made on ([src/dial.cpp], [src/crypto/handshake.cpp], [src/conn.cpp]). *)

From S2P Require Import Prelude Errors Wire Stream Protocol Crypto Session Handshake Config.
From S2P Require Import Conn ConnInv ConnWriter ConnReader Socket Dial.

Section Handshaken.
Context {K R : Type} {Ker : Kernel K} {Laws : KernelLaws K}.
Context {Rng : Drbg_api R} {RngL : DrbgLaws R}.
Context {Sha : Sha256} {ShaL : Sha256Laws} {Dh : X25519} {DhL : X25519Laws}.
Implicit Types (k : K) (r : R).

(** Deadlines do not touch the data of a connection. *)
Lemma set_deadline_data sock ms k fd :
  pending fd (set_deadline sock ms k) = pending fd k /\ delivered fd (set_deadline sock ms k) = delivered fd k.
Proof using.
  unfold set_deadline, set_both. destruct (negb _); [done|].
  match goal with |- context [sys_settimeo _ SO_SNDTIMEO ?tv (sys_settimeo ?s _ _ _)] =>
    destruct (settimeo_data s SO_RCVTIMEO tv k fd) as [H1 H2];
    destruct (settimeo_data s SO_SNDTIMEO tv (sys_settimeo s SO_RCVTIMEO tv k) fd) as [H3 H4] end.
  split; congruence.
Qed.

(** What one side has after its handshake over [sock], which began in state [k]: it sent
    the public key of [priv], read [pub], and its session is derived from both. *)
Record shaken (sock : TcpSocket) (cfg : FrozenConfig) (ver : Z) (priv pub : bytes) k k' (a : conn_args) : Prop := {
  sh_args : a_sock a = sock /\ a_cfg a = cfg;
  sh_version : supports_version ver = true;
  sh_priv : length priv = 32%nat;
  sh_pub : length pub = 32%nat;
  sh_sent : delivered (fd_ sock) k' = delivered (fd_ sock) k ++ handshake_bytes ver (crypto_x25519_public_key priv);
  sh_read : pending (fd_ sock) k = handshake_bytes ver pub ++ pending (fd_ sock) k';
  sh_sess : a_sess a = Session (derive_session_key (crypto_x25519 priv pub) (auth_pre_shared_key (f_handshake cfg)))
}.

(** The handshake [run] under its deadline. *)
Lemma under_deadline_inv {A} sock fc (run : io (K * R) A) sess_of k r k' r' a :
  under_deadline sock fc run sess_of (k, r) = ((k', r'), inr a) ->
  exists k1 k2 x, run (k1, r) = ((k2, r'), inr x) /\ a = ConnArgs sock (sess_of x) fc
    /\ pending (fd_ sock) k1 = pending (fd_ sock) k /\ delivered (fd_ sock) k1 = delivered (fd_ sock) k
    /\ pending (fd_ sock) k' = pending (fd_ sock) k2 /\ delivered (fd_ sock) k' = delivered (fd_ sock) k2.
Proof using.
  unfold under_deadline. set (k1 := if _ >? _ then _ else _). destruct (run (k1, r)) as [[k2 r2] [e|x]] eqn:E.
  { by destruct (TcpSocket_close _ _). }
  intros [= <- <- <-]. exists k1, k2, x. destruct (set_deadline_data sock 0 k2 (fd_ sock)) as [H1 H2].
  destruct (set_deadline_data sock (f_handshake_timeout fc) k (fd_ sock)) as [H3 H4].
  split_and!; try done; unfold k1; by destruct (_ >? _).
Qed.

Lemma dial_shaken address cfg k k1 k' r r' sock a :
  connect address (f_dial_timeout (freeze_config cfg)) k = (k1, inr sock) ->
  dial_for address cfg (k, r) = ((k', r'), inr a) ->
  exists priv pub, shaken sock (freeze_config cfg) (f_protocol_version (freeze_config cfg)) priv pub k1 k' a.
Proof using Laws RngL.
  intros Hc. unfold dial_for. destruct (supports_version _); cbn [negb]; [|done]. rewrite Hc. intros H.
  apply under_deadline_inv in H as (ka & kb & x & Hr & -> & P1 & D1 & P2 & D2).
  apply (client_handshake_inv (Spec := socket_stream_spec sock)) in Hr
    as (priv & pub & _ & Hl & Hp & Hv & Ho & Hi & _ & ->). cbn in Ho, Hi.
  exists priv, pub. split; try done; cbn; [congruence|congruence|by rewrite opts_ptr_psk].
Qed.

Lemma serve_shaken sock cfg k k' r r' a :
  serve_conn_for (Some sock) cfg (k, r) = ((k', r'), inr a) ->
  exists ver priv pub, shaken sock (freeze_config cfg) ver priv pub k k' a.
Proof using Laws RngL.
  unfold serve_conn_for. intros H. apply under_deadline_inv in H as (ka & kb & [sess ver] & Hr & -> & P1 & D1 & P2 & D2).
  apply (server_handshake_inv (Spec := socket_stream_spec sock)) in Hr
    as (priv & pub & _ & Hl & Hp & Hv & Ho & Hi & _ & ->). cbn in Ho, Hi.
  exists ver, priv, pub. split; try done; cbn; [congruence|congruence|by rewrite opts_ptr_psk].
Qed.

(** ** One direction *)

(** The connection one side runs after its handshake. *)
Definition running (a : conn_args) k' (g : seal_rng R) (c : conn K R) {G : Gcm} : Prop :=
  reachable (BS := SocketStream (a_sock a)) k' g (a_sess a) (a_cfg a) c.

(** The peer finds on its socket what this side has sent since the handshake began. *)
Lemma peer_reads {G : Gcm} {GL : GcmLaws} sock1 cfg1 v1 p1 q1 k1 k1' a1 sock2 cfg2 v2 p2 q2 k2 k2' a2 g c w :
  shaken sock1 cfg1 v1 p1 q1 k1 k1' a1 -> shaken sock2 cfg2 v2 p2 q2 k2 k2' a2 -> running a1 k1' g c ->
  delivered (fd_ sock1) (strm c) = delivered (fd_ sock1) k1 ++ w -> pending (fd_ sock2) k2 `prefix_of` w ->
  v2 = v1 /\ q2 = crypto_x25519_public_key p1
  /\ exists w', delivered (fd_ sock1) (strm c) = delivered (fd_ sock1) k1' ++ w' /\ pending (fd_ sock2) k2' `prefix_of` w'.
Proof using Laws RngL ShaL DhL.
  intros [[Hs1 Hc1] V1 Lp1 Lq1 Hsent1 Hread1 Hse1] [_ V2 Lp2 Lq2 Hsent2 Hread2 Hse2] Hrun Hw [more Hpre].
  unfold running in Hrun. rewrite Hs1 in Hrun.
  assert (Hk : session_ready (a_sess a1)) by (rewrite Hse1; apply derive_session_key_length).
  destruct (wire_texts (Spec := socket_stream_spec sock1) _ _ _ _ _ Hk Hrun) as (sent & rs & o & part & _ & _ & Ho & _).
  cbn in Ho. set (w' := concat rs ++ part) in Ho. rewrite Ho, Hsent1, <- app_assoc in Hw. apply app_inv_head in Hw as <-.
  rewrite Hread2, <- app_assoc in Hpre. apply handshake_bytes_inj in Hpre as (-> & -> & Hpre);
    [|done|done|apply x25519_public_length|done].
  split_and!; [done|done|]. exists w'. split; [done|]. by exists more.
Qed.

(** C3 (established_delivery).  A client that dialled and a server that accepted, whose
    sockets deliver to each what the other one sent: with equal pre-shared keys and
    without callbacks both hold the same session, and then, whatever the two operating systems, the interleavings of
    the threads of both connections and the moment at which one looks, the messages
    [receive] returned on either side, followed by those in its queue, are a prefix of the
    messages queued by the sends of the other side. *)
Theorem established_delivery {G : Gcm} {GL : GcmLaws} (address : bytes) (ccfg scfg : option Config)
    (kc0 kc kc' ks ks' : K) (rc rc' rs rs' : R) (csock ssock : TcpSocket) (ac as_ : conn_args)
    (gc gs : seal_rng R) (c s : conn K R) (wc ws : bytes) :
  connect address (f_dial_timeout (freeze_config ccfg)) kc0 = (kc, inr csock) ->
  dial_for address ccfg (kc0, rc) = ((kc', rc'), inr ac) ->
  serve_conn_for (Some ssock) scfg (ks, rs) = ((ks', rs'), inr as_) ->
  auth_pre_shared_key (f_handshake (freeze_config ccfg)) = auth_pre_shared_key (f_handshake (freeze_config scfg)) ->
  f_on_message (freeze_config ccfg) = None -> f_on_message (freeze_config scfg) = None ->
  running ac kc' gc c -> running as_ ks' gs s ->
  delivered (fd_ csock) (strm c) = delivered (fd_ csock) kc ++ wc -> pending (fd_ ssock) ks `prefix_of` wc ->
  delivered (fd_ ssock) (strm s) = delivered (fd_ ssock) ks ++ ws -> pending (fd_ csock) kc `prefix_of` ws ->
  a_sess ac = a_sess as_
  /\ h_received (hist s) ++ recv_q (recvs s) `prefix_of` texts (h_queued (hist c))
  /\ h_received (hist c) ++ recv_q (recvs c) `prefix_of` texts (h_queued (hist s)).
Proof using Laws RngL ShaL DhL.
  intros Hcon Hdial Hserve Hpsk Mc Ms Rc Rs Oc Pc Os Ps.
  destruct (dial_shaken _ _ _ _ _ _ _ _ _ Hcon Hdial) as (pc & qc & Sc).
  destruct (serve_shaken _ _ _ _ _ _ _ Hserve) as (vs & ps & qs & Ss).
  destruct (peer_reads _ _ _ _ _ _ _ _ _ _ _ _ _ _ _ _ _ _ _ Sc Ss Rc Oc Pc) as (Hv & Hqs & wc' & Oc' & Pc').
  destruct (peer_reads _ _ _ _ _ _ _ _ _ _ _ _ _ _ _ _ _ _ _ Ss Sc Rs Os Ps) as (_ & Hqc & ws' & Os' & Ps').
  destruct Sc as [[Hc1 Hc2] _ Lc _ _ _ Hsc]. destruct Ss as [[Hs1 Hs2] _ Ls _ _ _ Hss].
  assert (Hse : a_sess ac = a_sess as_) by (rewrite Hsc, Hss, Hpsk, Hqc, Hqs, (x25519_commutes pc ps) by done; done).
  assert (Hk : session_ready (a_sess as_)) by (rewrite Hss; apply derive_session_key_length).
  unfold running in Rc, Rs. rewrite Hc1, Hse, Hc2 in Rc. rewrite Hs1, Hs2 in Rs.
  split; [done|]. split.
  - exact (delivery_prefix (Pa := socket_stream_spec csock) (Pb := socket_stream_spec ssock)
      _ _ _ _ _ _ _ _ _ _ Hk Ms Rc Rs Oc' Pc').
  - exact (delivery_prefix (Pa := socket_stream_spec ssock) (Pb := socket_stream_spec csock)
      _ _ _ _ _ _ _ _ _ _ Hk Mc Rs Rc Os' Ps').
Qed.

End Handshaken.

(** ** Witness *)

Import Toy ToyKernel.

(** A client that sends two bytes to a server that receives them, over kernels that move
    two bytes at a time. *)
Definition blank (input : bytes) : kernel := MkKernel {[0; 1; 2; 7]} 3 ∅ ∅ input [] false.
Definition args_of (x : kernel * toy_drbg * (error_code + conn_args)) : conn_args :=
  match snd x with inr a => a | inl _ => ConnArgs (MkTcpSocket 0) Session_default (freeze_config None) end.
Definition socket_of (x : kernel * (error_code + TcpSocket)) : TcpSocket :=
  match snd x with inr s => s | inl _ => MkTcpSocket 0 end.
Definition seal0 : seal_rng toy_drbg := SealRng false (ToyDrbg 3 true).

Definition server_hello : bytes := handshake_bytes 1 (crypto_x25519_public_key (toy_key 5)).
Definition client_connect := connect address 30000 (blank server_hello).
Definition client_dial := dial_for address None (blank server_hello, ToyDrbg 7 true).
Definition client_acts : list action :=
  [ActCall (CallSend [Byte.x68; Byte.x69] NoTimeout); ActApp 0; ActApp 0; ActWriter; ActWriter].
Definition conn_over (a : conn_args) (k : kernel) (l : list action) : conn kernel toy_drbg :=
  let c0 := Conn_new k seal0 (a_sess a) (a_cfg a) in
  default c0 (run (BS := SocketStream (a_sock a)) c0 l).
Definition client : conn kernel toy_drbg := conn_over (args_of client_dial) (fst (fst client_dial)) client_acts.

Definition server_in : kernel := blank (k_out (strm client)).
Definition server_serve := serve_conn_for (Some (MkTcpSocket 7)) None (server_in, ToyDrbg 5 true).
Definition server_acts : list action :=
  [ActReader; ActReader; ActReader; ActCall (CallReceive NoTimeout); ActApp 0; ActApp 0].
Definition server_conn : conn kernel toy_drbg := conn_over (args_of server_serve) (fst (fst server_serve)) server_acts.

Lemma established_delivery_witness :
  h_received (hist server_conn) = [[Byte.x68; Byte.x69]]
  /\ a_sess (args_of client_dial) = a_sess (args_of server_serve)
  /\ h_received (hist server_conn) ++ recv_q (recvs server_conn) `prefix_of` texts (h_queued (hist client)).
Proof.
  split; [vm_compute; reflexivity|].
  destruct (established_delivery address None None (blank server_hello) (fst client_connect) (fst (fst client_dial))
    server_in (fst (fst server_serve)) (ToyDrbg 7 true) (snd (fst client_dial)) (ToyDrbg 5 true) (snd (fst server_serve))
    (socket_of client_connect) (MkTcpSocket 7) (args_of client_dial) (args_of server_serve) seal0 seal0 client server_conn
    (k_out (strm client)) server_hello) as (H1 & H2 & _); [| | | | | | | | | | | |exact (conj H1 H2)].
  - vm_compute. reflexivity.
  - vm_compute. reflexivity.
  - vm_compute. reflexivity.
  - reflexivity.
  - reflexivity.
  - reflexivity.
  - exists client_acts. vm_compute. reflexivity.
  - exists server_acts. vm_compute. reflexivity.
  - vm_compute. reflexivity.
  - exists []. symmetry. apply app_nil_r.
  - vm_compute. reflexivity.
  - exists []. symmetry. apply app_nil_r.
Defined.
