(* ===== verification/Server.v ===== *)
(** * Server

    [src/server.cpp]: the accept loop of [Server::serve], its worker threads and the
    calls of [stop] and [close] from other threads, as a labelled transition system.
    What the kernel and the handshakes answer, and when a callback returns, is in the
    labels; an interleaving is a list of labels. *)

From S2P Require Import Prelude Errors Config Socket.

(** ** Opening a server *)

(** [network != "tcp" && network != "tcp4" && network != "tcp6"]. *)
Definition known_network (network : string) : bool :=
  bool_decide (network = "tcp") || bool_decide (network = "tcp4") || bool_decide (network = "tcp6").

(** [Server::listen]: the arguments of the constructor, or the error. *)
Definition server_listen {K} `{Kernel K} (network : string) (addr : bytes) (cfg : option Config) (k : K)
    : K * (error_code + TcpListener * Config) :=
  if negb (known_network network) then (k, inl (make_error_code Errc.other))
  else match listen addr k with
       | (k1, inl e) => (k1, inl e)
       | (k1, inr ln) => (k1, inr (ln, default default_config cfg))
       end.

(** ** The accept loop *)

(** Program points of [serve]. *)
Inductive mpc :=
  | M_start (has_callback : bool)   (* entry *)
  | M_check                         (* while (!stopping_.load()) *)
  | M_accept                        (* ln_->accept(ec): past the test of fd_, in ::accept *)
  | M_failed                        (* no socket: test stopping_ again *)
  | M_spawn (sock : Z)              (* workers_.emplace_back *)
  | M_join                          (* joining the workers *)
  | M_done.

(** A worker with the socket it was given. *)
Inductive worker :=
  | W_handshake (sock : Z)          (* serve_conn *)
  | W_callback (sock : Z)           (* on_connect( *conn ) *)
  | W_end (sock : Z) (called : bool).

#[export] Instance worker_eq_dec : EqDecision worker.
Proof. solve_decision. Defined.

Record server := Server {
  stopping : bool;
  ln_open : bool;          (* ln_->fd_ is valid *)
  main : mpc;
  ec : error_code;         (* the out-parameter of serve *)
  workers : list worker;   (* every thread started, also after workers_.clear() *)
  accepted : list Z        (* the sockets accept returned, in order *)
}.

(** What happens next. *)
Inductive action :=
  | Main                              (* the serve thread runs on *)
  | Accept (res : error_code + Z)     (* the kernel ends accept *)
  | Handshake (i : nat) (ok : bool)   (* worker i: serve_conn returns *)
  | CallbackReturns (i : nat)
  | StopStore                         (* close(): stopping_.store(true) *)
  | StopClose.                        (* close(): ln_->close() *)

Definition set_main (m : mpc) (s : server) : server :=
  Server (stopping s) (ln_open s) m (ec s) (workers s) (accepted s).
Definition fail_main (e : error_code) (m : mpc) (s : server) : server :=
  Server (stopping s) (ln_open s) m e (workers s) (accepted s).
Definition set_worker (i : nat) (w : worker) (s : server) : server :=
  Server (stopping s) (ln_open s) (main s) (ec s) (<[i := w]> (workers s)) (accepted s).

Definition is_end (w : worker) : bool := match w with W_end _ _ => true | _ => false end.

Definition main_step (s : server) : option server :=
  match main s with
  | M_start has_callback =>
      if has_callback then Some (fail_main ec_none M_check s)
      else Some (fail_main (make_error_code Errc.other) M_done s)
  | M_check =>
      if stopping s then Some (set_main M_join s)
      else if ln_open s then Some (fail_main ec_none M_accept s)
      else Some (fail_main (make_error_code Errc.closed) M_failed s)
  | M_accept => None
  | M_failed =>
      Some (fail_main (if stopping s then make_error_code Errc.canceled else ec s) M_join s)
  | M_spawn sock =>
      Some (Server (stopping s) (ln_open s) M_check (ec s) (workers s ++ [W_handshake sock]) (accepted s))
  | M_join => if forallb is_end (workers s) then Some (set_main M_done s) else None
  | M_done => None
  end.

Definition step (s : server) (a : action) : option server :=
  match a with
  | Main => main_step s
  | Accept res =>
      match main s, res with
      | M_accept, inl e => if ec_bool e then Some (fail_main e M_failed s) else None
      | M_accept, inr sock =>
          Some (Server (stopping s) (ln_open s) (M_spawn sock) (ec s) (workers s) (accepted s ++ [sock]))
      | _, _ => None
      end
  | Handshake i ok =>
      match workers s !! i with
      | Some (W_handshake sock) => Some (set_worker i (if ok then W_callback sock else W_end sock false) s)
      | _ => None
      end
  | CallbackReturns i =>
      match workers s !! i with
      | Some (W_callback sock) => Some (set_worker i (W_end sock true) s)
      | _ => None
      end
  | StopStore => Some (Server true (ln_open s) (main s) (ec s) (workers s) (accepted s))
  | StopClose =>
      if stopping s then Some (Server (stopping s) false (main s) (ec s) (workers s) (accepted s)) else None
  end.

Fixpoint run (s : server) (l : list action) : option server :=
  match l with
  | [] => Some s
  | a :: l' => match step s a with Some s' => run s' l' | None => None end
  end.

Definition start (has_callback : bool) : server := Server false true (M_start has_callback) ec_none [] [].

(** ** The invariant *)

Definition socket_of (w : worker) : Z :=
  match w with W_handshake s | W_callback s | W_end s _ => s end.

(** The sockets that were handed to a worker: all accepted ones but the one in hand. *)
Definition handed (s : server) : list Z :=
  match main s with M_spawn sock => (socket_of <$> workers s) ++ [sock] | _ => socket_of <$> workers s end.

(** What the out-parameter may hold at each point. *)
Definition ec_ok (has_callback : bool) (s : server) : Prop :=
  match main s with
  | M_start b => b = has_callback /\ workers s = []
  | M_check | M_accept | M_spawn _ => ec_bool (ec s) = false /\ has_callback = true
  | M_failed => ec_bool (ec s) = true /\ has_callback = true
  | M_join => has_callback = true /\ (ec_bool (ec s) = false -> stopping s = true)
      /\ (ec s = make_error_code Errc.canceled \/ ec_bool (ec s) = true \/ stopping s = true)
  | M_done => if has_callback then ec_bool (ec s) = false -> stopping s = true
              else ec s = make_error_code Errc.other /\ workers s = []
  end.

Record server_inv (has_callback : bool) (s : server) : Prop := {
  si_handed : handed s = accepted s;
  si_ec : ec_ok has_callback s;
  si_done : main s = M_done -> Forall (fun w => is_end w = true) (workers s);
  si_closed : ln_open s = false -> stopping s = true
}.

Lemma socket_of_insert (ws : list worker) i w w' :
  ws !! i = Some w -> socket_of w' = socket_of w -> socket_of <$> <[i := w']> ws = socket_of <$> ws.
Proof.
  intros Hi Hs. rewrite list_fmap_insert. apply list_insert_id. by rewrite list_lookup_fmap, Hi, Hs.
Qed.

(** A worker that is still running cannot be seen once [serve] has returned. *)
Lemma set_worker_inv b s i w w' :
  server_inv b s -> workers s !! i = Some w -> is_end w = false -> socket_of w' = socket_of w ->
  server_inv b (set_worker i w' s).
Proof.
  intros [H1 H2 H3 H4] Hi Hw Hs. assert (Hne : workers s <> []) by (by destruct (workers s)).
  assert (Hd : main s <> M_done).
  { intros Hd. specialize (H3 Hd). rewrite Forall_lookup in H3. specialize (H3 i w Hi). congruence. }
  split; cbn; [|destruct s as [? ? []]; cbn in *; try done; naive_solver|done|done].
  rewrite <- H1. unfold handed. cbn. rewrite (socket_of_insert _ _ w) by done. done.
Qed.

Ltac server_inv_tac := split; cbn; unfold handed, ec_ok; cbn; try done; auto; try naive_solver.

Lemma step_inv b s a s' : server_inv b s -> step s a = Some s' -> server_inv b s'.
Proof.
  intros Hinv H. destruct a as [|res|i ok|i| |]; cbn in H.
  - unfold main_step in H. destruct Hinv as [H1 H2 H3 H4]. unfold handed, ec_ok in *.
    destruct s as [st ln m e ws acc]; cbn in *. destruct m as [cb| | | |sock| |]; try done.
    + destruct H2 as [-> ->]. destruct b; injection H as <-; server_inv_tac.
    + destruct H2 as [H2 ->]. destruct st; [injection H as <-; server_inv_tac|].
      destruct ln; injection H as <-; server_inv_tac.
    + destruct H2 as [H2 ->]. destruct st; injection H as <-; server_inv_tac.
    + injection H as <-. split; cbn; try done. by rewrite <- H1, fmap_app.
    + destruct (forallb is_end ws) eqn:Hall; [|done]. injection H as <-. destruct H2 as (-> & H2 & _). split; cbn; try done.
      intros _. rewrite forallb_forall in Hall. apply Forall_forall. intros w Hw. apply Hall. by rewrite <- list_elem_of_In.
  - destruct Hinv as [H1 H2 H3 H4]. unfold handed, ec_ok in *. destruct s as [st ln m e ws acc]; cbn in *.
    destruct m; try done. destruct H2 as [H2 ->]. destruct res as [e'|sock].
    + destruct (ec_bool e') eqn:He; [|done]. injection H as <-. server_inv_tac.
    + injection H as <-. server_inv_tac.
  - destruct (workers s !! i) as [[sock| |]|] eqn:Hi; try done. injection H as <-.
    eapply set_worker_inv; try done. by destruct ok.
  - destruct (workers s !! i) as [[|sock|]|] eqn:Hi; try done. injection H as <-. by eapply set_worker_inv.
  - injection H as <-. destruct Hinv as [H1 H2 H3 H4]. unfold handed, ec_ok in *.
    destruct s as [st ln m e ws acc]; cbn in *. destruct m; server_inv_tac. by destruct b.
  - destruct (stopping s) eqn:Hs; [|done]. injection H as <-. destruct Hinv as [H1 H2 H3 H4]. unfold handed, ec_ok in *.
    destruct s as [st ln m e ws acc]; cbn in *. subst st. destruct m; server_inv_tac.
Qed.

Lemma run_inv b l s s' : server_inv b s -> run s l = Some s' -> server_inv b s'.
Proof.
  revert s. induction l as [|a l IH]; intros s Hi H; cbn in H; [by simplify_eq|].
  destruct (step s a) as [s1|] eqn:E; [|done]. eapply IH; [by eapply step_inv|done].
Qed.

Lemma start_inv b : server_inv b (start b).
Proof. server_inv_tac. Qed.

(** [serve(on_connect)]: whether the overload without an error code throws. *)
Definition serve_throws (s : server) : bool :=
  ec_bool (ec s) && negb (ec_eqb (ec s) (make_error_code Errc.closed)) && negb (stopping s).

(** ** Theorem *)

(** In every interleaving of the accept loop, its workers and
    callers of [stop] and [close]: each socket accepted goes to exactly one worker,
    in order, and none is lost; once [stopping_] is set, unless the loop is inside
    the kernel's accept, two steps of its thread take it to the join without
    accepting anything; [serve] returns only when every worker has ended, with a
    success code only if it was stopped and with [other] at once when there is no
    callback; and the overload without an error code then throws exactly when it was not
    stopped and the error is not [closed]. *)
Theorem serve_correct (has_callback : bool) (l : list action) (s : server) :
  run (start has_callback) l = Some s ->
  (socket_of <$> workers s) ++ (match main s with M_spawn sock => [sock] | _ => [] end) = accepted s
  /\ (stopping s = true -> main s <> M_accept -> main s <> M_done -> has_callback = true ->
      exists n s', (n <= 2)%nat /\ run s (replicate n Main) = Some s' /\ main s' = M_join /\ accepted s' = accepted s)
  /\ (main s = M_done ->
      Forall (fun w => is_end w = true) (workers s)
      /\ (if has_callback then ec_bool (ec s) = false -> stopping s = true
          else ec s = make_error_code Errc.other /\ workers s = [])
      /\ (serve_throws s = true <-> stopping s = false /\ ec_eqb (ec s) (make_error_code Errc.closed) = false)).
Proof.
  intros H. apply (run_inv has_callback) in H as [H1 H2 H3 H4]; [|apply start_inv]. split_and!.
  - rewrite <- H1. unfold handed. destruct (main s); by rewrite ?app_nil_r.
  - intros Hs Ha Hd ->. unfold ec_ok in H2. destruct s as [st ln m e ws acc]. cbn in *. subst st.
    destruct m as [cb| | | |sock| |]; try done.
    + destruct H2 as [-> ->]. exists 2%nat, (Server true ln M_join ec_none [] acc). split; [lia|done].
    + exists 1%nat, (Server true ln M_join e ws acc). split; [lia|done].
    + exists 1%nat, (Server true ln M_join (make_error_code Errc.canceled) ws acc). split; [lia|done].
    + exists 2%nat, (Server true ln M_join e (ws ++ [W_handshake sock]) acc). split; [lia|done].
    + exists 0%nat, (Server true ln M_join e ws acc). split; [lia|done].
  - intros Hd. split; [auto|]. unfold ec_ok in H2. rewrite Hd in H2. split; [done|].
    unfold serve_throws. rewrite !andb_true_iff, !negb_true_iff.
    assert (stopping s = false -> ec_bool (ec s) = true).
    { intros Hs. destruct has_callback; [|by destruct H2 as [-> _]]. destruct (ec_bool (ec s)); [done|]. by rewrite H2 in Hs. }
    tauto.
Qed.
