(* ===== verification/ServerStack.v ===== *)
(** * ServerStack

    The server over the operating system: the transition system of [Server] with its
    labels resolved by the code below it.  The kernel's accept is [Socket.sys_accept],
    a worker's handshake is [Dial.serve_conn_for], a connection that ends closes its
    socket, [close] closes the listener ([src/server.cpp], [src/dial.cpp],
    [src/detail/socket.cpp]).  What is followed is who owns which descriptor. *)

From stdpp Require Import gmap.
From S2P Require Import Prelude Errors Stream Crypto Session Handshake Config Socket Dial Server.

Section Stack.
Context {K R : Type} {Ker : Kernel K} {Rng : Drbg_api R} {Sha : Sha256} {Dh : X25519}.

(** The server object with the sockets its workers own, in the order of [workers], and
    the connections handed to the callback. *)
Record stack := Stack {
  srv : server;
  ln : TcpListener;
  cells : list TcpSocket;
  handed_over : list conn_args;
  ker : K;
  ent : R
}.

Inductive act :=
  | DoMain                   (* serve runs on *)
  | DoAccept                 (* ::accept returns *)
  | DoHandshake (i : nat)    (* worker i: serve_conn *)
  | DoShutdown (i : nat)     (* the callback of worker i shuts its connection down *)
  | DoReturn (i : nat)       (* the callback returns and the connection is destroyed *)
  | DoStop                   (* close(): stopping_.store(true) *)
  | DoClose.                 (* close(): ln_->close() *)

(** The server part of a step, with the rest of the state after it. *)
Definition advance (st : stack) (a : action) (ln' : TcpListener) (cs : list TcpSocket) (hs : list conn_args)
    (k : K) (r : R) : option stack :=
  s' ← step (srv st) a; Some (Stack s' ln' cs hs k r).

(** Closing the socket of worker [i]. *)
Definition close_cell (i : nat) (st : stack) : list TcpSocket * K :=
  match cells st !! i with
  | Some sock => let '(sock', k) := TcpSocket_close sock (ker st) in (<[i := sock']> (cells st), k)
  | None => (cells st, ker st)
  end.

(** [cfg] is [cfg_]; [lfd] the descriptor [accept] read from [fd_] before it called the
    kernel, which [close] may have closed since. *)
Definition sstep (cfg : Config) (lfd : Z) (st : stack) (a : act) : option stack :=
  match a with
  | DoMain =>
      let cs := match main (srv st) with M_spawn fd => cells st ++ [MkTcpSocket fd] | _ => cells st end in
      advance st Main (ln st) cs (handed_over st) (ker st) (ent st)
  | DoAccept =>
      let '(k1, s) := sys_accept lfd (ker st) in
      advance st (Accept (if s <? 0 then inl (last_socket_error k1) else inr s)) (ln st) (cells st)
        (handed_over st) k1 (ent st)
  | DoHandshake i =>
      sock ← cells st !! i;
      match serve_conn_for (Some sock) (Some cfg) (ker st, ent st) with
      | ((k1, r1), inl _) =>
          advance st (Handshake i false) (ln st) (<[i := MkTcpSocket kInvalidSocket]> (cells st)) (handed_over st) k1 r1
      | ((k1, r1), inr args) =>
          advance st (Handshake i true) (ln st) (cells st) (handed_over st ++ [args]) k1 r1
      end
  | DoShutdown i =>
      match workers (srv st) !! i with
      | Some (W_callback _) =>
          let '(cs, k1) := close_cell i st in Some (Stack (srv st) (ln st) cs (handed_over st) k1 (ent st))
      | _ => None
      end
  | DoReturn i =>
      let '(cs, k1) := close_cell i st in advance st (CallbackReturns i) (ln st) cs (handed_over st) k1 (ent st)
  | DoStop => advance st StopStore (ln st) (cells st) (handed_over st) (ker st) (ent st)
  | DoClose =>
      let '(ln', k1) := TcpListener_close (ln st) (ker st) in
      advance st StopClose ln' (cells st) (handed_over st) k1 (ent st)
  end.

Fixpoint srun (cfg : Config) (lfd : Z) (st : stack) (l : list act) : option stack :=
  match l with
  | [] => Some st
  | a :: l' => st' ← sstep cfg lfd st a; srun cfg lfd st' l'
  end.

(** A server that [Server::listen] has opened, at the entry of [serve]. *)
Definition boot (has_callback : bool) (ln : TcpListener) (k : K) (r : R) : stack :=
  Stack (start has_callback) ln [] [] k r.

(** [~Server]: [stop] and [close] have run and every worker is joined.  No thread is in
    [serve] any more. *)
Definition destroyed (st : stack) : Prop :=
  stopping (srv st) = true /\ ln_open (srv st) = false /\ forallb is_end (workers (srv st)) = true
  /\ match main (srv st) with M_start _ | M_done => True | _ => False end.

(** [Server::listen] without an error code. *)
Definition listen_or_throw (os_message : Z -> string) (network : string) (addr : bytes) (cfg : option Config) :
    K -> K * (Error + option (TcpListener * Config)) :=
  throwing os_message "listen" (server_listen network addr cfg).

(** ** Ownership *)

Definition live (s : TcpSocket) : option Z := if socket_valid s then Some (fd_ s) else None.
Definition in_hand (m : mpc) : list Z := match m with M_spawn fd => [fd] | _ => [] end.
Definition listening (l : TcpListener) : list Z := if ln_fd_ l =? kInvalidSocket then [] else [ln_fd_ l].

(** The descriptors of the server: its listener, the socket just accepted and those of
    the workers. *)
Definition owned (st : stack) : list Z := listening (ln st) ++ in_hand (main (srv st)) ++ omap live (cells st).

(** The socket of a worker, as far as the worker is. *)
Definition cell_ok (w : worker) (c : TcpSocket) : Prop :=
  match w with
  | W_handshake s => c = MkTcpSocket s /\ 0 <= s
  | W_callback s => c = MkTcpSocket s /\ 0 <= s \/ c = MkTcpSocket kInvalidSocket
  | W_end _ _ => c = MkTcpSocket kInvalidSocket
  end.

Lemma live_insert (cs : list TcpSocket) i c fd :
  cs !! i = Some c -> live c = Some fd ->
  omap live cs ≡ₚ fd :: omap live (<[i := MkTcpSocket kInvalidSocket]> cs).
Proof using.
  intros Hi Hc. pose proof (lookup_lt_Some _ _ _ Hi) as Hlt.
  rewrite <- (take_drop_middle cs i c Hi) at 1. rewrite insert_take_drop by done.
  rewrite !omap_app. cbn. rewrite Hc. symmetry. apply Permutation_middle.
Qed.

Lemma live_insert_dead (cs : list TcpSocket) i c :
  cs !! i = Some c -> live c = None -> omap live (<[i := MkTcpSocket kInvalidSocket]> cs) = omap live cs.
Proof using.
  intros Hi Hc. pose proof (lookup_lt_Some _ _ _ Hi) as Hlt.
  rewrite <- (take_drop_middle cs i c Hi) at 2. rewrite insert_take_drop by done.
  rewrite !omap_app. cbn. by rewrite Hc.
Qed.

End Stack.

Arguments stack : clear implicits.

(** ** Accounting *)

Section Accounting.
Context {K : Type} {Ker : Kernel K} {Laws : KernelLaws K}.
Implicit Types k : K.

(** The open descriptors are those of the [others] and, disjointly, the list [l]. *)
Record account (others : gset Z) (l : list Z) k : Prop := {
  ac_nodup : NoDup l;
  ac_disjoint : others ## list_to_set l;
  ac_open : open_fds k = others ∪ list_to_set l
}.

Lemma account_perm o l l' k : l ≡ₚ l' -> account o l k -> account o l' k.
Proof.
  intros Hp [H1 H2 H3]. assert (Hs : (list_to_set l : gset Z) = list_to_set l') by (by rewrite Hp).
  split; [by rewrite <- Hp|by rewrite <- Hs|by rewrite <- Hs].
Qed.

Lemma account_fds o l k k' : open_fds k' = open_fds k -> account o l k -> account o l k'.
Proof. intros Hk [H1 H2 H3]. split; [done|done|by rewrite Hk]. Qed.

Lemma account_add o l fd k k' :
  fd ∉ open_fds k -> open_fds k' = {[fd]} ∪ open_fds k -> account o l k -> account o (fd :: l) k'.
Proof.
  intros Hfd Hk [H1 H2 H3]. rewrite H3 in Hfd. split; cbn.
  - apply NoDup_cons. split; [|done]. set_solver.
  - set_solver.
  - rewrite Hk, H3. set_solver.
Qed.

Lemma account_remove o l fd k k' :
  open_fds k' = open_fds k ∖ {[fd]} -> account o (fd :: l) k -> account o l k'.
Proof.
  intros Hk [H1 H2 H3]. apply NoDup_cons in H1 as [Hn H1]. cbn in H2, H3. split; [done|set_solver|].
  rewrite Hk, H3. assert (fd ∉ (list_to_set l : gset Z)) by set_solver. set_solver.
Qed.

End Accounting.

(** ** The invariant *)

Section Facts.
Context {K R : Type} {Ker : Kernel K} {Laws : KernelLaws K}.
Context {Rng : Drbg_api R} {RngL : DrbgLaws R}.
Context {Sha : Sha256} {ShaL : Sha256Laws} {Dh : X25519} {DhL : X25519Laws}.
Implicit Types (k : K) (r : R) (st : stack K R).

(** What is known of a connection given to a callback: it has the server's configuration,
    and its session key was derived from the server's own pre-shared key and a peer key
    that matches the pin, if one is set.  The handshake has no key confirmation: the peer
    need not have derived the same key. *)
Definition configured (cfg : Config) (a : conn_args) : Prop :=
  a_cfg a = freeze_config (Some cfg) /\ exists r r', session_of_config (freeze_config (Some cfg)) (a_sess a) r r'.

Record stack_inv (cfg : Config) (others : gset Z) st : Prop := {
  ki_cells : Forall2 cell_ok (workers (srv st)) (cells st);
  ki_ln : ln_open (srv st) = negb (ln_fd_ (ln st) =? kInvalidSocket);
  ki_hand : Forall (fun fd => 0 <= fd) (in_hand (main (srv st)));
  ki_account : account others (owned st) (ker st);
  ki_configured : Forall (configured cfg) (handed_over st)
}.

Lemma advance_some st a ln' cs hs k r st' :
  advance st a ln' cs hs k r = Some st' -> exists s', step (srv st) a = Some s' /\ st' = Stack s' ln' cs hs k r.
Proof using. unfold advance. destruct (step (srv st) a) as [s'|]; [|done]. intros [= <-]. by exists s'. Qed.

(** The steps of the accept loop. *)
Lemma main_inv cfg o st st' lfd :
  stack_inv cfg o st -> sstep cfg lfd st DoMain = Some st' -> stack_inv cfg o st'.
Proof using.
  intros Hi H. apply advance_some in H as (s' & H & ->). revert Hi H.
  destruct st as [[stp lo m e ws acc] l cs hs k r]. intros [H1 H2 H3 H4 H5]. unfold owned in H4. cbn in *.
  unfold main_step; cbn. destruct m as [cb| | | |fd| |]; cbn; intros H; try done.
  - destruct cb; injection H as <-; split; done.
  - destruct stp; [injection H as <-; split; done|]. destruct lo; injection H as <-; split; done.
  - injection H as <-; split; done.
  - injection H as <-. cbn in H3, H4. rewrite Forall_singleton in H3. split; cbn; try done.
    + apply Forall2_app; [done|]. constructor; [|constructor]. by split.
    + unfold owned. cbn. rewrite omap_app. cbn. unfold live at 2, socket_valid, kInvalidSocket. cbn [fd_].
      guard_false (fd =? -1). cbn. eapply account_perm; [|exact H4]. apply Permutation_app_head.
      by rewrite Permutation_cons_append.
  - destruct (forallb is_end ws); [|done]. injection H as <-; split; done.
Qed.

Lemma accept_inv cfg o st st' lfd :
  stack_inv cfg o st -> sstep cfg lfd st DoAccept = Some st' -> stack_inv cfg o st'.
Proof using.
  intros [H1 H2 H3 H4 H5] H. cbn [sstep] in H. destruct (sys_accept lfd (ker st)) as [k1 s] eqn:Ha.
  apply accept_law in Ha. apply advance_some in H as (s' & H & ->). cbn in H. unfold owned in H4.
  destruct (main (srv st)) eqn:Hm; try done. destruct (s <? 0) eqn:Hs; bool_to_prop.
  - destruct Ha as [[Ha _] _]. destruct (ec_bool _); [|done]. simplify_eq. split; try done. by eapply account_fds.
  - destruct Ha as (Ha1 & Ha2 & _). simplify_eq. split; try done; cbn; [by constructor|].
    unfold owned. cbn. eapply account_perm; [|by eapply (account_add _ _ s)]. apply Permutation_middle.
Qed.

(** The socket of a running worker. *)
Lemma cell_of cfg o st i w :
  stack_inv cfg o st -> workers (srv st) !! i = Some w -> exists c, cells st !! i = Some c /\ cell_ok w c.
Proof using. intros Hi Hw. destruct (Forall2_lookup_l _ _ _ _ _ (ki_cells _ _ _ Hi) Hw) as (c & Hc & Hok). eauto. Qed.

Lemma live_valid fd : 0 <= fd -> socket_valid (MkTcpSocket fd) = true /\ live (MkTcpSocket fd) = Some fd.
Proof using. intros Hf. unfold live, socket_valid, kInvalidSocket. cbn [fd_]. by guard_false (fd =? -1). Qed.

(** The accounts when worker [i] gives up its socket. *)
Lemma account_cell o st i fd k' :
  cells st !! i = Some (MkTcpSocket fd) -> 0 <= fd -> open_fds k' = open_fds (ker st) ∖ {[fd]} ->
  account o (owned st) (ker st) ->
  account o (listening (ln st) ++ in_hand (main (srv st)) ++ omap live (<[i := MkTcpSocket kInvalidSocket]> (cells st))) k'.
Proof using.
  intros Hi Hf Hk Ha. eapply account_remove; [done|]. eapply account_perm; [|exact Ha]. unfold owned.
  rewrite (live_insert (cells st) i _ fd Hi) by (by apply live_valid). rewrite !app_assoc.
  symmetry. apply Permutation_middle.
Qed.

Lemma handshake_inv cfg o st st' lfd i :
  stack_inv cfg o st -> sstep cfg lfd st (DoHandshake i) = Some st' -> stack_inv cfg o st'.
Proof using Laws RngL.
  clear ShaL DhL. intros Hi H. cbn [sstep] in H. destruct (cells st !! i) as [c|] eqn:Hc; [|done]. cbn [mbind option_bind] in H.
  destruct (serve_conn_for _ _ _) as [[k1 r1] res] eqn:E.
  assert (Hw : exists fd, workers (srv st) !! i = Some (W_handshake fd)).
  { destruct res; apply advance_some in H as (s' & H & _); cbn in H;
      destruct (workers (srv st) !! i) as [[fd| |]|]; try done; by exists fd. }
  destruct Hw as [fd Hw]. destruct (cell_of _ _ _ _ _ Hi Hw) as (c' & Hc' & -> & Hfd). simplify_eq.
  destruct (live_valid fd Hfd) as [Hv Hl]. pose proof Hi as [H1 H2 H3 H4 H5]. apply serve_conn_fds in E as [_ E].
  2: { intros s [= <-]. split; [done|]. cbn. rewrite (ac_open _ _ _ H4). unfold owned.
       rewrite (live_insert (cells st) i _ fd Hc Hl). set_solver. }
  destruct res as [e|a]; apply advance_some in H as (s' & H & ->); cbn in H; rewrite Hw in H; simplify_eq; cbn in E.
  - split; cbn; try done; [by apply Forall2_insert|].
    unfold owned. cbn. by apply (account_cell _ _ _ _ _ Hc Hfd (proj2 E)).
  - destruct E as (_ & E2 & E3 & _ & E5). split; cbn; try done.
    + rewrite <- (list_insert_id (cells st) i (MkTcpSocket fd)) by done. apply Forall2_insert; [done|by left].
    + by eapply account_fds.
    + apply Forall_app. split; [done|]. apply Forall_singleton. by split; [|eauto].
Qed.

(** The end of a connection's socket, whatever was done with it before. *)
Lemma close_cell_inv cfg o st i fd w cs k1 :
  stack_inv cfg o st -> workers (srv st) !! i = Some (W_callback fd) -> close_cell i st = (cs, k1) ->
  cell_ok w (MkTcpSocket kInvalidSocket) ->
  Forall2 cell_ok (<[i := w]> (workers (srv st))) cs
  /\ account o (listening (ln st) ++ in_hand (main (srv st)) ++ omap live cs) k1.
Proof using.
  intros Hi Hw H Hok. destruct (cell_of _ _ _ _ _ Hi Hw) as (c & Hc & Hcell). pose proof Hi as [H1 H2 H3 H4 H5].
  unfold close_cell in H. rewrite Hc in H. unfold TcpSocket_close in H. destruct Hcell as [[-> Hfd]| ->].
  - unfold kInvalidSocket in H. cbn [fd_] in H. rewrite (proj2 (Z.eqb_neq fd (-1))) in H by lia. simplify_eq.
    split; [by apply Forall2_insert|]. by apply (account_cell _ _ _ fd _ Hc Hfd); [apply close_law|].
  - cbn in H. simplify_eq. split; [by apply Forall2_insert|]. by rewrite (live_insert_dead _ _ _ Hc).
Qed.

Lemma sstep_inv cfg o st st' lfd a : stack_inv cfg o st -> sstep cfg lfd st a = Some st' -> stack_inv cfg o st'.
Proof using Laws RngL.
  clear ShaL DhL. intros Hi H. destruct a as [| |i|i|i| |].
  - by eapply main_inv.
  - by eapply accept_inv.
  - by eapply handshake_inv.
  - cbn [sstep] in H. destruct (workers (srv st) !! i) as [[|fd|]|] eqn:Hw; try done.
    destruct (close_cell i st) as [cs k1] eqn:Hc. injection H as <-.
    destruct (close_cell_inv _ _ _ _ _ (W_callback fd) _ _ Hi Hw Hc) as [Hcs Ha]; [by right|].
    destruct Hi as [H1 H2 H3 H4 H5]. rewrite list_insert_id in Hcs by done. by split.
  - cbn [sstep] in H. destruct (close_cell i st) as [cs k1] eqn:Hc. apply advance_some in H as (s' & H & ->). cbn in H.
    destruct (workers (srv st) !! i) as [[|fd|]|] eqn:Hw; try done. injection H as <-.
    destruct (close_cell_inv _ _ _ _ _ (W_end fd true) _ _ Hi Hw Hc) as [Hcs Ha]; [done|].
    destruct Hi as [H1 H2 H3 H4 H5]. by split.
  - apply advance_some in H as (s' & H & ->). cbn in H. injection H as <-. by destruct Hi as [H1 H2 H3 H4 H5]; split.
  - cbn [sstep] in H. unfold TcpListener_close in H. destruct (ln_fd_ (ln st) =? kInvalidSocket) eqn:Hl;
      apply advance_some in H as (s' & H & ->); cbn in H; destruct (stopping (srv st)); try done; injection H as <-;
      destruct Hi as [H1 H2 H3 H4 H5]; split; try done; cbn.
    + by rewrite Hl.
    + unfold owned, listening in H4. rewrite Hl in H4. eapply account_remove; [apply close_law|exact H4].
Qed.

(** ** The whole process *)

(** A step of the server, or anything the rest of the process does: it opens and closes
    descriptors of its own and moves data, but leaves those of the server open. *)
Inductive moves (cfg : Config) (lfd : Z) : gset Z * stack K R -> gset Z * stack K R -> Prop :=
  | moves_server o st a st' : sstep cfg lfd st a = Some st' -> moves cfg lfd (o, st) (o, st')
  | moves_others o st o' k' r' :
      account o' (owned st) k' ->
      moves cfg lfd (o, st) (o', Stack (srv st) (ln st) (cells st) (handed_over st) k' r').

Lemma moves_inv cfg lfd x y : moves cfg lfd x y -> stack_inv cfg (fst x) (snd x) -> stack_inv cfg (fst y) (snd y).
Proof using Laws RngL.
  clear ShaL DhL. intros [o st a st' H|o st o' k' r' H]; cbn.
  - intros Hi. by eapply sstep_inv.
  - by intros [H1 H2 H3 H4 H5]; split.
Qed.

Lemma boot_inv network addr cfg0 cfg k0 k1 l r b :
  server_listen network addr cfg0 k0 = (k1, inr (l, cfg)) -> stack_inv cfg (open_fds k0) (boot b l k1 r).
Proof using.
  clear RngL ShaL DhL. unfold server_listen. destruct (known_network network); [|done]. cbn [negb].
  destruct (connect_listen_descriptors addr 0 k0) as [_ H]. destruct (listen addr k0) as [k2 [e|l']]; [done|].
  intros [= <- <- _]. destruct H as (H1 & H2 & H3 & _). split; cbn; try done.
  - unfold kInvalidSocket. by guard_false (ln_fd_ l' =? -1).
  - unfold owned, listening, kInvalidSocket. cbn. guard_false (ln_fd_ l' =? -1). cbn.
    eapply account_add; [done|done|]. split; cbn; [constructor|set_solver|set_solver].
Qed.

(** [listen] opens a server or throws: it does not return a null pointer, and what it
    throws for leaves the descriptors as they were. *)
Lemma listen_reports os_message network addr cfg k0 :
  reports "listen" (server_listen network addr cfg k0) (listen_or_throw os_message network addr cfg k0)
  /\ (forall k e, server_listen network addr cfg k0 = (k, inl e) -> ec_bool e = true /\ keeps_fds k0 k).
Proof using.
  clear RngL ShaL DhL. assert (H : forall k e, server_listen network addr cfg k0 = (k, inl e) -> ec_bool e = true /\ keeps_fds k0 k).
  { unfold server_listen. destruct (known_network network); cbn [negb]; [|by intros k e [= <- <-]].
    destruct (connect_listen_descriptors addr 0 k0) as [_ H].
    destruct (listen addr k0) as [k2 [e2|l']]; [by intros k e [= <- <-]|done]. }
  split; [|done]. apply throwing_reports. intros k e E. by apply H in E as [? _].
Qed.

(** All workers have ended: none owns a socket. *)
Lemma ended_cells ws cs : Forall2 cell_ok ws cs -> forallb is_end ws = true -> omap live cs = [].
Proof using.
  induction 1 as [|w c ws cs Hc _ IH]; [done|]. cbn. intros H. apply andb_true_iff in H as [Hw H].
  destruct w; try done. cbn in Hc. subst c. cbn. auto.
Qed.

(** C34 (server_descriptors).  The descriptors of a server, in every interleaving of its
    accept loop, handshakes, callbacks, [stop] and [close] and of everything else the
    process does: from [listen] on, the open descriptors are those of the rest of the
    process and, without overlap or repetition, the listener until it is closed, the
    socket just accepted and the socket of each worker that has not ended; every
    connection handed to the callback has the server's configuration and a session key
    derived from the server's pre-shared key and, if a pin is set, from a peer key that
    matches it (whether the peer has the same key is not known at that point); and once the server is destroyed it owns none: whatever
    was accepted, refused or cut short, no descriptor is leaked, and none of the others
    was closed. *)
Theorem server_descriptors (network : string) (addr : bytes) (cfg0 : option Config) (cfg : Config)
    (k0 k1 : K) (l : TcpListener) (r : R) (b : bool) (others : gset Z) st :
  server_listen network addr cfg0 k0 = (k1, inr (l, cfg)) ->
  rtc (moves cfg (ln_fd_ l)) (open_fds k0, boot b l k1 r) (others, st) ->
  NoDup (owned st) /\ others ## list_to_set (owned st) /\ open_fds (ker st) = others ∪ list_to_set (owned st)
  /\ Forall2 cell_ok (workers (srv st)) (cells st)
  /\ Forall (configured cfg) (handed_over st)
  /\ (destroyed st -> open_fds (ker st) = others).
Proof using Laws RngL.
  clear ShaL DhL. intros Hl Hm. apply boot_inv with (r := r) (b := b) in Hl.
  assert (Hi : stack_inv cfg others st).
  { change (stack_inv cfg (fst (others, st)) (snd (others, st))). revert Hl.
    change (open_fds k0) with (fst (open_fds k0, boot b l k1 r)).
    change (boot b l k1 r) with (snd (open_fds k0, boot b l k1 r)) at 2.
    induction Hm as [x|x y z Hxy Hyz IH]; [done|]. intros Hx. apply IH. by eapply moves_inv. }
  destruct Hi as [H1 H2 H3 [H4 H5 H6] H7]. split_and!; try done.
  intros (_ & Hlo & Hend & Hmain). rewrite H6. unfold owned, listening.
  rewrite (ended_cells _ _ H1 Hend). rewrite Hlo in H2. symmetry in H2. apply negb_false_iff in H2 as ->.
  destruct (main (srv st)); set_solver.
Qed.

End Facts.

(** ** Witness *)

Import Toy ToyKernel.

(** A client that completes its handshake; a second one accepted while the server is
    being stopped, whose handshake then fails. *)
Definition demo_acts : list act :=
  [DoMain; DoMain; DoAccept; DoMain; DoHandshake 0; DoMain; DoStop; DoClose; DoAccept; DoMain; DoMain;
   DoHandshake 1; DoReturn 0; DoMain].

Definition demo_listen : kernel * (error_code + TcpListener * Config) := server_listen "tcp" address None peer_kernel.
Definition demo_listener : TcpListener := match snd demo_listen with inr (l, _) => l | inl _ => MkTcpListener (-1) [] end.
Definition demo_boot : stack kernel toy_drbg := boot true demo_listener (fst demo_listen) (ToyDrbg 5 true).
Definition demo_end : stack kernel toy_drbg :=
  default demo_boot (srun default_config (ln_fd_ demo_listener) demo_boot demo_acts).

Lemma srun_moves {K R} `{KernelLaws K} `{Drbg_api R} `{Sha256} `{X25519} (o : gset Z) cfg lfd l (st st' : stack K R) :
  srun cfg lfd st l = Some st' -> rtc (moves cfg lfd) (o, st) (o, st').
Proof.
  revert st. induction l as [|a l IH]; intros st Hs; cbn in Hs; [by simplify_eq|].
  destruct (sstep cfg lfd st a) as [st1|] eqn:E; [|done]. eapply rtc_l; [by eapply moves_server|by apply IH].
Qed.

Lemma server_descriptors_witness :
  workers (srv demo_end) = [W_end 9 true; W_end 10 false] /\ length (handed_over demo_end) = 1%nat
  /\ open_fds (ker demo_end) = open_fds peer_kernel.
Proof.
  split; [vm_compute; reflexivity|]. split; [vm_compute; reflexivity|].
  apply (server_descriptors "tcp" address None default_config peer_kernel (fst demo_listen) demo_listener
    (ToyDrbg 5 true) true).
  - vm_compute. reflexivity.
  - apply (srun_moves _ _ _ demo_acts). vm_compute. reflexivity.
  - vm_compute. repeat split.
Defined.
