(* ===== verification/ChatServer.v ===== *)
(** * ChatServer

    [examples/server/main.cpp]: a server that relays every message it receives to all
    connected peers.  Its callback runs once per connection on a worker thread of the
    server; all callbacks share the vector of connections [conns] under the mutex [mu].
    Calls of a connection ([receive], [send], [shutdown]) are labels with their outcome. *)

From S2P Require Import Prelude Errors.

(** Where the callback of a peer is. *)
Inductive point :=
  | P_join                                       (* lock mu, conns.push_back(&conn) *)
  | P_receive                                    (* conn.receive(ec) *)
  | P_relay (msg : bytes)                        (* lock mu *)
  | P_sending (msg : bytes) (todo : list nat)    (* mu held: c->send(msg, se) for the rest of conns *)
  | P_leave                                      (* lock mu, conns.erase *)
  | P_shutdown                                   (* mu held: conn.shutdown(1000ms) *)
  | P_gone.                                      (* returned: the connection is destroyed *)

(** A connection: its callback, the number of messages relayed before it joined, and the
    sends made on it with their success. *)
Record peer := Peer { at_ : point; since : nat; attempts : list (bytes * bool) }.

Record room := Room {
  mu : option nat;          (* the callback that holds it *)
  conns : list nat;
  peers : list peer;
  relayed : list bytes;     (* the messages relayed, in the order of the lock *)
  dangling : bool           (* a send was made on a destroyed connection *)
}.

Inductive act :=
  | Connect                               (* a new connection, its callback starts *)
  | Join (i : nat)
  | Receive (i : nat) (res : option bytes)
  | Relay (i : nat)
  | Send (i : nat) (ok : bool)
  | Unlock (i : nat)
  | Leave (i : nat)
  | Finish (i : nat).                     (* shutdown returns, the callback ends *)

Definition go (i : nat) (p : point) (x : peer) (l : list peer) : list peer := <[i := Peer p (since x) (attempts x)]> l.

(** Sending to connection [j]. *)
Definition record_send (j : nat) (msg : bytes) (ok : bool) (l : list peer) : list peer :=
  alter (fun x => Peer (at_ x) (since x) (attempts x ++ [(msg, ok)])) j l.

Definition is_gone (l : list peer) (j : nat) : bool :=
  match l !! j with Some x => match at_ x with P_gone => true | _ => false end | None => true end.

Definition step (s : room) (a : act) : option room :=
  match a with
  | Connect => Some (Room (mu s) (conns s) (peers s ++ [Peer P_join 0 []]) (relayed s) (dangling s))
  | Join i =>
      x ← peers s !! i;
      match at_ x, mu s with
      | P_join, None =>
          Some (Room None (conns s ++ [i]) (<[i := Peer P_receive (length (relayed s)) (attempts x)]> (peers s))
                  (relayed s) (dangling s))
      | _, _ => None
      end
  | Receive i res =>
      x ← peers s !! i;
      match at_ x with
      | P_receive =>
          Some (Room (mu s) (conns s) (go i (match res with Some msg => P_relay msg | None => P_leave end) x (peers s))
                  (relayed s) (dangling s))
      | _ => None
      end
  | Relay i =>
      x ← peers s !! i;
      match at_ x, mu s with
      | P_relay msg, None =>
          Some (Room (Some i) (conns s) (go i (P_sending msg (conns s)) x (peers s)) (relayed s ++ [msg]) (dangling s))
      | _, _ => None
      end
  | Send i ok =>
      x ← peers s !! i;
      match at_ x with
      | P_sending msg (j :: todo) =>
          Some (Room (mu s) (conns s) (record_send j msg ok (go i (P_sending msg todo) x (peers s))) (relayed s)
                  (dangling s || is_gone (peers s) j))
      | _ => None
      end
  | Unlock i =>
      x ← peers s !! i;
      match at_ x with
      | P_sending _ [] => Some (Room None (conns s) (go i P_receive x (peers s)) (relayed s) (dangling s))
      | _ => None
      end
  | Leave i =>
      x ← peers s !! i;
      match at_ x, mu s with
      | P_leave, None =>
          Some (Room (Some i) (filter (fun j => j <> i) (conns s)) (go i P_shutdown x (peers s)) (relayed s) (dangling s))
      | _, _ => None
      end
  | Finish i =>
      x ← peers s !! i;
      match at_ x with
      | P_shutdown => Some (Room None (conns s) (go i P_gone x (peers s)) (relayed s) (dangling s))
      | _ => None
      end
  end.

Fixpoint run (s : room) (l : list act) : option room :=
  match l with
  | [] => Some s
  | a :: l' => s' ← step s a; run s' l'
  end.

Definition empty_room : room := Room None [] [] [] false.

(** ** The invariant *)

Definition holding (p : point) : bool := match p with P_sending _ _ | P_shutdown => true | _ => false end.
Definition inside (p : point) : bool :=
  match p with P_receive | P_relay _ | P_sending _ _ | P_leave => true | _ => false end.

(** The message that is being relayed and has not reached [j] yet. *)
Definition under_way (s : room) (j : nat) : list bytes :=
  match mu s with
  | Some i => match at_ <$> peers s !! i with
              | Some (P_sending msg todo) => if bool_decide (j ∈ todo) then [msg] else []
              | _ => []
              end
  | None => []
  end.

Arguments under_way : simpl never.

(** What was sent to a peer. *)
Definition peer_ok (s : room) (j : nat) (x : peer) : Prop :=
  match at_ x with
  | P_join => attempts x = []
  | P_shutdown | P_gone => (fst <$> attempts x) `prefix_of` drop (since x) (relayed s)
  | _ => (fst <$> attempts x) ++ under_way s j = drop (since x) (relayed s) /\ (since x <= length (relayed s))%nat
  end.

Record room_inv (s : room) : Prop := {
  ri_mu : forall i x, peers s !! i = Some x -> holding (at_ x) = true <-> mu s = Some i;
  ri_conns : forall j, j ∈ conns s <-> exists x, peers s !! j = Some x /\ inside (at_ x) = true;
  ri_nodup : NoDup (conns s);
  ri_todo : forall i x msg todo, peers s !! i = Some x -> at_ x = P_sending msg todo -> todo `suffix_of` conns s;
  ri_held : forall i, mu s = Some i -> exists x, peers s !! i = Some x;
  ri_peers : forall j x, peers s !! j = Some x -> peer_ok s j x;
  ri_safe : dangling s = false
}.

Lemma under_way_free s j : mu s = None -> under_way s j = [].
Proof. unfold under_way. by intros ->. Qed.

Lemma under_way_at s i x msg todo j :
  mu s = Some i -> peers s !! i = Some x -> at_ x = P_sending msg todo ->
  under_way s j = if bool_decide (j ∈ todo) then [msg] else [].
Proof. unfold under_way. intros -> -> Hx. cbn. by rewrite Hx. Qed.

Lemma under_way_same s s' j :
  mu s' = mu s -> (forall i, mu s = Some i -> at_ <$> peers s' !! i = at_ <$> peers s !! i) -> under_way s' j = under_way s j.
Proof. unfold under_way. intros -> H. destruct (mu s) as [i|]; [|done]. by rewrite H. Qed.

(** One peer moves between two points on the same side of the mutex and the vector, and
    nothing else changes. *)
Lemma move_inv s i x p :
  room_inv s -> peers s !! i = Some x -> holding p = holding (at_ x) -> holding p = false -> inside p = inside (at_ x) ->
  peer_ok s i (Peer p (since x) (attempts x)) ->
  room_inv (Room (mu s) (conns s) (go i p x (peers s)) (relayed s) (dangling s)).
Proof.
  intros [I1 I2 I3 I4 I5 I6 I7] Hi Hh Hf Hin Hok. pose proof (lookup_lt_Some _ _ _ Hi) as Hlt.
  assert (Hu : forall j, under_way (Room (mu s) (conns s) (go i p x (peers s)) (relayed s) (dangling s)) j = under_way s j).
  { intros j. apply under_way_same; [done|]. intros k Hk. cbn. unfold go. destruct (decide (k = i)) as [->|Hne].
    - exfalso. apply (I1 _ _ Hi) in Hk. congruence.
    - by rewrite list_lookup_insert_ne. }
  split; cbn; try done.
  - intros k y Hk. unfold go in Hk. apply list_lookup_insert_Some in Hk as [(<- & <- & _)|[Hne Hk]]; [|by apply I1].
    cbn. rewrite Hh. by apply I1.
  - intros j. rewrite I2. unfold go. split; intros (y & Hy & Hin').
    + destruct (decide (j = i)) as [->|Hne]; [|exists y; by rewrite list_lookup_insert_ne].
      rewrite list_lookup_insert_eq by done. eexists. split; [done|]. cbn. simplify_eq. congruence.
    + apply list_lookup_insert_Some in Hy as [(<- & <- & _)|[Hne Hy]]; [|by exists y]. exists x. cbn in Hin'. split; [done|congruence].
  - intros k y msg todo Hk Ha. unfold go in Hk. apply list_lookup_insert_Some in Hk as [(<- & <- & _)|[Hne Hk]]; [|by eapply I4].
    cbn in Ha. subst p. done.
  - intros k Hk. unfold go. destruct (I5 k Hk) as [y Hy]. destruct (decide (k = i)) as [->|Hne].
    + by rewrite list_lookup_insert_eq; eauto.
    + rewrite list_lookup_insert_ne by done. eauto.
  - intros j y Hj. unfold go in Hj. apply list_lookup_insert_Some in Hj as [(<- & <- & _)|[Hne Hj]].
    + unfold peer_ok in *. rewrite Hu. cbn in *. done.
    + specialize (I6 _ _ Hj). unfold peer_ok in *. rewrite Hu. done.
Qed.

(** The callback that holds the mutex, or finds it free, moves on: what has to be shown of
    the state after it. *)
Lemma locked_inv s i x y conns' relayed' :
  room_inv s -> peers s !! i = Some x -> mu s = None \/ mu s = Some i ->
  let s' := Room (if holding (at_ y) then Some i else None) conns' (<[i := y]> (peers s)) relayed' (dangling s) in
  NoDup conns' -> (forall j, j <> i -> j ∈ conns' <-> j ∈ conns s) -> (i ∈ conns' <-> inside (at_ y) = true) ->
  (forall msg todo, at_ y = P_sending msg todo -> todo `suffix_of` conns') ->
  peer_ok s' i y -> (forall j z, j <> i -> peers s !! j = Some z -> peer_ok s j z -> peer_ok s' j z) ->
  room_inv s'.
Proof.
  intros [I1 I2 I3 I4 I5 I6 I7] Hi Hmu s' Hnd Hc Hci Ht Hy Ho. pose proof (lookup_lt_Some _ _ _ Hi) as Hlt.
  assert (Hidle : forall k z, k <> i -> peers s !! k = Some z -> holding (at_ z) = false).
  { intros k z Hne Hk. destruct (holding (at_ z)) eqn:E; [|done]. apply (I1 _ _ Hk) in E. destruct Hmu; congruence. }
  unfold s'. split; cbn; try done.
  - intros k z Hk. apply list_lookup_insert_Some in Hk as [(<- & <- & _)|[Hne Hk]]; [by destruct (holding _)|].
    rewrite (Hidle k z) by done. split; [done|]. destruct (holding _); intros; simplify_eq.
  - intros j. destruct (decide (j = i)) as [->|Hne].
    + rewrite Hci, list_lookup_insert_eq by done. split; [by eauto|]. intros (z & [= <-] & ?). done.
    + rewrite Hc, I2, list_lookup_insert_ne by done. done.
  - intros k z msg todo Hk Hz. apply list_lookup_insert_Some in Hk as [(<- & <- & _)|[Hne Hk]]; [by eapply Ht|].
    specialize (Hidle k z ltac:(done) Hk). rewrite Hz in Hidle. done.
  - intros k. destruct (holding _); intros; simplify_eq. exists y. by rewrite list_lookup_insert_eq.
  - intros j z Hj. apply list_lookup_insert_Some in Hj as [(<- & <- & _)|[Hne Hj]]; [done|]. auto.
Qed.

(** A peer's record of sends depends on the messages relayed and the one under way. *)
Lemma peer_ok_same s s' j x :
  relayed s' = relayed s -> under_way s' j = under_way s j -> peer_ok s j x -> peer_ok s' j x.
Proof. unfold peer_ok. by intros -> ->. Qed.

Lemma join_inv s s' i : room_inv s -> step s (Join i) = Some s' -> room_inv s'.
Proof.
  intros Hinv H. cbn in H. destruct (peers s !! i) as [x|] eqn:Hi; [|done]. cbn in H.
  destruct (at_ x) eqn:Hx; try done. destruct (mu s) eqn:Hmu; [done|]. simplify_eq.
  pose proof Hinv as [I1 I2 I3 I4 I5 I6 I7].
  assert (Hni : i ∉ conns s) by (rewrite I2; intros (z & Hz & Hin); simplify_eq; by rewrite Hx in Hin).
  apply (locked_inv s i x (Peer P_receive (length (relayed s)) (attempts x))); auto; cbn; try done.
  - apply NoDup_app. split_and!; [done|set_solver|apply NoDup_singleton].
  - set_solver.
  - set_solver.
  - specialize (I6 _ _ Hi). unfold peer_ok in *. rewrite Hx in I6. cbn. rewrite I6, drop_all. by rewrite under_way_free.
  - intros j z _ _. apply peer_ok_same; [done|]. by rewrite !under_way_free.
Qed.

Lemma drop_snoc {A} n (l : list A) x : (n <= length l)%nat -> drop n (l ++ [x]) = drop n l ++ [x].
Proof. intros Hn. by rewrite drop_app_le. Qed.

Lemma relay_inv s s' i : room_inv s -> step s (Relay i) = Some s' -> room_inv s'.
Proof.
  intros Hinv H. cbn in H. destruct (peers s !! i) as [x|] eqn:Hi; [|done]. cbn in H.
  destruct (at_ x) as [| |msg| | | |] eqn:Hx; try done. destruct (mu s) eqn:Hmu; [done|]. simplify_eq.
  pose proof Hinv as [I1 I2 I3 I4 I5 I6 I7]. pose proof (lookup_lt_Some _ _ _ Hi) as Hlt.
  assert (Hin : i ∈ conns s) by (apply I2; exists x; by rewrite Hx).
  set (s' := Room (Some i) (conns s) (go i (P_sending msg (conns s)) x (peers s)) (relayed s ++ [msg]) (dangling s)).
  assert (Hu : forall j, under_way s' j = if bool_decide (j ∈ conns s) then [msg] else []).
  { intros j. eapply under_way_at; [done|cbn; unfold go; by rewrite list_lookup_insert_eq|done]. }
  apply (locked_inv s i x (Peer (P_sending msg (conns s)) (since x) (attempts x)) (conns s) (relayed s ++ [msg])); auto; cbn; try done.
  - intros ? ? [= <- <-]. done.
  - specialize (I6 _ _ Hi). unfold peer_ok in I6 |- *. rewrite Hx in I6. cbn [at_ since attempts]. fold (go i (P_sending msg (conns s)) x (peers s)).
    fold s'. rewrite Hu, bool_decide_true by done. rewrite under_way_free, app_nil_r in I6 by done. destruct I6 as [I6 Hle].
    cbn [relayed]. rewrite I6, drop_snoc, length_app by done. split; [done|lia].
  - intros j z Hne Hj Hz. fold (go i (P_sending msg (conns s)) x (peers s)). fold s'. unfold peer_ok in *.
    rewrite Hu. rewrite under_way_free, app_nil_r in Hz by done. cbn [relayed s'].
    destruct (at_ z) eqn:Ez; try done.
    1, 2, 3, 4: rewrite bool_decide_true by (apply I2; exists z; by rewrite Ez); destruct Hz as [Hz Hle];
      rewrite Hz, drop_snoc, length_app by done; split; [done|lia].
    all: rewrite drop_app; etransitivity; [exact Hz|]; by eexists.
Qed.

Lemma unlock_inv s s' i : room_inv s -> step s (Unlock i) = Some s' -> room_inv s'.
Proof.
  intros Hinv H. cbn in H. destruct (peers s !! i) as [x|] eqn:Hi; [|done]. cbn in H.
  destruct (at_ x) as [| | |msg todo| | |] eqn:Hx; try done. destruct todo; [|done]. simplify_eq.
  pose proof Hinv as [I1 I2 I3 I4 I5 I6 I7].
  assert (Hmu : mu s = Some i) by (apply (I1 _ _ Hi); by rewrite Hx).
  assert (Hu : forall j, under_way s j = []).
  { intros j. rewrite (under_way_at s i x msg [] j) by done. by rewrite bool_decide_false by set_solver. }
  apply (locked_inv s i x (Peer P_receive (since x) (attempts x)) (conns s) (relayed s)); auto; cbn; try done.
  - rewrite I2. split; [by eauto|]. intros _. exists x. by rewrite Hx.
  - specialize (I6 _ _ Hi). unfold peer_ok in *. rewrite Hx, Hu in I6. cbn. by rewrite under_way_free.
  - intros j z _ _. apply peer_ok_same; [done|]. by rewrite Hu, under_way_free.
Qed.

Lemma leave_inv s s' i : room_inv s -> step s (Leave i) = Some s' -> room_inv s'.
Proof.
  intros Hinv H. cbn in H. destruct (peers s !! i) as [x|] eqn:Hi; [|done]. cbn in H.
  destruct (at_ x) eqn:Hx; try done. destruct (mu s) eqn:Hmu; [done|]. simplify_eq.
  pose proof Hinv as [I1 I2 I3 I4 I5 I6 I7]. pose proof (lookup_lt_Some _ _ _ Hi) as Hlt.
  assert (Hu : forall j, under_way (Room (Some i) (filter (fun j => j <> i) (conns s)) (go i P_shutdown x (peers s)) (relayed s) (dangling s)) j = []).
  { intros j. unfold under_way. cbn. unfold go. by rewrite list_lookup_insert_eq. }
  apply (locked_inv s i x (Peer P_shutdown (since x) (attempts x)) (filter (fun j => j <> i) (conns s)) (relayed s)); auto; cbn; try done.
  - by apply NoDup_filter.
  - intros j Hne. rewrite list_elem_of_filter. tauto.
  - rewrite list_elem_of_filter. split; [naive_solver|done].
  - specialize (I6 _ _ Hi). unfold peer_ok in *. rewrite Hx in I6. rewrite under_way_free, app_nil_r in I6 by done.
    cbn. by destruct I6 as [-> _].
  - intros j z _ _. apply peer_ok_same; [done|]. etransitivity; [apply Hu|]. by rewrite under_way_free.
Qed.

Lemma finish_inv s s' i : room_inv s -> step s (Finish i) = Some s' -> room_inv s'.
Proof.
  intros Hinv H. cbn in H. destruct (peers s !! i) as [x|] eqn:Hi; [|done]. cbn in H.
  destruct (at_ x) eqn:Hx; try done. simplify_eq. pose proof Hinv as [I1 I2 I3 I4 I5 I6 I7].
  assert (Hmu : mu s = Some i) by (apply (I1 _ _ Hi); by rewrite Hx).
  assert (Hu : forall j, under_way s j = []) by (intros j; unfold under_way; rewrite Hmu, Hi; cbn; by rewrite Hx).
  apply (locked_inv s i x (Peer P_gone (since x) (attempts x)) (conns s) (relayed s)); auto; cbn; try done.
  - rewrite I2. split; [|done]. intros (z & Hz & Hin). simplify_eq. by rewrite Hx in Hin.
  - specialize (I6 _ _ Hi). unfold peer_ok in *. by rewrite Hx in I6.
  - intros j z _ _. apply peer_ok_same; [done|]. by rewrite Hu, under_way_free.
Qed.

Lemma receive_inv s s' i res : room_inv s -> step s (Receive i res) = Some s' -> room_inv s'.
Proof.
  intros Hinv H. cbn in H. destruct (peers s !! i) as [x|] eqn:Hi; [|done]. cbn in H.
  destruct (at_ x) eqn:Hx; try done. simplify_eq. pose proof (ri_peers s Hinv _ _ Hi) as Hok.
  apply move_inv; try done; rewrite ?Hx; unfold peer_ok in *; rewrite ?Hx in Hok; by destruct res.
Qed.

Lemma connect_inv s s' : room_inv s -> step s Connect = Some s' -> room_inv s'.
Proof.
  intros [I1 I2 I3 I4 I5 I6 I7] H. cbn in H. simplify_eq.
  assert (Hlk : forall k z, (peers s ++ [Peer P_join 0 []]) !! k = Some z ->
    peers s !! k = Some z \/ (k = length (peers s) /\ z = Peer P_join 0 [])).
  { intros k z Hk. apply lookup_app_Some in Hk as [?|[Hge Hk]]; [by left|]. right.
    apply list_lookup_singleton_Some in Hk as [Hk <-]. split; [lia|done]. }
  assert (Hu : forall j, under_way (Room (mu s) (conns s) (peers s ++ [Peer P_join 0 []]) (relayed s) (dangling s)) j = under_way s j).
  { intros j. apply under_way_same; [done|]. intros i Hi. destruct (I5 i Hi) as [x Hx]. cbn.
    by rewrite (lookup_app_l_Some _ _ _ _ Hx), Hx. }
  split; cbn; try done.
  - intros i x Hx. apply Hlk in Hx as [Hx|[-> ->]]; [by apply I1|]. cbn. split; [done|]. intros Hm.
    destruct (I5 _ Hm) as [x Hx]. apply lookup_lt_Some in Hx. lia.
  - intros j. rewrite I2. split; intros (x & Hx & Hin).
    + exists x. by rewrite (lookup_app_l_Some _ _ _ _ Hx).
    + apply Hlk in Hx as [Hx|[-> ->]]; [by eauto|done].
  - intros i x msg todo Hx Ha. apply Hlk in Hx as [Hx|[-> ->]]; [by eapply I4|done].
  - intros i Hi. destruct (I5 i Hi) as [x Hx]. exists x. by rewrite (lookup_app_l_Some _ _ _ _ Hx).
  - intros j x Hx. apply Hlk in Hx as [Hx|[-> ->]]; [|done]. apply (peer_ok_same s); auto.
Qed.

(** The peers after a send: the one that sends has one connection less to serve, the one
    it sends to has one message more. *)
Lemma sent_lookup (l : list peer) i x p j msg ok k z :
  l !! i = Some x -> record_send j msg ok (go i p x l) !! k = Some z ->
  exists y, l !! k = Some y /\
    z = Peer (if bool_decide (k = i) then p else at_ y) (since y) (attempts y ++ if bool_decide (k = j) then [(msg, ok)] else []).
Proof.
  intros Hi Hk. unfold record_send, go in Hk. pose proof (lookup_lt_Some _ _ _ Hi).
  destruct (decide (k = i)) as [->|Hki]; [rewrite (bool_decide_true (i = i)) by done|rewrite (bool_decide_false (k = i)) by done].
  - exists x. split; [done|]. case_bool_decide; subst.
    + rewrite list_lookup_alter_eq, list_lookup_insert_eq in Hk by done. cbn in Hk. by simplify_eq.
    + rewrite list_lookup_alter_ne, list_lookup_insert_eq in Hk by done. rewrite app_nil_r. by simplify_eq.
  - case_bool_decide; subst.
    + rewrite list_lookup_alter_eq, list_lookup_insert_ne in Hk by done. destruct (l !! j) as [y|] eqn:Hy; [|done].
      exists y. cbn in Hk. by simplify_eq.
    + rewrite list_lookup_alter_ne, list_lookup_insert_ne in Hk by done. exists z. rewrite app_nil_r. by destruct z.
Qed.

Lemma sent_lookup_some (l : list peer) i x p j msg ok k y :
  l !! i = Some x -> l !! k = Some y -> exists z, record_send j msg ok (go i p x l) !! k = Some z.
Proof.
  intros Hi Hk. apply lookup_lt_is_Some. unfold record_send, go. rewrite length_alter, length_insert. by eapply lookup_lt_Some.
Qed.

(** While a callback relays a message, the connections still to serve are distinct members
    of the vector, so none of them is destroyed. *)
Lemma todo_member s i x msg j todo :
  room_inv s -> peers s !! i = Some x -> at_ x = P_sending msg (j :: todo) ->
  is_gone (peers s) j = false /\ j ∉ todo /\ exists y, peers s !! j = Some y /\ inside (at_ y) = true.
Proof.
  intros [I1 I2 I3 I4 I5 I6 I7] Hi Hx. destruct (I4 _ _ _ _ Hi Hx) as [l Hl].
  assert (Hj : j ∈ conns s) by (rewrite Hl; set_solver). apply I2 in Hj as (y & Hy & Hin).
  rewrite Hl in I3. apply NoDup_app in I3 as (_ & _ & I3). apply NoDup_cons in I3 as [I3 _].
  split_and!; [|done|by eauto]. unfold is_gone. rewrite Hy. by destruct (at_ y).
Qed.

(** The relay of [msg] reaches [j]: it moves from what is under way to what was sent. *)
Lemma send_peer s s' i x msg j todo ok k y p :
  room_inv s -> peers s !! i = Some x -> at_ x = P_sending msg (j :: todo) ->
  relayed s' = relayed s -> (forall n, under_way s' n = if bool_decide (n ∈ todo) then [msg] else []) ->
  peers s !! k = Some y -> p = at_ y \/ (p = P_sending msg todo /\ inside (at_ y) = true) ->
  peer_ok s' k (Peer p (since y) (attempts y ++ if bool_decide (k = j) then [(msg, ok)] else [])).
Proof.
  intros Hinv Hi Hx Hr Hu Hk Hp. destruct (todo_member _ _ _ _ _ _ Hinv Hi Hx) as (_ & Hnj & y0 & Hy0 & Hin0).
  assert (Hmu : mu s = Some i) by (apply (ri_mu s Hinv _ _ Hi); by rewrite Hx).
  pose proof (ri_peers s Hinv _ _ Hk) as Hok. unfold peer_ok in Hok |- *. cbn [at_ since attempts].
  rewrite (under_way_at s i x msg (j :: todo)) in Hok by done. rewrite Hr, Hu.
  destruct (bool_decide (k = j)) eqn:Ekj.
  - apply bool_decide_eq_true in Ekj as ->. simplify_eq.
    rewrite bool_decide_true in Hok by set_solver. rewrite (bool_decide_false (j ∈ todo)) by done.
    rewrite fmap_app, app_nil_r. destruct Hp as [->|[-> Hin]]; destruct (at_ y); done.
  - apply bool_decide_eq_false in Ekj. rewrite app_nil_r.
    rewrite (bool_decide_ext (k ∈ j :: todo) (k ∈ todo)) in Hok by set_solver.
    destruct Hp as [->|[-> Hin]]; [done|]. by destruct (at_ y).
Qed.

Lemma send_inv s s' i ok : room_inv s -> step s (Send i ok) = Some s' -> room_inv s'.
Proof.
  intros Hinv H. cbn in H. destruct (peers s !! i) as [x|] eqn:Hi; [|done]. cbn in H.
  destruct (at_ x) as [| | |msg todo| | |] eqn:Hx; try done. destruct todo as [|j todo]; [done|]. simplify_eq.
  destruct (todo_member _ _ _ _ _ _ Hinv Hi Hx) as (Hg & Hnj & y0 & Hy0 & Hin0).
  set (l := record_send j msg ok (go i (P_sending msg todo) x (peers s))).
  pose proof Hinv as [I1 I2 I3 I4 I5 I6 I7]. rewrite Hg, I7. cbn [orb].
  assert (Hmu : mu s = Some i) by (apply (I1 _ _ Hi); by rewrite Hx).
  assert (Hl : forall k z, l !! k = Some z -> exists y, peers s !! k = Some y /\ z = Peer
    (if bool_decide (k = i) then P_sending msg todo else at_ y) (since y) (attempts y ++ if bool_decide (k = j) then [(msg, ok)] else [])).
  { intros k z. by apply sent_lookup. }
  assert (Hls : forall k y, peers s !! k = Some y -> exists z, l !! k = Some z) by (intros; by eapply sent_lookup_some).
  assert (Hi' : exists z, l !! i = Some z /\ at_ z = P_sending msg todo).
  { destruct (Hls _ _ Hi) as [z Hz]. exists z. split; [done|]. destruct (Hl _ _ Hz) as (y & _ & ->). cbn. by rewrite bool_decide_true. }
  destruct Hi' as (xi & Hxi & Hxi').
  split; cbn; try done.
  - intros k z Hz. destruct (Hl _ _ Hz) as (y & Hy & ->). cbn. case_bool_decide; [subst; by rewrite Hmu|by apply I1].
  - intros k. rewrite I2. split.
    + intros (y & Hy & Hin). destruct (Hls _ _ Hy) as [z Hz]. exists z. split; [done|].
      destruct (Hl _ _ Hz) as (y' & Hy' & ->). cbn. case_bool_decide; [done|]. by simplify_eq.
    + intros (z & Hz & Hin). destruct (Hl _ _ Hz) as (y & Hy & ->). cbn in Hin. exists y. split; [done|].
      case_bool_decide; [|done]. subst. simplify_eq. by rewrite Hx.
  - intros k z m t Hz Ha. destruct (Hl _ _ Hz) as (y & Hy & ->). cbn in Ha. case_bool_decide; [|by eapply I4].
    simplify_eq. etransitivity; [|exact (I4 _ _ _ _ Hi Hx)]. by exists [j].
  - intros k Hk. destruct (I5 _ Hk) as [y Hy]. by eapply Hls.
  - intros k z Hz. destruct (Hl _ _ Hz) as (y & Hy & ->).
    eapply (send_peer s _ i x msg j todo ok k y); try done.
    + intros n. by eapply under_way_at.
    + case_bool_decide; [right|by left]. subst. simplify_eq. by rewrite Hx.
Qed.

Lemma room_step s a s' : room_inv s -> step s a = Some s' -> room_inv s'.
Proof.
  intros Hinv. destruct a; [apply connect_inv|apply join_inv|apply receive_inv|apply relay_inv|apply send_inv|
    apply unlock_inv|apply leave_inv|apply finish_inv]; exact Hinv.
Qed.

Lemma room_run l s s' : room_inv s -> run s l = Some s' -> room_inv s'.
Proof.
  revert s. induction l as [|a l IH]; intros s Hinv; cbn; [by intros [= <-]|].
  destruct (step s a) as [s1|] eqn:E; [|done]. eauto using room_step.
Qed.

Lemma empty_inv : room_inv empty_room.
Proof. split; cbn; try done; [|apply NoDup_nil_2]. intros j. split; [set_solver|]. by intros (? & ? & ?). Qed.

(** ** The relay *)

(** The callback an action belongs to. *)
Definition actor (a : act) : option nat :=
  match a with
  | Connect => None
  | Join i | Receive i _ | Relay i | Send i _ | Unlock i | Leave i | Finish i => Some i
  end.

(** What the members see: who they are, what was relayed, and what was sent to each. *)
Definition frozen (s s' : room) : Prop :=
  mu s' = mu s /\ conns s' = conns s /\ relayed s' = relayed s /\
  forall j x, peers s !! j = Some x -> exists x', peers s' !! j = Some x' /\ attempts x' = attempts x.

Lemma frozen_trans s1 s2 s3 : frozen s1 s2 -> frozen s2 s3 -> frozen s1 s3.
Proof.
  intros (? & ? & ? & A) (? & ? & ? & B). repeat split; try congruence. intros j x Hx.
  destruct (A _ _ Hx) as (y & Hy & Ey). destruct (B _ _ Hy) as (z & Hz & Ez). exists z. split; [done|congruence].
Qed.

(** While a callback holds the mutex, the step of another changes nothing the members see. *)
Lemma step_frozen s a s' i :
  room_inv s -> mu s = Some i -> actor a <> Some i -> step s a = Some s' -> frozen s s'.
Proof.
  intros [I1 I2 I3 I4 I5 I6 I7] Hmu Ha H.
  assert (Hidle : forall k x, k <> i -> peers s !! k = Some x -> holding (at_ x) = false).
  { intros k x Hne Hk. destruct (holding (at_ x)) eqn:E; [|done]. apply (I1 _ _ Hk) in E. congruence. }
  destruct a as [|k|k res|k|k ok|k|k|k]; cbn in H, Ha;
    [simplify_eq; split_and!; try done; intros j x Hx; exists x; cbn; by rewrite (lookup_app_l_Some _ _ _ _ Hx)|..];
    destruct (peers s !! k) as [x|] eqn:Hk; try done; cbn in H; specialize (Hidle k x ltac:(congruence) Hk);
    destruct (at_ x) eqn:Hx; try done; rewrite ?Hmu in H; try done.
  simplify_eq. split_and!; cbn; try done. intros j y Hy. unfold go. destruct (decide (j = k)) as [->|Hne].
  - rewrite list_lookup_insert_eq by (by eapply lookup_lt_Some). simplify_eq. by eexists.
  - rewrite list_lookup_insert_ne by done. by exists y.
Qed.

Lemma run_frozen l s s' i :
  room_inv s -> mu s = Some i -> (forall a, a ∈ l -> actor a <> Some i) -> run s l = Some s' -> frozen s s'.
Proof.
  revert s. induction l as [|a l IH]; intros s Hinv Hmu Hl; cbn.
  - intros [= <-]. split_and!; try done. by eauto.
  - destruct (step s a) as [s1|] eqn:E; [|done]. cbn. intros Hr.
    assert (Hf : frozen s s1) by (eapply step_frozen; eauto; set_solver).
    apply (frozen_trans _ s1); [done|]. eapply IH; [by eapply room_step| |set_solver|done]. destruct Hf as [-> _]. done.
Qed.

(** C35 (chat_correct).  In every run of the chat server, whatever the schedule and the
    outcome of each [receive] and [send]: no message is sent on a connection that has been
    destroyed; at most one callback is relaying or leaving; the messages sent to a member,
    with the one whose relay is under way, are exactly the messages relayed since it
    joined, in the order of the mutex and each once, and for a peer that has left they are
    a prefix of them; and as long as a callback that holds the mutex does not move (its
    [send] or [shutdown] waits), the others get nothing: nobody joins or leaves and no
    message is relayed to anybody. *)
Theorem chat_correct l s :
  run empty_room l = Some s ->
  dangling s = false /\
  (forall i i' x x', peers s !! i = Some x -> peers s !! i' = Some x' ->
     holding (at_ x) = true -> holding (at_ x') = true -> i = i') /\
  (forall j x, peers s !! j = Some x ->
     (j ∈ conns s -> (fst <$> attempts x) ++ under_way s j = drop (since x) (relayed s)) /\
     (fst <$> attempts x) `prefix_of` drop (since x) (relayed s)) /\
  (forall i l' s', mu s = Some i -> (forall a, a ∈ l' -> actor a <> Some i) -> run s l' = Some s' -> frozen s s').
Proof.
  intros Hr. pose proof (room_run _ _ _ empty_inv Hr) as Hinv. split_and!.
  - by apply ri_safe.
  - intros i i' x x' Hx Hx' H H'. apply (ri_mu s Hinv _ _ Hx) in H. apply (ri_mu s Hinv _ _ Hx') in H'. congruence.
  - intros j x Hx. pose proof (ri_peers s Hinv _ _ Hx) as Hok. split.
    + intros Hc. apply (ri_conns s Hinv) in Hc as (y & Hy & Hin). simplify_eq. unfold peer_ok in Hok.
      by destruct (at_ x); try done; destruct Hok.
    + unfold peer_ok in Hok. destruct (at_ x); [rewrite Hok; apply prefix_nil|..]; try done;
        destruct Hok as [<- _]; by eexists.
  - intros i l' s' Hmu Hl. by apply run_frozen with i.
Qed.

(** Two peers join, a third while a message is relayed; the second one leaves. *)
Definition chat_demo : list act :=
  [Connect; Connect; Join 0; Join 1; Receive 0 (Some [Byte.x01]); Connect; Relay 0; Send 0 true; Send 0 true; Unlock 0;
   Receive 1 None; Join 2; Leave 1; Receive 0 (Some [Byte.x02]); Finish 1; Relay 0; Send 0 true].

Definition chat_room : room := Eval vm_compute in default empty_room (run empty_room chat_demo).

Lemma chat_correct_witness :
  run empty_room chat_demo = Some chat_room /\
  dangling chat_room = false /\ mu chat_room = Some 0%nat /\ conns chat_room = [0; 2]%nat /\
  (forall x, peers chat_room !! 2%nat = Some x -> attempts x = [] /\ (fst <$> attempts x) ++ under_way chat_room 2 = [[Byte.x02]]) /\
  (forall x, peers chat_room !! 1%nat = Some x -> (fst <$> attempts x) = [[Byte.x01]] /\ (fst <$> attempts x) `prefix_of` [[Byte.x01]; [Byte.x02]]).
Proof.
  destruct (chat_correct chat_demo chat_room) as (H1 & _ & H3 & _); [vm_compute; reflexivity|].
  split; [vm_compute; reflexivity|]. split; [exact H1|]. split; [reflexivity|]. split; [reflexivity|].
  split; intros x Hx; pose proof Hx as Hx'; vm_compute in Hx'; injection Hx' as <-; (split; [reflexivity|]).
  - apply (H3 2%nat); [exact Hx|]. right. left.
  - apply (H3 1%nat). exact Hx.
Defined.
