(* ===== verification/ChatClient.v ===== *)
(** * ChatClient

    [examples/client/main.cpp]: the main thread sends the lines of the standard input up
    to "/quit" and closes, a second thread prints what arrives.  Both are threads of one
    program over a connection that [dial] made ([App]).  Strings are bytes. *)

From S2P Require Import Prelude Errors Stream Protocol Crypto Session Config Conn ConnInv ConnReader ConnApi App.

(** ** The standard input *)

Definition newline : u8 := Byte.x0a.
Definition quit : bytes := String.list_byte_of_string "/quit".

(** [std::getline]: the next line and what is left, or nothing at the end. *)
Fixpoint getline (s : bytes) : option (bytes * bytes) :=
  match s with
  | [] => None
  | b :: r =>
      if bool_decide (b = newline) then Some ([], r)
      else match getline r with
           | None => Some ([b], [])
           | Some (line, rest) => Some (b :: line, rest)
           end
  end.

(** ** The two threads *)

Inductive mpoint :=
  | M_line (stdin : bytes)              (* while (std::getline(std::cin, line)) *)
  | M_send (line stdin : bytes)         (* conn->send(line, ec) *)
  | M_close                             (* conn->close() *)
  | M_join                              (* reader.join() *)
  | M_destroy                           (* ~Conn: shutdown(5000ms) *)
  | M_joins                             (* ~Conn: the joins *)
  | M_done
  | M_thrown.

Inductive rpoint := R_receive | R_return | R_thrown.

(** The main thread with the errors it reported, the reader with the lines it printed. *)
Inductive point :=
  | Main (p : mpoint) (errors : list error_code)
  | Reader (p : rpoint) (lines : list bytes).

Definition next_call (t : point) : option api :=
  match t with
  | Main (M_send line _) _ => Some (send_ec line)
  | Main M_close _ => Some close
  | Main M_destroy _ => Some (shutdown_ec (Millis 5000))
  | Reader R_receive _ => Some receive_ec
  | _ => None
  end.

Definition after_call (t : point) (out : outcome) : point :=
  match t, out with
  | Main _ errors, Throw _ => Main M_thrown errors
  | Reader _ lines, Throw _ => Reader R_thrown lines
  | Main (M_send _ stdin) errors, Return _ ec => Main (M_line stdin) (errors ++ if ec_bool ec then [ec] else [])
  | Main M_close errors, Return _ _ => Main M_join errors
  | Main M_destroy errors, Return _ _ => Main M_joins errors
  | Main p errors, Return _ _ => Main p errors
  | Reader _ lines, Return msg ec => if ec_bool ec then Reader R_return lines else Reader R_receive (lines ++ [msg])
  end.

Definition has_returned (t : point) : bool := match t with Reader R_return _ => true | _ => false end.

Definition on_its_own {Str R} (c : conn Str R) (ts : list point) (t : point) : option point :=
  match t with
  | Main (M_line stdin) errors =>
      match getline stdin with
      | None => Some (Main M_close errors)
      | Some (line, rest) =>
          if bool_decide (line = quit) then Some (Main M_close errors) else Some (Main (M_send line rest) errors)
      end
  | Main M_join errors => if existsb has_returned ts then Some (Main M_destroy errors) else None
  | Main M_joins errors => if joined_b c then Some (Main M_done errors) else None
  | _ => None
  end.

#[export] Instance chat_program {Str R} : Program point (conn Str R) := {
  wants := next_call; resume := after_call; local := on_its_own
}.

Definition is_main (t : point) : bool := match t with Main _ _ => true | Reader _ _ => false end.

#[export, refine] Instance chat_roles {Str R} : Roles point (conn Str R) := { sender := is_main; receiver := fun t => negb (is_main t) }.
Proof.
  - intros [|[]] k Hk Hs; cbn in Hk; simplify_eq; done.
  - intros [[] errors|] k Hk Hr; cbn in Hk; simplify_eq; done.
  - intros [[] errors|p lines] []; cbn; try done. by destruct (ec_bool ec).
  - intros c ts [[] errors|p lines] t' H; cbn in H; repeat case_match; by simplify_eq.
Defined.

Definition threads (stdin : bytes) : list point := [Main (M_line stdin) []; Reader R_receive []].

(** ** What is typed *)

(** The lines of a text; the last one may lack its newline. *)
Fixpoint lines_of (s : bytes) : list bytes :=
  match s with
  | [] => []
  | b :: r =>
      if bool_decide (b = newline) then [] :: lines_of r
      else match lines_of r with
           | l :: ls => (b :: l) :: ls
           | [] => [[b]]
           end
  end.

(** Those before the first "/quit". *)
Fixpoint until_quit (l : list bytes) : list bytes :=
  match l with
  | [] => []
  | x :: l' => if bool_decide (x = quit) then [] else x :: until_quit l'
  end.

Definition typed (s : bytes) : list bytes := until_quit (lines_of s).

Lemma getline_lines s : match getline s with None => s = [] | Some (line, rest) => lines_of s = line :: lines_of rest end.
Proof.
  induction s as [|b r IH]; cbn; [done|]. case_bool_decide; [done|]. destruct (getline r) as [[line rest]|].
  - by rewrite IH.
  - subst. done.
Qed.

Lemma getline_typed s :
  typed s = match getline s with
            | None => []
            | Some (line, rest) => if bool_decide (line = quit) then [] else line :: typed rest
            end.
Proof. unfold typed. pose proof (getline_lines s) as H. destruct (getline s) as [[line rest]|]; [by rewrite H|by subst]. Qed.

(** Lines that were joined with newlines are read back. *)
Lemma lines_of_join (ls : list bytes) :
  Forall (fun l => newline ∉ l) ls -> lines_of (concat ((fun l => l ++ [newline]) <$> ls)) = ls.
Proof.
  induction 1 as [|l ls Hl _ IH]; [done|]. cbn. induction l as [|b l IHl]; cbn; [by rewrite IH|].
  rewrite bool_decide_false by set_solver. by rewrite IHl by set_solver.
Qed.

(** ** What the threads do *)

(** The line a call passes to [send], and the error it reported. *)
Definition attempt (k : api) : list bytes := match forward k with CallSend p _ => [p] | _ => [] end.
Definition failure (k : api) (out : outcome) : list error_code :=
  match forward k, out with CallSend _ _, Return _ ec => if ec_bool ec then [ec] else [] | _, _ => [] end.

Definition attempted (l : list (api * outcome)) : list bytes := l ≫= fun x => attempt x.1.
Definition failed (l : list (api * outcome)) : list error_code := l ≫= fun x => failure x.1 x.2.

Lemma attempted_snoc l k out : attempted (l ++ [(k, out)]) = attempted l ++ attempt k.
Proof. unfold attempted. rewrite bind_app. cbn. by rewrite app_nil_r. Qed.
Lemma failed_snoc l k out : failed (l ++ [(k, out)]) = failed l ++ failure k out.
Proof. unfold failed. rewrite bind_app. cbn. by rewrite app_nil_r. Qed.

Definition remaining (p : mpoint) : list bytes :=
  match p with M_line stdin => typed stdin | M_send line stdin => line :: typed stdin | _ => [] end.

Definition does {Str R} (stdin : bytes) (c : conn Str R) (t : point) (l : list (api * outcome)) : Prop :=
  match t with
  | Main p errors => attempted l ++ remaining p = typed stdin /\ errors = failed l /\ p <> M_thrown /\ (p = M_done -> joined c)
      /\ (failed l = [] -> sent_in l = attempted l)
  | Reader p lines => lines = received_in l /\ p <> R_thrown
  end.

Lemma main_does {Str R} stdin (c : conn Str R) p p' errors l k out :
  does stdin c (Main p errors) l -> attempt k ++ remaining p' = remaining p -> p' <> M_thrown -> p' <> M_done ->
  (failure k out = [] -> queued_by k out = attempt k) ->
  does stdin c (Main p' (errors ++ failure k out)) (l ++ [(k, out)]).
Proof.
  intros (H1 & -> & _ & _ & H5) Hr Ht Hd Hq. cbn [does]. rewrite attempted_snoc, failed_snoc, sent_in_snoc, <- app_assoc, Hr.
  split_and!; [done..|]. intros [Hf Ho]%app_nil. by rewrite H5, Hq.
Qed.

Lemma does_resume {Str R} os_message stdin (c : conn Str R) t l k a out :
  does stdin c t l -> next_call t = Some k -> call_at (forward k) a -> finish os_message k a = Some out ->
  does stdin c (after_call t out) (l ++ [(k, out)]).
Proof.
  intros Hd Hk Ha Hf. destruct t as [[|line stdin'| | | | | |] errors|[| |] lines]; cbn in Hk; simplify_eq.
  - destruct a; cbn in Hf; simplify_eq. eapply (main_does _ _ _ (M_line stdin')) in Hd; [exact Hd|done..|].
    cbn. by destruct (ec_bool ec).
  - apply close_returns in Hf as ->; [|done]. eapply (main_does _ _ _ M_join _ _ close (Return [] ec_none)) in Hd; [|done..].
    cbn [failure] in Hd. by rewrite app_nil_r in Hd.
  - destruct a; cbn in Hf; simplify_eq. eapply (main_does _ _ _ M_joins _ _ (shutdown_ec (Millis 5000)) (Return [] ec)) in Hd; [|done..].
    by rewrite app_nil_r in Hd.
  - destruct a; cbn in Hf; simplify_eq. destruct Hd as [-> _]. cbn [after_call].
    destruct (ec_bool ec) eqn:E; cbn [does]; rewrite received_in_snoc; unfold returned_by; cbn [forward]; rewrite E, ?app_nil_r; by split.
Qed.

Lemma does_local {Str R} stdin (c : conn Str R) ts t t' l : does stdin c t l -> on_its_own c ts t = Some t' -> does stdin c t' l.
Proof.
  intros Hd H. destruct t as [[stdin'|line stdin'| | | | | |] errors|p lines]; cbn [on_its_own] in H; try done.
  - destruct Hd as (H1 & H2 & _ & _ & H5). cbn in H1. rewrite getline_typed in H1.
    destruct (getline stdin') as [[line rest]|]; [destruct (bool_decide (line = quit))|]; simplify_eq; cbn [does remaining]; by split_and!.
  - destruct (existsb _ _); simplify_eq. cbn in *. naive_solver.
  - destruct (joined_b c) eqn:Hj; simplify_eq. apply joined_b_spec in Hj. cbn in *. naive_solver.
Qed.

(** The main thread goes past the join only when the reader has returned, which is for good. *)
Definition past_join (t : point) : bool :=
  match t with Main (M_destroy | M_joins | M_done) _ => true | _ => false end.

Definition join_ok {Str R} (a : app (Str := Str) (R := R) (T := point)) : Prop :=
  exists m r, a_threads a = [m; r] /\ is_main (a_code m) = true /\ is_main (a_code r) = false
    /\ (has_returned (a_code r) = true -> a_call r = None)
    /\ (past_join (a_code m) = true -> has_returned (a_code r) = true).

Lemma join_ok_step {Str R} {BS : ByteStream Str} {Rng : Drbg_api R} {G : Gcm} os_message (a a' : app (Str := Str) (R := R) (T := point)) x :
  join_ok a -> astep os_message a x = Some a' -> join_ok a'.
Proof.
  intros (m & r & Ht & Hm & Hr & Hc & Hj) H.
  assert (Hkeep : forall m' r', is_main (a_code m') = true -> is_main (a_code r') = false ->
    (has_returned (a_code r') = true -> a_call r' = None) -> (past_join (a_code m') = true -> has_returned (a_code r') = true) ->
    a_threads a' = [m'; r'] -> join_ok a') by (intros m' r'; by exists m', r').
  destruct m as [tm cm lm], r as [tr cr lr]. cbn in *. destruct tm as [pm em|]; [|done]. destruct tr as [|pr lsr]; [done|].
  destruct x as [x|i|i|i]; cbn in H.
  - destruct (internal x); [|done]. destruct (step (a_conn a) x); [|done]. cbn in H. simplify_eq. (eapply Hkeep; [..|exact Ht]); done.
  - rewrite Ht in H. destruct i as [|[|i]]; cbn in H; [| |done].
    + destruct cm; [done|]. destruct pm; simplify_eq; (eapply Hkeep; [..|reflexivity]); done.
    + destruct cr; [done|]. destruct pr; simplify_eq; (eapply Hkeep; [..|reflexivity]); done.
  - rewrite Ht in H. destruct i as [|[|i]]; cbn in H; [| |done].
    + destruct cm as [n|]; [|done]. destruct pm; simplify_eq; apply bind_Some in H as (z & _ & H);
        apply bind_Some in H as ([] & _ & H); cbn in H; simplify_eq; (eapply Hkeep; [..|reflexivity]); done.
    + destruct cr as [n|]; [|done]. destruct pr; simplify_eq; apply bind_Some in H as (z & _ & H);
        apply bind_Some in H as ([|msg ec] & _ & H); cbn in H; [|destruct (ec_bool ec)]; simplify_eq; (eapply Hkeep; [..|reflexivity]); try done; cbn; intros Hp; by apply Hj in Hp.
  - rewrite Ht in H. destruct i as [|[|i]]; cbn in H; [| |done].
    + destruct cm; [done|]. destruct pm; cbn in H; simplify_eq; repeat case_match; cbn in H; simplify_eq; (eapply Hkeep; [..|reflexivity]); try done.
    + destruct cr; done.
Qed.

(** The [send] under way is that of the main thread. *)
Definition sends_line (t : point) (pend : option (nat * (bytes * timeout))) : Prop :=
  match pend with Some (_, (x, _)) => exists rest errors, t = Main (M_send x rest) errors | None => True end.

Section Client.
Context {Str R : Type} {BS : ByteStream Str} {Spec : StreamSpec Str}.
Context {Rng : Drbg_api R} {RngL : DrbgLaws R} {G : Gcm} {GL : GcmLaws}.
Variable os_message : Z -> string.

Lemma prefix_sublist {A} (l k : list A) : l `prefix_of` k -> l `sublist_of` k.
Proof. intros [x ->]. by apply sublist_inserts_r. Qed.

(** The lines queued are among those passed to [send]. *)
Lemma sent_attempted l : sent_in l `sublist_of` attempted l.
Proof.
  induction l as [|[k out] l IH]; [done|]. change (queued_by k out ++ sent_in l `sublist_of` attempt k ++ attempted l).
  apply sublist_app; [|done]. unfold queued_by, attempt. destruct (forward k), out; try done; try apply sublist_nil_l.
  by destruct (ec_bool ec); [apply sublist_nil_l|].
Qed.

(** What the connection of a client has queued, and what it has taken, at any point. *)
Lemma client_threads (s : Str) (r : seal_rng R) (se : session) (f : FrozenConfig) stdin l (a : app) :
  arun os_message (start s r se f (threads stdin)) l = Some a ->
  exists m q pend pend', a_threads a = [m; q] /\ join_ok a
    /\ does stdin (a_conn a) (a_code m) (a_log m) /\ does stdin (a_conn a) (a_code q) (a_log q)
    /\ one_sender (sent_in (a_log m)) pend (a_conn a) /\ one_receiver (received_in (a_log q)) pend' (a_conn a)
    /\ sends_line (a_code m) pend.
Proof.
  intros Hr.
  assert (Hj : join_ok a).
  { revert Hr. apply arun_invariant; [intros; by eapply join_ok_step|]. by do 2 eexists. }
  pose proof Hj as (m & q & Ht & Hm & Hq & _).
  destruct (threads_see os_message s r se f (threads stdin) 0 1 l a) as [(m' & Hm' & Hs) (q' & Hq' & Hrc)]; [..|done|].
  1, 3: intros [|[|k]] t Hk Hs; cbn in Hk; simplify_eq; done.
  1, 2: done.
  rewrite Ht in Hm', Hq'. injection Hm' as <-. injection Hq' as <-.
  assert (Hk : forall i th, a_threads a !! i = Some th -> does stdin (a_conn a) (a_code th) (a_log th)).
  { intros i th Hi. eapply (knows_arun os_message (does stdin)); [| | | |exact Hr|exact Hi].
    - intros c x c' [] l0 Hx; cbn; [|done]. intros (H1 & H2 & H3 & H4 & H5). split_and!; try done. intros Hd.
      eapply joined_step; [by apply H4|done].
    - intros. by eapply does_resume.
    - intros c ts t t' l0 Hd Hl. exact (does_local _ _ _ _ _ _ Hd Hl).
    - intros t [->|[->|Hin]%elem_of_cons]%elem_of_cons; [done|done|by apply not_elem_of_nil in Hin]. }
  exists m, q. do 2 eexists. split; [done|]. split; [done|]. split; [by apply (Hk 0%nat); rewrite Ht|].
  split; [by apply (Hk 1%nat); rewrite Ht|]. split; [exact Hs|]. split; [exact Hrc|].
  unfold sends_line, pends. destruct (a_call m); [|done]. cbn. destruct (a_code m) as [[] errors|[] lines]; cbn; eauto.
Qed.

(** What is on its way was typed. *)
Lemma offered_typed stdin (c : conn Str R) p errors l pend :
  does stdin c (Main p errors) l -> sends_line (Main p errors) pend ->
  offered (sent_in l) pend `sublist_of` typed stdin /\ (errors = [] -> offered (sent_in l) pend `prefix_of` typed stdin).
Proof.
  intros (H1 & -> & _ & _ & H5) Hp. unfold offered. rewrite <- H1.
  assert (Hr : match pend with Some (_, (x, _)) => [x] | None => [] end `prefix_of` remaining p).
  { destruct pend as [[n [x t]]|]; [|apply prefix_nil]. destruct Hp as (rest & e & [= -> _]). cbn. by eexists. }
  split; [apply sublist_app; [apply sent_attempted|by apply prefix_sublist]|].
  intros Hf. rewrite (H5 Hf). by apply prefix_app.
Qed.

(** C36 (chat_client_correct).  In every run of the chat client, whatever the threads, the
    connection and the peer do: the lines passed to [send] so far, followed by those still
    to come, are the lines of the standard input before "/quit", and exactly the errors of
    [send] were reported; no exception leaves a thread; when the program is done, the
    reader thread has returned and all threads of the connection were joined; a peer at
    the other end of the connection has received some of the typed lines, in order, and
    without a gap as long as no error was reported; and the lines printed are a prefix of
    the messages that peer has sent. *)
Theorem chat_client_correct (s : Str) (r : seal_rng R) (se : session) (f : FrozenConfig) (stdin : bytes) l (a : app) :
  arun os_message (start s r se f (threads stdin)) l = Some a ->
  exists m w p errors q lines, a_threads a = [m; w] /\ a_code m = Main p errors /\ a_code w = Reader q lines
    /\ attempted (a_log m) ++ remaining p = typed stdin /\ errors = failed (a_log m)
    /\ p <> M_thrown /\ q <> R_thrown
    /\ (p = M_done -> joined (a_conn a) /\ q = R_return)
    /\ (forall sb rb fb b, reads_from s sb r rb se f fb (a_conn a) b ->
         h_received (hist b) `sublist_of` typed stdin /\ (errors = [] -> h_received (hist b) `prefix_of` typed stdin))
    /\ (forall sb rb fb b, reads_from sb s rb r se fb f b (a_conn a) -> lines `prefix_of` texts (h_queued (hist b))).
Proof.
  intros Hr. destruct (client_threads _ _ _ _ _ _ _ Hr) as (m & w & pend & pend' & Ht & Hj & Dm & Dw & Hs & Hw & Hp).
  destruct Hj as (m' & w' & Ht' & Hm & Hw' & _ & Hj). rewrite Ht in Ht'. injection Ht' as <- <-.
  destruct (a_code m) as [p errors|] eqn:Em; [|done]. destruct (a_code w) as [|q lines] eqn:Ew; [done|].
  destruct (offered_typed _ _ _ _ _ _ Dm Hp) as [O1 O2]. destruct Dm as (H1 & H2 & H3 & H4 & _). destruct Dw as [Hl Hq].
  exists m, w, p, errors, q, lines. split_and!; try done.
  - intros Hd. split; [by apply H4|]. subst p. specialize (Hj eq_refl). by destruct q.
  - intros sb rb fb b Hb. apply peer_received in Hb. pose proof (sender_offered _ _ _ Hs) as Ho. split.
    + etransitivity; [by apply prefix_sublist|]. etransitivity; [by apply prefix_sublist|done].
    + intros He. etransitivity; [exact Hb|]. etransitivity; [exact Ho|auto].
  - intros sb rb fb b Hb. apply peer_received in Hb. rewrite Hl. etransitivity; [by eapply receiver_got|done].
Qed.

End Client.

(** ** Witness *)

Import Toy AppDemo.

(** "hi", "there", "/quit" and a line that is not read; the server says "yo". *)
Definition input : bytes := Eval vm_compute in
  String.list_byte_of_string "hi" ++ [newline] ++ String.list_byte_of_string "there" ++ [newline]
  ++ quit ++ [newline] ++ String.list_byte_of_string "no".
Definition yo : bytes := String.list_byte_of_string "yo".
Definition server_says : bytes := Eval vm_compute in Demo.peer_record 9 (MkOutbound kMsgText yo).

(** Two lines are sent while a message is printed; [close]; the reader's [receive] fails
    and it returns. *)
Definition session_acts : list aact :=
  [Own 0] ++ say 0 0 ++ hear 1 1 ++ [Own 0] ++ say 0 2 ++ [Own 0] ++ shut 0 3
  ++ [Begin 1; Internal (ActApp 4); Internal (ActApp 4); Ended 1] ++ [Own 0] ++ again 0 5 ++ [Own 0].
Definition client_end : app := play 7 server_says (threads input) session_acts.

Lemma chat_client_correct_witness :
  (a_code <$> a_threads client_end) = [Main M_done []; Reader R_return [yo]]
  /\ joined (a_conn client_end)
  /\ exists m w, a_threads client_end = [m; w] /\ attempted (a_log m) ++ [] = [String.list_byte_of_string "hi"; String.list_byte_of_string "there"].
Proof.
  split; [vm_compute; reflexivity|].
  destruct (chat_client_correct no_os (MemStream server_says [] false) (rng 7) toy_session cfg input session_acts client_end)
    as (m & w & p & errors & q & lines & Ht & Hm & Hw & H1 & _ & _ & _ & H2 & _); [vm_compute; reflexivity|].
  assert (Hp : p = M_done).
  { assert (E : (a_code <$> a_threads client_end) = [Main M_done []; Reader R_return [yo]]) by (vm_compute; reflexivity).
    rewrite Ht in E. cbn in E. rewrite Hm in E. by injection E. }
  subst p. split; [by apply H2|]. exists m, w. split; [exact Ht|exact H1].
Defined.
