(* ===== verification/Simple.v ===== *)
(** * Simple

    [examples/simple/main.cpp]: a client that says hello to a server in the same process.
    The two ends are programs over their connections ([App]); [serve_conn] and [dial] have
    returned.  Strings are bytes. *)

From S2P Require Import Prelude Errors Stream Protocol Crypto Session Config Conn ConnInv ConnReader ConnApi App.

Definition hello : bytes := String.list_byte_of_string "hello".
Definition world : bytes := String.list_byte_of_string "world".

(** Where a thread is; [got] is what it printed. *)
Inductive point :=
  | Srv_receive                    (* srv->receive() *)
  | Srv_send (got : bytes)         (* srv->send("world") *)
  | Srv_close (got : bytes)        (* srv->close() *)
  | Cl_send                        (* cli->send("hello") *)
  | Cl_receive                     (* cli->receive() *)
  | Cl_close (got : bytes)         (* cli->close() *)
  | Cl_join (got : bytes)          (* server.join() *)
  | Destroy (got : bytes)          (* ~Conn: shutdown(5000ms) *)
  | Joins (got : bytes)            (* ~Conn: the joins *)
  | Done (got : bytes)
  | Thrown (got : list bytes).     (* an exception ends the process *)

Definition printed (p : point) : list bytes :=
  match p with
  | Srv_receive | Cl_send | Cl_receive => []
  | Srv_send m | Srv_close m | Cl_close m | Cl_join m | Destroy m | Joins m | Done m => [m]
  | Thrown l => l
  end.

Definition next_call (p : point) : option api :=
  match p with
  | Srv_receive | Cl_receive => Some receive
  | Srv_send _ => Some (send world)
  | Cl_send => Some (send hello)
  | Srv_close _ | Cl_close _ => Some close
  | Destroy _ => Some (shutdown_ec (Millis 5000))
  | Cl_join _ | Joins _ | Done _ | Thrown _ => None
  end.

Definition after_call (p : point) (out : outcome) : point :=
  match out with
  | Throw _ => Thrown (printed p)
  | Return m _ =>
      match p with
      | Srv_receive => Srv_send m
      | Srv_send m => Srv_close m
      | Srv_close m => Destroy m
      | Cl_send => Cl_receive
      | Cl_receive => Cl_close m
      | Cl_close m => Cl_join m
      | Destroy m => Joins m
      | _ => p
      end
  end.

(** [server.join()] returns whenever the other end is done, which this end does not see. *)
Definition alone {Str R} (c : conn Str R) (p : point) : option point :=
  match p with
  | Cl_join m => Some (Destroy m)
  | Joins m => if joined_b c then Some (Done m) else None
  | _ => None
  end.

#[export] Instance simple_program {Str R} : Program point (conn Str R) := {
  wants := next_call; resume := after_call; local := fun c _ => alone c
}.

#[export, refine] Instance simple_roles {Str R} : Roles point (conn Str R) := { sender := fun _ => true; receiver := fun _ => true }.
Proof. all: done. Defined.

(** ** What a thread has sent and received *)

Definition says (server : bool) : bytes := if server then world else hello.
Definition is_client (p : point) : bool :=
  match p with Cl_send | Cl_receive | Cl_close _ | Cl_join _ => true | _ => false end.
Definition is_server (p : point) : bool := match p with Srv_receive | Srv_send _ | Srv_close _ => true | _ => false end.

(** The message of the thread is on its way once it is past its [send]. *)
Definition has_sent (p : point) : bool :=
  match p with Srv_receive | Srv_send _ | Cl_send => false | _ => true end.

Record told {Str R} (server : bool) (c : conn Str R) (p : point) (l : list (api * outcome)) : Prop := {
  td_role : if server then is_client p = false else is_server p = false;
  td_received : received_in l = printed p;
  td_sent : match p with
            | Thrown got => (sent_in l = [] \/ sent_in l = [says server] /\ server = false)
                /\ exists l' k e, l = l' ++ [(k, Throw e)] /\ (k = receive \/ k = send (says server))
            | _ => sent_in l = if has_sent p then [says server] else []
            end;
  td_done : forall m, p = Done m -> joined c
}.

Lemma told_resume {Str R} os_message server (c : conn Str R) p l k a out :
  told server c p l -> next_call p = Some k -> call_at (forward k) a -> finish os_message k a = Some out ->
  told server c (after_call p out) (l ++ [(k, out)]).
Proof.
  intros [H1 H2 H3 H4] Hk Ha Hf.
  destruct p; cbn in Hk; simplify_eq; cbn in H1, H2, H3;
    try (apply close_returns in Hf; [subst|done]);
    try (destruct a; cbn in Ha, Hf; simplify_eq; unfold throw_if; try destruct (ec_bool ec)); split; rewrite ?sent_in_snoc, ?received_in_snoc, ?H2, ?H3; cbn.
  all: try done; try (by destruct server).
  all: destruct server; try done; (split; [auto|]); do 3 eexists; split; [reflexivity|auto].
Qed.

Lemma told_local {Str R} server (c : conn Str R) p p' l : told server c p l -> alone c p = Some p' -> told server c p' l.
Proof.
  intros [H1 H2 H3 H4] H. destruct p; cbn in H; simplify_eq; [by split; destruct server|].
  destruct (joined_b c) eqn:Hj; simplify_eq. split; [done..|]. intros _ _. by apply joined_b_spec.
Qed.

(** The [send] under way is that of the thread. *)
Definition about_to_send (server : bool) (p : point) (pend : option (nat * (bytes * timeout))) : Prop :=
  match pend with Some (_, (m, _)) => has_sent p = false /\ m = says server /\ p <> Srv_receive | None => True end.

Section Ends.
Context {Str R : Type} {BS : ByteStream Str} {Spec : StreamSpec Str}.
Context {Rng : Drbg_api R} {RngL : DrbgLaws R} {G : Gcm} {GL : GcmLaws}.
Variable os_message : Z -> string.

Definition first (server : bool) : point := if server then Srv_receive else Cl_send.

(** A run of one end. *)
Definition simple_run (server : bool) (s : Str) (r : seal_rng R) (se : session) (f : FrozenConfig) (a : app (R := R)) (p : point) : Prop :=
  exists l th, arun os_message (start s r se f [first server]) l = Some a /\ a_threads a = [th] /\ a_code th = p.

Lemma simple_told server s r se f a p :
  simple_run server s r se f a p ->
  exists th pend pend', a_threads a = [th] /\ told server (a_conn a) p (a_log th)
    /\ one_sender (sent_in (a_log th)) pend (a_conn a) /\ one_receiver (received_in (a_log th)) pend' (a_conn a)
    /\ about_to_send server p pend.
Proof.
  intros (l & th & Hr & Hth & <-).
  destruct (threads_see os_message s r se f [first server] 0 0 l a) as [(th' & Ht & Hs) (th'' & Ht' & Hrc)]; [..|done|].
  1, 3: by intros [|k] t Ht.
  1, 2: done.
  rewrite Hth in Ht, Ht'. injection Ht as <-. injection Ht' as <-.
  destruct (knows_arun os_message (told server)) with (s := s) (r := r) (se := se) (f := f) (ts := [first server]) (l := l) (s' := a) (i := 0%nat) (th := th)
    as [Hk _].
  - intros c x c' t l0 Hx [H1 H2 H3 H4]. split; [done..|]. intros m Hm. eapply joined_step; [by eapply H4|done].
  - intros. by eapply told_resume.
  - intros. by eapply told_local.
  - intros t Ht. apply list_elem_of_singleton in Ht as ->. by destruct server.
  - done.
  - by rewrite Hth.
  - exists th. do 2 eexists. split; [exact Hth|]. split; [exact Hk|]. split; [exact Hs|]. split; [exact Hrc|].
    unfold about_to_send, pends. destruct (a_call th); [|done]. cbn. destruct (a_code th), Hk as [H1 _ _ _]; cbn; try done; by destruct server.
Qed.

Lemma prefix_one {A} (l : list A) x : l `prefix_of` [x] -> l = [] \/ l = [x].
Proof.
  intros [k Hk]. destruct l as [|y l]; [by left|right]. injection Hk as <- Hk. symmetry in Hk. by apply app_nil in Hk as [-> _].
Qed.

(** What an end has put on its way: its one message at most, and the server's only after
    it has printed. *)
Lemma told_offered server (c : conn Str R) p l pend :
  told server c p l -> about_to_send server p pend ->
  offered (sent_in l) pend `prefix_of` [says server]
  /\ (server = true -> offered (sent_in l) pend <> [] -> exists m, printed p = [m]).
Proof.
  intros [H1 H2 H3 _] Hp. unfold offered. destruct pend as [[n [m t]]|].
  - destruct Hp as (Hs & -> & Hne). destruct p; cbn in Hs; try done; rewrite H3; cbn; (split; [done|]); intros ->; eauto; done.
  - rewrite app_nil_r. destruct p as [| | | | | | | | | |got]; try (rewrite H3; cbn; split; [by try apply prefix_nil|]; intros ->; by eauto).
    destruct H3 as [[->|[-> ->]] _]; split; try done. apply prefix_nil.
Qed.

(** C37 (simple_correct).  Both ends of the example over connections that read what the
    other one wrote, in every interleaving of the threads of both: the server prints
    nothing but "hello", the client nothing but "world", and the client only after the
    server; an end that is done has joined all threads of its connection; and an
    exception that ends an end comes from its [receive] or its [send], never from
    [close]. *)
Theorem simple_correct (ss sc : Str) (rs rc : seal_rng R) (se : session) (fs fc : FrozenConfig) (srv cli : app) (ps pc : point) :
  simple_run true ss rs se fs srv ps -> simple_run false sc rc se fc cli pc ->
  reads_from ss sc rs rc se fs fc (a_conn srv) (a_conn cli) -> reads_from sc ss rc rs se fc fs (a_conn cli) (a_conn srv) ->
  (printed ps = [] \/ printed ps = [hello])
  /\ (printed pc = [] \/ printed pc = [world] /\ printed ps = [hello])
  /\ (forall m, ps = Done m -> joined (a_conn srv)) /\ (forall m, pc = Done m -> joined (a_conn cli))
  /\ (forall got, ps = Thrown got -> exists th l k e, a_threads srv = [th] /\ a_log th = l ++ [(k, Throw e)] /\ (k = receive \/ k = send world))
  /\ (forall got, pc = Thrown got -> exists th l k e, a_threads cli = [th] /\ a_log th = l ++ [(k, Throw e)] /\ (k = receive \/ k = send hello)).
Proof.
  intros Hs Hc Hsc Hcs.
  destruct (simple_told _ _ _ _ _ _ _ Hs) as (ths & qs & qs' & As & Ts & Ss & Rs & Bs).
  destruct (simple_told _ _ _ _ _ _ _ Hc) as (thc & qc & qc' & Ac & Tc & Sc & Rc & Bc).
  destruct (told_offered _ _ _ _ _ Ts Bs) as [Os Os']. destruct (told_offered _ _ _ _ _ Tc Bc) as [Oc _].
  pose proof (exchange _ _ _ _ _ _ _ _ _ _ _ _ _ Hsc Ss Rc) as Ec. pose proof (exchange _ _ _ _ _ _ _ _ _ _ _ _ _ Hcs Sc Rs) as Es.
  rewrite (td_received _ _ _ _ Ts) in Es. rewrite (td_received _ _ _ _ Tc) in Ec.
  assert (Hh : printed ps = [] \/ printed ps = [hello]) by (apply prefix_one; by etransitivity).
  split_and!.
  - done.
  - assert (Hw : printed pc = [] \/ printed pc = [world]) by (apply prefix_one; by etransitivity).
    destruct Hw as [?|Hw]; [by left|right]. split; [done|]. destruct Hh as [Hh|?]; [exfalso|done].
    destruct Os' as [m Hm]; [done|intros E; rewrite E, Hw in Ec; by apply prefix_nil_inv in Ec|congruence].
  - apply Ts.
  - apply Tc.
  - intros got ->. destruct (td_sent _ _ _ _ Ts) as (_ & l & k & e & H1 & H2). by exists ths, l, k, e.
  - intros got ->. destruct (td_sent _ _ _ _ Tc) as (_ & l & k & e & H1 & H2). by exists thc, l, k, e.
Qed.

End Ends.

(** ** Witness: both ends from start to end *)

Import Toy AppDemo.

Definition client_hello : bytes := Eval vm_compute in output (play 7 [] [Cl_send] (say 0 0)).
Definition server_acts : list aact := hear 0 0 ++ say 0 1 ++ shut 0 2 ++ again 0 3 ++ [Own 0].
Definition server_end : app := play 9 client_hello [Srv_receive] server_acts.
Definition server_says : bytes := Eval vm_compute in output server_end.
Definition client_acts : list aact := say 0 0 ++ hear 0 1 ++ shut 0 2 ++ [Own 0] ++ again 0 3 ++ [Own 0].
Definition client_end : app := play 7 server_says [Cl_send] client_acts.

Lemma simple_correct_witness :
  (a_code <$> a_threads server_end) = [Done hello] /\ (a_code <$> a_threads client_end) = [Done world]
  /\ joined (a_conn server_end) /\ joined (a_conn client_end).
Proof.
  split; [vm_compute; reflexivity|]. split; [vm_compute; reflexivity|].
  assert (Rs : arun no_os (start (MemStream client_hello [] false) (rng 9) toy_session cfg [Srv_receive]) server_acts = Some server_end)
    by (vm_compute; reflexivity).
  assert (Rc : arun no_os (start (MemStream server_says [] false) (rng 7) toy_session cfg [Cl_send]) client_acts = Some client_end)
    by (vm_compute; reflexivity).
  pose proof (arun_reachable _ _ _ _ _ _ _ _ Rs) as Ps. pose proof (arun_reachable _ _ _ _ _ _ _ _ Rc) as Pc.
  destruct (simple_correct no_os (MemStream client_hello [] false) (MemStream server_says [] false) (rng 9) (rng 7)
    toy_session cfg cfg server_end client_end (Done hello) (Done world)) as (_ & _ & H1 & H2 & _).
  - eexists server_acts, _. split; [exact Rs|]. split; vm_compute; reflexivity.
  - eexists client_acts, _. split; [exact Rc|]. split; vm_compute; reflexivity.
  - split; [reflexivity|]. split; [reflexivity|]. split; [exact Ps|]. split; [exact Pc|].
    exists server_says. split; [vm_compute; reflexivity|]. by exists [].
  - split; [reflexivity|]. split; [reflexivity|]. split; [exact Pc|]. split; [exact Ps|].
    exists (output client_end). split; [vm_compute; reflexivity|]. exists (drop (length client_hello) (output client_end)).
    vm_compute. reflexivity.
  - split; [by eapply H1|by eapply H2].
Defined.
