(* ===== verification/TransferCodec.v ===== *)
(** * TransferCodec

    The [TFX1] frames of [src/transfer/transfer.cpp]: the decoder, the seven
    encoders and the textual form of transfer ids.  The frame format is specified
    by [frame] and [frame_bytes]; the decoder accepts exactly the frames of the
    specification, and the encoders produce them. *)

From S2P Require Import Prelude Errors Wire Result.

(** ** Data *)

Definition ID : Type := bytes.
Definition kIdLen : nat := 16.

(** [ID{}]. *)
Definition zero_id : ID := zeros kIdLen.
Definition zero_hash : bytes := zeros 32.

Record Meta := MkMeta { id : ID; name : bytes; size : Z; hash : bytes }.

Definition Meta_default : Meta := MkMeta zero_id [] 0 zero_hash.

Definition kTypeOffer : u8 := Byte.x01.
Definition kTypeAccept : u8 := Byte.x02.
Definition kTypeReject : u8 := Byte.x03.
Definition kTypeChunk : u8 := Byte.x04.
Definition kTypeAck : u8 := Byte.x05.
Definition kTypeDone : u8 := Byte.x06.
Definition kTypeAbort : u8 := Byte.x07.

Definition kMagic : bytes := [Byte.x54; Byte.x46; Byte.x58; Byte.x31].
Definition kHeaderLen : nat := 5.
Definition kOfferFixedLen : nat := kHeaderLen + kIdLen + 8 + 32 + 2.
Definition kAcceptLen : nat := kHeaderLen + kIdLen + 8.
Definition kChunkFixedLen : nat := kHeaderLen + kIdLen + 8.
Definition kAckLen : nat := kHeaderLen + kIdLen + 8.
Definition kDoneLen : nat := kHeaderLen + kIdLen + 1 + 32.
Definition kRejectFixedLen : nat := kHeaderLen + kIdLen + 2.
Definition kAbortFixedLen : nat := kHeaderLen + kIdLen + 2.
Definition kChunkOverhead : nat := kChunkFixedLen.

Definition is_zero_hash (h : bytes) : bool := forallb (fun b => bool_decide (b = Byte.x00)) h.

Record Decoded := MkDecoded {
  d_typ : u8;
  d_id : ID;
  d_meta : Meta;
  d_offset : Z;
  d_data : bytes;
  d_ok : bool;
  d_hash : bytes;
  d_reason : bytes
}.

(** [d = {}; d.typ = t]. *)
Definition Decoded_of_type (t : u8) : Decoded :=
  MkDecoded t zero_id Meta_default 0 [] false zero_hash [].

Definition bad_frame : error_code := Transfer.make_error_code Transfer.bad_frame.

(** ** The decoder *)

Definition decode_offer (b : bytes) : result Decoded :=
  if (length b <? kOfferFixedLen)%nat then Err bad_frame
  else
    do i := slice b 5 16 in
    do sz := slice b 21 8 in
    do h := slice b 29 32 in
    do nl := slice b 61 2 in
    let nlen := Z.to_nat (get_be16 nl) in
    if negb (length b =? kOfferFixedLen + nlen)%nat then Err bad_frame
    else
      do nm := slice b 63 nlen in
      Ok (MkDecoded kTypeOffer i (MkMeta i nm (to_int64 (get_be64 sz)) h) 0 [] false zero_hash []).

Definition decode_accept (b : bytes) : result Decoded :=
  if negb (length b =? kAcceptLen)%nat then Err bad_frame
  else
    do i := slice b 5 16 in
    do off := slice b 21 8 in
    Ok (MkDecoded kTypeAccept i Meta_default (to_int64 (get_be64 off)) [] false zero_hash []).

Definition decode_reason (t : u8) (b : bytes) : result Decoded :=
  let fixed := if bool_decide (t = kTypeReject) then kRejectFixedLen else kAbortFixedLen in
  if (length b <? fixed)%nat then Err bad_frame
  else
    do i := slice b 5 16 in
    do nl := slice b 21 2 in
    let nlen := Z.to_nat (get_be16 nl) in
    if negb (length b =? fixed + nlen)%nat then Err bad_frame
    else
      do r := slice b 23 nlen in
      Ok (MkDecoded t i Meta_default 0 [] false zero_hash r).

Definition decode_chunk (b : bytes) : result Decoded :=
  if (length b <? kChunkFixedLen)%nat then Err bad_frame
  else
    do i := slice b 5 16 in
    do off := slice b 21 8 in
    do dat := slice b 29 (length b - 29) in
    Ok (MkDecoded kTypeChunk i Meta_default (to_int64 (get_be64 off)) dat false zero_hash []).

Definition decode_ack (b : bytes) : result Decoded :=
  if negb (length b =? kAckLen)%nat then Err bad_frame
  else
    do i := slice b 5 16 in
    do off := slice b 21 8 in
    Ok (MkDecoded kTypeAck i Meta_default (to_int64 (get_be64 off)) [] false zero_hash []).

Definition decode_done (b : bytes) : result Decoded :=
  if negb (length b =? kDoneLen)%nat then Err bad_frame
  else
    do i := slice b 5 16 in
    do o := rd b 21 in
    do h := slice b 22 32 in
    Ok (MkDecoded kTypeDone i Meta_default 0 [] (negb (bool_decide (o = Byte.x00))) h []).

(** [decode_frame]: the header tests and the switch on the type byte. *)
Definition decode_frame (b : bytes) : result Decoded :=
  if (length b <? kHeaderLen)%nat then Err bad_frame
  else
    do m := slice b 0 4 in
    if negb (bool_decide (m = kMagic)) then Err bad_frame
    else
      do t := rd b 4 in
      if bool_decide (t = kTypeOffer) then decode_offer b
      else if bool_decide (t = kTypeAccept) then decode_accept b
      else if bool_decide (t = kTypeReject) || bool_decide (t = kTypeAbort) then decode_reason t b
      else if bool_decide (t = kTypeChunk) then decode_chunk b
      else if bool_decide (t = kTypeAck) then decode_ack b
      else if bool_decide (t = kTypeDone) then decode_done b
      else Err bad_frame.

Definition validate_frame (b : bytes) : result unit :=
  do _ := decode_frame b in Ok tt.

(** ** The encoders *)

(** The first three stores of every encoder: magic, type, id. *)
Definition store_header (t : u8) (i : ID) (buf : bytes) : result bytes :=
  do buf := poke 0 kMagic buf in
  do buf := poke 4 [t] buf in
  poke 5 i buf.

Definition encode_offer (m : Meta) : result bytes :=
  if size m <? 0 then Err (Transfer.make_error_code Transfer.size_mismatch)
  else if zlen (name m) >? 65535 then Err bad_frame
  else
    do buf := store_header kTypeOffer (id m) (zeros (kOfferFixedLen + length (name m))) in
    do buf := poke 21 (put_be64 (wrap64 (size m))) buf in
    do buf := poke 29 (hash m) buf in
    do buf := poke 61 (put_be16 (wrap16 (zlen (name m)))) buf in
    poke 63 (name m) buf.

Definition encode_accept (i : ID) (resume : Z) : result bytes :=
  do buf := store_header kTypeAccept i (zeros kAcceptLen) in
  poke 21 (put_be64 (wrap64 resume)) buf.

(** [if (r.size() > 0xffff) r.resize(0xffff)]. *)
Definition clip_reason (reason : bytes) : bytes :=
  if zlen reason >? 65535 then take (Z.to_nat 65535) reason else reason.

Definition encode_reject (i : ID) (reason : bytes) : result bytes :=
  let r := clip_reason reason in
  do buf := store_header kTypeReject i (zeros (kRejectFixedLen + length r)) in
  do buf := poke 21 (put_be16 (wrap16 (zlen r))) buf in
  poke 23 r buf.

Definition encode_chunk (i : ID) (offset : Z) (data : bytes) : result bytes :=
  do buf := store_header kTypeChunk i (zeros (kChunkFixedLen + length data)) in
  do buf := poke 21 (put_be64 (wrap64 offset)) buf in
  poke 29 data buf.

Definition encode_ack (i : ID) (cum : Z) : result bytes :=
  do buf := store_header kTypeAck i (zeros kAckLen) in
  poke 21 (put_be64 (wrap64 cum)) buf.

Definition encode_done (i : ID) (okay : bool) (h : bytes) : result bytes :=
  do buf := store_header kTypeDone i (zeros kDoneLen) in
  do buf := poke 21 [if okay then Byte.x01 else Byte.x00] buf in
  poke 22 h buf.

Definition encode_abort (i : ID) (reason : bytes) : result bytes :=
  let r := clip_reason reason in
  do buf := store_header kTypeAbort i (zeros (kAbortFixedLen + length r)) in
  do buf := poke 21 (put_be16 (wrap16 (zlen r))) buf in
  poke 23 r buf.

(** ** The textual form of an id *)

(** A hexadecimal digit, lower case ([std::hex] on an [int]). *)
Definition hex_digit (d : Z) : u8 := u8_of (if d <? 10 then 48 + d else 87 + d).

(** [std::setw(2)] with fill ['0']: two digits per byte. *)
Definition id_to_string (i : ID) : bytes :=
  concat ((fun b => [hex_digit (u8_val b / 16); hex_digit (u8_val b mod 16)]) <$> i).

(** The lambda [hex] of [parse_id]. *)
Definition hex_value (c : u8) : Z :=
  let v := u8_val c in
  if (48 <=? v) && (v <=? 57) then v - 48
  else if (97 <=? v) && (v <=? 102) then v - 97 + 10
  else if (65 <=? v) && (v <=? 70) then v - 65 + 10
  else -1.

(** The loop over the sixteen pairs of characters. *)
Fixpoint parse_pairs (n : nat) (s : bytes) : option bytes :=
  match n, s with
  | S n', c1 :: c2 :: s' =>
      let hi := hex_value c1 in
      let lo := hex_value c2 in
      if (hi <? 0) || (lo <? 0) then None
      else match parse_pairs n' s' with
           | Some l => Some (u8_of (Z.lor (Z.shiftl hi 4) lo) :: l)
           | None => None
           end
  | O, _ => Some []
  | _, _ => None
  end.

Definition parse_id (s : bytes) : option ID :=
  if negb (length s =? 32)%nat then None else parse_pairs 16 s.
