(* ===== verification/TransferCodecSpec.v ===== *)
(** * TransferCodecSpec

    The specification of the [TFX1] frames and the theorems about the decoder and
    the encoders of [TransferCodec]: the decoder is exact and never reads outside
    its input, the encoders produce the specified bytes and never write outside
    their buffer, and transfer ids survive their textual form. *)

From S2P Require Import Prelude Errors Wire Result TransferCodec.

(** ** Specification *)

Inductive frame :=
  | FOffer (m : Meta)
  | FAccept (i : ID) (offset : Z)
  | FReject (i : ID) (reason : bytes)
  | FChunk (i : ID) (offset : Z) (data : bytes)
  | FAck (i : ID) (cum : Z)
  | FDone (i : ID) (status : u8) (h : bytes)
  | FAbort (i : ID) (reason : bytes).

Definition header (t : u8) : bytes := kMagic ++ [t].

Definition frame_bytes (f : frame) : bytes :=
  match f with
  | FOffer m => header kTypeOffer ++ id m ++ be_bytes 8 (size m) ++ hash m
                  ++ be_bytes 2 (zlen (name m)) ++ name m
  | FAccept i off => header kTypeAccept ++ i ++ be_bytes 8 off
  | FReject i r => header kTypeReject ++ i ++ be_bytes 2 (zlen r) ++ r
  | FChunk i off d => header kTypeChunk ++ i ++ be_bytes 8 off ++ d
  | FAck i cum => header kTypeAck ++ i ++ be_bytes 8 cum
  | FDone i st h => header kTypeDone ++ i ++ [st] ++ h
  | FAbort i r => header kTypeAbort ++ i ++ be_bytes 2 (zlen r) ++ r
  end.

(** Fixed-size arrays have their size, offsets are 64-bit, texts have a 16-bit length. *)
Definition meta_wf (m : Meta) : Prop :=
  length (id m) = 16%nat /\ length (hash m) = 32%nat /\ is_int64 (size m)
  /\ zlen (name m) <= 65535.

Definition frame_wf (f : frame) : Prop :=
  match f with
  | FOffer m => meta_wf m
  | FAccept i off | FAck i off => length i = 16%nat /\ is_int64 off
  | FReject i r | FAbort i r => length i = 16%nat /\ zlen r <= 65535
  | FChunk i off d => length i = 16%nat /\ is_int64 off
  | FDone i st h => length i = 16%nat /\ length h = 32%nat
  end.

(** What the decoder reports for a frame. *)
Definition decoded_of (f : frame) : Decoded :=
  match f with
  | FOffer m => MkDecoded kTypeOffer (id m) m 0 [] false zero_hash []
  | FAccept i off => MkDecoded kTypeAccept i Meta_default off [] false zero_hash []
  | FReject i r => MkDecoded kTypeReject i Meta_default 0 [] false zero_hash r
  | FChunk i off d => MkDecoded kTypeChunk i Meta_default off d false zero_hash []
  | FAck i cum => MkDecoded kTypeAck i Meta_default cum [] false zero_hash []
  | FDone i st h =>
      MkDecoded kTypeDone i Meta_default 0 [] (negb (bool_decide (st = Byte.x00))) h []
  | FAbort i r => MkDecoded kTypeAbort i Meta_default 0 [] false zero_hash r
  end.

(** ** Arithmetic of the offset and length fields *)

Lemma is_int64_to_int64 z : is_int64 (to_int64 z).
Proof. unfold is_int64, to_int64. pose proof (Z.mod_pos_bound (z + 2 ^ 63) (2 ^ 64)). lia. Qed.

Lemma to_int64_mod z : to_int64 (z mod 2 ^ 64) = to_int64 z.
Proof. unfold to_int64. by rewrite Zplus_mod_idemp_l. Qed.

Lemma to_int64_id z : is_int64 z -> to_int64 z = z.
Proof. unfold is_int64, to_int64. intros. rewrite Z.mod_small by lia. lia. Qed.

Lemma be_bytes_mod n z : be_bytes n (z mod 256 ^ Z.of_nat n) = be_bytes n z.
Proof.
  rewrite <- be_value_bytes. apply be_bytes_value_n, length_be_bytes.
Qed.

Lemma be_bytes_to_int64 z : be_bytes 8 (to_int64 z) = be_bytes 8 z.
Proof.
  rewrite <- (be_bytes_mod 8 (to_int64 z)), <- (be_bytes_mod 8 z). f_equal.
  change (256 ^ Z.of_nat 8) with (2 ^ 64). unfold to_int64.
  rewrite Zminus_mod_idemp_l. f_equal. lia.
Qed.

Lemma be_bytes_wrap64 z : be_bytes 8 (wrap64 z) = be_bytes 8 z.
Proof. exact (be_bytes_mod 8 z). Qed.

(** A decoded offset field and the field itself determine each other. *)
Lemma offset_field f : length f = 8%nat -> be_bytes 8 (to_int64 (get_be64 f)) = f.
Proof. intros Hf. rewrite be_bytes_to_int64, get_be64_spec by done. by apply be_bytes_value_n. Qed.

Lemma offset_value z : is_int64 z -> to_int64 (get_be64 (be_bytes 8 z)) = z.
Proof.
  intros Hz. rewrite get_be64_spec, be_value_bytes by apply length_be_bytes.
  change (256 ^ Z.of_nat 8) with (2 ^ 64). rewrite to_int64_mod. by apply to_int64_id.
Qed.

Lemma length_value n : 0 <= n <= 65535 -> get_be16 (be_bytes 2 n) = n.
Proof.
  intros Hn. rewrite get_be16_spec, be_value_bytes by apply length_be_bytes.
  apply Z.mod_small. change (256 ^ Z.of_nat 2) with 65536. lia.
Qed.

Lemma length_field (f : bytes) (l : bytes) :
  length f = 2%nat -> length l = Z.to_nat (get_be16 f) ->
  be_bytes 2 (zlen l) = f /\ zlen l <= 65535.
Proof.
  intros Hf Hl. pose proof (get_be16_range f Hf) as Hr. change (2 ^ 16) with 65536 in Hr.
  assert (zlen l = get_be16 f) as -> by (unfold zlen; lia).
  split; [|lia]. rewrite get_be16_spec by done. by apply be_bytes_value_n.
Qed.

(** ** The decoder on the pieces of a frame *)

(** Split [n] bytes off the front. *)
Lemma split_front {A} n (l : list A) :
  (n <= length l)%nat -> exists x y, l = x ++ y /\ length x = n /\ length y = (length l - n)%nat.
Proof.
  intros Hn. exists (take n l), (drop n l). rewrite take_drop, length_take, length_drop. split_and!; lia || done.
Qed.

Ltac bytes_len :=
  unfold header, TransferCodec.kMagic, kOfferFixedLen, kAcceptLen, kAckLen, kDoneLen,
    kRejectFixedLen, kAbortFixedLen, kChunkFixedLen, kHeaderLen, kIdLen;
  rewrite ?length_app; cbn [length]; lia.
Ltac slice_by pre x post :=
  rewrite (slice_at _ pre x post) by first [by rewrite <- ?app_assoc, ?app_nil_r | bytes_len];
  cbn [rbind].

Section Layout.
Context (t : u8) (i : bytes) (Hi : length i = 16%nat).

Lemma decode_offer_layout sz h nl nm :
  length sz = 8%nat -> length h = 32%nat -> length nl = 2%nat ->
  decode_offer (header t ++ i ++ sz ++ h ++ nl ++ nm) =
    if negb (length nm =? Z.to_nat (get_be16 nl))%nat then Err bad_frame
    else Ok (MkDecoded kTypeOffer i (MkMeta i nm (to_int64 (get_be64 sz)) h) 0 [] false zero_hash []).
Proof using Hi.
  intros Hs Hh Hn. unfold decode_offer.
  assert (length (header t ++ i ++ sz ++ h ++ nl ++ nm) = kOfferFixedLen + length nm)%nat as Hlen
    by bytes_len.
  rewrite Hlen. rewrite (proj2 (Nat.ltb_ge _ _)) by lia.
  slice_by (header t) i (sz ++ h ++ nl ++ nm).
  slice_by (header t ++ i) sz (h ++ nl ++ nm).
  slice_by (header t ++ i ++ sz) h (nl ++ nm).
  slice_by (header t ++ i ++ sz ++ h) nl nm.
  destruct (length nm =? Z.to_nat (get_be16 nl))%nat eqn:E.
  - apply Nat.eqb_eq in E. rewrite <- E, Nat.eqb_refl. cbn [negb].
    by slice_by (header t ++ i ++ sz ++ h ++ nl) nm (@nil u8).
  - rewrite (proj2 (Nat.eqb_neq _ _)); [done|]. apply Nat.eqb_neq in E. lia.
Qed.

Lemma decode_accept_layout off :
  length off = 8%nat ->
  decode_accept (header t ++ i ++ off)
  = Ok (MkDecoded kTypeAccept i Meta_default (to_int64 (get_be64 off)) [] false zero_hash []).
Proof using Hi.
  intros Ho. unfold decode_accept.
  rewrite (proj2 (Nat.eqb_eq _ _)) by bytes_len. cbn [negb].
  slice_by (header t) i off. by slice_by (header t ++ i) off (@nil u8).
Qed.

Lemma decode_ack_layout off :
  length off = 8%nat ->
  decode_ack (header t ++ i ++ off)
  = Ok (MkDecoded kTypeAck i Meta_default (to_int64 (get_be64 off)) [] false zero_hash []).
Proof using Hi.
  intros Ho. unfold decode_ack.
  rewrite (proj2 (Nat.eqb_eq _ _)) by bytes_len. cbn [negb].
  slice_by (header t) i off. by slice_by (header t ++ i) off (@nil u8).
Qed.

Lemma decode_reason_layout ty nl r :
  length nl = 2%nat ->
  decode_reason ty (header t ++ i ++ nl ++ r) =
    if negb (length r =? Z.to_nat (get_be16 nl))%nat then Err bad_frame
    else Ok (MkDecoded ty i Meta_default 0 [] false zero_hash r).
Proof using Hi.
  intros Hn. unfold decode_reason.
  assert ((if bool_decide (ty = kTypeReject) then kRejectFixedLen else kAbortFixedLen) = 23%nat)
    as -> by by case_bool_decide.
  assert (length (header t ++ i ++ nl ++ r) = 23 + length r)%nat as Hlen
    by bytes_len.
  rewrite Hlen. rewrite (proj2 (Nat.ltb_ge _ _)) by lia.
  slice_by (header t) i (nl ++ r). slice_by (header t ++ i) nl r.
  destruct (length r =? Z.to_nat (get_be16 nl))%nat eqn:E.
  - apply Nat.eqb_eq in E. rewrite <- E, Nat.eqb_refl. cbn [negb].
    by slice_by (header t ++ i ++ nl) r (@nil u8).
  - rewrite (proj2 (Nat.eqb_neq _ _)); [done|]. apply Nat.eqb_neq in E. lia.
Qed.

Lemma decode_chunk_layout off d :
  length off = 8%nat ->
  decode_chunk (header t ++ i ++ off ++ d)
  = Ok (MkDecoded kTypeChunk i Meta_default (to_int64 (get_be64 off)) d false zero_hash []).
Proof using Hi.
  intros Ho. unfold decode_chunk.
  assert (length (header t ++ i ++ off ++ d) = 29 + length d)%nat as Hlen
    by bytes_len.
  rewrite Hlen. rewrite (proj2 (Nat.ltb_ge _ _)) by (cbn; lia).
  assert ((29 + length d - 29)%nat = length d) as -> by lia.
  slice_by (header t) i (off ++ d). slice_by (header t ++ i) off d.
  by slice_by (header t ++ i ++ off) d (@nil u8).
Qed.

Lemma decode_done_layout st h :
  length h = 32%nat ->
  decode_done (header t ++ i ++ [st] ++ h)
  = Ok (MkDecoded kTypeDone i Meta_default 0 [] (negb (bool_decide (st = Byte.x00))) h []).
Proof using Hi.
  intros Hh. unfold decode_done.
  rewrite (proj2 (Nat.eqb_eq _ _)) by bytes_len. cbn [negb].
  slice_by (header t) i ([st] ++ h).
  rewrite (rd_at _ (header t ++ i) st h) by first [by rewrite <- ?app_assoc | bytes_len]. cbn [rbind].
  by slice_by (header t ++ i ++ [st]) h (@nil u8).
Qed.

End Layout.

Definition dispatch (t : u8) (b : bytes) : result Decoded :=
  if bool_decide (t = kTypeOffer) then decode_offer b
  else if bool_decide (t = kTypeAccept) then decode_accept b
  else if bool_decide (t = kTypeReject) || bool_decide (t = kTypeAbort) then decode_reason t b
  else if bool_decide (t = kTypeChunk) then decode_chunk b
  else if bool_decide (t = kTypeAck) then decode_ack b
  else if bool_decide (t = kTypeDone) then decode_done b
  else Err bad_frame.

Lemma decode_frame_header t rest :
  decode_frame (header t ++ rest) = dispatch t (header t ++ rest).
Proof.
  unfold decode_frame. rewrite (proj2 (Nat.ltb_ge _ _)) by bytes_len.
  slice_by (@nil u8) TransferCodec.kMagic ([t] ++ rest).
  rewrite bool_decide_eq_true_2 by done. cbn [negb].
  rewrite (rd_at _ TransferCodec.kMagic t rest) by first [by rewrite <- ?app_assoc | bytes_len].
  done.
Qed.

(** A buffer that is not a header followed by something is refused. *)
Lemma decode_frame_no_header b :
  decode_frame b = Err bad_frame \/ exists t rest, b = header t ++ rest.
Proof.
  unfold decode_frame. destruct (length b <? kHeaderLen)%nat eqn:Hl; [by left|].
  apply Nat.ltb_ge in Hl. unfold kHeaderLen in Hl.
  destruct (split_front 4 b ltac:(lia)) as (m & y & -> & Hm & Hy).
  destruct y as [|t rest]; [rewrite length_app in Hl; simpl in *; lia|].
  slice_by (@nil u8) m (t :: rest).
  case_bool_decide as Hmag; [|by left]. right. exists t, rest. rewrite Hmag. done.
Qed.

Lemma decode_frame_complete f :
  frame_wf f -> decode_frame (frame_bytes f) = Ok (decoded_of f).
Proof.
  destruct f as [m|i o|i r|i o d|i o|i st h|i r]; cbn [frame_wf frame_bytes];
    rewrite decode_frame_header.
  - change (dispatch kTypeOffer ?b) with (decode_offer b).
    intros (Hi & Hh & Hs & Hn). rewrite decode_offer_layout by (rewrite ?length_be_bytes; done).
    rewrite length_value by (unfold zlen in *; lia). unfold zlen. rewrite Nat2Z.id, Nat.eqb_refl.
    cbn [negb decoded_of]. rewrite offset_value by done. by destruct m.
  - change (dispatch kTypeAccept ?b) with (decode_accept b).
    intros (Hi & Ho). rewrite decode_accept_layout by (rewrite ?length_be_bytes; done).
    by rewrite offset_value.
  - change (dispatch kTypeReject ?b) with (decode_reason kTypeReject b).
    intros (Hi & Hr). rewrite decode_reason_layout by (rewrite ?length_be_bytes; done).
    rewrite length_value by (unfold zlen in *; lia). unfold zlen. by rewrite Nat2Z.id, Nat.eqb_refl.
  - change (dispatch kTypeChunk ?b) with (decode_chunk b).
    intros (Hi & Ho). rewrite decode_chunk_layout by (rewrite ?length_be_bytes; done).
    by rewrite offset_value.
  - change (dispatch kTypeAck ?b) with (decode_ack b).
    intros (Hi & Ho). rewrite decode_ack_layout by (rewrite ?length_be_bytes; done).
    by rewrite offset_value.
  - change (dispatch kTypeDone ?b) with (decode_done b).
    intros (Hi & Hh). by rewrite decode_done_layout.
  - change (dispatch kTypeAbort ?b) with (decode_reason kTypeAbort b).
    intros (Hi & Hr). rewrite decode_reason_layout by (rewrite ?length_be_bytes; done).
    rewrite length_value by (unfold zlen in *; lia). unfold zlen. by rewrite Nat2Z.id, Nat.eqb_refl.
Qed.

(** Each case of the switch refuses its input or finds a frame of the specification. *)
Definition refused_or_frame (b : bytes) (r : result Decoded) : Prop :=
  r = Err bad_frame \/ exists f, frame_wf f /\ b = frame_bytes f.

Lemma length_header t : length (header t) = 5%nat.
Proof. done. Qed.

Lemma decode_offer_cases rest :
  refused_or_frame (header kTypeOffer ++ rest) (decode_offer (header kTypeOffer ++ rest)).
Proof.
  destruct (decide (length rest < 58)%nat) as [Hs|Hl].
  { left. unfold decode_offer. by rewrite (proj2 (Nat.ltb_lt _ _)) by bytes_len. }
  destruct (split_front 16 rest ltac:(lia)) as (i & r1 & -> & Hi & H1).
  destruct (split_front 8 r1 ltac:(rewrite length_app in *; lia)) as (sz & r2 & -> & Hsz & H2).
  destruct (split_front 32 r2 ltac:(rewrite !length_app in *; lia)) as (h & r3 & -> & Hh & H3).
  destruct (split_front 2 r3 ltac:(rewrite !length_app in *; lia)) as (nl & nm & -> & Hnl & H4).
  unfold refused_or_frame. rewrite decode_offer_layout by done.
  destruct (length nm =? _)%nat eqn:E; [|by left]. apply Nat.eqb_eq in E. right.
  destruct (length_field nl nm Hnl E) as [Hf Hz].
  exists (FOffer (MkMeta i nm (to_int64 (get_be64 sz)) h)). cbn [frame_bytes frame_wf id size hash name]. split.
  - unfold meta_wf; simpl. auto using is_int64_to_int64.
  - by rewrite offset_field, Hf.
Qed.

Lemma decode_offset_cases (b rest : bytes) (mk : ID -> Z -> frame) (r : result Decoded) t :
  b = header t ++ rest ->
  (length rest <> 24%nat -> r = Err bad_frame) ->
  (forall i o, length i = 16%nat -> is_int64 o -> frame_wf (mk i o)
     /\ frame_bytes (mk i o) = header t ++ i ++ be_bytes 8 o) ->
  refused_or_frame b r.
Proof.
  intros -> Hbad Hmk. destruct (decide (length rest = 24%nat)) as [Hl|]; [|left; auto].
  destruct (split_front 16 rest ltac:(lia)) as (i & o & -> & Hi & Ho). right.
  exists (mk i (to_int64 (get_be64 o))).
  destruct (Hmk i (to_int64 (get_be64 o)) Hi (is_int64_to_int64 _)) as [Hw ->].
  split; [done|]. rewrite offset_field by lia. done.
Qed.

Lemma decode_reason_cases (mk : ID -> bytes -> frame) t rest :
  (forall i r, length i = 16%nat -> zlen r <= 65535 -> frame_wf (mk i r)
     /\ frame_bytes (mk i r) = header t ++ i ++ be_bytes 2 (zlen r) ++ r) ->
  refused_or_frame (header t ++ rest) (decode_reason t (header t ++ rest)).
Proof.
  intros Hmk. destruct (decide (length rest < 18)%nat) as [Hs|Hl].
  { left. unfold decode_reason. rewrite (proj2 (Nat.ltb_lt _ _)); [done|].
    case_bool_decide; bytes_len. }
  destruct (split_front 16 rest ltac:(lia)) as (i & r1 & -> & Hi & H1).
  destruct (split_front 2 r1 ltac:(rewrite length_app in *; lia)) as (nl & r & -> & Hnl & H2).
  unfold refused_or_frame. rewrite decode_reason_layout by done.
  destruct (length r =? _)%nat eqn:E; [|by left]. apply Nat.eqb_eq in E. right.
  destruct (length_field nl r Hnl E) as [Hf Hz].
  destruct (Hmk i r Hi Hz) as [Hw Hb]. exists (mk i r). by rewrite Hb, Hf.
Qed.

Lemma decode_chunk_cases rest :
  refused_or_frame (header kTypeChunk ++ rest) (decode_chunk (header kTypeChunk ++ rest)).
Proof.
  destruct (decide (length rest < 24)%nat) as [Hs|Hl].
  { left. unfold decode_chunk. by rewrite (proj2 (Nat.ltb_lt _ _)) by bytes_len. }
  destruct (split_front 16 rest ltac:(lia)) as (i & r1 & -> & Hi & H1).
  destruct (split_front 8 r1 ltac:(rewrite length_app in *; lia)) as (o & d & -> & Ho & H2).
  right. exists (FChunk i (to_int64 (get_be64 o)) d). cbn [frame_bytes frame_wf id size hash name].
  rewrite offset_field by done. auto using is_int64_to_int64.
Qed.

Lemma decode_done_cases rest :
  refused_or_frame (header kTypeDone ++ rest) (decode_done (header kTypeDone ++ rest)).
Proof.
  destruct (decide (length rest = 49%nat)) as [Hl|Hne].
  2:{ left. unfold decode_done. by rewrite (proj2 (Nat.eqb_neq _ _)) by bytes_len. }
  destruct (split_front 16 rest ltac:(lia)) as (i & r1 & -> & Hi & H1).
  destruct r1 as [|st h]; [rewrite length_app in *; simpl in *; lia|].
  right. exists (FDone i st h). cbn. split; [|done]. rewrite length_app in *. simpl in *. split; lia.
Qed.

Lemma decode_frame_cases b : refused_or_frame b (decode_frame b).
Proof.
  destruct (decode_frame_no_header b) as [E|(t & rest & ->)]; [by left|].
  rewrite decode_frame_header. unfold dispatch.
  case_bool_decide; [subst; apply decode_offer_cases|].
  case_bool_decide; [subst|].
  { eapply (decode_offset_cases _ rest FAccept); [done| |by cbn].
    intros. unfold decode_accept. by rewrite (proj2 (Nat.eqb_neq _ _)) by bytes_len. }
  case_bool_decide; [subst; by apply (decode_reason_cases FReject)|].
  case_bool_decide; [subst; by apply (decode_reason_cases FAbort)|]. cbn [orb].
  case_bool_decide; [subst; apply decode_chunk_cases|].
  case_bool_decide; [subst|].
  { eapply (decode_offset_cases _ rest FAck); [done| |by cbn].
    intros. unfold decode_ack. by rewrite (proj2 (Nat.eqb_neq _ _)) by bytes_len. }
  case_bool_decide; [subst; apply decode_done_cases|]. by left.
Qed.

Lemma decode_frame_inv b d :
  decode_frame b = Ok d -> exists f, frame_wf f /\ b = frame_bytes f /\ d = decoded_of f.
Proof.
  intros E. destruct (decode_frame_cases b) as [E'|(f & Hw & ->)]; [congruence|].
  rewrite decode_frame_complete in E by done. simplify_eq. eauto.
Qed.

(** ** The encoders *)

Lemma zeros_0 n : n = 0%nat -> zeros n = [].
Proof. by intros ->. Qed.

Ltac poke_next := rewrite poke_zeros by (repeat rewrite length_be_bytes; rewrite ?length_app; repeat rewrite length_be_bytes; bytes_len); cbn [rbind].

Lemma store_header_ok t i k :
  length i = 16%nat -> (21 <= k)%nat ->
  store_header t i (zeros k) = Ok ((header t ++ i) ++ zeros (k - 21)).
Proof.
  intros Hi Hk. unfold store_header.
  rewrite poke_zeros_start by bytes_len. cbn [rbind].
  poke_next. poke_next. do 3 f_equal. bytes_len.
Qed.

Ltac header_next := rewrite store_header_ok by (first [assumption | bytes_len]); cbn [rbind].

(** The last store fills the buffer. *)
Ltac encode_end :=
  rewrite (zeros_0 (_ - _)) by (repeat rewrite length_be_bytes; bytes_len);
  rewrite app_nil_r, <- ?app_assoc; reflexivity.

Lemma encode_offset_ok t i o :
  length i = 16%nat ->
  (do buf := store_header t i (zeros 29) in poke 21 (put_be64 (wrap64 o)) buf)
  = Ok (header t ++ i ++ be_bytes 8 o).
Proof.
  intros Hi. header_next. rewrite put_be64_spec, be_bytes_wrap64. poke_next. encode_end.
Qed.

Lemma encode_accept_ok i o :
  length i = 16%nat -> encode_accept i o = Ok (frame_bytes (FAccept i o)).
Proof. exact (encode_offset_ok kTypeAccept i o). Qed.

Lemma encode_ack_ok i o : length i = 16%nat -> encode_ack i o = Ok (frame_bytes (FAck i o)).
Proof. exact (encode_offset_ok kTypeAck i o). Qed.

Lemma put_len16 (l : bytes) :
  zlen l <= 65535 -> put_be16 (wrap16 (zlen l)) = be_bytes 2 (zlen l).
Proof.
  intros. unfold wrap16. rewrite Z.mod_small by (unfold zlen in *; lia). apply put_be16_spec.
Qed.

Lemma encode_offer_ok m :
  length (id m) = 16%nat -> length (hash m) = 32%nat -> 0 <= size m -> zlen (name m) <= 65535 ->
  encode_offer m = Ok (frame_bytes (FOffer m)).
Proof.
  intros Hi Hh Hs Hn. unfold encode_offer.
  guard_false (size m <? 0). guard_false (zlen (name m) >? 65535).
  header_next. rewrite put_be64_spec, be_bytes_wrap64, put_len16 by done.
  do 4 poke_next. encode_end.
Qed.

Lemma clip_reason_len r : zlen (clip_reason r) <= 65535.
Proof.
  unfold clip_reason. split_ifs; [|done]. unfold zlen. rewrite length_take. lia.
Qed.

Lemma encode_reason_ok t i r :
  length i = 16%nat -> zlen r <= 65535 ->
  (do buf := store_header t i (zeros (23 + length r)) in
   do buf := poke 21 (put_be16 (wrap16 (zlen r))) buf in
   poke 23 r buf) = Ok (header t ++ i ++ be_bytes 2 (zlen r) ++ r).
Proof. intros Hi Hr. header_next. rewrite put_len16 by done. do 2 poke_next. encode_end. Qed.

Lemma encode_reject_ok i r :
  length i = 16%nat -> encode_reject i r = Ok (frame_bytes (FReject i (clip_reason r))).
Proof. intros Hi. exact (encode_reason_ok kTypeReject i _ Hi (clip_reason_len r)). Qed.

Lemma encode_abort_ok i r :
  length i = 16%nat -> encode_abort i r = Ok (frame_bytes (FAbort i (clip_reason r))).
Proof. intros Hi. exact (encode_reason_ok kTypeAbort i _ Hi (clip_reason_len r)). Qed.

Lemma encode_chunk_ok i o d :
  length i = 16%nat -> encode_chunk i o d = Ok (frame_bytes (FChunk i o d)).
Proof.
  intros Hi. unfold encode_chunk. header_next. rewrite put_be64_spec, be_bytes_wrap64.
  do 2 poke_next. encode_end.
Qed.

Lemma encode_done_ok i b h :
  length i = 16%nat -> length h = 32%nat ->
  encode_done i b h = Ok (frame_bytes (FDone i (if b then Byte.x01 else Byte.x00) h)).
Proof. intros Hi Hh. unfold encode_done. header_next. do 2 poke_next. encode_end. Qed.

Lemma length_chunk_frame i o d :
  length i = 16%nat -> zlen (frame_bytes (FChunk i o d)) = 29 + zlen d.
Proof.
  intros Hi. cbn [frame_bytes]. unfold zlen. rewrite !length_app, length_be_bytes, length_header. lia.
Qed.

(** ** Theorems *)

(** C31 (the decoder is exact).  Every byte string either is a frame of the
    specification, and then the decoder returns that frame's fields, or it is not,
    and then the decoder returns [bad_frame]; it never reads outside its input. *)
Theorem decode_frame_exact (b : bytes) :
  (exists f, frame_wf f /\ b = frame_bytes f /\ decode_frame b = Ok (decoded_of f))
  \/ ((forall f, frame_wf f -> b <> frame_bytes f)
      /\ decode_frame b = Err (Transfer.make_error_code Transfer.bad_frame)).
Proof.
  destruct (decode_frame_cases b) as [E|(f & Hw & ->)].
  - right. split; [|done]. intros f Hw ->. rewrite decode_frame_complete in E; done.
  - left. exists f. auto using decode_frame_complete.
Qed.

(** On ids and hashes of their fixed sizes every encoder fills its
    buffer with exactly the specified frame, without a store outside it; an offer
    is refused for a negative size or a name above 65535 bytes, and reject and
    abort reasons are cut to 65535 bytes. *)
Theorem encode_frames_correct (m : Meta) (i : ID) (h d r : bytes) (o : Z) (okay : bool) :
  length (id m) = 16%nat -> length (hash m) = 32%nat -> length i = 16%nat -> length h = 32%nat ->
  encode_offer m =
    (if size m <? 0 then Err (Transfer.make_error_code Transfer.size_mismatch)
     else if zlen (name m) >? 65535 then Err (Transfer.make_error_code Transfer.bad_frame)
     else Ok (frame_bytes (FOffer m)))
  /\ encode_accept i o = Ok (frame_bytes (FAccept i o))
  /\ encode_reject i r = Ok (frame_bytes (FReject i (take (Z.to_nat 65535) r)))
  /\ encode_chunk i o d = Ok (frame_bytes (FChunk i o d))
  /\ encode_ack i o = Ok (frame_bytes (FAck i o))
  /\ encode_done i okay h = Ok (frame_bytes (FDone i (if okay then Byte.x01 else Byte.x00) h))
  /\ encode_abort i r = Ok (frame_bytes (FAbort i (take (Z.to_nat 65535) r))).
Proof.
  intros Hmi Hmh Hi Hh.
  assert (Hclip : clip_reason r = take (Z.to_nat 65535) r).
  { unfold clip_reason. split_ifs; [done|]. rewrite take_ge; [done|]. unfold zlen in *. lia. }
  split_and!; eauto using encode_accept_ok, encode_ack_ok, encode_chunk_ok, encode_done_ok.
  - destruct (size m <? 0) eqn:E1; [unfold encode_offer; by rewrite E1|].
    destruct (zlen (name m) >? 65535) eqn:E2; [unfold encode_offer; by rewrite E1, E2|].
    bool_to_prop. by apply encode_offer_ok.
  - by rewrite encode_reject_ok, Hclip.
  - by rewrite encode_abort_ok, Hclip.
Qed.

(** What the encoders of offers, chunks, acknowledgements
    and completions produce decodes to the same id, offset, data, metadata, status
    and hash, and a chunk frame is exactly 29 bytes longer than its data. *)
Theorem frame_roundtrip (m : Meta) (d h : bytes) (o : Z) (okay : bool) :
  meta_wf m -> 0 <= size m -> is_int64 o -> length h = 32%nat ->
  (exists b, encode_offer m = Ok b /\ decode_frame b = Ok (decoded_of (FOffer m)))
  /\ (exists b, encode_accept (id m) o = Ok b /\ decode_frame b = Ok (decoded_of (FAccept (id m) o)))
  /\ (exists b, encode_chunk (id m) o d = Ok b /\ decode_frame b = Ok (decoded_of (FChunk (id m) o d))
        /\ zlen b = 29 + zlen d)
  /\ (exists b, encode_ack (id m) o = Ok b /\ decode_frame b = Ok (decoded_of (FAck (id m) o)))
  /\ (exists b dd, encode_done (id m) okay h = Ok b /\ decode_frame b = Ok dd
        /\ d_typ dd = kTypeDone /\ d_id dd = id m /\ d_ok dd = okay /\ d_hash dd = h).
Proof.
  intros Hm Hs Ho Hh. destruct Hm as (Hi & Hmh & Hsz & Hn).
  split_and!.
  - eexists. split; [by apply encode_offer_ok|]. by apply decode_frame_complete.
  - eexists. split; [by apply encode_accept_ok|]. by apply decode_frame_complete.
  - eexists. split; [by apply encode_chunk_ok|]. split; [by apply decode_frame_complete|].
    by apply length_chunk_frame.
  - eexists. split; [by apply encode_ack_ok|]. by apply decode_frame_complete.
  - eexists _, _. split; [by apply encode_done_ok|]. split; [by apply decode_frame_complete|].
    by destruct okay.
Qed.

(** ** The textual form of ids *)

Lemma hex_value_digit d : 0 <= d < 16 -> hex_value (hex_digit d) = d.
Proof.
  intros Hd. unfold hex_value, hex_digit.
  rewrite u8_val_of_small by (destruct (d <? 10) eqn:?; bool_to_prop; lia).
  destruct (d <? 10) eqn:?; bool_to_prop.
  - guard_true ((48 <=? 48 + d) && (48 + d <=? 57)). lia.
  - guard_false ((48 <=? 87 + d) && (87 + d <=? 57)).
    guard_true ((97 <=? 87 + d) && (87 + d <=? 102)). lia.
Qed.

Lemma hex_value_range c : -1 <= hex_value c < 16.
Proof. unfold hex_value. split_ifs; lia. Qed.

(** The canonical (lower case) character of a digit character. *)
Definition lower (c : u8) : u8 :=
  if (65 <=? u8_val c) && (u8_val c <=? 70) then u8_of (u8_val c + 32) else c.

Lemma hex_digit_value c : 0 <= hex_value c -> hex_digit (hex_value c) = lower c.
Proof.
  intros Hc. apply (inj u8_val). unfold hex_value, lower, hex_digit in *.
  pose proof (u8_val_range c).
  destruct ((48 <=? u8_val c) && (u8_val c <=? 57)) eqn:E1; bool_to_prop.
  { guard_true (u8_val c - 48 <? 10). guard_false ((65 <=? u8_val c) && (u8_val c <=? 70)).
    rewrite u8_val_of_small by lia. lia. }
  destruct ((97 <=? u8_val c) && (u8_val c <=? 102)) eqn:E2; bool_to_prop.
  { guard_false (u8_val c - 97 + 10 <? 10). guard_false ((65 <=? u8_val c) && (u8_val c <=? 70)).
    rewrite u8_val_of_small by lia. lia. }
  destruct ((65 <=? u8_val c) && (u8_val c <=? 70)) eqn:E3; bool_to_prop; [|lia].
  guard_false (u8_val c - 65 + 10 <? 10). rewrite !u8_val_of_small by lia. lia.
Qed.

Lemma nibbles hi lo :
  0 <= hi < 16 -> 0 <= lo < 16 ->
  u8_val (u8_of (Z.lor (Z.shiftl hi 4) lo)) = hi * 16 + lo.
Proof.
  intros Hh Hl.
  assert (Z.lor (Z.shiftl hi 4) lo = hi * 16 + lo) as ->; [|apply u8_val_of_small; lia].
  assert (Hin : forall z, 0 <= z < 16 -> In z [0;1;2;3;4;5;6;7;8;9;10;11;12;13;14;15]) by (intros; simpl; lia).
  specialize (Hin hi Hh) as H1. specialize (Hin lo Hl) as H2. simpl in H1, H2.
  intuition (subst; reflexivity).
Qed.

Lemma parse_pairs_hex l : parse_pairs (length l) (id_to_string l) = Some l.
Proof.
  induction l as [|b l IH]; [done|]. unfold id_to_string in *. cbn [fmap list_fmap concat app].
  cbn [length parse_pairs]. pose proof (u8_val_range b).
  assert (0 <= u8_val b / 16 < 16) by (split; [apply Z.div_pos|apply Z.div_lt_upper_bound]; lia).
  pose proof (Z.mod_pos_bound (u8_val b) 16 ltac:(lia)).
  rewrite !hex_value_digit by lia.
  guard_false ((u8_val b / 16 <? 0) || (u8_val b mod 16 <? 0)).
  cbn [app]. rewrite IH. do 2 f_equal. apply (inj u8_val). rewrite nibbles by lia.
  rewrite (Z.div_mod (u8_val b) 16) at 3 by lia. lia.
Qed.

Lemma length_id_to_string l : length (id_to_string l) = (2 * length l)%nat.
Proof.
  unfold id_to_string. induction l as [|b l IH]; [done|].
  cbn [fmap list_fmap concat app length]. rewrite IH. lia.
Qed.

Lemma id_to_string_parse n s l :
  parse_pairs n s = Some l -> length s = (2 * n)%nat ->
  length l = n /\ id_to_string l = lower <$> s.
Proof.
  revert s l. induction n as [|n IH]; intros s l Hp Hs.
  { destruct s; [|done]. simpl in Hp. by simplify_eq. }
  destruct s as [|c1 [|c2 s]]; [done|simpl in Hs; lia|]. cbn [parse_pairs] in Hp.
  destruct ((hex_value c1 <? 0) || (hex_value c2 <? 0)) eqn:Hg; [done|]. bool_to_prop.
  destruct (parse_pairs n s) as [l'|] eqn:E; [|done]. simplify_eq.
  destruct (IH s l' E) as [Hl Hid]; [simpl in Hs; lia|]. split; [simpl; lia|].
  unfold id_to_string in *. cbn [fmap list_fmap concat app].
  pose proof (hex_value_range c1); pose proof (hex_value_range c2).
  rewrite nibbles by lia.
  rewrite Z.div_add_l, Z.div_small, Z.add_0_r by lia.
  rewrite (Z.add_comm (_ * 16)), Z.mod_add, Z.mod_small by lia.
  by rewrite !hex_digit_value, Hid by lia.
Qed.

(** A 16-byte id survives printing and parsing; what parses
    has 32 hexadecimal characters, and printing the parsed id gives the same text
    in lower case. *)
Theorem id_string_roundtrip (i : ID) (s : bytes) :
  length i = 16%nat ->
  parse_id (id_to_string i) = Some i
  /\ (forall j, parse_id s = Some j ->
        length s = 32%nat /\ length j = 16%nat /\ id_to_string j = lower <$> s).
Proof.
  intros Hi. split.
  - unfold parse_id. rewrite length_id_to_string, Hi. cbn [negb Nat.eqb Nat.mul Nat.add].
    rewrite <- Hi at 1. apply parse_pairs_hex.
  - intros j. unfold parse_id. destruct (length s =? 32)%nat eqn:E; [|done].
    apply Nat.eqb_eq in E. cbn [negb]. intros Hp.
    apply id_to_string_parse in Hp as [? ?]; [done|lia].
Qed.

(** ** Witnesses *)

Definition wit_id : ID := (fun k => u8_of (Z.of_nat k + 250)) <$> seq 0 16.
Definition wit_hash : bytes := (fun k => u8_of (Z.of_nat k)) <$> seq 0 32.

