(* ===== verification/Prog.v ===== *)
(** * Prog

    Programs of the transfer layer.  [src/transfer/transfer.cpp] talks to the rest
    of the world through calls: [Conn::send] and [Conn::receive], [read_at] and
    [write_at] of the caller's object, the three callbacks of [Options], and the
    random id.  A [prog] is the tree of the calls it makes; a trace is the list of
    calls with their answers, and [replay] runs a program along a trace.  A theorem
    over all traces holds for every peer, every object and every callback. *)

From S2P Require Import Prelude Errors Result TransferCodec.

(** ** Programs *)

Inductive prog (A : Type) :=
  | Ret (a : A)
  | Undef                                                  (* undefined behaviour *)
  | OutOfFuel
  | ConnSend (m : bytes) (k : error_code -> prog A)        (* conn.send(m, ec) *)
  | ConnReceive (k : error_code -> bytes -> prog A)        (* m = conn.receive(ec) *)
  | ReadAt (off : Z) (n : nat) (k : error_code -> bytes -> prog A)   (* read_at(off, buf of n) *)
  | WriteAt (off : Z) (p : bytes) (k : error_code -> prog A)         (* write_at(off, p) *)
  | OnProgress (transferred total : Z) (k : prog A)
  | OnAccept (m : Meta) (k : error_code -> prog A)
  | Redial (k : option Z -> prog A)   (* redial: the max_message_bytes of the new connection *)
  | NewId (k : ID -> prog A).
Arguments Ret {A}. Arguments Undef {A}. Arguments OutOfFuel {A}. Arguments ConnSend {A}.
Arguments ConnReceive {A}. Arguments ReadAt {A}. Arguments WriteAt {A}. Arguments OnProgress {A}.
Arguments OnAccept {A}. Arguments Redial {A}. Arguments NewId {A}.

(** ** Calls with the tests the code makes on their results *)

Section Calls.
Context {A : Type}.

(** [conn.send(m, ec); if (ec) return err(ec);] *)
Definition send_or (m : bytes) (err : error_code -> prog A) (k : prog A) : prog A :=
  ConnSend m (fun ec => if ec_bool ec then err ec else k).

(** [msg = conn.receive(ec); if (ec) return err(ec);] *)
Definition receive_or (err : error_code -> prog A) (k : bytes -> prog A) : prog A :=
  ConnReceive (fun ec m => if ec_bool ec then err ec else k m).

(** [if (auto e = read_at(off, span(buf, n))) return err(e);] *)
Definition read_or (off : Z) (n : nat) (err : error_code -> prog A) (k : bytes -> prog A) : prog A :=
  ReadAt off n (fun ec buf => if ec_bool ec then err ec else k buf).

(** [if (auto e = decode_frame(msg, dec)) return err(e);] *)
Definition decode_or (m : bytes) (err : error_code -> prog A) (k : Decoded -> prog A) : prog A :=
  match decode_frame m with
  | Ok d => k d
  | Err e => err e
  | Ub => Undef
  end.

(** A frame of an encoder that reports no error. *)
Definition framed (r : result bytes) (k : bytes -> prog A) : prog A :=
  match r with
  | Ok b => k b
  | Err _ | Ub => Undef
  end.

(** A signed 64-bit sum: overflow is undefined. *)
Definition i64 (z : Z) (k : Z -> prog A) : prog A := if decide (is_int64 z) then k z else Undef.

(** [if (opts.on_progress) opts.on_progress(...)] *)
Definition progress (set : bool) (transferred total : Z) (k : prog A) : prog A :=
  if set then OnProgress transferred total k else k.

End Calls.

(** Continue with the result of a program. *)
Fixpoint pbind {A B} (p : prog A) (f : A -> prog B) : prog B :=
  match p with
  | Ret a => f a
  | Undef => Undef
  | OutOfFuel => OutOfFuel
  | ConnSend m k => ConnSend m (fun e => pbind (k e) f)
  | ConnReceive k => ConnReceive (fun e m => pbind (k e m) f)
  | ReadAt off n k => ReadAt off n (fun e b => pbind (k e b) f)
  | WriteAt off b k => WriteAt off b (fun e => pbind (k e) f)
  | OnProgress x y k => OnProgress x y (pbind k f)
  | OnAccept m k => OnAccept m (fun e => pbind (k e) f)
  | Redial k => Redial (fun b => pbind (k b) f)
  | NewId k => NewId (fun i => pbind (k i) f)
  end.

(** ** Traces *)

Inductive event :=
  | ESend (m : bytes) (ec : error_code)
  | EReceive (ec : error_code) (m : bytes)
  | ERead (off : Z) (n : nat) (ec : error_code) (buf : bytes)
  | EWrite (off : Z) (p : bytes) (ec : error_code)
  | EProgress (transferred total : Z)
  | EAccept (m : Meta) (ec : error_code)
  | ERedial (connected : option Z)
  | ENewId (i : ID).

#[export] Instance Meta_eq_dec : EqDecision Meta.
Proof. solve_decision. Defined.

(** What is left of the program after the trace, [None] when the trace is not one
    of its runs.  A buffer a read filled has the length asked for; an id has
    sixteen bytes. *)
Fixpoint replay {A} (p : prog A) (tr : list event) {struct tr} : option (prog A) :=
  match tr with
  | [] => Some p
  | ev :: tr' =>
      match p, ev with
      | ConnSend m k, ESend m' ec => if decide (m = m') then replay (k ec) tr' else None
      | ConnReceive k, EReceive ec m => replay (k ec m) tr'
      | ReadAt off n k, ERead off' n' ec buf =>
          if decide (off = off' /\ n = n' /\ length buf = n) then replay (k ec buf) tr' else None
      | WriteAt off b k, EWrite off' b' ec =>
          if decide (off = off' /\ b = b') then replay (k ec) tr' else None
      | OnProgress x y k, EProgress x' y' =>
          if decide (x = x' /\ y = y') then replay k tr' else None
      | OnAccept m k, EAccept m' ec => if decide (m = m') then replay (k ec) tr' else None
      | Redial k, ERedial b => replay (k b) tr'
      | NewId k, ENewId i => if decide (length i = kIdLen) then replay (k i) tr' else None
      | _, _ => None
      end
  end.

(** The calls of a kind, in order. *)
Definition sent (tr : list event) : list bytes :=
  omap (fun ev => match ev with ESend m _ => Some m | _ => None end) tr.
Definition received (tr : list event) : list bytes :=
  omap (fun ev => match ev with EReceive _ m => Some m | _ => None end) tr.
Definition writes (tr : list event) : list (Z * bytes) :=
  omap (fun ev => match ev with EWrite off b _ => Some (off, b) | _ => None end) tr.

(** ** Lemmas *)

Lemma replay_app {A} (p : prog A) t1 t2 :
  replay p (t1 ++ t2) = match replay p t1 with Some q => replay q t2 | None => None end.
Proof.
  revert p. induction t1 as [|ev t1 IH]; intros p; [done|].
  destruct p, ev; cbn; try reflexivity; repeat case_decide; auto.
Qed.

(** A run of a bind is a run of the first part, or one that continues after its result. *)
Lemma replay_bind {A B} (p : prog A) (f : A -> prog B) tr q :
  replay (pbind p f) tr = Some q ->
  (exists p', replay p tr = Some p' /\ q = pbind p' f)
  \/ exists t1 t2 a, tr = t1 ++ t2 /\ replay p t1 = Some (Ret a) /\ replay (f a) t2 = Some q.
Proof.
  revert p. induction tr as [|ev tr IH]; intros p H.
  { left. exists p. cbn in *. by simplify_eq. }
  destruct p as [a| | | | | | | | | |]; [by right; exists [], (ev :: tr), a|..].
  all: destruct ev; cbn in H; try done; repeat case_decide; try done.
  all: destruct (IH _ H) as [(p' & H1 & H2)|(t1 & t2 & x & -> & H1 & H2)].
  all: try (left; exists p'; cbn; by repeat case_decide).
  all: right; eexists (_ :: t1), t2, x; (split; [reflexivity|]); cbn; by repeat case_decide.
Qed.
