(* ===== verification/ProgLogic.v ===== *)
(** * ProgLogic

    A program logic for [prog]: [wp E I F p h Q] says that from the history [h],
    whatever answers allowed by [E] the calls of [p] get, the history satisfies [I]
    after every call, the program never runs into undefined behaviour, [F] holds of
    the history when it runs out of fuel and [Q] of its result and history when it
    returns.  [wp_adequate] turns it into a statement about traces. *)

From S2P Require Import Prelude Errors Result TransferCodec TransferCodecSpec Prog.

(** Use what a program promises about its next call. *)
Ltac next_call Hw :=
  match goal with
  | X : _ ?ev |- _ => lazymatch type of ev with event => first [destruct (Hw X) | destruct (Hw _ X) | destruct (Hw _ _ X)
                          | edestruct (Hw _ _ ltac:(eassumption) X)
                          | edestruct (Hw _ ltac:(eassumption) X)] end
  end.

Section Logic.
Context (E : event -> Prop) (I F : list event -> Prop).

(** One call: the invariant after it and the rest of the program. *)
Definition call (ev : event) (h : list event) (rest : list event -> Prop) : Prop :=
  E ev -> I (h ++ [ev]) /\ rest (h ++ [ev]).

Fixpoint wp {A} (p : prog A) (h : list event) (Q : A -> list event -> Prop) {struct p} : Prop :=
  match p with
  | Ret a => Q a h
  | Undef => False
  | OutOfFuel => F h
  | ConnSend m k => forall ec, call (ESend m ec) h (fun h' => wp (k ec) h' Q)
  | ConnReceive k => forall ec m, call (EReceive ec m) h (fun h' => wp (k ec m) h' Q)
  | ReadAt off n k => forall ec buf, length buf = n ->
      call (ERead off n ec buf) h (fun h' => wp (k ec buf) h' Q)
  | WriteAt off b k => forall ec, call (EWrite off b ec) h (fun h' => wp (k ec) h' Q)
  | OnProgress x y k => call (EProgress x y) h (fun h' => wp k h' Q)
  | OnAccept m k => forall ec, call (EAccept m ec) h (fun h' => wp (k ec) h' Q)
  | Redial k => forall c, call (ERedial c) h (fun h' => wp (k c) h' Q)
  | NewId k => forall i, length i = kIdLen -> call (ENewId i) h (fun h' => wp (k i) h' Q)
  end.

Lemma wp_mono {A} (p : prog A) h (Q Q' : A -> list event -> Prop) :
  (forall a h', Q a h' -> Q' a h') -> wp p h Q -> wp p h Q'.
Proof.
  intros HQ. revert h.
  induction p; intros h; cbn; unfold call; auto; intros Hw; intros;
    next_call Hw; auto.
Qed.

Lemma wp_bind {A B} (p : prog A) (f : A -> prog B) h Q :
  wp p h (fun a h' => wp (f a) h' Q) -> wp (pbind p f) h Q.
Proof.
  revert h. induction p; intros h; cbn; unfold call; auto; intros Hw; intros;
    next_call Hw; auto.
Qed.

(** What a trace can show of a program. *)
Definition outcome {A} (q : prog A) (h : list event) (Q : A -> list event -> Prop) : Prop :=
  match q with
  | Ret a => Q a h
  | Undef => False
  | OutOfFuel => F h
  | _ => True
  end.

Lemma wp_adequate {A} (p : prog A) h Q tr q :
  wp p h Q -> Forall E tr -> replay p tr = Some q ->
  (forall t1 t2, tr = t1 ++ t2 -> t1 <> [] -> I (h ++ t1)) /\ outcome q (h ++ tr) Q.
Proof.
  revert p h. induction tr as [|ev tr IH]; intros p h Hw He Hr.
  - cbn in Hr. simplify_eq. rewrite app_nil_r. split; [by intros [] ?|]. by destruct q.
  - apply Forall_cons in He as [He Htr].
    assert (Hx : exists p', replay p' tr = Some q /\ wp p' (h ++ [ev]) Q /\ I (h ++ [ev])).
    { destruct p, ev; cbn in Hr; try done; repeat case_decide; try done; destruct_and?; subst; cbn in Hw; unfold call in Hw.
      all: first [destruct (Hw He) | destruct (Hw _ He) | destruct (Hw _ _ He)
                            | edestruct (Hw _ _ ltac:(eassumption) He)
                            | edestruct (Hw _ ltac:(eassumption) He)| edestruct (Hw _ _ eq_refl He)]; eauto. }
    destruct Hx as (p' & Hr' & Hw' & Hi). destruct (IH p' (h ++ [ev]) Hw' Htr Hr') as [H1 H2].
    rewrite <- app_assoc in H2. split; [|exact H2].
    intros [|ev' t1] t2 Heq Hne; [done|]. injection Heq as -> ->.
    destruct (decide (t1 = [])) as [->|Ht]; [done|].
    specialize (H1 t1 t2 eq_refl Ht). by rewrite <- app_assoc in H1.
Qed.

(** ** The calls with their tests *)

Section Rules.
Context {A : Type} (h : list event) (Q : A -> list event -> Prop).

Lemma wp_send_or m err k :
  (forall ec, E (ESend m ec) -> I (h ++ [ESend m ec])
     /\ wp (if ec_bool ec then err ec else k) (h ++ [ESend m ec]) Q) ->
  wp (send_or m err k) h Q.
Proof. intros H ec He. by apply H. Qed.

Lemma wp_receive_or err k :
  (forall ec m, E (EReceive ec m) -> I (h ++ [EReceive ec m])
     /\ wp (if ec_bool ec then err ec else k m) (h ++ [EReceive ec m]) Q) ->
  wp (receive_or err k) h Q.
Proof. intros H ec m He. by apply H. Qed.

Lemma wp_read_or off n err k :
  (forall ec buf, length buf = n -> E (ERead off n ec buf) -> I (h ++ [ERead off n ec buf])
     /\ wp (if ec_bool ec then err ec else k buf) (h ++ [ERead off n ec buf]) Q) ->
  wp (read_or off n err k) h Q.
Proof. intros H ec buf Hl He. by apply H. Qed.

Lemma wp_progress set x y k :
  (forall ev, set = true -> ev = EProgress x y -> I (h ++ [ev]) /\ wp k (h ++ [ev]) Q) ->
  (set = false -> wp k h Q) -> wp (progress set x y k) h Q.
Proof. unfold progress. destruct set; intros H1 H2; [intros _; by apply H1|by apply H2]. Qed.

Lemma wp_i64 z k : is_int64 z -> wp (k z) h Q -> wp (i64 z k) h Q.
Proof. intros Hz Hk. unfold i64. by rewrite decide_True. Qed.

Lemma wp_decode_or m err k :
  wp (err bad_frame) h Q ->
  (forall f, frame_wf f -> m = frame_bytes f -> wp (k (decoded_of f)) h Q) ->
  wp (decode_or m err k) h Q.
Proof.
  intros He Hk. unfold decode_or. destruct (decode_frame_cases m) as [->|(f & Hw & ->)]; [done|].
  rewrite decode_frame_complete by done. auto.
Qed.

End Rules.

End Logic.

(** Running after an earlier history [h0]. *)
Definition after (h0 : list event) (P : list event -> Prop) (h : list event) : Prop :=
  exists t, h = h0 ++ t /\ P t.

Lemma wp_after E I F {A} (p : prog A) h0 h (Q : A -> list event -> Prop) :
  wp E I F p h Q ->
  wp E (after h0 I) (after h0 F) p (h0 ++ h) (fun a => after h0 (Q a)).
Proof.
  revert h. induction p; intros h Hw; cbn in *; unfold call in *; [by exists h|done|by exists h|..]; intros;
    rewrite <- ?app_assoc;
    next_call Hw; (split; [by eexists|]); auto.
Qed.

(** Weakening what is known of histories. *)
Lemma wp_weaken E (I I' F F' : list event -> Prop) {A} (p : prog A) h (Q Q' : A -> list event -> Prop) :
  (forall h, I h -> I' h) -> (forall h, F h -> F' h) -> (forall a h, Q a h -> Q' a h) ->
  wp E I F p h Q -> wp E I' F' p h Q'.
Proof.
  intros HI HF HQ. revert h. induction p; intros h; cbn; unfold call; auto; intros Hw; intros;
    next_call Hw; (split; [by apply HI|]); auto.
Qed.

(** The invariant holds at the end too, when it holds at the start. *)
Lemma wp_invariant E (I F : list event -> Prop) {A} (p : prog A) h (Q : A -> list event -> Prop) :
  I h -> wp E I F p h Q -> wp E I F p h (fun a h' => Q a h' /\ I h').
Proof.
  revert h. induction p; intros h Hi; cbn; unfold call; auto; intros Hw; intros;
    next_call Hw; (split; [done|]); auto.
Qed.

(** ** Safety alone

    [wlp I p h Q]: the history satisfies [I] after every call and [Q] at the end,
    whether or not the program is well defined and has enough fuel. *)

Section Partial.
Context (I : list event -> Prop).

Definition called (ev : event) (h : list event) (rest : list event -> Prop) : Prop :=
  I (h ++ [ev]) /\ rest (h ++ [ev]).

Fixpoint wlp {A} (p : prog A) (h : list event) (Q : A -> list event -> Prop) {struct p} : Prop :=
  match p with
  | Ret a => Q a h
  | Undef | OutOfFuel => True
  | ConnSend m k => forall ec, called (ESend m ec) h (fun h' => wlp (k ec) h' Q)
  | ConnReceive k => forall ec m, called (EReceive ec m) h (fun h' => wlp (k ec m) h' Q)
  | ReadAt off n k => forall ec buf, called (ERead off n ec buf) h (fun h' => wlp (k ec buf) h' Q)
  | WriteAt off b k => forall ec, called (EWrite off b ec) h (fun h' => wlp (k ec) h' Q)
  | OnProgress x y k => called (EProgress x y) h (fun h' => wlp k h' Q)
  | OnAccept m k => forall ec, called (EAccept m ec) h (fun h' => wlp (k ec) h' Q)
  | Redial k => forall c, called (ERedial c) h (fun h' => wlp (k c) h' Q)
  | NewId k => forall i, called (ENewId i) h (fun h' => wlp (k i) h' Q)
  end.

Lemma wlp_bind {A B} (p : prog A) (f : A -> prog B) h Q :
  wlp p h (fun a h' => wlp (f a) h' Q) -> wlp (pbind p f) h Q.
Proof. revert h. induction p; intros h; cbn; unfold called; naive_solver. Qed.

Lemma wlp_mono {A} (p : prog A) h (Q Q' : A -> list event -> Prop) :
  (forall a h', Q a h' -> Q' a h') -> wlp p h Q -> wlp p h Q'.
Proof. intros HQ. revert h. induction p; intros h; cbn; unfold called; naive_solver. Qed.

Lemma wlp_adequate {A} (p : prog A) h Q tr q :
  wlp p h Q -> replay p tr = Some q -> I h -> I (h ++ tr).
Proof.
  revert p h. induction tr as [|ev tr IH]; intros p h Hw Hr Hi; [by rewrite app_nil_r|].
  assert (Hx : exists p', replay p' tr = Some q /\ wlp p' (h ++ [ev]) Q /\ I (h ++ [ev])).
  { destruct p, ev; cbn in Hr; try done; repeat case_decide; try done; destruct_and?; subst;
      eexists; (split; [exact Hr|]); cbn in Hw; unfold called in Hw;
      first [destruct Hw | edestruct Hw | edestruct Hw]; (split; [eassumption|eassumption]). }
  destruct Hx as (p' & Hr' & Hw' & Hi'). specialize (IH _ _ Hw' Hr' Hi'). by rewrite <- app_assoc in IH.
Qed.

Lemma wlp_framed {A} r (k : bytes -> prog A) h Q :
  (forall b, r = Ok b -> wlp (k b) h Q) -> wlp (framed r k) h Q.
Proof. intros Hk. unfold framed. destruct r; try done. by apply Hk. Qed.

Lemma wlp_i64 {A} z (k : Z -> prog A) h Q : wlp (k z) h Q -> wlp (i64 z k) h Q.
Proof. intros Hk. unfold i64. by case_decide. Qed.

Lemma wlp_decode_or {A} m err (k : Decoded -> prog A) h Q :
  (forall e, wlp (err e) h Q) -> (forall f, frame_wf f -> m = frame_bytes f -> wlp (k (decoded_of f)) h Q) ->
  wlp (decode_or m err k) h Q.
Proof.
  intros He Hk. unfold decode_or. destruct (decode_frame_cases m) as [->|(f & Hw & ->)]; [apply He|].
  rewrite decode_frame_complete by done. auto.
Qed.

End Partial.
