(* ===== verification/Transfer.v ===== *)
(** * Transfer

    The transfer engine of [src/transfer/transfer.cpp]: options, the sender with its
    window, the receiver with its hashing writer, the final hash exchange and the
    retry loops, as programs over the calls of [Prog]. *)

From S2P Require Import Prelude Errors Result Crypto TransferCodec Prog.

(** ** Options *)

(** [struct Options]; a callback is given by whether it is set, its calls are
    events of the trace. *)
Record Options := MkOptions {
  chunk_size : Z;
  window : Z;
  ack_every : Z;
  max_attempts : Z;
  redial : bool;
  on_progress : bool;
  accept : bool
}.

Definition default_options : Options := MkOptions (Z.shiftl 256 10) 32 8 8 false false false.

Definition normalize (opts : option Options) : Options :=
  let d := default_options in
  match opts with
  | None => d
  | Some out =>
      MkOptions (if chunk_size out <=? 0 then chunk_size d else chunk_size out)
                (if window out <=? 0 then window d else window out)
                (if ack_every out <=? 0 then ack_every d else ack_every out)
                (if max_attempts out <=? 0 then max_attempts d else max_attempts out)
                (redial out) (on_progress out) (accept out)
  end.

Definition effective_chunk_size (max_message_bytes want : Z) : Z :=
  let max := max_message_bytes - Z.of_nat kChunkOverhead in
  let max := if max <? 1 then 1 else max in
  if (want <=? 0) || (want >? max) then max else want.

(** ** Errors *)

Definition terr (e : Transfer.errc) : error_code := Transfer.make_error_code e.

Definition map_conn_err (err : error_code) : error_code :=
  if negb (ec_bool err) then ec_none
  else if ec_eqb err (make_error_code Errc.closed) then terr Transfer.closed
  else err.

Definition is_retriable (err : error_code) : bool :=
  if negb (ec_bool err) then false
  else if ec_eqb err (terr Transfer.rejected) || ec_eqb err (terr Transfer.hash_mismatch)
     || ec_eqb err (terr Transfer.size_mismatch) || ec_eqb err (terr Transfer.resume_past_end)
     || ec_eqb err (terr Transfer.bad_frame) || ec_eqb err (make_error_code Errc.canceled)
     || ec_eqb err (make_error_code Errc.timed_out)
  then false
  else true.

(** The bytes of a message string. *)
Definition text (s : string) : bytes := String.list_byte_of_string s.

Definition count_in_flight (acked next_off chunk_size : Z) : result Z :=
  if next_off <=? acked then Ok 0
  else
    let remain := next_off - acked in
    if decide (is_int64 (remain + chunk_size)) then
      Ok (to_int (Z.quot (remain + chunk_size - 1) chunk_size))
    else Ub.

(** [path.substr(path.find_last_of("/\\") + 1)]. *)
Definition is_separator (c : u8) : bool := bool_decide (c = Byte.x2f) || bool_decide (c = Byte.x5c).

(** [find_last_of]: the position of the last separator. *)
Fixpoint find_last_of (path : bytes) : option nat :=
  match path with
  | [] => None
  | c :: rest =>
      match find_last_of rest with
      | Some i => Some (S i)
      | None => if is_separator c then Some 0%nat else None
      end
  end.

Definition path_base (path : bytes) : bytes :=
  match find_last_of path with
  | None => path
  | Some pos => drop (pos + 1) path
  end.

(** [new_id] on POSIX; [urandom]: the bytes [fread] got from /dev/urandom, [None] when
    it cannot be opened.  [NewId] of [Prog] answers with such an id. *)
Definition new_id (urandom : option bytes) : ID :=
  match urandom with
  | None => zero_id
  | Some b => take kIdLen b ++ replicate (kIdLen - length b) Byte.x00
  end.

Lemma length_new_id urandom : length (new_id urandom) = kIdLen.
Proof. destruct urandom; [|done]. cbn. rewrite length_app, length_take, length_replicate. unfold kIdLen. lia. Qed.

Section Engine.
Context {Sha : Sha256}.

(** Texts of the operating system's error codes. *)
Variable os_message : Z -> string.

Definition reason_of (ec : error_code) : bytes := text (ec_message os_message ec).

(** ** Hashing what is already there *)

(** [std::vector<std::uint8_t> buf(256 << 10)]. *)
Definition hash_buf : Z := Z.shiftl 256 10.

(** The loop of [hash_reader] and of the constructor of [HashingWriter]. *)
Fixpoint hash_loop {A} (fuel : nat) (off size : Z) (ctx : sha256_context)
    (err : error_code -> prog A) (k : sha256_context -> prog A) : prog A :=
  if off <? size then
    match fuel with
    | O => OutOfFuel
    | S fuel' =>
        let n := if hash_buf >? size - off then size - off else hash_buf in
        read_or off (Z.to_nat n) err (fun buf =>
          hash_loop fuel' (off + n) size (sha256_update ctx buf) err k)
    end
  else k ctx.

(** Enough for [size] bytes: one turn per buffer. *)
Definition hash_fuel (size : Z) : nat := Z.to_nat (size / hash_buf + 1).

Definition hash_reader {A} (size : Z) (err : error_code -> prog A) (k : bytes -> prog A) : prog A :=
  hash_loop (hash_fuel size) 0 size sha256_starts err (fun ctx => k (sha256_finish ctx)).

(** [class HashingWriter]. *)
Record HashingWriter := MkHashingWriter { hw_offset : Z; hw_ctx : sha256_context }.

(** The constructor; [reads]: the writer is also a [ReaderAt]. *)
Definition HashingWriter_new {A} (reads : bool) (resume : Z)
    (err : error_code -> prog A) (k : HashingWriter -> prog A) : prog A :=
  if resume >? 0 then
    if negb reads then err (terr Transfer.other)
    else hash_loop (hash_fuel resume) 0 resume sha256_starts err (fun ctx => k (MkHashingWriter resume ctx))
  else k (MkHashingWriter resume sha256_starts).

Definition hw_write_at {A} (hw : HashingWriter) (p : bytes) (off : Z)
    (err : error_code -> prog A) (k : HashingWriter -> prog A) : prog A :=
  if negb (off =? hw_offset hw) then err (terr Transfer.bad_frame)
  else WriteAt off p (fun ec =>
    if ec_bool ec then err ec
    else i64 (hw_offset hw + zlen p) (fun o => k (MkHashingWriter o (sha256_update (hw_ctx hw) p)))).

Definition hw_sum (hw : HashingWriter) : bytes := sha256_finish (hw_ctx hw).

(** ** The sender *)

Definition finish_send (meta : Meta) : prog error_code :=
  framed (encode_done (id meta) true (hash meta)) (fun done =>
  send_or done (fun ec => Ret (map_conn_err ec))
  (receive_or (fun ec => Ret (map_conn_err ec)) (fun msg =>
  decode_or msg Ret (fun dec =>
  if negb (bool_decide (d_typ dec = kTypeDone)) || negb (bool_decide (d_id dec = id meta)) then
    Ret (terr Transfer.bad_frame)
  else if negb (d_ok dec) then Ret (terr Transfer.hash_mismatch)
  else Ret ec_none)))).

(** Lines 503-517: fill the window. *)
Fixpoint send_chunks (fuel : nat) (meta : Meta) (chunk window acked next_off : Z)
    (k : Z -> prog error_code) : prog error_code :=
  match count_in_flight acked next_off chunk with
  | Ok flying =>
      if (flying <? window) && (next_off <? size meta) then
        match fuel with
        | O => OutOfFuel
        | S fuel' =>
            i64 (next_off + chunk) (fun sum =>
            let n := if sum >? size meta then size meta - next_off else chunk in
            read_or next_off (Z.to_nat n) Ret (fun buf =>
            framed (encode_chunk (id meta) next_off buf) (fun frame =>
            send_or frame (fun ec => Ret (map_conn_err ec))
              (send_chunks fuel' meta chunk window acked (next_off + n) k))))
        end
      else k next_off
  | Err _ | Ub => Undef
  end.

(** One turn per chunk of at least one byte. *)
Definition chunk_fuel (meta : Meta) (next_off : Z) : nat := Z.to_nat (size meta - next_off).

(** Lines 502-539: the loop over acknowledgements; [fuel] bounds the messages
    received. *)
Fixpoint send_loop (fuel : nat) (opts : Options) (meta : Meta) (chunk acked next_off : Z)
    : prog error_code :=
  if acked <? size meta then
    match fuel with
    | O => OutOfFuel
    | S fuel' =>
        send_chunks (chunk_fuel meta next_off) meta chunk (window opts) acked next_off (fun next =>
        receive_or (fun ec => Ret (map_conn_err ec)) (fun msg =>
        decode_or msg Ret (fun dec =>
        if bool_decide (d_typ dec = kTypeAck) then
          if negb (bool_decide (d_id dec = id meta)) || (d_offset dec <? acked) || (d_offset dec >? next) then
            Ret (terr Transfer.bad_frame)
          else
            progress (on_progress opts) (d_offset dec) (size meta)
              (send_loop fuel' opts meta chunk (d_offset dec) next)
        else if bool_decide (d_typ dec = kTypeAbort) then Ret (terr Transfer.aborted)
        else Ret (terr Transfer.bad_frame))))
    end
  else finish_send meta.

Definition send_once (fuel : nat) (max_message_bytes : Z) (meta : Meta) (opts : Options) : prog error_code :=
  let chunk := effective_chunk_size max_message_bytes (chunk_size opts) in
  match encode_offer meta with
  | Ub => Undef
  | Err e => Ret e
  | Ok offer =>
      send_or offer (fun ec => Ret (map_conn_err ec))
      (receive_or (fun ec => Ret (map_conn_err ec)) (fun msg =>
      decode_or msg Ret (fun dec =>
      if bool_decide (d_typ dec = kTypeReject) then
        if negb (bool_decide (d_id dec = id meta)) then Ret (terr Transfer.bad_frame)
        else Ret (terr Transfer.rejected)
      else if negb (bool_decide (d_typ dec = kTypeAccept)) || negb (bool_decide (d_id dec = id meta)) then
        Ret (terr Transfer.bad_frame)
      else
        let offset := d_offset dec in
        if (offset <? 0) || (offset >? size meta) then Ret (terr Transfer.resume_past_end)
        else
          progress (on_progress opts) offset (size meta)
            (if offset =? size meta then finish_send meta
             else send_loop fuel opts meta chunk offset offset))))
  end.

(** Lines 827-846: [left] attempts remain; [cur]: the current connection's
    [max_message_bytes]. *)
Fixpoint send_attempts (left fuel : nat) (cur : Z) (meta : Meta) (o : Options) (last_err : error_code)
    : prog error_code :=
  match left with
  | O => Ret (if ec_bool last_err then last_err else terr Transfer.too_many_retries)
  | S left' =>
      pbind (send_once fuel cur meta o) (fun err =>
      if negb (ec_bool err) then Ret ec_none
      else if negb (redial o) || negb (is_retriable err) then Ret err
      else Redial (fun conn =>
        match conn with
        | None => Ret (terr Transfer.other)
        | Some mm => send_attempts left' fuel mm meta o err
        end))
  end.

Definition send (fuel : nat) (max_message_bytes : Z) (meta : Meta) (opts : option Options) : prog error_code :=
  let o := normalize opts in
  if size meta <? 0 then Ret (terr Transfer.size_mismatch)
  else
    let with_id (k : Meta -> prog error_code) :=
      if bool_decide (id meta = zero_id)
      then NewId (fun i => k (MkMeta i (name meta) (size meta) (hash meta)))
      else k meta in
    with_id (fun meta1 =>
    let with_hash (k : Meta -> prog error_code) :=
      if is_zero_hash (hash meta1)
      then hash_reader (size meta1) Ret (fun h => k (MkMeta (id meta1) (name meta1) (size meta1) h))
      else k meta1 in
    with_hash (fun meta2 =>
    send_attempts (Z.to_nat (max_attempts o)) fuel max_message_bytes meta2 o ec_none)).

(** ** The receiver *)

Definition done_ok (meta : Meta) (dec : Decoded) (local : bytes) : bool :=
  let expect := if is_zero_hash (hash meta) then d_hash dec else hash meta in
  negb (negb (is_zero_hash expect) && negb (bool_decide (local = expect)))
  && negb (negb (is_zero_hash (d_hash dec)) && negb (bool_decide (d_hash dec = local))).

Definition verify_and_ack_done {A} (meta : Meta) (dec : Decoded) (local : bytes)
    (ret : error_code -> prog A) : prog A :=
  let ok := done_ok meta dec local in
  framed (encode_done (id meta) ok local) (fun done =>
  send_or done (fun ec => ret (map_conn_err ec))
  (if negb ok then ret (terr Transfer.hash_mismatch) else ret ec_none)).

(** What [receive_once] returns: the code, [out_meta], [written_out]. *)
Record received_once := MkReceived { r_err : error_code; r_meta : Meta; r_written : Z }.

(** Lines 651-699: the loop over chunks; [fuel] bounds the messages received.  The
    loop returns, or continues with the final hashing writer. *)
Fixpoint receive_loop (fuel : nat) (opts : Options) (meta : Meta) (hw : HashingWriter)
    (written chunks_since_ack : Z) (k : HashingWriter -> Z -> prog received_once)
    : prog received_once :=
  let ret err := Ret (MkReceived err meta written) in
  if written <? size meta then
    match fuel with
    | O => OutOfFuel
    | S fuel' =>
        receive_or (fun ec => ret (map_conn_err ec)) (fun msg =>
        decode_or msg ret (fun dec =>
        if bool_decide (d_typ dec = kTypeChunk) then
          if negb (bool_decide (d_id dec = id meta)) || negb (d_offset dec =? written) then
            ret (terr Transfer.bad_frame)
          else i64 (d_offset dec + zlen (d_data dec)) (fun sum =>
            if sum >? size meta then ret (terr Transfer.bad_frame)
            else
              hw_write_at hw (d_data dec) (d_offset dec)
                (fun e =>
                   framed (encode_abort (id meta) (reason_of e)) (fun abort =>
                   ConnSend abort (fun _ => ret e)))
                (fun hw' =>
                   let since := chunks_since_ack + 1 in
                   progress (on_progress opts) sum (size meta)
                     (if (since >=? ack_every opts) || (sum =? size meta) then
                        framed (encode_ack (id meta) sum) (fun ack =>
                        send_or ack (fun ec => Ret (MkReceived (map_conn_err ec) meta sum))
                          (receive_loop fuel' opts meta hw' sum 0 k))
                      else receive_loop fuel' opts meta hw' sum since k)))
        else if bool_decide (d_typ dec = kTypeDone) then
          if negb (bool_decide (d_id dec = id meta)) || negb (written =? size meta) then
            ret (terr Transfer.size_mismatch)
          else verify_and_ack_done meta dec (hw_sum hw) ret
        else if bool_decide (d_typ dec = kTypeAbort) then ret (terr Transfer.aborted)
        else ret (terr Transfer.bad_frame)))
    end
  else k hw written.

(** Lines 701-715, and 623-637: wait for the sender's [Done] and answer it. *)
Definition await_done (meta : Meta) (written : Z) (local : bytes) : prog received_once :=
  let ret err := Ret (MkReceived err meta written) in
  receive_or (fun ec => ret (map_conn_err ec)) (fun msg =>
  decode_or msg ret (fun dec =>
  if negb (bool_decide (d_typ dec = kTypeDone)) || negb (bool_decide (d_id dec = id meta)) then
    ret (terr Transfer.bad_frame)
  else verify_and_ack_done meta dec local ret)).

Definition receive_once (fuel : nat) (reads : bool) (resume_offset : Z) (want : option Meta) (opts : Options)
    : prog received_once :=
  let fail err := Ret (MkReceived err Meta_default resume_offset) in
  receive_or (fun ec => fail (map_conn_err ec)) (fun msg =>
  decode_or msg fail (fun dec =>
  if negb (bool_decide (d_typ dec = kTypeOffer)) then fail (terr Transfer.bad_frame)
  else
    let meta := d_meta dec in
    let ret err := Ret (MkReceived err meta resume_offset) in
    if match want with Some w => negb (bool_decide (id meta = id w)) | None => false end then
      framed (encode_reject (id meta) (text "unexpected transfer id")) (fun reject =>
      ConnSend reject (fun _ => fail (terr Transfer.bad_frame)))
    else if resume_offset >? size meta then
      framed (encode_reject (id meta) (text "resume past end")) (fun reject =>
      ConnSend reject (fun _ => ret (terr Transfer.resume_past_end)))
    else
      let go :=
        framed (encode_accept (id meta) resume_offset) (fun acc =>
        send_or acc (fun ec => ret (map_conn_err ec))
        (progress (on_progress opts) resume_offset (size meta)
        (if resume_offset =? size meta then
           (if reads then hash_reader (size meta) ret (await_done meta resume_offset)
            else await_done meta resume_offset zero_hash)
         else
           HashingWriter_new reads resume_offset
             (fun hec =>
                framed (encode_abort (id meta) (reason_of hec)) (fun abort =>
                ConnSend abort (fun _ => ret hec)))
             (fun hw =>
                receive_loop fuel opts meta hw resume_offset 0 (fun hw' written =>
                await_done meta written (hw_sum hw')))))) in
      if accept opts then
        OnAccept meta (fun aec =>
          if ec_bool aec then
            framed (encode_reject (id meta) (reason_of aec)) (fun reject =>
            ConnSend reject (fun _ => ret (terr Transfer.rejected)))
          else go)
      else go)).

(** Lines 877-909; [want]: the offer seen so far ([have_meta] and [meta]). *)
Fixpoint receive_attempts (left fuel : nat) (reads : bool) (written : Z) (want : option Meta)
    (o : Options) (last_err : error_code) : prog (error_code * Meta) :=
  let meta := default Meta_default want in
  match left with
  | O => Ret (if ec_bool last_err then last_err else terr Transfer.too_many_retries, meta)
  | S left' =>
      pbind (receive_once fuel reads written want o) (fun got =>
      let err := r_err got in
      if negb (ec_bool err) then Ret (ec_none, r_meta got)
      else
        let want' := if bool_decide (id (r_meta got) = zero_id) then want else Some (r_meta got) in
        let written' := if r_written got >? written then r_written got else written in
        if negb (redial o) || negb (is_retriable err) then Ret (err, default Meta_default want')
        else Redial (fun conn =>
          match conn with
          | None => Ret (terr Transfer.other, default Meta_default want')
          | Some _ => receive_attempts left' fuel reads written' want' o err
          end))
  end.

Definition receive (fuel : nat) (reads : bool) (resume_offset : Z) (opts : option Options)
    : prog (error_code * option Meta) :=
  let o := normalize opts in
  if resume_offset <? 0 then Ret (terr Transfer.resume_past_end, None)
  else pbind (receive_attempts (Z.to_nat (max_attempts o)) fuel reads resume_offset None o ec_none)
         (fun '(ec, m) => Ret (ec, Some m)).

End Engine.
