(* ===== verification/TransferReceive.v ===== *)
(** * TransferReceive

    The receiver against any peer: whatever messages arrive, whatever the object and
    the callbacks answer, the chunks it writes are contiguous, its
    acknowledgements tell what was written, it reports success only for the
    announced content, and it runs into no undefined behaviour. *)

From S2P Require Import Prelude Errors Wire Result Crypto TransferCodec TransferCodecSpec Prog ProgLogic Transfer.

(** ** Histories *)

(** The offset reached from [off] by the successful writes of a history, [None] when
    a write is not at the offset reached before it. *)
Fixpoint wrote (off : Z) (h : list event) : option Z :=
  match h with
  | [] => Some off
  | EWrite o b ec :: h' =>
      if o =? off then wrote (if ec_bool ec then off else off + zlen b) h' else None
  | _ :: h' => wrote off h'
  end.

Definition write_of (ev : event) : bytes :=
  match ev with EWrite _ b ec => if ec_bool ec then [] else b | _ => [] end.
Definition read_of (ev : event) : bytes :=
  match ev with ERead _ _ ec b => if ec_bool ec then [] else b | _ => [] end.
Definition is_receive (ev : event) : bool := match ev with EReceive _ _ => true | _ => false end.

Definition written_bytes (h : list event) : bytes := concat (write_of <$> h).
Definition read_bytes (h : list event) : bytes := concat (read_of <$> h).
Definition receives (h : list event) : nat := length (List.filter is_receive h).

Lemma wrote_app off h1 h2 :
  wrote off (h1 ++ h2) = match wrote off h1 with Some o => wrote o h2 | None => None end.
Proof.
  revert off. induction h1 as [|ev h1 IH]; intros off; [done|].
  destruct ev; cbn; try apply IH. by destruct (_ =? _).
Qed.

Lemma written_bytes_app h1 h2 : written_bytes (h1 ++ h2) = written_bytes h1 ++ written_bytes h2.
Proof. unfold written_bytes. by rewrite fmap_app, concat_app. Qed.
Lemma read_bytes_app h1 h2 : read_bytes (h1 ++ h2) = read_bytes h1 ++ read_bytes h2.
Proof. unfold read_bytes. by rewrite fmap_app, concat_app. Qed.
Lemma receives_app h1 h2 : receives (h1 ++ h2) = (receives h1 + receives h2)%nat.
Proof. unfold receives. by rewrite List.filter_app, length_app. Qed.

Lemma received_app h1 h2 : received (h1 ++ h2) = received h1 ++ received h2.
Proof. unfold received. by rewrite omap_app. Qed.

Lemma received_mono h t m : m ∈ received h -> m ∈ received (h ++ t).
Proof. rewrite received_app. set_solver. Qed.

(** The offset reached is the start plus the bytes written. *)
Lemma wrote_bytes off h o : wrote off h = Some o -> o = off + zlen (written_bytes h).
Proof.
  revert off. induction h as [|ev h IH]; intros off H; [cbn in *; simplify_eq; unfold zlen; cbn; lia|].
  destruct ev; cbn in H; try (by apply IH in H).
  destruct (_ =? _); [|done]. apply IH in H. unfold written_bytes in *. cbn [fmap list_fmap concat].
  rewrite H. unfold zlen. rewrite length_app. cbn [write_of]. destruct (ec_bool ec); cbn [length]; lia.
Qed.

(** Two frames with the same bytes decode alike. *)
Lemma frame_bytes_decoded f1 f2 :
  frame_wf f1 -> frame_wf f2 -> frame_bytes f1 = frame_bytes f2 -> decoded_of f1 = decoded_of f2.
Proof.
  intros H1 H2 E. pose proof (decode_frame_complete f1 H1) as D1.
  rewrite E, (decode_frame_complete f2 H2) in D1. by simplify_eq.
Qed.

(** ** The hash of what was read and written *)

Section Receiver.
Context {Sha : Sha256} {ShaL : Sha256Laws}.
Variable os_message : Z -> string.

Definition hashed (ctx : sha256_context) (d : bytes) : Prop :=
  exists l, ctx = sha256_updates sha256_starts l /\ concat l = d.

Lemma hashed_starts : hashed sha256_starts [].
Proof. by exists []. Qed.

Lemma hashed_update ctx d b : hashed ctx d -> hashed (sha256_update ctx b) (d ++ b).
Proof.
  intros (l & -> & <-). exists (l ++ [b]). unfold sha256_updates.
  rewrite foldl_app, concat_app. cbn. by rewrite app_nil_r.
Qed.

Lemma hashed_finish ctx d : hashed ctx d -> sha256_finish ctx = sha256 d.
Proof. intros (l & -> & <-). apply sha256_streaming. Qed.

(** [t] consists of reads. *)
Definition reads_only (t : list event) : Prop := Forall (fun ev => exists off n ec b, ev = ERead off n ec b) t.

Lemma reads_only_wrote o t : reads_only t -> wrote o t = Some o.
Proof. intros Ht. induction Ht as [|ev t (off & n & ec & b & ->) _ IH]; done. Qed.
Lemma reads_only_written t : reads_only t -> written_bytes t = [].
Proof. intros Ht. induction Ht as [|ev t (off & n & ec & b & ->) _ IH]; done. Qed.
Lemma reads_only_receives t : reads_only t -> receives t = 0%nat.
Proof. intros Ht. induction Ht as [|ev t (off & n & ec & b & ->) _ IH]; done. Qed.

(** [t] reads consecutive ranges from [off] on, successfully. *)
Fixpoint read_seq (off : Z) (t : list event) : Prop :=
  match t with
  | [] => True
  | ERead o n ec b :: t' => o = off /\ (0 < n)%nat /\ length b = n /\ ec_bool ec = false /\ read_seq (off + Z.of_nat n) t'
  | _ => False
  end.

(** No write fails, and no read fails or is empty. *)
Definition clean_event (ev : event) : Prop :=
  match ev with
  | EWrite _ _ ec => ec_bool ec = false
  | ERead _ n ec _ => (0 < n)%nat /\ ec_bool ec = false
  | _ => True
  end.
Definition clean (h : list event) : Prop := Forall clean_event h.

Lemma clean_snoc h ev : clean h -> clean_event ev -> clean (h ++ [ev]).
Proof. intros H1 H2. apply Forall_app. split; [done|by constructor]. Qed.

Lemma read_seq_clean off t : reads_only t -> read_seq off t -> clean t.
Proof.
  intros Ht. revert off. induction Ht as [|ev t (o & n & ec & b & ->) _ IH]; intros off; [constructor|].
  intros (_ & Hn & _ & He & Hs). constructor; [done|by eapply IH].
Qed.

(** The reads of a history are successful and cover the first [n] bytes in order. *)
Definition is_read (ev : event) : bool := match ev with ERead _ _ _ _ => true | _ => false end.
Definition read_whole (n : Z) (h : list event) : Prop :=
  read_seq 0 (List.filter is_read h) /\ zlen (read_bytes h) = n.

Lemma filter_reads_only t : reads_only t -> List.filter is_read t = t.
Proof. intros Ht. induction Ht as [|ev t (off & n & ec & b & ->) _ IH]; cbn; [done|by rewrite IH]. Qed.

Lemma read_whole_snoc n h ev :
  match ev with ERead _ _ _ _ => False | _ => True end -> read_whole n h -> read_whole n (h ++ [ev]).
Proof.
  intros Hev [H1 H2]. split.
  - rewrite List.filter_app. destruct ev; try done; cbn; by rewrite app_nil_r.
  - rewrite read_bytes_app. destruct ev; try done; unfold read_bytes; cbn; by rewrite app_nil_r.
Qed.

Section HashLoop.
Context (E : event -> Prop) (I F : list event -> Prop) {A : Type}.
Context (Iread : forall h off n ec b, I h -> I (h ++ [ERead off n ec b])).

Lemma wp_hash_loop fuel off size ctx d h err k (Q : A -> list event -> Prop) :
  hashed ctx d -> I h -> size - off <= Z.of_nat fuel * hash_buf ->
  (forall e t, ec_bool e = true -> reads_only t -> I (h ++ t) -> wp E I F (err e) (h ++ t) Q) ->
  (forall ctx' t, reads_only t -> hashed ctx' (d ++ read_bytes t) -> zlen (read_bytes t) = Z.max 0 (size - off) ->
     I (h ++ t) -> read_seq off t -> Forall E t -> wp E I F (k ctx') (h ++ t) Q) ->
  wp E I F (hash_loop fuel off size ctx err k) h Q.
Proof using Iread.
  revert off ctx d h. induction fuel as [|fuel IH]; intros off ctx d h Hc Hi Hf He Hk; cbn [hash_loop].
  all: destruct (off <? size) eqn:Ho; bool_to_prop.
  1: lia.
  1, 3: specialize (Hk ctx []); rewrite !app_nil_r in Hk; apply Hk; [constructor|done|cbn; unfold zlen; cbn; lia|done|done|constructor].
  set (n := if hash_buf >? size - off then size - off else hash_buf).
  assert (Hn : 0 < n /\ n <= size - off /\ (n = hash_buf \/ n = size - off)).
  { unfold n, hash_buf in *. change (Z.shiftl 256 10) with 262144 in *. destruct (_ >? _) eqn:Hg; bool_to_prop; lia. }
  apply wp_read_or. intros ec buf Hl Ee. set (ev := ERead off (Z.to_nat n) ec buf). split; [by apply Iread|].
  assert (Hone : reads_only [ev]) by (constructor; [by repeat eexists|constructor]).
  destruct (ec_bool ec) eqn:Hec; [apply He; [done|done|by apply Iread]|].
  assert (Hb : read_bytes [ev] = buf) by (unfold read_bytes; cbn; rewrite Hec; apply app_nil_r).
  apply (IH _ _ (d ++ buf)); [by apply hashed_update|by apply Iread| | |].
  - unfold hash_buf in *. change (Z.shiftl 256 10) with 262144 in *. nia.
  - intros e t H1 H2 H3. rewrite <- app_assoc in *. apply He; [done| |done]. by apply Forall_app.
  - intros ctx' t H1 H2 H3 H4 H5 H6. rewrite <- app_assoc in *.
    apply Hk; [by apply Forall_app| | |done| |by constructor].
    + by rewrite read_bytes_app, Hb.
    + rewrite read_bytes_app, Hb. unfold zlen in *. rewrite length_app. lia.
    + cbn. rewrite Z2Nat.id by lia. split_and!; try done. lia.
Qed.

End HashLoop.

(** ** The receiver *)

Section Once.
Context (reads : bool) (resume : Z) (fuel0 : nat).
Context (Hresume : 0 <= resume).

(** What is assumed of the environment: a message fits a record, and an announced
    size leaves room for it in 64 bits. *)
Definition renv (ev : event) : Prop :=
  match ev with
  | EReceive _ m => zlen m <= 2 ^ 20
      /\ match decode_frame m with Ok d => size (d_meta d) <= 2 ^ 62 | _ => True end
  | _ => True
  end.

(** An acknowledgement just sent names the offset reached. *)
Definition ack_true (h : list event) : Prop :=
  forall h' m ec i a, h = h' ++ [ESend m ec] -> frame_wf (FAck i a) -> m = frame_bytes (FAck i a) ->
    wrote resume h = Some a.

(** The hash the receiver compares: that of the content, or zeros when nothing
    is to be written and the object cannot be read. *)
Definition local_hash (h : list event) (meta : Meta) : bytes :=
  if reads || (resume <? size meta) then sha256 (read_bytes h ++ written_bytes h) else zero_hash.

(** The content announced by an offer is there and its hash is [dh]. *)
Definition verified (meta : Meta) (dh : bytes) (h : list event) : Prop :=
  frame_bytes (FOffer meta) ∈ received h
  /\ wrote resume h = Some (size meta)
  /\ dh = local_hash h meta
  /\ (is_zero_hash (hash meta) = false -> dh = hash meta)
  /\ (reads = true \/ 0 < resume < size meta -> read_whole resume h).

(** A positive [Done] just sent is about a verified content. *)
Definition done_true (h : list event) : Prop :=
  forall h' m ec i st dh, h = h' ++ [ESend m ec] -> frame_wf (FDone i st dh) -> m = frame_bytes (FDone i st dh) ->
    st <> Byte.x00 -> exists meta, id meta = i /\ meta_wf meta /\ verified meta dh h.

(** At any time the writes so far are contiguous, and the last acknowledgement and
    the last confirmation true. *)
Definition rinv (h : list event) : Prop := (exists o, wrote resume h = Some o) /\ ack_true h /\ done_true h.

Definition rfuel (h : list event) : Prop := (fuel0 <= receives h)%nat.

(** What success means. *)
Definition rsuccess (meta : Meta) (h : list event) : Prop :=
  (reads = true \/ 0 < resume < size meta -> read_whole resume h)
  /\ (is_zero_hash (hash meta) = false -> local_hash h meta = hash meta)
  /\ clean h
  /\ exists st dh, frame_bytes (FDone (id meta) st dh) ∈ received h
     /\ (is_zero_hash dh = false -> local_hash h meta = dh)
     /\ exists h' ec, h = h' ++ [ESend (frame_bytes (FDone (id meta) Byte.x01 (local_hash h meta))) ec].

Definition rpost (res : received_once) (h : list event) : Prop :=
  wrote resume h = Some (r_written res) /\ resume <= r_written res
  /\ (ec_bool (r_err res) = false -> r_written res = size (r_meta res) /\ rsuccess (r_meta res) h).

Lemma wrote_snoc h o ev :
  wrote resume h = Some o ->
  wrote resume (h ++ [ev]) =
    match ev with
    | EWrite o' b ec => if o' =? o then Some (if ec_bool ec then o else o + zlen b) else None
    | _ => Some o
    end.
Proof using. intros H. rewrite wrote_app, H. destruct ev; cbn; try done. Qed.

Lemma rinv_other h o ev :
  wrote resume h = Some o -> (match ev with ESend _ _ | EWrite _ _ _ => False | _ => True end) ->
  rinv (h ++ [ev]).
Proof using.
  intros H Hev. split_and!; [|intros h' m ec i a Heq; apply app_inj_tail in Heq as [_ ->]; done
    |intros h' m ec i st dh Heq; apply app_inj_tail in Heq as [_ ->]; done].
  exists o. rewrite (wrote_snoc _ _ _ H). by destruct ev.
Qed.

Lemma rinv_write h o b ec : wrote resume h = Some o -> rinv (h ++ [EWrite o b ec]).
Proof using.
  intros H. split_and!; [|intros h' m ec' i a Heq; by apply app_inj_tail in Heq as [_ ?]
    |intros h' m ec' i st dh Heq; by apply app_inj_tail in Heq as [_ ?]].
  rewrite (wrote_snoc _ _ _ H), Z.eqb_refl. eauto.
Qed.

Lemma rinv_send h o f ec :
  wrote resume h = Some o -> frame_wf f ->
  (d_typ (decoded_of f) = kTypeAck -> d_offset (decoded_of f) = o) ->
  (d_typ (decoded_of f) = kTypeDone -> d_ok (decoded_of f) = true ->
     exists meta, id meta = d_id (decoded_of f) /\ meta_wf meta
       /\ verified meta (d_hash (decoded_of f)) (h ++ [ESend (frame_bytes f) ec])) ->
  rinv (h ++ [ESend (frame_bytes f) ec]).
Proof using.
  intros H Hw Ha Hd. split_and!; [exists o; by rewrite (wrote_snoc _ _ _ H)|..].
  - intros h' m ec' i a Heq Hwf ->. apply app_inj_tail in Heq as [-> Heq]. injection Heq as Heq _.
    pose proof (frame_bytes_decoded _ _ Hw Hwf Heq) as Ed.
    rewrite (wrote_snoc _ _ _ H). rewrite Ed in Ha. cbn in Ha. by rewrite Ha.
  - intros h' m ec' i st dh Heq Hwf -> Hst. apply app_inj_tail in Heq as [-> Heq]. injection Heq as Heq _.
    pose proof (frame_bytes_decoded _ _ Hw Hwf Heq) as Ed. rewrite Ed in Hd. cbn in Hd.
    apply Hd; [done|]. by rewrite bool_decide_false.
Qed.

Notation wpr := (wp renv rinv rfuel).

(** An early return that only reports how far the writes got. *)
Lemma rpost_error h o e m :
  wrote resume h = Some o -> resume <= o -> ec_bool e = true -> rpost (MkReceived e m o) h.
Proof using. intros H1 H2 H3. split_and!; cbn; try done. by rewrite H3. Qed.

Lemma map_conn_err_bool ec : ec_bool ec = true -> ec_bool (map_conn_err ec) = true.
Proof using. intros H. unfold map_conn_err. rewrite H. cbn. by destruct (ec_eqb _ _). Qed.

Lemma read_bytes_snoc h ev :
  match ev with ERead _ _ _ _ => False | _ => True end -> read_bytes (h ++ [ev]) = read_bytes h.
Proof using. rewrite read_bytes_app. destruct ev; try done; intros _; apply app_nil_r. Qed.
Lemma written_bytes_snoc h ev :
  match ev with EWrite _ _ _ => False | _ => True end -> written_bytes (h ++ [ev]) = written_bytes h.
Proof using. rewrite written_bytes_app. destruct ev; try done; intros _; apply app_nil_r. Qed.

Lemma local_hash_snoc h ev meta :
  match ev with ERead _ _ _ _ | EWrite _ _ _ => False | _ => True end ->
  local_hash (h ++ [ev]) meta = local_hash h meta.
Proof using.
  intros H. unfold local_hash. rewrite read_bytes_snoc, written_bytes_snoc by (by destruct ev). done.
Qed.

Lemma done_ok_spec meta dec local :
  done_ok meta dec local = true ->
  (is_zero_hash (hash meta) = false -> local = hash meta)
  /\ (is_zero_hash (d_hash dec) = false -> local = d_hash dec).
Proof using.
  unfold done_ok. intros [H1 H2]%andb_true_iff. split; intros Hz.
  - rewrite Hz in H1. rewrite Hz in H1. cbn in H1. by bool_to_prop.
  - rewrite Hz in H2. cbn in H2. by bool_to_prop.
Qed.

Lemma wp_await_done meta written local h :
  wrote resume h = Some written -> resume <= written -> written = size meta ->
  length (id meta) = 16%nat -> length local = 32%nat -> local = local_hash h meta ->
  (reads = true \/ 0 < resume < size meta -> read_whole resume h) ->
  meta_wf meta -> frame_bytes (FOffer meta) ∈ received h -> clean h ->
  wpr (await_done meta written local) h rpost.
Proof.
  intros Hw Hle Hsz Hid Hlen Hloc Hrd Hmw Hoff Hcl. apply wp_receive_or. intros ec m Henv.
  split; [by eapply rinv_other|]. set (h1 := h ++ [EReceive ec m]).
  assert (Hw1 : wrote resume h1 = Some written) by (unfold h1; by rewrite (wrote_snoc _ _ _ Hw)).
  destruct (ec_bool ec) eqn:Hec; [apply rpost_error; auto using map_conn_err_bool|].
  apply wp_decode_or; [by apply rpost_error|]. intros f Hf ->.
  destruct (negb _ || negb _) eqn:Hg; [by apply rpost_error|]. bool_to_prop.
  destruct f as [| | | | |i st dh|]; cbn in *; try done. destruct Hf as [_ Hdh]. subst i.
  unfold verify_and_ack_done. rewrite encode_done_ok by done. set (dec := MkDecoded _ _ _ _ _ _ _ _).
  set (ok := done_ok meta dec local).
  apply wp_send_or. intros ec2 _. set (fr := FDone (id meta) (if ok then Byte.x01 else Byte.x00) local).
  set (h2 := h1 ++ [ESend (frame_bytes fr) ec2]).
  assert (Hw2 : wrote resume h2 = Some written) by (unfold h2; by rewrite (wrote_snoc _ _ _ Hw1)).
  assert (Hl2 : local_hash h2 meta = local).
  { unfold h2, h1. by rewrite !local_hash_snoc. }
  assert (Hrd2 : reads = true \/ 0 < resume < size meta -> read_whole resume h2).
  { intros Hr. unfold h2, h1. do 2 (apply read_whole_snoc; [done|]). auto. }
  split.
  { eapply (rinv_send _ _ fr); [done|done|done|]. intros _ Hst. exists meta. split_and!; [done|done|].
    assert (Hok : ok = true) by (destruct ok; done). apply done_ok_spec in Hok as [Hm _]. cbn [fr decoded_of d_hash].
    fold h2. unfold verified. rewrite Hl2, Hw2, Hsz. split_and!; [|done|done|done|done].
    unfold h2, h1, received. rewrite !omap_app. unfold received in Hoff. set_solver. }
  destruct (ec_bool ec2) eqn:Hec2; [apply rpost_error; auto using map_conn_err_bool|].
  destruct ok eqn:Hok; [|by apply rpost_error].
  apply done_ok_spec in Hok as [Hm Hd]. cbn in Hd.
  split_and!; [done|done|]. intros _. split; [done|]. cbn [r_meta]. unfold rsuccess. rewrite Hl2. split_and!.
  - done.
  - done.
  - unfold h2, h1. by do 2 (apply clean_snoc; [|done]).
  - exists st, dh. split_and!; [|done|by exists h1, ec2].
    unfold h2, h1, received. rewrite !omap_app. cbn. set_solver.
Qed.

(** The hashing writer agrees with the history. *)
Definition hw_agrees (hw : HashingWriter) (written : Z) (h : list event) : Prop :=
  hw_offset hw = written /\ hashed (hw_ctx hw) (read_bytes h ++ written_bytes h).

Lemma hw_agrees_snoc hw written h ev :
  match ev with ERead _ _ _ _ | EWrite _ _ _ => False | _ => True end ->
  hw_agrees hw written h -> hw_agrees hw written (h ++ [ev]).
Proof using.
  intros H [H1 H2]. split; [done|]. by rewrite read_bytes_snoc, written_bytes_snoc by (by destruct ev).
Qed.

Lemma length_hw_sum hw written h : hw_agrees hw written h -> length (hw_sum hw) = 32%nat.
Proof using ShaL. intros [_ H]. unfold hw_sum. rewrite (hashed_finish _ _ H). apply sha256_length. Qed.

(** The state of the loop between two messages. *)
Record loop_state (meta : Meta) (hw : HashingWriter) (written : Z) (h : list event) : Prop := {
  ls_wrote : wrote resume h = Some written;
  ls_from : resume <= written <= size meta;
  ls_hw : hw_agrees hw written h;
  ls_read : reads = true \/ 0 < resume < size meta -> read_whole resume h;
  ls_offer : frame_bytes (FOffer meta) ∈ received h;
  ls_clean : clean h
}.

Lemma loop_state_snoc meta hw written h ev :
  match ev with ERead _ _ _ _ | EWrite _ _ _ => False | _ => True end ->
  loop_state meta hw written h -> loop_state meta hw written (h ++ [ev]).
Proof using.
  intros H [H1 H2 H3 H4 H5 H6]. split; [|done|by apply hw_agrees_snoc| |by apply received_mono|apply clean_snoc; [done|by destruct ev]].
  - rewrite (wrote_snoc _ _ _ H1). by destruct ev.
  - intros Hr. apply read_whole_snoc; [by destruct ev|auto].
Qed.

(** A successful write of the next chunk. *)
Lemma loop_state_write meta hw written h b ec :
  ec_bool ec = false -> written + zlen b <= size meta -> loop_state meta hw written h ->
  loop_state meta (MkHashingWriter (written + zlen b) (sha256_update (hw_ctx hw) b)) (written + zlen b)
    (h ++ [EWrite written b ec]).
Proof using.
  intros Hec Hle [H1 H2 [H3 H4] H5 H6 H7]. pose proof (Zle_0_nat (length b)). split.
  - by rewrite (wrote_snoc _ _ _ H1), Z.eqb_refl, Hec.
  - unfold zlen in *. lia.
  - split; [done|]. cbn [hw_ctx]. rewrite written_bytes_app, read_bytes_snoc by done.
    rewrite app_assoc. replace (written_bytes [EWrite written b ec]) with b
      by (unfold written_bytes; cbn; by rewrite Hec, app_nil_r). by apply hashed_update.
  - intros Hr. apply read_whole_snoc; auto.
  - by apply received_mono.
  - by apply clean_snoc.
Qed.

Lemma frame_data_bound i o d ec :
  frame_wf (FChunk i o d) -> renv (EReceive ec (frame_bytes (FChunk i o d))) -> zlen d <= 2 ^ 20.
Proof using.
  intros [Hi _] [Hl _]. rewrite length_chunk_frame in Hl by done. lia.
Qed.

Context (opts : Options) (meta : Meta).
Context (Hid : length (id meta) = 16%nat) (Hsize : is_int64 (size meta)) (Hmax : size meta <= 2 ^ 62).

(** The write of a chunk at the next offset. *)
Lemma wp_write_chunk hw written d h k :
  zlen d <= 2 ^ 20 -> written + zlen d <= size meta -> loop_state meta hw written h ->
  (forall hw' h', loop_state meta hw' (written + zlen d) h' -> receives h' = receives h -> wpr (k hw') h' rpost) ->
  wpr (hw_write_at hw d written
         (fun e => framed (encode_abort (id meta) (reason_of os_message e)) (fun abort =>
                   ConnSend abort (fun _ => Ret (MkReceived e meta written)))) k) h rpost.
Proof.
  intros Hd Hle L Hk. pose proof (Zle_0_nat (length d)) as Hd0. destruct (ls_from _ _ _ _ L) as [Hlo Hhi].
  unfold hw_write_at. destruct (ls_hw _ _ _ _ L) as [Hoff _]. rewrite Hoff, Z.eqb_refl. cbn [negb].
  intros ec2 _. split; [by apply rinv_write, L|].
  destruct (ec_bool ec2) eqn:Hec2.
  { rewrite encode_abort_ok by done. intros ec3 _.
    assert (Hw : wrote resume (h ++ [EWrite written d ec2]) = Some written)
      by (by rewrite (wrote_snoc _ _ _ (ls_wrote _ _ _ _ L)), Z.eqb_refl, Hec2).
    split; [eapply rinv_send; [done| |done|done]; split; [done|apply clip_reason_len]|].
    apply rpost_error; [by rewrite (wrote_snoc _ _ _ Hw)|done|done]. }
  apply wp_i64; [unfold is_int64, zlen in *; lia|].
  apply Hk; [by apply loop_state_write|rewrite receives_app; cbn; lia].
Qed.

(** After it: the progress report and, when it is due, the acknowledgement. *)
Lemma wp_acknowledge hw w since h (loop : Z -> prog received_once) :
  is_int64 w -> loop_state meta hw w h ->
  (forall since' h', loop_state meta hw w h' -> receives h' = receives h -> wpr (loop since') h' rpost) ->
  wpr (progress (on_progress opts) w (size meta)
         (if (since + 1 >=? ack_every opts) || (w =? size meta) then
            framed (encode_ack (id meta) w) (fun ack =>
            send_or ack (fun ec => Ret (MkReceived (map_conn_err ec) meta w)) (loop 0))
          else loop (since + 1))) h rpost.
Proof.
  intros Hw L Hk.
  assert (Hgo : forall h', loop_state meta hw w h' -> receives h' = receives h ->
     wpr (if (since + 1 >=? ack_every opts) || (w =? size meta) then
            framed (encode_ack (id meta) w) (fun ack =>
            send_or ack (fun ec => Ret (MkReceived (map_conn_err ec) meta w)) (loop 0))
          else loop (since + 1)) h' rpost).
  { intros h' L' Hr. destruct (_ || _); [|by apply Hk]. rewrite encode_ack_ok by done.
    apply wp_send_or. intros ec _. split; [by eapply rinv_send; [apply L'|..]|].
    apply (loop_state_snoc _ _ _ _ (ESend (frame_bytes (FAck (id meta) w)) ec)) in L' as L2; [|done].
    destruct (ec_bool ec) eqn:Hec.
    - apply rpost_error; [apply L2|apply L2|by apply map_conn_err_bool].
    - apply Hk; [done|rewrite receives_app; cbn; lia]. }
  apply wp_progress; [|intros _; by apply Hgo].
  intros ev _ ->. split; [eapply rinv_other; [apply L|done]|].
  apply Hgo; [by apply loop_state_snoc|rewrite receives_app; cbn; lia].
Qed.

Lemma wp_receive_loop fuel hw written since h k :
  (fuel0 <= fuel + receives h)%nat -> loop_state meta hw written h ->
  (forall hw' h', loop_state meta hw' (size meta) h' -> wpr (k hw' (size meta)) h' rpost) ->
  wpr (receive_loop os_message fuel opts meta hw written since k) h rpost.
Proof.
  revert hw written since h. induction fuel as [|fuel IH]; intros hw written since h Hfuel L Hk; cbn [receive_loop].
  all: destruct (written <? size meta) eqn:Hlt; bool_to_prop.
  1: exact Hfuel.
  1, 3: destruct L as [L1 L2 L3 L4 L5 L6]; assert (written = size meta) as -> by lia; by apply Hk.
  apply wp_receive_or. intros ec m Henv. destruct (ls_from _ _ _ _ L) as [Hlo Hhi].
  split; [eapply rinv_other; [apply L|done]|].
  apply (loop_state_snoc _ _ _ _ (EReceive ec m)) in L; [|done].
  assert (Hf1 : (fuel0 <= fuel + receives (h ++ [EReceive ec m]))%nat) by (rewrite receives_app; cbn; lia).
  set (h1 := h ++ [EReceive ec m]) in *. clearbody h1.
  destruct (ec_bool ec) eqn:Hec; [apply rpost_error; [apply L|done|by apply map_conn_err_bool]|].
  apply wp_decode_or; [by apply rpost_error; [apply L|..]|]. intros f Hf ->.
  destruct f as [|i o|i r|i o d|i o|i st dh|i r]; cbn [decoded_of d_typ d_id d_offset d_data].
  all: repeat (case_bool_decide; try done); cbn [negb orb].
  all: try (by apply rpost_error; [apply L|..]).
  - (* a chunk *)
    destruct (o =? written) eqn:Ho; cbn [negb orb]; [|by apply rpost_error; [apply L|..]]. bool_to_prop. subst i o.
    pose proof (frame_data_bound _ _ _ _ Hf Henv) as Hd. pose proof (Zle_0_nat (length d)) as Hd0.
    apply wp_i64; [unfold is_int64, zlen in *; lia|].
    destruct (_ >? size meta) eqn:Hgt; [by apply rpost_error; [apply L|..]|]. bool_to_prop.
    apply wp_write_chunk; [done|done|done|]. intros hw2 h2 L2 Hr2.
    apply (wp_acknowledge hw2 _ since h2 (fun n => receive_loop os_message fuel opts meta hw2 _ n k));
      [unfold is_int64, zlen in *; lia|done|].
    intros since' h3 L3 Hr3. apply IH; [lia|done|done].
  - (* done too early *)
    guard_false (written =? size meta). by apply rpost_error; [apply L|..].
  - guard_false (written =? size meta). by apply rpost_error; [apply L|..].
Qed.

End Once.

Lemma wrote_reads resume h o t : wrote resume h = Some o -> reads_only t -> wrote resume (h ++ t) = Some o.
Proof using. intros H Ht. by rewrite wrote_app, H, reads_only_wrote. Qed.

Lemma rinv_reads reads resume h off n ec b : rinv reads resume h -> rinv reads resume (h ++ [ERead off n ec b]).
Proof using. intros [[o Ho] _]. by eapply rinv_other. Qed.

(** The loop's state at its start, with the existing content hashed. *)
Lemma loop_state_start reads resume meta h t ctx :
  0 <= resume < size meta -> wrote resume h = Some resume -> read_bytes h = [] -> written_bytes h = [] ->
  List.filter is_read h = [] -> reads_only t -> hashed ctx (read_bytes t) -> zlen (read_bytes t) = resume ->
  read_seq 0 t -> frame_bytes (FOffer meta) ∈ received h -> clean h ->
  loop_state reads resume meta (MkHashingWriter resume ctx) resume (h ++ t).
Proof using.
  intros Hr Hw Hrd Hwr Hno Ht Hh Hz Hs Hoff Hcl.
  split; [by apply wrote_reads|lia| | |by apply received_mono|apply Forall_app; split; [done|by eapply read_seq_clean]].
  - split; [done|]. rewrite read_bytes_app, written_bytes_app, Hrd, Hwr, (reads_only_written t Ht), app_nil_r.
    done.
  - intros _. split; [by rewrite List.filter_app, Hno, filter_reads_only|by rewrite read_bytes_app, Hrd].
Qed.

(** Before anything is read or written. *)
Record fresh (resume : Z) (h : list event) : Prop := {
  fr_wrote : wrote resume h = Some resume;
  fr_read : read_bytes h = [];
  fr_written : written_bytes h = [];
  fr_none : List.filter is_read h = [];
  fr_clean : clean h
}.

Lemma fresh_snoc resume h ev :
  match ev with ERead _ _ _ _ | EWrite _ _ _ => False | _ => True end ->
  fresh resume h -> fresh resume (h ++ [ev]).
Proof using.
  intros Hev [H1 H2 H3 H4 H5]. split.
  - rewrite (wrote_snoc _ _ _ _ H1). by destruct ev.
  - rewrite read_bytes_snoc by (by destruct ev). done.
  - rewrite written_bytes_snoc by (by destruct ev). done.
  - rewrite List.filter_app, H4. by destruct ev.
  - apply clean_snoc; [done|by destruct ev].
Qed.

Section ReceiveOnce.
Context (reads : bool) (resume : Z) (fuel : nat) (Hresume : 0 <= resume).
Notation wpr := (wp renv (rinv reads resume) (rfuel fuel)).
Notation post := (rpost reads resume).

Lemma fresh_error h e m : fresh resume h -> ec_bool e = true -> post (MkReceived e m resume) h.
Proof using. intros Hf He. apply rpost_error; [apply Hf|lia|done]. Qed.

(** Refusing an offer. *)
Lemma wp_refuse f (res : received_once) h :
  fresh resume h -> frame_wf f -> d_typ (decoded_of f) <> kTypeAck -> d_typ (decoded_of f) <> kTypeDone ->
  r_written res = resume -> ec_bool (r_err res) = true ->
  wpr (ConnSend (frame_bytes f) (fun _ => Ret res)) h post.
Proof using.
  intros Hh Hf Ht Ht2 Hw He ec _. split; [by eapply rinv_send; [apply Hh|..]|].
  destruct res as [e m w]. cbn in Hw, He. subst w. apply fresh_error; [by apply fresh_snoc|done].
Qed.

(** The content after an accepted offer. *)
Definition receive_content (opts : Options) (meta : Meta) : prog received_once :=
  let ret err := Ret (MkReceived err meta resume) in
  if resume =? size meta then
    (if reads then hash_reader (size meta) ret (await_done meta resume)
     else await_done meta resume zero_hash)
  else
    HashingWriter_new reads resume
      (fun hec => framed (encode_abort (id meta) (reason_of os_message hec)) (fun abort => ConnSend abort (fun _ => ret hec)))
      (fun hw => receive_loop os_message fuel opts meta hw resume 0 (fun hw' written =>
                 await_done meta written (hw_sum hw'))).

Lemma hash_fuel_enough size : 0 <= size -> size - 0 <= Z.of_nat (hash_fuel size) * hash_buf.
Proof using.
  intros H. unfold hash_fuel. assert (Hb : hash_buf = 262144) by done.
  pose proof (Z.div_mod size hash_buf ltac:(lia)). pose proof (Z.mod_pos_bound size hash_buf ltac:(lia)).
  pose proof (Z.div_pos size hash_buf H ltac:(lia)). rewrite Z2Nat.id by lia. nia.
Qed.

Lemma fresh_reads h t : fresh resume h -> reads_only t ->
  wrote resume (h ++ t) = Some resume /\ written_bytes (h ++ t) = [] /\ read_bytes (h ++ t) = read_bytes t.
Proof using.
  intros [H1 H2 H3 _ _] Ht. rewrite written_bytes_app, read_bytes_app, H2, H3, (reads_only_written t Ht).
  split_and!; [by apply wrote_reads|done|done].
Qed.

Lemma fresh_rinv h ev :
  fresh resume h -> match ev with ESend _ _ | EWrite _ _ _ => False | _ => True end -> rinv reads resume (h ++ [ev]).
Proof using. intros Hf. by eapply rinv_other, Hf. Qed.

Lemma wp_receive_content opts meta h :
  meta_wf meta -> resume <= size meta <= 2 ^ 62 -> frame_bytes (FOffer meta) ∈ received h ->
  fresh resume h -> rinv reads resume h -> wpr (receive_content opts meta) h post.
Proof.
  intros Hmw Hle Hoff Hh Hi. assert (Hmw' := Hmw). destruct Hmw' as (Hid & _ & Hsz & _). unfold receive_content.
  assert (Herr : forall e t, ec_bool e = true -> reads_only t -> post (MkReceived e meta resume) (h ++ t)).
  { intros e t He Ht. apply rpost_error; [apply (fresh_reads h t Hh Ht)|lia|done]. }
  destruct (resume =? size meta) eqn:Heq; bool_to_prop.
  - destruct reads eqn:Hrd.
    + unfold hash_reader. eapply wp_hash_loop; [apply rinv_reads|apply hashed_starts|done|apply hash_fuel_enough; lia| |].
      { intros e t He Ht _. by apply Herr. }
      intros ctx t Ht Hc Hz _ Hs _. destruct (fresh_reads h t Hh Ht) as (F1 & F2 & F3).
      rewrite (hashed_finish _ _ Hc). apply wp_await_done; try done;
        [apply sha256_length| | |by apply received_mono|apply Forall_app; split; [apply Hh|by eapply read_seq_clean]].
      * unfold local_hash. cbn [orb]. by rewrite F2, F3, app_nil_r.
      * intros _. split; [|rewrite F3; lia].
        by rewrite List.filter_app, (fr_none _ _ Hh), filter_reads_only.
    + apply wp_await_done; try done; [apply Hh| | |apply Hh].
      * unfold local_hash. by guard_false (resume <? size meta).
      * intros [?|?]; [done|lia].
  - assert (Hlt : 0 <= resume < size meta) by lia.
    assert (Hloop : forall ctx t, reads_only t -> hashed ctx (read_bytes t) -> zlen (read_bytes t) = resume ->
      read_seq 0 t -> wpr (receive_loop os_message fuel opts meta (MkHashingWriter resume ctx) resume 0 (fun hw' written =>
        await_done meta written (hw_sum hw'))) (h ++ t) post).
    { intros ctx t Ht Hc Hz Hs. apply wp_receive_loop; try done; [lia|lia| |].
      { apply loop_state_start; try done; apply Hh. }
      intros hw' h' [L1 L2 [L3 L4] L5 L6 L7]. apply wp_await_done; try done; [lia| |].
      - by eapply length_hw_sum.
      - unfold local_hash. guard_true (resume <? size meta). rewrite orb_true_r. by apply hashed_finish. }
    unfold HashingWriter_new. destruct (resume >? 0) eqn:Hpos; bool_to_prop.
    + destruct (negb reads) eqn:Hrd.
      * rewrite encode_abort_ok by done. apply wp_refuse; [done| |done..].
        split; [done|apply clip_reason_len].
      * eapply wp_hash_loop; [apply rinv_reads|apply hashed_starts|done|apply hash_fuel_enough; lia| |].
        { intros e t He Ht _. rewrite encode_abort_ok by done. intros ec _.
          destruct (fresh_reads h t Hh Ht) as (F1 & F2 & F3).
          split; [eapply rinv_send; [done| |done|done]; split; [done|apply clip_reason_len]|].
          apply rpost_error; [by rewrite (wrote_snoc _ _ _ _ F1)|lia|done]. }
        intros ctx t Ht Hc Hz _ Hs _. apply Hloop; [done|done|lia|done].
    + specialize (Hloop sha256_starts []). rewrite app_nil_r in Hloop. apply Hloop; [constructor|apply hashed_starts| |done].
      unfold read_bytes, zlen. cbn. lia.
Qed.

(** The whole attempt. *)
Lemma wp_receive_once want opts :
  wpr (receive_once os_message fuel reads resume want opts) [] post.
Proof.
  assert (H0 : fresh resume []) by (split; [done..|constructor]). unfold receive_once.
  apply wp_receive_or. intros ec m Henv. split; [by apply fresh_rinv|].
  apply (fresh_snoc _ _ (EReceive ec m)) in H0; [|done]. assert (Hin : m ∈ received ([] ++ [EReceive ec m])) by (apply list_elem_of_singleton; done).
  set (h := [] ++ [EReceive ec m]) in *. clearbody h.
  destruct (ec_bool ec) eqn:Hec; [apply fresh_error; auto using map_conn_err_bool|].
  apply wp_decode_or; [by apply fresh_error|]. intros f Hf ->.
  destruct (negb _) eqn:Ht; [by apply fresh_error|]. bool_to_prop.
  destruct f as [meta| | | | | |]; cbn in Ht; try done. cbn [decoded_of d_meta].
  destruct Henv as [_ Hmax]. rewrite decode_frame_complete in Hmax by done. cbn in Hmax.
  assert (Hmw : meta_wf meta) by exact Hf. destruct Hf as (Hid & Hh & Hsz & Hnm).
  destruct (match want with Some _ => _ | None => _ end) eqn:Hwant.
  { rewrite encode_reject_ok by done. apply wp_refuse; [done| |done..]. split; [done|apply clip_reason_len]. }
  destruct (resume >? size meta) eqn:Hpast; bool_to_prop.
  { rewrite encode_reject_ok by done. apply wp_refuse; [done| |done..]. split; [done|apply clip_reason_len]. }
  assert (Hgo : forall h1, fresh resume h1 -> frame_bytes (FOffer meta) ∈ received h1 ->
     wpr (framed (encode_accept (id meta) resume) (fun acc =>
          send_or acc (fun ec => Ret (MkReceived (map_conn_err ec) meta resume))
          (progress (on_progress opts) resume (size meta) (receive_content opts meta)))) h1 post).
  { intros h1 H1 Hin1. rewrite encode_accept_ok by done. apply wp_send_or. intros ec2 _.
    assert (Hi : rinv reads resume (h1 ++ [ESend (frame_bytes (FAccept (id meta) resume)) ec2]))
      by (eapply rinv_send; [apply H1|split; [done|unfold is_int64 in *; lia]|done|done]).
    split; [done|]. apply (fresh_snoc _ _ (ESend (frame_bytes (FAccept (id meta) resume)) ec2)) in H1; [|done].
    destruct (ec_bool ec2) eqn:Hec2; [apply fresh_error; auto using map_conn_err_bool|].
    apply wp_progress.
    - intros ev _ ->. assert (Hi2 := fresh_rinv _ (EProgress resume (size meta)) H1 Logic.I). split; [done|].
      apply wp_receive_content; try done; [by do 2 apply received_mono|by apply fresh_snoc].
    - intros _. apply wp_receive_content; try done. by apply received_mono. }
  destruct (accept opts); [|by apply Hgo].
  intros aec _. split; [by apply fresh_rinv|]. apply (fresh_snoc _ _ (EAccept meta aec)) in H0; [|done].
  destruct (ec_bool aec) eqn:Ha; [|apply Hgo; [done|by apply received_mono]].
  rewrite encode_reject_ok by done. apply wp_refuse; [done| |done..]. split; [done|apply clip_reason_len].
Qed.

End ReceiveOnce.

(** ** The retry loop *)

Section Retry.
Context (reads : bool) (resume : Z) (fuel : nat) (o : Options).

(** Where an attempt starts: at the beginning or on a new connection. *)
Definition attempt_start (h : list event) : Prop := h = [] \/ exists c h', h = h' ++ [ERedial c].

(** Over all attempts together the writes are contiguous; the part [h2] of the
    history is the current attempt, which started at the offset reached before. *)
Definition ainv (h : list event) : Prop :=
  exists h1 h2 r, h = h1 ++ h2 /\ attempt_start h1 /\ wrote resume h1 = Some r /\ 0 <= r /\ rinv reads r h2.
Definition afuel (h : list event) : Prop := (fuel <= receives h)%nat.
Definition apost (res : error_code * Meta) (h : list event) : Prop :=
  exists w, wrote resume h = Some w /\ resume <= w
    /\ (ec_bool (fst res) = false -> w = size (snd res) /\
         exists h1 h2 r, h = h1 ++ h2 /\ wrote resume h1 = Some r /\ rsuccess reads r (snd res) h2).

(** One attempt, seen from the whole history. *)
Lemma wp_receive_attempt want h r :
  0 <= r -> resume <= r -> wrote resume h = Some r -> attempt_start h ->
  wp renv ainv afuel (receive_once os_message fuel reads r want o) h
    (fun res h' => exists t, h' = h ++ t /\ wrote resume h' = Some (r_written res) /\ r <= r_written res
       /\ (ec_bool (r_err res) = false -> r_written res = size (r_meta res) /\ rsuccess reads r (r_meta res) t)).
Proof using ShaL.
  intros H0 Hr Hw Hst. pose proof (wp_receive_once reads r fuel H0 want o) as Hp.
  apply (wp_after _ _ _ _ h) in Hp. rewrite app_nil_r in Hp.
  assert (Hh : forall t w, wrote r t = Some w -> wrote resume (h ++ t) = Some w)
    by (intros t w Ht; by rewrite wrote_app, Hw).
  revert Hp. apply wp_weaken.
  - intros h' (t & -> & Ht). by exists h, t, r.
  - intros h' (t & -> & Ht). unfold afuel, rfuel in *. rewrite receives_app. lia.
  - intros res h' (t & -> & H1 & H2 & H3). exists t. auto.
Qed.

Lemma apost_error e m h w :
  wrote resume h = Some w -> resume <= w -> ec_bool e = true -> apost (e, m) h.
Proof using. intros H1 H2 H3. exists w. split_and!; [done|done|]. cbn [fst]. by rewrite H3. Qed.

Lemma wp_receive_attempts left written want last h :
  0 <= written -> resume <= written -> wrote resume h = Some written -> attempt_start h ->
  wp renv ainv afuel (receive_attempts os_message left fuel reads written want o last) h apost.
Proof using ShaL.
  revert written want last h. induction left as [|left IH]; intros written want last h H0 Hr Hw Hst; cbn [receive_attempts].
  { eapply apost_error; [done|done|]. by destruct (ec_bool last) eqn:E. }
  apply wp_bind. eapply wp_mono; [|by apply wp_receive_attempt].
  intros [e m w] h' (t & -> & H1 & H2 & H3); cbn [r_err r_meta r_written] in *.
  destruct (ec_bool e) eqn:He; cbn [negb].
  2: { exists w. split_and!; [done|lia|]. intros _. destruct (H3 eq_refl) as [-> Hs]. cbn.
       split; [done|]. by exists h, t, written. }
  assert (Hmax : (if w >? written then w else written) = w) by (destruct (w >? written) eqn:E; bool_to_prop; lia).
  rewrite Hmax. destruct (negb (redial o) || _).
  { eapply apost_error; [done|lia|done]. }
  intros c _. assert (Hw' : wrote resume ((h ++ t) ++ [ERedial c]) = Some w) by (by rewrite wrote_app, H1).
  split.
  { exists ((h ++ t) ++ [ERedial c]), [], w. rewrite app_nil_r. split_and!; [done|right; by exists c, (h ++ t)|done|lia|].
    split_and!; [by exists w|by intros [] ?|by intros [] ?]. }
  destruct c as [mm|]; [apply IH; [lia|lia|done|right; by exists (Some mm), (h ++ t)]|].
  eapply apost_error; [done|lia|done].
Qed.

End Retry.

(** ** Theorems *)

(** C6 (receive_once_correct).  One attempt to receive, against any peer, any object
    and any callbacks, for every trace of its calls: its writes are contiguous from
    the resume offset and its acknowledgements name exactly the offset written so
    far, at every moment, and it confirms with a positive [Done] only an offer whose
    content is there and has the announced hash; it never runs into undefined
    behaviour, and runs out of fuel only after that many messages; when it reports success, everything up to
    the announced size is written, the content (what was there before the resume
    offset, then what was written) has the announced hash and the hash in the
    sender's [Done] unless these are zero, and a positive [Done] with that hash was
    sent. *)
Theorem receive_once_correct (fuel : nat) (reads : bool) (resume : Z) (want : option Meta) (opts : Options)
    (tr : list event) (q : prog received_once) :
  0 <= resume -> Forall renv tr ->
  replay (receive_once os_message fuel reads resume want opts) tr = Some q ->
  (forall t1 t2, tr = t1 ++ t2 -> t1 <> [] -> (exists o, wrote resume t1 = Some o) /\ ack_true resume t1 /\ done_true reads resume t1)
  /\ match q with
     | Ret res =>
         wrote resume tr = Some (r_written res) /\ resume <= r_written res
         /\ (ec_bool (r_err res) = false ->
              r_written res = size (r_meta res) /\ rsuccess reads resume (r_meta res) tr)
     | Undef => False
     | OutOfFuel => (fuel <= receives tr)%nat
     | _ => True
     end.
Proof using ShaL.
  intros H0 He Hr.
  exact (wp_adequate _ _ _ _ [] _ tr q (wp_receive_once reads resume fuel H0 want opts) He Hr).
Qed.

(** [receive] with its retries, against any peers, object and
    callbacks: over all attempts together the writes are contiguous from the
    caller's resume offset, so nothing is skipped or written twice across
    reconnections, and every acknowledgement and confirmation is true of them, at
    every moment; there is no undefined behaviour; success means that everything
    up to the announced size is written and the last attempt verified it. *)
Theorem receive_resumes (fuel : nat) (reads : bool) (resume : Z) (opts : option Options)
    (tr : list event) (q : prog (error_code * option Meta)) :
  Forall renv tr ->
  replay (receive os_message fuel reads resume opts) tr = Some q ->
  (forall t1 t2, tr = t1 ++ t2 -> t1 <> [] -> ainv reads resume t1)
  /\ match q with
  | Ret (ec, m) =>
      resume < 0 /\ ec = terr Transfer.resume_past_end /\ m = None /\ tr = []
      \/ exists meta, m = Some meta /\ apost reads resume (ec, meta) tr
  | Undef => False
  | OutOfFuel => (fuel <= receives tr)%nat
  | _ => True
  end.
Proof using ShaL.
  intros He Hr. unfold receive in Hr. destruct (resume <? 0) eqn:Hneg; bool_to_prop.
  { destruct tr as [|ev tr]; [|by destruct ev]. cbn in Hr. simplify_eq. split; [by intros [] ?|left; auto]. }
  assert (Hp : wp renv (ainv reads resume) (afuel fuel)
     (pbind (receive_attempts os_message (Z.to_nat (max_attempts (normalize opts))) fuel reads resume None
        (normalize opts) ec_none) (fun '(ec, m) => Ret (ec, Some m))) []
     (fun res h => exists meta, snd res = Some meta /\ apost reads resume (fst res, meta) h)).
  { apply wp_bind. eapply wp_mono; [|apply wp_receive_attempts; [lia|lia|done|by left]].
    intros [ec m] h Hpost. exists m. auto. }
  destruct (wp_adequate _ _ _ _ [] _ tr q Hp He Hr) as [Hinv Ho]. split; [exact Hinv|].
  destruct q as [[ec m]| | | | | | | | | |]; try done. right. exact Ho.
Qed.

(** When nothing is left to receive and the object
    cannot be read back, no attempt succeeds for an offer that carries a hash: the
    receiver compares zeros with it.  This includes every empty file sent to a plain
    [WriterAt]. *)
Theorem unreadable_complete_fails (fuel : nat) (want : option Meta) (opts : Options) (resume : Z)
    (tr : list event) (res : received_once) :
  0 <= resume -> Forall renv tr ->
  replay (receive_once os_message fuel false resume want opts) tr = Some (Ret res) ->
  size (r_meta res) = resume -> is_zero_hash (hash (r_meta res)) = false ->
  ec_bool (r_err res) = true.
Proof using ShaL.
  intros H0 He Hr Hs Hz.
  destruct (wp_adequate _ _ _ _ [] _ tr _ (wp_receive_once false resume fuel H0 want opts) He Hr)
    as [_ (_ & _ & Hok)].
  destruct (ec_bool (r_err res)); [done|]. destruct (Hok eq_refl) as [_ (_ & Hh & _)].
  specialize (Hh Hz). unfold local_hash in Hh. rewrite Hs in Hh. rewrite Z.ltb_irrefl in Hh. cbn in Hh.
  rewrite <- Hh in Hz. by vm_compute in Hz.
Qed.

End Receiver.

(** ** Witnesses *)

Module Demo.
Import Toy.

Definition file : bytes := [Byte.x61; Byte.x62].
Definition file_id : ID := replicate 16 Byte.x07.
Definition file_meta : Meta := MkMeta file_id [Byte.x66] 2 (sha256 file).
Definition ok : error_code := ec_none.
Definition no_os (_ : Z) : string := "".

Definition opts : Options := MkOptions 1 4 1 8 false false false.

(** Two chunks of one byte, acknowledged one by one. *)
Definition trace : list event :=
  [EReceive ok (frame_bytes (FOffer file_meta));
   ESend (frame_bytes (FAccept file_id 0)) ok;
   EReceive ok (frame_bytes (FChunk file_id 0 [Byte.x61])); EWrite 0 [Byte.x61] ok;
   ESend (frame_bytes (FAck file_id 1)) ok;
   EReceive ok (frame_bytes (FChunk file_id 1 [Byte.x62])); EWrite 1 [Byte.x62] ok;
   ESend (frame_bytes (FAck file_id 2)) ok;
   EReceive ok (frame_bytes (FDone file_id Byte.x01 (sha256 file)));
   ESend (frame_bytes (FDone file_id Byte.x01 (sha256 file))) ok].

Definition renv_b (ev : event) : bool :=
  match ev with
  | EReceive _ m => (zlen m <=? 2 ^ 20)
      && match decode_frame m with Ok d => size (d_meta d) <=? 2 ^ 62 | _ => true end
  | _ => true
  end.

Lemma renv_b_ok tr : forallb renv_b tr = true -> Forall renv tr.
Proof.
  intros H. rewrite forallb_forall in H. apply Forall_forall. intros ev Hev. rewrite list_elem_of_In in Hev.
  specialize (H ev Hev). destruct ev; cbn in *; try done. apply andb_true_iff in H as [H1 H2].
  split; [by apply Z.leb_le|]. destruct (decode_frame m); try done. by apply Z.leb_le.
Qed.

End Demo.

Import Toy.

Lemma receive_once_correct_witness :
  replay (receive_once Demo.no_os 9 false 0 None Demo.opts) Demo.trace
    = Some (Ret (MkReceived ec_none Demo.file_meta 2))
  /\ wrote 0 Demo.trace = Some 2 /\ rsuccess false 0 Demo.file_meta Demo.trace.
Proof.
  assert (H : replay (receive_once Demo.no_os 9 false 0 None Demo.opts) Demo.trace
    = Some (Ret (MkReceived ec_none Demo.file_meta 2))) by (vm_compute; reflexivity).
  split; [exact H|].
  destruct (receive_once_correct Demo.no_os 9 false 0 None Demo.opts Demo.trace _ ltac:(lia)
    (Demo.renv_b_ok Demo.trace ltac:(vm_compute; reflexivity)) H) as [_ (H1 & _ & H2)].
  split; [exact H1|]. apply H2. reflexivity.
Defined.
