(* ===== verification/TransferSend.v ===== *)
(** * TransferSend

    The sender against any peer: whatever messages arrive, the chunks it puts on the
    connection are contiguous from the accepted offset and carry the source's bytes,
    never more than a window of them is unacknowledged, and success means that
    everything was acknowledged and the peer confirmed the hash. *)

From S2P Require Import Prelude Errors Wire Result Crypto.
From S2P Require Import TransferCodec TransferCodecSpec Prog ProgLogic Transfer TransferReceive.

(** ** Histories *)

(** The chunk a sent message carries. *)
Definition chunk_of (m : bytes) : option (Z * bytes) :=
  match decode_frame m with
  | Ok d => if bool_decide (d_typ d = kTypeChunk) then Some (d_offset d, d_data d) else None
  | _ => None
  end.

(** The acknowledgement a received message carries. *)
Definition ack_of (i : ID) (m : bytes) : option Z :=
  match decode_frame m with
  | Ok d => if bool_decide (d_typ d = kTypeAck) && bool_decide (d_id d = i) then Some (d_offset d) else None
  | _ => None
  end.

(** The resume offset of an [Accept]. *)
Definition accept_of (i : ID) (m : bytes) : option Z :=
  match decode_frame m with
  | Ok d => if bool_decide (d_typ d = kTypeAccept) && bool_decide (d_id d = i) then Some (d_offset d) else None
  | _ => None
  end.

(** Acknowledged and next offset along a history; [None] when a chunk is not at the
    next offset. *)
Definition track_event (i : ID) (st : Z * Z) (ev : event) : option (Z * Z) :=
  let '(acked, next) := st in
  match ev with
  | ESend m _ =>
      match chunk_of m with
      | Some (o, d) => if o =? next then Some (acked, next + zlen d) else None
      | None => Some st
      end
  | EReceive ec m =>
      match ack_of i m with
      | Some a => if negb (ec_bool ec) && (acked <=? a) && (a <=? next) then Some (a, next) else Some st
      | None => Some st
      end
  | _ => Some st
  end.

Fixpoint track (i : ID) (st : Z * Z) (h : list event) : option (Z * Z) :=
  match h with
  | [] => Some st
  | ev :: h' => match track_event i st ev with Some st' => track i st' h' | None => None end
  end.

Lemma track_app i st h1 h2 :
  track i st (h1 ++ h2) = match track i st h1 with Some st' => track i st' h2 | None => None end.
Proof. revert st. induction h1 as [|ev h1 IH]; intros st; cbn; [done|]. by destruct (track_event i st ev). Qed.

(** The chunks sent, in order. *)
Definition chunks (h : list event) : list (Z * bytes) := omap chunk_of (sent h).

Lemma chunks_app h1 h2 : chunks (h1 ++ h2) = chunks h1 ++ chunks h2.
Proof. unfold chunks, sent. by rewrite !omap_app. Qed.

Lemma chunk_of_frame f :
  frame_wf f -> chunk_of (frame_bytes f) = match f with FChunk _ o d => Some (o, d) | _ => None end.
Proof. intros Hf. unfold chunk_of. rewrite decode_frame_complete by done. destruct f; by try destruct (decide _). Qed.

Lemma ack_of_frame i f :
  frame_wf f -> ack_of i (frame_bytes f) = match f with FAck j a => if bool_decide (j = i) then Some a else None | _ => None end.
Proof. intros Hf. unfold ack_of. rewrite decode_frame_complete by done. by destruct f. Qed.

Lemma accept_of_frame i f :
  frame_wf f -> accept_of i (frame_bytes f) = match f with FAccept j a => if bool_decide (j = i) then Some a else None | _ => None end.
Proof. intros Hf. unfold accept_of. rewrite decode_frame_complete by done. by destruct f. Qed.

(** ** Arithmetic of the window *)

Lemma count_in_flight_spec acked next chunk win :
  0 < chunk < 2 ^ 31 -> 0 < win < 2 ^ 31 -> acked <= next -> next - acked <= win * chunk ->
  exists f, count_in_flight acked next chunk = Ok f /\ 0 <= f <= win
    /\ next - acked <= f * chunk /\ (f - 1) * chunk < Z.max 1 (next - acked).
Proof.
  intros Hc Hw Hle Hfly. unfold count_in_flight. destruct (next <=? acked) eqn:E; bool_to_prop.
  { exists 0. split_and!; done || lia. }
  assert (Hb : win * chunk < 2 ^ 62) by nia.
  rewrite decide_True by (unfold is_int64; lia).
  set (r := next - acked) in *. assert (Hr : 0 < r) by (unfold r; lia).
  rewrite Z.quot_div_nonneg by lia.
  pose proof (Z.div_mod (r + chunk - 1) chunk ltac:(lia)) as Hd.
  pose proof (Z.mod_pos_bound (r + chunk - 1) chunk ltac:(lia)) as Hm.
  set (q := (r + chunk - 1) / chunk) in *.
  assert (Hq : 0 <= q <= win) by (split; [apply Z.div_pos; lia|nia]).
  exists q. assert (to_int q = q) as -> by (unfold to_int; rewrite Z.mod_small by lia; lia). split_and!; try done; nia.
Qed.

(** ** The sender *)

Section Sender.
Context (data : bytes) (meta : Meta) (opts : Options) (chunk : Z) (fuel0 : nat).
Context (Hid : length (id meta) = 16%nat) (Hhash : length (hash meta) = 32%nat).
Context (Hsize : 0 <= size meta <= 2 ^ 62).
Context (Hchunk : 0 < chunk < 2 ^ 31) (Hwin : 0 < window opts < 2 ^ 31).

(** The source returns the bytes of [data]. *)
Definition senv (ev : event) : Prop :=
  match ev with
  | ERead off n ec buf => ec_bool ec = false -> buf = take n (drop (Z.to_nat off) data)
  | _ => True
  end.

Definition from_source (h : list event) : Prop :=
  Forall (fun '(o, d) => d = take (length d) (drop (Z.to_nat o) data)) (chunks h).

(** The accepted resume offset: that of the first [Accept] received. *)
Definition accepted (h : list event) : option Z :=
  head (omap (fun ev => match ev with EReceive _ m => accept_of (id meta) m | _ => None end) h).

Lemma accepted_app h t o : accepted h = Some o -> accepted (h ++ t) = Some o.
Proof. unfold accepted. rewrite omap_app. by destruct (omap _ h). Qed.

(** Every offer sent is that of [meta]. *)
Definition only_offer (h : list event) : Prop :=
  forall m, meta_wf m -> frame_bytes (FOffer m) ∈ sent h -> m = meta.

Lemma only_offer_snoc h ev :
  match ev with ESend m _ => exists f, frame_wf f /\ m = frame_bytes f
    /\ (forall x, f = FOffer x -> x = meta) | _ => True end ->
  only_offer h -> only_offer (h ++ [ev]).
Proof.
  intros Hev H m Hm Hin. unfold sent in Hin. rewrite omap_app, elem_of_app in Hin.
  destruct Hin as [Hin|Hin]; [by apply H|]. destruct ev; cbn in Hin; try (by apply not_elem_of_nil in Hin).
  apply list_elem_of_singleton in Hin as <-. destruct Hev as (f & Hf & Heq & Hx).
  pose proof (frame_bytes_decoded (FOffer m) f Hm Hf Heq) as Ed. destruct f; try done.
  cbn in Ed. injection Ed as _ <-. by apply Hx.
Qed.

(** Offered and accepted at [o0], acknowledged up to [a], sent up to [n]. *)
Record streaming (o0 a n : Z) (h : list event) : Prop := {
  st_accepted : accepted h = Some o0;
  st_track : track (id meta) (o0, o0) h = Some (a, n);
  st_order : 0 <= o0 <= a /\ a <= n <= size meta;
  st_window : n - a <= window opts * chunk;
  st_source : from_source h;
  st_offer : only_offer h
}.

(** At every moment: no other offer, chunks from the source, contiguous, within the
    window. *)
Definition sinv (h : list event) : Prop :=
  only_offer h /\ (chunks h = [] \/ exists o0 a n, streaming o0 a n h).

Definition sfuel (h : list event) : Prop := (fuel0 <= receives h)%nat.

(** What success means. *)
Definition spost (ec : error_code) (h : list event) : Prop :=
  ec_bool ec = false ->
  exists o0, streaming o0 (size meta) (size meta) h
    /\ frame_bytes (FDone (id meta) Byte.x01 (hash meta)) ∈ sent h
    /\ exists st dh, st <> Byte.x00 /\ length dh = 32%nat /\ frame_bytes (FDone (id meta) st dh) ∈ received h.

Notation wps := (wp senv sinv sfuel).

Lemma spost_error ec h : ec_bool ec = true -> spost ec h.
Proof. intros He ?. congruence. Qed.

Lemma streaming_inv o0 a n h : streaming o0 a n h -> sinv h.
Proof. intros S. split; [apply S|right]. by exists o0, a, n. Qed.

(** Events that carry no chunk and no acknowledgement. *)
Lemma streaming_other o0 a n h ev :
  match ev with
  | ESend m _ => exists i st dh, m = frame_bytes (FDone i st dh) /\ frame_wf (FDone i st dh)
  | EReceive _ _ => False
  | _ => True
  end ->
  streaming o0 a n h -> streaming o0 a n (h ++ [ev]).
Proof.
  intros Hev [H1 H2 H3 H4 H5 H6].
  assert (Hno : match ev with ESend m _ => chunk_of m = None | _ => True end).
  { destruct ev; try done. destruct Hev as (i & st & dh & -> & Hf). by rewrite chunk_of_frame. }
  split; try done.
  - by apply accepted_app.
  - rewrite track_app, H2. cbn. destruct ev; try done. cbn. by rewrite Hno.
  - unfold from_source in *. rewrite chunks_app. apply Forall_app. split; [done|].
    destruct ev; cbn; try constructor. unfold chunks. cbn. rewrite Hno. constructor.
  - apply only_offer_snoc; [|done]. destruct ev; try done. destruct Hev as (i & st & dh & -> & Hf).
    by exists (FDone i st dh).
Qed.

(** A message moves the acknowledged offset forward, or not at all. *)
Lemma streaming_receive o0 a n h ec m :
  streaming o0 a n h ->
  exists a', streaming o0 a' n (h ++ [EReceive ec m]) /\ a <= a'
    /\ forall x, ec_bool ec = false -> ack_of (id meta) m = Some x -> a <= x <= n -> a' = x.
Proof.
  intros [H1 H2 H3 H4 H5 H6]. apply (only_offer_snoc h (EReceive ec m)) in H6; [|done].
  assert (Hs : from_source (h ++ [EReceive ec m])).
  { unfold from_source in *. rewrite chunks_app. apply Forall_app. by split. }
  assert (Hk : forall a', track_event (id meta) (a, n) (EReceive ec m) = Some (a', n) ->
     0 <= o0 <= a' /\ a' <= n <= size meta -> n - a' <= window opts * chunk -> streaming o0 a' n (h ++ [EReceive ec m])).
  { intros a' Ht Ho Hw. split; [by apply accepted_app| |done|done|done|done]. rewrite track_app, H2. cbn -[track_event].
    by rewrite Ht. }
  cbn [track_event] in Hk. destruct (ack_of (id meta) m) as [x|]; [|exists a; split_and!; [by apply Hk|lia|done]].
  destruct (negb (ec_bool ec) && _ && _) eqn:Hg.
  - exists x. bool_to_prop. split_and!; [apply Hk; try done; lia|lia|]. intros. by simplify_eq.
  - exists a. split_and!; [by apply Hk|lia|]. intros y Hec [= <-] Hb. rewrite Hec in Hg. cbn in Hg.
    apply andb_false_iff in Hg as [Hg|Hg]; bool_to_prop; lia.
Qed.

Lemma receives_snoc h ev : receives (h ++ [ev]) = (receives h + Nat.b2n (is_receive ev))%nat.
Proof. rewrite receives_app. by destruct ev. Qed.

(** One more chunk of the source. *)
Lemma streaming_chunk o0 a n h off k buf m ec :
  streaming o0 a n h -> (0 < k)%nat -> n + Z.of_nat k <= size meta ->
  n + Z.of_nat k - a <= window opts * chunk -> length buf = k ->
  buf = take k (drop (Z.to_nat n) data) -> off = n -> m = frame_bytes (FChunk (id meta) off buf) ->
  streaming o0 a (n + Z.of_nat k) (h ++ [ESend m ec]).
Proof.
  intros [H1 H2 H3 H4 H5 H6] Hk Hle Hw Hl Hb -> ->.
  assert (Hc : chunk_of (frame_bytes (FChunk (id meta) n buf)) = Some (n, buf))
    by (rewrite chunk_of_frame; [done|split; [done|unfold is_int64; lia]]).
  split; try done; try lia.
  - by apply accepted_app.
  - rewrite track_app, H2. cbn -[frame_bytes]. rewrite Hc, Z.eqb_refl. unfold zlen. by rewrite Hl.
  - unfold from_source in *. rewrite chunks_app. apply Forall_app. split; [done|].
    unfold chunks. cbn -[frame_bytes]. rewrite Hc. apply Forall_singleton. by rewrite Hl.
  - apply only_offer_snoc; [|done]. exists (FChunk (id meta) n buf).
    split_and!; [split; [done|unfold is_int64; lia]|done|done].
Qed.

Lemma wp_send_chunks fuel o0 a n h k :
  size meta - n <= Z.of_nat fuel -> streaming o0 a n h ->
  (forall n' h', streaming o0 a n' h' -> receives h' = receives h -> wps (k n') h' spost) ->
  wps (send_chunks fuel meta chunk (window opts) a n k) h spost.
Proof.
  revert n h. induction fuel as [|fuel IH]; intros n h Hf S Hk; cbn [send_chunks].
  all: destruct (st_order _ _ _ _ S) as [Ho1 Ho2].
  all: destruct (count_in_flight_spec a n chunk (window opts) Hchunk Hwin ltac:(lia) (st_window _ _ _ _ S))
    as (f & -> & Hf1 & Hf2 & Hf3).
  all: destruct ((f <? window opts) && (n <? size meta)) eqn:Hg; [|by apply Hk]; bool_to_prop.
  1: lia.
  apply wp_i64; [unfold is_int64; lia|].
  set (len := if n + chunk >? size meta then size meta - n else chunk).
  assert (Hlen : 0 < len <= chunk /\ n + len <= size meta).
  { unfold len. destruct (_ >? _) eqn:E; bool_to_prop; lia. }
  apply wp_read_or. intros ec buf Hb Henv. set (ev := ERead n (Z.to_nat len) ec buf) in *.
  assert (S1 : streaming o0 a n (h ++ [ev])) by by apply streaming_other.
  split; [by eapply streaming_inv|].
  destruct (ec_bool ec) eqn:Hec; [by apply spost_error|]. specialize (Henv Hec).
  rewrite encode_chunk_ok by done. apply wp_send_or. intros ec2 _.
  assert (S2 : streaming o0 a (n + len) ((h ++ [ev]) ++ [ESend (frame_bytes (FChunk (id meta) n buf)) ec2])).
  { replace len with (Z.of_nat (Z.to_nat len)) by lia.
    eapply streaming_chunk; try done; try lia. nia. }
  split; [by eapply streaming_inv|].
  destruct (ec_bool ec2) eqn:Hec2; [by apply spost_error, map_conn_err_bool|].
  apply IH; [lia|done|]. intros n' h' S' Hr. apply Hk; [done|]. by rewrite Hr, !receives_snoc, !Nat.add_0_r.
Qed.

Lemma sent_snoc h m ec : m ∈ sent (h ++ [ESend m ec]).
Proof. unfold sent. rewrite omap_app. cbn. set_solver. Qed.
Lemma sent_mono h t m : m ∈ sent h -> m ∈ sent (h ++ t).
Proof. unfold sent. rewrite omap_app. set_solver. Qed.
Lemma received_snoc h m ec : m ∈ received (h ++ [EReceive ec m]).
Proof. unfold received. rewrite omap_app. cbn. set_solver. Qed.

Lemma wp_finish_send o0 h :
  streaming o0 (size meta) (size meta) h -> wps (finish_send meta) h spost.
Proof.
  intros S. unfold finish_send. rewrite encode_done_ok by done. set (f := FDone (id meta) Byte.x01 (hash meta)).
  assert (Hf : frame_wf f) by done. apply wp_send_or. intros ec _.
  apply (streaming_other _ _ _ _ (ESend (frame_bytes f) ec)) in S; [|by exists (id meta), Byte.x01, (hash meta)].
  pose proof (sent_snoc h (frame_bytes f) ec) as Hs. set (h1 := h ++ _) in *. clearbody h1.
  split; [by eapply streaming_inv|]. destruct (ec_bool ec) eqn:Hec; [by apply spost_error, map_conn_err_bool|].
  apply wp_receive_or. intros ec2 m _. destruct (streaming_receive _ _ _ _ ec2 m S) as (a' & S2 & Ha & _).
  assert (a' = size meta) as -> by (destruct S2; lia). split; [by eapply streaming_inv|].
  destruct (ec_bool ec2) eqn:Hec2; [by apply spost_error, map_conn_err_bool|].
  apply wp_decode_or; [by apply spost_error|]. intros g Hg ->.
  destruct (negb _ || negb _) eqn:Ht; [by apply spost_error|]. bool_to_prop.
  destruct g as [| | | | |i st dh|]; cbn in *; try done. subst i.
  destruct (bool_decide (st = Byte.x00)) eqn:Hst; [by apply spost_error|]. bool_to_prop.
  intros _. exists o0. split_and!; [done|by apply sent_mono|]. exists st, dh. split_and!; [done|apply Hg|apply received_snoc].
Qed.

Lemma wp_send_loop fuel o0 a n h :
  (fuel0 <= fuel + receives h)%nat -> streaming o0 a n h ->
  wps (send_loop fuel opts meta chunk a n) h spost.
Proof.
  revert a n h. induction fuel as [|fuel IH]; intros a n h Hf S; cbn [send_loop].
  all: destruct (a <? size meta) eqn:Hlt; bool_to_prop.
  1: exact Hf.
  1, 3: destruct (st_order _ _ _ _ S); assert (a = size meta /\ n = size meta) as [-> ->] by lia;
    by eapply wp_finish_send.
  apply wp_send_chunks with (o0 := o0); [unfold chunk_fuel; destruct (st_order _ _ _ _ S); lia|done|].
  intros n' h' S' Hr. apply wp_receive_or. intros ec m _.
  destruct (streaming_receive _ _ _ _ ec m S') as (a' & S2 & _ & Ha). split; [by eapply streaming_inv|].
  assert (Hf2 : (fuel0 <= fuel + receives (h' ++ [EReceive ec m]))%nat) by (rewrite receives_snoc, Hr; cbn; lia).
  set (h2 := h' ++ [EReceive ec m]) in *. clearbody h2.
  destruct (ec_bool ec) eqn:Hec; [by apply spost_error, map_conn_err_bool|].
  apply wp_decode_or; [by apply spost_error|]. intros f Hw ->. rewrite ack_of_frame in Ha by done.
  destruct f as [|i o|i r|i o d|i x|i st dh|i r]; cbn [decoded_of d_typ d_id d_offset].
  all: repeat (case_bool_decide; try done); cbn [negb orb]; try (by apply spost_error).
  destruct ((x <? a) || (x >? n')) eqn:Hg; [by apply spost_error|]. bool_to_prop.
  rewrite (Ha x eq_refl eq_refl ltac:(lia)) in S2.
  apply wp_progress.
  - intros ev _ ->. apply (streaming_other _ _ _ _ (EProgress x (size meta))) in S2; [|done].
    split; [by eapply streaming_inv|]. apply IH; [|done]. rewrite receives_snoc. cbn. lia.
  - intros _. by apply IH.
Qed.

(** Before the offer is accepted. *)
Lemma sinv_start h : only_offer h -> chunks h = [] -> sinv h.
Proof. split; [done|by left]. Qed.

Lemma chunks_receive h ec m : chunks (h ++ [EReceive ec m]) = chunks h.
Proof. rewrite chunks_app. apply app_nil_r. Qed.

Lemma streaming_accept h ec m o0 :
  only_offer h -> chunks h = [] -> accepted h = None -> (forall st, track (id meta) st h = Some st) ->
  accept_of (id meta) m = Some o0 -> ack_of (id meta) m = None -> 0 <= o0 <= size meta ->
  streaming o0 o0 o0 (h ++ [EReceive ec m]).
Proof.
  intros Hof Hc Ha Ht Hacc Hack Ho. split; try lia.
  - unfold accepted in *. rewrite omap_app. destruct (omap _ h); [|done]. cbn. by rewrite Hacc.
  - rewrite track_app, Ht. cbn. by rewrite Hack.
  - unfold from_source. rewrite chunks_receive, Hc. constructor.
  - by apply only_offer_snoc.
Qed.

Lemma wp_send_once max_message_bytes :
  chunk = effective_chunk_size max_message_bytes (chunk_size opts) ->
  wps (send_once fuel0 max_message_bytes meta opts) [] spost.
Proof.
  intros Hch. unfold send_once. rewrite <- Hch. clear Hch.
  destruct (zlen (name meta) >? 65535) eqn:Hn; bool_to_prop.
  { unfold encode_offer. guard_false (size meta <? 0). guard_true (zlen (name meta) >? 65535). by apply spost_error. }
  rewrite encode_offer_ok by lia. set (f := FOffer meta).
  assert (Hf : frame_wf f) by (split_and!; [done|done|unfold is_int64; lia|lia]).
  apply wp_send_or. intros ec _. set (ev := ESend (frame_bytes f) ec).
  assert (Hc : chunks ([] ++ [ev]) = []) by (unfold chunks; cbn -[frame_bytes]; by rewrite chunk_of_frame).
  assert (Ht : forall st, track (id meta) st ([] ++ [ev]) = Some st).
  { intros [a n]. cbn -[frame_bytes]. by rewrite chunk_of_frame. }
  assert (Ha : accepted ([] ++ [ev]) = None) by done.
  assert (Hr : receives ([] ++ [ev]) = 0%nat) by done.
  assert (Hof : only_offer ([] ++ [ev])).
  { apply only_offer_snoc; [|intros m _ Hin; by apply not_elem_of_nil in Hin].
    exists f. split_and!; [done|done|]. by intros x [= <-]. }
  split; [by apply sinv_start|]. set (h := [] ++ [ev]) in *. clearbody h.
  destruct (ec_bool ec) eqn:Hec; [by apply spost_error, map_conn_err_bool|].
  apply wp_receive_or. intros ec2 m _. split; [apply sinv_start; [by apply only_offer_snoc|by rewrite chunks_receive]|].
  destruct (ec_bool ec2) eqn:Hec2; [by apply spost_error, map_conn_err_bool|].
  apply wp_decode_or; [by apply spost_error|]. intros g Hg ->.
  pose proof (accept_of_frame (id meta) g Hg) as Hacc. pose proof (ack_of_frame (id meta) g Hg) as Hack.
  destruct g as [|i o|i r|i o d|i x|i st dh|i r]; cbn [decoded_of d_typ d_id d_offset].
  all: repeat (case_bool_decide; try done); cbn [negb orb]; try (by apply spost_error).
  destruct ((o <? 0) || (o >? size meta)) eqn:Ho; [by apply spost_error|]. bool_to_prop.
  assert (S : streaming o o o (h ++ [EReceive ec2 (frame_bytes (FAccept i o))]))
    by (apply streaming_accept; done || lia).
  set (h2 := h ++ _) in *.
  assert (Hr2 : receives h2 = 1%nat) by (unfold h2; rewrite receives_snoc, Hr; done). clearbody h2.
  assert (Hgo : forall h3, streaming o o o h3 -> wps (if o =? size meta then finish_send meta
      else send_loop fuel0 opts meta chunk o o) h3 spost).
  { intros h3 S3. destruct (o =? size meta) eqn:Heq; bool_to_prop; [subst o; by eapply wp_finish_send|].
    eapply wp_send_loop; [lia|done]. }
  apply wp_progress; [|intros _; by apply Hgo].
  intros ev3 _ ->. apply (streaming_other _ _ _ _ (EProgress o (size meta))) in S; [|done].
  split; [by eapply streaming_inv|by apply Hgo].
Qed.

End Sender.

(** ** Options *)

Lemma normalize_pos o :
  0 < chunk_size (normalize o) /\ 0 < window (normalize o) /\ 0 < ack_every (normalize o)
  /\ 0 < max_attempts (normalize o).
Proof.
  unfold normalize. destruct o as [o|]; [|done]. cbn -[Z.shiftl].
  split_and!; match goal with |- context [if ?b then _ else _] => destruct b eqn:?; bool_to_prop; try done; lia end.
Qed.

Lemma effective_chunk_range mm want : 0 < want -> 0 < effective_chunk_size mm want <= want.
Proof.
  intros H. unfold effective_chunk_size. cbv zeta. change (Z.of_nat kChunkOverhead) with 29.
  set (max := if mm - 29 <? 1 then 1 else mm - 29).
  assert (0 < max) by (unfold max; destruct (mm - 29 <? 1) eqn:?; bool_to_prop; lia).
  clearbody max. destruct (want <=? 0) eqn:E1; bool_to_prop; [lia|].
  destruct (want >? max) eqn:E2; cbn; bool_to_prop; lia.
Qed.

(** ** The retry loop *)

Lemma read_seq_source data off t :
  0 <= off -> read_seq off t -> Forall (senv data) t ->
  read_bytes t = take (length (read_bytes t)) (drop (Z.to_nat off) data).
Proof.
  revert off. induction t as [|ev t IH]; intros off Ho Hs He; [done|].
  destruct ev as [| |o n ec b| | | | |]; try done. destruct Hs as (<- & _ & Hl & Hec & Hs).
  apply Forall_cons in He as [Hb He]. specialize (Hb Hec). specialize (IH (o + Z.of_nat n) ltac:(lia) Hs He).
  unfold read_bytes in *. cbn [fmap list_fmap concat read_of]. rewrite Hec. rewrite length_app.
  rewrite <- take_take_drop, Hl, <- Hb, drop_drop. f_equal. etransitivity; [exact IH|].
  replace (Z.to_nat (o + Z.of_nat n)) with (Z.to_nat o + n)%nat by lia. done.
Qed.

Section Send.
Context {Sha : Sha256} {ShaL : Sha256Laws}.
Context (data : bytes) (fuel : nat) (opts : option Options).
Context (Hwin : is_int (window (normalize opts))) (Hchunk : is_int (chunk_size (normalize opts))).

Definition meta_ok (meta : Meta) : Prop :=
  length (id meta) = 16%nat /\ length (hash meta) = 32%nat /\ 0 <= size meta <= 2 ^ 62.

(** Where an attempt starts: nothing sent yet, or a new connection. *)
Definition boundary (h : list event) : Prop := sent h = [] \/ exists c h', h = h' ++ [ERedial c].

(** No attempt offered anything but [meta] or sent anything but the source. *)
Definition honest (meta : Meta) (h : list event) : Prop := only_offer meta h /\ from_source data h.

(** The part [h2] of the history is the current attempt. *)
Definition attempt_inv (meta : Meta) (h : list event) : Prop :=
  exists chunk h1 h2, h = h1 ++ h2 /\ boundary h1 /\ 0 < chunk <= chunk_size (normalize opts)
    /\ honest meta h1 /\ sinv data meta (normalize opts) chunk h2.
Definition attempt_post (meta : Meta) (ec : error_code) (h : list event) : Prop :=
  ec_bool ec = false ->
  exists chunk h1 h2, h = h1 ++ h2 /\ boundary h1 /\ honest meta h
    /\ spost data meta (normalize opts) chunk ec h2.
Definition send_fuel (h : list event) : Prop := (fuel <= receives h)%nat.

Lemma attempt_error meta ec h : ec_bool ec = true -> attempt_post meta ec h.
Proof using. intros He ?. congruence. Qed.

Lemma only_offer_none meta h : sent h = [] -> only_offer meta h.
Proof using. intros Hs m _ Hin. rewrite Hs in Hin. by apply not_elem_of_nil in Hin. Qed.

Lemma honest_none meta h : sent h = [] -> honest meta h.
Proof using. intros Hs. split; [by apply only_offer_none|]. unfold from_source, chunks. rewrite Hs. constructor. Qed.

Lemma honest_app meta h1 h2 : honest meta h1 -> honest meta h2 -> honest meta (h1 ++ h2).
Proof using.
  intros [H1 H2] [H3 H4]. split.
  - intros m Hm Hin. unfold sent in Hin. rewrite omap_app, elem_of_app in Hin.
    destruct Hin; [by apply H1|by apply H3].
  - unfold from_source in *. rewrite chunks_app. by apply Forall_app.
Qed.

Lemma sinv_honest meta chunk h : sinv data meta (normalize opts) chunk h -> honest meta h.
Proof using.
  intros [Ho Hc]. split; [done|]. destruct Hc as [Hc|(o0 & a & n & S)]; [|apply S].
  unfold from_source. rewrite Hc. constructor.
Qed.

Lemma sinv_nil meta chunk : sinv data meta (normalize opts) chunk [].
Proof using. apply sinv_start; [by apply only_offer_none|done]. Qed.

Lemma attempt_idle meta h : boundary h -> honest meta h -> attempt_inv meta h.
Proof using.
  intros Hb Ho. exists 1, h, []. rewrite app_nil_r. pose proof (normalize_pos opts).
  split_and!; [done|done|lia..|done|apply sinv_nil].
Qed.

Lemma wp_send_attempts left cur meta last h :
  meta_ok meta -> boundary h -> honest meta h ->
  wp (senv data) (attempt_inv meta) send_fuel (send_attempts left fuel cur meta (normalize opts) last) h
     (attempt_post meta).
Proof using Hwin Hchunk.
  intros (Hid & Hh & Hs). destruct (normalize_pos opts) as (Hc & Hw & _ & _). unfold is_int in *.
  revert cur last h. induction left as [|left IH]; intros cur last h Hb Hof; cbn [send_attempts].
  { apply attempt_error. by destruct (ec_bool last) eqn:E. }
  set (chunk := effective_chunk_size cur (chunk_size (normalize opts))).
  pose proof (effective_chunk_range cur _ Hc) as Hr. fold chunk in Hr.
  pose proof (wp_send_once data meta (normalize opts) chunk fuel Hid Hh Hs ltac:(lia) ltac:(lia) cur eq_refl) as Hp.
  apply wp_invariant, (wp_after _ _ _ _ h) in Hp; [|apply sinv_nil]. rewrite app_nil_r in Hp.
  apply wp_bind. revert Hp. apply wp_weaken.
  - intros h' (t & -> & Ht). by exists chunk, h, t.
  - intros h' (t & -> & Ht). unfold send_fuel, sfuel in *. rewrite receives_app. lia.
  - intros ec h' (t & -> & Ht & Hoft%sinv_honest). apply (honest_app _ h) in Hoft; [|done].
    destruct (ec_bool ec) eqn:He; cbn [negb].
    2: { intros _. exists chunk, h, t. split_and!; [done|done|done|]. intros _. by apply Ht. }
    destruct (negb (redial _) || _); [by apply attempt_error|].
    intros c _. assert (Hb' : boundary ((h ++ t) ++ [ERedial c])) by (right; by exists c, (h ++ t)).
    assert (Hof' : honest meta ((h ++ t) ++ [ERedial c])) by (apply honest_app; [done|by apply honest_none]).
    split; [by apply attempt_idle|]. destruct c as [mm|]; [by apply IH|by apply attempt_error].
Qed.

(** ** The whole of [send] *)

(** The metadata [send] offers: the id made up, the hash of the source computed. *)
Definition completed (meta meta' : Meta) : Prop :=
  meta_ok meta' /\ name meta' = name meta /\ size meta' = size meta
  /\ (id meta <> zero_id -> id meta' = id meta)
  /\ hash meta' = (if is_zero_hash (hash meta) then sha256 (take (Z.to_nat (size meta)) data) else hash meta).

Definition send_inv (meta : Meta) (h : list event) : Prop :=
  sent h = [] \/ exists meta', completed meta meta' /\ attempt_inv meta' h.
Definition send_post (meta : Meta) (ec : error_code) (h : list event) : Prop :=
  ec_bool ec = false -> exists meta', completed meta meta' /\ attempt_post meta' ec h.

Lemma send_post_error meta ec h : ec_bool ec = true -> send_post meta ec h.
Proof using. intros He ?. congruence. Qed.

Lemma wp_send_completed meta meta' n cur h :
  completed meta meta' -> sent h = [] ->
  wp (senv data) (send_inv meta) send_fuel (send_attempts n fuel cur meta' (normalize opts) ec_none) h
     (send_post meta).
Proof using Hwin Hchunk.
  intros Hc Hs. eapply wp_weaken; [| | |apply wp_send_attempts; [apply Hc|by left|by apply honest_none]].
  - intros h' Hi. right. by exists meta'.
  - done.
  - intros ec h' Hp _. by exists meta'.
Qed.

Lemma sent_reads h t : reads_only t -> sent (h ++ t) = sent h.
Proof using.
  intros Ht. unfold sent. rewrite omap_app. induction Ht as [|ev t (off & n & ec & b & ->) _ IH]; [apply app_nil_r|done].
Qed.

(** With the id in place: compute the hash if there is none. *)
Lemma wp_send_hash meta meta1 n cur h :
  length (id meta1) = 16%nat -> (id meta <> zero_id -> id meta1 = id meta) ->
  name meta1 = name meta -> size meta1 = size meta -> hash meta1 = hash meta ->
  length (hash meta) = 32%nat -> 0 <= size meta <= 2 ^ 62 -> sent h = [] ->
  wp (senv data) (send_inv meta) send_fuel
    (if is_zero_hash (hash meta1)
     then hash_reader (size meta1) Ret (fun hh =>
            send_attempts n fuel cur (MkMeta (id meta1) (name meta1) (size meta1) hh) (normalize opts) ec_none)
     else send_attempts n fuel cur meta1 (normalize opts) ec_none) h (send_post meta).
Proof using Hwin Hchunk ShaL.
  intros Hi1 Hi2 Hn Hsz Hh Hl Hs Hh0. rewrite Hh. destruct (is_zero_hash (hash meta)) eqn:Hz.
  - unfold hash_reader. eapply wp_hash_loop; [|apply hashed_starts|by left|apply hash_fuel_enough; lia| |].
    { intros h' off k ec b [Hi|(m' & Hm & c & h1 & h2 & -> & Hb & Hc & Ho1 & Hi)].
      - left. unfold sent in *. by rewrite omap_app, Hi.
      - right. exists m'. split; [done|]. exists c, h1, (h2 ++ [ERead off k ec b]). rewrite app_assoc.
        split_and!; [done|done|lia..|done|]. destruct Hi as [Hof Hi]. split; [by apply only_offer_snoc|].
        destruct Hi as [Hi|(o0 & a & nn & Hi)].
        + left. rewrite chunks_app, Hi. done.
        + right. exists o0, a, nn. by apply streaming_other. }
    { intros e t He _ _. by apply send_post_error. }
    intros ctx t Ht Hc Hlen _ Hseq Henv. apply wp_send_completed; [|by rewrite sent_reads].
    rewrite (hashed_finish _ _ Hc). unfold completed. rewrite Hz. cbn. rewrite Hsz in *.
    split_and!; [split_and!; [done|apply sha256_length|cbn; lia|cbn; lia]|done|done|done|].
    rewrite (read_seq_source data 0 t) by (done || lia). unfold zlen in Hlen. cbn. do 2 f_equal. lia.
  - apply wp_send_completed; [|done]. unfold completed. rewrite Hz. split_and!; try done.
    split_and!; [done|by rewrite Hh|lia|lia].
Qed.

Lemma wp_send meta mm :
  length (id meta) = 16%nat -> length (hash meta) = 32%nat -> size meta <= 2 ^ 62 ->
  wp (senv data) (send_inv meta) send_fuel (send fuel mm meta opts) [] (send_post meta).
Proof using Hwin Hchunk ShaL.
  intros Hi Hh Hs. unfold send. destruct (size meta <? 0) eqn:Hneg; bool_to_prop; [by apply send_post_error|].
  case_bool_decide as Hz.
  - intros i Hl _. split; [by left|]. by apply (wp_send_hash meta (MkMeta i (name meta) (size meta) (hash meta))).
  - by apply wp_send_hash.
Qed.

End Send.

(** ** Theorems *)

(** C7 (send_once_correct).  One attempt to send, against any peer and any callbacks,
    for every trace of its calls in which the source answers with the bytes of one
    content: nothing else than [meta] is offered, and at every moment either no chunk was sent, or the chunks sent are
    contiguous from the accepted resume offset and carry the source's bytes, and at
    most a window of chunks is unacknowledged; there is no undefined behaviour, and
    the fuel runs out only after that many messages; success means that the peer
    acknowledged everything up to the size, [Done] with the hash was sent and the
    peer answered with a positive [Done]. *)
Theorem send_once_correct (data : bytes) (fuel : nat) (mm : Z) (meta : Meta) (opts : Options)
    (tr : list event) (q : prog error_code) :
  length (id meta) = 16%nat -> length (hash meta) = 32%nat -> 0 <= size meta <= 2 ^ 62 ->
  0 < chunk_size opts < 2 ^ 31 -> 0 < window opts < 2 ^ 31 ->
  Forall (senv data) tr -> replay (send_once fuel mm meta opts) tr = Some q ->
  let chunk := effective_chunk_size mm (chunk_size opts) in
  (forall t1 t2, tr = t1 ++ t2 -> t1 <> [] -> sinv data meta opts chunk t1)
  /\ match q with
     | Ret ec => spost data meta opts chunk ec tr
     | Undef => False
     | OutOfFuel => (fuel <= receives tr)%nat
     | _ => True
     end.
Proof.
  intros Hi Hh Hs Hc Hw He Hr chunk. pose proof (effective_chunk_range mm _ (proj1 Hc)) as Hx. fold chunk in Hx.
  exact (wp_adequate _ _ _ _ [] _ tr q
    (wp_send_once data meta opts chunk fuel Hi Hh Hs ltac:(lia) Hw mm eq_refl) He Hr).
Qed.

(** [send] with its retries, for every trace in which the source
    answers with the bytes of one content: nothing is sent before the id and the hash
    are there and no attempt offers anything else, a missing hash is the SHA-256 of the first [size] bytes of the source,
    and on every connection the chunks are contiguous from the offset accepted there,
    carry the source's bytes and stay within the window, each at most the configured
    chunk size; no undefined behaviour; success means that the last attempt had
    everything acknowledged and confirmed. *)
Theorem send_resumes `{Sha : Sha256} `{ShaL : !Sha256Laws} (data : bytes) (fuel : nat) (mm : Z) (meta : Meta)
    (opts : option Options) (tr : list event) (q : prog error_code) :
  length (id meta) = 16%nat -> length (hash meta) = 32%nat -> size meta <= 2 ^ 62 ->
  is_int (window (normalize opts)) -> is_int (chunk_size (normalize opts)) ->
  Forall (senv data) tr -> replay (send fuel mm meta opts) tr = Some q ->
  (forall t1 t2, tr = t1 ++ t2 -> t1 <> [] -> send_inv data opts meta t1)
  /\ match q with
     | Ret ec => send_post data opts meta ec tr
     | Undef => False
     | OutOfFuel => (fuel <= receives tr)%nat
     | _ => True
     end.
Proof.
  intros Hi Hh Hs Hw Hc He Hr.
  exact (wp_adequate _ _ _ _ [] _ tr q (wp_send data fuel opts Hw Hc meta mm Hi Hh Hs) He Hr).
Qed.

Lemma effective_chunk_fits mm want : 30 <= mm -> effective_chunk_size mm want <= mm - 29.
Proof.
  intros Hm. unfold effective_chunk_size. cbv zeta. change (Z.of_nat kChunkOverhead) with 29.
  destruct (mm - 29 <? 1) eqn:E; bool_to_prop; [lia|].
  destruct (want <=? 0) eqn:E1; cbn; bool_to_prop; [lia|]. destruct (want >? _) eqn:E2; bool_to_prop; lia.
Qed.

(** On a connection whose message limit can carry a chunk at all,
    every chunk frame of the size the sender chooses is within the limit, for all
    options; and the choice is the configured size whenever that fits. *)
Theorem chunks_fit (mm want : Z) (i : ID) (off : Z) (buf : bytes) :
  30 <= mm -> length i = 16%nat -> zlen buf <= effective_chunk_size mm want ->
  (exists b, encode_chunk i off buf = Ok b /\ zlen b <= mm)
  /\ (0 < want <= mm - 29 -> effective_chunk_size mm want = want).
Proof.
  intros Hm Hi Hb. pose proof (effective_chunk_fits mm want Hm) as Hx. split.
  2: { intros Hw. unfold effective_chunk_size in *. cbv zeta in *. change (Z.of_nat kChunkOverhead) with 29 in *.
       destruct (mm - 29 <? 1) eqn:E; bool_to_prop; [lia|].
       destruct (want <=? 0) eqn:E1; cbn in *; bool_to_prop; [lia|]. destruct (want >? _) eqn:E2; bool_to_prop; lia. }
  rewrite encode_chunk_ok by done. eexists. split; [done|].
  unfold zlen in *. cbn. rewrite !length_app, ?be_bytes_length. cbn. lia.
Qed.

(** ** Witnesses *)

Module SendDemo.
Import Toy TransferReceive.Demo.

(** The source holds [file]; no id and no hash are given. *)
Definition blank : Meta := MkMeta zero_id [Byte.x66] 2 zero_hash.

(** Two chunks of one byte in the window, acknowledged together. *)
Definition session : list event :=
  [ESend (frame_bytes (FOffer file_meta)) ok;
   EReceive ok (frame_bytes (FAccept file_id 0));
   ERead 0 1 ok [Byte.x61]; ESend (frame_bytes (FChunk file_id 0 [Byte.x61])) ok;
   ERead 1 1 ok [Byte.x62]; ESend (frame_bytes (FChunk file_id 1 [Byte.x62])) ok;
   EReceive ok (frame_bytes (FAck file_id 2));
   ESend (frame_bytes (FDone file_id Byte.x01 (sha256 file))) ok;
   EReceive ok (frame_bytes (FDone file_id Byte.x01 (sha256 file)))].

(** The id is made up and the source hashed first. *)
Definition whole : list event := [ENewId file_id; ERead 0 2 ok file] ++ session.

Definition senv_b (ev : event) : bool :=
  match ev with
  | ERead off n ec buf => ec_bool ec || bool_decide (buf = take n (drop (Z.to_nat off) file))
  | _ => true
  end.

Lemma senv_b_ok tr : forallb senv_b tr = true -> Forall (senv file) tr.
Proof.
  intros H. rewrite forallb_forall in H. apply Forall_forall. intros ev Hev. rewrite list_elem_of_In in Hev.
  specialize (H ev Hev). destruct ev; cbn in *; try done. intros Hec. rewrite Hec in H. by apply bool_decide_eq_true in H.
Qed.

End SendDemo.

Import Toy.

Lemma send_once_correct_witness :
  let chunk := effective_chunk_size 65536 (chunk_size Demo.opts) in
  replay (send_once 9 65536 Demo.file_meta Demo.opts) SendDemo.session = Some (Ret ec_none)
  /\ exists o0, streaming Demo.file Demo.file_meta Demo.opts chunk o0 2 2 SendDemo.session.
Proof.
  assert (H : replay (send_once 9 65536 Demo.file_meta Demo.opts) SendDemo.session = Some (Ret ec_none))
    by (vm_compute; reflexivity).
  split; [exact H|].
  destruct (send_once_correct Demo.file 9 65536 Demo.file_meta Demo.opts SendDemo.session _
    eq_refl eq_refl ltac:(cbn; lia) ltac:(cbn; lia) ltac:(cbn; lia)
    (SendDemo.senv_b_ok SendDemo.session ltac:(vm_compute; reflexivity)) H) as [_ H1].
  destruct (H1 eq_refl) as (o0 & H2 & _). exists o0. exact H2.
Defined.
