(* ===== verification/Net.v ===== *)
(** * Net

    Two programs of [Prog] joined by two connections that deliver every message once
    and in order (what [ConnReader.duplex_delivery] shows of [Conn]), each with its
    limit on the size of a message, the sender with
    a source it reads and the receiver with an object it reads and writes.  Any
    interleaving is a run; since a message in a queue cannot be taken back, all runs
    from a state end in the same state after the same number of steps. *)

From stdpp Require Import relations.
From S2P Require Import Prelude Errors Result TransferCodec Prog.

(** ** The object *)

(** Reading past the end fails, as in [FileReaderAt::read_at]. *)
Definition read_object (obj : bytes) (off : Z) (n : nat) : error_code * bytes :=
  let buf := take n (drop (Z.to_nat off) obj) in
  if decide (length buf = n) then (ec_none, buf)
  else (Transfer.make_error_code Transfer.other, buf ++ replicate (n - length buf) Byte.x00).

(** Writing past the end fills the gap with zeros. *)
Definition write_object (obj : bytes) (off : Z) (p : bytes) : bytes :=
  let o := Z.to_nat off in
  take o (obj ++ replicate (o - length obj) Byte.x00) ++ p ++ drop (o + length p) obj.

(** ** One program *)

(** The size test of [Conn::send_for] and of the reader thread, against the limit
    [max_message_bytes] of the connection. *)
Definition fits (lim : Z) (m : bytes) : bool := negb (to_int (zlen m) >? lim).

Lemma fits_le lim m : zlen m <= lim -> lim < 2 ^ 31 -> fits lim m = true.
Proof.
  intros H1 H2. unfold fits, to_int. apply negb_true_iff. rewrite Z.gtb_ltb, Z.ltb_ge.
  assert (0 <= zlen m) by (unfold zlen; lia). rewrite Z.mod_small by lia. lia.
Qed.

(** A call of the program over a connection with the limit [lim]: the rest, the
    object, the messages left and those sent.  A message above the limit is refused
    by [send] and nothing is sent; one that arrives ends the reading with the same
    error, so every later [receive] returns it too.
    Callbacks return success, there is no other connection to dial. *)
Definition step_prog {A} (lim : Z) (p : prog A) (obj : bytes) (inbox : list bytes)
    : option (prog A * bytes * list bytes * list bytes) :=
  match p with
  | ConnSend m k =>
      if fits lim m then Some (k ec_none, obj, inbox, [m])
      else Some (k (make_error_code Errc.message_too_large), obj, inbox, [])
  | ConnReceive k =>
      match inbox with
      | m :: rest =>
          if fits lim m then Some (k ec_none m, obj, rest, [])
          else Some (k (make_error_code Errc.message_too_large) [], obj, inbox, [])
      | [] => None
      end
  | ReadAt off n k => let '(ec, buf) := read_object obj off n in Some (k ec buf, obj, inbox, [])
  | WriteAt off b k => Some (k ec_none, write_object obj off b, inbox, [])
  | OnProgress _ _ k => Some (k, obj, inbox, [])
  | OnAccept _ k => Some (k ec_none, obj, inbox, [])
  | Redial k => Some (k None, obj, inbox, [])
  | Ret _ | Undef | OutOfFuel | NewId _ => None
  end.

(** Messages that arrive later do not change a step. *)
Lemma step_prog_app {A} lim (p : prog A) obj inbox p' obj' inbox' out late :
  step_prog lim p obj inbox = Some (p', obj', inbox', out) ->
  step_prog lim p obj (inbox ++ late) = Some (p', obj', inbox' ++ late, out).
Proof.
  destruct p; cbn; try (intros; simplify_eq; done).
  - destruct (fits lim m); intros; by simplify_eq.
  - destruct inbox; cbn; [done|]. destruct (fits lim _); intros; by simplify_eq.
  - destruct (read_object obj off n). intros; by simplify_eq.
Qed.

(** ** The network *)

Record net (A B : Type) := Net {
  sender : prog A;
  receiver : prog B;
  to_receiver : list bytes;
  to_sender : list bytes;
  source : bytes;
  object : bytes
}.
Arguments Net {A B}. Arguments sender {A B}. Arguments receiver {A B}. Arguments to_receiver {A B}.
Arguments to_sender {A B}. Arguments source {A B}. Arguments object {A B}.

Section Network.
(** The limits of the sender's and of the receiver's connection. *)
Context {A B : Type} (slim rlim : Z).
Implicit Types s : net A B.

Definition sender_step s : option (net A B) :=
  match step_prog slim (sender s) (source s) (to_sender s) with
  | Some (p, src, inbox, out) => Some (Net p (receiver s) (to_receiver s ++ out) inbox src (object s))
  | None => None
  end.

Definition receiver_step s : option (net A B) :=
  match step_prog rlim (receiver s) (object s) (to_receiver s) with
  | Some (p, obj, inbox, out) => Some (Net (sender s) p inbox (to_sender s ++ out) (source s) obj)
  | None => None
  end.

Definition net_step s s' : Prop := sender_step s = Some s' \/ receiver_step s = Some s'.

(** Steps of the two sides commute. *)
Lemma sides_commute s s1 s2 :
  sender_step s = Some s1 -> receiver_step s = Some s2 ->
  exists s', receiver_step s1 = Some s' /\ sender_step s2 = Some s'.
Proof.
  unfold sender_step, receiver_step. intros H1 H2.
  destruct (step_prog slim (sender s) _ _) as [[[[p1 src] in1] out1]|] eqn:E1; [|done].
  destruct (step_prog rlim (receiver s) _ _) as [[[[p2 obj] in2] out2]|] eqn:E2; [|done].
  simplify_eq. cbn. rewrite (step_prog_app _ _ _ _ _ _ _ _ _ E2), (step_prog_app _ _ _ _ _ _ _ _ _ E1).
  eexists. done.
Qed.

Lemma net_diamond s s1 s2 :
  net_step s s1 -> net_step s s2 -> s1 = s2 \/ exists s', net_step s1 s' /\ net_step s2 s'.
Proof.
  intros [H1|H1] [H2|H2]; try (left; congruence).
  - destruct (sides_commute _ _ _ H1 H2) as (s' & ? & ?). right. exists s'. split; [by right|by left].
  - destruct (sides_commute _ _ _ H2 H1) as (s' & ? & ?). right. exists s'. split; [by left|by right].
Qed.

(** No side can take a step. *)
Definition final s : Prop := sender_step s = None /\ receiver_step s = None.

Lemma final_no_step s s' : final s -> ~ net_step s s'.
Proof. intros [H1 H2] [H|H]; congruence. Qed.

Lemma first_step n s s1 f :
  final f -> nsteps net_step n s f -> net_step s s1 ->
  exists k, n = S k /\ nsteps net_step k s1 f.
Proof.
  intros Hf. revert s s1. induction n as [|n IH]; intros s s1 Hn H1;
    inversion Hn as [|? ? s2 ? H2 Hr]; subst.
  - by apply final_no_step in H1.
  - exists n. split; [done|]. destruct (net_diamond _ _ _ H1 H2) as [->|(s' & H3 & H4)]; [done|].
    destruct (IH _ _ Hr H4) as (k & -> & Hk). by eapply nsteps_l.
Qed.

(** Every run is part of a run to the same final state, of the same length. *)
Lemma all_runs n s f k s1 :
  final f -> nsteps net_step n s f -> nsteps net_step k s s1 ->
  (k <= n)%nat /\ nsteps net_step (n - k) s1 f.
Proof.
  intros Hf Hn Hk. revert n Hn. induction Hk as [s|k s s2 s1 H1 _ IH]; intros n Hn.
  - split; [lia|]. by rewrite Nat.sub_0_r.
  - destruct (first_step _ _ _ _ Hf Hn H1) as (m & -> & Hm). destruct (IH m Hm) as [IH1 IH2].
    split; [lia|done].
Qed.

(** What a network computes. *)
Definition computes s f : Prop :=
  exists n, forall k s1, nsteps net_step k s s1 -> (k <= n)%nat /\ nsteps net_step (n - k) s1 f.

Lemma computes_run s f : final f -> rtc net_step s f -> computes s f.
Proof. intros Hf Hr. apply rtc_nsteps_1 in Hr as [n Hn]. exists n. intros k s1. by apply all_runs. Qed.

(** Some run leads to a state in [T]. *)
Definition reaches s (T : net A B -> Prop) : Prop := exists t, rtc net_step s t /\ T t.

Lemma reaches_step s s' T : net_step s s' -> reaches s' T -> reaches s T.
Proof. intros H (t & Hr & Ht). exists t. split; [by eapply rtc_l|done]. Qed.

Lemma reaches_now s (T : net A B -> Prop) : T s -> reaches s T.
Proof. exists s. split; [constructor|done]. Qed.

Lemma reaches_computes s T : reaches s T -> (forall t, T t -> final t) -> exists f, T f /\ computes s f.
Proof. intros (t & Hr & Ht) Hf. exists t. split; [done|]. apply computes_run; auto. Qed.

(** ** Steps of the sender and of the receiver *)

Section Rules.
Context (q1 q2 : list bytes) (src obj : bytes) (t : net A B -> Prop).
Notation "s '~>' t" := (reaches s t) (at level 70).
Implicit Types (P : prog A) (R : prog B).

Lemma s_send m err P R :
  fits slim m = true -> Net P R (q1 ++ [m]) q2 src obj ~> t -> Net (send_or m err P) R q1 q2 src obj ~> t.
Proof. intros Hm. apply reaches_step. left. unfold sender_step. cbn. by rewrite Hm. Qed.

Lemma s_receive m err k R :
  fits slim m = true -> Net (k m) R q1 q2 src obj ~> t -> Net (receive_or err k) R q1 (m :: q2) src obj ~> t.
Proof. intros Hm. apply reaches_step. left. unfold sender_step. cbn. by rewrite Hm, app_nil_r. Qed.

Lemma s_read off n err k R :
  (Z.to_nat off + n <= length src)%nat ->
  Net (k (take n (drop (Z.to_nat off) src))) R q1 q2 src obj ~> t -> Net (read_or off n err k) R q1 q2 src obj ~> t.
Proof.
  intros Hl. apply reaches_step. left. unfold sender_step, read_or. cbn. unfold read_object.
  rewrite decide_True; [by rewrite app_nil_r|]. rewrite length_take, length_drop. lia.
Qed.

Lemma s_progress set x y P R : Net P R q1 q2 src obj ~> t -> Net (progress set x y P) R q1 q2 src obj ~> t.
Proof. destruct set; [|done]. apply reaches_step. left. unfold sender_step. cbn. by rewrite app_nil_r. Qed.

Lemma r_send m err P R :
  fits rlim m = true -> Net P R q1 (q2 ++ [m]) src obj ~> t -> Net P (send_or m err R) q1 q2 src obj ~> t.
Proof. intros Hm. apply reaches_step. right. unfold receiver_step. cbn. by rewrite Hm. Qed.

Lemma r_receive m err k P :
  fits rlim m = true -> Net P (k m) q1 q2 src obj ~> t -> Net P (receive_or err k) (m :: q1) q2 src obj ~> t.
Proof. intros Hm. apply reaches_step. right. unfold receiver_step. cbn. by rewrite Hm, app_nil_r. Qed.

Lemma r_read off n err k P :
  (Z.to_nat off + n <= length obj)%nat ->
  Net P (k (take n (drop (Z.to_nat off) obj))) q1 q2 src obj ~> t -> Net P (read_or off n err k) q1 q2 src obj ~> t.
Proof.
  intros Hl. apply reaches_step. right. unfold receiver_step, read_or. cbn. unfold read_object.
  rewrite decide_True; [by rewrite app_nil_r|]. rewrite length_take, length_drop. lia.
Qed.

(** Appending to the object. *)
Lemma r_append off p k P :
  off = zlen obj -> Net P (k ec_none) q1 q2 src (obj ++ p) ~> t -> Net P (WriteAt off p k) q1 q2 src obj ~> t.
Proof.
  intros ->. apply reaches_step. right. unfold receiver_step. cbn. rewrite app_nil_r. do 2 f_equal.
  unfold write_object, zlen. rewrite Nat2Z.id, Nat.sub_diag, drop_ge by lia. cbn. by rewrite !app_nil_r, firstn_all.
Qed.

Lemma r_progress set x y P R : Net P R q1 q2 src obj ~> t -> Net P (progress set x y R) q1 q2 src obj ~> t.
Proof. destruct set; [|done]. apply reaches_step. right. unfold receiver_step. cbn. by rewrite app_nil_r. Qed.

Lemma r_accept m k P : Net P (k ec_none) q1 q2 src obj ~> t -> Net P (OnAccept m k) q1 q2 src obj ~> t.
Proof. apply reaches_step. right. unfold receiver_step. cbn. by rewrite app_nil_r. Qed.

End Rules.

End Network.
