(* ===== verification/TransferE2E.v ===== *)
(** * TransferE2E

    A sender and a receiver of one transfer against each other: with a receiver that
    acknowledges at least once per window of the sender, every interleaving ends with
    both sides successful and the object equal to the source, whatever part of it was
    there before; with a receiver that acknowledges less often, every interleaving of
    a longer transfer ends with both sides waiting for each other. *)

From stdpp Require Import relations.
From S2P Require Import Prelude Errors Result Crypto TransferCodec.
From S2P Require Import TransferCodecSpec Prog Transfer TransferReceive TransferSend Net.

Lemma decode_or_frame {A} f err (k : Decoded -> prog A) :
  frame_wf f -> decode_or (frame_bytes f) err k = k (decoded_of f).
Proof. intros Hf. unfold decode_or. by rewrite decode_frame_complete. Qed.

Lemma i64_in {A} z (k : Z -> prog A) : is_int64 z -> i64 z k = k z.
Proof. intros Hz. unfold i64. by rewrite decide_True. Qed.

Section Transfer.
Context {Sha : Sha256} {ShaL : Sha256Laws} (os_message : Z -> string).
(** [mm] and [rm] are the message limits of the sender's and of the receiver's
    connection; the offer fits the sender's, which is not above the receiver's. *)
Context (data : bytes) (meta : Meta) (sopts ropts : Options) (mm rm : Z).
Context (Hfit : 63 + zlen (name meta) <= mm) (Hmm : mm <= rm < 2 ^ 31).
Context (Hid : length (id meta) = 16%nat) (Hname : zlen (name meta) <= 65535).
Context (Hsize : size meta = zlen data) (Hmax : size meta <= 2 ^ 62) (Hhash : hash meta = sha256 data).
Context (Hcs : 0 < chunk_size sopts < 2 ^ 31) (Hwin : 0 < window sopts < 2 ^ 31) (Hack : 0 < ack_every ropts).

Let chunk : Z := effective_chunk_size mm (chunk_size sopts).

Notation "s '~>' t" := (reaches mm rm s t) (at level 70).

Lemma chunk_range : 0 < chunk < 2 ^ 31.
Proof. pose proof (effective_chunk_range mm _ (proj1 Hcs)). unfold chunk. lia. Qed.

(** The first [n] bytes of the content. *)
Definition prefix (n : Z) : bytes := take (Z.to_nat n) data.

Lemma length_hash : length (hash meta) = 32%nat.
Proof. rewrite Hhash. apply sha256_length. Qed.

Lemma size_pos : 0 <= size meta.
Proof. rewrite Hsize. unfold zlen. lia. Qed.

Lemma prefix_size : prefix (size meta) = data.
Proof. unfold prefix. rewrite Hsize. unfold zlen. by rewrite Nat2Z.id, firstn_all. Qed.

Lemma length_prefix n : 0 <= n <= size meta -> zlen (prefix n) = n.
Proof. intros H. unfold prefix, zlen in *. rewrite length_take. lia. Qed.

(** The bytes of the content at [n]. *)
Definition piece (n len : Z) : bytes := take (Z.to_nat len) (drop (Z.to_nat n) data).

Lemma prefix_piece n len : 0 <= n -> 0 <= len -> prefix n ++ piece n len = prefix (n + len).
Proof. intros H1 H2. unfold prefix, piece. rewrite take_take_drop. f_equal. lia. Qed.

Lemma length_piece n len : 0 <= n -> 0 <= len -> n + len <= size meta -> zlen (piece n len) = len.
Proof. intros H1 H2 H3. unfold piece, zlen in *. rewrite length_take, length_drop. lia. Qed.

Definition chunk_frame (n len : Z) : bytes := frame_bytes (FChunk (id meta) n (piece n len)).
Definition ack_frame (n : Z) : bytes := frame_bytes (FAck (id meta) n).

(** Every message of the exchange is within both limits. *)
Lemma all_fit m : zlen m <= 63 + zlen (name meta) \/ zlen m <= mm -> fits mm m = true /\ fits rm m = true.
Proof. intros H. split; apply fits_le; lia. Qed.

Lemma chunk_fits n len : len <= chunk -> fits mm (chunk_frame n len) = true /\ fits rm (chunk_frame n len) = true.
Proof.
  intros Hl. assert (0 <= zlen (name meta)) by (unfold zlen; lia). apply all_fit. right.
  unfold chunk_frame. rewrite length_chunk_frame by done.
  assert (Hc : chunk <= mm - 29) by (apply effective_chunk_fits; lia).
  assert (zlen (piece n len) <= Z.max 0 len) by (unfold piece, zlen; rewrite length_take; lia). lia.
Qed.

(** Frames without a payload. *)
Lemma fixed_fits f :
  match f with FAck i _ | FAccept i _ => length i = 16%nat | FDone i _ h => length i = 16%nat /\ length h = 32%nat
  | FOffer m => m = meta | _ => False end -> fits mm (frame_bytes f) = true /\ fits rm (frame_bytes f) = true.
Proof.
  intros Hf. pose proof length_hash as Hl. apply all_fit. left.
  unfold zlen in *. destruct f; try done; [subst|..|destruct Hf]; cbn [frame_bytes];
    rewrite !length_app, ?length_be_bytes, length_header; cbn; lia.
Qed.

(** ** The two loops *)

(** The receiver's loop and what follows it. *)
Definition receiving (fuel : nat) (hw : HashingWriter) (written since : Z) : prog received_once :=
  receive_loop os_message fuel ropts meta hw written since (fun hw' w => await_done meta w (hw_sum hw')).

(** The hashing writer has seen exactly the first [n] bytes. *)
Definition seen (hw : HashingWriter) (n : Z) : Prop := hw_offset hw = n /\ hashed (hw_ctx hw) (prefix n).

(** What the sender does once its window is full. *)
Definition after_fill (fuel : nat) (acked next : Z) : prog error_code :=
  receive_or (fun ec => Ret (map_conn_err ec)) (fun msg =>
  decode_or msg Ret (fun dec =>
  if bool_decide (d_typ dec = kTypeAck) then
    if negb (bool_decide (d_id dec = id meta)) || (d_offset dec <? acked) || (d_offset dec >? next) then
      Ret (terr Transfer.bad_frame)
    else
      progress (on_progress sopts) (d_offset dec) (size meta)
        (send_loop fuel sopts meta chunk (d_offset dec) next)
  else if bool_decide (d_typ dec = kTypeAbort) then Ret (terr Transfer.aborted)
  else Ret (terr Transfer.bad_frame))).

Definition filling (fuel room : nat) (acked next : Z) : prog error_code :=
  send_chunks room meta chunk (window sopts) acked next (after_fill fuel acked).

Lemma send_loop_fill fuel acked next :
  acked < size meta ->
  send_loop (S fuel) sopts meta chunk acked next = filling fuel (chunk_fuel meta next) acked next.
Proof. intros H. cbn [send_loop]. by guard_true (acked <? size meta). Qed.

Lemma send_loop_done fuel acked next :
  size meta <= acked -> send_loop fuel sopts meta chunk acked next = finish_send meta.
Proof. intros H. destruct fuel; cbn [send_loop]; by guard_false (acked <? size meta). Qed.

(** ** One message *)

(** Whether the chunk that ends at [n] is acknowledged. *)
Definition acks_at (since n : Z) : bool := (since + 1 >=? ack_every ropts) || (n =? size meta).

Section Steps.
Context (q2 : list bytes) (t : net error_code received_once -> Prop).

Lemma receiver_takes P fuel hw n len since :
  0 <= n -> 0 < len <= chunk -> n + len <= size meta -> seen hw n ->
  (forall hw', seen hw' (n + len) ->
     Net P (receiving fuel hw' (n + len) (if acks_at since (n + len) then 0 else since + 1)) []
       (q2 ++ if acks_at since (n + len) then [ack_frame (n + len)] else []) data (prefix (n + len)) ~> t) ->
  Net P (receiving (S fuel) hw n since) [chunk_frame n len] q2 data (prefix n) ~> t.
Proof.
  intros H0 Hl Hle [Hs1 Hs2] Hk. unfold receiving. cbn [receive_loop]. guard_true (n <? size meta).
  apply r_receive; [apply chunk_fits; lia|]. unfold chunk_frame. rewrite decode_or_frame by (split; [done|unfold is_int64; lia]).
  cbn [decoded_of d_typ d_id d_offset d_data]. rewrite !bool_decide_eq_true_2 by done. rewrite Z.eqb_refl.
  cbn [negb orb]. rewrite length_piece by lia. rewrite i64_in by (unfold is_int64; lia).
  guard_false (n + len >? size meta). unfold hw_write_at. rewrite Hs1, Z.eqb_refl. cbn [negb].
  apply r_append; [by rewrite length_prefix by lia|]. cbn [ec_bool ec_none]. rewrite length_piece by lia.
  change (ec_bool ec_none) with false. cbv iota. rewrite i64_in by (unfold is_int64; lia).
  apply r_progress. fold (acks_at since (n + len)). rewrite prefix_piece by lia.
  assert (Hs : seen (MkHashingWriter (n + len) (sha256_update (hw_ctx hw) (piece n len))) (n + len)).
  { split; [done|]. cbn. rewrite <- prefix_piece by lia. by apply hashed_update. }
  specialize (Hk _ Hs). destruct (acks_at since (n + len)).
  - rewrite encode_ack_ok by done. apply r_send; [by apply fixed_fits|done].
  - by rewrite app_nil_r in Hk.
Qed.

(** The sender puts the next chunk on the connection. *)
Lemma sender_puts R fuel room acked n f :
  0 <= n < size meta -> count_in_flight acked n chunk = Ok f -> f < window sopts ->
  (let len := if n + chunk >? size meta then size meta - n else chunk in
   Net (filling fuel room acked (n + len)) R [chunk_frame n len] q2 data (prefix n) ~> t) ->
  Net (filling fuel (S room) acked n) R [] q2 data (prefix n) ~> t.
Proof.
  intros Hn Hf Hw Hk. pose proof chunk_range as Hc. unfold filling. cbn [send_chunks]. rewrite Hf.
  guard_true (f <? window sopts). guard_true (n <? size meta). cbn [andb].
  rewrite i64_in by (unfold is_int64; lia). cbn zeta in *.
  set (len := if n + chunk >? size meta then size meta - n else chunk) in *.
  assert (Hlen : 0 < len <= chunk /\ n + len <= size meta) by (unfold len; destruct (_ >? _) eqn:?; bool_to_prop; lia).
  apply s_read; [unfold zlen in *; lia|]. rewrite encode_chunk_ok by done.
  apply s_send; [apply chunk_fits; lia|exact Hk].
Qed.

(** The sender takes an acknowledgement. *)
Lemma sender_takes R fuel room acked next x :
  acked <= x <= next -> next <= size meta -> 0 <= acked ->
  (forall f, count_in_flight acked next chunk = Ok f -> (f <? window sopts) && (next <? size meta) = false) ->
  (exists f, count_in_flight acked next chunk = Ok f) ->
  Net (send_loop fuel sopts meta chunk x next) R [] q2 data (prefix next) ~> t ->
  Net (filling fuel room acked next) R [] (ack_frame x :: q2) data (prefix next) ~> t.
Proof.
  intros Hx Hn H0 Hg (f & Hf) Hk. specialize (Hg f Hf). unfold filling.
  assert (Hst : send_chunks room meta chunk (window sopts) acked next (after_fill fuel acked) = after_fill fuel acked next)
    by (destruct room; cbn [send_chunks]; by rewrite Hf, Hg).
  rewrite Hst. unfold after_fill. apply s_receive; [by apply fixed_fits|]. unfold ack_frame.
  rewrite decode_or_frame by (split; [done|unfold is_int64; lia]). cbn [decoded_of d_typ d_id d_offset].
  rewrite !bool_decide_eq_true_2 by done. guard_false (x <? acked). guard_false (x >? next). cbn [negb orb].
  by apply s_progress.
Qed.

End Steps.

(** ** The end *)

(** Both sides successful, nothing left on the connections, the content in place. *)
Definition finished (s : net error_code received_once) : Prop :=
  s = Net (Ret ec_none) (Ret (MkReceived ec_none meta (size meta))) [] [] data data.

Lemma finish_exchange : Net (finish_send meta) (await_done meta (size meta) (sha256 data)) [] [] data data ~> finished.
Proof.
  unfold finish_send. pose proof length_hash as Hl.
  assert (Hf : frame_wf (FDone (id meta) Byte.x01 (hash meta))) by done.
  rewrite encode_done_ok by done. apply s_send; [by apply fixed_fits|].
  unfold await_done. apply r_receive; [by apply fixed_fits|].
  rewrite decode_or_frame by done. cbn [decoded_of d_typ d_id]. rewrite !bool_decide_eq_true_2 by done. cbn [negb orb].
  unfold verify_and_ack_done. rewrite encode_done_ok by (done || apply sha256_length).
  assert (Hok : done_ok meta (decoded_of (FDone (id meta) Byte.x01 (hash meta))) (sha256 data) = true).
  { unfold done_ok. cbn [decoded_of d_hash]. rewrite Hhash.
    destruct (is_zero_hash (sha256 data)) eqn:Hz; rewrite ?Hz; cbn [negb andb]; [done|].
    by rewrite !bool_decide_eq_true_2 by done. }
  cbn [decoded_of] in Hok. rewrite Hok. cbn [negb].
  pose proof (sha256_length data) as Hl'. apply r_send; [by apply fixed_fits|]. apply s_receive; [by apply fixed_fits|]. rewrite decode_or_frame by (split; [done|apply sha256_length]).
  cbn [decoded_of d_typ d_id d_ok]. rewrite !bool_decide_eq_true_2 by done. cbn [negb orb].
  rewrite bool_decide_eq_false_2 by done. cbn [negb]. by apply reaches_now.
Qed.

Lemma finish_receiving fuel hw :
  seen hw (size meta) -> Net (finish_send meta) (receiving fuel hw (size meta) 0) [] [] data data ~> finished.
Proof.
  intros [_ Hs]. unfold receiving. destruct fuel; cbn [receive_loop]; guard_false (size meta <? size meta).
  all: unfold hw_sum; rewrite (hashed_finish _ _ Hs), prefix_size; apply finish_exchange.
Qed.

(** ** The acknowledgements on their way *)

(** Strictly increasing from [a], the last one [since] chunks behind [n]. *)
Fixpoint acks_chain (a : Z) (acks : list Z) (n since : Z) : Prop :=
  match acks with
  | [] => a = n - since * chunk
  | x :: rest => a < x <= n /\ acks_chain x rest n since
  end.

(** One more chunk, acknowledged or not. *)
Lemma acks_chain_ack a acks n since len :
  0 < len -> 0 <= since -> acks_chain a acks n since -> acks_chain a (acks ++ [n + len]) (n + len) 0.
Proof.
  intros Hl Hs. pose proof chunk_range. revert a. induction acks as [|x rest IH]; cbn; intros a.
  - intros ->. nia.
  - intros [? ?]. split; [lia|auto].
Qed.

Lemma acks_chain_next a acks n since : acks_chain a acks n since -> acks_chain a acks (n + chunk) (since + 1).
Proof.
  pose proof chunk_range. revert a. induction acks as [|x rest IH]; cbn; intros a; [nia|].
  intros [? ?]. split; [lia|auto].
Qed.

(** The sender is filling its window, the receiver has taken every chunk. *)
Record exchanging (fuel room rfuel : nat) (a n since : Z) (acks : list Z) (hw : HashingWriter) : Prop := {
  ex_order : 0 <= a < size meta /\ a <= n <= size meta;
  ex_since : 0 <= since < ack_every ropts;
  ex_last : n = size meta -> since = 0;
  ex_acks : acks_chain a acks n since;
  ex_flying : n - a <= window sopts * chunk;
  ex_room : size meta - n <= Z.of_nat room;
  ex_fuel : zlen acks + (size meta - n) <= Z.of_nat fuel + 1;
  ex_rfuel : size meta - n <= Z.of_nat rfuel;
  ex_seen : seen hw n
}.

(** One chunk goes over. *)
Lemma exchange_chunk fuel room rfuel a n since acks hw f t :
  exchanging fuel room rfuel a n since acks hw ->
  count_in_flight a n chunk = Ok f -> f < window sopts -> n - a <= f * chunk -> n < size meta ->
  (forall room' rfuel' n' since' acks' hw',
     n < n' -> zlen acks' <= zlen acks + 1 ->
     (n' = size meta \/ ack_every ropts <= since + 1 \/ acks' = acks) -> exchanging fuel room' rfuel' a n' since' acks' hw' ->
     Net (filling fuel room' a n') (receiving rfuel' hw' n' since') [] (ack_frame <$> acks') data (prefix n') ~> t) ->
  Net (filling fuel room a n) (receiving rfuel hw n since) [] (ack_frame <$> acks) data (prefix n) ~> t.
Proof.
  intros [Ho Hs _ Hac Hfly Hroom Hfuel Hrf Hseen] Hf Hfw Hfn Hn Hk. pose proof chunk_range as Hc.
  destruct room as [|room]; [lia|]. destruct rfuel as [|rfuel]; [lia|].
  eapply sender_puts; [lia|done|done|]. cbn zeta.
  set (len := if n + chunk >? size meta then size meta - n else chunk).
  assert (Hlen : 0 < len <= chunk /\ n + len <= size meta /\ (n + len <> size meta -> len = chunk)).
  { unfold len. destruct (_ >? _) eqn:?; bool_to_prop; lia. }
  clearbody len. apply receiver_takes; try done; try lia. intros hw' Hseen'. set (n' := n + len) in *.
  unfold acks_at. destruct ((since + 1 >=? ack_every ropts) || (n' =? size meta)) eqn:Hg.
  - replace (_ ++ [ack_frame n']) with (ack_frame <$> (acks ++ [n'])) by (by rewrite fmap_app).
    unfold zlen in *. apply Hk; [lia|rewrite length_app; cbn; lia| |].
    { apply orb_true_iff in Hg as [Hg|Hg]; bool_to_prop; auto with lia. }
    split; try done; try lia; [by eapply acks_chain_ack; [| |done]; lia|nia|unfold zlen; rewrite length_app; cbn; lia].
  - apply orb_false_iff in Hg as [Hg1 Hg2]. bool_to_prop. rewrite app_nil_r. apply Hk; [lia|lia|auto|].
    assert (n' = n + chunk) as Hn' by lia.
    split; try done; try lia; [rewrite Hn'; by apply acks_chain_next|nia].
Qed.

Lemma exchange_all m fuel room rfuel a n since acks hw :
  ack_every ropts <= window sopts -> 2 * (size meta - n) + zlen acks <= Z.of_nat m ->
  exchanging fuel room rfuel a n since acks hw ->
  Net (filling fuel room a n) (receiving rfuel hw n since) [] (ack_frame <$> acks) data (prefix n) ~> finished.
Proof.
  intros Haw. revert fuel room rfuel a n since acks hw.
  induction m as [m IH] using lt_wf_ind. intros fuel room rfuel a n since acks hw Hm Hx.
  pose proof chunk_range as Hc. pose proof Hx as [Ho Hs Hl Hac Hfly Hroom Hfuel Hrf Hseen].
  destruct (count_in_flight_spec a n chunk (window sopts) Hc Hwin ltac:(lia) Hfly) as (f & Hf & Hf1 & Hf2 & Hf3).
  destruct ((f <? window sopts) && (n <? size meta)) eqn:Hg.
  - bool_to_prop. eapply exchange_chunk; try done. intros room' rfuel' n' since' acks' hw' H1 H2 _ H3.
    unfold zlen in *. eapply (IH (m - 1)%nat); [lia| |done]. unfold zlen. lia.
  - destruct acks as [|x acks].
    { exfalso. cbn in Hac. destruct (decide (since = 0)) as [->|Hne].
      - unfold count_in_flight in Hf. rewrite (proj2 (Z.leb_le n a)) in Hf by lia. simplify_eq.
        apply andb_false_iff in Hg as [Hg|Hg]; bool_to_prop; lia.
      - apply andb_false_iff in Hg as [Hg|Hg]; bool_to_prop; [|lia]. nia. }
    destruct Hac as [Hax Hac]. apply sender_takes; [lia|lia|lia|intros f' Hf'; rewrite Hf in Hf'; injection Hf' as <-; exact Hg|by exists f|].
    unfold zlen in *. cbn [length] in *. destruct (decide (x < size meta)) as [Hlt|Hge].
    + destruct fuel as [|fuel].
      { destruct acks; cbn in Hac, Hfuel; [rewrite Hl in Hac by lia|]; lia. }
      rewrite send_loop_fill by done.
      eapply (IH (m - 1)%nat); [lia|cbn; lia|]. split; try done; try lia; unfold chunk_fuel, zlen; lia.
    + assert (x = size meta /\ n = size meta) as [-> ->] by lia. rewrite send_loop_done by lia.
      rewrite (Hl eq_refl), prefix_size in *. destruct acks as [|y acks]; [|cbn in Hac; lia]. by apply finish_receiving.
Qed.

(** ** The offer *)

Lemma receiver_hashes P q1 q2 obj t fuel off sz ctx d err k :
  0 <= off -> sz <= zlen obj -> sz - off <= Z.of_nat fuel * hash_buf -> hashed ctx d ->
  (forall ctx', hashed ctx' (d ++ take (Z.to_nat (sz - off)) (drop (Z.to_nat off) obj)) ->
     Net (A := error_code) (B := received_once) P (k ctx') q1 q2 data obj ~> t) ->
  Net P (hash_loop fuel off sz ctx err k) q1 q2 data obj ~> t.
Proof.
  revert off ctx d. induction fuel as [|fuel IH]; intros off ctx d H0 Hs Hf Hc Hk; cbn [hash_loop].
  all: destruct (off <? sz) eqn:Ho; bool_to_prop.
  1: lia.
  1, 3: apply Hk; by rewrite Z2Nat.nonpos, take_0, app_nil_r by lia.
  set (n := if hash_buf >? sz - off then sz - off else hash_buf).
  assert (Hb : hash_buf = 262144) by done.
  assert (Hn : 0 < n <= sz - off /\ (n = hash_buf \/ n = sz - off)) by (unfold n; destruct (_ >? _) eqn:?; bool_to_prop; lia).
  clearbody n. apply r_read; [unfold zlen in *; lia|].
  eapply IH; [lia|done|nia|by apply hashed_update|]. intros ctx' Hc'. apply Hk. rewrite <- app_assoc in Hc'.
  replace (Z.to_nat (sz - off)) with (Z.to_nat n + Z.to_nat (sz - (off + n)))%nat by lia.
  rewrite <- take_take_drop, drop_drop. replace (Z.to_nat off + Z.to_nat n)%nat with (Z.to_nat (off + n)) by lia. done.
Qed.

Lemma offer_exchange fuel rfuel reads resume want t :
  0 <= resume <= size meta -> (reads = true \/ resume = 0 /\ 0 < size meta) ->
  (forall w, want = Some w -> id w = id meta) ->
  (resume = size meta -> Net (finish_send meta) (await_done meta (size meta) (sha256 data)) [] [] data data ~> t) ->
  (resume < size meta -> forall hw, seen hw resume ->
     Net (send_loop fuel sopts meta chunk resume resume) (receiving rfuel hw resume 0) [] [] data (prefix resume) ~> t) ->
  Net (send_once fuel mm meta sopts) (receive_once os_message rfuel reads resume want ropts) [] [] data (prefix resume) ~> t.
Proof.
  intros Hr Hrd Hw Hfin Hgo. pose proof length_hash as Hl. pose proof size_pos as Hz.
  unfold send_once. fold chunk. rewrite encode_offer_ok by done. apply s_send; [by apply fixed_fits|].
  unfold receive_once. apply r_receive; [by apply fixed_fits|].
  rewrite decode_or_frame by (split_and!; [done|done|unfold is_int64; lia|done]).
  cbn [decoded_of d_typ d_meta]. rewrite bool_decide_eq_true_2 by done. cbn [negb].
  assert (Hwant : match want with Some w => negb (bool_decide (id meta = id w)) | None => false end = false).
  { destruct want as [w|]; [|done]. rewrite bool_decide_eq_true_2; [done|]. by rewrite (Hw w). }
  rewrite Hwant. guard_false (resume >? size meta). rewrite encode_accept_ok by done. cbn [framed].
  set (go := send_or _ _ _).
  assert (Hcont : Net (receive_or (fun ec => Ret (map_conn_err ec)) (fun msg => decode_or msg Ret (fun dec =>
      if bool_decide (d_typ dec = kTypeReject) then
        if negb (bool_decide (d_id dec = id meta)) then Ret (terr Transfer.bad_frame)
        else Ret (terr Transfer.rejected)
      else if negb (bool_decide (d_typ dec = kTypeAccept)) || negb (bool_decide (d_id dec = id meta)) then
        Ret (terr Transfer.bad_frame)
      else
        let offset := d_offset dec in
        if (offset <? 0) || (offset >? size meta) then Ret (terr Transfer.resume_past_end)
        else
          progress (on_progress sopts) offset (size meta)
            (if offset =? size meta then finish_send meta
             else send_loop fuel sopts meta chunk offset offset)))) go [] [] data (prefix resume) ~> t).
  2: { destruct (accept ropts); [apply r_accept|]; exact Hcont. }
  unfold go. clear go.
  apply r_send; [by apply fixed_fits|]. apply s_receive; [by apply fixed_fits|]. rewrite decode_or_frame by (split; [done|unfold is_int64; lia]).
  cbn [decoded_of d_typ d_id d_offset]. rewrite bool_decide_eq_false_2 by done.
  rewrite !bool_decide_eq_true_2 by done. cbn [negb orb]. cbv zeta.
  guard_false (resume <? 0). guard_false (resume >? size meta). cbn [orb].
  apply s_progress, r_progress. destruct (resume =? size meta) eqn:Heq; bool_to_prop.
  - subst resume. rewrite prefix_size. assert (reads = true) as -> by (destruct Hrd; [done|lia]).
    unfold hash_reader. eapply receiver_hashes; [lia|lia|by apply hash_fuel_enough|apply hashed_starts|].
    intros ctx Hc. rewrite (hashed_finish _ _ Hc). cbn [app]. rewrite drop_0, Z.sub_0_r.
    fold (prefix (size meta)). rewrite prefix_size. by apply Hfin.
  - unfold HashingWriter_new. destruct (resume >? 0) eqn:Hpos; bool_to_prop.
    + assert (reads = true) as -> by (destruct Hrd; [done|lia]). cbn [negb].
      eapply receiver_hashes; [lia|by rewrite length_prefix|apply hash_fuel_enough; lia|apply hashed_starts|].
      intros ctx Hc. apply Hgo; [lia|]. split; [done|]. cbn [app hw_ctx] in *. rewrite drop_0, Z.sub_0_r in Hc.
      unfold prefix in *. by rewrite take_take, Nat.min_id in Hc.
    + assert (resume = 0) as -> by lia. apply Hgo; [lia|]. split; [done|]. apply hashed_starts.
Qed.

(** The two attempts, facing each other over an object that holds the first [resume]
    bytes. *)
Definition transfer (fuel rfuel : nat) (reads : bool) (resume : Z) (want : option Meta)
    : net error_code received_once :=
  Net (send_once fuel mm meta sopts) (receive_once os_message rfuel reads resume want ropts) [] [] data (prefix resume).

Lemma exchanging_start fuel rfuel resume hw :
  0 <= resume < size meta -> size meta - resume <= Z.of_nat fuel + 1 -> size meta - resume <= Z.of_nat rfuel ->
  seen hw resume -> exchanging fuel (chunk_fuel meta resume) rfuel resume resume 0 [] hw.
Proof.
  intros Hr Hf Hrf Hs. pose proof chunk_range. split; try done; try lia; [cbn; lia|unfold chunk_fuel; lia].
Qed.

Lemma transfer_runs fuel rfuel reads resume want :
  ack_every ropts <= window sopts -> 0 <= resume <= size meta -> (reads = true \/ resume = 0 /\ 0 < size meta) ->
  (forall w, want = Some w -> id w = id meta) ->
  size meta <= Z.of_nat fuel -> size meta <= Z.of_nat rfuel ->
  transfer fuel rfuel reads resume want ~> finished.
Proof.
  intros Haw Hr Hrd Hw Hf Hrf. apply offer_exchange; try done.
  - intros _. apply finish_exchange.
  - intros Hlt hw Hs. destruct fuel as [|fuel]; [lia|]. rewrite send_loop_fill by done.
    eapply (exchange_all (Z.to_nat (2 * (size meta - resume))) _ _ _ _ _ _ []); [done|unfold zlen; cbn; lia|].
    apply exchanging_start; try done; lia.
Qed.

(** ** A receiver that acknowledges too rarely *)

Definition waiting {A} (p : prog A) : Prop := exists k, p = ConnReceive k.

(** Both sides wait for a message, and none is on its way. *)
Definition deadlocked (n : Z) (s : net error_code received_once) : Prop :=
  waiting (sender s) /\ waiting (receiver s) /\ to_receiver s = [] /\ to_sender s = []
  /\ source s = data /\ object s = prefix n.

Lemma deadlocked_final n s : deadlocked n s -> final mm rm s.
Proof.
  destruct s as [P R q1 q2 src obj]. intros ((k & H1) & (k' & H2) & H3 & H4 & _). cbn in *. subst. done.
Qed.

Lemma fill_window m fuel room rfuel resume n since hw :
  window sopts < ack_every ropts -> resume + window sopts * chunk < size meta ->
  size meta - n <= Z.of_nat m -> exchanging fuel room rfuel resume n since [] hw ->
  Net (filling fuel room resume n) (receiving rfuel hw n since) [] [] data (prefix n)
    ~> deadlocked (resume + window sopts * chunk).
Proof.
  intros Haw Hlong. revert room rfuel n since hw. pose proof chunk_range as Hc.
  induction m as [|m IH]; intros room rfuel n since hw Hm Hx; pose proof Hx as [Ho Hs _ Hac Hfly _ _ Hrf _].
  all: destruct (count_in_flight_spec resume n chunk (window sopts) Hc Hwin ltac:(lia) Hfly) as (f & Hf & Hf1 & Hf2 & Hf3).
  all: cbn in Hac; assert (n < size meta) by lia.
  1: lia.
  destruct (decide (f < window sopts)) as [Hlt|Hge].
  - eapply (exchange_chunk _ _ _ _ _ _ []); try done.
    intros room' rfuel' n' since' acks' hw' H1 _ Hor Hx'. pose proof Hx' as [Ho' _ _ _ Hfly' _ _ _ _].
    assert (acks' = []) as -> by (destruct Hor as [?|[?|?]]; [lia|nia|done]).
    apply IH; [lia|done].
  - assert (Hn : n = resume + window sopts * chunk).
    { destruct (decide (n <= resume)) as [Hle|Hgt].
      - unfold count_in_flight in Hf. rewrite (proj2 (Z.leb_le n resume)) in Hf by lia. simplify_eq. lia.
      - assert (f = window sopts) as -> by lia.
        assert (window sopts - 1 < since) by (apply (Zmult_lt_reg_r _ _ chunk); lia).
        assert (since <= window sopts) by (apply (Zmult_le_reg_r _ _ chunk); lia).
        assert (since = window sopts) as -> by lia. lia. }
    assert (Hst : filling fuel room resume n = after_fill fuel resume n).
    { unfold filling. destruct room; cbn [send_chunks]; rewrite Hf; by guard_false (f <? window sopts). }
    destruct rfuel as [|rfuel]; [lia|]. rewrite Hst. apply reaches_now. rewrite <- Hn.
    split_and!; try done; [by eexists|]. unfold receiving. cbn [receiver receive_loop]. guard_true (n <? size meta).
    by eexists.
Qed.

Lemma transfer_deadlocks fuel rfuel reads resume want :
  window sopts < ack_every ropts -> 0 <= resume -> resume + window sopts * chunk < size meta ->
  (reads = true \/ resume = 0) -> (forall w, want = Some w -> id w = id meta) ->
  size meta <= Z.of_nat fuel -> size meta <= Z.of_nat rfuel ->
  transfer fuel rfuel reads resume want ~> deadlocked (resume + window sopts * chunk).
Proof.
  intros Haw Hr Hlong Hrd Hw Hf Hrf. pose proof chunk_range as Hc. assert (Hlt : resume < size meta) by nia.
  apply offer_exchange; try done; [lia|destruct Hrd; [by left|right; lia]|lia|].
  intros _ hw Hs. destruct fuel as [|fuel]; [lia|]. rewrite send_loop_fill by done.
  eapply (fill_window (Z.to_nat (size meta - resume))); [done|done|lia|]. apply exchanging_start; try done; lia.
Qed.

End Transfer.

(** ** Theorems *)

Section Theorems.
Context {Sha : Sha256} {ShaL : Sha256Laws} (os_message : Z -> string).

(** The offer describes the content. *)
Definition describes (meta : Meta) (data : bytes) : Prop :=
  length (id meta) = 16%nat /\ zlen (name meta) <= 65535 /\ size meta = zlen data /\ size meta <= 2 ^ 62
  /\ hash meta = sha256 data.

(** Options as [normalize] leaves them, of type [int]. *)
Definition options_ok (o : Options) : Prop :=
  0 < chunk_size o < 2 ^ 31 /\ 0 < window o < 2 ^ 31 /\ 0 < ack_every o.

(** The message limits carry the transfer: the offer, whose frame has 63 bytes more
    than the name, is within the sender's limit, and the receiver's is not smaller. *)
Definition carries (mm rm : Z) (meta : Meta) : Prop := 63 + zlen (name meta) <= mm /\ mm <= rm < 2 ^ 31.


(** When the receiver's [ack_every] exceeds the sender's window
    and more than a window of chunks is to be sent, every interleaving ends with the
    window sent and written, both sides waiting to receive and nothing on its way:
    neither side ever returns. *)
Theorem ack_starvation (data : bytes) (meta : Meta) (sopts ropts : Options) (mm rm : Z)
    (fuel rfuel : nat) (reads : bool) (resume : Z) (want : option Meta) :
  carries mm rm meta ->
  describes meta data -> options_ok sopts -> options_ok ropts -> window sopts < ack_every ropts ->
  0 <= resume -> resume + window sopts * effective_chunk_size mm (chunk_size sopts) < size meta ->
  (reads = true \/ resume = 0) -> (forall w, want = Some w -> id w = id meta) ->
  size meta <= Z.of_nat fuel -> size meta <= Z.of_nat rfuel ->
  exists f, deadlocked data (resume + window sopts * effective_chunk_size mm (chunk_size sopts)) f
    /\ computes mm rm (transfer os_message data meta sopts ropts mm fuel rfuel reads resume want) f.
Proof using ShaL.
  intros [C1 C2] (H1 & H2 & H3 & H4 & H5) (S1 & S2 & _) (_ & _ & R3) Ha Hr Hl Hrd Hw Hf Hrf.
  apply reaches_computes; [by apply transfer_deadlocks|]. intros t Ht. by eapply deadlocked_final.
Qed.

(** Over a connection whose limit is below the size of the offer nothing is sent:
    [send] of the connection refuses the offer, the sender returns its error, and the
    receiver waits. *)
Lemma offer_refused (data : bytes) (meta : Meta) (sopts ropts : Options) (mm rm : Z)
    (fuel rfuel : nat) (reads : bool) (resume : Z) (want : option Meta) :
  length (id meta) = 16%nat -> length (hash meta) = 32%nat -> 0 <= size meta -> zlen (name meta) <= 65535 ->
  fits mm (frame_bytes (FOffer meta)) = false ->
  let s := transfer os_message data meta sopts ropts mm fuel rfuel reads resume want in
  computes mm rm s (Net (Ret (make_error_code Errc.message_too_large)) (receiver s) [] [] data (object s)).
Proof.
  intros Hi Hh Hs Hn Hf s. apply computes_run; [done|]. apply rtc_once. left. unfold sender_step, s, transfer, send_once.
  rewrite encode_offer_ok by done. cbn [sender source to_sender framed send_or step_prog]. by rewrite Hf.
Qed.

End Theorems.

(** ** Witnesses *)

Import Toy.

Lemma demo_describes : describes Demo.file_meta Demo.file.
Proof. split_and!; done. Qed.

