(* ===== verification/TransferFile.v ===== *)
(** * TransferFile

    The file adapters of [src/transfer/transfer.cpp]: [FileReaderAt] and
    [FileWriterAt] over a [std::fstream], which buffers what is written and whose
    failure state sticks, and [send_file] and [receive_file] on top of them.  The file
    is part of the state, so the theorems speak about its content. *)

From S2P Require Import Prelude Errors Wire Result Crypto TransferCodec TransferCodecSpec Prog ProgLogic.
From S2P Require Import Transfer TransferReceive TransferSend Net.

(** ** The stream *)

(** An open [std::fstream]: the file behind it, the written bytes that are still in its
    buffer with their offset, and its [failbit].  Once that is set, seeking does nothing
    and reading and writing fail. *)
Record fstream := MkFstream { f_disk : bytes; f_pos : Z; f_pending : bytes; f_fail : bool }.

Definition opened_on (c : bytes) : fstream := MkFstream c 0 [] false.

(** Writing some bytes, if there are any. *)
Definition put (c : bytes) (off : Z) (p : bytes) : bytes :=
  match p with [] => c | _ => write_object c off p end.

(** The content of the file once the buffer is written back. *)
Definition view (f : fstream) : bytes := put (f_disk f) (f_pos f) (f_pending f).

(** What the device does during one call: whether the write-back of the buffer (or the
    seek itself) fails, and what it leaves in the file then; whether the write fails,
    and what it leaves; how many of the bytes written go to the file at once, the others
    to the buffer; and where a read stops, if not at the end. *)
Record device := MkDevice {
  d_flush : option bytes;
  d_write : option bytes;
  d_through : nat;
  d_stops : option nat
}.

(** Writing the buffer back. *)
Definition flush (failure : option bytes) (f : fstream) : fstream :=
  match failure with
  | Some c => MkFstream (match f_pending f with [] => f_disk f | _ => c end) (f_pos f) [] true
  | None => MkFstream (view f) (f_pos f) [] (f_fail f)
  end.

(** [seekg] and [seekp] write the buffer back first. *)
Definition seek (failure : option bytes) (f : fstream) : fstream := if f_fail f then f else flush failure f.

(** [FileReaderAt::read_at] and [FileWriterAt::read_at]: seek, read, compare
    [gcount()] with the size of the buffer; a short read sets the failbit. *)
Definition file_read_at (f : fstream) (off : Z) (n : nat) (dv : device) : fstream * error_code * bytes :=
  let f1 := seek (d_flush dv) f in
  let most := match d_stops dv with Some k => Nat.min k n | None => n end in
  let got := if f_fail f1 then [] else take most (drop (Z.to_nat off) (f_disk f1)) in
  let short := negb (Nat.eqb (length got) n) in
  (MkFstream (f_disk f1) (f_pos f1) (f_pending f1) (f_fail f1 || short),
   if short then terr Transfer.other else ec_none,
   got ++ replicate (n - length got) Byte.x00).

(** [FileWriterAt::write_at]: seek, write, test the stream. *)
Definition file_write_at (f : fstream) (off : Z) (p : bytes) (dv : device) : fstream * error_code :=
  let f1 := seek (d_flush dv) f in
  if f_fail f1 then (f1, terr Transfer.other)
  else match d_write dv with
       | Some c => (MkFstream c off [] true, terr Transfer.other)
       | None =>
           let now := take (d_through dv) p in
           (MkFstream (put (f_disk f1) off now) (off + zlen now) (drop (d_through dv) p) false, ec_none)
       end.

(** ** [send_file] and [receive_file] *)

(** The destination: its content, if it exists, and which of the four attempts to open
    it the operating system grants: to read it, to update it, to truncate or create it,
    and to update it after that. *)
Record dest := MkDest {
  existing : option bytes;
  can_read : bool;
  can_update : bool;
  can_truncate : bool;
  can_reopen : bool
}.

(** The size the [ifstream] finds. *)
Definition measured (d : dest) : Z :=
  match existing d with Some c => if can_read d then zlen c else 0 | None => 0 end.

(** The file after the attempts to open it for reading and writing: the second one
    empties it.  Is the stream open? *)
Definition prepared (d : dest) : option bytes * bool :=
  let again :=
    let file := if can_truncate d then Some [] else existing d in
    (file, can_reopen d && bool_decide (is_Some file)) in
  match existing d with
  | Some c => if can_update d then (Some c, true) else again
  | None => again
  end.

Section Operations.
Context {Sha : Sha256} (os_message : Z -> string).

(** [file]: the content, [None] when the file cannot be opened. *)
Definition send_file (fuel : nat) (mm : Z) (file : option bytes) (path : bytes) (opts : option Options)
    : prog error_code :=
  match file with
  | None => Ret (terr Transfer.other)
  | Some content => send fuel mm (MkMeta zero_id (path_base path) (zlen content) zero_hash) opts
  end.

Definition receive_file (fuel : nat) (d : dest) (opts : option Options) : prog (error_code * option Meta) :=
  if negb (snd (prepared d)) then Ret (terr Transfer.other, None)
  else receive os_message fuel true (measured d) opts.

(** [truncate(path, n)]. *)
Definition truncate (content : bytes) (n : Z) : bytes :=
  take (Z.to_nat n) (content ++ replicate (Z.to_nat n - length content) Byte.x00).

(** What is left in the file when [receive_file] returns: the stream is closed, which
    writes its buffer back, and after a success the file is truncated.  Neither result
    is looked at: [failure] is what a write-back that fails leaves, [cut] whether
    [truncate] succeeds. *)
Definition file_after (res : error_code * option Meta) (f : fstream) (failure : option bytes) (cut : bool) : bytes :=
  let content := f_disk (flush failure f) in
  match res with
  | (ec, Some meta) => if negb (ec_bool ec) && cut then truncate content (size meta) else content
  | (_, None) => content
  end.

End Operations.

(** ** Runs over a file *)

(** The calls of the adapter of a sender are answered by the file. *)
Definition source_step (f : fstream) (ev : event) (f' : fstream) : Prop :=
  match ev with
  | ERead off n ec b => exists dv, file_read_at f off n dv = (f', ec, b)
  | _ => f' = f
  end.

Definition file_step (f : fstream) (ev : event) (f' : fstream) : Prop :=
  match ev with
  | ERead off n ec b => exists dv, file_read_at f off n dv = (f', ec, b)
  | EWrite off p ec => exists dv, file_write_at f off p dv = (f', ec)
  | _ => f' = f
  end.

Fixpoint run_with (step : fstream -> event -> fstream -> Prop) (f : fstream) (tr : list event) (f' : fstream) : Prop :=
  match tr with
  | [] => f' = f
  | ev :: tr' => exists f1, step f ev f1 /\ run_with step f1 tr' f'
  end.

Lemma run_with_app step f h1 h2 f' :
  run_with step f (h1 ++ h2) f' -> exists f1, run_with step f h1 f1 /\ run_with step f1 h2 f'.
Proof.
  revert f. induction h1 as [|ev h1 IH]; intros f H; cbn in *; [by exists f|].
  destruct H as (f1 & H1 & H2). apply IH in H2 as (f2 & H2 & H3). exists f2. split; [by exists f1|done].
Qed.

(** *** Reading *)

Lemma file_read_inv f off n dv f' ec b :
  file_read_at f off n dv = (f', ec, b) ->
  f_disk f' = f_disk (seek (d_flush dv) f) /\ f_pos f' = f_pos (seek (d_flush dv) f)
  /\ f_pending f' = f_pending (seek (d_flush dv) f) /\ length b = n
  /\ (f_fail f' = false -> f_fail (seek (d_flush dv) f) = false /\ ec_bool ec = false)
  /\ (ec_bool ec = false -> b = take n (drop (Z.to_nat off) (f_disk f')) /\ (f_fail f' = true -> n = 0%nat)).
Proof.
  unfold file_read_at. set (f1 := seek _ f). set (most := match d_stops dv with Some k => _ | None => _ end).
  assert (Hm : (most <= n)%nat) by (unfold most; destruct (d_stops dv); lia). clearbody most.
  set (got := if f_fail f1 then [] else _). intros [= <- <- <-]. cbn.
  assert (Hl : (length got <= most)%nat) by (unfold got; destruct (f_fail f1); [cbn; lia|rewrite length_take; lia]).
  split_and!; try done; [rewrite length_app, length_replicate; lia| |].
  { destruct (f_fail f1); cbn; [done|]. by destruct (negb _). }
  destruct (Nat.eqb_spec (length got) n) as [He|Hne]; cbn [negb]; [|done]. intros _. rewrite orb_false_r.
  rewrite He, Nat.sub_diag. cbn. rewrite app_nil_r. unfold got in *. destruct (f_fail f1) eqn:Ef.
  - cbn in He. subst n. split; [by rewrite take_0|done].
  - split; [|done]. assert (most = n) as -> by (rewrite length_take in He; lia). done.
Qed.

(** A stream that only reads keeps its file. *)
Lemma seek_clear failure f : f_pending f = [] -> f_disk (seek failure f) = f_disk f /\ f_pending (seek failure f) = [].
Proof. intros H. unfold seek, flush, view. destruct (f_fail f); [done|]. rewrite H. by destruct failure. Qed.

Lemma source_senv content f tr f' :
  f_disk f = content -> f_pending f = [] -> run_with source_step f tr f' -> Forall (senv content) tr.
Proof.
  revert f. induction tr as [|ev tr IH]; intros f Hf Hp H; [constructor|]. destruct H as (f1 & H1 & H2).
  assert (Hev : senv content ev /\ f_disk f1 = content /\ f_pending f1 = []).
  { destruct ev; cbn in H1; try (by subst). destruct H1 as [dv H1].
    apply file_read_inv in H1 as (H3 & _ & H4 & _ & _ & H5). destruct (seek_clear (d_flush dv) f Hp) as [E1 E2].
    split_and!; try congruence. intros He. destruct (H5 He) as [H6 _]. congruence. }
  destruct Hev as (He & E1 & E2). constructor; [done|by apply (IH f1)].
Qed.

(** *** A stream that has not failed *)

(** Writing in two parts. *)
Lemma take_write_object c off p :
  0 <= off <= zlen c -> take (Z.to_nat (off + zlen p)) (write_object c off p) = take (Z.to_nat off) c ++ p
    /\ off + zlen p <= zlen (write_object c off p).
Proof.
  intros Ho. unfold write_object, zlen in *. set (o := Z.to_nat off).
  rewrite (take_app_le c) by lia. assert (Hl : length (take o c) = o) by (rewrite length_take; lia).
  split.
  - rewrite app_assoc, take_app_le by (rewrite length_app; lia). rewrite take_ge; [done|]. rewrite length_app. lia.
  - rewrite !length_app. lia.
Qed.

Lemma take_put c off p :
  0 <= off <= zlen c -> take (Z.to_nat (off + zlen p)) (put c off p) = take (Z.to_nat off) c ++ p
    /\ off + zlen p <= zlen (put c off p).
Proof.
  intros Ho. destruct p as [|x p]; [|by apply take_write_object]. cbn. unfold zlen in *. cbn.
  rewrite app_nil_r, Z.add_0_r. split; [done|lia].
Qed.

Lemma write_object_split c off p q :
  0 <= off -> write_object (write_object c off p) (off + zlen p) q = write_object c off (p ++ q).
Proof.
  intros Ho. unfold write_object, zlen. set (o := Z.to_nat off).
  replace (Z.to_nat (off + Z.of_nat (length p))) with (o + length p)%nat by lia.
  set (z := take o (c ++ replicate (o - length c) Byte.x00)).
  assert (Hz : length z = o) by (unfold z; rewrite length_take, length_app, length_replicate; lia).
  set (rest := drop (o + length p) c).
  assert (Hpad : (o + length p - length (z ++ p ++ rest) = 0)%nat) by (rewrite !length_app; lia).
  rewrite Hpad. cbn [replicate]. rewrite app_nil_r.
  assert (Hzp : length (z ++ p) = (o + length p)%nat) by (rewrite length_app; lia).
  rewrite !(app_assoc z p rest). rewrite <- Hzp at 1. rewrite take_app_length. rewrite <- !app_assoc. do 2 f_equal.
  rewrite length_app. rewrite (app_assoc z p rest), drop_app_ge by lia. unfold rest. rewrite drop_drop. f_equal. f_equal. lia.
Qed.

Lemma put_split c off p k :
  0 <= off -> put (put c off (take k p)) (off + zlen (take k p)) (drop k p) = put c off p.
Proof.
  intros Ho. destruct (take k p) as [|x t] eqn:Et.
  - cbn. unfold zlen. cbn. rewrite Z.add_0_r. destruct k; [done|]. destruct p; done.
  - destruct (drop k p) as [|y u] eqn:Ed.
    + cbn. rewrite <- (take_drop k p), Et, Ed, app_nil_r. done.
    + rewrite <- (take_drop k p), Et, Ed. cbn [put app]. by apply (write_object_split c off (x :: t) (y :: u)).
Qed.

Lemma seek_fine failure f : f_fail (seek failure f) = false ->
  f_fail f = false /\ f_disk (seek failure f) = view f /\ f_pending (seek failure f) = [].
Proof. unfold seek, flush. destruct (f_fail f) eqn:E; [congruence|]. by destruct failure. Qed.

(** What a step does to the content when the stream has not failed after it. *)
Definition next_view (f : fstream) (ev : event) : bytes :=
  match ev with EWrite off p _ => put (view f) off p | _ => view f end.

Lemma fine_step f ev f' :
  file_step f ev f' -> f_fail f' = false -> (forall off p ec, ev = EWrite off p ec -> 0 <= off) ->
  f_fail f = false /\ view f' = next_view f ev
  /\ match ev with
     | EWrite _ _ ec => ec_bool ec = false
     | ERead off n ec b => ec_bool ec = false /\ b = take n (drop (Z.to_nat off) (view f))
     | _ => True
     end.
Proof.
  intros H Hf Hoff. destruct ev; cbn in H; try (by subst).
  - destruct H as [dv H]. apply file_read_inv in H as (H1 & H2 & H3 & _ & H4 & H5).
    destruct (H4 Hf) as [Hs He]. destruct (seek_fine _ _ Hs) as (Hff & Hd & Hp). destruct (H5 He) as [H6 _].
    rewrite H1, Hd in H6. cbn. unfold view at 1. rewrite H1, H3, Hd, Hp. by split_and!.
  - destruct H as [dv H]. unfold file_write_at in H. destruct (f_fail (seek (d_flush dv) f)) eqn:Hs; [simplify_eq; congruence|].
    destruct (seek_fine _ _ Hs) as (Hff & Hd & Hp). destruct (d_write dv); simplify_eq; try done.
    split_and!; [done| |done]. cbn. unfold view at 1. cbn. rewrite Hd. apply put_split. by eapply Hoff.
Qed.

(** Failure sticks, and a clean call on a stream that has not failed leaves it so. *)
Lemma failed_step f ev f' :
  file_step f ev f' -> f_fail f = true -> f_fail f' = true /\ (clean_event ev -> write_of ev = [] /\ read_of ev = []).
Proof.
  intros H Hf. destruct ev; cbn in H; try (by subst).
  - destruct H as [dv H]. unfold file_read_at, seek in H. rewrite Hf in H. injection H as <- <- <-. cbn. rewrite Hf. split; [done|].
    intros [Hn He]. cbn in He. by destruct n.
  - destruct H as [dv H]. unfold file_write_at, seek in H. rewrite Hf in H. cbv zeta in H. rewrite Hf in H. injection H as <- <-. cbn. done.
Qed.

Lemma clean_step f ev f' : file_step f ev f' -> f_fail f = false -> clean_event ev -> f_fail f' = false.
Proof.
  intros H Hf Hc. destruct ev; cbn in H; try (by subst).
  - destruct H as [dv H]. apply file_read_inv in H as (_ & _ & _ & _ & _ & H). destruct Hc as [Hn He].
    destruct (H He) as [_ H']. destruct (f_fail f'); [|done]. specialize (H' eq_refl). lia.
  - destruct H as [dv H]. unfold file_write_at in H. cbn in Hc. destruct (f_fail (seek _ f)); [by simplify_eq|].
    by destruct (d_write dv); simplify_eq.
Qed.

Lemma failed_run f h f' :
  run_with file_step f h f' -> f_fail f = true -> clean h -> written_bytes h = [] /\ read_bytes h = [].
Proof.
  revert f. induction h as [|ev h IH]; intros f H Hf Hc; [done|]. destruct H as (f1 & H1 & H2).
  apply Forall_cons in Hc as [Hc1 Hc]. destruct (failed_step _ _ _ H1 Hf) as [Hf1 Hev]. destruct (Hev Hc1) as [E1 E2].
  destruct (IH f1 H2 Hf1 Hc) as [E3 E4]. unfold written_bytes, read_bytes in *. cbn. by rewrite E1, E2, E3, E4.
Qed.

Lemma clean_run f h f' : run_with file_step f h f' -> f_fail f = false -> clean h -> f_fail f' = false.
Proof.
  revert f. induction h as [|ev h IH]; intros f H Hf Hc; [by cbn in H; subst|]. destruct H as (f1 & H1 & H2).
  apply Forall_cons in Hc as [Hc1 Hc]. eapply IH; [done| |done]. by eapply clean_step.
Qed.

Lemma fine_before f h f' : run_with file_step f h f' -> f_fail f' = false -> f_fail f = false.
Proof.
  revert f. induction h as [|ev h IH]; intros f H Hf; [by cbn in H; subst|]. destruct H as (f1 & H1 & H2).
  specialize (IH _ H2 Hf). destruct (f_fail f) eqn:E; [|done]. destruct (failed_step _ _ _ H1 E). congruence.
Qed.

(** The file holds what was there before the first write, then what was written. *)
Lemma file_wrote f tr f' r w :
  run_with file_step f tr f' -> f_fail f' = false -> wrote r tr = Some w -> 0 <= r <= zlen (view f) ->
  take (Z.to_nat w) (view f') = take (Z.to_nat r) (view f) ++ written_bytes tr
  /\ r <= w <= zlen (view f').
Proof.
  revert f r. induction tr as [|ev tr IH]; intros f r H Hf Hw Hr.
  { cbn in *. simplify_eq. unfold written_bytes. cbn. rewrite app_nil_r. split; [done|lia]. }
  destruct H as (f1 & H1 & H2). pose proof (fine_before _ _ _ H2 Hf) as Hf1.
  assert (Hoff : forall off p ec, ev = EWrite off p ec -> 0 <= off).
  { intros off p ec ->. cbn in Hw. destruct (off =? r) eqn:E; [|done]. bool_to_prop. lia. }
  destruct (fine_step _ _ _ H1 Hf1 Hoff) as (_ & Hv & Hev). unfold written_bytes in *. cbn [fmap list_fmap concat].
  destruct ev; cbn in Hw, Hv; cbn [write_of app]; try (rewrite <- Hv in *; by apply (IH f1 r)).
  destruct (off =? r) eqn:E; [|done]. bool_to_prop. subst off. rewrite Hev in *.
  pose proof (Zle_0_nat (length p)). destruct (take_put (view f) r p Hr) as [H3 H4]. rewrite <- Hv in H3, H4.
  destruct (IH f1 _ H2 Hf Hw) as [H5 H6]; [unfold zlen in *; lia|].
  rewrite H5, H3, app_assoc. split; [done|]. unfold zlen in *. lia.
Qed.

(** Reads of a prefix that is not written see that prefix. *)
Lemma file_reads f tr f' r w p P :
  run_with file_step f tr f' -> f_fail f' = false -> wrote r tr = Some w -> zlen P <= r <= zlen (view f) ->
  P `prefix_of` view f -> 0 <= p ->
  read_seq p (List.filter is_read tr) -> p + zlen (read_bytes tr) <= zlen P ->
  read_bytes tr = take (length (read_bytes tr)) (drop (Z.to_nat p) P).
Proof.
  revert f r p. induction tr as [|ev tr IH]; intros f r p H Hf Hw Hr HP Hp Hs Hl; [done|].
  destruct H as (f1 & H1 & H2). pose proof (fine_before _ _ _ H2 Hf) as Hf1. pose proof (Zle_0_nat (length P)).
  assert (Hoff : forall off q ec, ev = EWrite off q ec -> 0 <= off).
  { intros off q ec ->. cbn in Hw. destruct (off =? r) eqn:E; [|done]. bool_to_prop. unfold zlen in *. lia. }
  destruct (fine_step _ _ _ H1 Hf1 Hoff) as (_ & Hv & Hev). unfold read_bytes in *. cbn [fmap list_fmap concat] in *.
  destruct ev; cbn [read_of app] in *; cbn in Hw, Hs, Hv; try (rewrite <- Hv in *; by apply (IH f1 r p)).
  - destruct Hs as (<- & _ & Hb & Hec & Hs). rewrite Hec in *. destruct Hev as [_ H3]. rewrite <- Hv in *.
    unfold zlen in *. rewrite length_app in Hl |- *. rewrite <- take_take_drop. f_equal.
    + rewrite Hb. rewrite H3. destruct HP as [rest ->]. rewrite drop_app_le by lia. apply take_app_le.
      rewrite length_drop. lia.
    + rewrite drop_drop, Hb. replace (Z.to_nat off + n)%nat with (Z.to_nat (off + Z.of_nat n)) by lia.
      apply (IH f1 r); try done; lia.
  - destruct (off =? r) eqn:E; [|done]. bool_to_prop. subst off. rewrite Hev in Hw.
    pose proof (Zle_0_nat (length p0)). destruct (take_put (view f) r p0) as [H3 H4]; [unfold zlen in *; lia|]. rewrite <- Hv in H3, H4.
    eapply (IH f1); [done|done|done|unfold zlen in *; lia| |done|done|done].
    etransitivity; [|eexists; symmetry; apply (take_drop (Z.to_nat (r + zlen p0)))].
    rewrite H3. apply prefix_app_r. destruct HP as [rest Hrest]. rewrite Hrest.
    rewrite take_app_ge by (unfold zlen in *; lia). by exists (take (Z.to_nat r - length P) rest).
Qed.

(** ** Theorems *)

Section Theorems.
Context {Sha : Sha256} {ShaL : Sha256Laws} (os_message : Z -> string).

(** C19 (send_file_correct).  [send_file], for every trace in which the file answers
    the reads: what is offered is the base name of the path, the size of the file and
    the SHA-256 of its whole content, every connection carries contiguous chunks of
    the file within the window, and success means that all of it was acknowledged
    and confirmed; an unreadable file is an error before anything is sent. *)
Theorem send_file_correct (fuel : nat) (mm : Z) (content path : bytes) (opts : option Options)
    (tr : list event) (f' : fstream) (q : prog error_code) :
  zlen content <= 2 ^ 62 -> is_int (window (normalize opts)) -> is_int (chunk_size (normalize opts)) ->
  run_with source_step (opened_on content) tr f' ->
  replay (send_file fuel mm (Some content) path opts) tr = Some q ->
  let offered meta := name meta = path_base path /\ size meta = zlen content /\ hash meta = sha256 content in
  (forall t1 t2, tr = t1 ++ t2 -> t1 <> [] ->
     sent t1 = [] \/ exists meta, offered meta /\ attempt_inv content opts meta t1)
  /\ match q with
     | Ret ec => ec_bool ec = false -> exists meta, offered meta /\ attempt_post content opts meta ec tr
     | Undef => False
     | OutOfFuel => (fuel <= receives tr)%nat
     | _ => True
     end.
Proof using ShaL.
  intros Hs Hw Hc Hrun Hr offered. set (meta := MkMeta zero_id (path_base path) (zlen content) zero_hash).
  assert (Hfull : forall m, completed content meta m -> offered m).
  { intros m (_ & H1 & H2 & _ & H3). split_and!; [done|done|]. rewrite H3. change (is_zero_hash (hash meta)) with true.
    cbn. unfold zlen. by rewrite Nat2Z.id, firstn_all. }
  destruct (wp_adequate _ _ _ _ [] _ tr q (wp_send content fuel opts Hw Hc meta mm eq_refl eq_refl Hs)
    (source_senv content (opened_on content) tr _ eq_refl eq_refl Hrun) Hr) as [H1 H2]. split.
  - intros t1 t2 Ht Hne. destruct (H1 t1 t2 Ht Hne) as [?|(m & Hm & Hi)]; [by left|]. right. exists m. auto.
  - destruct q; try done. intros He. destruct (H2 He) as (m & Hm & Hp). exists m. auto.
Qed.

(** The content of a successful reception: [h1] is what happened before the last
    attempt, [h2] that attempt, [r] the offset it started from. *)
Lemma received_content c0 resume h1 h2 f' r w :
  run_with file_step (opened_on c0) (h1 ++ h2) f' -> 0 <= resume <= zlen c0 ->
  wrote resume h1 = Some r -> wrote r h2 = Some w -> clean h2 -> read_whole r h2 ->
  take (Z.to_nat w) (f_disk (flush None f')) = take (Z.to_nat resume) c0 ++ written_bytes (h1 ++ h2)
  /\ (w <= zlen (f_disk (flush None f')) \/ w = 0)
  /\ read_bytes h2 = take (Z.to_nat resume) c0 ++ written_bytes h1.
Proof using.
  intros Hrun Hres H1 H2 Hc [Hseq Hz]. apply run_with_app in Hrun as (f1 & R1 & R2).
  destruct (f_fail f1) eqn:Ef.
  - destruct (failed_run _ _ _ R2 Ef Hc) as [E1 E2]. rewrite E2 in Hz. unfold zlen in Hz. cbn in Hz. subst r.
    pose proof (wrote_bytes _ _ _ H2) as Hw. rewrite E1 in Hw. unfold zlen in Hw. cbn in Hw. subst w.
    pose proof (wrote_bytes _ _ _ H1) as Hr. unfold zlen in Hr. assert (resume = 0) as -> by lia.
    assert (Hn : written_bytes h1 = []) by (destruct (written_bytes h1); [done|cbn in Hr; lia]).
    rewrite written_bytes_app, E1, E2, Hn. cbn. auto.
  - assert (Hf' := clean_run _ _ _ R2 Ef Hc).
    destruct (file_wrote _ _ _ _ _ R1 Ef H1) as [P1 L1]; [cbn; lia|]. change (view (opened_on c0)) with c0 in *.
    destruct (file_wrote _ _ _ _ _ R2 Hf' H2) as [P2 L2]; [lia|].
    change (f_disk (flush None f')) with (view f'). rewrite P2, P1, written_bytes_app, app_assoc.
    split_and!; [done|left; lia|]. rewrite <- P1.
    assert (Hpl : zlen (take (Z.to_nat r) (view f1)) = r) by (unfold zlen in *; rewrite length_take; lia).
    rewrite (file_reads _ _ _ _ _ 0 (take (Z.to_nat r) (view f1)) R2 Hf' H2); try done; try lia.
    + cbn [Z.to_nat]. rewrite drop_0. apply take_ge. unfold zlen in *. lia.
    + exists (drop (Z.to_nat r) (view f1)). by rewrite take_drop.
Qed.

(** C18 (receive_file_correct).  [receive_file], for every trace in which the file, behind
    a stream that buffers, answers the reads and writes, whatever the peers and the
    device do during the transfer: when it reports success, and the write-back of the
    buffer when the stream is closed did not fail (its result is not looked at), the
    file begins with what it held before the resume offset followed by the bytes
    written, which together have the announced size and, unless that is zero, the
    announced hash; and when [truncate] did not fail either, the file is exactly that.
    The file opened is supposed to be at least as long as the one measured before. No
    trace runs into undefined behaviour. *)
Theorem receive_file_correct (fuel : nat) (d : dest) (opts : option Options)
    (tr : list event) (f' : fstream) (q : prog (error_code * option Meta)) :
  Forall renv tr -> measured d <= zlen (default [] (fst (prepared d))) ->
  run_with file_step (opened_on (default [] (fst (prepared d)))) tr f' ->
  replay (receive_file os_message fuel d opts) tr = Some q ->
  match q with
  | Ret (ec, m) => ec_bool ec = false ->
      exists meta, m = Some meta
        /\ let content := take (Z.to_nat (measured d)) (default [] (fst (prepared d))) ++ written_bytes tr in
           zlen content = size meta
           /\ (is_zero_hash (hash meta) = false -> sha256 content = hash meta)
           /\ take (Z.to_nat (size meta)) (file_after (ec, m) f' None false) = content
           /\ file_after (ec, m) f' None true = content
  | Undef => False
  | OutOfFuel => (fuel <= receives tr)%nat
  | _ => True
  end.
Proof using ShaL.
  intros He Hms Hrun Hr. unfold receive_file, receive in Hr. destruct (snd (prepared d)); cbn [negb] in Hr.
  2: { destruct tr as [|ev tr]; [|by destruct ev]. cbn in Hr. by simplify_eq. }
  set (c0 := default [] (fst (prepared d))) in *. set (res := measured d) in *.
  assert (Hz : 0 <= res) by (unfold res, measured, zlen; destruct (existing d); [destruct (can_read d)|]; lia).
  clearbody res c0. revert Hr. guard_false (res <? 0). intros Hr.
  assert (Hp : wp renv (ainv true res) (afuel fuel)
     (pbind (receive_attempts os_message (Z.to_nat (max_attempts (normalize opts))) fuel true res None
        (normalize opts) ec_none) (fun '(ec, m) => Ret (ec, Some m))) []
     (fun r h => exists meta, snd r = Some meta /\ apost true res (fst r, meta) h)).
  { apply wp_bind. eapply wp_mono; [|apply wp_receive_attempts; [lia|lia|done|by left]]. intros [ec m] h Hpost. by exists m. }
  destruct (wp_adequate _ _ _ _ [] _ tr q Hp He Hr) as [_ Ho]. destruct q as [[ec m]| | | | | | | | | |]; try done.
  destruct Ho as (meta & Hm & w & Hw & _ & Hok). cbn in Hm, Hok. subst m. intros Hec. rewrite app_nil_l in *.
  destruct (Hok Hec) as [-> (h1 & h2 & r & -> & Hr1 & Hread & Hhash & Hcl & _)]. exists meta. split; [done|].
  pose proof (wrote_bytes _ _ _ Hw) as Hsz. rewrite wrote_app, Hr1 in Hw.
  destruct (received_content _ _ _ _ _ _ _ Hrun (conj Hz Hms) Hr1 Hw Hcl (Hread (or_introl eq_refl))) as (C1 & C2 & C3).
  cbn zeta. unfold file_after. rewrite Hec. cbn [negb andb]. rewrite C1. split_and!; [|..|done|].
  - unfold zlen in *. rewrite length_app, length_take. lia.
  - intros Hne. rewrite <- (Hhash Hne). unfold local_hash. cbn [orb]. rewrite C3, written_bytes_app, app_assoc. done.
  - unfold truncate. rewrite <- C1. destruct C2 as [C2| ->]; [|done]. rewrite take_app_le by (unfold zlen in *; lia). done.
Qed.

End Theorems.

(** ** Witnesses *)

Import Toy.

(** The base name of a path, and the file sent under it. *)
Definition demo_path : bytes := [Byte.x2f; Byte.x74; Byte.x2f; Byte.x66].

(** A device on which nothing fails, and which leaves what is written in the buffer. *)
Definition lazy : device := MkDevice None None 0 None.

Definition lazy_step (f : fstream) (ev : event) : option fstream :=
  match ev with
  | ERead off n ec b => let '(f', ec', b') := file_read_at f off n lazy in
      if bool_decide (ec' = ec) && bool_decide (b' = b) then Some f' else None
  | EWrite off p ec => let '(f', ec') := file_write_at f off p lazy in
      if bool_decide (ec' = ec) then Some f' else None
  | _ => Some f
  end.

Fixpoint lazy_steps (f : fstream) (tr : list event) : option fstream :=
  match tr with [] => Some f | ev :: tr' => f1 ← lazy_step f ev; lazy_steps f1 tr' end.

Lemma lazy_run f tr f' : lazy_steps f tr = Some f' -> run_with file_step f tr f'.
Proof.
  revert f. induction tr as [|ev tr IH]; intros f H; cbn in *; [by simplify_eq|].
  destruct (lazy_step f ev) as [f1|] eqn:E; [|done]. exists f1. split; [|by apply IH].
  destruct ev; cbn [lazy_step file_step] in *; try (by simplify_eq); exists lazy.
  - destruct (file_read_at f off n lazy) as [[f2 ec2] b2]. destruct (bool_decide _ && bool_decide _) eqn:Hb; [|done].
    bool_to_prop. by simplify_eq.
  - destruct (file_write_at f off p lazy) as [f2 ec2]. destruct (bool_decide _) eqn:Hb; [|done]. bool_to_prop. by simplify_eq.
Qed.

Lemma lazy_source f tr f' :
  lazy_steps f tr = Some f' -> Forall (fun ev => match ev with EWrite _ _ _ => False | _ => True end) tr ->
  run_with source_step f tr f'.
Proof.
  intros H Ht. apply lazy_run in H. revert f H. induction Ht as [|ev tr Hev _ IH]; intros f H; [done|].
  destruct H as (f1 & H1 & H2). exists f1. split; [by destruct ev|auto].
Qed.

Lemma whole_run : run_with source_step (opened_on Demo.file) SendDemo.whole (opened_on Demo.file).
Proof. apply lazy_source; [vm_compute; reflexivity|by repeat constructor]. Qed.

Lemma send_file_correct_witness :
  replay (send_file 9 65536 (Some Demo.file) demo_path (Some Demo.opts)) SendDemo.whole = Some (Ret ec_none)
  /\ exists meta, (name meta = [Byte.x66] /\ size meta = 2 /\ hash meta = sha256 Demo.file)
       /\ attempt_post Demo.file (Some Demo.opts) meta ec_none SendDemo.whole.
Proof.
  assert (H : replay (send_file 9 65536 (Some Demo.file) demo_path (Some Demo.opts)) SendDemo.whole
    = Some (Ret ec_none)) by (vm_compute; reflexivity).
  split; [exact H|].
  destruct (send_file_correct 9 65536 Demo.file demo_path (Some Demo.opts) SendDemo.whole
    (opened_on Demo.file) _ ltac:(vm_compute; discriminate) ltac:(unfold is_int; cbn; lia)
    ltac:(unfold is_int; cbn; lia) whole_run H) as [_ H1].
  exact (H1 eq_refl).
Defined.

(** A file that does not exist yet. *)
Definition no_file : dest := MkDest None false false true true.

(** The stream at the end: the second chunk is still in its buffer. *)
Definition buffered : fstream := MkFstream [Byte.x61] 1 [Byte.x62] false.

Lemma buffered_run : run_with file_step (opened_on []) Demo.trace buffered.
Proof. apply lazy_run. vm_compute. reflexivity. Qed.

Lemma receive_file_correct_witness :
  replay (receive_file Demo.no_os 9 no_file (Some Demo.opts)) Demo.trace = Some (Ret (ec_none, Some Demo.file_meta))
  /\ file_after (ec_none, Some Demo.file_meta) buffered None true = Demo.file
  /\ sha256 (file_after (ec_none, Some Demo.file_meta) buffered None true) = hash Demo.file_meta.
Proof.
  assert (H : replay (receive_file Demo.no_os 9 no_file (Some Demo.opts)) Demo.trace
    = Some (Ret (ec_none, Some Demo.file_meta))) by (vm_compute; reflexivity).
  split; [exact H|]. split; [vm_compute; reflexivity|].
  destruct (receive_file_correct Demo.no_os 9 no_file (Some Demo.opts) Demo.trace buffered _
    (Demo.renv_b_ok Demo.trace ltac:(vm_compute; reflexivity)) ltac:(vm_compute; discriminate) buffered_run H eq_refl)
    as (meta & Hm & _ & Hh & _ & Hf).
  rewrite Hf. injection Hm as <-. apply Hh. vm_compute. reflexivity.
Defined.

(** But the same success is reported when closing the stream cannot write the buffer
    back: the file then has another content. *)
Lemma close_failure_unreported :
  run_with file_step (opened_on []) Demo.trace buffered
  /\ replay (receive_file Demo.no_os 9 no_file (Some Demo.opts)) Demo.trace = Some (Ret (ec_none, Some Demo.file_meta))
  /\ let left := file_after (ec_none, Some Demo.file_meta) buffered (Some [Byte.x61]) true in
     left <> Demo.file /\ sha256 left <> hash Demo.file_meta.
Proof. split; [exact buffered_run|]. split; [vm_compute; reflexivity|]. split; vm_compute; discriminate. Qed.
