(* ===== verification/TransferHash.v ===== *)
(** * TransferHash

    Routines of [src/transfer/transfer.cpp] against the definitions they compute:
    hashing an object buffer by buffer ([hash_reader], the constructor of
    [HashingWriter]) is hashing its first bytes at once, and [count_in_flight] is the
    number of chunks the unacknowledged bytes were cut into. *)

From S2P Require Import Prelude Errors Wire Result Crypto TransferCodec TransferCodecSpec.
From S2P Require Import Prog ProgLogic Transfer TransferReceive TransferSend Net.

(** ** A program over an object *)

(** The program with its first reads answered by the object. *)
Fixpoint on_object {A} (obj : bytes) (p : prog A) : prog A :=
  match p with
  | ReadAt off n k => let '(ec, buf) := read_object obj off n in on_object obj (k ec buf)
  | _ => p
  end.

Section Hash.
Context {Sha : Sha256} {ShaL : Sha256Laws} {A : Type}.
Context (obj : bytes) (size : Z) (err : error_code -> prog A) (k : sha256_context -> prog A).

Lemma read_object_in off n :
  (Z.to_nat off + n <= length obj)%nat -> read_object obj off n = (ec_none, take n (drop (Z.to_nat off) obj)).
Proof. intros H. unfold read_object. rewrite decide_True; [done|]. rewrite length_take, length_drop. lia. Qed.

Lemma read_object_past off n :
  (length obj < Z.to_nat off + n)%nat -> (0 < n)%nat ->
  exists buf, read_object obj off n = (Transfer.make_error_code Transfer.other, buf).
Proof.
  intros H Hn. unfold read_object. rewrite decide_False; [by eexists|]. rewrite length_take, length_drop. lia.
Qed.

(** The loop: with the first [off] bytes hashed, it hashes the rest or fails. *)
Lemma on_object_hash_loop fuel off ctx :
  0 <= off <= size -> off <= zlen obj -> hashed ctx (take (Z.to_nat off) obj) ->
  size - off <= Z.of_nat fuel * hash_buf ->
  (size <= zlen obj -> exists ctx', hashed ctx' (take (Z.to_nat size) obj)
     /\ on_object obj (hash_loop fuel off size ctx err k) = on_object obj (k ctx'))
  /\ (zlen obj < size -> on_object obj (hash_loop fuel off size ctx err k)
       = on_object obj (err (Transfer.make_error_code Transfer.other))).
Proof.
  revert off ctx. induction fuel as [|fuel IH]; intros off ctx Ho Hl Hc Hf; cbn [hash_loop].
  { assert (off = size) as -> by lia. rewrite Z.ltb_irrefl. split; [eauto|lia]. }
  destruct (off <? size) eqn:Hlt; bool_to_prop.
  2: { assert (off = size) as -> by lia. split; [eauto|lia]. }
  set (n := if hash_buf >? size - off then size - off else hash_buf).
  assert (Hn : 0 < n <= size - off /\ (n = hash_buf \/ n = size - off)).
  { unfold n, hash_buf in *. change (Z.shiftl 256 10) with 262144 in *. destruct (_ >? _) eqn:Hg; bool_to_prop; lia. }
  unfold read_or. cbn [on_object]. destruct (Z.le_gt_cases (off + n) (zlen obj)) as [Hin|Hout].
  - rewrite read_object_in by (unfold zlen in *; lia).
    change (ec_bool ec_none) with false. cbv iota. apply IH.
    + lia.
    + lia.
    + replace (Z.to_nat (off + n)) with (Z.to_nat off + Z.to_nat n)%nat by lia.
      rewrite <- take_take_drop. by apply hashed_update.
    + unfold hash_buf in *. change (Z.shiftl 256 10) with 262144 in *. nia.
  - destruct (read_object_past off (Z.to_nat n)) as [buf ->]; [unfold zlen in *; lia|lia|].
    split; [lia|]. intros _. reflexivity.
Qed.

End Hash.

(** ** Chunks in flight *)

(** Cutting [n] bytes into pieces of [chunk] bytes, the last one shorter. *)
Fixpoint cut (fuel : nat) (chunk n : Z) : list Z :=
  match fuel with
  | O => []
  | S fuel' => if n <=? 0 then [] else Z.min chunk n :: cut fuel' chunk (n - chunk)
  end.

Lemma cut_length fuel chunk n :
  0 < chunk -> n <= Z.of_nat fuel -> zlen (cut fuel chunk n) = Z.max 0 ((n + chunk - 1) / chunk).
Proof.
  intros Hc. revert n. induction fuel as [|fuel IH]; intros n Hf; cbn [cut].
  - assert ((n + chunk - 1) / chunk < 1) by (apply Z.div_lt_upper_bound; lia). unfold zlen. cbn. lia.
  - destruct (n <=? 0) eqn:Hn; bool_to_prop.
    + assert ((n + chunk - 1) / chunk < 1) by (apply Z.div_lt_upper_bound; lia). unfold zlen. cbn. lia.
    + assert (Hd : (n + chunk - 1) / chunk = (n - chunk + chunk - 1) / chunk + 1).
      { replace (n + chunk - 1) with ((n - chunk + chunk - 1) + 1 * chunk) by lia. by rewrite Z.div_add by lia. }
      specialize (IH (n - chunk) ltac:(lia)). unfold zlen in *. cbn [length]. rewrite Nat2Z.inj_succ, IH, Hd.
      assert (0 <= (n - chunk + chunk - 1) / chunk) by (apply Z.div_pos; lia). lia.
Qed.

(** ** Theorems *)

(** C20 (hash_reader_equiv).  Over every object, [hash_reader] with its buffer of 256 KiB
    continues exactly as with the SHA-256 of the object's first [size] bytes at once,
    and fails with [other] when the object is shorter; the [HashingWriter] that resumes
    at [size] has that hash too. *)
Theorem hash_reader_equiv `{Sha : Sha256} `{ShaL : !Sha256Laws} {A : Type} (obj : bytes) (size : Z)
    (err : error_code -> prog A) (k : bytes -> prog A) (kw : HashingWriter -> prog A) :
  0 <= size ->
  on_object obj (hash_reader size err k)
    = on_object obj (if size <=? zlen obj then k (sha256 (take (Z.to_nat size) obj)) else err (terr Transfer.other))
  /\ (size <= zlen obj -> exists hw, hw_offset hw = size /\ hw_sum hw = sha256 (take (Z.to_nat size) obj)
       /\ on_object obj (HashingWriter_new true size err kw) = on_object obj (kw hw)).
Proof.
  intros Hs. pose proof (hash_fuel_enough size Hs) as Hf. split.
  - destruct (on_object_hash_loop obj size err (fun ctx => k (sha256_finish ctx)) (hash_fuel size) 0 sha256_starts)
      as [H1 H2]; [lia|unfold zlen; lia|apply hashed_starts|done|].
    unfold hash_reader. destruct (size <=? zlen obj) eqn:Hl; bool_to_prop; [|by apply H2].
    destruct (H1 Hl) as (ctx & Hc & ->). by rewrite (hashed_finish _ _ Hc).
  - intros Hl. unfold HashingWriter_new. destruct (size >? 0) eqn:Hp; bool_to_prop; cbn [negb].
    + destruct (on_object_hash_loop obj size err (fun ctx => kw (MkHashingWriter size ctx)) (hash_fuel size) 0 sha256_starts)
        as [H1 _]; [lia|unfold zlen; lia|apply hashed_starts|done|].
      destruct (H1 Hl) as (ctx & Hc & ->). exists (MkHashingWriter size ctx). split_and!; [done| |done].
      by apply hashed_finish.
    + assert (size = 0) as -> by lia. exists (MkHashingWriter 0 sha256_starts). split_and!; [done| |done].
      apply (hashed_finish _ _ hashed_starts).
Qed.

(** The number the sender compares with its window is the
    number of pieces of [chunk_size] bytes, the last one possibly shorter, that the bytes
    sent and not yet acknowledged make up, without undefined arithmetic. *)
Theorem count_in_flight_equiv (acked next_off chunk : Z) (fuel : nat) :
  0 < chunk -> 0 <= acked -> next_off + chunk < 2 ^ 63 -> next_off - acked <= chunk * (2 ^ 31 - 1) ->
  next_off - acked <= Z.of_nat fuel ->
  count_in_flight acked next_off chunk = Ok (zlen (cut fuel chunk (next_off - acked))).
Proof.
  intros Hc Ha Hn Hw Hf. rewrite cut_length by done. unfold count_in_flight.
  destruct (next_off <=? acked) eqn:E; bool_to_prop.
  { assert ((next_off - acked + chunk - 1) / chunk < 1) by (apply Z.div_lt_upper_bound; lia). f_equal. lia. }
  rewrite decide_True by (unfold is_int64; lia). rewrite Z.quot_div_nonneg by lia.
  set (q := (next_off - acked + chunk - 1) / chunk).
  assert (0 <= q) by (apply Z.div_pos; lia).
  assert (q < 2 ^ 31) by (apply Z.div_lt_upper_bound; lia).
  f_equal. unfold to_int. rewrite Z.mod_small by lia. lia.
Qed.

(** ** Witnesses *)

Import Toy.

Lemma hash_reader_equiv_witness :
  on_object Demo.file (hash_reader 2 (fun e => Ret (inl e)) (fun h => Ret (inr h)))
  = Ret (inr (sha256 Demo.file)).
Proof.
  destruct (hash_reader_equiv Demo.file 2 (fun e => Ret (inl e)) (fun h => Ret (inr h)) (fun _ => Ret (inl ec_none)))
    as [H _]; [lia|]. exact H.
Defined.

