(* ===== verification/TransferSafety.v ===== *)
(** * TransferSafety

    A sender and a receiver with their retries, over any number of connections that
    break at any time: the only assumption on the network is that a message received
    was sent by the other side (what the sealed records of [Session] and
    [ConnReader.duplex_delivery] give).  What the receiver has written is, at every
    moment, part of the source, and the sender never reports success before the
    receiver holds the verified content. *)

From S2P Require Import Prelude Errors Wire Result Crypto.
From S2P Require Import TransferCodec TransferCodecSpec Prog ProgLogic Transfer TransferReceive TransferSend.

(** ** Writes come from chunks *)

(** Every write is of a chunk received before. *)
Definition writes_received (h : list event) : Prop :=
  forall o b ec, EWrite o b ec ∈ h ->
    exists i, frame_wf (FChunk i o b) /\ frame_bytes (FChunk i o b) ∈ received h.

Lemma writes_received_snoc h ev :
  match ev with EWrite _ _ _ => False | _ => True end -> writes_received h -> writes_received (h ++ [ev]).
Proof.
  intros Hev H o b ec Hin. apply elem_of_app in Hin as [Hin|Hin].
  - destruct (H _ _ _ Hin) as (i & Hf & Hr). exists i. split; [done|by apply received_mono].
  - apply list_elem_of_singleton in Hin. by subst ev.
Qed.

Lemma writes_received_write h i o b ec :
  frame_wf (FChunk i o b) -> frame_bytes (FChunk i o b) ∈ received h ->
  writes_received h -> writes_received (h ++ [EWrite o b ec]).
Proof.
  intros Hf Hr H o' b' ec' Hin. apply elem_of_app in Hin as [Hin|Hin].
  - destruct (H _ _ _ Hin) as (j & Hj & Hjr). exists j. split; [done|by apply received_mono].
  - apply list_elem_of_singleton in Hin. injection Hin as -> -> ->. exists i. split; [done|by apply received_mono].
Qed.

Lemma received_last h ec m : m ∈ received (h ++ [EReceive ec m]).
Proof. unfold received. rewrite omap_app. cbn. set_solver. Qed.

(** A call that is no write. *)
Ltac quiet := cbn beta; split; [by apply writes_received_snoc|]; cbn beta.

Section Receiver.
Context {Sha : Sha256}.
Variable os_message : Z -> string.

Notation wr := writes_received.
Notation keeps p h := (wlp wr p h (fun _ => wr)).

Lemma keeps_send {A} m (a : A) h : wr h -> keeps (ConnSend m (fun _ => Ret a)) h.
Proof using. intros H ec. quiet. by apply writes_received_snoc. Qed.

Lemma keeps_verify meta dec local (ret : error_code -> received_once) h :
  wr h -> keeps (verify_and_ack_done meta dec local (fun e => Ret (ret e))) h.
Proof using.
  intros H. apply wlp_framed. intros b _ ec. quiet. apply (writes_received_snoc _ (ESend b ec)) in H; [|done].
  destruct (ec_bool ec); [done|]. by destruct (negb _).
Qed.

Lemma keeps_await_done meta w local h : wr h -> keeps (await_done meta w local) h.
Proof using.
  intros H ec m. quiet. apply (writes_received_snoc _ (EReceive ec m)) in H; [|done].
  destruct (ec_bool ec); [done|]. apply wlp_decode_or; [done|]. intros f _ _. destruct (_ || _); [done|].
  by apply (keeps_verify meta _ local (fun e => MkReceived e meta w)).
Qed.

Lemma keeps_hash_loop {A} fuel off size ctx err (k : _ -> prog A) h :
  wr h -> (forall e h', wr h' -> keeps (err e) h') -> (forall c h', wr h' -> keeps (k c) h') ->
  keeps (hash_loop fuel off size ctx err k) h.
Proof using.
  revert off ctx h. induction fuel as [|fuel IH]; intros off ctx h H He Hk; cbn [hash_loop];
    (destruct (off <? size); [|by apply Hk]); [done|].
  intros ec buf. quiet. destruct (ec_bool ec); [apply He|apply IH]; try done; by apply writes_received_snoc.
Qed.

Lemma keeps_receive_loop fuel opts meta hw w since k h :
  wr h -> (forall hw' w' h', wr h' -> keeps (k hw' w') h') ->
  keeps (receive_loop os_message fuel opts meta hw w since k) h.
Proof using.
  intros H Hk. revert hw w since h H. induction fuel as [|fuel IH]; intros hw w since h H; cbn [receive_loop];
    (destruct (w <? size meta); [|by apply Hk]); [done|].
  intros ec m. quiet. assert (Hm := received_last h ec m).
  apply (writes_received_snoc _ (EReceive ec m)) in H; [|done]. set (h1 := h ++ _) in *. clearbody h1.
  destruct (ec_bool ec); [done|]. apply wlp_decode_or; [done|]. intros f Hf ->.
  destruct f as [|i o|i r|i o d|i o|i st dh|i r]; cbn [decoded_of d_typ d_id d_offset d_data].
  all: repeat (case_bool_decide; try done); cbn [negb orb]; try done.
  2, 3: destruct (negb _); [done|]; by apply (keeps_verify meta _ (hw_sum hw) (fun e => MkReceived e meta w)).
  destruct (negb _); [done|]. apply wlp_i64. destruct (_ >? _); [done|].
  unfold hw_write_at. destruct (negb _); [apply wlp_framed; intros; by apply keeps_send|].
  intros ec2. assert (H2 : wr (h1 ++ [EWrite o d ec2])) by (by eapply writes_received_write).
  split; [done|]. clear H. destruct (ec_bool ec2); [apply wlp_framed; intros; by apply keeps_send|].
  apply wlp_i64. set (h2 := h1 ++ _) in *. clearbody h2.
  assert (Hgo : forall h3, wr h3 -> keeps (if (since + 1 >=? ack_every opts) || (o + zlen d =? size meta)
    then framed (encode_ack (id meta) (o + zlen d)) (fun ack =>
         send_or ack (fun ec => Ret (MkReceived (map_conn_err ec) meta (o + zlen d)))
           (receive_loop os_message fuel opts meta (MkHashingWriter (hw_offset hw + zlen d) (sha256_update (hw_ctx hw) d))
              (o + zlen d) 0 k))
    else receive_loop os_message fuel opts meta (MkHashingWriter (hw_offset hw + zlen d) (sha256_update (hw_ctx hw) d))
              (o + zlen d) (since + 1) k) h3).
  { intros h3 H3. destruct (_ || _); [|by apply IH]. apply wlp_framed. intros b _ ec3. quiet.
    apply (writes_received_snoc _ (ESend b ec3)) in H3; [|done]. destruct (ec_bool ec3); [done|by apply IH]. }
  unfold progress. destruct (on_progress opts); [|by apply Hgo]. quiet. apply Hgo. by apply writes_received_snoc.
Qed.

Lemma keeps_receive_once fuel reads resume want opts h :
  wr h -> keeps (receive_once os_message fuel reads resume want opts) h.
Proof using.
  intros H ec m. quiet. apply (writes_received_snoc _ (EReceive ec m)) in H; [|done].
  destruct (ec_bool ec); [done|]. apply wlp_decode_or; [done|]. intros f _ _. destruct (negb _); [done|].
  cbv zeta. do 2 (match goal with |- wlp _ (if ?b then _ else _) _ _ => destruct b end;
    [apply wlp_framed; intros; by apply keeps_send|]).
  set (meta := d_meta _). set (go := framed _ _).
  assert (Hgo : forall h', wr h' -> keeps go h').
  { intros h' H'. unfold go. apply wlp_framed. intros b _ ec2. quiet.
    apply (writes_received_snoc _ (ESend b ec2)) in H'; [|done]. destruct (ec_bool ec2); [done|].
    set (body := if resume =? size meta then _ else _).
    assert (Hbody : forall h2, wr h2 -> keeps body h2).
    { intros h2 H2. unfold body. destruct (resume =? size meta).
      - destruct reads; [|by apply keeps_await_done]. apply keeps_hash_loop; [done|done|].
        intros. by apply keeps_await_done.
      - unfold HashingWriter_new. destruct (resume >? 0); [destruct (negb reads)|].
        + apply wlp_framed. intros. by apply keeps_send.
        + apply keeps_hash_loop; [done|intros; apply wlp_framed; intros; by apply keeps_send|].
          intros. apply keeps_receive_loop; [done|]. intros. by apply keeps_await_done.
        + apply keeps_receive_loop; [done|]. intros. by apply keeps_await_done. }
    unfold progress. destruct (on_progress opts); [|by apply Hbody]. quiet. apply Hbody. by apply writes_received_snoc. }
  destruct (accept opts); [|by apply Hgo]. intros aec. quiet.
  apply (writes_received_snoc _ (EAccept meta aec)) in H; [|done].
  destruct (ec_bool aec); [|by apply Hgo]. apply wlp_framed. intros. by apply keeps_send.
Qed.

Lemma keeps_receive_attempts left fuel reads w want o last h :
  wr h -> keeps (receive_attempts os_message left fuel reads w want o last) h.
Proof using.
  revert w want last h. induction left as [|left IH]; intros w want last h H; cbn [receive_attempts]; [done|].
  apply wlp_bind. eapply wlp_mono; [|by apply keeps_receive_once].
  intros [e m w'] h' H'. cbn [r_err]. destruct (negb _); [done|]. destruct (_ || _); [done|].
  intros c. quiet. apply (writes_received_snoc _ (ERedial c)) in H'; [|done]. destruct c; [by apply IH|done].
Qed.

Lemma receive_writes fuel reads resume opts tr q :
  replay (receive os_message fuel reads resume opts) tr = Some q -> wr tr.
Proof using.
  intros Hr. assert (H0 : wr []) by (intros o b ec Hin; by apply not_elem_of_nil in Hin).
  refine (wlp_adequate wr _ [] (fun _ => wr) tr q _ Hr H0).
  unfold receive. destruct (resume <? 0); [done|]. apply wlp_bind.
  eapply wlp_mono; [|by apply keeps_receive_attempts]. by intros [ec m] h'.
Qed.

End Receiver.

(** ** The two sides together *)

(** The bytes written so far are those of the source from [resume] on. *)
Definition agrees (data : bytes) (resume : Z) (h : list event) : Prop :=
  written_bytes h = take (length (written_bytes h)) (drop (Z.to_nat resume) data).

(** Writes that follow each other and come from the source add up to a part of it. *)
Lemma wrote_agrees data off h w :
  0 <= off -> wrote off h = Some w ->
  (forall o b ec, EWrite o b ec ∈ h -> b = take (length b) (drop (Z.to_nat o) data)) -> agrees data off h.
Proof.
  unfold agrees. revert off. induction h as [|ev h IH]; intros off H0 Hw Hs; [done|].
  assert (Hs' : forall o b ec, EWrite o b ec ∈ h -> b = take (length b) (drop (Z.to_nat o) data))
    by (intros o b ec Hin; eapply Hs; by apply list_elem_of_further).
  destruct ev as [| | |o b ec| | | |]; cbn in Hw; try (by apply IH).
  destruct (o =? off) eqn:Ho; [|done]. bool_to_prop. subst o.
  unfold written_bytes in *. cbn [fmap list_fmap concat write_of].
  destruct (ec_bool ec) eqn:Hec; [by apply IH|].
  pose proof (Zle_0_nat (length b)). specialize (IH (off + zlen b) ltac:(unfold zlen; lia) Hw Hs').
  specialize (Hs off b ec ltac:(by apply list_elem_of_here)).
  rewrite length_app, <- take_take_drop, <- Hs, drop_drop. f_equal. etransitivity; [exact IH|].
  unfold zlen. by replace (Z.to_nat (off + Z.of_nat (length b))) with (Z.to_nat off + length b)%nat by lia.
Qed.

(** The messages received are among those the other side sent; a failed [receive]
    returns the empty message. *)
Definition delivered (from to : list event) : Prop := forall m, m <> [] -> m ∈ received to -> m ∈ sent from.

(** At some moment the receiver had written the rest of [data] from [resume] on, in the
    attempts [h1] and [h2], and in the last had verified the hash of everything. *)
Definition held {Sha : Sha256} (data : bytes) (reads : bool) (resume : Z) (meta : Meta) (tr : list event) : Prop :=
  exists h1 h2 t r, tr = (h1 ++ h2) ++ t
    /\ written_bytes (h1 ++ h2) = take (Z.to_nat (size meta - resume)) (drop (Z.to_nat resume) data)
    /\ wrote resume h1 = Some r /\ verified reads r meta (hash meta) h2.

Section Together.
Context {Sha : Sha256} {ShaL : Sha256Laws}.
Variable os_message : Z -> string.
Context (data : bytes) (meta : Meta) (sopts ropts : option Options) (mm resume : Z) (fuel rfuel : nat) (reads : bool).
Context (Hid : length (id meta) = 16%nat) (Hhash : length (hash meta) = 32%nat) (Hsize : size meta <= 2 ^ 62).
Context (Hwin : is_int (window (normalize sopts))) (Hchunk : is_int (chunk_size (normalize sopts))).
Context (trs trr : list event) (q : prog error_code) (q' : prog (error_code * option Meta)).
Context (Hsenv : Forall (senv data) trs) (Hrenv : Forall renv trr).
Context (Hsend : replay (send fuel mm meta sopts) trs = Some q).
Context (Hreceive : replay (receive os_message rfuel reads resume ropts) trr = Some q').
Context (Hto : delivered trs trr) (Hback : delivered trr trs).

(** At any moment the sender was honest. *)
Lemma sender_honest : sent trs = [] \/ exists meta', completed data meta meta' /\ honest data meta' trs.
Proof using ShaL Hid Hhash Hsize Hwin Hchunk Hsenv Hsend.
  destruct (decide (trs = [])) as [E|Hne]; [left; by rewrite E|].
  pose proof (wp_adequate _ _ _ _ [] _ trs q (wp_send data fuel sopts Hwin Hchunk meta mm Hid Hhash Hsize) Hsenv Hsend) as [Hi _].
  destruct (Hi trs [] ltac:(by rewrite app_nil_r) Hne) as [Hs|(m & Hm & c & h1 & h2 & Heq & _ & _ & H1 & H2)]; [by left|].
  right. exists m. split; [done|]. cbn in Heq. rewrite Heq. apply honest_app; [done|by eapply sinv_honest].
Qed.

(** What the receiver writes. *)
Lemma written_source t1 t2 o b ec :
  trr = t1 ++ t2 -> EWrite o b ec ∈ t1 -> b = take (length b) (drop (Z.to_nat o) data).
Proof using ShaL Hid Hhash Hsize Hwin Hchunk Hsenv Hsend Hreceive Hto.
  intros Ht Hin. destruct (receive_writes os_message _ _ _ _ _ _ Hreceive o b ec) as (i & Hf & Hr).
  { rewrite Ht. apply elem_of_app. by left. }
  apply Hto in Hr; [|done]. destruct sender_honest as [Hs|(m & _ & _ & Hh)].
  { rewrite Hs in Hr. by apply not_elem_of_nil in Hr. }
  assert (Hc : (o, b) ∈ chunks trs).
  { unfold chunks. apply list_elem_of_omap. exists (frame_bytes (FChunk i o b)). split; [done|].
    by rewrite chunk_of_frame. }
  unfold from_source in Hh. rewrite Forall_forall in Hh. apply (Hh _ Hc).
Qed.

Lemma receiver_inv t1 t2 : trr = t1 ++ t2 -> t1 <> [] -> 0 <= resume /\ ainv reads resume t1.
Proof using ShaL Hrenv Hreceive Hid Hhash.
  intros Ht Hne. destruct (resume <? 0) eqn:Hneg; bool_to_prop.
  { exfalso. revert Hreceive. rewrite Ht. unfold receive. guard_true (resume <? 0). by destruct t1 as [|[] t1]. }
  split; [done|]. revert Hne. revert t1 t2 Ht.
  refine (proj1 (wp_adequate renv (ainv reads resume) (afuel rfuel) (receive os_message rfuel reads resume ropts) []
    (fun _ _ => True) trr q' _ Hrenv Hreceive)).
  unfold receive. guard_false (resume <? 0). apply wp_bind.
  eapply wp_mono; [|apply wp_receive_attempts; [lia|lia|done|by left]]. by intros [ec m] h _.
Qed.

(** At any moment the bytes written are the source's. *)
Lemma receiver_agrees t1 t2 : trr = t1 ++ t2 -> agrees data resume t1.
Proof using ShaL Hid Hhash Hsize Hwin Hchunk Hsenv Hsend Hreceive Hto Hrenv.
  intros Ht. destruct (decide (t1 = [])) as [E|Hne]; [by rewrite E|].
  destruct (receiver_inv _ _ Ht Hne) as (H0 & h1 & h2 & r & -> & _ & Hw & _ & (w & Hw2) & _).
  eapply wrote_agrees; [done|by rewrite wrote_app, Hw|]. intros o b ec. by apply written_source with t2.
Qed.

(** A confirmation that arrived was sent for a verified content of the offer. *)
Lemma confirmed meta' i st dh :
  completed data meta meta' -> honest data meta' trs -> id meta' = i -> is_zero_hash (hash meta') = false ->
  frame_wf (FDone i st dh) -> st <> Byte.x00 -> frame_bytes (FDone i st dh) ∈ sent trr ->
  held data reads resume meta' trr.
Proof using ShaL Hid Hhash Hsize Hwin Hchunk Hsenv Hsend Hreceive Hto Hrenv.
  intros Hc [Hof _] Hi Hz Hf Hst Hin.
  unfold sent in Hin. apply list_elem_of_omap in Hin as (ev & Hev & Hm). destruct ev as [m ec| | | | | | |]; try done.
  apply (inj Some) in Hm as ->. apply list_elem_of_split in Hev as (t1 & t2 & Ht).
  rewrite cons_middle, app_assoc in Ht.
  destruct (receiver_inv _ _ Ht) as (H0 & h1 & h2 & r & Heq & Hs & Hw & Hr & (w & Hw2) & _ & Hd); [by destruct t1|].
  destruct h2 as [|ev h2 _] using rev_ind.
  { rewrite app_nil_r in Heq. destruct Hs as [->|(c & h' & ->)]; [by destruct t1|].
    by apply app_inj_tail in Heq as [_ ?]. }
  rewrite app_assoc in Heq. apply app_inj_tail in Heq as [-> <-].
  destruct (Hd _ _ _ _ _ _ eq_refl Hf eq_refl Hst) as (m & Hmi & Hmw & Hv). rewrite <- (app_assoc h1) in Ht.
  assert (m = meta') as ->.
  { apply Hof; [done|]. apply Hto; [done|]. rewrite Ht. apply received_mono. destruct Hv as [Hv _]. unfold received in *.
    rewrite omap_app. apply elem_of_app. by right. }
  assert (Hv' := Hv). destruct Hv' as (_ & Hwr & _ & Hdh & _).
  exists h1, (h2 ++ [ESend (frame_bytes (FDone i st dh)) ec]), t2, r. split_and!; [exact Ht| |exact Hw|rewrite <- (Hdh Hz); exact Hv].
  pose proof (receiver_agrees _ _ Ht) as Ha. unfold agrees in Ha. rewrite Ha. f_equal.
  assert (Hall : wrote resume (h1 ++ h2 ++ [ESend (frame_bytes (FDone i st dh)) ec]) = Some (size meta'))
    by (by rewrite wrote_app, Hw).
  apply wrote_bytes in Hall. unfold zlen in Hall. lia.
Qed.

End Together.

Lemma success_held `{Sha : Sha256} `{ShaL : !Sha256Laws} (os_message : Z -> string)
    (data : bytes) (meta : Meta) (sopts ropts : option Options) (mm resume : Z) (fuel rfuel : nat) (reads : bool)
    (trs trr : list event) (ec : error_code) (q' : prog (error_code * option Meta)) :
  length (id meta) = 16%nat -> length (hash meta) = 32%nat -> size meta <= 2 ^ 62 ->
  is_int (window (normalize sopts)) -> is_int (chunk_size (normalize sopts)) ->
  Forall (senv data) trs -> Forall renv trr ->
  replay (send fuel mm meta sopts) trs = Some (Ret ec) ->
  replay (receive os_message rfuel reads resume ropts) trr = Some q' ->
  delivered trs trr -> delivered trr trs ->
  ec_bool ec = false ->
  exists meta', completed data meta meta'
    /\ (is_zero_hash (hash meta') = false -> held data reads resume meta' trr).
Proof.
  intros Hid Hhash Hsize Hwin Hchunk Hsenv Hrenv Hsend Hreceive Hto Hback Hec.
  pose proof (wp_adequate _ _ _ _ [] _ trs _ (wp_send data fuel sopts Hwin Hchunk meta mm Hid Hhash Hsize) Hsenv Hsend)
    as [_ Hpost].
  destruct (Hpost Hec) as (meta' & Hc & Hp). exists meta'. split; [done|]. intros Hz.
  destruct (Hp Hec) as (chunk & h1 & h2 & Heq & _ & Hh & Hs). cbn [app] in Heq, Hh.
  destruct (Hs Hec) as (o0 & _ & _ & st & dh & Hst & Hdh & Hin).
  eapply (confirmed os_message data meta sopts ropts mm resume fuel rfuel reads); try done.
  - split; [apply Hc|done].
  - apply Hback; [done|]. rewrite Heq. unfold received in *. rewrite omap_app. apply elem_of_app. by right.
Qed.

(** ** Theorems *)

(** A sender and a receiver with their retries, over any
    connections on which the receiver only gets messages the sender sent, in whatever
    order, with losses and repetitions: at every moment the bytes the receiver has
    written are exactly the source's bytes from the resume offset on. *)
Theorem transfer_integrity `{Sha : Sha256} `{ShaL : !Sha256Laws} (os_message : Z -> string)
    (data : bytes) (meta : Meta) (sopts ropts : option Options) (mm resume : Z) (fuel rfuel : nat) (reads : bool)
    (trs trr : list event) (q : prog error_code) (q' : prog (error_code * option Meta)) :
  length (id meta) = 16%nat -> length (hash meta) = 32%nat -> size meta <= 2 ^ 62 ->
  is_int (window (normalize sopts)) -> is_int (chunk_size (normalize sopts)) ->
  Forall (senv data) trs -> Forall renv trr ->
  replay (send fuel mm meta sopts) trs = Some q ->
  replay (receive os_message rfuel reads resume ropts) trr = Some q' ->
  delivered trs trr ->
  forall t1 t2, trr = t1 ++ t2 -> agrees data resume t1.
Proof. intros. by eapply receiver_agrees. Qed.

(** C15 (no_false_success).  A sender and a receiver with their retries, over any
    connections on which each only gets messages the other one sent, in whatever order,
    with losses and repetitions: if [send] reports success, then the receiver had, at
    some moment, written all of the source from its resume offset on and verified that
    the whole object has the source's hash, whatever connections broke on the way and
    whatever the receiver reports itself.  (A hash of zeros means none.) *)
Theorem no_false_success `{Sha : Sha256} `{ShaL : !Sha256Laws} (os_message : Z -> string)
    (data : bytes) (meta : Meta) (sopts ropts : option Options) (mm resume : Z) (fuel rfuel : nat) (reads : bool)
    (trs trr : list event) (ec : error_code) (q' : prog (error_code * option Meta)) :
  length (id meta) = 16%nat -> length (hash meta) = 32%nat -> size meta <= 2 ^ 62 ->
  is_int (window (normalize sopts)) -> is_int (chunk_size (normalize sopts)) ->
  Forall (senv data) trs -> Forall renv trr ->
  replay (send fuel mm meta sopts) trs = Some (Ret ec) ->
  replay (receive os_message rfuel reads resume ropts) trr = Some q' ->
  delivered trs trr -> delivered trr trs ->
  ec_bool ec = false ->
  exists meta', completed data meta meta'
    /\ (is_zero_hash (hash meta') = false -> held data reads resume meta' trr).
Proof. apply success_held. Qed.


(** ** Witnesses *)

Module SafetyDemo.
Import Toy TransferReceive.Demo.

(** The receiver's run that answers [SendDemo.whole]: two chunks, acknowledged together. *)
Definition answer : list event :=
  [EReceive ok (frame_bytes (FOffer file_meta));
   ESend (frame_bytes (FAccept file_id 0)) ok;
   EReceive ok (frame_bytes (FChunk file_id 0 [Byte.x61])); EWrite 0 [Byte.x61] ok;
   EReceive ok (frame_bytes (FChunk file_id 1 [Byte.x62])); EWrite 1 [Byte.x62] ok;
   ESend (frame_bytes (FAck file_id 2)) ok;
   EReceive ok (frame_bytes (FDone file_id Byte.x01 (sha256 file)));
   ESend (frame_bytes (FDone file_id Byte.x01 (sha256 file))) ok].

Definition slow : Options := MkOptions 1 4 2 8 false false false.

Lemma delivered_b from to :
  forallb (fun m => bool_decide (m ∈ sent from)) (received to) = true -> delivered from to.
Proof.
  intros H m _ Hm. rewrite forallb_forall in H. rewrite list_elem_of_In in Hm.
  specialize (H m Hm). by apply bool_decide_eq_true in H.
Qed.

End SafetyDemo.

Import Toy.

Lemma no_false_success_witness :
  replay (send 9 65536 SendDemo.blank (Some Demo.opts)) SendDemo.whole = Some (Ret ec_none)
  /\ exists meta', completed Demo.file SendDemo.blank meta'
       /\ (is_zero_hash (hash meta') = false -> held Demo.file false 0 meta' SafetyDemo.answer).
Proof.
  assert (H : replay (send 9 65536 SendDemo.blank (Some Demo.opts)) SendDemo.whole = Some (Ret ec_none))
    by (vm_compute; reflexivity).
  split; [exact H|].
  exact (no_false_success Demo.no_os Demo.file SendDemo.blank (Some Demo.opts) (Some SafetyDemo.slow) 65536 0 9 9 false
    SendDemo.whole SafetyDemo.answer ec_none (Ret (ec_none, Some Demo.file_meta)) eq_refl eq_refl ltac:(cbn; lia)
    ltac:(unfold is_int; cbn; lia) ltac:(unfold is_int; cbn; lia)
    (SendDemo.senv_b_ok SendDemo.whole ltac:(vm_compute; reflexivity))
    (Demo.renv_b_ok SafetyDemo.answer ltac:(vm_compute; reflexivity))
    H ltac:(vm_compute; reflexivity) (SafetyDemo.delivered_b SendDemo.whole SafetyDemo.answer ltac:(vm_compute; reflexivity))
    (SafetyDemo.delivered_b SafetyDemo.answer SendDemo.whole ltac:(vm_compute; reflexivity)) eq_refl).
Defined.
