(* ===== verification/TransferConn.v ===== *)
(** * TransferConn

    Programs of the transfer layer as the application of connections: [conn.send]
    and [conn.receive] of [src/transfer/transfer.cpp] are calls of [Conn], made by
    one thread on the current connection while the threads of all its connections
    run in any order.  The messages such a program gets were sent by the program at
    the other ends, so the theorems of [TransferSafety] hold over connections. *)

From stdpp Require Import relations.
From S2P Require Import Prelude Errors Wire Stream Result Protocol Crypto Session Config Conn ConnInv ConnWriter ConnReader.
From S2P Require Import TransferCodec TransferCodecSpec Prog ProgLogic Transfer TransferReceive TransferSend TransferSafety.

(** ** The calls of one connection *)

Section Calls.
Context {Str R : Type} {BS : ByteStream Str} {Rng : Drbg_api R} {G : Gcm}.
Implicit Types c : conn Str R.

(** The messages on their way into the queue are in [S], those returned were received. *)
Definition call_from (S : bytes -> Prop) (got : list bytes) (a : apc) : Prop :=
  match a with
  | A_send p _ => S p
  | A_send_lock o _ | A_send_wait o _ => S (pt o)
  | A_ret_recv _ m => m = [] \/ m ∈ got
  | _ => True
  end.

Record calls_from (S : bytes -> Prop) c : Prop := {
  cf_queued : forall p, p ∈ texts (h_queued (hist c)) -> S p;
  cf_apps : Forall (call_from S (h_received (hist c))) (apps c)
}.

Lemma call_from_mono (S S' : bytes -> Prop) got got' a :
  (forall p, S p -> S' p) -> (forall m, m ∈ got -> m ∈ got') -> call_from S got a -> call_from S' got' a.
Proof. intros HS Hg. destruct a; cbn; naive_solver. Qed.

Lemma calls_from_mono (S S' : bytes -> Prop) c : (forall p, S p -> S' p) -> calls_from S c -> calls_from S' c.
Proof.
  intros HS [H1 H2]. split; [by auto|]. eapply Forall_impl; [exact H2|]. intros a. by apply call_from_mono.
Qed.

(** Only [send] brings a text into the queue. *)
Definition sends_only (S : bytes -> Prop) (a : action) : Prop :=
  match a with ActCall (CallSend p _) => S p | _ => True end.

Lemma texts_snoc l o p : p ∈ texts (l ++ [o]) -> p ∈ texts l \/ typ o = kMsgText /\ p = pt o.
Proof.
  rewrite texts_app, elem_of_app. destruct o as [t q]. rewrite texts_one. intros [H|H]; [by left|right].
  case_decide; [|by apply not_elem_of_nil in H]. by apply list_elem_of_singleton in H as ->.
Qed.

Lemma call_from_wake S got a :
  call_from S got a -> call_from S got (wake_app_send a) /\ call_from S got (wake_app_recv a) /\ call_from S got (wake_app_done a).
Proof. by destruct a. Qed.

Lemma calls_wake S got (f : apc -> apc) l :
  (forall a, call_from S got a -> call_from S got (f a)) ->
  Forall (call_from S got) l -> Forall (call_from S got) (f <$> l).
Proof. intros Hf Hl. apply Forall_fmap. eapply Forall_impl; [exact Hl|]. apply Hf. Qed.

Ltac solve_calls H2 :=
  repeat match goal with
  | |- Forall _ (_ <$> _) => apply calls_wake; [intros; by apply call_from_wake|]
  | |- Forall _ (<[_ := _]> _) => apply Forall_insert
  | |- Forall _ (_ ++ _) => apply Forall_app; split; [|apply Forall_singleton]
  | |- Forall _ _ => exact H2
  end.

Lemma calls_from_step S c a c' :
  sends_only S a -> calls_from S c -> step c a = Some c' -> calls_from S c'.
Proof.
  intros Ha [H1 H2] H.
  assert (Hget : forall n a, apps c !! n = Some a -> call_from S (h_received (hist c)) a)
    by (intros n x; apply Forall_lookup_1, H2).
  destruct a; step_cases H; frame_write; (split; cbn; [try exact H1|]).
  all: try (solve_calls H2; try done).
  all: try match goal with |- forall p, p ∈ pt <$> filter _ (?l ++ [?o]) -> _ =>
    change (forall p, p ∈ texts (l ++ [o]) -> S p); intros p' [Hp|[Ht ->]]%texts_snoc; [by apply H1|] end.
  all: try (eapply Forall_impl; [exact H2|]; intros x; apply call_from_mono; [done|]; intros; apply elem_of_app; by left).
  all: try match goal with E : apps _ !! _ = Some _ |- _ => apply Hget in E; exact E end.
  all: try match goal with E : apps _ !! _ = Some _ |- _ => apply Hget in E end.
  all: cbn; try (by left); try (by destruct f); try (right; apply elem_of_app; right; by apply list_elem_of_singleton).
  all: try done. do 3 apply call_from_wake. exact H.
Qed.

Lemma calls_from_new S s r se f : calls_from S (Conn_new s r se f).
Proof. split; [intros p Hp; by apply not_elem_of_nil in Hp|constructor]. Qed.

Lemma received_step c a c' m : step c a = Some c' -> m ∈ h_received (hist c) -> m ∈ h_received (hist c').
Proof.
  intros H Hm. destruct a; step_cases H; frame_write; try done; apply elem_of_app; by left.
Qed.

End Calls.

(** ** A program and its connections *)

Section Clients.
Context {Str R : Type} {BS : ByteStream Str} {Rng : Drbg_api R} {G : Gcm}.

(** A connection with what it was made from. *)
Record endpoint := Endpoint {
  e_str : Str; e_rng : seal_rng R; e_sess : session; e_cfg : FrozenConfig; e_conn : conn Str R
}.

Definition with_conn (e : endpoint) (c : conn Str R) : endpoint :=
  Endpoint (e_str e) (e_rng e) (e_sess e) (e_cfg e) c.
Definition connect (s : Str) (r : seal_rng R) (se : session) (f : FrozenConfig) : endpoint :=
  Endpoint s r se f (Conn_new s r se f).

(** The connections so far, the last of which is the current one ([cur]); the rest of
    the program; the call in progress; the calls that returned. *)
Record client (A : Type) := Client {
  ends : list endpoint; code : prog A; pending : option nat; log : list event
}.
Arguments Client {A}. Arguments ends {A}. Arguments code {A}. Arguments pending {A}. Arguments log {A}.

(** Calls that do not concern a connection. *)
Definition local_event (ev : event) : Prop :=
  match ev with ESend _ _ | EReceive _ _ | ERedial _ => False | _ => True end.

(** The threads of a connection, and [shutdown] from its destructor. *)
Definition internal (a : action) : Prop :=
  match a with ActCall (CallSend _ _) | ActCall (CallReceive _) => False | _ => True end.

Inductive cstep {A} : client A -> client A -> Prop :=
  | C_thread es p n l i e a c' :
      es !! i = Some e -> internal a -> step (e_conn e) a = Some c' ->
      cstep (Client es p n l) (Client (<[i := with_conn e c']> es) p n l)
  | C_send es e c' m k l :                                       (* conn.send(m, ec) *)
      step (e_conn e) (ActCall (CallSend m NoTimeout)) = Some c' ->
      cstep (Client (es ++ [e]) (ConnSend m k) None l)
            (Client (es ++ [with_conn e c']) (ConnSend m k) (Some (length (apps (e_conn e)))) l)
  | C_sent es e m k n ec l :
      apps (e_conn e) !! n = Some (A_ret_send ec) ->
      cstep (Client (es ++ [e]) (ConnSend m k) (Some n) l) (Client (es ++ [e]) (k ec) None (l ++ [ESend m ec]))
  | C_receive es e c' k l :                                      (* conn.receive(ec) *)
      step (e_conn e) (ActCall (CallReceive NoTimeout)) = Some c' ->
      cstep (Client (es ++ [e]) (ConnReceive k) None l)
            (Client (es ++ [with_conn e c']) (ConnReceive k) (Some (length (apps (e_conn e)))) l)
  | C_received es e k n ec m l :
      apps (e_conn e) !! n = Some (A_ret_recv ec m) ->
      cstep (Client (es ++ [e]) (ConnReceive k) (Some n) l) (Client (es ++ [e]) (k ec m) None (l ++ [EReceive ec m]))
  | C_redial es k l s r se f :                                   (* owned = o.redial(dec) *)
      let mm := Some (f_max_message_bytes f) in
      cstep (Client es (Redial k) None l) (Client (es ++ [connect s r se f]) (k mm) None (l ++ [ERedial mm]))
  | C_redial_failed es k l :
      cstep (Client es (Redial k) None l) (Client es (k None) None (l ++ [ERedial None]))
  | C_local es p p' l ev :
      local_event ev -> replay p [ev] = Some p' -> cstep (Client es p None l) (Client es p' None (l ++ [ev])).

(** The log, with the message of a [send] in progress. *)
Definition calls {A} (s : client A) : list event :=
  log s ++ match code s, pending s with ConnSend m _, Some _ => [ESend m ec_none] | _, _ => [] end.

(** Everything the client's connections queued was sent by the program, and everything
    the program got was received on one of them. *)
Definition end_ok (S : bytes -> Prop) (e : endpoint) : Prop :=
  reachable (e_str e) (e_rng e) (e_sess e) (e_cfg e) (e_conn e) /\ calls_from S (e_conn e).

Definition got_by (es : list endpoint) (m : bytes) : Prop :=
  exists e, e ∈ es /\ m ∈ h_received (hist (e_conn e)).

Record client_inv {A} (p0 : prog A) (s : client A) : Prop := {
  ci_replay : replay p0 (log s) = Some (code s);
  ci_ends : Forall (end_ok (fun p => p ∈ sent (calls s))) (ends s);
  ci_got : forall m, m <> [] -> m ∈ received (log s) -> got_by (ends s) m
}.

Lemma end_ok_mono (S S' : bytes -> Prop) e : (forall p, S p -> S' p) -> end_ok S e -> end_ok S' e.
Proof. intros HS [H1 H2]. split; [done|by eapply calls_from_mono]. Qed.

Lemma end_ok_step S e a c' : end_ok S e -> sends_only S a -> step (e_conn e) a = Some c' -> end_ok S (with_conn e c').
Proof. intros [H1 H2] Ha H. split; [by eapply reachable_step|by eapply calls_from_step]. Qed.

Lemma got_by_step es es' e a c' m :
  step (e_conn e) a = Some c' -> (forall x, x ∈ es -> x = e \/ x ∈ es') -> with_conn e c' ∈ es' ->
  got_by es m -> got_by es' m.
Proof.
  intros H Hes Hin (x & Hx & Hm). destruct (Hes x Hx) as [->|Hx']; [|by exists x].
  exists (with_conn e c'). split; [done|]. by eapply received_step.
Qed.

Lemma client_inv_start {A} (p0 : prog A) s r se f : client_inv p0 (Client [connect s r se f] p0 None []).
Proof.
  split; [done| |intros m _ Hm; by apply not_elem_of_nil in Hm].
  apply Forall_singleton. split; [by exists []|apply calls_from_new].
Qed.

(** Adding one call to the log. *)
Lemma replay_snoc {A} (p0 p q : prog A) l ev :
  replay p0 l = Some p -> replay p [ev] = Some q -> replay p0 (l ++ [ev]) = Some q.
Proof. intros H1 H2. by rewrite replay_app, H1. Qed.

Lemma sent_calls_idle {A} es (p : prog A) l : calls (Client es p None l) = l.
Proof. unfold calls. cbn. destruct p; apply app_nil_r. Qed.

Lemma sent_app h1 h2 : sent (h1 ++ h2) = sent h1 ++ sent h2.
Proof. unfold sent. by rewrite omap_app. Qed.
Lemma sent_more h t m : m ∈ sent h -> m ∈ sent (h ++ t).
Proof. rewrite sent_app, elem_of_app. by left. Qed.
Lemma lookup_last {T} (l : list T) x : x ∈ l ++ [x].
Proof. apply elem_of_app. right. by apply list_elem_of_singleton. Qed.

Lemma elem_snoc {T} (l : list T) x y z : z ∈ l ++ [x] -> z = x \/ z ∈ l ++ [y].
Proof. rewrite !elem_of_app, list_elem_of_singleton. tauto. Qed.

(** A thread of some connection. *)
Lemma client_inv_thread {A} (p0 : prog A) es p n l i e a c' :
  client_inv p0 (Client es p n l) -> es !! i = Some e -> internal a -> step (e_conn e) a = Some c' ->
  client_inv p0 (Client (<[i := with_conn e c']> es) p n l).
Proof.
  intros [H1 H2 H3] Hi Ha Hs. split; cbn in *; [done| |].
  - apply Forall_insert; [done|]. eapply end_ok_step; [by eapply Forall_lookup_1| |done].
    by destruct a as [| | | | |[]|].
  - intros m Hm Hg. eapply got_by_step; [done| | |by apply H3].
    + intros x Hx. apply list_elem_of_lookup in Hx as [j Hj]. destruct (decide (i = j)) as [->|Hne]; [left; congruence|].
      right. apply list_elem_of_lookup. exists j. by rewrite list_lookup_insert_ne.
    + apply list_elem_of_lookup. exists i. apply list_lookup_insert_eq. by eapply lookup_lt_Some.
Qed.

(** A call on the current connection begins. *)
Lemma client_inv_begin {A} (p0 : prog A) es e p n l a c' :
  client_inv p0 (Client (es ++ [e]) p None l) -> step (e_conn e) a = Some c' ->
  sends_only (fun x => x ∈ sent (calls (Client (es ++ [with_conn e c']) p (Some n) l))) a ->
  client_inv p0 (Client (es ++ [with_conn e c']) p (Some n) l).
Proof.
  intros [H1 H2 H3] Hs Ha. rewrite sent_calls_idle in H2. split; cbn [ends code log] in *; [done| |].
  - assert (Hm : forall x, end_ok (fun q => q ∈ sent l) x ->
      end_ok (fun q => q ∈ sent (calls (Client (es ++ [with_conn e c']) p (Some n) l))) x).
    { intros x. apply end_ok_mono. intros q Hq. unfold calls. cbn. rewrite sent_app. apply elem_of_app. by left. }
    apply Forall_app in H2 as [H2 He]. rewrite Forall_singleton in He.
    apply Forall_app. split; [by eapply Forall_impl|]. apply Forall_singleton. eapply end_ok_step; [by apply Hm|done|done].
  - intros m Hm Hg. eapply got_by_step; [done| | |by apply H3]; [intros x; apply elem_snoc|apply lookup_last].
Qed.

(** A call returns. *)
Lemma client_inv_return {A} (p0 : prog A) es p p' n l ev :
  client_inv p0 (Client es p n l) -> replay p [ev] = Some p' ->
  (forall x, x ∈ sent (calls (Client es p n l)) -> x ∈ sent (l ++ [ev])) ->
  (forall m, m <> [] -> m ∈ received [ev] -> got_by es m) ->
  client_inv p0 (Client es p' None (l ++ [ev])).
Proof.
  intros [H1 H2 H3] Hr Hs Hg. split; cbn [ends code log] in *.
  - by eapply replay_snoc.
  - rewrite sent_calls_idle. eapply Forall_impl; [exact H2|]. intros e. by apply end_ok_mono.
  - intros m Hm Hin. rewrite received_app in Hin. apply elem_of_app in Hin as [Hin|Hin]; auto.
Qed.

(** A new connection. *)
Lemma client_inv_connect {A} (p0 : prog A) es p l s r se f :
  client_inv p0 (Client es p None l) -> client_inv p0 (Client (es ++ [connect s r se f]) p None l).
Proof.
  intros [H1 H2 H3]. rewrite sent_calls_idle in H2. split; [done| |]; cbn [ends code log] in *.
  - rewrite sent_calls_idle. apply Forall_app. split; [done|]. apply Forall_singleton.
    split; [by exists []|apply calls_from_new].
  - intros m Hm Hin. destruct (H3 m Hm Hin) as (e & He & Hg). exists e. split; [apply elem_of_app; by left|done].
Qed.

Lemma client_inv_step {A} (p0 : prog A) s s' : client_inv p0 s -> cstep s s' -> client_inv p0 s'.
Proof.
  intros I H. inversion H as [es p n l i e a c' Hi Ha Hs|es e c' m k l Hs|es e m k n ec l Hr
    |es e c' k l Hs|es e k n ec m l Hr|es k l s0 r se f|es k l|es p p' l ev Hev Hr]; subst.
  - by eapply client_inv_thread.
  - eapply client_inv_begin; [done|done|]. unfold calls. cbn. rewrite sent_app. apply lookup_last.
  - eapply client_inv_return; [done|cbn; by rewrite decide_True| |intros x _ Hx; by apply not_elem_of_nil in Hx].
    intros x. unfold calls. cbn. by rewrite !sent_app.
  - by eapply client_inv_begin.
  - assert (Hm : m = [] \/ m ∈ h_received (hist (e_conn e))).
    { pose proof (ci_ends _ _ I) as [_ He]%Forall_app. rewrite Forall_singleton in He. destruct He as [_ [_ He]].
      by apply (Forall_lookup_1 _ _ _ _ He) in Hr. }
    eapply client_inv_return; [done|done| |].
    + intros x. unfold calls. cbn. rewrite app_nil_r. apply sent_more.
    + intros x Hx Hin. apply list_elem_of_singleton in Hin as ->. destruct Hm as [?|Hm]; [done|].
      exists e. split; [apply lookup_last|done].
  - apply client_inv_connect. eapply client_inv_return; [done|done| |intros x _ Hx; by apply not_elem_of_nil in Hx].
    intros x. unfold calls. cbn. rewrite app_nil_r. apply sent_more.
  - eapply client_inv_return; [done|done| |intros x _ Hx; by apply not_elem_of_nil in Hx].
    intros x. unfold calls. cbn. rewrite app_nil_r. apply sent_more.
  - eapply client_inv_return; [done|done| |].
    + intros x. rewrite sent_calls_idle. apply sent_more.
    + intros x _ Hx. destruct ev; try done; by apply not_elem_of_nil in Hx.
Qed.

(** ** Two clients *)

Definition runs {A} (s : Str) (r : seal_rng R) (se : session) (f : FrozenConfig) (p0 : prog A) (t : client A) : Prop :=
  rtc cstep (Client [connect s r se f] p0 None []) t.

Lemma client_inv_runs {A} s r se f (p0 : prog A) t : runs s r se f p0 t -> client_inv p0 t.
Proof.
  unfold runs. intros H. apply (rtc_ind_r (fun s => client_inv p0 s) _) in H; [done| |].
  - apply client_inv_start.
  - intros. by eapply client_inv_step.
Qed.

Context {ST : StreamSpec Str}.

(** [eb] reads what [ea] wrote, under the same session key. *)
Definition linked (ea eb : endpoint) : Prop :=
  session_ready (e_sess eb) /\ e_sess ea = e_sess eb /\ f_on_message (e_cfg eb) = None
  /\ exists wire, outgoing (strm (e_conn ea)) = outgoing (e_str ea) ++ wire /\ incoming (e_str eb) `prefix_of` wire.

(** Every connection of [b] is the other end of one of [a]. *)
Definition wired {A B} (a : client A) (b : client B) : Prop :=
  forall eb, eb ∈ ends b -> exists ea, ea ∈ ends a /\ linked ea eb.

Lemma wired_delivered `{!DrbgLaws R} `{!GcmLaws} {A B} (p : prog A) (p' : prog B) (a : client A) (b : client B) :
  client_inv p a -> client_inv p' b -> wired a b -> delivered (calls a) (log b).
Proof.
  intros Ia Ib Hw m Hm Hin. destruct (ci_got _ _ Ib m Hm Hin) as (eb & Heb & Hg).
  destruct (Hw eb Heb) as (ea & Hea & Hk & Hse & Hf & wire & Ho & Hi).
  destruct (proj1 (Forall_forall _ _) (ci_ends _ _ Ia) ea Hea) as [Hra Hqa].
  destruct (proj1 (Forall_forall _ _) (ci_ends _ _ Ib) eb Heb) as [Hrb _]. rewrite Hse in Hra.
  pose proof (delivery_prefix _ _ _ _ _ _ _ _ _ _ Hk Hf Hra Hrb Ho Hi) as [rest Hp].
  apply (cf_queued _ _ Hqa). rewrite Hp, !elem_of_app. by left; left.
Qed.

(** The calls so far are a run of the program. *)
Lemma calls_replay {A} (p : prog A) (a : client A) : client_inv p a -> exists q, replay p (calls a) = Some q.
Proof.
  intros [H _ _]. unfold calls. destruct (code a) as [| | |m k| | | | | | |] eqn:E; destruct (pending a).
  all: rewrite ?app_nil_r; try (by eexists).
  exists (k ec_none). eapply replay_snoc; [done|]. cbn. by rewrite decide_True.
Qed.

(** *** Schedules *)

(** A decision of the scheduler: a thread of the [i]-th connection, or the program. *)
Inductive cact := Thread (i : nat) (a : action) | Begin | Return | Local (ev : event).

Definition internal_b (a : action) : bool :=
  match a with ActCall (CallSend _ _) | ActCall (CallReceive _) => false | _ => true end.
Definition local_b (ev : event) : bool :=
  match ev with ESend _ _ | EReceive _ _ | ERedial _ => false | _ => true end.

Definition crun1 {A} (s : client A) (x : cact) : option (client A) :=
  match x, s with
  | Thread i a, Client es p n l =>
      if internal_b a then
        match es !! i with
        | Some e => match step (e_conn e) a with
                    | Some c' => Some (Client (<[i := with_conn e c']> es) p n l)
                    | None => None
                    end
        | None => None
        end
      else None
  | Begin, Client [e] (ConnSend m k) None l =>
      match step (e_conn e) (ActCall (CallSend m NoTimeout)) with
      | Some c' => Some (Client [with_conn e c'] (ConnSend m k) (Some (length (apps (e_conn e)))) l)
      | None => None
      end
  | Begin, Client [e] (ConnReceive k) None l =>
      match step (e_conn e) (ActCall (CallReceive NoTimeout)) with
      | Some c' => Some (Client [with_conn e c'] (ConnReceive k) (Some (length (apps (e_conn e)))) l)
      | None => None
      end
  | Return, Client [e] (ConnSend m k) (Some n) l =>
      match apps (e_conn e) !! n with
      | Some (A_ret_send ec) => Some (Client [e] (k ec) None (l ++ [ESend m ec]))
      | _ => None
      end
  | Return, Client [e] (ConnReceive k) (Some n) l =>
      match apps (e_conn e) !! n with
      | Some (A_ret_recv ec m) => Some (Client [e] (k ec m) None (l ++ [EReceive ec m]))
      | _ => None
      end
  | Local ev, Client es p None l =>
      if local_b ev then
        match replay p [ev] with Some p' => Some (Client es p' None (l ++ [ev])) | None => None end
      else None
  | _, _ => None
  end.

Fixpoint crun {A} (s : client A) (l : list cact) : option (client A) :=
  match l with
  | [] => Some s
  | x :: l' => match crun1 s x with Some s' => crun s' l' | None => None end
  end.

Lemma crun1_sound {A} (s s' : client A) x : crun1 s x = Some s' -> cstep s s'.
Proof.
  destruct s as [es p n l], x as [i a| | |ev]; unfold crun1; intros H.
  - destruct (internal_b a) eqn:Ha; [|done]. repeat case_match; simplify_eq.
    econstructor; [done| |done]. by destruct a as [| | | | |[]|].
  - repeat case_match; simplify_eq; [by apply (C_send [])|by apply (C_receive [])].
  - repeat case_match; simplify_eq; [by apply (C_sent [])|by apply (C_received [])].
  - repeat case_match; simplify_eq. constructor; [by destruct ev|done].
Qed.

Lemma crun_sound {A} (s s' : client A) l : crun s l = Some s' -> rtc cstep s s'.
Proof.
  revert s. induction l as [|x l IH]; intros s H; cbn in H; [by simplify_eq|].
  destruct (crun1 s x) as [s1|] eqn:E; [|done]. eapply rtc_l; [by eapply crun1_sound|auto].
Qed.

End Clients.
Arguments endpoint : clear implicits. Arguments client : clear implicits.
Arguments Client {Str R A}. Arguments ends {Str R A}. Arguments code {Str R A}.
Arguments pending {Str R A}. Arguments log {Str R A}.

(** ** Theorems *)

(** C4 (transfer_over_connections).  The whole stack: [send] and [receive] with their
    retries, each run by one thread over its own connections, whose reader and
    writer threads run in any order, every connection of one side reading what a
    connection of the other side wrote under the same session key.  Whatever the
    interleaving and wherever the connections break, the receiver has at every moment
    written exactly the source's bytes from its resume offset on; and when [send] has
    returned success, the receiver held the whole, verified content. *)
Theorem transfer_over_connections {Str R : Type} `{BS : ByteStream Str} `{ST : !StreamSpec Str}
    `{Rng : Drbg_api R} `{RngL : !DrbgLaws R} `{G : Gcm} `{GL : !GcmLaws} `{Sha : Sha256} `{ShaL : !Sha256Laws}
    (os_message : Z -> string) (data : bytes) (meta : Meta) (sopts ropts : option Options)
    (mm resume : Z) (fuel rfuel : nat) (reads : bool)
    (ss sr : Str) (rs rr : seal_rng R) (ses ser : session) (fs fr : FrozenConfig)
    (a : client Str R error_code) (b : client Str R (error_code * option Meta)) :
  length (id meta) = 16%nat -> length (hash meta) = 32%nat -> size meta <= 2 ^ 62 ->
  is_int (window (normalize sopts)) -> is_int (chunk_size (normalize sopts)) ->
  runs ss rs ses fs (send fuel mm meta sopts) a ->
  runs sr rr ser fr (receive os_message rfuel reads resume ropts) b ->
  Forall (senv data) (log a) -> Forall renv (log b) ->
  wired a b -> wired b a ->
  agrees data resume (log b)
  /\ (code a = Ret ec_none ->
      exists meta', completed data meta meta'
        /\ (is_zero_hash (hash meta') = false -> held data reads resume meta' (calls b))).
Proof.
  intros Hid Hhash Hsize Hwin Hchunk Ha Hb Hs Hr Hab Hba.
  apply client_inv_runs in Ha. apply client_inv_runs in Hb.
  pose proof (wired_delivered _ _ _ _ Ha Hb Hab) as Dab. pose proof (wired_delivered _ _ _ _ Hb Ha Hba) as Dba.
  destruct (calls_replay _ _ Ha) as [qa Hqa]. destruct (calls_replay _ _ Hb) as [qb Hqb].
  assert (Hs' : Forall (senv data) (calls a)).
  { apply Forall_app. split; [done|]. destruct (code a), (pending a); repeat constructor. }
  assert (Hr' : Forall renv (calls b)).
  { apply Forall_app. split; [done|]. destruct (code b), (pending b); repeat constructor. }
  split.
  - eapply (receiver_agrees os_message data meta sopts ropts mm resume fuel rfuel reads Hid Hhash Hsize Hwin Hchunk
      (calls a) (log b) qa (code b) Hs' Hr Hqa (ci_replay _ _ Hb) Dab (log b) []). by rewrite app_nil_r.
  - intros Hret. assert (Hca : calls a = log a) by (unfold calls; rewrite Hret; apply app_nil_r).
    rewrite Hca in *. pose proof (ci_replay _ _ Ha) as Hra. rewrite Hret in Hra.
    assert (Dab' : delivered (log a) (calls b)).
    { intros m Hm Hin. apply Dab; [done|]. unfold calls in Hin. rewrite received_app, elem_of_app in Hin.
      destruct Hin as [?|Hin]; [done|]. destruct (code b), (pending b); by apply not_elem_of_nil in Hin. }
    by eapply success_held.
Qed.

(** ** Witness: a whole transfer over two connections *)

Module ConnDemo.
Import Toy TransferReceive.Demo.

(** Run the calls of a trace one after the other on one connection: the application
    thread and the writer for a [send], the reader and the application for a [receive]. *)
Fixpoint schedule (n : nat) (tr : list event) : list cact :=
  match tr with
  | [] => []
  | ESend _ _ :: tr' =>
      [Begin; Thread 0 (ActApp n); Thread 0 (ActApp n); Return; Thread 0 ActWriter; Thread 0 ActWriter]
      ++ schedule (S n) tr'
  | EReceive _ _ :: tr' =>
      [Thread 0 ActReader; Thread 0 ActReader; Thread 0 ActReader; Begin; Thread 0 (ActApp n); Thread 0 (ActApp n); Return]
      ++ schedule (S n) tr'
  | ev :: tr' => Local ev :: schedule n tr'
  end.

(** The sealed records of the messages. *)
Fixpoint records (n : Z) (l : list bytes) : bytes :=
  match l with
  | [] => []
  | m :: l' => Conn.Demo.peer_record n (MkOutbound kMsgText m) ++ records (n + 1) l'
  end.

Definition rng0 : seal_rng toy_drbg := SealRng false (ToyDrbg 7 true).
Definition cfg0 : FrozenConfig := Conn.Demo.config 4 4 None.
Definition over (input : bytes) : endpoint mem_stream toy_drbg :=
  connect (MemStream input [] false) rng0 toy_session cfg0.

Definition to_sender : bytes := records 7 (sent SafetyDemo.answer).
Definition to_receiver : bytes := records 7 (sent SendDemo.whole).

Definition sender0 : client mem_stream toy_drbg error_code :=
  Client [over to_sender] (send 9 65536 SendDemo.blank (Some opts)) None [].
Definition receiver0 : client mem_stream toy_drbg (error_code * option Meta) :=
  Client [over to_receiver] (receive no_os 9 false 0 (Some SafetyDemo.slow)) None [].

Definition sender1 : client mem_stream toy_drbg error_code :=
  default sender0 (crun sender0 (schedule 0 SendDemo.whole)).
Definition receiver1 : client mem_stream toy_drbg (error_code * option Meta) :=
  default receiver0 (crun receiver0 (schedule 0 SafetyDemo.answer)).

End ConnDemo.

Import Toy.

Lemma transfer_over_connections_witness :
  code ConnDemo.sender1 = Ret ec_none /\ log ConnDemo.receiver1 = SafetyDemo.answer
  /\ agrees Demo.file 0 (log ConnDemo.receiver1)
  /\ exists meta', completed Demo.file SendDemo.blank meta'
       /\ (is_zero_hash (hash meta') = false -> held Demo.file false 0 meta' (calls ConnDemo.receiver1)).
Proof.
  assert (Hc : code ConnDemo.sender1 = Ret ec_none) by (vm_compute; reflexivity).
  assert (Hs : log ConnDemo.sender1 = SendDemo.whole) by (vm_compute; reflexivity).
  assert (Hr : log ConnDemo.receiver1 = SafetyDemo.answer) by (vm_compute; reflexivity).
  split; [exact Hc|]. split; [exact Hr|].
  pose (ea := List.hd (ConnDemo.over []) (ends ConnDemo.sender1)).
  pose (eb := List.hd (ConnDemo.over []) (ends ConnDemo.receiver1)).
  assert (Ha : ends ConnDemo.sender1 = [ea]) by (vm_compute; reflexivity).
  assert (Hb : ends ConnDemo.receiver1 = [eb]) by (vm_compute; reflexivity).
  assert (Hab : wired ConnDemo.sender1 ConnDemo.receiver1).
  { intros e He. rewrite Hb in He. apply list_elem_of_singleton in He as ->. rewrite Ha.
    exists ea. split; [by apply list_elem_of_singleton|]. split_and!; [vm_compute; reflexivity..|].
    exists ConnDemo.to_receiver. split; [vm_compute; reflexivity|]. exists []. vm_compute. reflexivity. }
  assert (Hba : wired ConnDemo.receiver1 ConnDemo.sender1).
  { intros e He. rewrite Ha in He. apply list_elem_of_singleton in He as ->. rewrite Hb.
    exists eb. split; [by apply list_elem_of_singleton|]. split_and!; [vm_compute; reflexivity..|].
    exists ConnDemo.to_sender. split; [vm_compute; reflexivity|]. exists []. vm_compute. reflexivity. }
  destruct (transfer_over_connections Demo.no_os Demo.file SendDemo.blank (Some Demo.opts) (Some SafetyDemo.slow)
    65536 0 9 9 false (MemStream ConnDemo.to_sender [] false) (MemStream ConnDemo.to_receiver [] false)
    ConnDemo.rng0 ConnDemo.rng0 toy_session toy_session ConnDemo.cfg0 ConnDemo.cfg0 ConnDemo.sender1 ConnDemo.receiver1
    eq_refl eq_refl ltac:(cbn; lia) ltac:(unfold is_int; cbn; lia) ltac:(unfold is_int; cbn; lia)) as [H1 H2].
  - apply (crun_sound _ _ (ConnDemo.schedule 0 SendDemo.whole)). vm_compute. reflexivity.
  - apply (crun_sound _ _ (ConnDemo.schedule 0 SafetyDemo.answer)). vm_compute. reflexivity.
  - rewrite Hs. apply SendDemo.senv_b_ok. vm_compute. reflexivity.
  - rewrite Hr. apply Demo.renv_b_ok. vm_compute. reflexivity.
  - exact Hab.
  - exact Hba.
  - split; [exact H1|exact (H2 Hc)].
Defined.
