(* ===== verification/TransferTerm.v ===== *)
(** * TransferTerm

    Termination of the transfer engine.  The loops over messages of
    [src/transfer/transfer.cpp] end when the peer makes progress: a chunk with bytes
    moves the receiver's offset, an acknowledgement that differs from the one before
    moves the sender's.  The number of messages received is bounded by the bytes to
    move, the attempts, and the messages without progress that the peer chose to
    send; and both loops accept such messages without end. *)

From S2P Require Import Prelude Errors Wire Result Crypto.
From S2P Require Import TransferCodec TransferCodecSpec Prog ProgLogic Transfer TransferReceive TransferSend.

(** ** Counting messages *)

(** A chunk without bytes. *)
Definition empty_chunk (m : bytes) : bool :=
  match decode_frame m with
  | Ok d => bool_decide (d_typ d = kTypeChunk) && bool_decide (d_data d = [])
  | _ => false
  end.

(** The received messages that are chunks without bytes. *)
Definition empties (h : list event) : nat := length (List.filter empty_chunk (received h)).

(** The received messages that are not. *)
Definition weighty (h : list event) : nat := length (List.filter (fun m => negb (empty_chunk m)) (received h)).

Lemma receives_received h : receives h = length (received h).
Proof. unfold receives, received. induction h as [|ev h IH]; [done|]. destruct ev; cbn in *; by rewrite <- ?IH. Qed.

Lemma receives_split h : receives h = (weighty h + empties h)%nat.
Proof.
  rewrite receives_received. unfold weighty, empties.
  induction (received h) as [|m l IH]; [done|]. cbn. destruct (empty_chunk m); cbn; lia.
Qed.

Lemma weighty_app h1 h2 : weighty (h1 ++ h2) = (weighty h1 + weighty h2)%nat.
Proof. unfold weighty. by rewrite received_app, List.filter_app, length_app. Qed.

Lemma weighty_other h ev : is_receive ev = false -> weighty (h ++ [ev]) = weighty h.
Proof. intros H. rewrite weighty_app. destruct ev; try done; cbn; lia. Qed.

Lemma weighty_receive h ec m : (weighty (h ++ [EReceive ec m]) <= S (weighty h))%nat.
Proof. rewrite weighty_app. cbn. destruct (negb _); cbn; lia. Qed.

Lemma weighty_chunk h ec i o d :
  frame_wf (FChunk i o d) ->
  Z.of_nat (weighty (h ++ [EReceive ec (frame_bytes (FChunk i o d))])) <= Z.of_nat (weighty h) + zlen d.
Proof.
  intros Hf. rewrite weighty_app. unfold weighty at 2. cbn -[frame_bytes]. unfold empty_chunk.
  rewrite decode_frame_complete by done. destruct d as [|b d]; cbn -[frame_bytes]; rewrite bool_decide_true by done; unfold zlen; cbn -[frame_bytes]; lia.
Qed.

#[export] Hint Rewrite receives_snoc : duplex.

(** ** The receiver *)

Section ReceiverTerm.
Context {Sha : Sha256} {ShaL : Sha256Laws}.
Variable os_message : Z -> string.
Context (limit : Z).

(** No offer announces more than [limit] bytes. *)
Definition announces (ev : event) : Prop :=
  match ev with
  | EReceive _ m => match decode_frame m with Ok d => size (d_meta d) <= limit | _ => True end
  | _ => True
  end.
Definition tenv (ev : event) : Prop := renv ev /\ announces ev.

Section Attempt.
Context (resume : Z) (fuel0 : nat) (base : nat).
Context (Hresume : 0 <= resume).

(** Messages since the start of the attempt, where [base] came before. *)
Definition cost (h : list event) : Z := Z.of_nat (weighty h) - Z.of_nat base.

Definition tfuel (h : list event) : Prop :=
  (fuel0 <= receives h)%nat /\ cost h <= 1 + Z.max 0 (limit - resume).
Definition tpost (res : received_once) (h : list event) : Prop :=
  resume <= r_written res <= Z.max resume limit /\ cost h <= 2 + (r_written res - resume).

Notation wpt := (wp tenv (fun _ => True) tfuel).

Lemma cost_other h ev : is_receive ev = false -> cost (h ++ [ev]) = cost h.
Proof using. intros H. unfold cost. by rewrite weighty_other. Qed.
Lemma cost_receive h ec m : cost (h ++ [EReceive ec m]) <= 1 + cost h.
Proof using. unfold cost. pose proof (weighty_receive h ec m). lia. Qed.
Lemma cost_reads h t : reads_only t -> cost (h ++ t) = cost h.
Proof using.
  intros Ht. unfold cost. rewrite weighty_app. f_equal. f_equal.
  enough (weighty t = 0%nat) by lia. induction Ht as [|ev t (off & n & ec & b & ->) _ IH]; done.
Qed.
(** A result within what the messages so far allow. *)
Lemma tpost_ret e m w h :
  resume <= w <= Z.max resume limit -> cost h <= 2 + (w - resume) -> tpost (MkReceived e m w) h.
Proof using. by split. Qed.

Lemma wp_send_last f res h :
  tpost res h -> wpt (ConnSend (frame_bytes f) (fun _ => Ret res)) h tpost.
Proof using.
  intros [H1 H2] ec _. split; [done|]. split; [done|]. by rewrite cost_other.
Qed.

Section Loop.
Context (opts : Options) (meta : Meta).
Context (Hid : length (id meta) = 16%nat) (Hsize : is_int64 (size meta)).
Context (Hmax : size meta <= 2 ^ 62) (Hlimit : size meta <= limit).

Lemma wpt_await_done w local h :
  resume <= w <= size meta -> length local = 32%nat -> cost h <= 1 + (w - resume) ->
  wpt (await_done meta w local) h tpost.
Proof.
  intros Hw Hl Hc. apply wp_receive_or. intros ec m _. split; [done|].
  pose proof (cost_receive h ec m) as Hc1. set (h1 := h ++ [EReceive ec m]) in *. clearbody h1.
  assert (Hr : forall e, tpost (MkReceived e meta w) h1) by (intros; apply tpost_ret; lia).
  destruct (ec_bool ec); [apply Hr|]. apply wp_decode_or; [apply Hr|]. intros f Hf ->.
  destruct (negb _ || negb _); [apply Hr|].
  unfold verify_and_ack_done. rewrite encode_done_ok by done. apply wp_send_or. intros ec2 _. split; [done|].
  destruct (ec_bool ec2); [|destruct (negb _)]; (apply tpost_ret; [|rewrite cost_other by done]; lia).
Qed.

(** The progress report and, when it is due, the acknowledgement of a chunk. *)
Lemma wpt_acknowledge w since h (loop : Z -> prog received_once) :
  resume <= w <= size meta -> cost h <= 1 + (w - resume) ->
  (forall since' h', cost h' <= 1 + (w - resume) -> receives h' = receives h -> wpt (loop since') h' tpost) ->
  wpt (progress (on_progress opts) w (size meta)
         (if (since + 1 >=? ack_every opts) || (w =? size meta) then
            framed (encode_ack (id meta) w) (fun ack =>
            send_or ack (fun ec => Ret (MkReceived (map_conn_err ec) meta w)) (loop 0))
          else loop (since + 1))) h tpost.
Proof.
  intros Hw Hc Hk. set (rest := if _ || _ then _ else _).
  assert (Hgo : forall h', cost h' <= 1 + (w - resume) -> receives h' = receives h -> wpt rest h' tpost).
  { intros h' Hc' Hr. unfold rest. destruct (_ || _); [|by apply Hk]. rewrite encode_ack_ok by done.
    apply wp_send_or. intros ec _. split; [done|]. destruct (ec_bool ec).
    - apply tpost_ret; [lia|]. rewrite cost_other by done. lia.
    - apply Hk; [by rewrite cost_other|]. rewrite receives_snoc, Hr. cbn. lia. }
  apply wp_progress; [|intros _; by apply Hgo].
  intros ev _ ->. split; [done|]. apply Hgo; [by rewrite cost_other|]. rewrite receives_snoc. cbn. lia.
Qed.

(** The loop: each message either ends it or is a chunk. *)
Lemma wpt_receive_loop fuel hw w since h k :
  (fuel0 <= fuel + receives h)%nat -> resume <= w <= size meta -> hw_offset hw = w ->
  (exists d, hashed (hw_ctx hw) d) -> cost h <= 1 + (w - resume) ->
  (forall hw' h', (exists d, hashed (hw_ctx hw') d) -> cost h' <= 1 + (size meta - resume) ->
     wpt (k hw' (size meta)) h' tpost) ->
  wpt (receive_loop os_message fuel opts meta hw w since k) h tpost.
Proof.
  revert hw w since h. induction fuel as [|fuel IH]; intros hw w since h Hf Hw Ho Hh Hc Hk; cbn [receive_loop].
  all: destruct (w <? size meta) eqn:Hlt; bool_to_prop.
  1: split; [done|lia].
  1, 3: assert (w = size meta) as -> by lia; by apply Hk.
  apply wp_receive_or. intros ec m [Henv _]. split; [done|]. pose proof (cost_receive h ec m) as Hc1.
  assert (Hr : forall e, tpost (MkReceived e meta w) (h ++ [EReceive ec m])) by (intros; apply tpost_ret; lia).
  destruct (ec_bool ec); [apply Hr|]. apply wp_decode_or; [apply Hr|]. intros f Hfw ->.
  destruct f as [|i o|i r|i o d|i o|i st dh|i r]; cbn [decoded_of d_typ d_id d_offset d_data].
  all: repeat (case_bool_decide; try done); cbn [negb orb]; try apply Hr.
  2, 3: guard_false (w =? size meta); apply Hr.
  destruct (o =? w) eqn:Hoff; cbn [negb orb]; [|apply Hr]. bool_to_prop. subst i o.
  pose proof (frame_data_bound _ _ _ _ Hfw Henv) as Hd. pose proof (Zle_0_nat (length d)) as Hd0.
  assert (Hc2 : cost (h ++ [EReceive ec (frame_bytes (FChunk (id meta) w d))]) <= 1 + (w + zlen d - resume))
    by (pose proof (weighty_chunk h ec _ _ _ Hfw); unfold cost in *; lia).
  assert (Hf2 : (fuel0 <= fuel + receives (h ++ [EReceive ec (frame_bytes (FChunk (id meta) w d))]))%nat)
    by (rewrite receives_snoc; cbn [is_receive Nat.b2n]; lia).
  set (h1 := h ++ [EReceive _ _]) in *. clearbody h1. clear Hc1.
  apply wp_i64; [unfold is_int64, zlen in *; lia|].
  destruct (_ >? size meta) eqn:Hgt; [apply Hr|]. bool_to_prop.
  unfold hw_write_at. rewrite Ho, Z.eqb_refl. cbn [negb]. intros ec2 _. split; [done|].
  destruct (ec_bool ec2).
  { rewrite encode_abort_ok by done. apply wp_send_last. destruct (Hr ec2). split; [done|by rewrite cost_other]. }
  apply wp_i64; [unfold is_int64, zlen in *; lia|].
  assert (Hh' : exists d', hashed (sha256_update (hw_ctx hw) d) d')
    by (destruct Hh as [d' Hh]; eexists; by apply hashed_update).
  apply (wpt_acknowledge (w + zlen d) since _ (fun n => receive_loop os_message fuel opts meta _ (w + zlen d) n k));
    [unfold zlen in *; lia|by rewrite cost_other|].
  intros since' h2 Hc3 Hr3. apply IH; try done; [rewrite Hr3, receives_snoc; cbn; lia|unfold zlen in *; lia].
Qed.

(** What follows an accepted offer. *)
Lemma wpt_receive_content reads h :
  resume <= size meta -> (fuel0 <= fuel0 + receives h)%nat -> cost h <= 1 ->
  wpt (receive_content os_message reads resume fuel0 opts meta) h tpost.
Proof.
  intros Hle Hf Hc. unfold receive_content.
  destruct (resume =? size meta) eqn:Heq; bool_to_prop.
  - destruct reads; [|apply wpt_await_done; [lia|done|lia]].
    unfold hash_reader. eapply wp_hash_loop; [done|apply hashed_starts|done|apply hash_fuel_enough; lia| |].
    + intros e t _ Ht _. apply tpost_ret; [lia|]. rewrite cost_reads by done. lia.
    + intros ctx t Ht Hh _ _ _ _. apply wpt_await_done; [lia| |rewrite cost_reads by done; lia].
      rewrite (hashed_finish _ _ Hh). apply sha256_length.
  - assert (Hloop : forall ctx t, reads_only t -> (exists d, hashed ctx d) ->
      wpt (receive_loop os_message fuel0 opts meta (MkHashingWriter resume ctx) resume 0 (fun hw' written =>
        await_done meta written (hw_sum hw'))) (h ++ t) tpost).
    { intros ctx t Ht Hh. apply wpt_receive_loop; try done; [lia|rewrite cost_reads by done; lia|].
      intros hw' h' [d Hd] Hc'. apply wpt_await_done; [lia| |lia].
      unfold hw_sum. rewrite (hashed_finish _ _ Hd). apply sha256_length. }
    unfold HashingWriter_new. destruct (resume >? 0) eqn:Hpos; bool_to_prop.
    + destruct (negb reads).
      * rewrite encode_abort_ok by done. apply wp_send_last, tpost_ret; lia.
      * eapply wp_hash_loop; [done|apply hashed_starts|done|apply hash_fuel_enough; lia| |].
        { intros e t _ Ht _. rewrite encode_abort_ok by done.
          apply wp_send_last, tpost_ret; [lia|]. rewrite cost_reads by done. lia. }
        intros ctx t Ht Hh _ _ _ _. apply Hloop; [done|by eexists].
    + specialize (Hloop sha256_starts []). rewrite app_nil_r in Hloop. apply Hloop; [constructor|].
      eexists. apply hashed_starts.
Qed.

End Loop.

Lemma wpt_receive_once reads want opts h :
  weighty h = base -> wpt (receive_once os_message fuel0 reads resume want opts) h tpost.
Proof.
  intros Hb. assert (Hc : cost h = 0) by (unfold cost; lia). clear Hb. unfold receive_once.
  apply wp_receive_or. intros ec m [Henv Hann]. split; [done|].
  pose proof (cost_receive h ec m) as Hc1. set (h1 := h ++ [EReceive ec m]) in *. clearbody h1.
  assert (Hr : forall e m', tpost (MkReceived e m' resume) h1) by (intros; apply tpost_ret; lia).
  destruct (ec_bool ec); [apply Hr|]. apply wp_decode_or; [apply Hr|]. intros f Hf ->.
  destruct (negb _) eqn:Ht; [apply Hr|]. bool_to_prop.
  destruct f as [meta| | | | | |]; cbn in Ht; try done. cbn [decoded_of d_meta].
  destruct Henv as [_ Hmax]. unfold announces in Hann.
  rewrite decode_frame_complete in Hmax, Hann by done. cbn in Hmax, Hann. destruct Hf as (Hid & Hh & Hsz & Hnm).
  destruct (match want with Some _ => _ | None => _ end).
  { rewrite encode_reject_ok by done. by apply wp_send_last. }
  destruct (resume >? size meta) eqn:Hpast; bool_to_prop.
  { rewrite encode_reject_ok by done. by apply wp_send_last. }
  assert (Hgo : forall h2, cost h2 <= 1 ->
     wpt (framed (encode_accept (id meta) resume) (fun acc =>
          send_or acc (fun ec => Ret (MkReceived (map_conn_err ec) meta resume))
          (progress (on_progress opts) resume (size meta)
             (receive_content os_message reads resume fuel0 opts meta)))) h2 tpost).
  { intros h2 Hc2. rewrite encode_accept_ok by done. apply wp_send_or. intros ec2 _. split; [done|].
    destruct (ec_bool ec2); [apply tpost_ret; [lia|rewrite cost_other by done; lia]|].
    apply wp_progress.
    - intros ev _ ->. split; [done|]. apply wpt_receive_content; try done; [lia|by rewrite !cost_other].
    - intros _. apply wpt_receive_content; try done; [lia|by rewrite cost_other]. }
  destruct (accept opts); [|apply Hgo; lia]. intros aec _. split; [done|].
  destruct (ec_bool aec); [|apply Hgo; rewrite cost_other by done; lia].
  rewrite encode_reject_ok by done. apply wp_send_last, tpost_ret; [lia|rewrite cost_other by done; lia].
Qed.

End Attempt.

(** ** The retries *)

Section Attempts.
Context (resume : Z) (fuel : nat) (o : Options).

(** Never more than two messages per attempt and one per byte. *)
Definition abound (left : nat) (w : Z) : Z := 2 * Z.of_nat left + (Z.max resume limit - w).

Lemma wpt_receive_attempts left reads w want last h :
  0 <= resume <= w -> w <= Z.max resume limit ->
  wp tenv (fun _ => True) (fun h' => (fuel <= receives h')%nat /\ Z.of_nat (weighty h') <= Z.of_nat (weighty h) + abound left w)
    (receive_attempts os_message left fuel reads w want o last) h
    (fun _ h' => Z.of_nat (weighty h') <= Z.of_nat (weighty h) + abound left w).
Proof using ShaL.
  revert w want last h. induction left as [|left IH]; intros w want last h Hw Hm; cbn [receive_attempts].
  { unfold abound. cbn. lia. }
  apply wp_bind. eapply wp_weaken; [done| | |apply (wpt_receive_once w fuel (weighty h)); [lia|done]].
  { intros h' [H1 H2]. split; [done|]. unfold cost, abound in *. lia. }
  intros [e m w'] h' [H1 H2]. cbn [r_err r_meta r_written] in *. unfold cost in H2.
  assert (Hdone : Z.of_nat (weighty h') <= Z.of_nat (weighty h) + abound (S left) w) by (unfold abound; lia).
  destruct (negb (ec_bool e)); [exact Hdone|].
  assert ((if w' >? w then w' else w) = w') as -> by (destruct (w' >? w) eqn:E; bool_to_prop; lia).
  destruct (negb (redial o) || _); [exact Hdone|].
  intros c _. split; [done|]. set (h2 := h' ++ [ERedial c]).
  assert (E2 : weighty h2 = weighty h') by (by apply weighty_other).
  destruct c as [mm|]; [|change (Z.of_nat (weighty h2) <= Z.of_nat (weighty h) + abound (S left) w); by rewrite E2].
  eapply wp_weaken; [done| | |apply IH; lia].
  - intros h3 [H3 H4]. split; [done|]. rewrite E2 in H4. unfold abound in *. lia.
  - intros a h3 H4. rewrite E2 in H4. unfold abound in *. lia.
Qed.

End Attempts.

(** C16 (receive_terminates).  [receive] with its retries ends against every peer that
    keeps making progress: whatever the messages, it receives at most two per
    attempt, one per byte still missing and those that are chunks without bytes; with
    that much fuel it does not run out.  [limit] bounds the sizes the peer announces. *)
Theorem receive_terminates (fuel : nat) (reads : bool) (resume : Z) (opts : option Options)
    (tr : list event) (q : prog (error_code * option Meta)) :
  Forall tenv tr ->
  replay (receive os_message fuel reads resume opts) tr = Some q ->
  let most := 2 * max_attempts (normalize opts) + Z.max 0 (limit - resume) + Z.of_nat (empties tr) in
  match q with
  | Ret _ => Z.of_nat (receives tr) <= most
  | OutOfFuel => Z.of_nat fuel <= Z.of_nat (receives tr) <= most
  | Undef => False
  | _ => True
  end.
Proof using ShaL.
  intros He Hr most. pose proof (normalize_pos opts) as (_ & _ & _ & Hma).
  unfold receive in Hr. destruct (resume <? 0) eqn:Hneg; bool_to_prop.
  { destruct tr as [|ev tr]; [|by destruct ev]. cbn in Hr. simplify_eq. unfold most. cbn. lia. }
  pose proof (wpt_receive_attempts resume fuel (normalize opts) (Z.to_nat (max_attempts (normalize opts)))
    reads resume None ec_none [] ltac:(lia) ltac:(lia)) as Hp.
  eapply (wp_adequate _ _ _ _ [] (fun _ h' => Z.of_nat (weighty h') <= _)) in Hr as [_ Ho];
    [|eapply wp_bind, wp_mono; [|exact Hp]; intros [ec m] h' Hh; exact Hh|done].
  pose proof (receives_split tr) as Hs. unfold most, abound in *. cbn [app] in Ho.
  destruct q; cbn in *; try done; lia.
Qed.

(** One chunk without bytes: the loop is where it was. *)
Lemma receive_loop_stall fuel opts meta hw since k n :
  length (id meta) = 16%nat -> 0 < size meta -> hw_offset hw = 0 -> (S n <= fuel)%nat ->
  let due := since + 1 >=? ack_every opts in
  replay (receive_loop os_message (fuel - n) opts meta hw 0 since k)
    ([EReceive ec_none (frame_bytes (FChunk (id meta) 0 [])); EWrite 0 [] ec_none]
      ++ (if on_progress opts then [EProgress 0 (size meta)] else [])
      ++ (if due then [ESend (frame_bytes (FAck (id meta) 0)) ec_none] else []))
  = Some (receive_loop os_message (fuel - S n) opts meta
            (MkHashingWriter 0 (sha256_update (hw_ctx hw) [])) 0 (if due then 0 else since + 1) k).
Proof using.
  intros Hid Hsz Hw Hn due. replace (fuel - n)%nat with (S (fuel - S n)) by lia. cbn [receive_loop].
  guard_true (0 <? size meta). unfold receive_or, decode_or. cbn -[frame_bytes decode_frame receive_loop encode_ack Z.eqb].
  rewrite decode_frame_complete by (split; [done|unfold is_int64; lia]).
  cbn -[frame_bytes receive_loop encode_ack Z.eqb]. rewrite !bool_decide_true by done. cbn -[frame_bytes receive_loop encode_ack Z.eqb].
  change (0 + zlen []) with 0. unfold i64 at 1. rewrite decide_True by (unfold is_int64; lia).
  guard_false (0 >? size meta). guard_false (0 =? size meta). rewrite orb_false_r. fold due.
  unfold hw_write_at. rewrite Hw. cbn -[frame_bytes receive_loop encode_ack].
  change (0 + zlen []) with 0. unfold i64. rewrite !decide_True by (done || (unfold is_int64; lia)).
  unfold progress. rewrite encode_ack_ok by done.
  destruct (on_progress opts), due; cbn -[frame_bytes receive_loop]; rewrite ?decide_True by done; by rewrite ?decide_True by done.
Qed.

(** But nothing limits a peer that does not: for every offer
    with content and every number [n], there is a run in which the receiver has got
    [n] chunks, accepted each, written nothing and waits in the same loop for more. *)
Theorem receive_can_stall (fuel : nat) (reads : bool) (opts : Options) (meta : Meta) (n : nat) :
  frame_wf (FOffer meta) -> 0 < size meta -> accept opts = false -> (n <= fuel)%nat ->
  exists tr hw since,
    received tr = frame_bytes (FOffer meta) :: replicate n (frame_bytes (FChunk (id meta) 0 []))
    /\ written_bytes tr = []
    /\ replay (receive_once os_message fuel reads 0 None opts) tr
       = Some (receive_loop os_message (fuel - n) opts meta hw 0 since (fun hw' written =>
                 await_done meta written (hw_sum hw'))).
Proof using.
  intros Hf Hsz Hacc Hn. assert (Hi := Hf). destruct Hi as (Hid & _ & Hi64 & _).
  assert (Hc : frame_wf (FChunk (id meta) 0 [])) by (split; [done|unfold is_int64; lia]).
  assert (Hs : forall n, (n <= fuel)%nat -> exists tr hw since,
    received tr = frame_bytes (FOffer meta) :: replicate n (frame_bytes (FChunk (id meta) 0 []))
    /\ written_bytes tr = [] /\ hw_offset hw = 0
    /\ replay (receive_once os_message fuel reads 0 None opts) tr
       = Some (receive_loop os_message (fuel - n) opts meta hw 0 since (fun hw' written =>
                 await_done meta written (hw_sum hw')))); [|naive_solver].
  clear n Hn. intros n. induction n as [|n IH]; intros Hn.
  - exists ([EReceive ec_none (frame_bytes (FOffer meta)); ESend (frame_bytes (FAccept (id meta) 0)) ec_none]
      ++ (if on_progress opts then [EProgress 0 (size meta)] else [])).
    exists (MkHashingWriter 0 sha256_starts), 0. cbn [replicate].
    assert (Hstart : replay (receive_once os_message fuel reads 0 None opts)
      [EReceive ec_none (frame_bytes (FOffer meta)); ESend (frame_bytes (FAccept (id meta) 0)) ec_none]
      = Some (progress (on_progress opts) 0 (size meta)
          (receive_loop os_message fuel opts meta (MkHashingWriter 0 sha256_starts) 0 0 (fun hw' written =>
                 await_done meta written (hw_sum hw'))))).
    { unfold receive_once, receive_or, decode_or. cbn -[frame_bytes decode_frame receive_loop encode_accept Z.eqb].
      rewrite decode_frame_complete by done. cbn -[frame_bytes receive_loop encode_accept Z.eqb].
      guard_false (0 >? size meta). rewrite Hacc, encode_accept_ok by done.
      guard_false (0 =? size meta). cbn -[frame_bytes receive_loop]. rewrite bool_decide_true by done. cbn -[frame_bytes receive_loop]. by rewrite decide_True by done. }
    rewrite replay_app, Hstart, Nat.sub_0_r. unfold progress.
    destruct (on_progress opts); cbn -[frame_bytes receive_loop]; rewrite ?decide_True by done; split_and!; done.
  - destruct IH as (tr & hw & since & H1 & H2 & H3 & H4); [lia|].
    set (due := since + 1 >=? ack_every opts).
    exists (tr ++ [EReceive ec_none (frame_bytes (FChunk (id meta) 0 [])); EWrite 0 [] ec_none]
      ++ (if on_progress opts then [EProgress 0 (size meta)] else [])
      ++ (if due then [ESend (frame_bytes (FAck (id meta) 0)) ec_none] else [])).
    exists (MkHashingWriter 0 (sha256_update (hw_ctx hw) [])), (if due then 0 else since + 1).
    split_and!; [| |done|].
    + rewrite received_app, H1. destruct (on_progress opts), due; cbn -[frame_bytes];
        by rewrite replicate_cons_app.
    + rewrite written_bytes_app, H2. by destruct (on_progress opts), due.
    + rewrite replay_app, H4. by apply receive_loop_stall.
Qed.

End ReceiverTerm.

(** ** The sender *)

(** The messages that are equal to the one before them. *)
Fixpoint repeats (l : list bytes) : nat :=
  match l with
  | a :: ((b :: _) as l') => ((if bool_decide (a = b) then 1 else 0) + repeats l')%nat
  | _ => O
  end.

Lemma repeats_snoc l x : repeats (l ++ [x]) = (repeats l + (if bool_decide (last l = Some x) then 1 else 0))%nat.
Proof.
  induction l as [|a [|b l] IH]; [done| |].
  - cbn. repeat case_bool_decide; simplify_eq; done.
  - change (last (a :: b :: l)) with (last (b :: l)). cbn [app] in *.
    change (repeats (a :: b :: l ++ [x])) with ((if bool_decide (a = b) then 1 else 0) + repeats (b :: l ++ [x]))%nat.
    rewrite IH. cbn [repeats]. lia.
Qed.

Lemma repeats_app l1 l2 : (repeats l1 + repeats l2 <= repeats (l1 ++ l2))%nat.
Proof.
  induction l2 as [|x l2 IH] using rev_ind; [cbn; rewrite app_nil_r; lia|].
  rewrite app_assoc, !repeats_snoc. enough (last l2 = Some x -> last (l1 ++ l2) = Some x) as H.
  { repeat case_bool_decide; try lia. by tauto. }
  rewrite last_app. by intros ->.
Qed.

(** The received messages that are new. *)
Definition news (h : list event) : Z := Z.of_nat (receives h) - Z.of_nat (repeats (received h)).

Lemma news_other h ev : is_receive ev = false -> news (h ++ [ev]) = news h.
Proof.
  intros H. unfold news. rewrite receives_snoc, H, received_app.
  destruct ev; try done; cbn; rewrite app_nil_r; lia.
Qed.

Lemma news_receive h ec m : news (h ++ [EReceive ec m]) <= 1 + news h.
Proof. unfold news. rewrite receives_snoc, received_app. cbn. rewrite repeats_snoc. lia. Qed.

Lemma news_again h ec m : last (received h) = Some m -> news (h ++ [EReceive ec m]) = news h.
Proof.
  intros H. unfold news. rewrite receives_snoc, received_app. cbn.
  rewrite repeats_snoc, bool_decide_true by done. lia.
Qed.

Lemma last_received_other h ev : is_receive ev = false -> last (received (h ++ [ev])) = last (received h).
Proof. intros H. rewrite received_app. destruct ev; try done; cbn; by rewrite app_nil_r. Qed.

Lemma last_received h ec m : last (received (h ++ [EReceive ec m])) = Some m.
Proof. rewrite received_app. apply last_snoc. Qed.

Lemma news_app_le h1 h2 : news (h1 ++ h2) <= news h1 + news h2.
Proof.
  unfold news. rewrite receives_app, received_app. pose proof (repeats_app (received h1) (received h2)). lia.
Qed.

Section SenderTerm.
Context (meta : Meta) (opts : Options) (chunk : Z) (fuel0 : nat).
Context (Hid : length (id meta) = 16%nat) (Hhash : length (hash meta) = 32%nat).
Context (Hsize : 0 <= size meta <= 2 ^ 62).
Context (Hchunk : 0 < chunk < 2 ^ 31) (Hwin : 0 < window opts < 2 ^ 31).

Definition nfuel (h : list event) : Prop := (fuel0 <= receives h)%nat /\ news h <= 3 + size meta.
Definition npost (ec : error_code) (h : list event) : Prop := news h <= 3 + size meta.

Notation wpn := (wp (fun _ => True) (fun _ => True) nfuel).

(** Acknowledged up to [a], sent up to [n]; each new message so far was the offer's
    answer, the first acknowledgement, or one that moved [a]. *)
Definition counted (a : Z) (h : list event) : Prop :=
  news h <= 1 + a \/ last (received h) = Some (frame_bytes (FAck (id meta) a)) /\ news h <= 2 + a.
Definition sending (a n : Z) (h : list event) : Prop :=
  0 <= a <= n /\ n <= size meta /\ n - a <= window opts * chunk /\ counted a h.

Lemma counted_other a h ev : is_receive ev = false -> counted a h -> counted a (h ++ [ev]).
Proof. intros He. unfold counted. by rewrite news_other, last_received_other. Qed.

Lemma counted_news a h : counted a h -> news h <= 2 + a.
Proof. intros [H|[_ H]]; lia. Qed.

(** An acknowledgement at or past the last one. *)
Lemma counted_ack a a' h ec :
  a <= a' -> counted a h -> counted a' (h ++ [EReceive ec (frame_bytes (FAck (id meta) a'))]).
Proof.
  intros Ha Hc. right. split; [apply last_received|].
  destruct (decide (a' = a)) as [->|Hne].
  - destruct Hc as [Hc|[Hl Hc]]; [|by rewrite news_again].
    pose proof (news_receive h ec (frame_bytes (FAck (id meta) a))). lia.
  - apply counted_news in Hc. pose proof (news_receive h ec (frame_bytes (FAck (id meta) a'))). lia.
Qed.

Lemma wpn_send_chunks fuel a n h k :
  size meta - n <= Z.of_nat fuel -> sending a n h ->
  (forall n' h', sending a n' h' -> receives h' = receives h -> wpn (k n') h' npost) ->
  wpn (send_chunks fuel meta chunk (window opts) a n k) h npost.
Proof.
  revert n h. induction fuel as [|fuel IH]; intros n h Hf S Hk; cbn [send_chunks].
  all: assert (S0 := S); destruct S0 as (Ha & Hn & Hw & Hc); pose proof (counted_news _ _ Hc) as Hx.
  all: destruct (count_in_flight_spec a n chunk (window opts) Hchunk Hwin ltac:(lia) Hw) as (f & -> & Hf1 & Hf2 & Hf3).
  all: destruct ((f <? window opts) && (n <? size meta)) eqn:Hg; [|by apply Hk]; bool_to_prop.
  1: lia.
  apply wp_i64; [unfold is_int64; lia|].
  set (len := if n + chunk >? size meta then size meta - n else chunk).
  assert (Hlen : 0 < len <= chunk /\ n + len <= size meta).
  { unfold len. destruct (_ >? _) eqn:E; bool_to_prop; lia. }
  assert (Hp : forall h' ec, news h' <= 2 + a -> npost ec h') by (unfold npost; intros; lia).
  apply wp_read_or. intros ec buf Hb _. split; [done|].
  destruct (ec_bool ec); [apply Hp; by rewrite news_other|].
  rewrite encode_chunk_ok by done. apply wp_send_or. intros ec2 _. split; [done|].
  destruct (ec_bool ec2); [apply Hp; by rewrite !news_other|].
  apply IH; [lia| |intros n' h' S' Hr; apply Hk; [done|by rewrite Hr, !receives_snoc, !Nat.add_0_r]].
  split_and!; [lia|lia|lia|nia|]. by do 2 (apply counted_other; [done|]).
Qed.

Lemma wpn_finish_send h : news h <= 2 + size meta -> wpn (finish_send meta) h npost.
Proof.
  intros Hc. unfold finish_send. rewrite encode_done_ok by done. apply wp_send_or. intros ec _. split; [done|].
  set (h1 := h ++ _). assert (H1 : news h1 <= 2 + size meta) by (unfold h1; by rewrite news_other). clearbody h1.
  destruct (ec_bool ec); [unfold npost, wp; lia|]. apply wp_receive_or. intros ec2 m _. split; [done|].
  pose proof (news_receive h1 ec2 m) as H2.
  assert (Hp : forall ec, npost ec (h1 ++ [EReceive ec2 m])) by (unfold npost; intros; lia).
  destruct (ec_bool ec2); [apply Hp|]. apply wp_decode_or; [apply Hp|]. intros f Hf ->.
  destruct (_ || _); [apply Hp|]. destruct (negb _); apply Hp.
Qed.

Lemma wpn_send_loop fuel a n h :
  (fuel0 <= fuel + receives h)%nat -> sending a n h -> wpn (send_loop fuel opts meta chunk a n) h npost.
Proof.
  revert a n h. induction fuel as [|fuel IH]; intros a n h Hf S; cbn [send_loop].
  all: assert (S0 := S); destruct S0 as (Ha & Hn & Hw & Hc); pose proof (counted_news _ _ Hc) as Hx.
  all: destruct (a <? size meta) eqn:Hlt; bool_to_prop.
  1: split; [done|lia].
  1, 3: apply wpn_finish_send; lia.
  apply wpn_send_chunks; [unfold chunk_fuel; lia|done|]. clear Hx Hc Hw.
  intros n' h' (Ha' & Hn' & Hw' & Hc') Hr. pose proof (counted_news _ _ Hc') as Hx.
  apply wp_receive_or. intros ec m _. split; [done|]. pose proof (news_receive h' ec m) as Hx1.
  assert (Hp : forall e, npost e (h' ++ [EReceive ec m])) by (unfold npost; intros; lia).
  destruct (ec_bool ec); [apply Hp|]. apply wp_decode_or; [apply Hp|]. intros f Hfw ->.
  destruct f as [|i o|i r|i o d|i x|i st dh|i r]; cbn [decoded_of d_typ d_id d_offset].
  all: repeat (case_bool_decide; try done); cbn [negb orb]; try apply Hp.
  destruct ((x <? a) || (x >? n')) eqn:Hg; [apply Hp|]. bool_to_prop. subst i.
  pose proof (counted_ack a x h' ec ltac:(lia) Hc') as Hc2.
  assert (Hf2 : (fuel0 <= fuel + receives (h' ++ [EReceive ec (frame_bytes (FAck (id meta) x))]))%nat)
    by (rewrite receives_snoc; cbn [is_receive Nat.b2n]; lia).
  set (h2 := h' ++ _) in *. clearbody h2. apply wp_progress.
  - intros ev _ ->. split; [done|]. apply IH; [rewrite receives_snoc; cbn; lia|].
    split_and!; [lia|lia|lia|lia|by apply counted_other].
  - intros _. apply IH; [done|]. split_and!; (lia || done).
Qed.

Lemma wpn_send_once max_message_bytes :
  chunk = effective_chunk_size max_message_bytes (chunk_size opts) ->
  wpn (send_once fuel0 max_message_bytes meta opts) [] npost.
Proof.
  intros Hch. unfold send_once. rewrite <- Hch. clear Hch.
  destruct (zlen (name meta) >? 65535) eqn:Hn; bool_to_prop.
  { unfold encode_offer. guard_false (size meta <? 0). guard_true (zlen (name meta) >? 65535).
    change (0 <= 3 + size meta). lia. }
  rewrite encode_offer_ok by lia. apply wp_send_or. intros ec _. split; [done|].
  set (h := [] ++ _). assert (Hh : news h = 0 /\ receives h = 0%nat) by done. destruct Hh as [Hn0 Hr0]. clearbody h.
  destruct (ec_bool ec); [unfold npost, wp; lia|].
  apply wp_receive_or. intros ec2 m _. split; [done|]. pose proof (news_receive h ec2 m) as Hx.
  set (h2 := h ++ _) in *. clearbody h2.
  assert (Hp : forall e, npost e h2) by (unfold npost; intros; lia).
  destruct (ec_bool ec2); [apply Hp|]. apply wp_decode_or; [apply Hp|]. intros g Hg _.
  destruct g as [|i o|i r|i o d|i x|i st dh|i r]; cbn [decoded_of d_typ d_id d_offset].
  all: repeat (case_bool_decide; try done); cbn [negb orb]; try apply Hp.
  destruct ((o <? 0) || (o >? size meta)) eqn:Ho; [apply Hp|]. bool_to_prop.
  assert (Hgo : forall h3, news h3 <= 1 -> wpn (if o =? size meta then finish_send meta
      else send_loop fuel0 opts meta chunk o o) h3 npost).
  { intros h3 Hn3. destruct (o =? size meta); [apply wpn_finish_send; lia|].
    apply wpn_send_loop; [lia|]. split_and!; [lia|lia|lia|nia|left; lia]. }
  apply wp_progress; [|intros _; apply Hgo; lia].
  intros ev _ ->. split; [done|]. apply Hgo. rewrite news_other by done. lia.
Qed.

End SenderTerm.

(** *** The retries *)

Section SendTerm.
Context {Sha : Sha256} {ShaL : Sha256Laws}.
Context (fuel : nat) (o : Options).
Context (Hwin : 0 < window o < 2 ^ 31) (Hchunk : 0 < chunk_size o < 2 ^ 31).

Definition attempts_bound (meta : Meta) (left : nat) (h : list event) : Z :=
  news h + Z.of_nat left * (3 + size meta).

Lemma wpn_send_attempts left cur meta last h :
  length (id meta) = 16%nat -> length (hash meta) = 32%nat -> 0 <= size meta <= 2 ^ 62 ->
  wp (fun _ => True) (fun _ => True) (fun h' => (fuel <= receives h')%nat /\ news h' <= attempts_bound meta left h)
    (send_attempts left fuel cur meta o last) h (fun _ h' => news h' <= attempts_bound meta left h).
Proof using Hwin Hchunk.
  intros Hid Hh Hs. revert cur last h. induction left as [|left IH]; intros cur last h; cbn [send_attempts].
  { unfold attempts_bound. cbn. lia. }
  pose proof (effective_chunk_range cur _ (proj1 Hchunk)) as Hr.
  pose proof (wpn_send_once meta o (effective_chunk_size cur (chunk_size o)) fuel Hid Hh Hs ltac:(lia) Hwin cur eq_refl) as Hp.
  apply (wp_after _ _ _ _ h) in Hp. rewrite app_nil_r in Hp.
  apply wp_bind. revert Hp. apply wp_weaken; [done| |].
  - intros h' (t & -> & H1 & H2). pose proof (news_app_le h t). rewrite receives_app. unfold attempts_bound. nia.
  - intros ec h' (t & -> & H2). unfold npost in H2. pose proof (news_app_le h t) as H3.
    assert (H4 : news (h ++ t) <= attempts_bound meta (S left) h) by (unfold attempts_bound; nia).
    destruct (negb (ec_bool ec)); [exact H4|]. destruct (negb (redial o) || _); [exact H4|].
    intros c _. split; [done|]. set (h2 := (h ++ t) ++ [ERedial c]).
    assert (E2 : news h2 = news (h ++ t)) by (by apply news_other).
    destruct c as [mm|]; [|change (news h2 <= attempts_bound meta (S left) h); by rewrite E2].
    eapply wp_weaken; [done| | |apply IH]; unfold attempts_bound in *; rewrite E2 in *.
    + intros h3 [H5 H6]. split; [done|]. nia.
    + intros e h3 H6. nia.
Qed.

Lemma news_reads h t : reads_only t -> news (h ++ t) = news h.
Proof using.
  intros Ht. revert h. induction Ht as [|ev t (off & n & ec & b & ->) _ IH]; intros h; [by rewrite app_nil_r|].
  rewrite (app_assoc h [_] t : h ++ ERead off n ec b :: t = _), IH. by apply news_other.
Qed.

(** [send] after the id is in place. *)
Lemma wpn_send_hash meta left cur h :
  length (id meta) = 16%nat -> length (hash meta) = 32%nat -> 0 <= size meta <= 2 ^ 62 ->
  wp (fun _ => True) (fun _ => True) (fun h' => (fuel <= receives h')%nat /\ news h' <= attempts_bound meta left h)
    (if is_zero_hash (hash meta)
     then hash_reader (size meta) Ret (fun hh =>
            send_attempts left fuel cur (MkMeta (id meta) (name meta) (size meta) hh) o ec_none)
     else send_attempts left fuel cur meta o ec_none) h
    (fun _ h' => news h' <= attempts_bound meta left h).
Proof using Hwin Hchunk ShaL.
  intros Hi Hh Hs. destruct (is_zero_hash _); [|by apply wpn_send_attempts].
  unfold hash_reader. eapply wp_hash_loop; [done|apply hashed_starts|done|apply hash_fuel_enough; lia| |].
  - intros e t _ Ht _. unfold attempts_bound. cbn. rewrite news_reads by done. nia.
  - intros ctx t Ht Hc _ _ _ _. set (m := MkMeta _ _ _ _).
    assert (E : attempts_bound m left (h ++ t) = attempts_bound meta left h)
      by (unfold attempts_bound; by rewrite news_reads).
    rewrite <- E. apply wpn_send_attempts; [done| |done].
    cbn. rewrite (hashed_finish _ _ Hc). apply sha256_length.
Qed.

End SendTerm.

(** C17 (send_terminates).  [send] with its retries ends against every peer that does not
    repeat itself for ever: whatever the messages, an attempt receives at most one per
    byte and three more, apart from those equal to the message before them; with
    that much fuel it does not run out. *)
Theorem send_terminates `{Sha : Sha256} `{ShaL : !Sha256Laws} (fuel : nat) (mm : Z) (meta : Meta)
    (opts : option Options) (tr : list event) (q : prog error_code) :
  length (id meta) = 16%nat -> length (hash meta) = 32%nat -> size meta <= 2 ^ 62 ->
  is_int (window (normalize opts)) -> is_int (chunk_size (normalize opts)) ->
  replay (send fuel mm meta opts) tr = Some q ->
  let most := max_attempts (normalize opts) * (3 + Z.max 0 (size meta)) + Z.of_nat (repeats (received tr)) in
  match q with
  | Ret _ => Z.of_nat (receives tr) <= most
  | OutOfFuel => Z.of_nat fuel <= Z.of_nat (receives tr) <= most
  | Undef => False
  | _ => True
  end.
Proof.
  intros Hi Hh Hs Hw Hc Hr most. destruct (normalize_pos opts) as (Pc & Pw & _ & Pm). unfold is_int in *.
  unfold send in Hr. destruct (size meta <? 0) eqn:Hneg; bool_to_prop.
  { destruct tr as [|ev tr]; [|by destruct ev]. cbn in Hr. simplify_eq. unfold most. cbn. lia. }
  assert (Hwp : wp (fun _ => True) (fun _ => True)
    (fun h' => (fuel <= receives h')%nat /\ news h' <= max_attempts (normalize opts) * (3 + size meta))
    (send fuel mm meta opts) [] (fun _ h' => news h' <= max_attempts (normalize opts) * (3 + size meta))).
  { unfold send. guard_false (size meta <? 0).
    assert (Hgo : forall m h, size m = size meta -> news h = 0 ->
      attempts_bound m (Z.to_nat (max_attempts (normalize opts))) h = max_attempts (normalize opts) * (3 + size meta)).
    { intros m h Hm Hn. unfold attempts_bound. rewrite Hm, Hn. lia. }
    case_bool_decide.
    - intros i Hl _. split; [done|]. set (m := MkMeta i _ _ _). rewrite <- (Hgo m [ENewId i] eq_refl eq_refl).
      by apply (wpn_send_hash fuel (normalize opts) ltac:(lia) ltac:(lia) m).
    - rewrite <- (Hgo meta [] eq_refl eq_refl). apply wpn_send_hash; done || lia. }
  apply (wp_adequate _ _ _ _ [] _ tr q) in Hwp as [_ Ho]; [|by apply Forall_true|unfold send; by guard_false (size meta <? 0)].
  unfold most, news in *. cbn [app] in Ho. destruct q; cbn in *; try done; lia.
Qed.

(** A source that answers every read fills the window. *)
Lemma send_chunks_runs fuel meta chunk win a n k :
  length (id meta) = 16%nat -> 0 < chunk < 2 ^ 31 -> 0 < win < 2 ^ 31 -> size meta <= 2 ^ 62 ->
  0 <= a <= n -> n <= size meta -> n - a <= win * chunk -> size meta - n <= Z.of_nat fuel ->
  exists t n', replay (send_chunks fuel meta chunk win a n k) t = Some (k n') /\ received t = []
    /\ n <= n' <= size meta /\ n' - a <= win * chunk.
Proof.
  intros Hid Hc Hw Hs. revert n. induction fuel as [|fuel IH]; intros n Ha Hn Hnw Hf; cbn [send_chunks].
  all: destruct (count_in_flight_spec a n chunk win Hc Hw ltac:(lia) Hnw) as (f & -> & Hf1 & Hf2 & Hf3).
  all: destruct ((f <? win) && (n <? size meta)) eqn:Hg; bool_to_prop; [|exists [], n; split_and!; (done || lia)].
  1: lia.
  set (len := if n + chunk >? size meta then size meta - n else chunk).
  assert (Hlen : 0 < len <= chunk /\ n + len <= size meta).
  { unfold len. destruct (_ >? _) eqn:E; bool_to_prop; lia. }
  destruct (IH (n + len)) as (t & n' & H1 & H2 & H3 & H4); [lia|lia|nia|lia|].
  set (buf := replicate (Z.to_nat len) Byte.x00).
  exists (ERead n (Z.to_nat len) ec_none buf :: ESend (frame_bytes (FChunk (id meta) n buf)) ec_none :: t), n'.
  split_and!; [|done|lia|lia|lia].
  unfold i64. rewrite decide_True by (unfold is_int64; lia). fold len. cbn -[frame_bytes encode_chunk].
  rewrite decide_True by (split_and!; [done|done|apply length_replicate]).
  rewrite encode_chunk_ok by done. cbn -[frame_bytes]. by rewrite decide_True by done.
Qed.

(** A program that goes on after a progress report. *)
Lemma replay_progress {A} set x y (k : prog A) : exists t, received t = [] /\ replay (progress set x y k) t = Some k.
Proof.
  unfold progress. destruct set; [|by exists []].
  exists [EProgress x y]. split; [done|]. cbn. by rewrite decide_True.
Qed.

(** One acknowledgement of nothing: the loop is where it was. *)
Lemma send_loop_stall fuel opts meta chunk next :
  length (id meta) = 16%nat -> 0 < chunk < 2 ^ 31 -> 0 < window opts < 2 ^ 31 -> 0 < size meta <= 2 ^ 62 ->
  0 <= next <= size meta -> next <= window opts * chunk ->
  exists t next', received t = [frame_bytes (FAck (id meta) 0)]
    /\ 0 <= next' <= size meta /\ next' <= window opts * chunk
    /\ replay (send_loop (S fuel) opts meta chunk 0 next) t = Some (send_loop fuel opts meta chunk 0 next').
Proof.
  intros Hid Hc Hw Hs Hn Hnw. cbn [send_loop]. guard_true (0 <? size meta).
  match goal with |- context [send_chunks ?f _ _ _ _ _ ?k] =>
    destruct (send_chunks_runs f meta chunk (window opts) 0 next k) as (t & next' & H1 & H2 & H3 & H4);
      [done|done|done|lia|lia|lia|lia|unfold chunk_fuel; lia|] end.
  destruct (replay_progress (on_progress opts) 0 (size meta) (send_loop fuel opts meta chunk 0 next')) as (t2 & H5 & H6).
  exists (t ++ [EReceive ec_none (frame_bytes (FAck (id meta) 0))] ++ t2), next'.
  split_and!; [|lia|lia|lia|].
  - by rewrite !received_app, H2, H5.
  - rewrite replay_app, H1. unfold receive_or, decode_or. cbn -[frame_bytes decode_frame send_loop Z.gtb].
    rewrite decode_frame_complete by (split; [done|unfold is_int64; lia]).
    cbn -[frame_bytes send_loop Z.gtb]. rewrite !bool_decide_true by done. cbn [negb orb].
    by guard_false (0 >? next').
Qed.

(** And nothing limits a peer that does repeat itself: for every
    content and every number [n] there is a run in which the sender has received [n]
    times the acknowledgement of nothing, accepted each, and waits in the same loop
    for more. *)
Theorem send_can_stall (fuel : nat) (mm : Z) (meta : Meta) (opts : Options) (n : nat) :
  frame_wf (FOffer meta) -> 0 < size meta <= 2 ^ 62 -> 0 < window opts < 2 ^ 31 -> 0 < chunk_size opts < 2 ^ 31 ->
  (n <= fuel)%nat ->
  exists tr next,
    received tr = frame_bytes (FAccept (id meta) 0) :: replicate n (frame_bytes (FAck (id meta) 0))
    /\ replay (send_once fuel mm meta opts) tr
       = Some (send_loop (fuel - n) opts meta (effective_chunk_size mm (chunk_size opts)) 0 next).
Proof.
  intros Hf Hs Hw Hc Hn. assert (Hi := Hf). destruct Hi as (Hid & Hh & _ & Hnm).
  pose proof (effective_chunk_range mm _ (proj1 Hc)) as Hr. set (chunk := effective_chunk_size _ _) in *.
  assert (Hs' : exists tr next,
    received tr = frame_bytes (FAccept (id meta) 0) :: replicate n (frame_bytes (FAck (id meta) 0))
    /\ 0 <= next <= size meta /\ next <= window opts * chunk
    /\ replay (send_once fuel mm meta opts) tr = Some (send_loop (fuel - n) opts meta chunk 0 next)); [|naive_solver].
  revert Hn. induction n as [|n IH]; intros Hn.
  - destruct (replay_progress (on_progress opts) 0 (size meta) (send_loop fuel opts meta chunk 0 0)) as (t & Ht & Hrun).
    exists ([ESend (frame_bytes (FOffer meta)) ec_none; EReceive ec_none (frame_bytes (FAccept (id meta) 0))] ++ t), 0.
    split_and!; [rewrite received_app; by rewrite Ht|lia|lia|nia|].
    rewrite replay_app, Nat.sub_0_r. unfold send_once. fold chunk. rewrite encode_offer_ok by lia.
    cbn -[frame_bytes decode_frame send_loop Z.eqb Z.gtb]. rewrite decide_True by done. unfold decode_or.
    change (ec_bool ec_none) with false. unfold receive_or. cbn -[frame_bytes decode_frame send_loop Z.eqb Z.gtb].
    change (ec_bool ec_none) with false. cbn [negb].
    rewrite decode_frame_complete by (split; [done|unfold is_int64; lia]).
    cbn -[frame_bytes send_loop Z.eqb Z.gtb]. rewrite !bool_decide_false, !bool_decide_true by done. cbn [negb orb].
    guard_false (0 >? size meta). cbn -[frame_bytes send_loop Z.eqb]. guard_false (0 =? size meta). exact Hrun.
  - destruct IH as (tr & next & H1 & H2 & H3 & H4); [lia|].
    destruct (send_loop_stall (fuel - S n) opts meta chunk next Hid ltac:(lia) ltac:(lia) ltac:(lia) ltac:(lia) ltac:(lia))
      as (t & next' & H5 & H6 & H7 & H8).
    exists (tr ++ t), next'. split_and!; [|lia|lia|lia|].
    + rewrite received_app, H1, H5. cbn [app]. by rewrite <- replicate_S_end.
    + rewrite replay_app, H4. by replace (fuel - n)%nat with (S (fuel - S n)) by lia.
Qed.

(** ** Witnesses *)

Import Toy.

Module TermDemo.
Import TransferReceive.Demo.

Definition announces_b (limit : Z) (ev : event) : bool :=
  match ev with
  | EReceive _ m => match decode_frame m with Ok d => size (d_meta d) <=? limit | _ => true end
  | _ => true
  end.

Lemma tenv_b_ok limit tr :
  forallb renv_b tr = true -> forallb (announces_b limit) tr = true -> Forall (tenv limit) tr.
Proof.
  intros H1%renv_b_ok H2. rewrite forallb_forall in H2. apply Forall_forall. intros ev Hev. split.
  - by eapply Forall_forall in H1.
  - rewrite list_elem_of_In in Hev. specialize (H2 ev Hev). destruct ev; try done. cbn in *.
    destruct (decode_frame m); try done. by apply Z.leb_le.
Qed.

End TermDemo.

Lemma receive_terminates_witness :
  replay (receive Demo.no_os 9 false 0 (Some Demo.opts)) Demo.trace = Some (Ret (ec_none, Some Demo.file_meta))
  /\ Z.of_nat (receives Demo.trace) <= 18.
Proof.
  assert (H : replay (receive Demo.no_os 9 false 0 (Some Demo.opts)) Demo.trace
    = Some (Ret (ec_none, Some Demo.file_meta))) by (vm_compute; reflexivity).
  split; [exact H|].
  exact (receive_terminates Demo.no_os 2 9 false 0 (Some Demo.opts) Demo.trace _
    (TermDemo.tenv_b_ok 2 Demo.trace ltac:(vm_compute; reflexivity) ltac:(vm_compute; reflexivity)) H).
Defined.

Lemma send_terminates_witness :
  replay (send 9 65536 SendDemo.blank (Some Demo.opts)) SendDemo.whole = Some (Ret ec_none)
  /\ Z.of_nat (receives SendDemo.whole) <= 40.
Proof.
  assert (H : replay (send 9 65536 SendDemo.blank (Some Demo.opts)) SendDemo.whole = Some (Ret ec_none))
    by (vm_compute; reflexivity).
  split; [exact H|].
  exact (send_terminates 9 65536 SendDemo.blank (Some Demo.opts) SendDemo.whole _
    eq_refl eq_refl ltac:(cbn; lia) ltac:(unfold is_int; cbn; lia) ltac:(unfold is_int; cbn; lia) H).
Defined.

